(* ===== verification/_CoqProject ===== *)
-Q . S2P
Prelude.v
AddSigned.v
CodeAddress.v
Slices.v
Generation.v
ModuleList.v
RuleCache.v
Hazard.v
UnwindRule.v
X86Regs.v
X86Rules.v
Aarch64Rules.v
Images.v
Sections.v
Dwarf.v
X86Dwarf.v
Aarch64Dwarf.v
Compact.v
X86Analysis.v
X86Compact.v
Aarch64Analysis.v
Aarch64Compact.v
Pe.v
Unwinder.v
ModuleData.v
Arch.v
Progress.v
Typing.v
NoPanic.v
StackBounds.v
State.v
Sequential.v
Registry.v
Jit.v
Scan.v
Elf.v
MachoImage.v
PeImage.v
Cursor.v
Backtrace.v
Termination.v
TypedWorld.v
Api.v
Total.v
ApiStub.v
