(* ===== verification/Prelude.v ===== *)
(** * framehopunwind: verification development

    framehopunwind is a small C API for stack unwinding ([src/src/]) on top of a vendored
    copy of the framehop library ([src/vendor/framehop/src/]). This development models
    both and proves what makes them correct. Names of definitions are those of the
    source; in this comment files without a directory are under [src/src/], and files
    with [framehop:] in front are under [src/vendor/framehop/src/].

    ** How the program is put together

    A process publishes the set of its modules: the images its loader has mapped and the
    JIT code it registers. [modules/mod.rs] keeps a registry of what is published, under
    a lock, and updates an immutable snapshot through [state::with_writer]; the platform
    files [modules/elf.rs], [modules/macho.rs] and [modules/pe.rs] find the loader's
    images, and [modules/jit.rs] registers [.eh_frame] buffers. A walk ([cursor.rs])
    claims a slot of a pool, protects the current snapshot with a hazard pointer
    ([state.rs]), and steps through the frames: it asks framehop for the next frame with
    the snapshot's modules, the slot's cache, and a reader that refuses addresses outside
    the walk's stack windows. framehop looks the address up in a cache of unwind rules,
    and on a miss finds the module, consults its unwind data (DWARF, Apple's compact
    format, or PE tables, with instruction analysis for prologues and epilogues) and gets
    a rule it can cache or the caller's frame itself. A rule is executed on the registers
    and the stack. [lib.rs] is the C surface.

    ** Files, in dependency order

    Shared: this file (machine integers, byte lists, [Result], a state-and-error monad,
    tactics, hints), [AddSigned] and [CodeAddress] (framehop: [add_signed.rs],
    [code_address.rs]), [Slices] (binary search of slices).

    framehop, rules and registers: [UnwindRule] (the interface: errors, the classes
    [UnwindRule] and [UnwindRuleLaws]), [X86Regs], [X86Rules], [Aarch64Rules] (the two
    architectures, framehop: [x86_64/], [aarch64/]).

    framehop, unwind data: [Sections] (section information and base addresses), [Dwarf],
    [X86Dwarf], [Aarch64Dwarf] ([dwarf.rs] and the translation to rules per architecture),
    [Compact], [X86Compact], [Aarch64Compact] ([macho.rs]), [X86Analysis],
    [Aarch64Analysis] ([instruction_analysis/]), [Pe] ([pe.rs]).

    framehop, the unwinder: [Generation] (the global generation counter, as a function and
    as interleaved steps), [ModuleList] (the chunked sorted list of modules), [RuleCache],
    [Unwinder] ([with_cache], [unwind_frame], the iterator), [ModuleData] ([Module::new]'s
    choice of unwind data and [unwind_frame_impl], the callback of [with_cache]).

    The crate: [Arch] ([arch.rs], [capture.rs], [sigreturn.rs]; the class [Native] is what
    the cursor asks of an architecture), [Progress] (the classes of architectures whose
    rules are executed without a panic and move up the stack), [Typing] (the class of
    architectures whose registers hold machine words, and the rules by which computations
    keep them so), [NoPanic] (unwinding a frame returns, for unwind data of every kind),
    [StackBounds] ([stackbounds.rs]), [Hazard] (every interleaving of the atomic accesses
    of [state.rs]), [State] (the operations of [state.rs] with their data), [Sequential]
    (those operations as runs of [Hazard]'s steps), [Registry] ([modules/mod.rs]), [Jit], [Images], [Scan],
    [Elf], [MachoImage], [PeImage] (the platforms), [Cursor] ([cursor.rs]),
    [Backtrace] (a caller's loop over [fh_step], as [unwind_via_cursor] of [tests.rs] and
    [tests/c_smoke.c] have it), [Termination] (that the loop ends), [TypedWorld] (that the
    library's state and memory stay machine words), [Api] ([lib.rs] on the whole state), [Total]
    (that its calls return), [ApiStub] (its fallback).

    ** How state is modelled

    Integers are [Z] at the width the code gives them, with wrap-around, checked or
    saturating operations as the code has them; unguarded [+] and [-] wrap, as in the
    release build. Code that changes a [&mut] value and may fail is in [ST S E]: the
    state reached is kept when it fails. A panic aborts the process: it is the error
    [Panicked] (or [Panic]), and theorems show it does not occur where the code relies on
    that. The crate's statics are the record [State.state]; snapshots live in a heap
    [gmap ptr Snapshot], so that using a freed one is the error [UseAfterFree] and the
    sharing of a snapshot between walks is explicit. Cursors, contexts and outputs are
    words of one process memory, the memory the stack reader reads too, so they may alias.
    The registry's world adds its published keys to the statics ([Registry.World]), JIT
    registration adds its failure counter ([Jit]), and [Api.ApiWorld] adds the thread's
    stack bounds, the memory and the "callbacks installed" flag. A C call, a callback of
    dyld and a write of the program are steps of [Api.run_call].

    ** What the theorems show

    - No use after free and exclusive slots. [Hazard] proves for every interleaving of
      readers, a writer and growth of the pool that a snapshot a reader holds is alive
      ([no_use_after_free]), that the allocated snapshots are exactly the published, the
      retired and the just boxed ones ([snapshot_accounting]) and that a slot has one
      owner ([slot_exclusive]), by invariants over a step relation. [State] and [Cursor] prove it for the operations as
      they are composed in the code: [with_writer_publishes], [claim_release],
      [ensure_slots_grows], [api_never_uses_freed_snapshot]. [operations_are_runs] joins
      the two: an operation of [State] is a run of the steps of [Hazard], whatever the
      other threads are in the middle of.
    - The whole API. [Api.api_refines]: after any sequence of calls the published snapshot
      is the module map of a small specification ([spec_calls]) and every walk in progress
      is well formed; [walk_keeps_modules]: a walk unwinds with the modules there were when
      it began, whatever is published meanwhile.
    - Every call returns. [calls_never_panic] and [calls_never_panic_aarch64]: no sequence
      of calls that keeps the guarantees of [calls_ok] panics, whatever the contents of the
      buffers, contexts, cursors and stacks the calls are given and whatever the modules' DWARF and compact unwind data say, so that [api_refines]
      holds of it without its proviso. What is asked is that the function table of a PE
      image is well formed ([NoPanic.tables_wf]); [function_beyond_text_panics] and
      [circular_chain_never_ends] are what happens otherwise. The ingredients are rules
      that stay in the range of their types ([Progress.RuleRange], kept through the cache
      by [RuleCache.rules_in]), rules that are executed without a panic
      ([Progress.SafeRules]), and the data the library builds ([explicit_module_safe],
      [pe_data_kept]).
    - Walks. [Cursor.step_refines] (output, then advance to the frame that the relation
      [next_frame] gives for the current one), [init_starts_at_context] (exact
      codes and windows), [stale_cursor_is_inert], [step_reads_only_windows],
      [fini_releases_once]; [stack_window_bounds]; [capture_is_callers_frame] and
      [find_trampoline_sound] for the contexts and signal frames.
    - Progress. [exec_strictly_advances] and [exec_aarch64_advances]: every frame but the
      first moves the stack pointer strictly up.
    - Whole walks, from [fh_cursor_init_bounds2] on. [compact_backtrace_terminates] and
      [compact_backtrace_terminates_aarch64]: over modules that are unwound by rules the
      loop ends without a panic within a number of steps given by the stack windows,
      whatever the stack holds; both are instances of an argument over the class
      [Progress.Climbing]. On x86_64, [frame_pointer_backtrace]: in unknown code the walk
      outputs exactly the frames of the frame-pointer list ([frame_pointer_walk] is the
      part about the rule).
      Rows of DWARF that are not translated to rules may leave the stack pointer where it
      was (the code only asks that the return address changes) or, in a signal frame, move
      it down, so no bound on the steps holds for them.
    - Machine words. Integers are [Z] here, where the types of the source keep them in
      range; [words_stay_words] and [words_stay_words_aarch64] check that the model does so
      too, through any calls and any unwind data, from a typing of every computation that
      changes registers ([Typing]). This is about the encoding, not about the code.
    - What caching changes. [cached_step_spec] for any callback with stable rules and
      [module_steps_cached] for the program's: a step through the cache is the step without
      it but for two exceptions, which they state: a rule found for the other kind of frame
      at the same lookup address (compact unwind info and PE only), and the fallback rule,
      which is kept once unwinding has failed ([failure_is_cached]).
      [module_change_invalidates], [insert_then_lookup], [impl_rule_cacheable] (a rule
      comes without the registers or stack having been looked at).
    - Lookup and module lists: [add_module_refines], [remove_module_refines],
      [find_module_for_address_spec] against a finite map; [generations_never_reused].
    - Unwind information. Cacheable rules agree with evaluating a row directly
      ([translated_rule_agrees], [translated_rule_agrees_aarch64]), with running a PE
      epilog ([epilog_rule_agrees]) and with running detected prologues and epilogues
      instruction by instruction, as the processor decodes them ([epilogue_rule_unwinds],
      [prologue_rule_unwinds], [epilogue_rule_unwinds_aarch64],
      [prologue_rule_unwinds_aarch64], [sequence_rule_refines]), and with the stack layout
      of a frameless function ([frameless_rule_unwinds]) and of the stub helper
      ([stub_helper_rule_undoes]);
      [index_lookup_spec] for the index of FDEs; [encode_decode_roundtrip].
    - The registry and the platforms. [registry_refines] for any sequence of registry
      operations; [elf_refresh_exact] and [pe_refresh_exact]: an incremental refresh
      publishes what a scan from nothing would; [list_modules_complete];
      [image_load_unload]; where the parsers find the sections ([image_sections_located],
      [pe_memory_of_image], [image_text_available], [eh_frame_start_roundtrip]); JIT
      registration: [register_outcome] (also when the module gets no unwind data),
      [register_then_deregister],
      [auto_registration_usable], [stale_eh_frame_is_inert].

    Every claim with hypotheses has a [_witness], which applies it to concrete data.

    ** Parameters

    Code that is not in the repository is an argument. Class [Dwarf.Gimli] has the types
    and functions of gimli that are used, [Compact.MachoUnwindInfo] those of
    macho-unwind-info, [Pe.PeUnwindInfo] those of pe-unwind-info, [Images.DefaultHasher]
    the standard hasher; each has a concrete instance in the [example] sections. Laws are
    assumed only where a theorem needs them and are stated there (such as
    [Dwarf.cies_agree]: a section's CIEs parse the same through either interface;
    [Typing.evaluations_typed] and [Typing.resolve_typed]: the crates compute on [u64];
    [Compact.lookup_contains]: a function that is looked up contains the address;
    [parse_u16]: an opcode's stack size has 16 bits; [NoPanic.epilogs_use_frame_register]:
    an epilog restores the stack pointer from a frame register only where there is one).
    The
    operating system's answers are arguments: what [dl_iterate_phdr], the Windows calls,
    dyld and pthread report, and the bytes of images, as a byte-addressed memory. The
    order in which a [HashMap] is iterated is a permutation [hash_iter]; addresses of new
    boxes are chosen by [alloc], of which only freshness is assumed; [to_string_lossy] is a
    function.

    ** Fuel and bounds

    - [ensure_slots] loops while chunks are missing; its fuel is [MAX_SLOT_CHUNKS], after
      which the code stops too, and [ensure_slots_grows] shows it reaches the size asked
      or the 1024 slots there can be.
    - [list_modules] makes at most eight attempts in the source; the fuel is that bound.
    - [binary_search_loop] has the length of the slice as fuel, and
      [binary_search_loop_inv] shows the interval is down to one element by then.
    - [chained_infos] of a PE function follows links of the image. Its fuel
      [memory_limit] is how many infos fit in memory: collecting more aborts the process,
      and so the model reports a panic. Every theorem holds for every limit.
    - [lower_hex] has 16 digits for a 64-bit value.
    - All other recursion is structural: DWARF expressions are finite trees of what gimli
      asks for next, and instruction analysis consumes the bytes of the function.

    ** Not modelled

    - Formatting and messages: [Display] implementations, error sources, the panic hook
      (it writes a message before the abort).
    - Marker types, re-exports, newtype delegations and build configuration.
    - Locks: an operation of the registry is one step, as the lock makes it; a poisoned
      lock is taken over by the code as it is. The interleavings that locks do not
      exclude, of walks with one another and with a writer, are in [Hazard].
    - Weak memory: [Hazard] gives [CURRENT] and the hazard cells one value at a time,
      which is what the [SeqCst] accesses of the protocol ensure; the one weaker load of
      [CURRENT] may return any pointer.
    - In [Hazard], a release through a copy of a cursor while its walk is still running on
      another thread: there a walk's slot is released by the walk. ([release_slot] of [State] is
      for any slot and nonce; [fini_releases_once] is about copies of a cursor.)
    - [TRAMPOLINE] of [sigreturn.rs] is given to [Native_aarch64_linux] as a value, which
      [sigreturn_init] computes; [modules_init] does nothing else for it.
    - The repository's tests. *)
From stdpp Require Export base tactics decidable option list list_numbers numbers fin_maps gmap strings sorting.
From Stdlib Require Export ZArith Lia.

#[global] Set Default Goal Selector "!".
#[global] Open Scope Z_scope.

(** ** Rust's fallible results and a state-and-error monad *)

(** [Result<A, E>]. *)
Inductive result (E A : Type) : Type :=
  | Ok (a : A)
  | Err (e : E).
Arguments Ok {E A} a.
Arguments Err {E A} e.

#[export] Instance result_eq_dec (E A : Type) `{EqDecision E, EqDecision A} :
  EqDecision (result E A).
Proof. solve_decision. Defined.

#[export] Instance result_ret E : MRet (result E) := fun A a => Ok a.
#[export] Instance result_bind E : MBind (result E) := fun A B f m =>
  match m with Ok a => f a | Err e => Err e end.
#[export] Instance result_fmap E : FMap (result E) := fun A B f m =>
  match m with Ok a => Ok (f a) | Err e => Err e end.

(** [Option::ok_or]. *)
Definition ok_or {E A} (e : E) (o : option A) : result E A :=
  match o with Some a => Ok a | None => Err e end.

(** [Result::ok]. *)
Definition ok {E A} (r : result E A) : option A :=
  match r with Ok a => Some a | Err _ => None end.

(** [Result::map_err]. *)
Definition map_err {E F A} (f : E -> F) (r : result E A) : result F A :=
  match r with Ok a => Ok a | Err e => Err (f e) end.

(** A computation on a mutable [S] that may stop with an error; the state it
    has reached is kept in either case, as with an early [return Err(..)] out
    of a function that holds a [&mut S]. *)
Definition ST (S E A : Type) : Type := S -> result E A * S.

#[export] Instance st_ret S E : MRet (ST S E) := fun A a s => (Ok a, s).
#[export] Instance st_bind S E : MBind (ST S E) := fun A B f m s =>
  match m s with
  | (Ok a, s') => f a s'
  | (Err e, s') => (Err e, s')
  end.

Definition st_get {S E} : ST S E S := fun s => (Ok s, s).
Definition st_modify {S E} (f : S -> S) : ST S E unit := fun s => (Ok tt, f s).
Definition st_lift {S E A} (r : result E A) : ST S E A := fun s => (r, s).
Definition st_throw {S E A} (e : E) : ST S E A := fun s => (Err e, s).

(** ** Machine integers

    A [w]-bit unsigned integer is a [Z] in [0, 2^w); a signed one a [Z] in
    [-2^(w-1), 2^(w-1)). *)

Definition in_u (w z : Z) : Prop := 0 <= z < 2 ^ w.
Definition in_s (w z : Z) : Prop := - 2 ^ (w - 1) <= z < 2 ^ (w - 1).
Abbreviation u64 := (in_u 64).
Abbreviation u32 := (in_u 32).
Abbreviation u16 := (in_u 16).
Abbreviation u8 := (in_u 8).
Abbreviation i64 := (in_s 64).
Abbreviation i32 := (in_s 32).
Abbreviation i16 := (in_s 16).

Definition u64_MAX : Z := 2 ^ 64 - 1.
Definition u32_MAX : Z := 2 ^ 32 - 1.

(** [x as uW] and [x as iW]: reduction modulo [2^w]. *)
Definition as_u (w z : Z) : Z := z mod 2 ^ w.
Definition as_s (w z : Z) : Z := (z + 2 ^ (w - 1)) mod 2 ^ w - 2 ^ (w - 1).

(** [uW::try_from(x)] and [iW::try_from(x)]. *)
Definition try_u (w z : Z) : option Z :=
  if (0 <=? z) && (z <? 2 ^ w) then Some z else None.
Definition try_s (w z : Z) : option Z :=
  if (- 2 ^ (w - 1) <=? z) && (z <? 2 ^ (w - 1)) then Some z else None.

Definition wrapping_add (w a b : Z) : Z := as_u w (a + b).
Definition wrapping_sub (w a b : Z) : Z := as_u w (a - b).
Definition checked_add (w a b : Z) : option Z := try_u w (a + b).
Definition checked_sub (w a b : Z) : option Z := try_u w (a - b).
Definition checked_add_s (w a b : Z) : option Z := try_s w (a + b).
Definition saturating_add (w a b : Z) : Z := Z.min (a + b) (2 ^ w - 1).
Definition saturating_sub (a b : Z) : Z := Z.max (a - b) 0.

(** Unguarded [a + b], [a - b] of the shipped (release) build: overflow wraps. *)
Notation "a +64 b" := (wrapping_add 64 a b) (at level 50, left associativity) : Z_scope.
Notation "a -64 b" := (wrapping_sub 64 a b) (at level 50, left associativity) : Z_scope.

#[export] Instance in_u_dec w z : Decision (in_u w z).
Proof. unfold in_u. apply _. Defined.
#[export] Instance in_s_dec w z : Decision (in_s w z).
Proof. unfold in_s. apply _. Defined.

(** [num_leading_zeros] of a [w]-bit integer. *)
Definition leading_zeros (w z : Z) : Z :=
  if z =? 0 then w else w - 1 - Z.log2 z.

(** ** Bytes: lists of [Z] in [0, 256) and little-endian words *)

Fixpoint from_le_bytes (bs : list Z) : Z :=
  match bs with
  | [] => 0
  | b :: bs' => b + 256 * from_le_bytes bs'
  end.

Fixpoint to_le_bytes (n : nat) (z : Z) : list Z :=
  match n with
  | O => []
  | S n' => z mod 256 :: to_le_bytes n' (z / 256)
  end.

(** [bytes.get(lo..hi)]. *)
Definition get_range {A} (l : list A) (lo hi : nat) : option (list A) :=
  if (lo <=? hi)%nat && (hi <=? length l)%nat then Some (take (hi - lo) (drop lo l))
  else None.

(** ** Tactics and hint databases *)

Create HintDb words discriminated.
Create HintDb framehop discriminated.
Create Rewrite HintDb framehop.

(** Unfolds the machine-integer operations down to [+], [mod] and comparisons. *)
Ltac unfold_words :=
  unfold wrapping_add, wrapping_sub, checked_add, checked_sub, checked_add_s,
    saturating_add, saturating_sub, as_u, as_s, try_u, try_s, in_u, in_s,
    u64_MAX, u32_MAX in *.

(** Turns the boolean comparisons of the context and the goal into [Prop]. *)
Ltac bool_to_prop :=
  repeat match goal with
    | H : (_ && _) = true |- _ => apply andb_true_iff in H as [? ?]
    | H : (_ || _) = false |- _ => apply orb_false_iff in H as [? ?]
    | H : (_ && _) = false |- _ => apply andb_false_iff in H
    | H : (_ || _) = true |- _ => apply orb_true_iff in H
    | H : negb _ = true |- _ => apply negb_true_iff in H
    | H : negb _ = false |- _ => apply negb_false_iff in H
    | H : (_ <=? _) = true |- _ => apply Z.leb_le in H
    | H : (_ <=? _) = false |- _ => apply Z.leb_gt in H
    | H : (_ <? _) = true |- _ => apply Z.ltb_lt in H
    | H : (_ <? _) = false |- _ => apply Z.ltb_ge in H
    | H : (_ =? _) = true |- _ => apply Z.eqb_eq in H
    | H : (_ =? _) = false |- _ => apply Z.eqb_neq in H
    | H : (_ <=? _)%nat = true |- _ => apply Nat.leb_le in H
    | H : (_ <=? _)%nat = false |- _ => apply Nat.leb_gt in H
    | H : (_ <? _)%nat = true |- _ => apply Nat.ltb_lt in H
    | H : (_ <? _)%nat = false |- _ => apply Nat.ltb_ge in H
    | H : (_ =? _)%nat = true |- _ => apply Nat.eqb_eq in H
    | H : (_ =? _)%nat = false |- _ => apply Nat.eqb_neq in H
    end.

(** Decides goals about machine integers: unfolds the operations, splits on
    their range checks and leaves linear arithmetic with [div]/[mod]. *)
Ltac word_solve :=
  unfold_words;
  repeat match goal with
    | |- context [if ?b then _ else _] => destruct b eqn:?
    | H : context [if ?b then _ else _] |- _ => destruct b eqn:?
    end;
  simplify_eq/=; bool_to_prop; simplify_eq/=;
  try (Z.div_mod_to_equations; lia).

(** One case split on the scrutinee of a [match] in the goal or a hypothesis. *)
Ltac destruct_match_once :=
  match goal with
  | H : context [match ?x with _ => _ end] |- _ => destruct x eqn:?
  | |- context [match ?x with _ => _ end] => destruct x eqn:?
  end.

(** ** Generic lemmas *)

Lemma as_u_range w z : 0 <= w -> in_u w (as_u w z).
Proof. intros Hw. unfold in_u, as_u. apply Z.mod_pos_bound. lia. Qed.

Lemma as_u_small w z : in_u w z -> as_u w z = z.
Proof. unfold in_u, as_u. intros. by apply Z.mod_small. Qed.

Lemma as_s_range w z : 0 < w -> in_s w (as_s w z).
Proof.
  intros Hw. unfold in_s, as_s.
  assert (2 ^ w = 2 * 2 ^ (w - 1)) as ->.
  { rewrite <- Z.pow_succ_r by lia. f_equal. lia. }
  pose proof (Z.mod_pos_bound (z + 2 ^ (w - 1)) (2 * 2 ^ (w - 1))). lia.
Qed.

Lemma as_s_small w z : 0 < w -> in_s w z -> as_s w z = z.
Proof.
  intros Hw. unfold in_s, as_s. intros Hz.
  assert (2 ^ w = 2 * 2 ^ (w - 1)).
  { rewrite <- Z.pow_succ_r by lia. f_equal. lia. }
  rewrite Z.mod_small by lia. lia.
Qed.

Lemma try_u_Some w z r : try_u w z = Some r <-> r = z /\ in_u w z.
Proof.
  unfold try_u, in_u. destruct (_ && _) eqn:E; bool_to_prop; naive_solver lia.
Qed.

Lemma try_u_None w z : try_u w z = None <-> ~ in_u w z.
Proof.
  unfold try_u, in_u. destruct (_ && _) eqn:E; bool_to_prop; naive_solver lia.
Qed.

Lemma try_s_Some w z r : try_s w z = Some r <-> r = z /\ in_s w z.
Proof.
  unfold try_s, in_s. destruct (_ && _) eqn:E; bool_to_prop; naive_solver lia.
Qed.

Lemma checked_add_Some w a b r :
  checked_add w a b = Some r <-> r = a + b /\ in_u w (a + b).
Proof. apply try_u_Some. Qed.

Lemma checked_sub_Some w a b r :
  checked_sub w a b = Some r <-> r = a - b /\ in_u w (a - b).
Proof. apply try_u_Some. Qed.

Lemma saturating_add_range w a b :
  0 <= w -> in_u w a -> in_u w b -> in_u w (saturating_add w a b).
Proof. unfold in_u, saturating_add. intros. pose proof (Z.pow_pos_nonneg 2 w). lia. Qed.

Lemma ok_or_Ok {E A} (e : E) (o : option A) a : ok_or e o = Ok a <-> o = Some a.
Proof. destruct o; simpl; split; intros; simplify_eq; done. Qed.

Lemma result_bind_Ok {E A B} (m : result E A) (f : A -> result E B) b :
  m ≫= f = Ok b <-> exists a, m = Ok a /\ f a = Ok b.
Proof. destruct m; simpl; naive_solver. Qed.

Lemma length_to_le_bytes n z : length (to_le_bytes n z) = n.
Proof. revert z. induction n; simpl; auto. Qed.

Lemma from_le_bytes_range bs :
  Forall u8 bs -> 0 <= from_le_bytes bs < 2 ^ (8 * Z.of_nat (length bs)).
Proof.
  induction 1 as [|b bs Hb _ IH]; simpl; [lia|].
  rewrite Nat2Z.inj_succ, Z.mul_succ_r, Z.pow_add_r by lia.
  unfold in_u in Hb. nia.
Qed.

(** Decoding an encoded word gives it back, reduced to the encoded width. *)
Lemma from_to_le_bytes n z : from_le_bytes (to_le_bytes n z) = z mod 2 ^ (8 * Z.of_nat n).
Proof.
  revert z. induction n as [|n IH]; intros z.
  - simpl. by rewrite Z.mod_1_r.
  - simpl from_le_bytes. rewrite IH, Nat2Z.inj_succ, Z.mul_succ_r.
    rewrite Z.add_comm, (Z.add_comm _ 8), Z.pow_add_r by lia.
    rewrite (Z.rem_mul_r z (2 ^ 8)) by lia.
    change (2 ^ 8) with 256. lia.
Qed.

Lemma get_range_Some {A} (l : list A) lo hi r :
  get_range l lo hi = Some r ->
  (lo <= hi <= length l)%nat /\ length r = (hi - lo)%nat /\ r = take (hi - lo) (drop lo l).
Proof.
  unfold get_range. destruct (_ && _) eqn:E; [|done]. bool_to_prop.
  intros [= <-]. rewrite length_take, length_drop. repeat split; lia.
Qed.

(** Replaces the results of successful checked operations by their values. *)
Ltac checked_simpl :=
  repeat match goal with
    | H : checked_add _ _ _ = Some _ |- _ => apply checked_add_Some in H as [? ?]
    | H : checked_sub _ _ _ = Some _ |- _ => apply checked_sub_Some in H as [? ?]
    | H : try_u _ _ = Some _ |- _ => apply try_u_Some in H as [? ?]
    | H : try_s _ _ = Some _ |- _ => apply try_s_Some in H as [? ?]
    end; subst.

#[export] Hint Resolve as_u_range as_s_range saturating_add_range : words.
#[export] Hint Rewrite @length_to_le_bytes @from_to_le_bytes : framehop.

(** ** Ranges, vectors and panics *)

(** [core::ops::Range<u64>]. *)
Record range : Type := Range { r_start : Z; r_end : Z }.

#[export] Instance range_eq_dec : EqDecision range.
Proof. solve_decision. Defined.

(** [Range::contains]. *)
Definition range_contains (r : range) (x : Z) : bool := (r_start r <=? x) && (x <? r_end r).

(** [Vec::insert] and [Vec::remove] at an index in range. *)
Definition vec_insert {A} (i : nat) (x : A) (l : list A) : list A :=
  take i l ++ x :: drop i l.
Definition vec_remove {A} (i : nat) (l : list A) : list A :=
  take i l ++ drop (S i) l.

(** A Rust panic: the release build aborts. *)
Inductive panic : Type := Panicked.

Lemma vec_insert_app {A} (l1 l2 : list A) x :
  vec_insert (length l1) x (l1 ++ l2) = l1 ++ x :: l2.
Proof. unfold vec_insert. by rewrite take_app_length, drop_app_length. Qed.

Lemma vec_remove_middle {A} (l1 l2 : list A) x :
  vec_remove (length l1) (l1 ++ x :: l2) = l1 ++ l2.
Proof.
  unfold vec_remove. rewrite take_app_length. f_equal.
  induction l1 as [|y l1 IH]; [done|]. exact IH.
Qed.

Lemma elem_of_concat {A} (x : A) (ls : list (list A)) :
  x ∈ concat ls <-> exists l, x ∈ l /\ l ∈ ls.
Proof.
  rewrite list_elem_of_In, in_concat. setoid_rewrite list_elem_of_In. naive_solver.
Qed.

Lemma insert_middle {A} (l1 l2 : list A) x y :
  <[length l1 := y]> (l1 ++ x :: l2) = l1 ++ y :: l2.
Proof. induction l1 as [|z l1 IH]; [done|]. simpl. by rewrite IH. Qed.

Lemma lookup_middle {A} (l1 l2 : list A) x : (l1 ++ x :: l2) !! length l1 = Some x.
Proof. by apply list_lookup_middle. Qed.

(** A list with a middle element is not empty. *)
Lemma match_middle {A B} (l1 l2 : list A) x (a b : B) :
  match l1 ++ x :: l2 with [] => a | _ :: _ => b end = b.
Proof. by destruct l1. Qed.

(** Updating an element that is there is inserting its new value. *)
Lemma alter_as_insert {A} (f : A -> A) (l : list A) i x :
  l !! i = Some x -> alter f i l = <[i := f x]> l.
Proof.
  intros Hi. rewrite list_insert_alter. apply list_alter_ext; [|done]. intros. congruence.
Qed.
