(* ===== verification/AddSigned.v ===== *)
(** * Adding a signed offset to an address

    Models [vendor/framehop/src/add_signed.rs]. The trait [AddSigned] has one
    instance per width; both have the same body, so the operations are defined
    once at width [w] and instantiated at 64 and 32 bits. *)
From S2P Require Import Prelude.

(** The trait [AddSigned] at a width. *)
Class AddSigned := {
  wrapping_add_signed : Z -> Z -> Z;
  checked_add_signed : Z -> Z -> option Z;
}.

Definition wrapping_add_signed_at (w lhs rhs : Z) : Z := wrapping_add w lhs (as_u w rhs).

Definition checked_add_signed_at (w lhs rhs : Z) : option Z :=
  let res := wrapping_add_signed_at w lhs rhs in
  if ((0 <=? rhs) && (lhs <=? res)) || ((rhs <? 0) && (res <? lhs))
  then Some res
  else None.

Definition AddSigned_u64 : AddSigned :=
  {| wrapping_add_signed := wrapping_add_signed_at 64;
     checked_add_signed := checked_add_signed_at 64 |}.
Definition AddSigned_u32 : AddSigned :=
  {| wrapping_add_signed := wrapping_add_signed_at 32;
     checked_add_signed := checked_add_signed_at 32 |}.

(** ** Exactness *)

Section exact.
Context (w : Z) (Hw : 0 < w).

Lemma wrapping_add_signed_at_mod lhs rhs :
  wrapping_add_signed_at w lhs rhs = (lhs + rhs) mod 2 ^ w.
Proof.
  unfold wrapping_add_signed_at, wrapping_add, as_u.
  by rewrite Zplus_mod_idemp_r.
Qed.

(** The overflow test on the wrapped sum is exact: the result is the
    mathematical sum when it fits, and [None] otherwise. *)
Lemma checked_add_signed_at_exact lhs rhs :
  in_u w lhs -> in_s w rhs ->
  checked_add_signed_at w lhs rhs = try_u w (lhs + rhs).
Proof using Hw.
  intros Hl Hr. unfold checked_add_signed_at.
  rewrite wrapping_add_signed_at_mod. unfold try_u, in_u, in_s in *.
  assert (2 ^ w = 2 * 2 ^ (w - 1)) as Hp.
  { rewrite <- Z.pow_succ_r by lia. f_equal. lia. }
  assert ((lhs + rhs) mod 2 ^ w =
          if lhs + rhs <? 0 then lhs + rhs + 2 ^ w
          else if lhs + rhs <? 2 ^ w then lhs + rhs else lhs + rhs - 2 ^ w) as ->.
  { destruct (lhs + rhs <? 0) eqn:?, (lhs + rhs <? 2 ^ w) eqn:?; symmetry;
      first [ lia
            | apply (Z.mod_unique_pos _ _ (-1)); lia
            | apply (Z.mod_unique_pos _ _ 0); lia
            | apply (Z.mod_unique_pos _ _ 1); lia ]. }
  repeat case_match; bool_to_prop; try done; try (f_equal; lia); try lia.
Qed.
End exact.

(** Exactness at 64 bits, in the form clients use: a successful addition is the
    mathematical sum and stays in range. *)
Lemma checked_add_signed_u64_Some lhs rhs r :
  u64 lhs -> i64 rhs ->
  checked_add_signed (AddSigned := AddSigned_u64) lhs rhs = Some r <->
  r = lhs + rhs /\ u64 (lhs + rhs).
Proof.
  intros. simpl. rewrite checked_add_signed_at_exact by (done || lia).
  apply try_u_Some.
Qed.
