(* ===== verification/CodeAddress.v ===== *)
(** * Code addresses of stack frames

    Models [vendor/framehop/src/code_address.rs]. *)
From S2P Require Import Prelude.

(** [FrameAddress]; the [NonZeroU64] of a return address is a [Z] that
    [from_return_address] guarantees to be nonzero. *)
Inductive FrameAddress : Type :=
  | InstructionPointer (address : Z)
  | ReturnAddress (address : Z).

#[export] Instance FrameAddress_eq_dec : EqDecision FrameAddress.
Proof. solve_decision. Defined.

Definition from_instruction_pointer (ip : Z) : FrameAddress := InstructionPointer ip.

(** [NonZeroU64::new]. *)
Definition NonZeroU64_new (a : Z) : option Z := if a =? 0 then None else Some a.

Definition from_return_address (return_address : Z) : option FrameAddress :=
  ReturnAddress <$> NonZeroU64_new return_address.

Definition address (f : FrameAddress) : Z :=
  match f with
  | InstructionPointer a => a
  | ReturnAddress a => a
  end.

Definition address_for_lookup (f : FrameAddress) : Z :=
  match f with
  | InstructionPointer a => a
  | ReturnAddress a => a - 1
  end.

Definition is_return_address (f : FrameAddress) : bool :=
  match f with
  | InstructionPointer _ => false
  | ReturnAddress _ => true
  end.

(** A [FrameAddress] as the program can build it. *)
Definition frame_address_wf (f : FrameAddress) : Prop :=
  match f with
  | InstructionPointer a => u64 a
  | ReturnAddress a => u64 a /\ a <> 0
  end.

Lemma from_return_address_wf a f :
  u64 a -> from_return_address a = Some f -> frame_address_wf f /\ address f = a.
Proof.
  intros Ha. unfold from_return_address, NonZeroU64_new.
  destruct (a =? 0) eqn:E; intros; simplify_eq/=; bool_to_prop; auto.
Qed.

(** The lookup address never underflows. *)
Lemma address_for_lookup_u64 f : frame_address_wf f -> u64 (address_for_lookup f).
Proof. destruct f; simpl; unfold in_u; lia. Qed.

#[export] Hint Resolve address_for_lookup_u64 : framehop.
