(* ===== verification/Slices.v ===== *)
(** * Binary search on slices

    [slice::binary_search_by] of the Rust standard library, which the module
    list and the FDE index use, with its documented contract on sorted slices.
    The loop narrows [base .. base + size] until one element is left. *)
From S2P Require Import Prelude.

Section BinarySearch.
Context {A : Type} (key : A -> Z).

(** The loop; [fuel] bounds the iterations and [length l] is always enough. *)
Fixpoint binary_search_loop (fuel : nat) (l : list A) (k : Z) (base size : nat) : nat :=
  match fuel with
  | O => base
  | S fuel' =>
      if (1 <? size)%nat then
        let half := (size / 2)%nat in
        let mid := (base + half)%nat in
        let base' :=
          match l !! mid with
          | Some x => if k <? key x then base else mid
          | None => base
          end in
        binary_search_loop fuel' l k base' (size - half)
      else base
  end.

(** [binary_search_by_key]: [Ok i] where an element with the key is, or [Err i]
    where one could be inserted. *)
Definition binary_search_by_key (l : list A) (k : Z) : result nat nat :=
  match l with
  | [] => Err 0%nat
  | _ =>
      let base := binary_search_loop (length l) l k 0 (length l) in
      match l !! base with
      | Some x =>
          if key x =? k then Ok base
          else if key x <? k then Err (S base) else Err base
      | None => Err base
      end
  end.

Definition key_le : relation A := fun a b => key a <= key b.
Definition key_lt : relation A := fun a b => key a < key b.

(** Sorted by [key], and sorted without duplicate keys. *)
Definition sorted_by : list A -> Prop := StronglySorted key_le.
Definition strictly_sorted_by : list A -> Prop := StronglySorted key_lt.

Lemma strictly_sorted_sorted l : strictly_sorted_by l -> sorted_by l.
Proof.
  induction 1 as [|x l Hs IH Hf]; constructor; [done|].
  eapply Forall_impl; [exact Hf|]. unfold key_lt, key_le. intros. lia.
Qed.

Lemma sorted_by_lookup l i j x y :
  sorted_by l -> (i <= j)%nat -> l !! i = Some x -> l !! j = Some y -> key x <= key y.
Proof.
  intros Hs. revert i j. induction Hs as [|z l Hs IH Hf]; intros i j Hij Hi Hj; [done|].
  destruct i as [|i], j as [|j]; simplify_eq/=; [lia| |lia|].
  - rewrite Forall_lookup in Hf. by eapply Hf.
  - eapply (IH i j); eauto. lia.
Qed.

(** What the loop maintains: everything up to [base] is at most [k] once
    [base] has moved, and everything from [base + size] on is above [k]. *)
Definition search_inv (l : list A) (k : Z) (base size : nat) : Prop :=
  (1 <= size)%nat /\ (base + size <= length l)%nat /\
  (base = 0%nat \/ exists x, l !! base = Some x /\ key x <= k) /\
  (forall j y, (base + size <= j)%nat -> l !! j = Some y -> k < key y).

Lemma search_inv_step l k base size x :
  sorted_by l -> search_inv l k base size -> (1 < size)%nat ->
  l !! (base + size / 2)%nat = Some x ->
  search_inv l k (if k <? key x then base else (base + size / 2)%nat) (size - size / 2).
Proof.
  intros Hs (H1 & H2 & H3 & H4) Hsize Hx.
  assert (1 <= size / 2 < size)%nat as Hh.
  { split; [apply Nat.div_le_lower_bound; lia | apply Nat.div_lt; lia]. }
  destruct (k <? key x) eqn:E; bool_to_prop; repeat split; try lia; try done.
  - intros j y Hj Hy. destruct (decide (base + size <= j)%nat); [by eapply H4|].
    assert (key x <= key y); [|lia].
    eapply sorted_by_lookup; [done| |done|done].
    pose proof (Nat.div_mod_eq size 2). pose proof (Nat.mod_upper_bound size 2). lia.
  - right. eauto.
  - intros j y Hj Hy. eapply H4; [|done]. lia.
Qed.

Lemma binary_search_loop_inv fuel l k base size :
  sorted_by l -> search_inv l k base size -> (size <= fuel)%nat ->
  search_inv l k (binary_search_loop fuel l k base size) 1.
Proof.
  intros Hs. revert base size. induction fuel as [|fuel IH]; intros base size Hinv Hf; cbn [binary_search_loop].
  { destruct Hinv. lia. }
  destruct (1 <? size)%nat eqn:E; bool_to_prop.
  - assert (1 <= size / 2 < size)%nat as Hh.
    { split; [apply Nat.div_le_lower_bound; lia | apply Nat.div_lt; lia]. }
    destruct (lookup_lt_is_Some_2 l (base + size / 2)) as [x Hx].
    { destruct Hinv as (?&?&_). lia. }
    pose proof (search_inv_step _ _ _ _ _ Hs Hinv E Hx) as Hinv'.
    rewrite Hx. apply IH; [done|]. lia.
  - destruct Hinv as (?&?&?&?). replace size with 1%nat in * by lia. by repeat split.
Qed.

(** The contract of [binary_search_by_key] on a sorted slice. *)
Lemma binary_search_Ok l k i :
  binary_search_by_key l k = Ok i -> exists x, l !! i = Some x /\ key x = k.
Proof.
  unfold binary_search_by_key. destruct l as [|y l]; [done|].
  case_match eqn:E; [|done]. repeat case_match; intros; simplify_eq.
  bool_to_prop. eauto.
Qed.

Lemma binary_search_Err l k i :
  sorted_by l -> binary_search_by_key l k = Err i ->
  exists l1 l2, l = l1 ++ l2 /\ length l1 = i /\
    Forall (fun x => key x < k) l1 /\ Forall (fun x => k < key x) l2.
Proof.
  intros Hs. unfold binary_search_by_key. destruct l as [|y l].
  { intros [= <-]. by exists [], []. }
  set (l0 := y :: l) in *.
  pose proof (binary_search_loop_inv (length l0) l0 k 0 (length l0) Hs) as Hinv.
  destruct Hinv as (_ & Hb & Hlow & Hhigh); [|done|].
  { repeat split; [simpl; lia|lia|by left|].
    intros j z Hj Hz. apply lookup_lt_Some in Hz. lia. }
  set (base := binary_search_loop (length l0) l0 k 0 (length l0)) in *.
  destruct (lookup_lt_is_Some_2 l0 base) as [x Hx]; [lia|]. rewrite Hx.
  destruct (key x =? k) eqn:E1; [done|].
  assert (forall n, (forall j z, (j < n)%nat -> l0 !! j = Some z -> key z < k) ->
    (forall j z, (n <= j)%nat -> l0 !! j = Some z -> k < key z) -> (n <= length l0)%nat ->
    exists l1 l2, l0 = l1 ++ l2 /\ length l1 = n /\
    Forall (fun x => key x < k) l1 /\ Forall (fun x => k < key x) l2) as Hsplit.
  { intros n Hlt Hge Hn. exists (take n l0), (drop n l0).
    rewrite take_drop, length_take. repeat split; [lia| |].
    - apply Forall_lookup. intros j z Hz.
      apply lookup_take_Some in Hz as [Hz ?]. by eapply Hlt.
    - apply Forall_lookup. intros j z Hz. rewrite lookup_drop in Hz.
      eapply (Hge (n + j)%nat); [lia|done]. }
  destruct (key x <? k) eqn:E2; intros [= <-]; bool_to_prop.
  - apply Hsplit; [| |lia].
    + intros j z Hj Hz. assert (key z <= key x); [|lia].
      eapply (sorted_by_lookup l0 j base); [done|lia|done|done].
    + intros j z Hj Hz. eapply Hhigh; [|done]. lia.
  - assert (base = 0%nat) as Hb0.
    { destruct Hlow as [?|(x' & Hx' & ?)]; [done|].
      assert (x' = x) as -> by congruence. lia. }
    apply Hsplit; [intros; lia| |lia].
    intros j z Hj Hz. assert (key x <= key z); [|lia].
    eapply (sorted_by_lookup l0 base j); [done|lia|done|done].
Qed.

(** [Ok] as a split of the slice at the element found. *)
Lemma binary_search_Ok_split l k i :
  binary_search_by_key l k = Ok i ->
  exists l1 x l2, l = l1 ++ x :: l2 /\ length l1 = i /\ key x = k.
Proof.
  intros (x & Hx & Hk)%binary_search_Ok.
  exists (take i l), x, (drop (S i) l). split_and!; [|
    apply length_take_le, Nat.lt_le_incl; by eapply lookup_lt_Some|done].
  symmetry. by apply take_drop_middle.
Qed.

(** A key that is present is found; with distinct keys, at its only place. *)
Lemma binary_search_present l k x :
  sorted_by l -> x ∈ l -> key x = k -> exists i, binary_search_by_key l k = Ok i.
Proof.
  intros Hs Hx Hk. destruct (binary_search_by_key l k) as [i|i] eqn:E; [eauto|].
  apply binary_search_Err in E as (l1 & l2 & -> & _ & Hl1 & Hl2); [|done].
  rewrite Forall_forall in Hl1, Hl2. apply elem_of_app in Hx as [Hx|Hx].
  - specialize (Hl1 _ Hx). lia.
  - specialize (Hl2 _ Hx). lia.
Qed.
End BinarySearch.

#[export] Hint Resolve strictly_sorted_sorted : framehop.
