(* ===== verification/Generation.v ===== *)
(** * Module generations

    Models the global generation counter of [vendor/framehop/src/unwinder.rs]
    ([next_modules_generation]): a compare-exchange loop on one [AtomicU64] with
    relaxed ordering, run by any number of threads. *)
From S2P Require Import Prelude.

(** One call with no other thread at the counter: the state is the counter. *)
Definition next_modules_generation : ST Z panic Z :=
  counter ← st_get;
  match checked_add 64 counter 1 with
  | Some next => _ ← st_modify (fun _ => next); mret counter
  | None => st_throw Panicked
  end.

(** ** The loop, one atomic access per step *)

(** Where a thread is in its call: before the first load, holding the value it
    expects in the counter, returned, or panicked on exhaustion. *)
Inductive gen_pc : Type :=
  | GenStart
  | GenLoaded (generation : Z)
  | GenReturned (generation : Z)
  | GenPanicked.

Record gen_state : Type := GenState {
  gen_counter : Z;
  gen_threads : gmap nat gen_pc;
  (** The generations handed out, oldest first. *)
  gen_issued : list Z;
}.

(** A relaxed load may return any value the counter has held, so both the first
    load and the value a failed exchange reports are only bounded by the
    counter's initial and current values; a successful exchange always acts on
    the current value. [compare_exchange_weak] may also fail spuriously. *)
Inductive gen_step (init : Z) : gen_state -> gen_state -> Prop :=
  | gen_call c ths iss t :
      ths !! t = None ->
      gen_step init (GenState c ths iss) (GenState c (<[t := GenStart]> ths) iss)
  | gen_load c ths iss t g :
      ths !! t = Some GenStart ->
      init <= g <= c ->
      gen_step init (GenState c ths iss) (GenState c (<[t := GenLoaded g]> ths) iss)
  | gen_exhausted c ths iss t g :
      ths !! t = Some (GenLoaded g) ->
      checked_add 64 g 1 = None ->
      gen_step init (GenState c ths iss) (GenState c (<[t := GenPanicked]> ths) iss)
  | gen_exchange c ths iss t next :
      ths !! t = Some (GenLoaded c) ->
      checked_add 64 c 1 = Some next ->
      gen_step init (GenState c ths iss)
        (GenState next (<[t := GenReturned c]> ths) (iss ++ [c]))
  | gen_exchange_failed c ths iss t g next current :
      ths !! t = Some (GenLoaded g) ->
      checked_add 64 g 1 = Some next ->
      init <= current <= c ->
      gen_step init (GenState c ths iss) (GenState c (<[t := GenLoaded current]> ths) iss).

Definition gen_init (init : Z) : gen_state := GenState init ∅ [].

Definition gen_reachable (init : Z) (s : gen_state) : Prop :=
  rtc (gen_step init) (gen_init init) s.

(** ** No generation is handed out twice *)

Record gen_inv (init : Z) (s : gen_state) : Prop := {
  gen_inv_counter : init <= gen_counter s /\ u64 (gen_counter s);
  gen_inv_issued : gen_issued s = (fun i => init + i) <$> seqZ 0 (gen_counter s - init);
  gen_inv_returned : forall t g,
    gen_threads s !! t = Some (GenReturned g) -> g ∈ gen_issued s;
  gen_inv_loaded : forall t g,
    gen_threads s !! t = Some (GenLoaded g) -> init <= g <= gen_counter s;
}.

Lemma gen_inv_init init : u64 init -> gen_inv init (gen_init init).
Proof.
  intros Hi. split; simpl; [split; [lia|done]| |set_solver|set_solver].
  by rewrite Z.sub_diag.
Qed.

Lemma issued_snoc init c :
  init <= c ->
  (fun i => init + i) <$> seqZ 0 (c + 1 - init) =
  ((fun i => init + i) <$> seqZ 0 (c - init)) ++ [c].
Proof.
  intros Hc. replace (c + 1 - init) with ((c - init) + 1) by lia.
  rewrite seqZ_app, fmap_app by lia. simpl. f_equal.
  unfold seqZ. simpl. f_equal. lia.
Qed.

Lemma gen_inv_step init s s' : gen_inv init s -> gen_step init s s' -> gen_inv init s'.
Proof.
  intros [[Hc1 Hc2] Hi Hr Hl] Hstep.
  destruct Hstep as [c ths iss t Ht|c ths iss t g Ht Hg|c ths iss t g Ht Hg
    |c ths iss t next Ht Hn|c ths iss t g next cur Ht Hn Hcur]; simpl in *;
    try (split; simpl; [done|done| |]; intros t' g';
         (destruct (decide (t' = t)) as [->|];
          [rewrite lookup_insert_eq; intros; simplify_eq; lia
          |rewrite lookup_insert_ne by done; eauto])).
  apply checked_add_Some in Hn as [-> Hn].
  split; simpl.
  - split; [lia|done].
  - by rewrite issued_snoc, <- Hi.
  - intros t' g'. destruct (decide (t' = t)) as [->|].
    + rewrite lookup_insert_eq. intros [= ->]. set_solver.
    + rewrite lookup_insert_ne by done. intros ?%Hr. set_solver.
  - intros t' g'. destruct (decide (t' = t)) as [->|].
    + rewrite lookup_insert_eq. done.
    + rewrite lookup_insert_ne by done. intros ?%Hl. lia.
Qed.

Lemma gen_reachable_inv init s : u64 init -> gen_reachable init s -> gen_inv init s.
Proof.
  intros Hu. unfold gen_reachable. generalize (gen_inv_init init Hu).
  generalize (gen_init init). intros s0 H0 Hs.
  induction Hs as [|s0 s1 s2 Hstep _ IH]; [done|]. eauto using gen_inv_step.
Qed.

(** C28: Under every interleaving of the compare-exchange loop the generations
    handed out are the consecutive integers from the initial value, each exactly
    once, so no two calls ever return the same generation; the counter never
    wraps. *)
Theorem generations_never_reused (init : Z) (s : gen_state) :
  u64 init ->
  gen_reachable init s ->
  gen_issued s = (fun i => init + i) <$> seqZ 0 (gen_counter s - init) /\
  NoDup (gen_issued s) /\
  u64 (gen_counter s) /\
  (forall t g, gen_threads s !! t = Some (GenReturned g) -> init <= g < gen_counter s).
Proof.
  intros Hu [[Hc1 Hc2] Hi Hr Hl]%gen_reachable_inv; [|done].
  split_and!; [done| |done|].
  - rewrite Hi. apply NoDup_fmap_2; [|apply NoDup_seqZ]. intros ???. lia.
  - intros t g Ht%Hr. rewrite Hi, list_elem_of_fmap in Ht.
    destruct Ht as (i & -> & Hseq%elem_of_seqZ). lia.
Qed.

(** Two threads race for the first generation: both load 0, the second one's
    exchange fails and it retries with the current value. *)
Lemma generations_never_reused_witness :
  let s := GenState 2 {[ 0%nat := GenReturned 0; 1%nat := GenReturned 1 ]} [0; 1] in
  gen_reachable 0 s /\ NoDup (gen_issued s).
Proof.
  assert (gen_reachable 0 (GenState 2 {[ 0%nat := GenReturned 0; 1%nat := GenReturned 1 ]} [0; 1])) as H.
  { eapply rtc_l; [apply (gen_call 0 0 ∅ [] 0%nat); reflexivity|].
    eapply rtc_l; [eapply (gen_call 0 0 _ [] 1%nat); reflexivity|].
    eapply rtc_l; [eapply (gen_load 0 0 _ [] 0%nat 0); [reflexivity|lia]|].
    eapply rtc_l; [eapply (gen_load 0 0 _ [] 1%nat 0); [reflexivity|lia]|].
    eapply rtc_l; [eapply (gen_exchange 0 0 _ [] 0%nat 1); reflexivity|].
    eapply rtc_l; [eapply (gen_exchange_failed 0 1 _ [0] 1%nat 0 1 1); [reflexivity|reflexivity|lia]|].
    eapply rtc_l; [eapply (gen_exchange 0 1 _ [0] 1%nat 2); reflexivity|].
    match goal with |- rtc _ ?a ?b => replace a with b; [apply rtc_refl|] end.
    vm_compute. reflexivity. }
  split; [exact H|].
  eapply (generations_never_reused 0); [split; lia|exact H].
Defined.

(** The sequential function is one run of the loop. *)
Lemma next_modules_generation_run init s t g c' :
  gen_threads s !! t = None -> init <= gen_counter s ->
  next_modules_generation (gen_counter s) = (Ok g, c') ->
  exists s', rtc (gen_step init) s s' /\ gen_counter s' = c' /\
    gen_threads s' !! t = Some (GenReturned g) /\ gen_issued s' = gen_issued s ++ [g].
Proof.
  destruct s as [c ths iss]. simpl. intros Ht Hc.
  unfold next_modules_generation. unfold mbind, st_bind, st_get; simpl.
  destruct (checked_add 64 c 1) as [next|] eqn:E; intros [= <- <-].
  eexists. split.
  { eapply rtc_l; [by apply (gen_call init c ths iss t)|].
    eapply rtc_l; [eapply (gen_load init c _ iss t c); [apply lookup_insert_eq|lia]|].
    eapply rtc_l; [eapply (gen_exchange init c _ iss t next); [apply lookup_insert_eq|done]|].
    apply rtc_refl. }
  simpl. by rewrite lookup_insert_eq.
Qed.
