(* ===== verification/ModuleList.v ===== *)
(** * The chunked module list

    Models the module list of [vendor/framehop/src/unwinder.rs]
    ([UnwinderInternal]): modules sorted by start address, in chunks of at most
    [2 * MODULE_CHUNK]. A chunk is an immutable list here: [Arc::make_mut]
    copies a shared chunk before it changes it, so a clone of the list keeps
    the value it had. *)
From S2P Require Import Prelude Slices Generation.

(** [Module]; [D] is the module's unwind data. *)
Record Module_ (D : Type) : Type := MkModule {
  mod_name : string;
  avma_range : range;
  base_avma : Z;
  base_svma : Z;
  unwind_data : D;
}.
Arguments MkModule {D}.
Arguments mod_name {D}.
Arguments avma_range {D}.
Arguments base_avma {D}.
Arguments base_svma {D}.
Arguments unwind_data {D}.

Section ModuleList.
  Context {D : Type}.
  Implicit Types (m : Module_ D) (chunk : list (Module_ D)) (chunks : list (list (Module_ D))).

Definition MODULE_CHUNK : nat := 64%nat.
Lemma MODULE_CHUNK_val : MODULE_CHUNK = 64%nat.
Proof. done. Qed.
#[local] Opaque MODULE_CHUNK.

Definition mod_start m : Z := r_start (avma_range m).
Definition mod_end m : Z := r_end (avma_range m).

Record UnwinderInternal : Type := MkUnwinder {
  modules : list (list (Module_ D));
  modules_generation : Z;
}.

(** [chunk[0].avma_range.start]; chunks are never empty ([chunks_wf]). *)
Definition chunk_key chunk : Z :=
  match chunk with m :: _ => mod_start m | [] => 0 end.

Definition UnwinderInternal_new : ST Z panic UnwinderInternal :=
  generation ← next_modules_generation;
  mret (MkUnwinder [] generation).

Definition chunk_index_for (u : UnwinderInternal) (address : Z) : nat :=
  match binary_search_by_key chunk_key (modules u) address with
  | Ok i => i
  | Err O => 0%nat
  | Err (S i) => i
  end.

(** The new chunks of [add_module]. *)
Definition add_to_chunks (u : UnwinderInternal) m : list (list (Module_ D)) :=
  match modules u with
  | [] => [[m]]
  | _ =>
      let chunk_index := chunk_index_for u (mod_start m) in
      let chunk := default [] (modules u !! chunk_index) in
      let insertion_index :=
        match binary_search_by_key mod_start chunk (mod_start m) with
        | Ok i => i
        | Err i => i
        end in
      let chunk := vec_insert insertion_index m chunk in
      if (2 * MODULE_CHUNK <? length chunk)%nat then
        vec_insert (S chunk_index) (drop MODULE_CHUNK chunk)
          (<[chunk_index := take MODULE_CHUNK chunk]> (modules u))
      else <[chunk_index := chunk]> (modules u)
  end.

Definition add_module (u : UnwinderInternal) m : ST Z panic UnwinderInternal :=
  let chunks := add_to_chunks u m in
  generation ← next_modules_generation;
  mret (MkUnwinder chunks generation).

(** The new chunks of [remove_module], or [None] when no module starts there. *)
Definition remove_from_chunks (u : UnwinderInternal) (start : Z) :
    option (list (list (Module_ D))) :=
  match modules u with
  | [] => None
  | _ =>
      let chunk_index := chunk_index_for u start in
      let chunk := default [] (modules u !! chunk_index) in
      match binary_search_by_key mod_start chunk start with
      | Ok index =>
          let chunk := vec_remove index chunk in
          match chunk with
          | [] => Some (vec_remove chunk_index (modules u))
          | _ => Some (<[chunk_index := chunk]> (modules u))
          end
      | Err _ => None
      end
  end.

Definition remove_module (u : UnwinderInternal) (start : Z) : ST Z panic UnwinderInternal :=
  match remove_from_chunks u start with
  | None => mret u
  | Some chunks =>
      generation ← next_modules_generation;
      mret (MkUnwinder chunks generation)
  end.

Definition max_known_code_address (u : UnwinderInternal) : Z :=
  match last (modules u) with
  | Some chunk => match last chunk with Some m => mod_end m | None => 0 end
  | None => 0
  end.

Definition find_module_for_address (u : UnwinderInternal) (address : Z) :
    option (Module_ D * Z) :=
  match modules u with
  | [] => None
  | _ =>
      let chunk := default [] (modules u !! chunk_index_for u address) in
      m ← match binary_search_by_key mod_start chunk address with
          | Ok i => chunk !! i
          | Err O => None
          | Err (S i) =>
              m ← chunk !! i;
              if mod_end m <=? address then None else Some m
          end;
      if address <? base_avma m then None
      else
        relative_address ← try_u 32 (address - base_avma m);
        Some (m, relative_address)
  end.

(** ** The invariant, and the flat list the chunks stand for *)

Definition flat (u : UnwinderInternal) : list (Module_ D) := concat (modules u).

Definition chunks_wf chunks : Prop :=
  Forall (fun c => c <> [] /\ (length c <= 2 * MODULE_CHUNK)%nat) chunks /\
  sorted_by mod_start (concat chunks).

Definition unwinder_wf (u : UnwinderInternal) : Prop := chunks_wf (modules u).

(** No two modules start at the same address. *)
Definition distinct_starts (u : UnwinderInternal) : Prop :=
  strictly_sorted_by mod_start (flat u).

Lemma key_head chunk m : m ∈ chunk -> sorted_by mod_start chunk -> chunk_key chunk <= mod_start m.
Proof.
  intros Hm Hs. destruct chunk as [|m0 chunk]; [set_solver|]. simpl.
  apply StronglySorted_cons in Hs as [Hf _]. rewrite Forall_forall in Hf.
  apply elem_of_cons in Hm as [->|Hm]; [lia|]. by apply Hf in Hm.
Qed.

Lemma chunk_sorted chunks chunk :
  sorted_by mod_start (concat chunks) -> chunk ∈ chunks -> sorted_by mod_start chunk.
Proof.
  intros Hs (c1 & c2 & ->)%list_elem_of_split.
  rewrite concat_app in Hs. simpl in Hs.
  apply StronglySorted_app in Hs as (_ & _ & Hs).
  by apply StronglySorted_app in Hs as (_ & Hs & _).
Qed.

Lemma chunks_wf_keys_sorted chunks : chunks_wf chunks -> sorted_by chunk_key chunks.
Proof.
  intros [Hc Hs]. induction Hc as [|c chunks [Hne _] Hc IH]; [constructor|].
  simpl in Hs. apply StronglySorted_app in Hs as (Hlt & Hsc & Hs).
  apply StronglySorted_cons. split; [|by apply IH].
  apply Forall_forall. intros c' Hc'. unfold key_le.
  destruct c as [|m c]; [done|]. destruct c' as [|m' c'].
  { rewrite Forall_forall in Hc. by destruct (Hc _ Hc'). }
  simpl. apply (Hlt m m'); [set_solver|].
  apply elem_of_concat. exists (m' :: c'). set_solver.
Qed.

(** The chunk [chunk_index_for] picks: everything before it starts at or below
    the address, everything after it at or above. *)
(** The chunk that [chunk_index_for] chooses: it starts at the address, or it is the last
    one that starts below it (or the first chunk). *)
Lemma chunk_index_for_cases u address :
  unwinder_wf u -> modules u <> [] ->
  exists pre chunk post, modules u = pre ++ chunk :: post /\
    chunk_index_for u address = length pre /\
    (chunk_key chunk = address \/
     (Forall (fun c => address < chunk_key c) post /\ (pre <> [] -> chunk_key chunk < address))).
Proof.
  intros Hwf Hne. pose proof (chunks_wf_keys_sorted _ Hwf) as Hk.
  unfold chunk_index_for.
    destruct (binary_search_by_key chunk_key (modules u) address) as [i|i] eqn:E.
    - apply binary_search_Ok_split in E as (l1 & x & l2 & Heq & Hi & Hx).
      exists l1, x, l2. auto.
    - apply binary_search_Err in E as (l1 & l2 & Heq & Hi & Hl1 & Hl2); [|done].
      destruct i as [|i].
      + apply nil_length_inv in Hi. subst l1. simpl in Heq.
        destruct l2 as [|c l2]; [congruence|]. inversion Hl2; subst.
        exists [], c, l2. split_and!; [done|done|]. right. done.
      + destruct (exists_last (l:=l1)) as (pre & c & ->); [by intros ->|].
        rewrite length_app in Hi. simpl in Hi.
        exists pre, c, l2. rewrite Heq, <- app_assoc. split_and!; [done|lia|].
        right. split; [done|]. intros _.
        rewrite Forall_app in Hl1. destruct Hl1 as [_ Hl1]. by inversion Hl1.
Qed.

(** No module of a later chunk starts before its chunk does. *)
Lemma later_chunk_starts (post : list (list (Module_ D))) m :
  StronglySorted (key_le mod_start) (concat post) -> m ∈ concat post ->
  exists c, c ∈ post /\ chunk_key c <= mod_start m.
Proof.
  intros Hs Hm. apply elem_of_concat in Hm as (c & Hm & Hcin). exists c. split; [done|].
  apply key_head; [done|]. by eapply chunk_sorted.
Qed.

(** A chunk without the key does not start with it. *)
Lemma chunk_key_absent (l1 l2 : list (Module_ D)) k :
  l1 ++ l2 <> [] -> Forall (fun m => mod_start m < k) l1 -> Forall (fun m => k < mod_start m) l2 ->
  chunk_key (l1 ++ l2) <> k.
Proof.
  rewrite !Forall_forall. intros Hne Hl1 Hl2. destruct (l1 ++ l2) as [|y l] eqn:El; [done|]. simpl.
  assert (y ∈ l1 ++ l2) as [Hy|Hy]%elem_of_app by (rewrite El; set_solver).
  - specialize (Hl1 _ Hy). lia.
  - specialize (Hl2 _ Hy). lia.
Qed.

Lemma chunk_index_for_split u address :
  unwinder_wf u -> modules u <> [] ->
  exists pre chunk post,
    modules u = pre ++ chunk :: post /\ chunk_index_for u address = length pre /\
    chunk <> [] /\ (length chunk <= 2 * MODULE_CHUNK)%nat /\ sorted_by mod_start chunk /\
    Forall (fun m => mod_start m <= address) (concat pre) /\
    Forall (fun m => address <= mod_start m) (concat post) /\
    (pre <> [] -> chunk_key chunk <= address) /\
    (chunk_key chunk <> address -> Forall (fun m => address < mod_start m) (concat post)).
Proof.
  intros Hwf Hne. pose proof (chunk_index_for_cases u address Hwf Hne) as (pre & chunk & post & Heq & Hi & Hcase).
  destruct Hwf as [Hc Hs].
  rewrite Heq in Hc, Hs.
  rewrite concat_app in Hs. simpl in Hs.
  apply StronglySorted_app in Hs as (Hpre & _ & Hs).
  pose proof Hs as Hs'. apply StronglySorted_app in Hs' as (Hpost & Hchunk & Hsp).
  apply Forall_app in Hc as [_ Hc]. inversion Hc as [|? ? [Hcne Hclen] Hcpost]; subst.
  destruct chunk as [|m0 chunk]; [done|]. simpl in Hcase.
  exists pre, (m0 :: chunk), post. split_and!; try done.
  - apply Forall_forall. intros m Hm. specialize (Hpre m m0 Hm ltac:(set_solver)).
    unfold key_le in Hpre. destruct Hcase as [<-|[_ Hlt]]; [done|].
    assert (pre <> []) as Hne' by (intros ->; set_solver). specialize (Hlt Hne'). lia.
  - apply Forall_forall. intros m Hm. destruct Hcase as [<-|[Hlt _]].
    + apply (Hpost m0 m); [set_solver|done].
    + destruct (later_chunk_starts post m Hsp Hm) as (c & Hcin & Hkey). rewrite Forall_forall in Hlt.
      specialize (Hlt _ Hcin). lia.
  - simpl. intros Hne'. destruct Hcase as [<-|[_ Hlt]]; [lia|]. specialize (Hlt Hne'). lia.
  - simpl. intros Hne'. destruct Hcase as [?|[Hlt _]]; [done|]. apply Forall_forall. intros m Hm.
    destruct (later_chunk_starts post m Hsp Hm) as (c & Hcin & Hkey). rewrite Forall_forall in Hlt.
    specialize (Hlt _ Hcin). lia.
Qed.

(** Both branches of the search inside a chunk, as a split of the chunk. *)
Lemma insertion_index_split chunk k :
  sorted_by mod_start chunk ->
  exists l1 l2, chunk = l1 ++ l2 /\
    match binary_search_by_key mod_start chunk k with Ok i => i | Err i => i end = length l1 /\
    Forall (fun m => mod_start m <= k) l1 /\ Forall (fun m => k <= mod_start m) l2.
Proof.
  intros Hs. destruct (binary_search_by_key mod_start chunk k) as [i|i] eqn:E.
  - apply binary_search_Ok_split in E as (l1 & x & l2 & -> & <- & <-).
    exists l1, (x :: l2). apply StronglySorted_app in Hs as (Hlt & _ & Hs).
    apply StronglySorted_cons in Hs as [Hf _].
    split_and!; [done|done| |constructor; [lia|done]].
    apply Forall_forall. intros m Hm. apply (Hlt m x); set_solver.
  - apply binary_search_Err in E as (l1 & l2 & -> & <- & Hl1 & Hl2); [|done].
    exists l1, l2. split_and!; [done|done| |];
      [eapply Forall_impl; [exact Hl1|]|eapply Forall_impl; [exact Hl2|]]; simpl; lia.
Qed.

(** A chunk that is too long splits into two that are not. *)
Lemma split_chunk_ok (c : list (Module_ D)) :
  (2 * MODULE_CHUNK < length c <= 2 * MODULE_CHUNK + 1)%nat ->
  Forall (fun c => c <> [] /\ (length c <= 2 * MODULE_CHUNK)%nat) [take MODULE_CHUNK c; drop MODULE_CHUNK c].
Proof.
  pose proof MODULE_CHUNK_val. intros Hlen.
  assert (Hne : forall l : list (Module_ D), (0 < length l)%nat -> l <> []) by (intros [] ?; simpl in *; [lia|done]).
  constructor; [|constructor; [|constructor]]; (split; [apply Hne|]); rewrite ?length_take, ?length_drop; lia.
Qed.

Lemma add_to_chunks_flat u m :
  unwinder_wf u ->
  exists l1 l2, flat u = l1 ++ l2 /\ concat (add_to_chunks u m) = l1 ++ m :: l2 /\
    Forall (fun m' => mod_start m' <= mod_start m) l1 /\
    Forall (fun m' => mod_start m <= mod_start m') l2 /\
    Forall (fun c => c <> [] /\ (length c <= 2 * MODULE_CHUNK)%nat) (add_to_chunks u m).
Proof.
  intros Hwf. destruct u as [chunks g]. unfold flat, add_to_chunks. cbn [modules].
  destruct (decide (chunks = [])) as [->|Hne].
  { exists [], []. split_and!; try done. constructor; [|done]. split; [done|].
    simpl. pose proof MODULE_CHUNK_val; lia. }
  destruct (chunk_index_for_split (MkUnwinder chunks g) (mod_start m) Hwf Hne)
    as (pre & chunk & post & Heq & Hi & Hcne & Hlen & Hs & Hpre & Hpost & _).
  simpl in Heq. rewrite Hi. destruct Hwf as [Hc _]. simpl in Hc.
  subst chunks. rewrite lookup_middle. cbn [default from_option id].
  destruct (insertion_index_split chunk (mod_start m) Hs) as (c1 & c2 & -> & -> & Hc1 & Hc2).
  rewrite vec_insert_app, insert_middle. rewrite insert_middle.
  exists (concat pre ++ c1), (c2 ++ concat post).
  apply Forall_app in Hc as [Hcpre Hc]. apply Forall_cons in Hc as [_ Hcpost].
  rewrite length_app in Hlen.
  rewrite match_middle.
  assert (length (c1 ++ m :: c2) = S (length c1 + length c2)) as Hlen'.
  { rewrite length_app. simpl. lia. }
  set (c := c1 ++ m :: c2) in *.
  destruct (2 * MODULE_CHUNK <? length c)%nat eqn:Hsplit; bool_to_prop.
  - replace (S (length pre)) with (length (pre ++ [take MODULE_CHUNK c]))
      by (rewrite length_app; simpl; lia).
    rewrite (cons_middle (take MODULE_CHUNK c) pre post), (app_assoc pre [_] post),
      vec_insert_app.
    rewrite <- app_assoc, !concat_app. cbn [concat app]. rewrite <- !app_assoc. cbn [app].
    split_and!; [done| |by apply Forall_app|by apply Forall_app|].
    + rewrite (app_assoc (take _ c) (drop _ c) (concat post)), take_drop.
      unfold c. by rewrite <- !app_assoc.
    + apply Forall_app. split; [done|].
      apply (Forall_app _ [_; _]). split; [apply split_chunk_ok; lia|done].
  - rewrite !concat_app. simpl. rewrite <- !app_assoc.
    split_and!; [done| |by apply Forall_app|by apply Forall_app|].
    + unfold c. by rewrite <- !app_assoc.
    + apply Forall_app. split; [done|]. apply Forall_cons. split; [|done].
      split; [|lia]. intros Ht%(f_equal length). simpl in Ht. lia.
Qed.

Lemma remove_from_chunks_flat u k :
  unwinder_wf u ->
  match remove_from_chunks u k with
  | Some chunks =>
      exists l1 x l2, flat u = l1 ++ x :: l2 /\ mod_start x = k /\ concat chunks = l1 ++ l2 /\
        Forall (fun c => c <> [] /\ (length c <= 2 * MODULE_CHUNK)%nat) chunks
  | None => forall x, x ∈ flat u -> mod_start x <> k
  end.
Proof.
  intros Hwf. destruct u as [chunks g]. unfold flat, remove_from_chunks. cbn [modules].
  destruct (decide (chunks = [])) as [->|Hne]; [set_solver|].
  destruct (chunk_index_for_split (MkUnwinder chunks g) k Hwf Hne)
    as (pre & chunk & post & Heq & Hi & Hcne & Hlen & Hs & Hpre & Hpost & Hk & Hk').
  simpl in Heq. rewrite Hi. clear Hi. destruct Hwf as [Hc Hsort]. simpl in Hc, Hsort.
  subst chunks. rewrite lookup_middle. cbn [default from_option id]. clear Hne.
  rewrite match_middle.
  apply Forall_app in Hc as [Hcpre Hc]. apply Forall_cons in Hc as [_ Hcpost].
  destruct (binary_search_by_key mod_start chunk k) as [i|i] eqn:E.
  - apply binary_search_Ok_split in E as (l1 & x & l2 & -> & <- & Hx).
    rewrite vec_remove_middle. rewrite length_app in Hlen. simpl in Hlen.
    assert (exists chunks, (match l1 ++ l2 with
      | [] => Some (vec_remove (length pre) (pre ++ (l1 ++ x :: l2) :: post))
      | _ :: _ => Some (<[length pre := l1 ++ l2]> (pre ++ (l1 ++ x :: l2) :: post))
      end) = Some chunks /\ concat chunks = concat pre ++ (l1 ++ l2) ++ concat post /\
      Forall (fun c => c <> [] /\ (length c <= 2 * MODULE_CHUNK)%nat) chunks)
      as (chunks & -> & Hcat & Hf).
    { rewrite vec_remove_middle, insert_middle.
      destruct (l1 ++ l2) as [|y l] eqn:El; eexists; (split; [done|]).
      - rewrite concat_app. split; [done|]. by apply Forall_app.
      - rewrite concat_app. simpl. split; [done|]. apply Forall_app. split; [done|].
        apply Forall_cons. split; [|done]. split; [done|].
        rewrite <- El, length_app. lia. }
    exists (concat pre ++ l1), x, (l2 ++ concat post).
    rewrite concat_app, Hcat. simpl. by rewrite <- !app_assoc.
  - apply binary_search_Err in E as (l1 & l2 & -> & <- & Hl1 & Hl2); [|done].
    intros x. rewrite concat_app. simpl. rewrite !elem_of_app.
    pose proof (chunk_key_absent l1 l2 k Hcne Hl1 Hl2) as Hck. specialize (Hk' Hck).
    rewrite Forall_forall in Hpre, Hl1, Hl2, Hk'.
    intros [Hin|[[Hin|Hin]|Hin]].
    + (* before the chunk: at most the chunk's first key, which is below [k] *)
      assert (pre <> []) as Hpne by (intros ->; set_solver).
      specialize (Hk Hpne). rewrite concat_app in Hsort. simpl in Hsort.
      apply StronglySorted_app in Hsort as (Hlt & _).
      destruct (l1 ++ l2) as [|y l] eqn:El; [done|]. simpl in *.
      specialize (Hlt x y Hin ltac:(set_solver)). unfold key_le in Hlt. lia.
    + specialize (Hl1 _ Hin). lia.
    + specialize (Hl2 _ Hin). lia.
    + specialize (Hk' _ Hin). lia.
Qed.

(** The modules by start address: what the list means to its users. *)
Definition view (u : UnwinderInternal) : gmap Z (Module_ D) :=
  list_to_map ((fun m => (mod_start m, m)) <$> flat u).

Lemma distinct_starts_NoDup u :
  distinct_starts u -> NoDup (((fun m => (mod_start m, m)) <$> flat u).*1).
Proof.
  unfold distinct_starts. rewrite <- list_fmap_compose.
  induction 1 as [|m l Hs IH Hf]; [constructor|]. simpl. constructor; [|done].
  rewrite list_elem_of_fmap. intros (m' & Heq & Hm'). simpl in Heq.
  rewrite Forall_forall in Hf. specialize (Hf _ Hm'). unfold key_lt in Hf. lia.
Qed.

Lemma view_lookup u k m :
  distinct_starts u -> view u !! k = Some m <-> m ∈ flat u /\ mod_start m = k.
Proof.
  intros Hd%distinct_starts_NoDup. unfold view.
  rewrite <- elem_of_list_to_map by done. rewrite list_elem_of_fmap.
  split; [intros (m' & ? & ?); simplify_eq; eauto|intros [? <-]; eauto].
Qed.

Lemma view_None u k :
  distinct_starts u -> view u !! k = None <-> (forall m, m ∈ flat u -> mod_start m <> k).
Proof.
  intros Hd. rewrite eq_None_not_Some. unfold is_Some. split.
  - intros Hn m Hm Hk. apply Hn. exists m. by apply view_lookup.
  - intros Hn [m [Hm Hk]%view_lookup]; [|done]. by eapply Hn.
Qed.

(** Two lists with distinct starts and the same modules have the same view. *)
Lemma view_eq u (mp : gmap Z (Module_ D)) :
  distinct_starts u ->
  (forall k m, mp !! k = Some m <-> m ∈ flat u /\ mod_start m = k) -> view u = mp.
Proof.
  intros Hd Hmp. apply map_eq. intros k. apply option_eq. intros m.
  by rewrite view_lookup, Hmp.
Qed.

Lemma strict_insert (l1 l2 : list (Module_ D)) m :
  strictly_sorted_by mod_start (l1 ++ l2) ->
  Forall (fun m' => mod_start m' < mod_start m) l1 ->
  Forall (fun m' => mod_start m < mod_start m') l2 ->
  strictly_sorted_by mod_start (l1 ++ m :: l2).
Proof.
  intros (Hlt & H1 & H2)%StronglySorted_app Hl1 Hl2.
  rewrite Forall_forall in Hl1, Hl2.
  apply StronglySorted_app. split_and!; [|done|].
  - intros x y Hx Hy. apply elem_of_cons in Hy as [->|Hy]; [by apply Hl1|by apply Hlt].
  - apply StronglySorted_cons. split; [|done]. by apply Forall_forall.
Qed.

Lemma strict_remove (l1 l2 : list (Module_ D)) m :
  strictly_sorted_by mod_start (l1 ++ m :: l2) -> strictly_sorted_by mod_start (l1 ++ l2).
Proof.
  intros (Hlt & H1 & H2)%StronglySorted_app. apply StronglySorted_cons in H2 as [_ H2].
  apply StronglySorted_app. split_and!; [|done|done]. intros x y Hx Hy.
  apply Hlt; [done|]. set_solver.
Qed.

Lemma strict_middle_ne (l1 l2 : list (Module_ D)) m m' :
  strictly_sorted_by mod_start (l1 ++ m :: l2) -> m' ∈ l1 ++ l2 -> mod_start m' <> mod_start m.
Proof.
  intros (Hlt & H1 & H2)%StronglySorted_app [Hm|Hm]%elem_of_app.
  - specialize (Hlt m' m Hm ltac:(set_solver)). unfold key_lt in Hlt. lia.
  - apply StronglySorted_cons in H2 as [H2 _]. rewrite Forall_forall in H2.
    specialize (H2 _ Hm). unfold key_lt in H2. lia.
Qed.

(** Adding a module under any start address, taken or not, keeps the list
    well formed. *)
Lemma add_to_chunks_wf u m : unwinder_wf u -> chunks_wf (add_to_chunks u m).
Proof.
  intros Hwf. destruct (add_to_chunks_flat u m Hwf) as (l1 & l2 & Hf & Hc & Hl1 & Hl2 & Hcw).
  split; [done|]. rewrite Hc. destruct Hwf as [_ Hs]. fold (flat u) in Hs. rewrite Hf in Hs.
  apply StronglySorted_app in Hs as (Hlt & H1 & H2). rewrite Forall_forall in Hl1, Hl2.
  apply StronglySorted_app. split_and!; [|done|].
  - intros x y Hx [->|Hy]%elem_of_cons; [by apply Hl1|by apply Hlt].
  - apply StronglySorted_cons. split; [|done]. by apply Forall_forall.
Qed.

Lemma next_modules_generation_ok g :
  0 <= g < u64_MAX -> next_modules_generation g = (Ok g, g + 1).
Proof.
  intros Hg. unfold next_modules_generation, mbind, st_bind, st_get, st_modify, mret, st_ret.
  destruct (checked_add 64 g 1) as [n|] eqn:E.
  - apply checked_add_Some in E as [-> _]. done.
  - apply try_u_None in E. unfold in_u, u64_MAX in *. lia.
Qed.

Lemma add_module_view (u : UnwinderInternal) (m : Module_ D) (g : Z) :
  unwinder_wf u -> distinct_starts u -> view u !! mod_start m = None ->
  0 <= g < u64_MAX ->
  exists u', add_module u m g = (Ok u', g + 1) /\
    unwinder_wf u' /\ distinct_starts u' /\
    view u' = <[mod_start m := m]> (view u) /\ modules_generation u' = g.
Proof.
  intros Hwf Hd Hfresh Hg. exists (MkUnwinder (add_to_chunks u m) g).
  pose proof (add_to_chunks_wf u m Hwf) as Hwf'.
  destruct (add_to_chunks_flat u m Hwf) as (l1 & l2 & Hf & Hc & Hl1 & Hl2 & _).
  assert (distinct_starts (MkUnwinder (add_to_chunks u m) g)) as Hd'.
  { unfold distinct_starts, flat. simpl. rewrite Hc.
    rewrite view_None in Hfresh by done. rewrite Hf in Hfresh.
    unfold distinct_starts in Hd. rewrite Hf in Hd. rewrite Forall_forall in Hl1, Hl2.
    apply strict_insert; [done| |]; apply Forall_forall; intros x Hx.
    - specialize (Hl1 x Hx). specialize (Hfresh x ltac:(set_solver)). lia.
    - specialize (Hl2 x Hx). specialize (Hfresh x ltac:(set_solver)). lia. }
  split_and!; [|done|done| |done].
  { unfold add_module, mbind, st_bind. by rewrite next_modules_generation_ok. }
  apply view_eq; [done|]. intros k m'. unfold flat at 1. simpl. rewrite Hc, lookup_insert.
  case_decide as Hk.
  - rewrite view_None in Hfresh by done. rewrite Hf in Hfresh. split.
    + intros [= <-]. set_solver.
    + intros [Hin <-]. f_equal. apply elem_of_app in Hin as [Hin|Hin].
      * by destruct (Hfresh m' ltac:(set_solver)).
      * apply elem_of_cons in Hin as [->|Hin]; [done|].
        by destruct (Hfresh m' ltac:(set_solver)).
  - rewrite view_lookup, Hf by done. rewrite !elem_of_app, elem_of_cons. naive_solver.
Qed.

(** C17: [add_module] of a module whose start address is free inserts it, and
    nothing else, into the map from start addresses to modules; the chunk
    invariant (sorted, no empty chunk, no chunk over 128 modules) is kept and the
    list gets a new generation. *)
Theorem add_module_refines (u : UnwinderInternal) (m : Module_ D) (g : Z) :
  unwinder_wf u -> distinct_starts u -> view u !! mod_start m = None ->
  0 <= g < u64_MAX ->
  exists u', add_module u m g = (Ok u', g + 1) /\
    unwinder_wf u' /\ distinct_starts u' /\
    view u' = <[mod_start m := m]> (view u) /\ modules_generation u' = g.
Proof. apply add_module_view. Qed.

Lemma remove_module_view (u : UnwinderInternal) (k g : Z) :
  unwinder_wf u -> distinct_starts u -> 0 <= g < u64_MAX ->
  exists u', remove_module u k g = (Ok u', if decide (is_Some (view u !! k)) then g + 1 else g) /\
    unwinder_wf u' /\ distinct_starts u' /\ view u' = delete k (view u) /\
    (view u !! k = None -> u' = u).
Proof.
  intros Hwf Hd Hg. pose proof (remove_from_chunks_flat u k Hwf) as Hr.
  unfold remove_module. destruct (remove_from_chunks u k) as [chunks|].
  - destruct Hr as (l1 & x & l2 & Hf & Hx & Hc & Hcw).
    assert (view u !! k = Some x) as Hk.
    { apply view_lookup; [done|]. rewrite Hf. set_solver. }
    exists (MkUnwinder chunks g). unfold distinct_starts in Hd. rewrite Hf in Hd.
    assert (distinct_starts (MkUnwinder chunks g)) as Hd'.
    { unfold distinct_starts, flat. simpl. rewrite Hc. by eapply strict_remove. }
    split_and!.
    + rewrite Hk, decide_True by eauto. unfold mbind, st_bind.
      by rewrite next_modules_generation_ok.
    + split; [done|]. simpl. rewrite Hc.
      apply strictly_sorted_sorted. by eapply strict_remove.
    + done.
    + apply view_eq; [done|]. intros k' m. unfold flat at 1. simpl. rewrite Hc.
      rewrite lookup_delete. case_decide as Hkk.
      * subst k'. split; [done|]. intros [Hm Hk']. exfalso.
        eapply (strict_middle_ne l1 l2 x m); [done|done|congruence].
      * rewrite view_lookup, Hf by (unfold distinct_starts; by rewrite Hf).
        rewrite !elem_of_app, elem_of_cons. naive_solver.
    + rewrite Hk. done.
  - exists u. assert (view u !! k = None) as Hk by by apply view_None.
    rewrite Hk, decide_False by (by intros [? ?]).
    split_and!; [done|done|done| |done].
    symmetry. by apply delete_id.
Qed.

(** C18: [remove_module] deletes the module that starts at the address, and
    nothing else, from the map; when no module starts there the list, its
    generation and the global counter stay as they are. *)
Theorem remove_module_refines (u : UnwinderInternal) (k g : Z) :
  unwinder_wf u -> distinct_starts u -> 0 <= g < u64_MAX ->
  exists u', remove_module u k g = (Ok u', if decide (is_Some (view u !! k)) then g + 1 else g) /\
    unwinder_wf u' /\ distinct_starts u' /\ view u' = delete k (view u) /\
    (view u !! k = None -> u' = u).
Proof. apply remove_module_view. Qed.

(** The module the address is looked up in: the last one that starts at or
    below it. *)
Definition last_at_or_below (u : UnwinderInternal) (a : Z) m : Prop :=
  m ∈ flat u /\ mod_start m <= a /\
  forall m', m' ∈ flat u -> mod_start m' <= a -> mod_start m' <= mod_start m.

Definition lookup_in (m : Module_ D) (a : Z) : option (Module_ D * Z) :=
  if a <? base_avma m then None else (fun r => (m, r)) <$> try_u 32 (a - base_avma m).

(** In a chunk, the last module below an address that starts no module. *)
Lemma last_below_chunk u a pre l1 m l2 post :
  unwinder_wf u -> flat u = concat pre ++ ((l1 ++ [m]) ++ l2) ++ concat post ->
  Forall (fun m => mod_start m < a) (l1 ++ [m]) -> Forall (fun m => a < mod_start m) l2 ->
  Forall (fun m => a < mod_start m) (concat post) -> last_at_or_below u a m.
Proof.
  intros [_ Hsort] Hflat Hl1 Hl2 Hpost. fold (flat u) in Hsort. rewrite Hflat in Hsort.
  rewrite Forall_forall in Hl1, Hl2, Hpost.
  apply StronglySorted_app in Hsort as (Hpre & _ & Hs). apply StronglySorted_app in Hs as (_ & Hs & _).
  split_and!; [rewrite Hflat; set_solver|specialize (Hl1 m ltac:(set_solver)); lia|]. intros m' Hm' Hm'a.
  rewrite Hflat in Hm'. apply elem_of_app in Hm' as [Hm'|[[[Hm'|Hm']%elem_of_app|Hm']%elem_of_app|Hm']%elem_of_app].
  - assert (key_le mod_start m' m) as Hle by (apply Hpre; [done|set_solver]). exact Hle.
  - rewrite <- app_assoc in Hs. apply StronglySorted_app in Hs as (Hlt & _ & _).
    apply (Hlt m' m); [done|set_solver].
  - apply list_elem_of_singleton in Hm' as ->. lia.
  - specialize (Hl2 _ Hm'). lia.
  - specialize (Hpost _ Hm'). lia.
Qed.

Lemma lookup_in_spec m a :
  lookup_in m a = if a <? base_avma m then None
    else relative_address ← try_u 32 (a - base_avma m); Some (m, relative_address).
Proof. unfold lookup_in. destruct (a <? base_avma m); [done|]. by destruct (try_u _ _). Qed.

Lemma find_module_cases u a :
  unwinder_wf u ->
  (exists m, last_at_or_below u a m /\
     find_module_for_address u a =
       if (mod_start m <? a) && (mod_end m <=? a) then None else lookup_in m a) \/
  ((forall m, m ∈ flat u -> a < mod_start m) /\ find_module_for_address u a = None).
Proof.
  intros Hwf. unfold find_module_for_address.
  destruct (modules u) as [|c0 cs] eqn:Hm.
  { right. unfold flat. rewrite Hm. set_solver. }
  destruct (chunk_index_for_split u a Hwf) as
    (pre & chunk & post & Heq & Hi & Hcne & Hlen & Hs & Hpre & Hpost & Hk & Hk');
    [by rewrite Hm|].
  rewrite <- Hm, Hi, Heq, lookup_middle. cbn [default from_option id].
  assert (flat u = concat pre ++ chunk ++ concat post) as Hflat.
  { unfold flat. by rewrite Heq, concat_app. }
  rewrite Forall_forall in Hpre, Hpost.
  destruct (binary_search_by_key mod_start chunk a) as [i|i] eqn:E.
  - apply binary_search_Ok in E as (m & Hmi & Hma). rewrite Hmi. left. exists m. split.
    + split_and!; [|lia|lia]. rewrite Hflat. apply list_elem_of_lookup_2 in Hmi. set_solver.
    + rewrite lookup_in_spec. replace (mod_start m <? a) with false by lia. done.
  - apply binary_search_Err in E as (l1 & l2 & -> & Hi1 & Hl1 & Hl2); [|done].
    specialize (Hk' (chunk_key_absent l1 l2 a Hcne Hl1 Hl2)).
    destruct i as [|i].
    + right. split; [|done]. apply nil_length_inv in Hi1. subst l1. rewrite Forall_forall in Hl2, Hk'.
      assert (pre = []) as ->.
      { destruct pre as [|p pre]; [done|]. specialize (Hk ltac:(done)).
        destruct l2 as [|y l2]; [done|]. specialize (Hl2 y ltac:(set_solver)). simpl in *. lia. }
      intros m. rewrite Hflat. intros [?|[?|?]%elem_of_app]%elem_of_app;
        [set_solver|by apply Hl2|by apply Hk'].
    + left. destruct (exists_last (l:=l1)) as (l1' & m & ->); [by intros ->|].
      exists m. split; [by eapply last_below_chunk|].
      rewrite length_app in Hi1. simpl in Hi1. assert (i = length l1') as -> by lia.
      rewrite Forall_forall in Hl1. specialize (Hl1 m ltac:(set_solver)).
      rewrite <- app_assoc. simpl. rewrite lookup_middle. replace (mod_start m <? a) with true by lia. simpl.
      destruct (mod_end m <=? a); [done|]. by rewrite lookup_in_spec.
Qed.

(** What is found is a module of the list, with a [u32] offset. *)
Lemma find_module_elem u a m rel :
  unwinder_wf u -> find_module_for_address u a = Some (m, rel) -> m ∈ flat u /\ rel = a - base_avma m /\ u32 rel.
Proof.
  intros Hwf. destruct (find_module_cases u a Hwf) as [(m0 & (Hin & _) & ->)|[_ ->]]; [|done].
  destruct (_ && _); [done|]. unfold lookup_in. destruct (_ <? _); [done|].
  destruct (try_u _ _) as [r|] eqn:E; [|done]. intros [= <- <-]. by apply try_u_Some in E as [-> ?].
Qed.

(** C16: [find_module_for_address] returns a module exactly when it is the last one
    that starts at or below the address, the address is its start or below its
    end, and the offset from its base address is a [u32]; the offset is what it
    returns. *)
Theorem find_module_for_address_spec (u : UnwinderInternal) (a : Z) (m : Module_ D) (rel : Z) :
  unwinder_wf u -> distinct_starts u ->
  find_module_for_address u a = Some (m, rel) <->
  (m ∈ flat u /\ mod_start m <= a /\ (a = mod_start m \/ a < mod_end m) /\
   (forall m', m' ∈ flat u -> mod_start m < mod_start m' -> a < mod_start m') /\
   rel = a - base_avma m /\ u32 rel).
Proof.
  intros Hwf Hd.
  assert (forall m1 m2, last_at_or_below u a m1 -> last_at_or_below u a m2 -> m1 = m2) as Huniq.
  { intros m1 m2 (H1 & H1' & H1'') (H2 & H2' & H2'').
    assert (mod_start m1 = mod_start m2) as Heq.
    { specialize (H1'' m2 H2 H2'). specialize (H2'' m1 H1 H1'). lia. }
    assert (view u !! mod_start m1 = Some m1) as E1 by by apply view_lookup.
    assert (view u !! mod_start m2 = Some m2) as E2 by by apply view_lookup.
    rewrite Heq in E1. congruence. }
  destruct (find_module_cases u a Hwf) as [(m0 & Hbest & ->)|[Hnone ->]].
  - split.
    + destruct (_ && _) eqn:E; [done|]. unfold lookup_in.
      destruct (a <? base_avma m0) eqn:Eb; [done|].
      destruct (try_u _ _) as [r|] eqn:Er; [|done]. simpl. intros [= <- <-].
      apply try_u_Some in Er as [-> Hr]. destruct Hbest as (H1 & H2 & H3).
      split_and!; try done; [lia|]. intros m' Hm' Hlt.
      destruct (decide (mod_start m' <= a)) as [Hle|]; [|lia].
      specialize (H3 m' Hm' Hle). lia.
    + intros (H1 & H2 & H3 & H4 & -> & Hr).
      assert (m = m0) as ->.
      { apply Huniq; [|done]. split_and!; [done|done|]. intros m' Hm' Hle.
        destruct (decide (mod_start m < mod_start m')) as [Hlt|]; [|lia].
        specialize (H4 m' Hm' Hlt). lia. }
      destruct (_ && _) eqn:E; bool_to_prop; [lia|]. unfold lookup_in.
      replace (a <? base_avma m0) with false by (unfold in_u in Hr; lia).
      assert (try_u 32 (a - base_avma m0) = Some (a - base_avma m0)) as -> by by apply try_u_Some.
      done.
  - split; [done|]. intros (H1 & H2 & _). specialize (Hnone m H1). lia.
Qed.

(** [max_known_code_address] is the end of the module that starts last. *)
Lemma max_known_code_address_spec u :
  unwinder_wf u ->
  match last (flat u) with
  | Some m => max_known_code_address u = mod_end m
  | None => max_known_code_address u = 0
  end.
Proof.
  intros [Hc _]. unfold max_known_code_address, flat.
  induction (modules u) as [|chunk chunks _] using rev_ind; [done|].
  rewrite last_snoc, concat_app. simpl. rewrite app_nil_r.
  apply Forall_app in Hc as [_ Hc]. apply Forall_cons in Hc as [[Hne _] _].
  destruct (exists_last Hne) as (l & m & ->).
  by rewrite app_assoc, !last_snoc.
Qed.

End ModuleList.

Arguments UnwinderInternal D : clear implicits.

(** ** Concrete runs *)

Definition example_module (start stop : Z) : Module_ unit :=
  MkModule ""%string (Range start stop) start 0 tt.

Definition example_unwinder : UnwinderInternal unit :=
  MkUnwinder [[example_module 4096 8192; example_module 12288 16384]] 5.

Lemma example_unwinder_wf : unwinder_wf example_unwinder.
Proof. split; repeat constructor; unfold key_le; simpl; try done; lia. Defined.

Lemma example_unwinder_distinct : distinct_starts example_unwinder.
Proof. unfold distinct_starts. repeat constructor; unfold key_lt; simpl; lia. Defined.

Lemma add_module_refines_witness :
  exists u', add_module example_unwinder (example_module 8192 12288) 7 = (Ok u', 8) /\
    view u' !! 8192 = Some (example_module 8192 12288) /\ modules_generation u' = 7.
Proof.
  destruct (add_module_refines example_unwinder (example_module 8192 12288) 7)
    as (u' & Hu & _ & _ & Hv & Hg);
    [apply example_unwinder_wf|apply example_unwinder_distinct|reflexivity
    |unfold u64_MAX; lia|].
  exists u'. split; [exact Hu|]. split; [|exact Hg].
  rewrite Hv. apply lookup_insert_eq.
Defined.

Lemma remove_module_refines_witness :
  exists u', remove_module example_unwinder 4096 7 = (Ok u', 8) /\
    view u' = delete 4096 (view example_unwinder).
Proof.
  destruct (remove_module_refines example_unwinder 4096 7) as (u' & Hu & _ & _ & Hv & _);
    [apply example_unwinder_wf|apply example_unwinder_distinct|unfold u64_MAX; lia|].
  exists u'. split; [|exact Hv]. rewrite Hu.
  destruct (decide _) as [_|Hn]; [reflexivity|].
  destruct Hn. exists (example_module 4096 8192). reflexivity.
Defined.

Lemma find_module_for_address_spec_witness :
  find_module_for_address example_unwinder 4100 = Some (example_module 4096 8192, 4) /\
  example_module 4096 8192 ∈ flat example_unwinder.
Proof.
  split; [reflexivity|].
  apply (find_module_for_address_spec example_unwinder 4100 (example_module 4096 8192) 4);
    [apply example_unwinder_wf|apply example_unwinder_distinct|reflexivity].
Defined.

(** The end of a range is outside it, and a split chunk is searched like one list. *)
Example find_past_end : find_module_for_address example_unwinder 8192 = None.
Proof. reflexivity. Qed.
