(* ===== verification/RuleCache.v ===== *)
(** * The unwind rule cache

    Models [vendor/framehop/src/rule_cache.rs]: a direct-mapped table of 509
    entries keyed by lookup address and module generation. *)
From S2P Require Import Prelude.

Section RuleCache.
  Context {R : Type}.

Definition CACHE_ENTRY_COUNT : Z := 509.

Record CacheEntry : Type := MkCacheEntry {
  entry_address : Z;
  entry_generation : Z;
  entry_rule : R;
}.

Record CacheStats : Type := MkCacheStats {
  hit_count : Z;
  miss_empty_slot_count : Z;
  miss_wrong_modules_count : Z;
  miss_wrong_address_count : Z;
}.

Record RuleCache : Type := MkRuleCache {
  entries : list (option CacheEntry);
  stats : CacheStats;
}.

Record CacheHandle : Type := MkCacheHandle {
  handle_slot : Z;
  handle_address : Z;
  handle_generation : Z;
}.

Inductive CacheResult : Type :=
  | Miss (h : CacheHandle)
  | Hit (rule : R).

Definition CacheStats_new : CacheStats := MkCacheStats 0 0 0 0.

Definition RuleCache_new : RuleCache :=
  MkRuleCache (replicate (Z.to_nat CACHE_ENTRY_COUNT) None) CacheStats_new.

Definition misses (s : CacheStats) : Z :=
  wrapping_add 64
    (wrapping_add 64 (miss_empty_slot_count s) (miss_wrong_modules_count s))
    (miss_wrong_address_count s).
Definition hits (s : CacheStats) : Z := hit_count s.
Definition total (s : CacheStats) : Z := wrapping_add 64 (hits s) (misses s).

(** [lookup] takes [&mut self] for the statistics only. *)
Definition cache_lookup (c : RuleCache) (address modules_generation : Z) :
    CacheResult * RuleCache :=
  let slot := as_u 16 (address mod CACHE_ENTRY_COUNT) in
  let 'MkCacheStats hit empty wrong_modules wrong_address := stats c in
  let miss s := (Miss (MkCacheHandle slot address modules_generation),
                 MkRuleCache (entries c) s) in
  match default None (entries c !! Z.to_nat slot) with
  | None => miss (MkCacheStats hit (wrapping_add 64 empty 1) wrong_modules wrong_address)
  | Some entry =>
      if entry_generation entry =? modules_generation then
        if entry_address entry =? address then
          (Hit (entry_rule entry),
           MkRuleCache (entries c)
             (MkCacheStats (wrapping_add 64 hit 1) empty wrong_modules wrong_address))
        else miss (MkCacheStats hit empty wrong_modules (wrapping_add 64 wrong_address 1))
      else miss (MkCacheStats hit empty (wrapping_add 64 wrong_modules 1) wrong_address)
  end.

Definition cache_insert (c : RuleCache) (handle : CacheHandle) (unwind_rule : R) : RuleCache :=
  let '(MkCacheHandle slot address modules_generation) := handle in
  MkRuleCache
    (<[Z.to_nat slot := Some (MkCacheEntry address modules_generation unwind_rule)]> (entries c))
    (stats c).

(** ** The invariant and the partial map the table stands for *)

(** The table has its full length and every entry sits in its address's slot. *)
Definition cache_wf (c : RuleCache) : Prop :=
  length (entries c) = Z.to_nat CACHE_ENTRY_COUNT /\
  forall i e, entries c !! i = Some (Some e) ->
    u64 (entry_address e) /\ i = Z.to_nat (entry_address e mod CACHE_ENTRY_COUNT).

(** The rule the cache holds for an address under a generation. *)
Definition cached (c : RuleCache) (a g : Z) : option R :=
  match default None (entries c !! Z.to_nat (a mod CACHE_ENTRY_COUNT)) with
  | Some e => if (entry_generation e =? g) && (entry_address e =? a)
              then Some (entry_rule e) else None
  | None => None
  end.

Lemma cached_new a g : cached RuleCache_new a g = None.
Proof.
  unfold cached, RuleCache_new. cbn [entries]. destruct (replicate _ _ !! _) as [[e|]|] eqn:E; [|done..].
  by apply lookup_replicate in E as [? _].
Qed.

Lemma slot_small a : u64 a -> as_u 16 (a mod CACHE_ENTRY_COUNT) = a mod CACHE_ENTRY_COUNT.
Proof.
  intros _. apply as_u_small. unfold in_u, CACHE_ENTRY_COUNT.
  pose proof (Z.mod_pos_bound a 509). lia.
Qed.

(** Every lookup is in bounds: the index expression cannot panic. *)
Lemma slot_in_bounds c a : cache_wf c -> (Z.to_nat (a mod CACHE_ENTRY_COUNT) < length (entries c))%nat.
Proof.
  intros [-> _]. unfold CACHE_ENTRY_COUNT. pose proof (Z.mod_pos_bound a 509). lia.
Qed.

Lemma RuleCache_new_wf : cache_wf RuleCache_new.
Proof.
  split; [apply length_replicate|]. intros i e H.
  apply lookup_replicate in H as [H _]. done.
Qed.

Lemma lookup_entries c a g : entries (cache_lookup c a g).2 = entries c.
Proof.
  unfold cache_lookup. destruct (stats c).
  destruct (default None _) as [e|]; [|done].
  destruct (_ =? g); [|done]. by destruct (_ =? a).
Qed.

Lemma lookup_result c a g :
  u64 a ->
  (cache_lookup c a g).1 =
    match cached c a g with
    | Some rule => Hit rule
    | None => Miss (MkCacheHandle (a mod CACHE_ENTRY_COUNT) a g)
    end.
Proof.
  intros Ha. unfold cache_lookup, cached. rewrite slot_small by done.
  destruct (stats c). destruct (default None _) as [e|]; [|done].
  destruct (_ =? g); [|done]. by destruct (_ =? a).
Qed.

Lemma insert_wf c a g rule :
  cache_wf c -> u64 a ->
  cache_wf (cache_insert c (MkCacheHandle (a mod CACHE_ENTRY_COUNT) a g) rule).
Proof.
  intros Hwf Ha. pose proof (slot_in_bounds c a Hwf) as Hb. destruct Hwf as [Hl He].
  cbn [cache_insert]. split; cbn [entries]; [by rewrite length_insert|]. intros i e.
  rewrite list_lookup_insert. case_decide as Hi.
  - intros [= <-]. simpl. naive_solver.
  - apply He.
Qed.

Lemma cached_insert_eq c a g rule :
  cache_wf c -> cached (cache_insert c (MkCacheHandle (a mod CACHE_ENTRY_COUNT) a g) rule) a g = Some rule.
Proof.
  intros Hwf. unfold cached. cbn [cache_insert entries]. pose proof (slot_in_bounds c a Hwf).
  rewrite list_lookup_insert_eq by done. simpl. by rewrite !Z.eqb_refl.
Qed.

(** What a lookup returns after an insertion: the inserted rule for the same
    address and generation, nothing for any other key that shares the slot (the
    entry was replaced), and what it returned before for every other slot. A rule
    is never returned for another address or another generation. *)
Theorem insert_then_lookup (c : RuleCache) (a g a' g' : Z) (rule : R) :
  cache_wf c -> u64 a -> u64 a' ->
  let handle := MkCacheHandle (a mod CACHE_ENTRY_COUNT) a g in
  (cache_lookup (cache_insert c handle rule) a' g').1 =
    if decide (a' mod CACHE_ENTRY_COUNT = a mod CACHE_ENTRY_COUNT) then
      if decide (a' = a /\ g' = g) then Hit rule
      else Miss (MkCacheHandle (a' mod CACHE_ENTRY_COUNT) a' g')
    else (cache_lookup c a' g').1.
Proof.
  intros Hwf Ha Ha'. simpl. rewrite !lookup_result by done. unfold cached. cbn [cache_insert entries].
  pose proof (slot_in_bounds c a Hwf) as Hb.
  rewrite list_lookup_insert. destruct (decide (a' mod _ = a mod _)) as [Heq|Hne].
  - rewrite Heq. rewrite decide_True by done. simpl.
    destruct (decide (a' = a /\ g' = g)) as [[-> ->]|Hn].
    + by rewrite !Z.eqb_refl.
    + destruct ((g =? g') && (a =? a')) eqn:E; [|done].
      bool_to_prop. destruct Hn. lia.
  - rewrite decide_False; [done|]. intros [Hz _]. apply Hne.
    unfold CACHE_ENTRY_COUNT in *.
    pose proof (Z.mod_pos_bound a 509). pose proof (Z.mod_pos_bound a' 509). lia.
Qed.

(** The statistics count every lookup once. *)
Lemma lookup_counts c a g :
  total (stats (cache_lookup c a g).2) = wrapping_add 64 (total (stats c)) 1.
Proof.
  unfold cache_lookup, total, hits, misses, wrapping_add, as_u.
  destruct (stats c) as [h e m w]. simpl.
  destruct (default None _) as [en|]; [destruct (_ =? g); [destruct (_ =? a)|]|]; simpl;
    Z.div_mod_to_equations; lia.
Qed.
(** Every rule that is held satisfies [P]. *)
Definition rules_in (P : R -> Prop) (c : RuleCache) : Prop :=
  Forall (from_option (fun e => P (entry_rule e)) True) (entries c).

Lemma rules_in_new P : rules_in P RuleCache_new.
Proof. by apply Forall_replicate. Qed.

Lemma rules_in_lookup P c a g : rules_in P c ->
  rules_in P (cache_lookup c a g).2 /\ match (cache_lookup c a g).1 with Hit rule => P rule | Miss _ => True end.
Proof.
  intros Hc. split; [unfold rules_in; by rewrite lookup_entries|]. unfold cache_lookup. destruct (stats c).
  destruct (entries c !! _) as [[e|]|] eqn:E; try done. cbn [default from_option id].
  pose proof (Forall_lookup_1 _ _ _ _ Hc E) as He. destruct (_ =? g); [|done]. by destruct (_ =? a).
Qed.

Lemma rules_in_insert P c h rule : rules_in P c -> P rule -> rules_in P (cache_insert c h rule).
Proof. intros Hc Hr. destruct h. by apply Forall_insert. Qed.
End RuleCache.

Arguments RuleCache R : clear implicits.
Arguments CacheEntry R : clear implicits.
Arguments CacheResult R : clear implicits.

(** Two addresses 509 apart share a slot: the second insertion evicts the first. *)
Lemma insert_then_lookup_witness :
  (cache_lookup (cache_insert RuleCache_new (MkCacheHandle (1000 mod CACHE_ENTRY_COUNT) 1000 3) 7%nat) 1000 3).1
    = Hit 7%nat /\
  (cache_lookup (cache_insert RuleCache_new (MkCacheHandle (1000 mod CACHE_ENTRY_COUNT) 1000 3) 7%nat) 1509 3).1
    = Miss (MkCacheHandle 491 1509 3).
Proof.
  split.
  - rewrite (insert_then_lookup RuleCache_new 1000 3 1000 3 7%nat);
      [reflexivity|apply RuleCache_new_wf|split; lia|split; lia].
  - rewrite (insert_then_lookup RuleCache_new 1000 3 1509 3 7%nat);
      [reflexivity|apply RuleCache_new_wf|split; lia|split; lia].
Defined.

#[export] Hint Resolve RuleCache_new_wf insert_wf rules_in_new rules_in_insert : framehop.
