(* ===== verification/Hazard.v ===== *)
(** * The hazard-pointer protocol

    Models the concurrent part of [src/state.rs], one atomic access per step:
    readers claim a slot, publish the snapshot pointer they are about to use in
    its hazard cell and re-check [CURRENT]; the writer that holds [WRITER] swaps
    [CURRENT], and frees a retired snapshot after a scan of all hazard cells
    found it in none. Slots may be added to the pool at any time.

    [CURRENT] and the hazard cells are accessed with [SeqCst] where the protocol
    depends on it, so they have one current value. The first load of [CURRENT] in
    [acquire_snapshot] is only [Acquire]; here it returns any pointer at all.

    A slot is released by the thread that walks; a release on behalf of a cursor whose
    nonce is no longer the slot's does nothing. That a copy of a live cursor releases
    the slot under a walk that another thread goes on with is not a step. *)
From S2P Require Import Prelude.

(** Addresses of [Snapshot] boxes. The allocator may hand out the address of a
    freed box again. *)
Abbreviation ptr := nat.

Definition SLOT_CHUNK : nat := 16%nat.
Definition MAX_SLOT_CHUNKS : nat := 64%nat.

(** The atomics of a [Slot]. *)
Record hslot : Type := HSlot {
  h_in_use : bool;
  h_seq : Z;
  h_hazard : option ptr;
}.

Definition hslot_new : hslot := HSlot false 0 None.

(** ** Readers

    Where a reading thread is. [i] is a slot index, [n] the claim nonce. *)
Inductive rpc : Type :=
  (** [claim_slot]: about to load chunk [c]; about to try slot [i]; won the
      exchange on [in_use], about to bump [seq]. *)
  | RChunk (c : nat)
  | RTry (i : nat)
  | RNonce (i : nat)
  (** [acquire_snapshot]: about to load [CURRENT]; about to store the hazard;
      about to clear it after a null load; about to re-check. *)
  | RLoad (i : nat) (n : Z)
  | RStore (i : nat) (n : Z) (p : ptr)
  | RStoreNull (i : nat) (n : Z)
  | RRecheck (i : nat) (n : Z) (p : ptr)
  (** Holds the snapshot: every [step] of the cursor reads it. *)
  | RHold (i : nat) (n : Z) (p : ptr)
  (** [release_slot]: about to exchange [seq]; about to clear the hazard; about
      to clear [in_use]. *)
  | RRelease (i : nat) (n : Z)
  | RClear (i : nat) (n : Z)
  | RFree (i : nat) (n : Z)
  (** [release_slot] on behalf of a stale cursor. *)
  | RStale (i : nat) (n : Z)
  | RDone.

(** The next place in the scan of all slots after slot [i]. *)
Definition scan_next {A} (at_chunk at_slot : nat -> A) (i : nat) : A :=
  if (S i mod SLOT_CHUNK =? 0)%nat then at_chunk (S i / SLOT_CHUNK)%nat else at_slot (S i).

(** [slot_chunk(c)] finds a published chunk. *)
Definition chunk_published (sl : list hslot) (c : nat) : bool :=
  (c <? MAX_SLOT_CHUNKS)%nat && (SLOT_CHUNK * c <? length sl)%nat.

Inductive rstep (cur : option ptr) : list hslot -> rpc -> list hslot -> rpc -> Prop :=
  | r_chunk sl c :
      chunk_published sl c = true ->
      rstep cur sl (RChunk c) sl (RTry (SLOT_CHUNK * c))
  | r_exhausted sl c :
      chunk_published sl c = false ->
      rstep cur sl (RChunk c) sl RDone
  | r_try_busy sl i s :
      sl !! i = Some s -> h_in_use s = true ->
      rstep cur sl (RTry i) sl (scan_next RChunk RTry i)
  | r_try_claim sl i seq hz :
      sl !! i = Some (HSlot false seq hz) ->
      rstep cur sl (RTry i) (<[i := HSlot true seq hz]> sl) (RNonce i)
  | r_nonce sl i u seq hz :
      sl !! i = Some (HSlot u seq hz) ->
      rstep cur sl (RNonce i) (<[i := HSlot u (wrapping_add 64 seq 1) hz]> sl)
        (RLoad i (wrapping_add 64 seq 1))
  | r_load sl i n p :
      rstep cur sl (RLoad i n) sl (RStore i n p)
  | r_load_null sl i n :
      rstep cur sl (RLoad i n) sl (RStoreNull i n)
  | r_store sl i n p u seq hz :
      sl !! i = Some (HSlot u seq hz) ->
      rstep cur sl (RStore i n p) (<[i := HSlot u seq (Some p)]> sl) (RRecheck i n p)
  | r_store_null sl i n u seq hz :
      sl !! i = Some (HSlot u seq hz) ->
      rstep cur sl (RStoreNull i n) (<[i := HSlot u seq None]> sl) (RRelease i n)
  | r_recheck_ok sl i n p :
      cur = Some p ->
      rstep cur sl (RRecheck i n p) sl (RHold i n p)
  | r_recheck_retry sl i n p :
      cur <> Some p ->
      rstep cur sl (RRecheck i n p) sl (RLoad i n)
  | r_finish sl i n p :
      rstep cur sl (RHold i n p) sl (RRelease i n)
  | r_release sl i n u hz :
      sl !! i = Some (HSlot u n hz) ->
      rstep cur sl (RRelease i n) (<[i := HSlot u (wrapping_add 64 n 1) hz]> sl) (RClear i n)
  | r_clear sl i n u seq hz :
      sl !! i = Some (HSlot u seq hz) ->
      rstep cur sl (RClear i n) (<[i := HSlot u seq None]> sl) (RFree i n)
  | r_free sl i n u seq hz :
      sl !! i = Some (HSlot u seq hz) ->
      rstep cur sl (RFree i n) (<[i := HSlot false seq hz]> sl) RDone
  | r_stale sl i n s :
      sl !! i = Some s -> h_seq s <> n ->
      rstep cur sl (RStale i n) sl RDone.

(** ** The writer *)

Inductive wpc : Type :=
  | WIdle
  (** Holds the lock and has loaded [CURRENT], which it clones. *)
  | WClone (old : option ptr)
  (** Has boxed the new snapshot at [new]. *)
  | WSwap (new : ptr)
  (** [reclaim]: [retain] has kept [kept] and has [todo] left. *)
  | WReclaim (kept todo : list ptr)
  (** [is_hazarded(p)]: about to load chunk [c]; about to load slot [j]'s hazard. *)
  | WChunk (kept : list ptr) (p : ptr) (todo : list ptr) (c : nat)
  | WScan (kept : list ptr) (p : ptr) (todo : list ptr) (j : nat).

Record hstate : Type := HState {
  h_current : option ptr;
  h_heap : gset ptr;
  h_slots : list hslot;
  h_threads : gmap nat rpc;
  h_retired : list ptr;
  h_writer : wpc;
}.

Inductive hstep : hstate -> hstate -> Prop :=
  (** [ensure_slots] publishes a chunk. *)
  | h_grow cur hp sl th rt w :
      (length sl < SLOT_CHUNK * MAX_SLOT_CHUNKS)%nat ->
      hstep (HState cur hp sl th rt w)
            (HState cur hp (sl ++ replicate SLOT_CHUNK hslot_new) th rt w)
  (** A thread enters [claim_slot], or presents a stale cursor to [release_slot]. *)
  | h_enter cur hp sl th rt w t :
      th !! t = None \/ th !! t = Some RDone ->
      hstep (HState cur hp sl th rt w) (HState cur hp sl (<[t := RChunk 0]> th) rt w)
  | h_enter_stale cur hp sl th rt w t i n :
      th !! t = None \/ th !! t = Some RDone ->
      hstep (HState cur hp sl th rt w) (HState cur hp sl (<[t := RStale i n]> th) rt w)
  | h_read cur hp sl th rt w t pc sl' pc' :
      th !! t = Some pc -> rstep cur sl pc sl' pc' ->
      hstep (HState cur hp sl th rt w) (HState cur hp sl' (<[t := pc']> th) rt w)
  (** [with_writer]: lock and load, box the changed clone, swap and retire, reclaim. *)
  | h_lock cur hp sl th rt :
      hstep (HState cur hp sl th rt WIdle) (HState cur hp sl th rt (WClone cur))
  | h_box cur hp sl th rt old new :
      new ∉ hp ->
      hstep (HState cur hp sl th rt (WClone old))
            (HState cur ({[new]} ∪ hp) sl th rt (WSwap new))
  | h_swap cur hp sl th rt new :
      hstep (HState cur hp sl th rt (WSwap new))
            (HState (Some new) hp sl th []
               (WReclaim [] (rt ++ match cur with Some old => [old] | None => [] end)))
  | h_examine cur hp sl th rt kept p todo :
      hstep (HState cur hp sl th rt (WReclaim kept (p :: todo)))
            (HState cur hp sl th rt (WChunk kept p todo 0))
  | h_chunk cur hp sl th rt kept p todo c :
      chunk_published sl c = true ->
      hstep (HState cur hp sl th rt (WChunk kept p todo c))
            (HState cur hp sl th rt (WScan kept p todo (SLOT_CHUNK * c)))
  | h_drop cur hp sl th rt kept p todo c :
      chunk_published sl c = false ->
      hstep (HState cur hp sl th rt (WChunk kept p todo c))
            (HState cur (hp ∖ {[p]}) sl th rt (WReclaim kept todo))
  | h_hazarded cur hp sl th rt kept p todo j s :
      sl !! j = Some s -> h_hazard s = Some p ->
      hstep (HState cur hp sl th rt (WScan kept p todo j))
            (HState cur hp sl th rt (WReclaim (kept ++ [p]) todo))
  | h_not_here cur hp sl th rt kept p todo j s :
      sl !! j = Some s -> h_hazard s <> Some p ->
      hstep (HState cur hp sl th rt (WScan kept p todo j))
            (HState cur hp sl th rt (scan_next (WChunk kept p todo) (WScan kept p todo) j))
  | h_unlock cur hp sl th rt kept :
      hstep (HState cur hp sl th rt (WReclaim kept []))
            (HState cur hp sl th kept WIdle).

Definition hinit : hstate := HState None ∅ [] ∅ [] WIdle.

Definition hreachable : hstate -> Prop := rtc hstep hinit.

(** ** Slot ownership *)

(** The slot a reader owns, from its successful exchange on [in_use] until it
    clears the flag. *)
Definition owns (pc : rpc) : option nat :=
  match pc with
  | RNonce i => Some i
  | RLoad i _ | RStore i _ _ | RStoreNull i _ | RRecheck i _ _ | RHold i _ _
  | RRelease i _ | RClear i _ | RFree i _ => Some i
  | RChunk _ | RTry _ | RStale _ _ | RDone => None
  end.

(** What the owned slot's atomics hold at each place. *)
Definition slot_ok (pc : rpc) (s : hslot) : Prop :=
  h_in_use s = true /\
  match pc with
  | RLoad _ n | RStore _ n _ | RStoreNull _ n | RRelease _ n => h_seq s = n
  | RRecheck _ n p | RHold _ n p => h_seq s = n /\ h_hazard s = Some p
  | _ => True
  end.

Definition pc_ok (sl : list hslot) (pc : rpc) : Prop :=
  match owns pc with
  | Some i => exists s, sl !! i = Some s /\ slot_ok pc s
  | None => True
  end.

Definition own_inv (sl : list hslot) (th : gmap nat rpc) : Prop :=
  (forall t pc, th !! t = Some pc -> pc_ok sl pc) /\
  (forall t1 t2 pc1 pc2 i, th !! t1 = Some pc1 -> th !! t2 = Some pc2 ->
     owns pc1 = Some i -> owns pc2 = Some i -> t1 = t2).

(** A reader's step changes only the slot it owns before or after the step,
    which nobody else owns. *)
Lemma rstep_frame cur sl pc sl' pc' :
  rstep cur sl pc sl' pc' ->
  length sl' = length sl /\
  (forall j, owns pc <> Some j -> owns pc' <> Some j -> sl' !! j = sl !! j) /\
  (forall j, owns pc' = Some j -> owns pc = Some j \/
     exists s, sl !! j = Some s /\ h_in_use s = false).
Proof.
  destruct 1; simpl; rewrite ?length_insert;
    (split; [done|split; [intros j Hj Hj'|intros j Hj]]);
    try done; try (rewrite list_lookup_insert_ne by congruence; done); eauto.
  - unfold scan_next in Hj. by destruct (_ =? _)%nat.
  - simplify_eq. eauto.
Qed.

Lemma rstep_pc_ok cur sl pc sl' pc' :
  rstep cur sl pc sl' pc' -> pc_ok sl pc -> pc_ok sl' pc'.
Proof.
  destruct 1; unfold pc_ok, slot_ok; simpl; try done;
    try (intros (s0 & Hs & Hu & Hrest); simplify_eq/=;
         eexists; split; [first [by apply list_lookup_insert_eq; eapply lookup_lt_Some
                                |eassumption]|by simpl]).
  - unfold scan_next. by destruct (_ =? _)%nat.
  - intros _. eexists. split; [by apply list_lookup_insert_eq; eapply lookup_lt_Some|done].
  - intros (s0 & Hs & Hu & Hseq & Hhz). eauto.
  - intros (s0 & Hs & Hu & Hseq & Hhz). eauto.
  - intros (s0 & Hs & Hu & _). simplify_eq/=. eexists.
    split; [by apply list_lookup_insert_eq; eapply lookup_lt_Some|done].
Qed.

Lemma own_inv_read cur sl th t pc sl' pc' :
  own_inv sl th -> th !! t = Some pc -> rstep cur sl pc sl' pc' ->
  own_inv sl' (<[t := pc']> th).
Proof.
  intros [Hok Huniq] Ht Hstep.
  pose proof (rstep_frame _ _ _ _ _ Hstep) as (Hlen & Hframe & Hnew).
  (* no other thread owns the slot this step may change *)
  assert (forall t2 pc2 j, t2 <> t -> th !! t2 = Some pc2 -> owns pc2 = Some j ->
    owns pc <> Some j /\ owns pc' <> Some j) as Hother.
  { intros t2 pc2 j Hne Ht2 Ho2. split; [intros Ho; by apply Hne; eapply Huniq|].
    intros Ho. destruct (Hnew j Ho) as [Ho'|(s & Hs & Hfree)].
    - apply Hne. by eapply Huniq.
    - specialize (Hok _ _ Ht2). unfold pc_ok in Hok. rewrite Ho2 in Hok.
      destruct Hok as (s' & Hs' & Hu & _). congruence. }
  split.
  - intros t2 pc2. rewrite lookup_insert. case_decide as Hd.
    + intros [= <-]. eapply rstep_pc_ok; [done|]. by eapply Hok.
    + intros Ht2. specialize (Hok _ _ Ht2). unfold pc_ok in *.
      destruct (owns pc2) as [j|] eqn:Ho; [|done].
      destruct (Hother t2 pc2 j) as [? ?]; [congruence|done|done|].
      by rewrite Hframe.
  - intros t1 t2 pc1 pc2 j. rewrite !lookup_insert.
    repeat case_decide; intros; simplify_eq; try done; try by eapply Huniq.
    + exfalso. eapply (Hother t2 pc2 j); eauto.
    + exfalso. eapply (Hother t1 pc1 j); eauto.
Qed.

Lemma own_inv_enter sl th t pc :
  own_inv sl th -> owns pc = None -> (th !! t = None \/ th !! t = Some RDone) ->
  own_inv sl (<[t := pc]> th).
Proof.
  intros [Hok Huniq] Hpc Ht. split.
  - intros t2 pc2. rewrite lookup_insert. case_decide; [|by eauto].
    intros [= <-]. unfold pc_ok. by rewrite Hpc.
  - intros t1 t2 pc1 pc2 i. rewrite !lookup_insert.
    repeat case_decide; intros; simplify_eq; try congruence; eauto.
Qed.

Lemma own_inv_grow sl th extra : own_inv sl th -> own_inv (sl ++ extra) th.
Proof.
  intros [Hok Huniq]. split; [|done]. intros t pc Ht. specialize (Hok t pc Ht).
  unfold pc_ok in *. destruct (owns pc) as [i|]; [|done].
  destruct Hok as (s & Hs & Hrest). exists s. split; [|done]. by apply lookup_app_l_Some.
Qed.

(** ** Snapshots: what is allocated, and what a reader may use *)

(** The retired snapshots, also while [reclaim] goes through them. *)
Definition retired_all (s : hstate) : list ptr :=
  match h_writer s with
  | WReclaim kept todo => kept ++ todo
  | WChunk kept p todo _ => kept ++ p :: todo
  | WScan kept p todo _ => kept ++ p :: todo
  | _ => h_retired s
  end.

Definition boxed (w : wpc) : list ptr :=
  match w with WSwap new => [new] | _ => [] end.

Definition published (cur : option ptr) : list ptr :=
  match cur with Some p => [p] | None => [] end.

Definition live_list (s : hstate) : list ptr :=
  published (h_current s) ++ retired_all s ++ boxed (h_writer s).

(** Every allocated snapshot is in exactly one place: published, retired, or just
    boxed; nothing else is allocated. *)
Definition heap_inv (s : hstate) : Prop :=
  NoDup (live_list s) /\ (forall p, p ∈ h_heap s <-> p ∈ live_list s) /\
  (forall old, h_writer s = WClone old -> old = h_current s).

Definition pool_inv (sl : list hslot) : Prop :=
  (length sl mod SLOT_CHUNK = 0)%nat /\ (length sl <= SLOT_CHUNK * MAX_SLOT_CHUNKS)%nat.

(** The scan has not passed slot [i] if it is examining [p]. *)
Definition scan_before (w : wpc) (p : ptr) (i : nat) : Prop :=
  match w with
  | WChunk _ q _ c => q = p -> (SLOT_CHUNK * c <= i)%nat
  | WScan _ q _ j => q = p -> (j <= i)%nat
  | _ => True
  end.

Definition hold_inv (s : hstate) : Prop :=
  forall t i n p, h_threads s !! t = Some (RHold i n p) ->
    (h_current s = Some p \/ p ∈ retired_all s) /\ scan_before (h_writer s) p i.

Record hinv (s : hstate) : Prop := {
  hinv_own : own_inv (h_slots s) (h_threads s);
  hinv_heap : heap_inv s;
  hinv_pool : pool_inv (h_slots s);
  hinv_hold : hold_inv s;
}.

Lemma hinv_init : hinv hinit.
Proof.
  split.
  - split; set_solver.
  - split_and!; [constructor|intros p; simpl; set_solver|done].
  - split; unfold SLOT_CHUNK, MAX_SLOT_CHUNKS; simpl; lia.
  - intros t i n p. simpl. set_solver.
Qed.

(** A holder's slot is in the pool and its hazard is published. *)
Lemma holder_slot s t i n p :
  own_inv (h_slots s) (h_threads s) -> h_threads s !! t = Some (RHold i n p) ->
  exists hs, h_slots s !! i = Some hs /\ h_hazard hs = Some p.
Proof.
  intros [Hok _] Ht. specialize (Hok _ _ Ht). destruct Hok as (hs & Hs & _ & _ & Hhz). eauto.
Qed.

Lemma scan_next_before (kept todo : list ptr) p j i :
  (j <= i)%nat -> j <> i ->
  scan_before (scan_next (WChunk kept p todo) (WScan kept p todo) j) p i.
Proof.
  intros Hj Hne. unfold scan_next. destruct (S j mod SLOT_CHUNK =? 0)%nat eqn:E; cbn [scan_before].
  - apply Nat.eqb_eq in E. intros _. pose proof (Nat.div_mod_eq (S j) SLOT_CHUNK). lia.
  - lia.
Qed.

(** No reader holds a snapshot whose scan has reached the end of the pool. *)
Lemma scanned_not_held s kept p todo c t i n :
  hinv s -> h_writer s = WChunk kept p todo c -> chunk_published (h_slots s) c = false ->
  h_threads s !! t <> Some (RHold i n p).
Proof.
  intros [Hown _ [Hm Hmax] Hhold] Hw Hc Ht.
  destruct (Hhold t i n p Ht) as [_ Hb]. rewrite Hw in Hb. specialize (Hb eq_refl).
  destruct (holder_slot s t i n p Hown Ht) as (hs & Hs & _). apply lookup_lt_Some in Hs.
  unfold chunk_published in Hc. apply andb_false_iff in Hc as [Hc|Hc]; bool_to_prop;
    unfold SLOT_CHUNK, MAX_SLOT_CHUNKS in *; lia.
Qed.

(** ** Preservation *)

Lemma hinv_grow cur hp sl th rt w :
  hinv (HState cur hp sl th rt w) -> (length sl < SLOT_CHUNK * MAX_SLOT_CHUNKS)%nat ->
  hinv (HState cur hp (sl ++ replicate SLOT_CHUNK hslot_new) th rt w).
Proof.
  intros [Hown Hheap [Hm Hmax] Hhold] Hlt. split; cbn [h_slots h_threads] in *; [by apply own_inv_grow|done| |done].
  unfold pool_inv. rewrite length_app, length_replicate.
  unfold SLOT_CHUNK, MAX_SLOT_CHUNKS in *.
  pose proof (Nat.div_mod_eq (length sl) 16). split; [|lia].
  replace (length sl + 16)%nat with (length sl + 1 * 16)%nat by lia.
  by rewrite Nat.Div0.mod_add.
Qed.

Lemma hinv_enter cur hp sl th rt w t pc :
  hinv (HState cur hp sl th rt w) -> owns pc = None ->
  (th !! t = None \/ th !! t = Some RDone) ->
  hinv (HState cur hp sl (<[t := pc]> th) rt w).
Proof.
  intros [Hown Hheap Hpool Hhold] Hpc Ht. split; [by apply own_inv_enter|done|done|].
  intros t' i n p. simpl. rewrite lookup_insert. case_decide; [|by apply (Hhold t')].
  intros [= ->]. done.
Qed.

Lemma hinv_read cur hp sl th rt w t pc sl' pc' :
  hinv (HState cur hp sl th rt w) -> th !! t = Some pc -> rstep cur sl pc sl' pc' ->
  hinv (HState cur hp sl' (<[t := pc']> th) rt w).
Proof.
  intros [Hown Hheap Hpool Hhold] Ht Hstep. split; simpl in *.
  - by eapply own_inv_read.
  - done.
  - apply rstep_frame in Hstep as (Hlen & _). unfold pool_inv. by rewrite Hlen.
  - intros t' i n p. simpl. rewrite lookup_insert. case_decide; [|by apply (Hhold t')].
    intros [= ->]. inversion Hstep; subst.
    + unfold scan_next in *. by destruct (_ =? _)%nat.
    + split; [by left|]. simpl.
      (* the current snapshot is not retired, so it is not being examined *)
      destruct Hheap as (Hnd & _ & _). unfold live_list in Hnd. simpl in Hnd.
      apply NoDup_cons in Hnd as [Hnd _].
      destruct w as [| | | |kept q todo c|kept q todo j]; simpl; try done;
        intros ->; exfalso; apply Hnd; unfold retired_all; simpl; set_solver.
Qed.

Lemma live_swap (cur : option ptr) rt new :
  published (Some new) ++ (rt ++ published cur) ≡ₚ published cur ++ rt ++ [new].
Proof. simpl. rewrite <- Permutation_cons_append. solve_Permutation. Qed.

(** Preservation of the heap accounting by a writer step that only reorders the
    places of the snapshots. *)
Lemma heap_inv_perm s s' :
  heap_inv s -> live_list s' ≡ₚ live_list s -> h_heap s' = h_heap s ->
  (forall old, h_writer s' = WClone old -> old = h_current s') -> heap_inv s'.
Proof.
  intros (Hnd & Hin & _) Hp Hh Hc. split_and!; [by rewrite Hp| |done].
  intros p. by rewrite Hh, Hp.
Qed.

(** ... and of what holders rely on, when [CURRENT] and the slots stay. *)
Lemma hold_inv_writer s s' :
  hold_inv s -> h_threads s' = h_threads s ->
  (forall p, h_current s = Some p \/ p ∈ retired_all s ->
     h_current s' = Some p \/ p ∈ retired_all s') ->
  (forall t i n p, h_threads s !! t = Some (RHold i n p) -> scan_before (h_writer s) p i ->
     scan_before (h_writer s') p i) ->
  hold_inv s'.
Proof.
  intros Hhold Hth Hlive Hscan t i n p. rewrite Hth. intros Ht.
  destruct (Hhold t i n p Ht) as [Hl Hb]. split; [by apply Hlive|by eapply Hscan].
Qed.

(** [with_writer] boxes a snapshot: a fresh address joins. *)
Lemma hinv_box cur hp sl th rt old new :
  hinv (HState cur hp sl th rt (WClone old)) -> new ∉ hp -> hinv (HState cur ({[new]} ∪ hp) sl th rt (WSwap new)).
Proof.
  intros [Hown Hheap Hpool Hhold] Hnew.
  split; [done| |done|eapply hold_inv_writer; [done|done|naive_solver|done]].
  destruct Hheap as (Hnd & Hin & _). unfold heap_inv, live_list in *. simpl in *.
  rewrite app_nil_r in *. rewrite (app_assoc _ rt), <- Permutation_cons_append.
  split_and!; [|intros q; rewrite elem_of_union, Hin; set_solver|done].
  apply NoDup_cons. split; [by rewrite <- Hin|done].
Qed.

(** The swap: the old snapshot moves to the retired list. *)
Lemma hinv_swap cur hp sl th rt new :
  hinv (HState cur hp sl th rt (WSwap new)) ->
  hinv (HState (Some new) hp sl th [] (WReclaim [] (rt ++ match cur with Some old => [old] | None => [] end))).
Proof.
  intros [Hown Hheap Hpool Hhold]. split; [done| |done|].
  - eapply heap_inv_perm; [done| |done|done]. unfold live_list. simpl.
    rewrite !app_nil_r. apply (live_swap cur).
  - eapply hold_inv_writer; [done|done| |done]. simpl.
    intros q [->|Hq]; right; set_solver.
Qed.

(** [reclaim] drops a snapshot: nobody holds it. *)
Lemma hinv_drop cur hp sl th rt kept p todo c :
  hinv (HState cur hp sl th rt (WChunk kept p todo c)) -> chunk_published sl c = false ->
  hinv (HState cur (hp ∖ {[p]}) sl th rt (WReclaim kept todo)).
Proof.
  intros Hinv Hc. pose proof Hinv as [Hown Hheap Hpool Hhold].
  pose proof (fun t i n => scanned_not_held _ kept p todo c t i n Hinv eq_refl Hc) as Hnot.
  destruct Hheap as (Hnd & Hin & _). unfold heap_inv, live_list in *. simpl in *.
  rewrite app_nil_r in *.
  assert (published cur ++ kept ++ p :: todo ≡ₚ p :: (published cur ++ kept ++ todo)) as Hperm
    by solve_Permutation.
  rewrite Hperm in Hnd. apply NoDup_cons in Hnd as [Hpn Hnd].
  split; [done| |done|].
  - unfold heap_inv, live_list, retired_all. simpl. rewrite app_nil_r.
    split_and!; [done| |done]. intros q.
    rewrite elem_of_difference, Hin, Hperm, elem_of_cons, elem_of_singleton.
    split; [naive_solver|]. intros Hq. split; [by right|]. by intros ->.
  - intros t i n q Ht. destruct (Hhold t i n q Ht) as [Hl _]. split; [|done]. simpl in *.
    destruct Hl as [->|Hq]; [by left|]. right.
    assert (q <> p) as Hne by (intros ->; by eapply Hnot). set_solver.
Qed.

(** The scan goes past a slot whose hazard cell holds another snapshot. *)
Lemma hinv_not_here cur hp sl th rt kept p todo j hs :
  hinv (HState cur hp sl th rt (WScan kept p todo j)) -> sl !! j = Some hs -> h_hazard hs <> Some p ->
  hinv (HState cur hp sl th rt (scan_next (WChunk kept p todo) (WScan kept p todo) j)).
Proof.
  intros [Hown Hheap Hpool Hhold] Hj Hp.
  assert (retired_all (HState cur hp sl th rt
    (scan_next (WChunk kept p todo) (WScan kept p todo) j)) = kept ++ p :: todo) as Hret.
  { unfold retired_all, scan_next. simpl. by destruct (_ =? _)%nat. }
  assert (boxed (scan_next (WChunk kept p todo) (WScan kept p todo) j) = []) as Hbox.
  { unfold scan_next. by destruct (_ =? _)%nat. }
  split; [done| |done|].
  - eapply heap_inv_perm; [done| |done|].
    + unfold live_list. rewrite Hret. simpl. by rewrite Hbox.
    + simpl. unfold scan_next. by destruct (_ =? _)%nat.
  - eapply hold_inv_writer; [done|done| |].
    + rewrite Hret. done.
    + simpl. intros t i n q Ht Hb. destruct (decide (q = p)) as [->|Hne].
      * apply scan_next_before; [by apply Hb|]. intros ->.
        destruct (holder_slot _ t i n p Hown Ht) as (hs' & Hs' & Hhz). simpl in Hs'. congruence.
      * unfold scan_next. destruct (_ =? _)%nat; simpl; congruence.
Qed.

Lemma hinv_step s s' : hinv s -> hstep s s' -> hinv s'.
Proof.
  intros Hinv Hstep. pose proof Hinv as [Hown Hheap Hpool Hhold].
  destruct Hstep as [cur hp sl th rt w Hlt|cur hp sl th rt w t Ht|cur hp sl th rt w t i n Ht
    |cur hp sl th rt w t pc sl' pc' Ht Hr|cur hp sl th rt|cur hp sl th rt old new Hnew
    |cur hp sl th rt new|cur hp sl th rt kept p todo|cur hp sl th rt kept p todo c Hc
    |cur hp sl th rt kept p todo c Hc|cur hp sl th rt kept p todo j hs Hj Hp
    |cur hp sl th rt kept p todo j hs Hj Hp|cur hp sl th rt kept].
  - by apply hinv_grow.
  - by apply hinv_enter.
  - by apply hinv_enter.
  - by eapply hinv_read.
  - split; [done| |done|]; [eapply heap_inv_perm; [done|done|done|simpl; congruence]
      |eapply hold_inv_writer; [done|done|naive_solver|done]].
  - by eapply hinv_box.
  - by eapply hinv_swap.
  - split; [done| |done|]; [eapply heap_inv_perm; [done|done|done|done]|].
    eapply hold_inv_writer; [done|done|done|]. simpl. intros; lia.
  - split; [done| |done|]; [eapply heap_inv_perm; [done|done|done|done]|].
    eapply hold_inv_writer; [done|done|done|]. done.
  - by eapply hinv_drop.
  - split; [done| |done|].
    + eapply heap_inv_perm; [done| |done|done]. unfold live_list, retired_all. simpl.
      by rewrite !app_nil_r, <- app_assoc.
    + eapply hold_inv_writer; [done|done| |done]. unfold retired_all. simpl.
      by rewrite <- app_assoc.
  - by eapply hinv_not_here.
  - split; [done| |done|]; [eapply heap_inv_perm; [done| |done|done]
      |eapply hold_inv_writer; [done|done| |done]]; unfold live_list, retired_all; simpl;
      by rewrite ?app_nil_r.
Qed.

Lemma hreachable_inv s : hreachable s -> hinv s.
Proof.
  unfold hreachable. generalize hinv_init. generalize hinit. intros s0 H0 Hs.
  induction Hs as [|s0 s1 s2 Hstep _ IH]; [done|]. eauto using hinv_step.
Qed.

(** ** What the protocol guarantees *)

(** C2: No use after free. Under every interleaving of readers, writers and pool
    growth, with freed addresses reused by the allocator and an arbitrarily stale
    first load, a snapshot that a cursor holds is allocated, and so is the
    snapshot the writer clones. *)
Theorem no_use_after_free (s : hstate) :
  hreachable s ->
  (forall t i n p, h_threads s !! t = Some (RHold i n p) -> p ∈ h_heap s) /\
  (forall p, h_writer s = WClone (Some p) -> p ∈ h_heap s).
Proof.
  intros [Hown (Hnd & Hin & Hclone) Hpool Hhold]%hreachable_inv. split.
  - intros t i n p Ht. destruct (Hhold t i n p Ht) as [Hl _]. rewrite Hin. unfold live_list.
    rewrite !elem_of_app. destruct Hl as [->|Hl]; [left; simpl; set_solver|auto].
  - intros p Hw. specialize (Hclone _ Hw). rewrite Hin. unfold live_list.
    rewrite <- Hclone. set_solver.
Qed.

(** No double free and no leak. The allocated snapshots are exactly the
    published one, the retired ones and the one just boxed, all distinct; so what
    [reclaim] drops is allocated, is not the published snapshot, and is in no
    reader's hands. *)
Theorem snapshot_accounting (s : hstate) :
  hreachable s ->
  NoDup (published (h_current s) ++ retired_all s ++ boxed (h_writer s)) /\
  (forall p, p ∈ h_heap s <->
     h_current s = Some p \/ p ∈ retired_all s \/ h_writer s = WSwap p) /\
  (forall kept p todo c, h_writer s = WChunk kept p todo c ->
     chunk_published (h_slots s) c = false ->
     p ∈ h_heap s /\ h_current s <> Some p /\
     forall t i n, h_threads s !! t <> Some (RHold i n p)).
Proof.
  intros Hinv%hreachable_inv. pose proof Hinv as [Hown (Hnd & Hin & _) _ _].
  split_and!; [done| |].
  - intros p. rewrite Hin. unfold live_list. rewrite !elem_of_app.
    destruct (h_current s), (h_writer s); simpl;
      rewrite ?elem_of_cons, ?elem_of_nil; naive_solver.
  - intros kept p todo c Hw Hc.
    assert (p ∈ retired_all s) as Hret by (unfold retired_all; rewrite Hw; set_solver).
    split_and!.
    + apply Hin. unfold live_list. set_solver.
    + intros Hcur. unfold live_list in Hnd. rewrite Hcur in Hnd. simpl in Hnd.
      apply NoDup_cons in Hnd as [Hnd _]. set_solver.
    + intros t i n. by eapply scanned_not_held.
Qed.

(** C27: A slot has one owner. Two threads never own the same slot, an owned slot is
    marked in use, and while a walk is going on the slot's [seq] is the nonce of
    its claim, so the exchange in [release_slot] fails for every other nonce. *)
Theorem slot_exclusive (s : hstate) :
  hreachable s ->
  (forall t1 t2 pc1 pc2 i, h_threads s !! t1 = Some pc1 -> h_threads s !! t2 = Some pc2 ->
     owns pc1 = Some i -> owns pc2 = Some i -> t1 = t2) /\
  (forall t pc i, h_threads s !! t = Some pc -> owns pc = Some i ->
     exists hs, h_slots s !! i = Some hs /\ h_in_use hs = true) /\
  (forall t i n p, h_threads s !! t = Some (RHold i n p) ->
     exists hs, h_slots s !! i = Some hs /\ h_seq hs = n /\ h_hazard hs = Some p).
Proof.
  intros [[Hok Huniq] _ _ _]%hreachable_inv. split_and!; [done| |].
  - intros t pc i Ht Ho. specialize (Hok _ _ Ht). unfold pc_ok in Hok. rewrite Ho in Hok.
    destruct Hok as (hs & Hs & Hu & _). eauto.
  - intros t i n p Ht. specialize (Hok _ _ Ht). destruct Hok as (hs & Hs & _ & Hn & Hp). eauto.
Qed.

(** ** A run in which a held snapshot outlives its replacement

    Snapshot 1 is published, a reader acquires it, snapshot 2 replaces it, and
    [reclaim] keeps 1 because of the reader's hazard. *)
Definition held_slots : list hslot := HSlot true 1 (Some 1%nat) :: replicate 15 hslot_new.

Definition held_state : hstate :=
  HState (Some 2%nat) {[ 2%nat; 1%nat ]} held_slots {[ 0%nat := RHold 0 1 1%nat ]} [1%nat] WIdle.

Ltac hrun_step tac := eapply rtc_l; [tac|].

Lemma held_state_reachable : hreachable held_state.
Proof.
  unfold hreachable, hinit.
  hrun_step ltac:(eapply h_grow; unfold SLOT_CHUNK, MAX_SLOT_CHUNKS; simpl; lia).
  hrun_step ltac:(eapply h_lock).
  hrun_step ltac:(eapply (h_box _ _ _ _ _ _ 1%nat); set_solver).
  hrun_step ltac:(eapply h_swap).
  hrun_step ltac:(eapply h_unlock).
  hrun_step ltac:(eapply (h_enter _ _ _ _ _ _ 0%nat); left; reflexivity).
  hrun_step ltac:(eapply (h_read _ _ _ _ _ _ 0%nat); [reflexivity|eapply r_chunk; reflexivity]).
  hrun_step ltac:(eapply (h_read _ _ _ _ _ _ 0%nat); [reflexivity|eapply r_try_claim; reflexivity]).
  hrun_step ltac:(eapply (h_read _ _ _ _ _ _ 0%nat); [reflexivity|eapply r_nonce; reflexivity]).
  hrun_step ltac:(eapply (h_read _ _ _ _ _ _ 0%nat); [reflexivity|eapply (r_load _ _ _ _ 1%nat)]).
  hrun_step ltac:(eapply (h_read _ _ _ _ _ _ 0%nat); [reflexivity|eapply r_store; reflexivity]).
  hrun_step ltac:(eapply h_lock).
  hrun_step ltac:(eapply (h_box _ _ _ _ _ _ 2%nat); set_solver).
  hrun_step ltac:(eapply (h_read _ _ _ _ _ _ 0%nat); [reflexivity|eapply r_recheck_ok; reflexivity]).
  hrun_step ltac:(eapply h_swap).
  hrun_step ltac:(eapply h_examine).
  hrun_step ltac:(eapply h_chunk; reflexivity).
  hrun_step ltac:(eapply h_hazarded; reflexivity).
  hrun_step ltac:(eapply h_unlock).
  match goal with |- rtc _ ?a ?b => replace a with b; [apply rtc_refl|] end.
  vm_compute. reflexivity.
Qed.

Lemma no_use_after_free_witness :
  h_threads held_state !! 0%nat = Some (RHold 0 1 1%nat) /\ h_current held_state = Some 2%nat /\
  1%nat ∈ h_heap held_state.
Proof.
  split; [reflexivity|]. split; [reflexivity|].
  destruct (no_use_after_free held_state held_state_reachable) as [Hhold _].
  apply (Hhold 0%nat 0%nat 1). reflexivity.
Defined.

Lemma snapshot_accounting_witness :
  retired_all held_state = [1%nat] /\ NoDup ([2%nat] ++ [1%nat] ++ []).
Proof.
  split; [reflexivity|].
  destruct (snapshot_accounting held_state held_state_reachable) as [Hnd _]. exact Hnd.
Defined.

Lemma slot_exclusive_witness :
  exists hs, h_slots held_state !! 0%nat = Some hs /\ h_seq hs = 1 /\ h_hazard hs = Some 1%nat.
Proof.
  destruct (slot_exclusive held_state held_state_reachable) as (_ & _ & Hn).
  apply (Hn 0%nat 0%nat 1 1%nat). reflexivity.
Defined.
