(* ===== verification/UnwindRule.v ===== *)
(** * Unwind rules, their errors and results

    Models [vendor/framehop/src/error.rs] ([Error]), [unwind_rule.rs] (the trait
    [UnwindRule]) and [unwind_result.rs]. *)
From S2P Require Import Prelude.

Inductive Error : Type :=
  | CouldNotReadStack (addr : Z)
  | FramepointerUnwindingMovedBackwards
  | DidNotAdvance
  | IntegerOverflow
  | ReturnAddressIsNull.

#[export] Instance Error_eq_dec : EqDecision Error.
Proof. solve_decision. Defined.

Inductive UnwindResult (R : Type) : Type :=
  | ExecRule (rule : R)
  | Uncacheable (return_address : Z)
  (** The frame was a signal trampoline; the address is where its caller was
      interrupted. *)
  | Interrupted (address : Z).
Arguments ExecRule {R} rule.
Arguments Uncacheable {R} return_address.
Arguments Interrupted {R} address.

(** How an operation stops early: with an error of the source, or with a panic. *)
Inductive fault (E : Type) : Type :=
  | Fail (e : E)
  | Panic.
Arguments Fail {E} e.
Arguments Panic {E}.

#[export] Instance fault_eq_dec (E : Type) `{EqDecision E} : EqDecision (fault E).
Proof. solve_decision. Defined.

(** A computation that changes the registers [S]. *)
Abbreviation exec_m S := (ST S (fault Error)).

(** [return Err(e)] *)
Definition fail {S A} (e : Error) : exec_m S A := st_throw (Fail e).

(** The [read_stack] callback: the word at an address, or a refusal. The memory
    it reads does not change while a frame is unwound. *)
Definition stack_reader : Type := Z -> option Z.

(** [read_stack(addr).map_err(|_| Error::CouldNotReadStack(addr))?] *)
Definition read_word {S} (read_stack : stack_reader) (addr : Z) : exec_m S Z :=
  st_lift (ok_or (Fail (CouldNotReadStack addr)) (read_stack addr)).

(** [x.ok_or(Error::IntegerOverflow)?] *)
Definition no_overflow {S A} (x : option A) : exec_m S A :=
  st_lift (ok_or (Fail IntegerOverflow) x).

(** A panic when there is no value. *)
Definition or_panic {S A} (x : option A) : exec_m S A := st_lift (ok_or Panic x).

(** The trait [UnwindRule]: [exec] changes the registers and returns the return
    address, or [None] at the end of the stack. *)
Class UnwindRule (R Regs : Type) : Type := {
  exec : R -> bool -> stack_reader -> exec_m Regs (option Z);
  rule_for_stub_functions : R;
  rule_for_function_start : R;
  fallback_rule : R;
  regs_ip_sp : Regs -> option Z * Z;
}.

(** What clients rely on: an unwound frame has a nonnull return address, and the
    position is unchanged unless a frame was unwound. The position is the stack
    pointer and, where the registers have one, the instruction pointer. *)
Class UnwindRuleLaws (R Regs : Type) `{UnwindRule R Regs} : Prop := {
  exec_nonnull : forall r first rs regs ra regs',
    exec r first rs regs = (Ok (Some ra), regs') -> ra <> 0;
  exec_unmoved : forall r first rs regs res regs',
    exec r first rs regs = (res, regs') -> (forall ra, res <> Ok (Some ra)) ->
    regs_ip_sp regs' = regs_ip_sp regs;
}.

(** ** The monad, one operation at a time *)

Lemma st_bind_spec {S E A B} (m : ST S E A) (f : A -> ST S E B) s :
  (m ≫= f) s = match m s with (Ok a, s') => f a s' | (Err e, s') => (Err e, s') end.
Proof. done. Qed.

(** A sequence that succeeds succeeds step by step. *)
Lemma st_bind_Ok {S E A B} (m : ST S E A) (f : A -> ST S E B) s b s' :
  (m ≫= f) s = (Ok b, s') -> exists a s1, m s = (Ok a, s1) /\ f a s1 = (Ok b, s').
Proof. rewrite st_bind_spec. destruct (m s) as [[a|e] s1]; [by eauto|done]. Qed.

Lemma read_word_spec {S} rs addr (s : S) :
  read_word rs addr s =
    match rs addr with Some v => (Ok v, s) | None => (Err (Fail (CouldNotReadStack addr)), s) end.
Proof. unfold read_word, st_lift. by destruct (rs addr). Qed.

Lemma no_overflow_spec {S A} (x : option A) (s : S) :
  no_overflow x s = match x with Some a => (Ok a, s) | None => (Err (Fail IntegerOverflow), s) end.
Proof. unfold no_overflow, st_lift. by destruct x. Qed.

Lemma or_panic_spec {S A} (x : option A) (s : S) :
  or_panic x s = match x with Some a => (Ok a, s) | None => (Err Panic, s) end.
Proof. unfold or_panic, st_lift. by destruct x. Qed.

Lemma st_ret_spec {S E A} (a : A) (s : S) : (mret a : ST S E A) s = (Ok a, s).
Proof. done. Qed.

Lemma st_get_spec {S E} (s : S) : (st_get : ST S E S) s = (Ok s, s).
Proof. done. Qed.

Lemma st_modify_spec {S E} (f : S -> S) (s : S) : (st_modify f : ST S E unit) s = (Ok tt, f s).
Proof. done. Qed.

#[export] Hint Rewrite @st_get_spec @st_bind_spec @read_word_spec @no_overflow_spec @or_panic_spec @st_ret_spec : framehop.

(** Runs a computation in the monad: unfolds binds and splits on each access. *)
Ltac st_simpl :=
  autorewrite with framehop in *; unfold fail, st_get, st_modify, st_throw, st_lift in *;
  simpl in *; autorewrite with framehop in *; simplify_eq/=.

Ltac st_run :=
  st_simpl;
  repeat (destruct_match_once; st_simpl).

(** Runs the binds at the head of a computation on a concrete state, without
    looking under the binders of what is still to run. *)
Ltac st_bind := repeat (rewrite ?st_bind_spec, ?st_get_spec, ?st_modify_spec, ?st_ret_spec; cbv beta iota zeta).

(** ** A walk: one rule per frame, until the stack ends or a rule fails *)

Inductive walk_end : Type :=
  | StackEnded
  | Stopped (f : fault Error)
  | OutOfFuel.

#[export] Instance walk_end_eq_dec : EqDecision walk_end.
Proof. solve_decision. Defined.

Section walk.
Context {R Regs : Type} `{UnwindRule R Regs}.
(** The rule a frame is unwound with. *)
Context (choose : bool -> Regs -> R) (read_stack : stack_reader).

Fixpoint walk (fuel : nat) (first : bool) (regs : Regs) : list Z * walk_end :=
  match fuel with
  | O => ([], OutOfFuel)
  | S fuel' =>
      match exec (choose first regs) first read_stack regs with
      | (Ok (Some ra), regs') =>
          let '(ras, e) := walk fuel' false regs' in (ra :: ras, e)
      | (Ok None, _) => ([], StackEnded)
      | (Err f, _) => ([], Stopped f)
      end
  end.
End walk.
