(* ===== verification/X86Regs.v ===== *)
(** * x86-64 registers and register orderings

    Models [vendor/framehop/src/x86_64/unwindregs.rs] and
    [x86_64/register_ordering.rs]. *)
From S2P Require Import Prelude.
From Stdlib Require Import Factorial.

Inductive Reg : Type :=
  | RAX | RDX | RCX | RBX | RSI | RDI | RBP | RSP
  | R8 | R9 | R10 | R11 | R12 | R13 | R14 | R15.

#[export] Instance Reg_eq_dec : EqDecision Reg.
Proof. solve_decision. Defined.

(** [reg as usize]. *)
Definition reg_index (r : Reg) : nat :=
  match r with
  | RAX => 0 | RDX => 1 | RCX => 2 | RBX => 3 | RSI => 4 | RDI => 5 | RBP => 6 | RSP => 7
  | R8 => 8 | R9 => 9 | R10 => 10 | R11 => 11 | R12 => 12 | R13 => 13 | R14 => 14 | R15 => 15
  end%nat.

(** [regs] is the array [[u64; 16]]. *)
Record UnwindRegsX86_64 : Type := MkRegsX86 {
  ip : Z;
  regs : list Z;
}.

Definition reg_get (r : UnwindRegsX86_64) (reg : Reg) : Z := default 0 (regs r !! reg_index reg).
Definition reg_set (reg : Reg) (value : Z) (r : UnwindRegsX86_64) : UnwindRegsX86_64 :=
  MkRegsX86 (ip r) (<[reg_index reg := value]> (regs r)).
Definition set_ip (v : Z) (r : UnwindRegsX86_64) : UnwindRegsX86_64 := MkRegsX86 v (regs r).

Definition sp (r : UnwindRegsX86_64) : Z := reg_get r RSP.
Definition set_sp : Z -> UnwindRegsX86_64 -> UnwindRegsX86_64 := reg_set RSP.
Definition bp (r : UnwindRegsX86_64) : Z := reg_get r RBP.
Definition set_bp : Z -> UnwindRegsX86_64 -> UnwindRegsX86_64 := reg_set RBP.

Definition regs_new (ip sp bp : Z) : UnwindRegsX86_64 :=
  set_bp bp (set_sp sp (MkRegsX86 ip (replicate 16 0))).

(** The array has 16 words. *)
Definition regs_wf (r : UnwindRegsX86_64) : Prop :=
  length (regs r) = 16%nat /\ Forall u64 (regs r) /\ u64 (ip r).

Lemma reg_index_lt r : (reg_index r < 16)%nat.
Proof. destruct r; simpl; lia. Qed.

Lemma reg_index_inj r1 r2 : reg_index r1 = reg_index r2 -> r1 = r2.
Proof. destruct r1, r2; done. Qed.

Lemma reg_get_set_eq r reg v : length (regs r) = 16%nat -> reg_get (reg_set reg v r) reg = v.
Proof.
  intros Hl. unfold reg_get, reg_set. simpl.
  rewrite list_lookup_insert_eq by (rewrite Hl; apply reg_index_lt). done.
Qed.

Lemma reg_get_set_ne r reg reg' v : reg <> reg' -> reg_get (reg_set reg v r) reg' = reg_get r reg'.
Proof.
  intros Hne. unfold reg_get, reg_set. simpl.
  rewrite list_lookup_insert_ne; [done|]. by intros ?%reg_index_inj.
Qed.

Lemma reg_set_length r reg v : length (regs (reg_set reg v r)) = length (regs r).
Proof. apply length_insert. Qed.

Lemma reg_set_wf r reg v : regs_wf r -> u64 v -> regs_wf (reg_set reg v r).
Proof.
  intros (Hl & Hf & Hi) Hv. split_and!; [by rewrite reg_set_length| |done].
  by apply Forall_insert.
Qed.

Lemma reg_get_u64 r reg : regs_wf r -> u64 (reg_get r reg).
Proof.
  intros (Hl & Hf & _). unfold reg_get. destruct (regs r !! reg_index reg) eqn:E; simpl.
  - by eapply Forall_lookup_1.
  - unfold in_u. lia.
Qed.

(** ** Orderings of the callee-saved registers, as a 16-bit number *)

Definition ENCODE_REGISTERS : list Reg := [RBX; RBP; RDI; RSI; R12; R13; R14; R15].

(** [l[k..].swap(index, 0)]. *)
Definition swap_at {A} (k index : nat) (l : list A) : list A :=
  match l !! (k + index)%nat, l !! k with
  | Some a, Some b => <[(k + index)%nat := b]> (<[k := a]> l)
  | _, _ => l
  end.

(** The loop of [decode] with [n] counting down from 8; [None] is the panic of a
    division by zero, when the number is not below 8!. *)
Fixpoint decode_loop (n : nat) (r : Z) (regs : list Reg) : option (list Reg) :=
  if r =? 0 then Some regs
  else match n with
       | O => None
       | S n' =>
           let index := r mod Z.of_nat n in
           let regs := if index =? 0 then regs
                       else swap_at (8 - n) (Z.to_nat index) regs in
           decode_loop n' (r / Z.of_nat n) regs
       end.

Definition decode (count encoded_ordering : Z) : option (list Reg) :=
  take (Z.to_nat count) <$> decode_loop 8 encoded_ordering ENCODE_REGISTERS.

(** [position(|r| r == reg)]. *)
Fixpoint position {A} `{EqDecision A} (x : A) (l : list A) : option nat :=
  match l with
  | [] => None
  | y :: l' => if decide (y = x) then Some 0%nat else S <$> position x l'
  end.

(** The loop of [encode] from index [i], with [r] and [scale] as [u16]s. *)
Fixpoint encode_loop (i : nat) (registers : list Reg) (reg_order : list Reg) (r scale : Z) :
    option Z :=
  match registers with
  | [] => Some r
  | reg :: registers' =>
      index ← position reg (drop i reg_order);
      let reg_order := if (index =? 0)%nat then reg_order else swap_at i index reg_order in
      encode_loop (S i) registers' reg_order
        (wrapping_add 16 r (as_u 16 (Z.of_nat index * scale)))
        (as_u 16 (scale * as_u 16 (8 - Z.of_nat i)))
  end.

Definition encode (registers : list Reg) : option (Z * Z) :=
  if (length ENCODE_REGISTERS <? length registers)%nat then None
  else
    r ← encode_loop 0 registers ENCODE_REGISTERS 0 1;
    Some (as_u 8 (Z.of_nat (length registers)), r).

(** *** The mixed-radix number behind the two loops

    [encode_order] and [decode_order] read the ordering by structural recursion,
    on the part of the array that is not fixed yet. *)

Fixpoint encode_order (registers order : list Reg) : option Z :=
  match registers with
  | [] => Some 0
  | reg :: registers' =>
      index ← position reg order;
      v ← encode_order registers' (tail (swap_at 0 index order));
      Some (Z.of_nat index + Z.of_nat (length order) * v)
  end.

Fixpoint decode_order (n : nat) (r : Z) (order : list Reg) : list Reg :=
  match n, order with
  | S n', _ :: _ =>
      let l := swap_at 0 (Z.to_nat (r mod Z.of_nat n)) order in
      take 1 l ++ decode_order n' (r / Z.of_nat n) (tail l)
  | _, _ => order
  end.

Lemma position_Some {A} `{EqDecision A} (x : A) l i : position x l = Some i -> l !! i = Some x.
Proof.
  revert i. induction l as [|y l IH]; intros i; simpl; [done|].
  destruct (decide (y = x)) as [->|]; [naive_solver|].
  intros (j & Hj & ->)%fmap_Some. simpl. auto.
Qed.

Lemma position_elem {A} `{EqDecision A} (x : A) l : is_Some (position x l) <-> x ∈ l.
Proof.
  induction l as [|y l IH]; simpl; [by split; [intros []|intros ?%not_elem_of_nil]|].
  rewrite elem_of_cons. destruct (decide (y = x)) as [->|]; [split; eauto|].
  rewrite fmap_is_Some, IH. naive_solver.
Qed.

Lemma swap_at_0 {A} (l : list A) k : swap_at k 0 l = l.
Proof.
  unfold swap_at. rewrite Nat.add_0_r.
  destruct (l !! k) as [a|] eqn:E; [|done]. by rewrite !(list_insert_id l k a E).
Qed.

Lemma swap_at_app {A} (pre l : list A) index :
  swap_at (length pre) index (pre ++ l) = pre ++ swap_at 0 index l.
Proof.
  unfold swap_at. rewrite !lookup_app_r by lia.
  rewrite Nat.sub_diag, Nat.add_comm, Nat.add_sub. simpl.
  destruct (l !! index), (l !! 0%nat); try done.
  rewrite !insert_app_r_alt by lia. by rewrite Nat.sub_diag, Nat.add_sub.
Qed.

(** Swapping brings the chosen register to the front and keeps the others. *)
Lemma swap_at_front {A} (l : list A) index x :
  l !! index = Some x ->
  exists l', swap_at 0 index l = x :: l' /\ x :: l' ≡ₚ l.
Proof.
  intros Hx. unfold swap_at. simpl. rewrite Hx.
  destruct l as [|y l]; [done|]. simpl.
  destruct index as [|j]; simpl in *.
  - simplify_eq. by exists l.
  - exists (<[j:=y]> l). split; [done|].
    apply list_elem_of_split_length in Hx as (l1 & l2 & -> & ->).
    rewrite insert_middle. solve_Permutation.
Qed.

Lemma encode_order_bounds registers order v :
  encode_order registers order = Some v -> 0 <= v < Z.of_nat (fact (length order)).
Proof.
  revert order v. induction registers as [|reg registers IH]; intros order v; simpl.
  - intros [= <-]. pose proof (lt_O_fact (length order)). lia.
  - intros (i & Hi & H)%bind_Some. apply bind_Some in H as (w & Hw & [= <-]).
    apply position_Some in Hi. pose proof (lookup_lt_Some _ _ _ Hi).
    destruct (swap_at_front _ _ _ Hi) as (l' & Hs & Hp). rewrite Hs in Hw.
    apply Permutation_length in Hp. apply IH in Hw.
    destruct (length order) as [|n] eqn:E; [lia|]. simpl in Hp, Hw. injection Hp as Hp. rewrite Hp in Hw.
    change (fact (S n)) with (S n * fact n)%nat. rewrite Nat2Z.inj_mul. nia.
Qed.

(** [encode] succeeds on the sequences of distinct registers of the array. *)
Lemma encode_order_total registers order :
  NoDup registers -> (forall r, r ∈ registers -> r ∈ order) -> is_Some (encode_order registers order).
Proof.
  revert order. induction registers as [|reg registers IH]; intros order Hnd Hin; simpl; [eauto|].
  apply NoDup_cons in Hnd as [Hreg Hnd].
  destruct (proj2 (position_elem reg order)) as [i Hi]; [apply Hin; left|].
  rewrite Hi. simpl. apply position_Some in Hi.
  destruct (swap_at_front _ _ _ Hi) as (l' & -> & Hp). simpl.
  destruct (IH l') as [v ->]; [done| |simpl; eauto].
  intros r Hr. assert (r ∈ reg :: l') as [->|]%elem_of_cons; [|done..].
  rewrite Hp. apply Hin. by right.
Qed.

Lemma encode_order_distinct registers order v :
  NoDup order -> encode_order registers order = Some v ->
  NoDup registers /\ forall r, r ∈ registers -> r ∈ order.
Proof.
  revert order v. induction registers as [|reg registers IH]; intros order v Hnd; simpl.
  - intros _. split; [constructor|]. by intros r ?%not_elem_of_nil.
  - intros (i & Hi & H)%bind_Some. apply bind_Some in H as (w & Hw & _).
    apply position_Some in Hi. destruct (swap_at_front _ _ _ Hi) as (l' & Hs & Hp).
    rewrite Hs in Hw. simpl in Hw. rewrite <- Hp in Hnd. apply NoDup_cons in Hnd as [Hn Hnd].
    destruct (IH _ _ Hnd Hw) as [Hnd' Hsub]. split.
    + constructor; [|done]. intros ?%Hsub. done.
    + intros r [->|Hr]%elem_of_cons; rewrite <- Hp; [left|]. right. auto.
Qed.

Lemma decode_order_0 n order : decode_order n 0 order = order.
Proof.
  revert order. induction n as [|n IH]; intros order; [done|].
  destruct order as [|x order]; [done|]. cbn [decode_order].
  rewrite Zmod_0_l, Zdiv_0_l. change (Z.to_nat 0) with 0%nat.
  rewrite swap_at_0. simpl. by rewrite IH.
Qed.

Lemma decode_encode_order registers order v :
  encode_order registers order = Some v ->
  take (length registers) (decode_order (length order) v order) = registers.
Proof.
  revert order v. induction registers as [|reg registers IH]; intros order v; [done|].
  cbn [encode_order]. intros (i & Hi & H)%bind_Some. apply bind_Some in H as (w & Hw & [= <-]).
  apply position_Some in Hi. pose proof (lookup_lt_Some _ _ _ Hi) as Hlt.
  destruct (swap_at_front _ _ _ Hi) as (l' & Hs & Hp). rewrite Hs in Hw.
  apply Permutation_length in Hp. apply encode_order_bounds in Hw as Hb. apply IH in Hw.
  destruct order as [|x order]; [simpl in Hlt; lia|].
  simpl in Hp, Hw. assert (length l' = length order) as Hl by lia. rewrite Hl in Hw.
  cbn [length decode_order]. simpl in Hlt.
  rewrite (Z.mul_comm _ w), Z_mod_plus_full, Z.div_add by lia.
  rewrite Z.mod_small, (Z.div_small (Z.of_nat i)) by lia.
  rewrite Nat2Z.id, Hs. simpl. rewrite Z.add_0_l. by rewrite Hw.
Qed.

(** The loops compute these numbers: the [u16] arithmetic does not overflow, as
    the running scale times the number still to come stays within 8!. *)
Lemma encode_loop_spec registers pre order r scale :
  0 <= r < scale -> scale * Z.of_nat (fact (length order)) = 40320 ->
  (length pre + length order = 8)%nat ->
  encode_loop (length pre) registers (pre ++ order) r scale =
    (v ← encode_order registers order; Some (r + scale * v)).
Proof.
  revert pre order r scale.
  induction registers as [|reg registers IH]; intros pre order r scale Hr Hs Hl.
  { simpl. f_equal. lia. }
  simpl. rewrite drop_app_length.
  destruct (position reg order) as [i|] eqn:Hi; [|done]. simpl.
  apply position_Some in Hi. pose proof (lookup_lt_Some _ _ _ Hi) as Hlt.
  destruct (swap_at_front _ _ _ Hi) as (l' & Hw & Hp).
  assert ((if (i =? 0)%nat then pre ++ order else swap_at (length pre) i (pre ++ order))
          = (pre ++ [reg]) ++ l') as ->.
  { rewrite swap_at_app, Hw, <- app_assoc. simpl.
    destruct i; simpl; [|done]. by rewrite swap_at_0 in Hw; rewrite Hw. }
  rewrite Hw. apply Permutation_length in Hp. simpl in Hp.
  destruct (length order) as [|n] eqn:Hn; [lia|].
  assert (Hf : fact (S n) = (S n * fact n)%nat) by done.
  rewrite Hf, Nat2Z.inj_mul in Hs. pose proof (lt_O_fact n) as Hpos.
  assert (0 < scale * Z.of_nat (S n)) by lia.
  rewrite Z.mul_assoc in Hs.
  assert (1 <= Z.of_nat (fact n)) by lia.
  assert (scale * Z.of_nat (S n) <= 40320)
    by (generalize dependent (Z.of_nat (fact n)); intros F **; nia).
  assert (0 <= Z.of_nat i * scale /\ Z.of_nat i * scale + scale <= scale * Z.of_nat (S n)) as [].
  { split; [nia|]. replace (Z.of_nat i * scale + scale) with (scale * (Z.of_nat i + 1)) by lia.
    apply Z.mul_le_mono_nonneg_l; lia. }
  assert (Hsum : wrapping_add 16 r (as_u 16 (Z.of_nat i * scale)) = r + Z.of_nat i * scale).
  { unfold wrapping_add. rewrite (as_u_small 16 (_ * _)); [rewrite as_u_small|]; unfold in_u; lia. }
  assert (Hscale : as_u 16 (scale * as_u 16 (8 - Z.of_nat (length pre))) = scale * Z.of_nat (S n)).
  { rewrite (as_u_small 16 (8 - _)) by (unfold in_u; lia).
    replace (8 - Z.of_nat (length pre)) with (Z.of_nat (S n)) by lia.
    apply as_u_small. unfold in_u. lia. }
  rewrite Hsum, Hscale.
  replace (S (length pre)) with (length (pre ++ [reg])) by (rewrite length_app; simpl; lia).
  rewrite IH.
  - destruct (encode_order registers _) as [v|]; [|done]. simpl. f_equal. lia.
  - lia.
  - assert (length l' = n) as -> by lia. lia.
  - rewrite length_app. simpl. lia.
Qed.

Lemma decode_loop_spec n pre order r :
  length order = n -> (length pre + n = 8)%nat -> 0 <= r < Z.of_nat (fact n) ->
  decode_loop n r (pre ++ order) = Some (pre ++ decode_order n r order).
Proof.
  revert pre order r. induction n as [|n IH]; intros pre order r Hl H8 Hr.
  { destruct order; [|done]. simpl. simpl in Hr.
    destruct (Z.eqb_spec r 0); [done|lia]. }
  cbn [decode_loop]. destruct (Z.eqb_spec r 0) as [->|Hr0].
  { by rewrite decode_order_0. }
  destruct order as [|x order]; [done|].
  assert (Hm : 0 <= r mod Z.of_nat (S n) < Z.of_nat (S n)) by (apply Z.mod_pos_bound; lia).
  destruct (lookup_lt_is_Some_2 (x :: order) (Z.to_nat (r mod Z.of_nat (S n)))) as [y Hy].
  { rewrite Hl. lia. }
  destruct (swap_at_front _ _ _ Hy) as (l' & Hw & Hp).
  assert ((if r mod Z.of_nat (S n) =? 0 then pre ++ x :: order
           else swap_at (8 - S n) (Z.to_nat (r mod Z.of_nat (S n))) (pre ++ x :: order))
          = (pre ++ [y]) ++ l') as ->.
  { replace (8 - S n)%nat with (length pre) by lia.
    rewrite swap_at_app, Hw, <- app_assoc. simpl.
    destruct (Z.eqb_spec (r mod Z.of_nat (S n)) 0) as [E|]; [|done].
    rewrite E in Hw. change (Z.to_nat 0) with 0%nat in Hw. rewrite swap_at_0 in Hw. by rewrite Hw. }
  apply Permutation_length in Hp. simpl in Hp, Hl. rewrite IH.
  - cbn [decode_order]. rewrite Hw. simpl. by rewrite <- app_assoc.
  - lia.
  - rewrite length_app. simpl. lia.
  - change (fact (S n)) with (S n * fact n)%nat in Hr. rewrite Nat2Z.inj_mul in Hr.
    split; [apply Z.div_pos; lia|]. apply Z.div_lt_upper_bound; lia.
Qed.

Example encode_example : encode [R12; RBX] = Some (2, 4 + 8 * 3).
Proof. reflexivity. Qed.
Example encode_volatile : encode [RAX] = None.
Proof. reflexivity. Qed.
Example encode_repeated : encode [RSI; RSI] = None.
Proof. reflexivity. Qed.
Example decode_out_of_range : decode 8 40320 = None.
Proof. reflexivity. Qed.

Lemma encode_spec registers :
  encode registers =
    if (length ENCODE_REGISTERS <? length registers)%nat then None
    else v ← encode_order registers ENCODE_REGISTERS; Some (as_u 8 (Z.of_nat (length registers)), v).
Proof.
  unfold encode. f_equal.
  assert (encode_loop 0 registers ENCODE_REGISTERS 0 1 = encode_order registers ENCODE_REGISTERS) as ->.
  { etrans; [apply (encode_loop_spec registers [] ENCODE_REGISTERS); done|].
    destruct (encode_order _ _) as [v|]; [simpl; f_equal; lia|done]. }
  done.
Qed.

Lemma decode_encode registers count ord :
  encode registers = Some (count, ord) ->
  count = Z.of_nat (length registers) /\ 0 <= ord < 40320 /\ decode count ord = Some registers.
Proof.
  rewrite encode_spec.
  destruct (Nat.ltb_spec (length ENCODE_REGISTERS) (length registers)) as [|Hlen]; [done|].
  intros (v & Hv & [= <- <-])%bind_Some. simpl in Hlen.
  rewrite as_u_small by (unfold in_u; lia).
  apply encode_order_bounds in Hv as Hb. change (Z.of_nat (fact _)) with 40320 in Hb.
  split_and!; [done|lia|lia|].
  unfold decode. rewrite (decode_loop_spec 8 [] ENCODE_REGISTERS) by done.
  simpl. rewrite Nat2Z.id. f_equal. by apply (decode_encode_order _ _ _ Hv).
Qed.

Lemma encode_is_Some registers :
  is_Some (encode registers) <-> NoDup registers /\ forall r, r ∈ registers -> r ∈ ENCODE_REGISTERS.
Proof.
  rewrite encode_spec. split.
  - intros [? H]. destruct (_ <? _)%nat; [done|].
    apply bind_Some in H as (v & Hv & _). eapply encode_order_distinct; [by compute_done|done].
  - intros [Hr Hin]. destruct (Nat.ltb_spec (length ENCODE_REGISTERS) (length registers)) as [Hlt|].
    { exfalso. pose proof (submseteq_length _ _ (NoDup_submseteq _ _ Hr Hin)). lia. }
    destruct (encode_order_total registers ENCODE_REGISTERS) as [v ->]; [done..|]. simpl. eauto.
Qed.

(** C38: the 16-bit encoding of a register ordering loses nothing. [encode]
    succeeds exactly on the sequences of distinct callee-saved registers, with an
    encoded ordering below 8! (so no [u16] overflow happens on the way), and
    [decode] of the encoded pair gives the sequence back without panicking. *)
Theorem encode_decode_roundtrip (registers : list Reg) :
  (is_Some (encode registers) <-> NoDup registers /\ forall r, r ∈ registers -> r ∈ ENCODE_REGISTERS) /\
  forall count ord, encode registers = Some (count, ord) ->
    count = Z.of_nat (length registers) /\ 0 <= ord < 40320 /\ decode count ord = Some registers.
Proof. split; [apply encode_is_Some|]. intros count ord. apply decode_encode. Qed.
