(* ===== verification/X86Rules.v ===== *)
(** * Executing x86-64 unwind rules

    Models [vendor/framehop/src/x86_64/unwind_rule.rs]: the rules, their
    construction from a sequence of stack operations, and [exec]. *)
From S2P Require Import Prelude AddSigned UnwindRule X86Regs.
#[local] Existing Instance AddSigned_u64.

(** For all of these: return address is *(new_sp - 8) *)
Inductive UnwindRuleX86_64 : Type :=
  | EndOfStack
  (** (sp, bp) = (sp + 8, bp) *)
  | JustReturn
  (** (sp, bp) = if is_first_frame (sp + 8, bp) else (bp + 16, *bp) *)
  | JustReturnIfFirstFrameOtherwiseFp
  (** (sp, bp) = (sp + 8x, bp) *)
  | OffsetSp (sp_offset_by_8 : Z)
  (** (sp, bp) = (sp + 8x, *(sp + 8y)) *)
  | OffsetSpAndRestoreBp (sp_offset_by_8 bp_storage_offset_from_sp_by_8 : Z)
  (** (sp, bp) = (bp + 16, *bp) *)
  | UseFramePointer
  (** (sp, ...) = (sp + 8 * (offset + register count), popped registers) *)
  | OffsetSpAndPopRegisters (sp_offset_by_8 register_count encoded_registers_to_pop : Z).

#[export] Instance UnwindRuleX86_64_eq_dec : EqDecision UnwindRuleX86_64.
Proof. solve_decision. Defined.

Inductive OffsetOrPop : Type :=
  | OOPNone
  | OffsetBy8 (offset : Z)
  | Pop (reg : Reg).

(** The loop that collects the popped registers into an [ArrayVec<Reg, 8>]. *)
Fixpoint collect_pops (ops : list OffsetOrPop) (regs : list Reg) : option (list Reg) :=
  match ops with
  | [] => Some regs
  | Pop reg :: ops' =>
      if (length regs <? 8)%nat then collect_pops ops' (regs ++ [reg]) else None
  | _ :: _ => None
  end.

Definition for_sequence_of_offset_or_pop (iter : list OffsetOrPop) : option UnwindRuleX86_64 :=
  let '(sp_offset_by_8, iter) :=
    match iter with
    | OffsetBy8 offset :: iter' => (offset, iter')
    | _ => (0, iter)
    end in
  regs ← collect_pops iter [];
  if (match regs with [] => true | _ => false end) && (sp_offset_by_8 =? 0)
  then Some JustReturn
  else
    '(register_count, encoded_registers_to_pop) ← encode regs;
    Some (OffsetSpAndPopRegisters sp_offset_by_8 register_count encoded_registers_to_pop).

(** The loop of [exec] over the decoded registers: pops each from [sp]. *)
Fixpoint pop_registers (read_stack : stack_reader) (to_pop : list Reg) (sp : Z) :
    exec_m UnwindRegsX86_64 Z :=
  match to_pop with
  | [] => mret sp
  | reg :: to_pop' =>
      value ← read_word read_stack sp;
      sp ← no_overflow (checked_add 64 sp 8);
      _ ← st_modify (reg_set reg value);
      pop_registers read_stack to_pop' sp
  end.

(** The [match self] of [exec]: [None] is the early [return Ok(None)]. *)
Definition new_sp_bp (self : UnwindRuleX86_64) (is_first_frame : bool)
    (read_stack : stack_reader) : exec_m UnwindRegsX86_64 (option (Z * Z)) :=
  regs ← st_get;
  let sp := sp regs in
  match self with
  | EndOfStack => mret None
  | JustReturn =>
      new_sp ← no_overflow (checked_add 64 sp 8);
      mret (Some (new_sp, bp regs))
  | JustReturnIfFirstFrameOtherwiseFp =>
      if is_first_frame then
        new_sp ← no_overflow (checked_add 64 sp 8);
        mret (Some (new_sp, bp regs))
      else
        let bp := bp regs in
        new_sp ← no_overflow (checked_add 64 bp 16);
        if new_sp <=? sp then fail FramepointerUnwindingMovedBackwards
        else
          new_bp ← read_word read_stack bp;
          mret (Some (new_sp, new_bp))
  | OffsetSp sp_offset_by_8 =>
      let sp_offset := sp_offset_by_8 * 8 in
      new_sp ← no_overflow (checked_add 64 sp sp_offset);
      mret (Some (new_sp, bp regs))
  | OffsetSpAndRestoreBp sp_offset_by_8 bp_storage_offset_from_sp_by_8 =>
      let sp_offset := sp_offset_by_8 * 8 in
      new_sp ← no_overflow (checked_add 64 sp sp_offset);
      let bp_storage_offset_from_sp := bp_storage_offset_from_sp_by_8 * 8 in
      bp_location ← no_overflow (checked_add_signed sp bp_storage_offset_from_sp);
      new_bp ← match read_stack bp_location with
               | Some new_bp => mret new_bp
               | None =>
                   if is_first_frame && (bp_location <? sp) then mret (bp regs)
                   else fail (CouldNotReadStack bp_location)
               end;
      mret (Some (new_sp, new_bp))
  | UseFramePointer =>
      let bp := bp regs in
      if bp =? 0 then mret None
      else
        new_sp ← no_overflow (checked_add 64 bp 16);
        if new_sp <=? sp then fail FramepointerUnwindingMovedBackwards
        else
          new_bp ← read_word read_stack bp;
          mret (Some (new_sp, new_bp))
  | OffsetSpAndPopRegisters sp_offset_by_8 register_count encoded_registers_to_pop =>
      sp ← no_overflow (checked_add 64 sp (sp_offset_by_8 * 8));
      to_pop ← or_panic (decode register_count encoded_registers_to_pop);
      sp ← pop_registers read_stack to_pop sp;
      new_sp ← no_overflow (checked_add 64 sp 8);
      regs ← st_get;
      mret (Some (new_sp, X86Regs.bp regs))
  end.

(** What [exec] does after the [match]: reads the return address below [new_sp],
    checks that the walk advances, and updates the registers. *)
Definition finish_exec (sp new_sp new_bp : Z) (read_stack : stack_reader) :
    exec_m UnwindRegsX86_64 (option Z) :=
  return_address ← read_word read_stack (new_sp -64 8);
  if return_address =? 0 then mret None
  else
    regs ← st_get;
    if (new_sp =? sp) && (return_address =? ip regs) then fail DidNotAdvance
    else
      _ ← st_modify (set_ip return_address);
      _ ← st_modify (set_sp new_sp);
      _ ← st_modify (set_bp new_bp);
      mret (Some return_address).

Definition exec_x86_64 (self : UnwindRuleX86_64) (is_first_frame : bool)
    (read_stack : stack_reader) : exec_m UnwindRegsX86_64 (option Z) :=
  regs ← st_get;
  new ← new_sp_bp self is_first_frame read_stack;
  match new with
  | None => mret None
  | Some (new_sp, new_bp) => finish_exec (sp regs) new_sp new_bp read_stack
  end.

#[export] Instance UnwindRule_x86_64 : UnwindRule UnwindRuleX86_64 UnwindRegsX86_64 := {
  exec := exec_x86_64;
  rule_for_stub_functions := JustReturn;
  rule_for_function_start := JustReturn;
  fallback_rule := UseFramePointer;
  regs_ip_sp := fun r => (Some (ip r), sp r);
}.

(** ** The effect of each rule *)

Section exec.
Context (read_stack : stack_reader).

Lemma pop_registers_sp to_pop s regs s' regs' :
  pop_registers read_stack to_pop s regs = (Ok s', regs') ->
  s' = s + 8 * Z.of_nat (length to_pop) /\ (u64 s -> u64 s').
Proof.
  revert s regs. induction to_pop as [|r to_pop IH]; intros s regs H.
  { simpl in H. unfold mret, st_ret in H. simplify_eq. split; [simpl; lia|done]. }
  cbn [pop_registers] in H. st_run.
  apply IH in H as [-> Hu]. checked_simpl.
  cbn [length]. split; [lia|]. intros _. by apply Hu.
Qed.

Lemma pop_registers_keeps to_pop s regs res regs' :
  (forall r, r ∈ to_pop -> r <> RSP) ->
  pop_registers read_stack to_pop s regs = (res, regs') ->
  sp regs' = sp regs /\ ip regs' = ip regs /\ length (X86Regs.regs regs') = length (X86Regs.regs regs).
Proof.
  revert s regs. induction to_pop as [|r to_pop IH]; intros s regs Hin H.
  { simpl in H. unfold mret, st_ret in H. by simplify_eq. }
  cbn [pop_registers] in H. st_run; try done.
  all: apply IH in H as (-> & -> & ->); [|intros ? ?; apply Hin; by right].
  all: rewrite reg_set_length; split_and!; try done.
  all: apply reg_get_set_ne, Hin; left.
Qed.

Lemma decode_loop_elem n r l l' :
  decode_loop n r l = Some l' -> forall x, x ∈ l' -> x ∈ l.
Proof.
  revert r l. induction n as [|n IH]; intros r l; cbn [decode_loop].
  { destruct (r =? 0); intros; simplify_eq; done. }
  destruct (r =? 0); [by intros; simplify_eq|].
  intros H x Hx. eapply IH in H; [|done].
  destruct (_ =? 0); [done|]. revert H. unfold swap_at.
  destruct (l !! _) as [a|] eqn:Ea; [|done].
  destruct (l !! (8 - S n)%nat) as [b|] eqn:Eb; [|done].
  rewrite !list_elem_of_lookup. intros [i Hi].
  apply list_lookup_insert_Some in Hi as [(_ & <- & _)|[_ Hi]]; [eauto|].
  apply list_lookup_insert_Some in Hi as [(_ & <- & _)|[_ Hi]]; eauto.
Qed.

(** The popped registers never include the stack pointer. *)
Lemma decode_not_rsp count ord to_pop :
  decode count ord = Some to_pop -> forall r, r ∈ to_pop -> r <> RSP.
Proof.
  intros (l & Hl & ->)%fmap_Some r Hr.
  apply elem_of_take in Hr as (i & Hi & _).
  eapply decode_loop_elem in Hl; [|by eapply list_elem_of_lookup_2].
  intros ->. unfold ENCODE_REGISTERS in Hl. set_solver.
Qed.

(** The new stack pointer of a rule is never below the old one, and until the
    return address is read the position is unchanged. *)
Lemma new_sp_bp_spec r first regs res regs' :
  new_sp_bp r first read_stack regs = (res, regs') ->
  sp regs' = sp regs /\ ip regs' = ip regs /\
  length (X86Regs.regs regs') = length (X86Regs.regs regs).
Proof.
  intros H. unfold new_sp_bp in H.
  destruct r; st_run; try done.
  all: try (eapply pop_registers_keeps; [by eapply decode_not_rsp|done]).
Qed.
End exec.

Definition rule_wf (r : UnwindRuleX86_64) : Prop :=
  match r with
  | OffsetSp n => u16 n
  | OffsetSpAndRestoreBp n m => u16 n /\ i16 m
  | OffsetSpAndPopRegisters n c e => u16 n /\ u8 c /\ u16 e
  | _ => True
  end.

Lemma new_sp_bp_monotone read_stack r first regs new_sp new_bp regs' :
  rule_wf r -> new_sp_bp r first read_stack regs = (Ok (Some (new_sp, new_bp)), regs') ->
  sp regs <= new_sp /\ u64 new_sp.
Proof.
  intros Hwf H. unfold new_sp_bp in H. destruct r; simpl in Hwf; st_run; bool_to_prop.
  all: try match goal with
         | H : pop_registers _ _ _ _ = (Ok _, _) |- _ => apply pop_registers_sp in H as [? ?]
         end; checked_simpl; unfold in_u in *; try lia.
Qed.

(** A successful step, in terms of the stack: the return address is the nonnull
    word below the new stack pointer, the stack pointer does not move backwards,
    and the position (stack pointer, instruction pointer) changes. *)
Record advances (read_stack : stack_reader) (ra : Z) (regs regs' : UnwindRegsX86_64) : Prop := {
  adv_ip : ip regs' = ra;
  adv_nonnull : ra <> 0;
  adv_read : read_stack (sp regs' -64 8) = Some ra;
  adv_sp : sp regs <= sp regs';
  adv_moved : sp regs' <> sp regs \/ ra <> ip regs;
  adv_length : length (X86Regs.regs regs') = 16%nat;
  adv_u64 : u64 (sp regs');
}.

Lemma set_all_regs regs ra new_sp new_bp :
  length (X86Regs.regs regs) = 16%nat ->
  let regs' := set_bp new_bp (set_sp new_sp (set_ip ra regs)) in
  ip regs' = ra /\ sp regs' = new_sp /\ bp regs' = new_bp /\ length (X86Regs.regs regs') = 16%nat.
Proof.
  intros Hl. unfold set_bp, set_sp, sp, bp. cbn zeta. split_and!.
  - done.
  - rewrite reg_get_set_ne by done. apply reg_get_set_eq. done.
  - apply reg_get_set_eq. by rewrite reg_set_length.
  - by rewrite !reg_set_length.
Qed.

Lemma exec_x86_64_advances r first read_stack regs ra regs' :
  rule_wf r -> length (X86Regs.regs regs) = 16%nat ->
  exec_x86_64 r first read_stack regs = (Ok (Some ra), regs') ->
  advances read_stack ra regs regs'.
Proof.
  intros Hwf Hl H. unfold exec_x86_64 in H. st_simpl.
  destruct (new_sp_bp r first read_stack regs) as [res mid] eqn:E.
  destruct (new_sp_bp_spec _ _ _ _ _ _ E) as (_ & Hip & Hlen).
  destruct res as [[[new_sp new_bp]|]|]; [|by st_run..].
  destruct (new_sp_bp_monotone _ _ _ _ _ _ _ Hwf E) as [Hle Hu].
  unfold finish_exec in H. st_run.
  match goal with |- advances _ _ _ (set_bp _ (set_sp _ (set_ip _ ?u))) =>
    destruct (set_all_regs u ra new_sp new_bp) as (H1 & H2 & _ & H4); [congruence|] end.
  bool_to_prop. split; rewrite ?H2; try done.
  rewrite <- Hip. match goal with H : _ \/ _ |- _ => destruct H end; bool_to_prop; auto.
Qed.

(** A rule whose registers can be decoded never panics. *)
Definition rule_safe (r : UnwindRuleX86_64) : Prop :=
  rule_wf r /\
  match r with OffsetSpAndPopRegisters _ count ord => is_Some (decode count ord) | _ => True end.

Lemma pop_registers_no_panic read_stack to_pop : forall s regs, (pop_registers read_stack to_pop s regs).1 <> Err Panic.
Proof.
  induction to_pop as [|r to_pop IH]; intros s regs; [done|]. cbn [pop_registers].
  rewrite st_bind_spec, read_word_spec. destruct (read_stack s); [|done].
  rewrite st_bind_spec, no_overflow_spec. destruct (checked_add 64 s 8); [|done]. rewrite st_bind_spec. apply IH.
Qed.

Lemma finish_exec_no_panic read_stack sp0 new_sp new_bp regs regs' :
  finish_exec sp0 new_sp new_bp read_stack regs <> (Err Panic, regs').
Proof. unfold finish_exec. intros H. st_run. Qed.

Lemma new_sp_bp_no_panic read_stack r first regs regs' :
  rule_safe r -> new_sp_bp r first read_stack regs <> (Err Panic, regs').
Proof.
  intros [_ Hd] H. unfold new_sp_bp in H. destruct r; st_run; [|by destruct Hd].
  match goal with H : pop_registers _ ?l ?s ?g = _ |- _ =>
    by pose proof (pop_registers_no_panic read_stack l s g) as Hp; rewrite H in Hp end.
Qed.

Lemma exec_x86_64_no_panic read_stack r first regs : rule_safe r -> (exec_x86_64 r first read_stack regs).1 <> Err Panic.
Proof.
  intros Hr. unfold exec_x86_64. rewrite !st_bind_spec, st_get_spec, st_bind_spec.
  pose proof (new_sp_bp_no_panic read_stack r first regs) as Hn.
  destruct (new_sp_bp r first read_stack regs) as [[[[new_sp new_bp]|]|e] mid]; [|done|].
  - pose proof (finish_exec_no_panic read_stack (sp regs) new_sp new_bp mid) as Hf.
    destruct (finish_exec _ _ _ _ _) as [[|e] regs']; [done|]. cbn. intros [= ->]. by eapply Hf.
  - cbn. intros [= ->]. by eapply Hn.
Qed.

Lemma exec_x86_64_position r first read_stack regs res regs' :
  exec_x86_64 r first read_stack regs = (res, regs') -> (forall ra, res <> Ok (Some ra)) ->
  sp regs' = sp regs /\ ip regs' = ip regs.
Proof.
  intros H Hres. unfold exec_x86_64 in H. st_simpl.
  destruct (new_sp_bp r first read_stack regs) as [res1 mid] eqn:E.
  destruct (new_sp_bp_spec _ _ _ _ _ _ E) as (Hsp & Hip & _).
  destruct res1 as [[[new_sp new_bp]|]|]; [|by st_run..].
  unfold finish_exec in H. st_run; naive_solver.
Qed.

#[export] Instance UnwindRuleLaws_x86_64 : UnwindRuleLaws UnwindRuleX86_64 UnwindRegsX86_64.
Proof.
  split; simpl.
  - intros r first rs regs ra regs' H. unfold exec_x86_64, finish_exec in H.
    st_run; by bool_to_prop.
  - intros r first rs regs res regs' H Hres.
    destruct (exec_x86_64_position _ _ _ _ _ _ H Hres) as [-> ->]. done.
Qed.

(** ** Properties *)

(** Unwinding always advances. After one frame has been unwound, every rule
    that unwinds another one moves the stack pointer strictly up the stack; a
    first frame may keep it, but then the instruction pointer changes. *)
Theorem exec_strictly_advances r1 r2 first read_stack regs ra1 regs1 ra2 regs2
    (Hwf1 : rule_wf r1) (Hwf2 : rule_wf r2) (Hl : length (X86Regs.regs regs) = 16%nat)
    (H1 : exec_x86_64 r1 first read_stack regs = (Ok (Some ra1), regs1))
    (H2 : exec_x86_64 r2 false read_stack regs1 = (Ok (Some ra2), regs2)) :
  sp regs <= sp regs1 /\ (sp regs1 <> sp regs \/ ip regs1 <> ip regs) /\ sp regs1 < sp regs2.
Proof.
  apply exec_x86_64_advances in H1 as [Hip1 _ Hr1 Hs1 Hm1 Hl1 _]; [|done..].
  apply exec_x86_64_advances in H2 as [Hip2 _ Hr2 Hs2 Hm2 _ _]; [|done..].
  split_and!; [done|by rewrite Hip1|].
  destruct (Z.eq_dec (sp regs2) (sp regs1)) as [E|]; [|lia].
  rewrite E, Hr1 in Hr2. destruct Hm2; congruence.
Qed.

(** A small stack of two frames linked by frame pointers. *)
Definition example_stack : stack_reader := fun addr =>
  [1; 2; 0x100300; 4; 0x40; 0x100200; 5; 6; 0x70; 0x100100; 7; 8; 9; 10; 0; 0] !! Z.to_nat (addr / 8).

Lemma exec_strictly_advances_witness :
  let regs := regs_new 0x100400 0x10 0x20 in
  let regs1 := (exec_x86_64 (OffsetSp 1) true example_stack regs).2 in
  let regs2 := (exec_x86_64 UseFramePointer false example_stack regs1).2 in
  sp regs <= sp regs1 /\ (sp regs1 <> sp regs \/ ip regs1 <> ip regs) /\ sp regs1 < sp regs2.
Proof.
  cbn zeta.
  apply (exec_strictly_advances (OffsetSp 1) UseFramePointer true example_stack
           (regs_new 0x100400 0x10 0x20) 0x100300 _ 0x100200 _).
  all: by vm_compute.
Defined.

(** The frame-pointer list on the stack: [bp] points to the caller's [bp], the
    word above it is the return address, and a null [bp] ends the list. *)
Fixpoint fp_chain (read_stack : stack_reader) (bp : Z) (ras : list Z) : Prop :=
  match ras with
  | [] => bp = 0
  | ra :: ras' =>
      0 < bp /\ u64 (bp + 16) /\ read_stack (bp + 8) = Some ra /\ ra <> 0 /\
      exists bp', read_stack bp = Some bp' /\ (bp' = 0 \/ bp < bp') /\ fp_chain read_stack bp' ras'
  end.

(** What [UseFramePointer] computes when the frame pointer is above the stack pointer. *)
Lemma use_frame_pointer_new read_stack first regs bp' :
  bp regs <> 0 -> u64 (bp regs + 16) -> sp regs < bp regs + 16 -> read_stack (bp regs) = Some bp' ->
  new_sp_bp UseFramePointer first read_stack regs = (Ok (Some (bp regs + 16, bp')), regs).
Proof.
  intros Hbp H64 Hsp Hb. unfold new_sp_bp. rewrite st_bind_spec, st_get_spec. cbv zeta.
  rewrite (proj2 (Z.eqb_neq (bp regs) 0)) by done. rewrite st_bind_spec, no_overflow_spec.
  rewrite (proj2 (checked_add_Some 64 (bp regs) 16 (bp regs + 16)) (conj eq_refl H64)).
  rewrite (proj2 (Z.leb_gt (bp regs + 16) (sp regs))) by lia.
  by rewrite st_bind_spec, read_word_spec, Hb, st_ret_spec.
Qed.

Lemma use_frame_pointer_step read_stack regs bp' ra :
  length (X86Regs.regs regs) = 16%nat ->
  0 < bp regs -> u64 (bp regs + 16) -> sp regs < bp regs + 16 ->
  read_stack (bp regs) = Some bp' -> read_stack (bp regs + 8) = Some ra -> ra <> 0 ->
  exec_x86_64 UseFramePointer false read_stack regs =
    (Ok (Some ra), set_bp bp' (set_sp (bp regs + 16) (set_ip ra regs))).
Proof.
  intros Hl Hbp H64 Hsp Hb Hra Hne. unfold exec_x86_64, finish_exec.
  rewrite st_bind_spec, st_get_spec, st_bind_spec, (use_frame_pointer_new _ _ _ bp') by (done || lia).
  rewrite st_bind_spec, read_word_spec.
  replace (bp regs + 16 -64 8) with (bp regs + 8) by (unfold in_u in H64; word_solve).
  rewrite Hra, (proj2 (Z.eqb_neq ra 0)) by lia. rewrite st_bind_spec, st_get_spec.
  rewrite (proj2 (Z.eqb_neq (bp regs + 16) (sp regs))) by lia. done.
Qed.

(** The fallback rule walks the frame-pointer list. On a stack that holds the
    list of [ras], with the stack pointer below the first node, the walk returns
    exactly the return addresses of the list, in order, and then reports the end
    of the stack. *)
Theorem frame_pointer_walk read_stack ras regs fuel
    (Hl : length (X86Regs.regs regs) = 16%nat)
    (Hchain : fp_chain read_stack (bp regs) ras)
    (Hsp : ras = [] \/ sp regs < bp regs + 16)
    (Hfuel : (length ras < fuel)%nat) :
  walk (fun _ _ => fallback_rule (Regs := UnwindRegsX86_64)) read_stack fuel false regs =
    (ras, StackEnded).
Proof.
  revert regs fuel Hl Hchain Hsp Hfuel.
  induction ras as [|ra ras IH]; intros regs fuel Hl Hchain Hsp Hfuel;
    (destruct fuel as [|fuel]; [simpl in Hfuel; lia|]).
  - simpl in *. unfold exec_x86_64, new_sp_bp. st_simpl. by rewrite Hchain.
  - destruct Hchain as (Hbp & H64 & Hra & Hne & bp' & Hb & Hmono & Hchain).
    destruct Hsp as [|Hsp]; [done|].
    change (fallback_rule) with UseFramePointer. cbn [walk].
    change (@exec _ _ UnwindRule_x86_64) with exec_x86_64.
    rewrite (use_frame_pointer_step _ _ bp' ra) by done.
    destruct (set_all_regs regs ra (bp regs + 16) bp' Hl) as (_ & Hs & Hb' & Hl').
    rewrite IH; try done.
    + by rewrite Hb'.
    + rewrite Hs, Hb'. destruct ras; [by left|]. simpl in Hchain. right. lia.
    + simpl in Hfuel. lia.
Qed.

Lemma frame_pointer_walk_witness :
  walk (fun _ _ => fallback_rule (Regs := UnwindRegsX86_64))
    (fun a => <[112 := 0]> (<[120 := 0x100000]> {[ 32 := 0x40; 40 := 0x100200; 64 := 0x70; 72 := 0x100100 ]} : gmap Z Z) !! a)
    4 false (regs_new 0x100300 0x18 0x20) = ([0x100200; 0x100100; 0x100000], StackEnded).
Proof.
  apply frame_pointer_walk; [done| |right; by vm_compute|simpl; lia].
  change (bp (regs_new 0x100300 0x18 0x20)) with 0x20. cbn [fp_chain]. unfold in_u.
  split_and!; [lia..|reflexivity|lia|].
  exists 0x40. split_and!; [reflexivity|lia|lia|lia|lia|reflexivity|lia|].
  exists 0x70. split_and!; [reflexivity|lia|lia|lia|lia|reflexivity|lia|].
  exists 0. split_and!; [reflexivity|lia|reflexivity].
Defined.

(** ** Sequences of stack operations *)

(** What a sequence of operations does to the machine, one operation at a time:
    [add rsp, 8n] and [pop reg]. *)
Fixpoint run_ops (read_stack : stack_reader) (ops : list OffsetOrPop) (sp : Z) :
    exec_m UnwindRegsX86_64 Z :=
  match ops with
  | [] => mret sp
  | OOPNone :: ops' => run_ops read_stack ops' sp
  | OffsetBy8 n :: ops' =>
      sp ← no_overflow (checked_add 64 sp (n * 8));
      run_ops read_stack ops' sp
  | Pop reg :: ops' =>
      value ← read_word read_stack sp;
      sp ← no_overflow (checked_add 64 sp 8);
      _ ← st_modify (reg_set reg value);
      run_ops read_stack ops' sp
  end.

(** The operations and then [ret]. *)
Definition run_ops_and_return (read_stack : stack_reader) (ops : list OffsetOrPop) :
    exec_m UnwindRegsX86_64 (option Z) :=
  regs ← st_get;
  s ← run_ops read_stack ops (sp regs);
  new_sp ← no_overflow (checked_add 64 s 8);
  regs' ← st_get;
  finish_exec (sp regs) new_sp (bp regs') read_stack.

Lemma collect_pops_spec ops acc regs :
  (length acc <= 8)%nat -> collect_pops ops acc = Some regs ->
  exists popped, ops = Pop <$> popped /\ regs = acc ++ popped /\ (length regs <= 8)%nat.
Proof.
  revert acc. induction ops as [|[| |reg] ops IH]; intros acc Hacc; simpl; [|done..|].
  - intros [= ->]. exists []. by rewrite app_nil_r.
  - destruct (Nat.ltb_spec (length acc) 8); [|done].
    intros (popped & -> & -> & Hl)%IH; [|rewrite length_app; simpl; lia].
    exists (reg :: popped). rewrite <- app_assoc in *. done.
Qed.

Lemma run_ops_pops read_stack popped s regs :
  run_ops read_stack (Pop <$> popped) s regs = pop_registers read_stack popped s regs.
Proof.
  revert s regs. induction popped as [|r popped IH]; intros s regs; [done|]. cbn.
  rewrite !st_bind_spec. destruct (read_word _ _ _) as [[v|] ?]; [|done].
  rewrite !st_bind_spec. destruct (no_overflow _ _) as [[v'|] ?]; [|done].
  rewrite !st_bind_spec. destruct (st_modify _ _) as [[|] ?]; [apply IH|done].
Qed.

(** Executing the rule made of an offset and an encoded list of registers. *)
Lemma exec_offset_pops n popped count ord first read_stack regs :
  decode count ord = Some popped ->
  exec_x86_64 (OffsetSpAndPopRegisters n count ord) first read_stack regs =
    run_ops_and_return read_stack (OffsetBy8 n :: (Pop <$> popped)) regs.
Proof.
  intros Hd. unfold exec_x86_64, run_ops_and_return, new_sp_bp. cbn [run_ops]. st_simpl.
  destruct (checked_add 64 (sp regs) (n * 8)); [|done]. st_simpl.
  rewrite Hd, run_ops_pops. simpl. rewrite !st_bind_spec.
  destruct (pop_registers _ _ _ _) as [[s|] regs']; [|done].
  rewrite !st_bind_spec, !no_overflow_spec. destruct (checked_add 64 s 8); [|done]. done.
Qed.

Lemma exec_just_return first read_stack regs :
  exec_x86_64 JustReturn first read_stack regs =
    match checked_add 64 (sp regs) 8 with
    | Some new_sp => finish_exec (sp regs) new_sp (bp regs) read_stack regs
    | None => (Err (Fail IntegerOverflow), regs)
    end.
Proof.
  unfold exec_x86_64, new_sp_bp. rewrite !st_bind_spec, st_get_spec, !st_bind_spec, st_get_spec.
  rewrite st_bind_spec, no_overflow_spec. by destruct (checked_add 64 (sp regs) 8).
Qed.

Lemma sequence_rule_exec ops rule first read_stack regs
    (Hrule : for_sequence_of_offset_or_pop ops = Some rule)
    (Hsp : u64 (sp regs)) :
  exec_x86_64 rule first read_stack regs = run_ops_and_return read_stack ops regs.
Proof.
  unfold for_sequence_of_offset_or_pop in Hrule.
  set (split := match ops with OffsetBy8 offset :: iter' => (offset, iter') | _ => (0, ops) end) in Hrule.
  assert (H0 : checked_add 64 (sp regs) 0 = Some (sp regs)).
  { apply checked_add_Some. by rewrite Z.add_0_r. }
  assert (Hsplit : exists n rest, split = (n, rest) /\
            run_ops_and_return read_stack ops regs =
            run_ops_and_return read_stack (OffsetBy8 n :: rest) regs).
  { assert (run_ops_and_return read_stack (OffsetBy8 0 :: ops) regs
            = run_ops_and_return read_stack ops regs) as E.
    { unfold run_ops_and_return. rewrite !st_bind_spec. cbn [run_ops st_get].
      rewrite !st_bind_spec, no_overflow_spec. change (0 * 8) with 0. by rewrite H0. }
    destruct ops as [|[|n|r] ops]; subst split; eexists _, _; split; try done. }
  destruct Hsplit as (n & rest & Heq & ->). rewrite Heq in Hrule.
  apply bind_Some in Hrule as (popped & Hp & Hrule).
  apply collect_pops_spec in Hp as (popped' & -> & -> & Hlen); [|simpl; lia]. simpl in Hrule, Hlen.
  destruct ((match popped' with [] => true | _ => false end) && (n =? 0)) eqn:E.
  - apply andb_true_iff in E as [E ->%Z.eqb_eq]. destruct popped'; [|done].
    injection Hrule as <-. rewrite exec_just_return.
    unfold run_ops_and_return. cbn [run_ops fmap list_fmap].
    rewrite st_bind_spec, st_get_spec, st_bind_spec. cbn [run_ops fmap list_fmap].
    change (0 * 8) with 0. rewrite st_bind_spec, no_overflow_spec, H0, st_ret_spec, st_bind_spec, no_overflow_spec.
    by destruct (checked_add 64 (sp regs) 8).
  - apply bind_Some in Hrule as ([count ord] & Henc & [= <-]).
    apply exec_offset_pops. by eapply decode_encode.
Qed.

(** The rule of a sequence is in range when its offsets are, and its registers decode. *)
Lemma sequence_rule_safe ops rule :
  Forall (fun o => match o with OffsetBy8 n => u16 n | _ => True end) ops ->
  for_sequence_of_offset_or_pop ops = Some rule -> rule_safe rule.
Proof.
  intros Hops. unfold for_sequence_of_offset_or_pop.
  assert (exists n rest, u16 n /\ match ops with OffsetBy8 offset :: iter' => (offset, iter') | _ => (0, ops) end = (n, rest))
    as (n & rest & Hn & ->).
  { destruct Hops as [|[|n|r] ops Hn _]; by eexists _, _. }
  intros (popped & _ & Hrule)%bind_Some. destruct (_ && _); [by simplify_eq|].
  apply bind_Some in Hrule as ([count ord] & Henc & [= <-]). pose proof Henc as (Hcount & Hord & Hd)%decode_encode.
  split; [|by rewrite Hd]. split_and!; [done| |unfold in_u; lia].
  unfold encode in Henc. destruct (_ <? _)%nat; [done|]. apply bind_Some in Henc as (r & _ & [= <- _]). by apply as_u_range.
Qed.

(** An epilogue recovered as a sequence of stack operations is unwound by one
    rule exactly as by performing the operations: if the sequence has a rule, it
    executes like the operations followed by a return, errors and partial register
    updates included, and it never panics on the encoded registers. *)
Theorem sequence_rule_refines ops rule first read_stack regs
    (Hrule : for_sequence_of_offset_or_pop ops = Some rule)
    (Hsp : u64 (sp regs)) :
  exec_x86_64 rule first read_stack regs = run_ops_and_return read_stack ops regs.
Proof. by apply sequence_rule_exec. Qed.

Lemma sequence_rule_refines_witness :
  exec_x86_64 (OffsetSpAndPopRegisters 2 2 1) true example_stack (regs_new 0x100400 0x10 0) =
  run_ops_and_return example_stack [OffsetBy8 2; Pop RBP; Pop RBX] (regs_new 0x100400 0x10 0).
Proof.
  apply sequence_rule_refines; [reflexivity|by vm_compute].
Defined.
