(* ===== verification/Aarch64Rules.v ===== *)
(** * Aarch64 registers and unwind rules

    Models [vendor/framehop/src/aarch64/unwindregs.rs] (with the pointer
    authentication masks) and [aarch64/unwind_rule.rs]. *)
From S2P Require Import Prelude AddSigned UnwindRule.
#[local] Existing Instance AddSigned_u64.

(** ** Pointer authentication masks and registers *)

Record PtrAuthMask : Type := MkPtrAuthMask { mask_bits : Z }.

#[export] Instance PtrAuthMask_eq_dec : EqDecision PtrAuthMask.
Proof. solve_decision. Defined.

Definition new_no_strip : PtrAuthMask := MkPtrAuthMask u64_MAX.
Definition new_24_40 : PtrAuthMask := MkPtrAuthMask (Z.shiftr u64_MAX 24).

(** The shift by [leading_zeros]. For the address 0 it is a shift by 64, which the
    release build reduces modulo 64. *)
Definition from_max_known_address (address : Z) : PtrAuthMask :=
  MkPtrAuthMask (Z.shiftr u64_MAX (leading_zeros 64 address mod 64)).

Definition strip_ptr_auth (self : PtrAuthMask) (ptr : Z) : Z := Z.land ptr (mask_bits self).

Record UnwindRegsAarch64 : Type := MkRegsAarch64 {
  lr_mask : PtrAuthMask;
  lr : Z;
  sp : Z;
  fp : Z;
}.

Definition regs_new (lr sp fp : Z) : UnwindRegsAarch64 := MkRegsAarch64 new_no_strip lr sp fp.

Definition new_with_ptr_auth_mask (code_ptr_auth_mask : PtrAuthMask) (lr sp fp : Z) :
    UnwindRegsAarch64 :=
  MkRegsAarch64 code_ptr_auth_mask (strip_ptr_auth code_ptr_auth_mask lr) sp fp.

Definition set_sp (v : Z) (r : UnwindRegsAarch64) : UnwindRegsAarch64 :=
  MkRegsAarch64 (lr_mask r) (lr r) v (fp r).
Definition set_fp (v : Z) (r : UnwindRegsAarch64) : UnwindRegsAarch64 :=
  MkRegsAarch64 (lr_mask r) (lr r) (sp r) v.
Definition set_lr (v : Z) (r : UnwindRegsAarch64) : UnwindRegsAarch64 :=
  MkRegsAarch64 (lr_mask r) (strip_ptr_auth (lr_mask r) v) (sp r) (fp r).

(** ** Rules *)

Inductive UnwindRuleAarch64 : Type :=
  (** (sp, fp, lr) = (sp, fp, lr), only possible for the first frame *)
  | NoOp
  (** (sp, fp, lr) = if is_first_frame (sp, fp, lr) else (fp + 16, *fp, *(fp + 8)) *)
  | NoOpIfFirstFrameOtherwiseFp
  (** (sp, fp, lr) = (sp + 16x, fp, lr), only possible for the first frame *)
  | OffsetSp (sp_offset_by_16 : Z)
  (** (sp, fp, lr) = (sp + 16x, fp, lr) if is_first_frame *)
  | OffsetSpIfFirstFrameOtherwiseStackEndsHere (sp_offset_by_16 : Z)
  (** (sp, fp, lr) = (sp + 16x, fp, *(sp + 8y)) *)
  | OffsetSpAndRestoreLr (sp_offset_by_16 lr_storage_offset_from_sp_by_8 : Z)
  (** (sp, fp, lr) = (sp + 16x, *(sp + 8y), *(sp + 8z)) *)
  | OffsetSpAndRestoreFpAndLr
      (sp_offset_by_16 fp_storage_offset_from_sp_by_8 lr_storage_offset_from_sp_by_8 : Z)
  (** (sp, fp, lr) = (fp + 16, *fp, *(fp + 8)) *)
  | UseFramePointer
  (** (sp, fp, lr) = (fp + 8x, *(fp + 8y), *(fp + 8z)) *)
  | UseFramepointerWithOffsets
      (sp_offset_from_fp_by_8 fp_storage_offset_from_fp_by_8 lr_storage_offset_from_fp_by_8 : Z).

#[export] Instance UnwindRuleAarch64_eq_dec : EqDecision UnwindRuleAarch64.
Proof. solve_decision. Defined.

(** Reads the word at [base + 8 * offset_by_8]. *)
Definition read_at {S} (read_stack : stack_reader) (base offset_by_8 : Z) : exec_m S Z :=
  location ← no_overflow (checked_add_signed base (offset_by_8 * 8));
  read_word read_stack location.

(** The [match self] of [exec]: the new [(lr, sp, fp)], or [None] for the early
    [return Ok(None)]. *)
Definition new_lr_sp_fp (self : UnwindRuleAarch64) (is_first_frame : bool)
    (read_stack : stack_reader) : exec_m UnwindRegsAarch64 (option (Z * Z * Z)) :=
  regs ← st_get;
  let lr := lr regs in
  let sp := sp regs in
  let fp := fp regs in
  match self with
  | NoOp =>
      if negb is_first_frame then fail DidNotAdvance else mret (Some (lr, sp, fp))
  | NoOpIfFirstFrameOtherwiseFp =>
      if is_first_frame then mret (Some (lr, sp, fp))
      else
        new_sp ← no_overflow (checked_add 64 fp 16);
        new_lr ← read_word read_stack (fp +64 8);
        new_fp ← read_word read_stack fp;
        if new_sp <=? sp then fail FramepointerUnwindingMovedBackwards
        else mret (Some (new_lr, new_sp, new_fp))
  | OffsetSpIfFirstFrameOtherwiseStackEndsHere sp_offset_by_16 =>
      if negb is_first_frame then mret None
      else
        new_sp ← no_overflow (checked_add 64 sp (sp_offset_by_16 * 16));
        mret (Some (lr, new_sp, fp))
  | OffsetSp sp_offset_by_16 =>
      if negb is_first_frame then fail DidNotAdvance
      else
        new_sp ← no_overflow (checked_add 64 sp (sp_offset_by_16 * 16));
        mret (Some (lr, new_sp, fp))
  | OffsetSpAndRestoreLr sp_offset_by_16 lr_storage_offset_from_sp_by_8 =>
      new_sp ← no_overflow (checked_add 64 sp (sp_offset_by_16 * 16));
      new_lr ← read_at read_stack sp lr_storage_offset_from_sp_by_8;
      mret (Some (new_lr, new_sp, fp))
  | OffsetSpAndRestoreFpAndLr sp_offset_by_16 fp_storage_offset_from_sp_by_8
      lr_storage_offset_from_sp_by_8 =>
      new_sp ← no_overflow (checked_add 64 sp (sp_offset_by_16 * 16));
      new_lr ← read_at read_stack sp lr_storage_offset_from_sp_by_8;
      new_fp ← read_at read_stack sp fp_storage_offset_from_sp_by_8;
      mret (Some (new_lr, new_sp, new_fp))
  | UseFramePointer =>
      new_sp ← no_overflow (checked_add 64 fp 16);
      new_lr ← read_word read_stack (fp +64 8);
      new_fp ← read_word read_stack fp;
      if new_fp =? 0 then mret None
      else if (new_fp <=? fp) || (new_sp <=? sp) then fail FramepointerUnwindingMovedBackwards
      else mret (Some (new_lr, new_sp, new_fp))
  | UseFramepointerWithOffsets sp_offset_from_fp_by_8 fp_storage_offset_from_fp_by_8
      lr_storage_offset_from_fp_by_8 =>
      new_sp ← no_overflow (checked_add 64 fp (sp_offset_from_fp_by_8 * 8));
      new_lr ← read_at read_stack fp lr_storage_offset_from_fp_by_8;
      new_fp ← read_at read_stack fp fp_storage_offset_from_fp_by_8;
      if new_fp =? 0 then mret None
      else if (new_fp <=? fp) || (new_sp <=? sp) then fail FramepointerUnwindingMovedBackwards
      else mret (Some (new_lr, new_sp, new_fp))
  end.

Definition exec_aarch64 (self : UnwindRuleAarch64) (is_first_frame : bool)
    (read_stack : stack_reader) : exec_m UnwindRegsAarch64 (option Z) :=
  regs ← st_get;
  new ← new_lr_sp_fp self is_first_frame read_stack;
  match new with
  | None => mret None
  | Some (new_lr, new_sp, new_fp) =>
      let return_address := strip_ptr_auth (lr_mask regs) new_lr in
      if return_address =? 0 then mret None
      else if negb is_first_frame && (new_sp =? sp regs) then fail DidNotAdvance
      else
        _ ← st_modify (set_lr new_lr);
        _ ← st_modify (set_sp new_sp);
        _ ← st_modify (set_fp new_fp);
        mret (Some return_address)
  end.

#[export] Instance UnwindRule_aarch64 : UnwindRule UnwindRuleAarch64 UnwindRegsAarch64 := {
  exec := exec_aarch64;
  rule_for_stub_functions := NoOp;
  rule_for_function_start := NoOp;
  fallback_rule := UseFramePointer;
  regs_ip_sp := fun r => (None, sp r);
}.

Definition rule_wf (r : UnwindRuleAarch64) : Prop :=
  match r with
  | NoOp | NoOpIfFirstFrameOtherwiseFp | UseFramePointer => True
  | OffsetSp n | OffsetSpIfFirstFrameOtherwiseStackEndsHere n => u16 n
  | OffsetSpAndRestoreLr n z => u16 n /\ i16 z
  | OffsetSpAndRestoreFpAndLr n y z | UseFramepointerWithOffsets n y z => u16 n /\ i16 y /\ i16 z
  end.

(** ** The effect of each rule *)

(** Until the return address is known, the registers do not change. *)
Lemma new_lr_sp_fp_pure r first read_stack regs res regs' :
  new_lr_sp_fp r first read_stack regs = (res, regs') -> regs' = regs.
Proof. intros H. unfold new_lr_sp_fp, read_at in H. destruct r; by st_run. Qed.

Lemma new_lr_sp_fp_monotone r first read_stack regs new_lr new_sp new_fp regs' :
  rule_wf r -> new_lr_sp_fp r first read_stack regs = (Ok (Some (new_lr, new_sp, new_fp)), regs') ->
  sp regs <= new_sp.
Proof.
  intros Hwf H. unfold new_lr_sp_fp, read_at in H.
  destruct r; simpl in Hwf; st_run; bool_to_prop; checked_simpl; unfold in_u in *; lia.
Qed.

Lemma exec_aarch64_Some r first read_stack regs ra regs' :
  exec_aarch64 r first read_stack regs = (Ok (Some ra), regs') ->
  exists new_lr new_sp new_fp,
    new_lr_sp_fp r first read_stack regs = (Ok (Some (new_lr, new_sp, new_fp)), regs) /\
    ra = strip_ptr_auth (lr_mask regs) new_lr /\ ra <> 0 /\
    (first = false -> new_sp <> sp regs) /\
    regs' = MkRegsAarch64 (lr_mask regs) ra new_sp new_fp.
Proof.
  intros H. unfold exec_aarch64 in H. rewrite st_bind_spec, st_get_spec, st_bind_spec in H.
  destruct (new_lr_sp_fp r first read_stack regs) as [res mid] eqn:E.
  rewrite (new_lr_sp_fp_pure _ _ _ _ _ _ E) in *.
  destruct res as [[[[new_lr new_sp] new_fp]|]|]; [|by st_run..].
  st_run. bool_to_prop. eexists _, _, _. split_and!; try done.
  intros ->. match goal with H : _ \/ _ |- _ => destruct H; [done|] end. by bool_to_prop.
Qed.

Lemma exec_aarch64_other r first read_stack regs res regs' :
  exec_aarch64 r first read_stack regs = (res, regs') -> (forall ra, res <> Ok (Some ra)) ->
  regs' = regs.
Proof.
  intros H Hres. unfold exec_aarch64 in H. rewrite st_bind_spec, st_get_spec, st_bind_spec in H.
  destruct (new_lr_sp_fp r first read_stack regs) as [res1 mid] eqn:E.
  rewrite (new_lr_sp_fp_pure _ _ _ _ _ _ E) in *.
  destruct res1 as [[[[new_lr new_sp] new_fp]|]|]; st_run; naive_solver.
Qed.

(** Execution never panics. *)
Lemma exec_aarch64_no_panic r first read_stack regs : (exec_aarch64 r first read_stack regs).1 <> Err Panic.
Proof.
  destruct (exec_aarch64 r first read_stack regs) as [[|e] regs'] eqn:E; [done|]. cbn. intros [= ->].
  unfold exec_aarch64 in E. rewrite st_bind_spec, st_get_spec, st_bind_spec in E.
  destruct (new_lr_sp_fp r first read_stack regs) as [[[[[new_lr new_sp] new_fp]|]|e] mid] eqn:En; [by st_run..|].
  injection E as -> ->. unfold new_lr_sp_fp, read_at in En. destruct r; by st_run.
Qed.

#[export] Instance UnwindRuleLaws_aarch64 : UnwindRuleLaws UnwindRuleAarch64 UnwindRegsAarch64.
Proof.
  split; simpl.
  - intros r first rs regs ra regs' H. by apply exec_aarch64_Some in H as (? & ? & ? & _ & _ & ? & _).
  - intros r first rs regs res regs' H Hres. by rewrite (exec_aarch64_other _ _ _ _ _ _ H Hres).
Qed.

(** ** Properties *)

(** Stripping keeps exactly the low bits of the mask. *)
Lemma from_max_known_address_bits max :
  0 < max -> u64 max -> mask_bits (from_max_known_address max) = Z.ones (Z.log2 max + 1).
Proof.
  intros H0 Hmax. unfold from_max_known_address, leading_zeros. simpl.
  rewrite (proj2 (Z.eqb_neq max 0)) by lia.
  assert (0 <= Z.log2 max < 64) as Hl.
  { split; [apply Z.log2_nonneg|]. apply Z.log2_lt_pow2; [lia|]. apply Hmax. }
  rewrite Z.mod_small by lia. rewrite Z.shiftr_div_pow2 by lia.
  change u64_MAX with (2 ^ 64 - 1). rewrite Z.ones_equiv, <- Z.sub_1_r.
  assert (2 ^ 64 = 2 ^ (Z.log2 max + 1) * 2 ^ (64 - 1 - Z.log2 max)) as Hs.
  { rewrite <- Z.pow_add_r by lia. f_equal. lia. }
  symmetry. apply (Z.div_unique_pos _ _ _ (2 ^ (64 - 1 - Z.log2 max) - 1)).
  - pose proof (Z.pow_pos_nonneg 2 (64 - 1 - Z.log2 max)). lia.
  - rewrite Hs. lia.
Qed.

(** The mask deduced from the highest known code address only removes bits
    that no code address uses. Every address up to the highest one survives
    stripping whatever hash is added above its bits, the stripped pointer never
    exceeds the next power of two, and stripping twice changes nothing. *)
Theorem strip_ptr_auth_recovers max address hash
    (Hmax : u64 max) (Hpos : 0 < max) (Haddr : 0 <= address <= max) (Hhash : 0 <= hash) :
  let mask := from_max_known_address max in
  let signed := Z.lor address (Z.shiftl hash (64 - leading_zeros 64 max)) in
  strip_ptr_auth mask signed = address /\
  strip_ptr_auth mask signed < 2 ^ (64 - leading_zeros 64 max) /\
  strip_ptr_auth mask (strip_ptr_auth mask signed) = strip_ptr_auth mask signed.
Proof.
  cbn zeta. unfold strip_ptr_auth. rewrite from_max_known_address_bits by done.
  unfold leading_zeros. rewrite (proj2 (Z.eqb_neq max 0)) by lia.
  pose proof (Z.log2_nonneg max) as Hl.
  replace (64 - (64 - 1 - Z.log2 max)) with (Z.log2 max + 1) by lia.
  assert (Hlt : address < 2 ^ (Z.log2 max + 1)).
  { rewrite Z.add_1_r. pose proof (Z.log2_spec max Hpos). lia. }
  assert (Hs : Z.land (Z.lor address (Z.shiftl hash (Z.log2 max + 1))) (Z.ones (Z.log2 max + 1)) = address).
  { rewrite Z.land_lor_distr_l, Z.land_ones, Z.mod_small by lia.
    rewrite Z.land_ones, Z.shiftl_mul_pow2, Z.mod_mul by lia. apply Z.lor_0_r. }
  rewrite Hs. split_and!; [done|done|].
  rewrite Z.land_ones by lia. apply Z.mod_small. lia.
Qed.

Lemma strip_ptr_auth_recovers_witness :
  strip_ptr_auth (from_max_known_address 0x22a3ccff7) 0xbeef000122a3ccf0 = 0x122a3ccf0.
Proof.
  apply (strip_ptr_auth_recovers 0x22a3ccff7 0x122a3ccf0 (Z.shiftr 0xbeef000122a3ccf0 34));
    [unfold in_u; lia|lia|lia|vm_compute; done].
Defined.

(** On aarch64 every frame but the first moves the stack pointer strictly up,
    and the first never moves it down; the return address handed out and the new
    [lr] are the same stripped, nonnull value. *)
Theorem exec_aarch64_advances r first read_stack regs ra regs'
    (Hwf : rule_wf r)
    (H : exec_aarch64 r first read_stack regs = (Ok (Some ra), regs')) :
  (if first then sp regs <= sp regs' else sp regs < sp regs') /\
  ra <> 0 /\ lr regs' = ra /\ lr_mask regs' = lr_mask regs /\
  strip_ptr_auth (lr_mask regs) ra = ra.
Proof.
  apply exec_aarch64_Some in H as (new_lr & new_sp & new_fp & H & -> & Hne & Hmoved & ->).
  apply new_lr_sp_fp_monotone in H as Hle; [|done]. simpl.
  split_and!; [|done..|].
  - destruct first; [done|]. specialize (Hmoved eq_refl). lia.
  - unfold strip_ptr_auth. by rewrite <- Z.land_assoc, Z.land_diag.
Qed.

Lemma exec_aarch64_advances_witness :
  let read_stack (a : Z) := Some (a + 0x1000) in
  let regs' := (exec_aarch64 UseFramePointer false read_stack (regs_new 1 0x10 0x20)).2 in
  0x10 < sp regs'.
Proof.
  cbn zeta.
  apply (exec_aarch64_advances UseFramePointer false (fun a => Some (a + 0x1000)) (regs_new 1 0x10 0x20)
           0x1028); [done|by vm_compute].
Defined.
