(* ===== verification/Images.v ===== *)
(** * What the enumerators of loaded images share

    Reading a process's memory, fingerprints ([fingerprint_of] of
    [src/src/modules/mod.rs]) and the fixed-width names of section tables
    ([name_eq] of [modules/macho.rs], [section_name_eq] of [modules/pe.rs]). *)
From S2P Require Import Prelude.

(** ** Memory *)

(** The [len] bytes at [addr] of a memory. *)
Definition slice_at (memory : Z -> Z) (addr len : Z) : list Z :=
  (fun i => memory (addr + i)) <$> seqZ 0 len.

(** A little-endian word of [n] bytes at [addr]. *)
Definition word_at (memory : Z -> Z) (n : nat) (addr : Z) : Z :=
  from_le_bytes (slice_at memory addr (Z.of_nat n)).

Lemma length_slice_at memory addr len : length (slice_at memory addr len) = Z.to_nat len.
Proof. unfold slice_at. by rewrite length_fmap, length_seqZ. Qed.

Lemma slice_at_u8 memory p len : (forall a, u8 (memory a)) -> Forall u8 (slice_at memory p len).
Proof. intros Hm. apply Forall_fmap, Forall_forall. intros i _. apply Hm. Qed.

Lemma slice_at_lookup memory addr len (i : nat) :
  (i < Z.to_nat len)%nat -> slice_at memory addr len !! i = Some (memory (addr + Z.of_nat i)).
Proof.
  intros Hi. unfold slice_at. rewrite list_lookup_fmap, (lookup_seqZ_lt 0 len) by lia. done.
Qed.

(** The bytes from an offset on. *)
Lemma slice_at_drop memory addr len k :
  0 <= k <= len -> drop (Z.to_nat k) (slice_at memory addr len) = slice_at memory (addr + k) (len - k).
Proof.
  intros Hk. apply list_eq. intros i. rewrite lookup_drop.
  destruct (decide (i < Z.to_nat (len - k))%nat) as [Hi|Hi].
  - rewrite !slice_at_lookup by lia. do 2 f_equal. lia.
  - rewrite !lookup_ge_None_2 by (rewrite length_slice_at; lia). done.
Qed.

Lemma word_at_range memory n addr :
  (forall a, u8 (memory a)) -> 0 <= word_at memory n addr < 2 ^ (8 * Z.of_nat n).
Proof.
  intros Hm. unfold word_at. pose proof (from_le_bytes_range _ (slice_at_u8 memory addr (Z.of_nat n) Hm)) as Hr.
  by rewrite length_slice_at, Nat2Z.id in Hr.
Qed.

(** [{:x}] of a word: its digits, without leading zeros. *)
Definition hex_digit (d : Z) : string :=
  default "" (["0"; "1"; "2"; "3"; "4"; "5"; "6"; "7"; "8"; "9"; "a"; "b"; "c"; "d"; "e"; "f"]%string !! Z.to_nat d).

Fixpoint lower_hex (fuel : nat) (v : Z) : string :=
  match fuel with
  | O => ""
  | S fuel => if v <? 16 then hex_digit v else lower_hex fuel (v / 16) +:+ hex_digit (v mod 16)
  end.

(** [{:#x}] of a 64-bit word, which has at most 16 digits. *)
Definition hex_address (v : Z) : string := "0x" +:+ lower_hex 16 v.

(** The bytes of a literal. *)
Definition bytes_of_string (s : string) : list Z := (fun c => Z.of_nat (Ascii.nat_of_ascii c)) <$> String.list_ascii_of_string s.

(** ** Fingerprints: [Hash] of slices into a [DefaultHasher] *)

(** The hasher of the standard library, whose algorithm is not specified. *)
Class DefaultHasher : Type := {
  hasher : Type;
  hasher_new : hasher;
  hasher_write : hasher -> list Z -> hasher;
  hasher_finish : hasher -> Z;
}.

Section fingerprint.
  Context `{DefaultHasher}.

(** A slice is hashed as its length and then its bytes. *)
Definition hash_slice (length : nat) (bytes : list Z) (h : hasher) : hasher :=
  hasher_write (hasher_write h (to_le_bytes 8 (Z.of_nat length))) bytes.

Definition fingerprint_of (parts : list Z) (name : list Z) : Z :=
  let h := hasher_new in
  let h := hash_slice (length parts) (concat (to_le_bytes 8 <$> parts)) h in
  let h := hash_slice (length name) name h in
  hasher_finish h.
End fingerprint.

(** ** Names in fixed-width fields *)

(** The loop over the name: [field[i]] against each byte; the [None] of the lookup is
    the panic of an index out of bounds. *)
Fixpoint name_prefix (field name : list Z) (i : nat) : bool :=
  match name with
  | [] => true
  | b :: name => bool_decide (field !! i = Some b) && name_prefix field name (S i)
  end.

(** [name_eq] of a field of [width] bytes: the name, and then a NUL unless it fills the
    field. *)
Definition name_eq (width : nat) (field name : list Z) : bool :=
  if (width <? length name)%nat then false
  else if negb (name_prefix field name 0) then false
  else (length name =? width)%nat || bool_decide (field !! length name = Some 0).

(** The bytes of a field up to its first NUL. *)
Fixpoint until_nul (field : list Z) : list Z :=
  match field with
  | [] => []
  | b :: field => if b =? 0 then [] else b :: until_nul field
  end.

Lemma name_prefix_spec field name i :
  name_prefix field name i = bool_decide (name `prefix_of` drop i field).
Proof.
  revert i. induction name as [|b name IH]; intros i; cbn [name_prefix].
  - symmetry. apply bool_decide_true, prefix_nil.
  - rewrite IH. destruct (field !! i) as [c|] eqn:Ei.
    + rewrite (drop_S _ _ _ Ei). rewrite <- bool_decide_and. apply bool_decide_ext. split.
      * intros [[= ->] Hp]. by apply prefix_cons.
      * intros Hp. apply prefix_cons_inv_1 in Hp as Hc. apply prefix_cons_inv_2 in Hp. by subst.
    + rewrite (bool_decide_false (None = Some b)) by done. symmetry. apply bool_decide_false.
      apply lookup_ge_None in Ei. rewrite drop_ge by done. by apply prefix_nil_not.
Qed.

(** A comparison decides whether the field spells the name. *)
Lemma name_eq_spec width field name :
  length field = width -> Forall (fun b => b <> 0) name ->
  name_eq width field name = bool_decide (until_nul field = name).
Proof.
  intros Hw Hn. unfold name_eq. rewrite name_prefix_spec, drop_0. revert name Hn width Hw.
  induction field as [|c field IH]; intros name Hn width Hw; cbn [length] in Hw; subst width.
  - destruct name as [|b name]; [done|]. cbn. by rewrite bool_decide_false.
  - destruct name as [|b name].
    + rewrite (bool_decide_true ([] `prefix_of` _)) by apply prefix_nil. cbn [until_nul].
      destruct (Z.eqb_spec c 0) as [->|Hc]; [done|]. cbn. rewrite !bool_decide_false; [done..|]. congruence.
    + apply Forall_cons in Hn as [Hb Hn]. specialize (IH name Hn _ eq_refl). cbn [length until_nul].
      change (S (length field) <? S (length name))%nat with (length field <? length name)%nat.
      change (S (length name) =? S (length field))%nat with (length name =? length field)%nat.
      change ((c :: field) !! S (length name)) with (field !! length name). destruct (Z.eqb_spec c 0) as [->|Hc].
      * rewrite (bool_decide_false ([] = b :: name)) by done.
        rewrite (bool_decide_false (b :: name `prefix_of` 0 :: field)); [by destruct (length field <? length name)%nat|].
        intros ->%prefix_cons_inv_1. done.
      * destruct (decide (b = c)) as [->|Hbc].
        -- rewrite (bool_decide_ext (c :: name `prefix_of` c :: field) (name `prefix_of` field));
             [|split; [apply prefix_cons_inv_2|apply prefix_cons]].
           rewrite (bool_decide_ext (c :: until_nul field = c :: name) (until_nul field = name)) by naive_solver.
           exact IH.
        -- rewrite (bool_decide_false (c :: until_nul field = b :: name)) by congruence.
           rewrite (bool_decide_false (b :: name `prefix_of` c :: field)); [by destruct (length field <? length name)%nat|].
           intros ->%prefix_cons_inv_1. done.
Qed.
