(* ===== verification/Sections.v ===== *)
(** * Sections of a module

    Models the section interface of [vendor/framehop/src/unwinder.rs]
    ([ModuleSectionInfo], [ExplicitModuleSectionInfo]), the byte ranges that are
    kept from it, and [base_addresses_for_sections] of [dwarf.rs]. *)
From S2P Require Import Prelude UnwindRule.

(** [&mut self] methods: the section information and the result. *)
Abbreviation section_m S A := (S -> A * S).

Class ModuleSectionInfo (D S : Type) : Type := {
  base_svma_of : S -> Z;
  section_svma_range : string -> section_m S (option range);
  section_data : string -> section_m S (option D);
  segment_svma_range : string -> section_m S (option range);
  segment_data : string -> section_m S (option D);
}.

(** The trait's default methods for segments. *)
Definition default_segment_svma_range {S} (_ : string) : section_m S (option range) := fun s => (None, s).
Definition default_segment_data {D S} (_ : string) : section_m S (option D) := fun s => (None, s).

Record ExplicitModuleSectionInfo (D : Type) : Type := MkExplicit {
  ex_base_svma : Z;
  text_svma : option range;
  text : option D;
  stubs_svma : option range;
  stub_helper_svma : option range;
  got_svma : option range;
  unwind_info : option D;
  eh_frame_svma : option range;
  eh_frame : option D;
  eh_frame_hdr_svma : option range;
  eh_frame_hdr : option D;
  debug_frame : option D;
  text_segment_svma : option range;
  text_segment : option D;
}.
Arguments MkExplicit {D}.
Arguments ex_base_svma {D}.
Arguments text_svma {D}.
Arguments text {D}.
Arguments stubs_svma {D}.
Arguments stub_helper_svma {D}.
Arguments got_svma {D}.
Arguments unwind_info {D}.
Arguments eh_frame_svma {D}.
Arguments eh_frame {D}.
Arguments eh_frame_hdr_svma {D}.
Arguments eh_frame_hdr {D}.
Arguments debug_frame {D}.
Arguments text_segment_svma {D}.
Arguments text_segment {D}.

(** [Default::default()]. *)
Definition explicit_default {D} : ExplicitModuleSectionInfo D :=
  MkExplicit 0 None None None None None None None None None None None None None.

(** The data fields after the others have been fixed: [take] leaves [None]. *)
Definition with_data {D} (i : ExplicitModuleSectionInfo D) text' ui eh hdr dbg seg : ExplicitModuleSectionInfo D :=
  MkExplicit (ex_base_svma i) (text_svma i) text' (stubs_svma i) (stub_helper_svma i) (got_svma i) ui
    (eh_frame_svma i) eh (eh_frame_hdr_svma i) hdr dbg (text_segment_svma i) seg.

Definition explicit_svma_range {D} (name : string) : section_m (ExplicitModuleSectionInfo D) (option range) :=
  fun i =>
  (if bool_decide (name = "__text" \/ name = ".text")%string then text_svma i
   else if bool_decide (name = "__stubs")%string then stubs_svma i
   else if bool_decide (name = "__stub_helper")%string then stub_helper_svma i
   else if bool_decide (name = "__eh_frame" \/ name = ".eh_frame")%string then eh_frame_svma i
   else if bool_decide (name = "__eh_frame_hdr" \/ name = ".eh_frame_hdr")%string then eh_frame_hdr_svma i
   else if bool_decide (name = "__got" \/ name = ".got")%string then got_svma i
   else None, i).

Definition explicit_section_data {D} (name : string) : section_m (ExplicitModuleSectionInfo D) (option D) :=
  fun i =>
  if bool_decide (name = "__text" \/ name = ".text")%string then
    (text i, with_data i None (unwind_info i) (eh_frame i) (eh_frame_hdr i) (debug_frame i) (text_segment i))
  else if bool_decide (name = "__unwind_info")%string then
    (unwind_info i, with_data i (text i) None (eh_frame i) (eh_frame_hdr i) (debug_frame i) (text_segment i))
  else if bool_decide (name = "__eh_frame" \/ name = ".eh_frame")%string then
    (eh_frame i, with_data i (text i) (unwind_info i) None (eh_frame_hdr i) (debug_frame i) (text_segment i))
  else if bool_decide (name = "__eh_frame_hdr" \/ name = ".eh_frame_hdr")%string then
    (eh_frame_hdr i, with_data i (text i) (unwind_info i) (eh_frame i) None (debug_frame i) (text_segment i))
  else if bool_decide (name = "__debug_frame" \/ name = ".debug_frame")%string then
    (debug_frame i, with_data i (text i) (unwind_info i) (eh_frame i) (eh_frame_hdr i) None (text_segment i))
  else (None, i).

Definition explicit_segment_svma_range {D} (name : string) : section_m (ExplicitModuleSectionInfo D) (option range) :=
  fun i => (if bool_decide (name = "__TEXT")%string then text_segment_svma i else None, i).

Definition explicit_segment_data {D} (name : string) : section_m (ExplicitModuleSectionInfo D) (option D) :=
  fun i =>
  if bool_decide (name = "__TEXT")%string then
    (text_segment i, with_data i (text i) (unwind_info i) (eh_frame i) (eh_frame_hdr i) (debug_frame i) None)
  else (None, i).

#[export] Instance ModuleSectionInfo_explicit D : ModuleSectionInfo D (ExplicitModuleSectionInfo D) := {
  base_svma_of := ex_base_svma;
  section_svma_range := explicit_svma_range;
  section_data := explicit_section_data;
  segment_svma_range := explicit_segment_svma_range;
  segment_data := explicit_segment_data;
}.

(** gimli's [BaseAddresses], as its builder fills it. *)
Record BaseAddresses : Type := MkBases {
  base_eh_frame : option Z;
  base_eh_frame_hdr : option Z;
  base_text : option Z;
  base_got : option Z;
}.

(** [BaseAddresses::default()]. *)
Definition no_bases : BaseAddresses := MkBases None None None None.

Section bases.
  Context {D S : Type} `{ModuleSectionInfo D S}.

(** [names.iter().find_map(..)]: names after the first that is found are not asked for. *)
Fixpoint start_addr (names : list string) (s : S) : Z * S :=
  match names with
  | [] => (0, s)
  | name :: names' =>
      let '(r, s) := section_svma_range name s in
      match r with
      | Some r => (r_start r, s)
      | None => start_addr names' s
      end
  end.

Definition base_addresses_for_sections (s : S) : BaseAddresses * S :=
  let '(eh_frame, s) := start_addr ["__eh_frame"; ".eh_frame"]%string s in
  let '(eh_frame_hdr, s) := start_addr ["__eh_frame_hdr"; ".eh_frame_hdr"]%string s in
  let '(text, s) := start_addr ["__text"; ".text"]%string s in
  let '(got, s) := start_addr ["__got"; ".got"]%string s in
  (MkBases (Some eh_frame) (Some eh_frame_hdr) (Some text) (Some got), s).
End bases.

(** ** What explicit section information answers *)

Section explicit.
  Context {D : Type}.
  Implicit Types i : ExplicitModuleSectionInfo D.

Lemma data_u_unwind_info i : section_data "__unwind_info" i = (unwind_info i, with_data i (text i) None (eh_frame i) (eh_frame_hdr i) (debug_frame i) (text_segment i)).
Proof. reflexivity. Qed.
Lemma data_u_eh_frame i : section_data "__eh_frame" i = (eh_frame i, with_data i (text i) (unwind_info i) None (eh_frame_hdr i) (debug_frame i) (text_segment i)).
Proof. reflexivity. Qed.
Lemma data_dot_eh_frame i : section_data ".eh_frame" i = (eh_frame i, with_data i (text i) (unwind_info i) None (eh_frame_hdr i) (debug_frame i) (text_segment i)).
Proof. reflexivity. Qed.
Lemma data_dot_eh_frame_hdr i : section_data ".eh_frame_hdr" i = (eh_frame_hdr i, with_data i (text i) (unwind_info i) (eh_frame i) None (debug_frame i) (text_segment i)).
Proof. reflexivity. Qed.
Lemma data_u_eh_frame_hdr i : section_data "__eh_frame_hdr" i = (eh_frame_hdr i, with_data i (text i) (unwind_info i) (eh_frame i) None (debug_frame i) (text_segment i)).
Proof. reflexivity. Qed.
Lemma data_dot_debug_frame i : section_data ".debug_frame" i = (debug_frame i, with_data i (text i) (unwind_info i) (eh_frame i) (eh_frame_hdr i) None (text_segment i)).
Proof. reflexivity. Qed.
Lemma data_u_text i : section_data "__text" i = (text i, with_data i None (unwind_info i) (eh_frame i) (eh_frame_hdr i) (debug_frame i) (text_segment i)).
Proof. reflexivity. Qed.
Lemma data_dot_pdata i : section_data (D := D) ".pdata" i = (None, i).
Proof. reflexivity. Qed.
Lemma range_u_stubs i : section_svma_range (D := D) "__stubs" i = (stubs_svma i, i).
Proof. reflexivity. Qed.
Lemma range_u_stub_helper i : section_svma_range (D := D) "__stub_helper" i = (stub_helper_svma i, i).
Proof. reflexivity. Qed.
Lemma range_u_text i : section_svma_range (D := D) "__text" i = (text_svma i, i).
Proof. reflexivity. Qed.
Lemma segment_data_TEXT i : segment_data "__TEXT" i =
  (text_segment i, with_data i (text i) (unwind_info i) (eh_frame i) (eh_frame_hdr i) (debug_frame i) None).
Proof. reflexivity. Qed.
Lemma segment_range_TEXT i : segment_svma_range (D := D) "__TEXT" i = (text_segment_svma i, i).
Proof. reflexivity. Qed.
End explicit.

Create Rewrite HintDb sections.
#[export] Hint Rewrite @data_u_unwind_info @data_u_eh_frame @data_dot_eh_frame @data_dot_eh_frame_hdr @data_u_eh_frame_hdr @data_dot_debug_frame @data_u_text @data_dot_pdata @range_u_stubs @range_u_stub_helper @range_u_text @segment_data_TEXT @segment_range_TEXT : sections.

(** For explicit section information, the stated start of each section or 0. *)
Lemma explicit_bases {D} (i : ExplicitModuleSectionInfo D) :
  base_addresses_for_sections i =
    (MkBases (Some (default 0 (r_start <$> eh_frame_svma i))) (Some (default 0 (r_start <$> eh_frame_hdr_svma i)))
       (Some (default 0 (r_start <$> text_svma i))) (Some (default 0 (r_start <$> got_svma i))), i).
Proof.
  unfold base_addresses_for_sections, start_addr. simpl. unfold explicit_svma_range.
  simpl. destruct i as [? [] ? ? ? [] ? [] ? []]; reflexivity.
Qed.

(** [TextByteData] and [DataAtRvaRange]: bytes with where they belong. *)
Record TextByteData (D : Type) : Type := MkTextByteData { td_bytes : D; svma_range : range }.
Arguments MkTextByteData {D}.
Arguments td_bytes {D}.
Arguments svma_range {D}.

Record DataAtRvaRange (D : Type) : Type := MkDataAtRvaRange { data : D; rva_range : range }.
Arguments MkDataAtRvaRange {D}.
Arguments data {D}.
Arguments rva_range {D}.
