(* ===== verification/Dwarf.v ===== *)
(** * DWARF unwinding

    Models [vendor/framehop/src/dwarf.rs]: evaluating the rules of an unwind table
    row, finding the FDE of an address and the index of FDEs that is built when a
    module has no [.eh_frame_hdr]. The sections are parsed by the gimli crate: its
    types and functions are the class [Gimli]. *)
From S2P Require Import Prelude Slices AddSigned UnwindRule Sections.

(** ** What gimli provides *)

(** A row's rule for a register and for the CFA. *)
Inductive RegisterRule (X : Type) : Type :=
  | RR_Undefined
  | RR_SameValue
  | RR_Offset (offset : Z)
  | RR_ValOffset (offset : Z)
  | RR_Register (register : Z)
  | RR_Expression (expr : X)
  | RR_ValExpression (expr : X)
  | RR_Architectural
  (** The enum is non-exhaustive. *)
  | RR_Other.
Arguments RR_Undefined {X}.
Arguments RR_SameValue {X}.
Arguments RR_Offset {X}.
Arguments RR_ValOffset {X}.
Arguments RR_Register {X}.
Arguments RR_Expression {X}.
Arguments RR_ValExpression {X}.
Arguments RR_Architectural {X}.
Arguments RR_Other {X}.

Inductive CfaRule (X : Type) : Type :=
  | Cfa_RegisterAndOffset (register offset : Z)
  | Cfa_Expression (expr : X).
Arguments Cfa_RegisterAndOffset {X}.
Arguments Cfa_Expression {X}.

Inductive Location : Type :=
  | Address (address : Z)
  | OtherLocation.

(** An [Evaluation] as its user sees it: what [evaluate] and each [resume_with_..]
    answer, until it is complete. The tree is finite: the code relies on the
    evaluation of an expression coming to an end. *)
Inductive evaluation : Type :=
  | Complete (result : list Location)
  | RequiresRegister (register : Z) (resume : Z -> evaluation)
  | RequiresMemory (address size : Z) (space : option Z) (resume : Z -> evaluation)
  | RequiresOther
  | EvaluationFailed.

Inductive UnwindSectionType : Type :=
  | EhFrame
  | DebugFrame.

(** A section with [set_address_size]. *)
Record UnwindSection : Type := MkUnwindSection {
  us_type : UnwindSectionType;
  us_data : list Z;
  us_address_size : Z;
}.

Inductive CieOrFde (CIE PF : Type) : Type :=
  | CF_Cie (cie : CIE)
  | CF_Fde (partial_fde : PF).
Arguments CF_Cie {CIE PF}.
Arguments CF_Fde {CIE PF}.

(** [C] is the [UnwindContext]. *)
Class Gimli (C : Type) : Type := {
  GError : Type;
  UnwindExpression : Type;
  Expression : Type;
  Encoding : Type;
  Cie : Type;
  PartialFde : Type;
  Fde : Type;
  UnwindTableRow : Type;
  ParsedEhFrameHdr : Type;
  HdrTable : Type;
  Pointer : Type;
  expression_get : UnwindSection -> UnwindExpression -> option Expression;
  evaluation_new : Expression -> Encoding -> evaluation;
  (** [EhFrameHdr::new(data).parse(&bases, address_size).ok()]. *)
  parse_eh_frame_hdr : list Z -> BaseAddresses -> Z -> option ParsedEhFrameHdr;
  hdr_table : ParsedEhFrameHdr -> option HdrTable;
  table_lookup : HdrTable -> Z -> BaseAddresses -> option Pointer;
  pointer_to_offset : HdrTable -> Pointer -> option Z;
  (** What the iterator over the entries yields, up to its end or first error. *)
  section_entries : UnwindSection -> BaseAddresses -> list (result GError (CieOrFde Cie PartialFde));
  cie_from_offset : UnwindSection -> BaseAddresses -> Z -> result GError Cie;
  cie_offset : Cie -> Z;
  (** [partial.parse(get_cie)] asks for the CIE at this offset and then finishes. *)
  partial_cie_offset : PartialFde -> Z;
  parse_with_cie : PartialFde -> Cie -> result GError Fde;
  fde_from_offset : UnwindSection -> BaseAddresses -> Z -> result GError Fde;
  fde_offset : Fde -> Z;
  initial_address : Fde -> Z;
  fde_len : Fde -> Z;
  fde_encoding : Fde -> Encoding;
  is_signal_trampoline : Fde -> bool;
  unwind_info_for_address :
    Fde -> UnwindSection -> BaseAddresses -> C -> Z -> result GError UnwindTableRow * C;
  row_cfa : UnwindTableRow -> CfaRule UnwindExpression;
  row_register : UnwindTableRow -> Z -> option (RegisterRule UnwindExpression);
}.

(** ** Evaluating rules *)

(** The trait [DwarfUnwindRegs]; DWARF numbers the registers. *)
Class DwarfUnwindRegs (Regs : Type) : Type := dwarf_get : Regs -> Z -> option Z.

Inductive DwarfUnwinderError (GE : Type) : Type :=
  | FdeFromOffsetFailed (e : GE)
  | UnwindInfoForAddressFailed (e : GE)
  | StackPointerMovedBackwards
  | DwarfDidNotAdvance
  | CouldNotRecoverCfa
  | CouldNotRecoverReturnAddress
  | CouldNotRecoverFramePointer.
Arguments FdeFromOffsetFailed {GE}.
Arguments UnwindInfoForAddressFailed {GE}.
Arguments StackPointerMovedBackwards {GE}.
Arguments DwarfDidNotAdvance {GE}.
Arguments CouldNotRecoverCfa {GE}.
Arguments CouldNotRecoverReturnAddress {GE}.
Arguments CouldNotRecoverFramePointer {GE}.

Inductive ConversionError : Type :=
  | CfaIsExpression
  | CfaIsOffsetFromUnknownRegister
  | ReturnAddressRuleWithUnexpectedOffset
  | ReturnAddressRuleWasWeird
  | SpOffsetDoesNotFit
  | RegisterNotStoredRelativeToCfa
  | RestoringFpButNotLr
  | LrStorageOffsetDoesNotFit
  | FpStorageOffsetDoesNotFit
  | SpOffsetFromFpDoesNotFit
  | FramePointerRuleDoesNotRestoreLr
  | FramePointerRuleDoesNotRestoreFp
  | FramePointerRuleDoesNotRestoreBp
  | FramePointerRuleHasStrangeBpOffset.

(** [u64::try_from(i64::try_from(x).ok()?.checked_add(offset)?).ok()]. *)
Definition add_i64 (x offset : Z) : option Z :=
  x ← try_s 64 x;
  y ← checked_add_s 64 x offset;
  try_u 64 y.

Lemma add_i64_Some x o r : add_i64 x o = Some r <-> r = x + o /\ i64 x /\ 0 <= x + o < 2 ^ 63.
Proof.
  unfold add_i64. destruct (try_s 64 x) as [y|] eqn:E; simpl.
  - apply try_s_Some in E as [-> Hx]. unfold checked_add_s.
    destruct (try_s 64 (x + o)) as [z|] eqn:E2; simpl.
    + apply try_s_Some in E2 as [-> Hz]. rewrite try_u_Some. unfold in_u, in_s in *. naive_solver lia.
    + split; [done|]. intros (-> & _ & ?). exfalso. assert (try_s 64 (x + o) = Some (x + o)); [|congruence].
      apply try_s_Some. unfold in_s. split; [done|lia].
  - split; [done|]. intros (-> & Hx & _). exfalso. assert (try_s 64 x = Some x); [|congruence]. by apply try_s_Some.
Qed.

Section eval.
  Context {C Regs : Type} `{Gimli C} `{DwarfUnwindRegs Regs}.

(** The loop of [eval_expr]: answers what the evaluation asks for. *)
Fixpoint eval_loop (e : evaluation) (regs : Regs) (read_stack : stack_reader) : option Z :=
  match e with
  | Complete locations =>
      match last locations with
      | Some (Address address) => Some address
      | _ => None
      end
  | RequiresRegister register resume =>
      match dwarf_get regs register with
      | Some value => eval_loop (resume value) regs read_stack
      | None => None
      end
  | RequiresMemory address size space resume =>
      if (size =? 8) && bool_decide (space = None) then
        match read_stack address with
        | Some value => eval_loop (resume value) regs read_stack
        | None => None
        end
      else None
  | RequiresOther => None
  | EvaluationFailed => None
  end.

Definition eval_expr (expr : Expression) (encoding : Encoding) (regs : Regs) (read_stack : stack_reader) :
    option Z :=
  eval_loop (evaluation_new expr encoding) regs read_stack.

Definition eval_cfa_rule (section : UnwindSection) (rule : CfaRule UnwindExpression) (encoding : Encoding)
    (regs : Regs) (read_stack : stack_reader) : option Z :=
  match rule with
  | Cfa_RegisterAndOffset register offset =>
      val ← dwarf_get regs register;
      add_i64 val offset
  | Cfa_Expression expr =>
      expr ← expression_get section expr;
      eval_expr expr encoding regs read_stack
  end.

Definition eval_register_rule (section : UnwindSection) (rule : option (RegisterRule UnwindExpression))
    (cfa : Z) (encoding : Encoding) (val : Z) (regs : Regs) (read_stack : stack_reader) : option Z :=
  rule ← rule;
  match rule with
  | RR_Undefined => None
  | RR_SameValue => Some val
  | RR_Offset offset =>
      cfa_plus_offset ← add_i64 cfa offset;
      read_stack cfa_plus_offset
  | RR_ValOffset offset => add_i64 cfa offset
  | RR_Register register => dwarf_get regs register
  | RR_Expression expr =>
      expr ← expression_get section expr;
      val ← eval_expr expr encoding regs read_stack;
      read_stack val
  | RR_ValExpression expr =>
      expr ← expression_get section expr;
      eval_expr expr encoding regs read_stack
  | RR_Architectural => None
  | RR_Other => None
  end.
End eval.

(** ** The unwinder of one section *)

(** The trait [DwarfUnwinding]. *)
Class DwarfUnwinding (C R Regs : Type) `{Gimli C} : Type := {
  dwarf_unwind_frame : UnwindSection -> UnwindTableRow -> Encoding -> bool -> bool -> stack_reader ->
    ST Regs (DwarfUnwinderError GError) (UnwindResult R);
  rule_if_uncovered_by_fde : R;
}.

(** A rule is decided by the row alone, and giving one changes no register. *)
Class DwarfUnwindingLaws (C R Regs : Type) `{DwarfUnwinding C R Regs} : Prop :=
  dwarf_rule_fixed : forall section row enc first1 first2 signal rs1 rs2 regs1 regs2 rule regs',
    dwarf_unwind_frame section row enc first1 signal rs1 regs1 = (Ok (ExecRule rule), regs') ->
    dwarf_unwind_frame section row enc first2 signal rs2 regs2 = (Ok (ExecRule rule), regs2).

Section unwinder.
  Context {C R Regs : Type} `{Gimli C} `{!DwarfUnwinding C R Regs}.

(** The unwind context is not a field: it is the cache's, and threaded. *)
Record DwarfUnwinder : Type := MkDwarfUnwinder {
  unwind_section_data : list Z;
  unwind_section_type : UnwindSectionType;
  du_eh_frame_hdr : option ParsedEhFrameHdr;
  du_base_svma : Z;
  du_bases : BaseAddresses;
}.

Definition DwarfUnwinder_new (section_data : list Z) (section_type : UnwindSectionType)
    (eh_frame_hdr_data : option (list Z)) (bases : BaseAddresses) (base_svma : Z) : DwarfUnwinder :=
  MkDwarfUnwinder section_data section_type
    (eh_frame_hdr_data ≫= fun d => parse_eh_frame_hdr d bases 8) base_svma bases.

Definition get_fde_offset_for_relative_address (self : DwarfUnwinder) (rel_lookup_address : Z) : option Z :=
  let lookup_svma := du_base_svma self +64 rel_lookup_address in
  eh_frame_hdr ← du_eh_frame_hdr self;
  table ← hdr_table eh_frame_hdr;
  fde_ptr ← table_lookup table lookup_svma (du_bases self);
  fde_offset ← pointer_to_offset table fde_ptr;
  try_u 32 fde_offset.

Definition unwind_info_for_fde (self : DwarfUnwinder) (section : UnwindSection) (lookup_svma fde_off : Z)
    (ctx : C) : result (DwarfUnwinderError GError) (UnwindTableRow * Encoding * bool) * C :=
  match fde_from_offset section (du_bases self) fde_off with
  | Err e => (Err (FdeFromOffsetFailed e), ctx)
  | Ok fde =>
      match unwind_info_for_address fde section (du_bases self) ctx lookup_svma with
      | (Ok row, ctx) => (Ok (row, fde_encoding fde, is_signal_trampoline fde), ctx)
      | (Err e, ctx) => (Err (UnwindInfoForAddressFailed e), ctx)
      end
  end.

(** The two arms of the source differ in the type of the section only. *)
Definition unwind_frame_with_fde (self : DwarfUnwinder) (is_first_frame : bool)
    (rel_lookup_address fde_off : Z) (read_stack : stack_reader) :
    ST (Regs * C) (DwarfUnwinderError GError) (UnwindResult R) := fun '(regs, ctx) =>
  let lookup_svma := du_base_svma self +64 rel_lookup_address in
  let section := MkUnwindSection (unwind_section_type self) (unwind_section_data self) 8 in
  match unwind_info_for_fde self section lookup_svma fde_off ctx with
  | (Err (UnwindInfoForAddressFailed _), ctx) => (Ok (ExecRule rule_if_uncovered_by_fde), (regs, ctx))
  | (Err e, ctx) => (Err e, (regs, ctx))
  | (Ok (row, encoding, is_signal_frame), ctx) =>
      let '(r, regs) := dwarf_unwind_frame section row encoding is_first_frame is_signal_frame read_stack regs in
      (r, (regs, ctx))
  end.
End unwinder.

(** ** The FDE index *)

Inductive DwarfCfiIndexError (GE : Type) : Type :=
  | GimliError (e : GE)
  | CouldNotSubtractBaseAddress
  | RelativeAddressTooBig
  | FdeOffsetTooBig.
Arguments GimliError {GE}.
Arguments CouldNotSubtractBaseAddress {GE}.
Arguments RelativeAddressTooBig {GE}.
Arguments FdeOffsetTooBig {GE}.

Record DwarfCfiIndex : Type := MkDwarfCfiIndex {
  sorted_fde_pc_starts : list Z;
  fde_offsets : list Z;
}.

(** [slice::sort_by_key], which is stable. *)
Fixpoint insert_by_key {A} (key : A -> Z) (x : A) (l : list A) : list A :=
  match l with
  | [] => [x]
  | y :: l' => if key x <=? key y then x :: y :: l' else y :: insert_by_key key x l'
  end.
Definition sort_by_key {A} (key : A -> Z) (l : list A) : list A := foldr (insert_by_key key) [] l.

Section index.
  Context {C : Type} `{Gimli C}.

(** The closure that fetches an FDE's CIE, through [cur_cie]. *)
Definition get_cie (section : UnwindSection) (bases : BaseAddresses) (cur_cie : option Cie) (offset : Z) :
    result GError Cie * option Cie :=
  match cur_cie with
  | Some cie =>
      if cie_offset cie =? offset then (Ok cie, cur_cie)
      else
        match cie_from_offset section bases offset with
        | Ok cie => (Ok cie, Some cie)
        | Err e => (Err e, cur_cie)
        end
  | None =>
      match cie_from_offset section bases offset with
      | Ok cie => (Ok cie, Some cie)
      | Err e => (Err e, cur_cie)
      end
  end.

(** The pc, relative to the module's base, and the offset an FDE is indexed by. *)
Definition index_fde (base_svma : Z) (fde : Fde) : result (DwarfCfiIndexError GError) (Z * Z) :=
  relative_pc ← ok_or CouldNotSubtractBaseAddress (checked_sub 64 (initial_address fde) base_svma);
  relative_pc ← ok_or RelativeAddressTooBig (try_u 32 relative_pc);
  offset ← ok_or FdeOffsetTooBig (try_u 32 (fde_offset fde));
  mret (relative_pc, offset).

(** The loop of [try_new] over the entries. *)
Fixpoint index_entries (section : UnwindSection) (bases : BaseAddresses) (base_svma : Z)
    (entries : list (result GError (CieOrFde Cie PartialFde))) (cur_cie : option Cie)
    (fde_pc_and_offset : list (Z * Z)) : result (DwarfCfiIndexError GError) (list (Z * Z)) :=
  match entries with
  | [] => mret fde_pc_and_offset
  | Err e :: _ => Err (GimliError e)
  | Ok (CF_Cie cie) :: entries => index_entries section bases base_svma entries (Some cie) fde_pc_and_offset
  | Ok (CF_Fde partial_fde) :: entries =>
      let '(cie, cur_cie) := get_cie section bases cur_cie (partial_cie_offset partial_fde) in
      fde ← map_err GimliError (cie ≫= parse_with_cie partial_fde);
      entry ← index_fde base_svma fde;
      index_entries section bases base_svma entries cur_cie (fde_pc_and_offset ++ [entry])
  end.

Definition try_new (section : UnwindSection) (bases : BaseAddresses) (base_svma : Z) :
    result (DwarfCfiIndexError GError) DwarfCfiIndex :=
  fde_pc_and_offset ← index_entries section bases base_svma (section_entries section bases) None [];
  let fde_pc_and_offset := sort_by_key fst fde_pc_and_offset in
  mret (MkDwarfCfiIndex fde_pc_and_offset.*1 fde_pc_and_offset.*2).

(** [try_new_eh_frame] and [try_new_debug_frame]. *)
Definition try_new_section {D S} `{ModuleSectionInfo D S} (type : UnwindSectionType) (bytes : list Z) (s : S) :
    result (DwarfCfiIndexError GError) DwarfCfiIndex * S :=
  let '(bases, s) := base_addresses_for_sections s in
  (try_new (MkUnwindSection type bytes 8) bases (base_svma_of s), s).

(** The inner [option] is the panic of an index out of bounds. *)
Definition fde_offset_for_relative_address (self : DwarfCfiIndex) (rel_lookup_address : Z) : option (option Z) :=
  match binary_search_by_key id (sorted_fde_pc_starts self) rel_lookup_address with
  | Err O => None
  | Ok i => Some (fde_offsets self !! i)
  | Err (S i) => Some (fde_offsets self !! i)
  end.
End index.

(** ** The index against a plain scan of the FDEs *)

Lemma insert_by_key_perm {A} (key : A -> Z) x l : insert_by_key key x l ≡ₚ x :: l.
Proof.
  induction l as [|y l IH]; [done|]. cbn [insert_by_key]. destruct (key x <=? key y); [done|].
  rewrite IH. apply Permutation_swap.
Qed.

Lemma sort_by_key_perm {A} (key : A -> Z) l : sort_by_key key l ≡ₚ l.
Proof.
  induction l as [|x l IH]; [done|]. cbn [sort_by_key foldr]. rewrite insert_by_key_perm. by constructor.
Qed.

Lemma sort_by_key_sorted {A} (key : A -> Z) l : sorted_by key (sort_by_key key l).
Proof.
  induction l as [|x l IH]; [constructor|]. cbn [sort_by_key foldr]. fold (sort_by_key key l).
  induction IH as [|y l' Hs IHs Hf]; [repeat constructor|]. cbn [insert_by_key].
  destruct (key x <=? key y) eqn:E; bool_to_prop.
  - apply StronglySorted_cons. split; [|by apply StronglySorted_cons]. constructor; [exact E|].
    eapply Forall_impl; [exact Hf|]. unfold key_le. simpl. lia.
  - apply StronglySorted_cons. split; [|done]. rewrite insert_by_key_perm. constructor; [unfold key_le; lia|done].
Qed.

Lemma sorted_by_fmap {A} (key : A -> Z) l : sorted_by key l -> sorted_by id (key <$> l).
Proof.
  induction 1 as [|x l Hs IH Hf]; [constructor|]. rewrite fmap_cons. apply StronglySorted_cons. split; [|done].
  apply Forall_fmap. exact Hf.
Qed.

(** An index with an offset for every address, in the order of the addresses. *)
Definition index_wf (index : DwarfCfiIndex) : Prop :=
  length (fde_offsets index) = length (sorted_fde_pc_starts index) /\ sorted_by id (sorted_fde_pc_starts index).

Lemma index_lookup_in_bounds index rel : index_wf index -> fde_offset_for_relative_address index rel <> Some None.
Proof.
  intros [Hl Hs]. unfold fde_offset_for_relative_address.
  assert (forall i, (i < length (sorted_fde_pc_starts index))%nat -> Some (fde_offsets index !! i) <> Some None) as Hin.
  { intros i Hi. rewrite <- Hl in Hi. apply lookup_lt_is_Some in Hi as [off ->]. done. }
  destruct (binary_search_by_key _ _ _) as [i|[|i]] eqn:E; [|done|].
  - apply binary_search_Ok in E as (x & Hx & _). by eapply Hin, lookup_lt_Some.
  - apply binary_search_Err in E as (l1 & l2 & Hsplit & Hi & _); [|done].
    apply Hin. rewrite Hsplit, length_app. lia.
Qed.

Lemma try_new_wf {C} `{Gimli C} section bases base_svma index : try_new section bases base_svma = Ok index -> index_wf index.
Proof.
  unfold try_new. intros (l & _ & Hi)%result_bind_Ok. unfold mret, result_ret in Hi. simplify_eq.
  split; cbn; [by rewrite !length_fmap|]. apply sorted_by_fmap, sort_by_key_sorted.
Qed.

Section index_spec.
  Context {C : Type} `{Gimli C} (section : UnwindSection) (bases : BaseAddresses) (base_svma : Z).

(** The FDEs in order, each with its CIE parsed at the offset it names. *)
Fixpoint scan_fdes (entries : list (result GError (CieOrFde Cie PartialFde))) :
    result (DwarfCfiIndexError GError) (list (Z * Z)) :=
  match entries with
  | [] => mret []
  | Err e :: _ => Err (GimliError e)
  | Ok (CF_Cie _) :: entries => scan_fdes entries
  | Ok (CF_Fde p) :: entries =>
      fde ← map_err GimliError (cie_from_offset section bases (partial_cie_offset p) ≫= parse_with_cie p);
      entry ← index_fde base_svma fde;
      rest ← scan_fdes entries;
      mret (entry :: rest)
  end.

(** A CIE is the same whether the scan meets it or it is parsed at its offset. *)
Definition cies_agree : Prop :=
  (forall cie, Ok (CF_Cie cie) ∈ section_entries section bases ->
    cie_from_offset section bases (cie_offset cie) = Ok cie) /\
  (forall o cie, cie_from_offset section bases o = Ok cie -> cie_offset cie = o).

Lemma get_cie_transparent cur o r cur' :
  cies_agree ->
  (forall c, cur = Some c -> cie_from_offset section bases (cie_offset c) = Ok c) ->
  get_cie section bases cur o = (r, cur') ->
  r = cie_from_offset section bases o /\
  (forall c, cur' = Some c -> cie_from_offset section bases (cie_offset c) = Ok c).
Proof.
  intros [_ Ho] Hcur. unfold get_cie. destruct cur as [c|].
  - destruct (cie_offset c =? o) eqn:E; bool_to_prop.
    + intros [= <- <-]. rewrite <- E. by rewrite (Hcur c eq_refl).
    + destruct (cie_from_offset section bases o) as [c'|e] eqn:Eo; intros [= <- <-]; (split; [done|]); [|done].
      intros c'' [= <-]. by rewrite (Ho _ _ Eo).
  - destruct (cie_from_offset section bases o) as [c'|e] eqn:Eo; intros [= <- <-]; (split; [done|]); [|done].
    intros c'' [= <-]. by rewrite (Ho _ _ Eo).
Qed.

Lemma index_entries_scan es cur acc :
  cies_agree -> (forall e, e ∈ es -> e ∈ section_entries section bases) ->
  (forall c, cur = Some c -> cie_from_offset section bases (cie_offset c) = Ok c) ->
  index_entries section bases base_svma es cur acc = (fun l => acc ++ l) <$> scan_fdes es.
Proof.
  intros Ha. revert cur acc. induction es as [|[[cie|p]|e] es IH]; intros cur acc Hin Hcur.
  - cbn. by rewrite app_nil_r.
  - cbn [index_entries scan_fdes]. apply IH; [set_solver|]. intros c [= <-]. apply Ha, Hin. set_solver.
  - cbn [index_entries scan_fdes].
    destruct (get_cie section bases cur (partial_cie_offset p)) as [r cur'] eqn:Eg.
    apply get_cie_transparent in Eg as [-> Hcur']; [|done..].
    destruct (map_err _ _) as [fde|e]; [|done]. cbn [mbind result_bind].
    destruct (index_fde base_svma fde) as [entry|e]; [|done]. cbn [mbind result_bind].
    rewrite IH; [|set_solver|done]. destruct (scan_fdes es) as [rest|e]; [|done]. cbn. by rewrite <- app_assoc.
  - done.
Qed.

Lemma index_fde_u32 fde pc off : index_fde base_svma fde = Ok (pc, off) -> u32 pc /\ u32 off.
Proof.
  unfold index_fde. intros Hi. apply result_bind_Ok in Hi as (x & Hx & Hi).
  apply result_bind_Ok in Hi as (y & Hy & Hi). apply result_bind_Ok in Hi as (z & Hz & Hi).
  apply ok_or_Ok, try_u_Some in Hy as [-> Hy]. apply ok_or_Ok, try_u_Some in Hz as [-> Hz].
  unfold mret, result_ret in Hi. by simplify_eq.
Qed.

Lemma scan_fdes_u32 es l : scan_fdes es = Ok l -> Forall (fun p => u32 p.1 /\ u32 p.2) l.
Proof.
  revert l. induction es as [|[[cie|p]|e] es IH]; intros l Hl; cbn [scan_fdes] in Hl.
  - unfold mret, result_ret in Hl. simplify_eq. constructor.
  - by apply IH.
  - apply result_bind_Ok in Hl as (fde & _ & Hl). apply result_bind_Ok in Hl as ([pc off] & Hi & Hl).
    apply result_bind_Ok in Hl as (rest & Hr & Hl). unfold mret, result_ret in Hl. simplify_eq.
    constructor; [by eapply index_fde_u32|by apply IH].
  - done.
Qed.

Lemma index_lookup (Hcies : cies_agree) :
  match scan_fdes (section_entries section bases) with
  | Err e => try_new section bases base_svma = Err e
  | Ok fdes =>
      Forall (fun p => u32 p.1 /\ u32 p.2) fdes /\
      exists index, try_new section bases base_svma = Ok index /\
        forall rel,
          (fde_offset_for_relative_address index rel = None /\ Forall (fun p => rel < p.1) fdes) \/
          exists pc off, fde_offset_for_relative_address index rel = Some (Some off) /\
            (pc, off) ∈ fdes /\ pc <= rel /\ Forall (fun p => p.1 <= rel -> p.1 <= pc) fdes
  end.
Proof.
  unfold try_new. rewrite index_entries_scan by done.
  destruct (scan_fdes (section_entries section bases)) as [fdes|e] eqn:E; [|done].
  split; [by eapply scan_fdes_u32|]. eexists. split; [reflexivity|]. intros rel. cbn [app].
  set (l := sort_by_key fst fdes).
  assert (Hp : l ≡ₚ fdes) by apply sort_by_key_perm.
  assert (Hs : sorted_by fst l) by apply sort_by_key_sorted.
  unfold fde_offset_for_relative_address. cbn [sorted_fde_pc_starts fde_offsets].
  assert (Hat : forall i pc off, l !! i = Some (pc, off) -> l.*2 !! i = Some off) by
    (intros i pc off Hi; by rewrite list_lookup_fmap, Hi).
  destruct (binary_search_by_key id l.*1 rel) as [i|i] eqn:Eb.
  - apply binary_search_Ok in Eb as (pc & Hi & Hpc). unfold id in Hpc. subst pc.
    rewrite list_lookup_fmap in Hi. destruct (l !! i) as [[pc off]|] eqn:El; [|done]. simplify_eq/=.
    right. exists rel, off. rewrite (Hat i rel off) by done. split_and!; [done| |lia|].
    + rewrite <- Hp. by eapply list_elem_of_lookup_2.
    + apply Forall_forall. auto.
  - apply binary_search_Err in Eb as (l1 & l2 & Hl & Hi & Hl1 & Hl2); [|by apply sorted_by_fmap].
    destruct i as [|i].
    + left. split; [done|]. apply nil_length_inv in Hi. subst l1. cbn [app] in Hl. subst l2.
      rewrite <- Hp. rewrite Forall_fmap in Hl2. exact Hl2.
    + right. destruct (exists_last (l:=l1)) as (l1' & pc & ->); [by intros ->|].
      rewrite length_app in Hi. cbn [length] in Hi. assert (i = length l1') as -> by lia.
      assert (Hpc : l.*1 !! length l1' = Some pc).
      { rewrite Hl, <- app_assoc. apply lookup_middle. }
      rewrite list_lookup_fmap in Hpc. destruct (l !! length l1') as [[pc' off]|] eqn:El; [|done]. simplify_eq/=.
      exists pc, off. rewrite (Hat _ _ _ El). apply Forall_app in Hl1 as [_ Hpc]. apply Forall_cons in Hpc as [Hpc _].
      unfold id in Hpc. split_and!; [done|rewrite <- Hp; by eapply list_elem_of_lookup_2|lia|].
      rewrite <- Hp. apply Forall_lookup. intros j [pcj offj] Hj. cbn [fst]. intros Hle.
      destruct (decide (j <= length l1')%nat) as [Hjl|Hjl].
      * apply (sorted_by_lookup fst l j (length l1') _ _ Hs Hjl Hj El).
      * exfalso. assert (Hj1 : l.*1 !! j = Some pcj) by (by rewrite list_lookup_fmap, Hj).
        rewrite Hl, lookup_app_r in Hj1 by (rewrite length_app; simpl; lia).
        apply list_elem_of_lookup_2 in Hj1. rewrite Forall_forall in Hl2. specialize (Hl2 _ Hj1). unfold id in Hl2. lia.
Qed.
(** C31: the FDE index answers like a scan of all FDEs. It is built exactly when the
    scan succeeds, the caching of CIEs notwithstanding, with all addresses and
    offsets in 32 bits; a lookup never panics, finds nothing exactly when every
    FDE starts above the address, and otherwise returns the offset of an FDE whose
    start is the highest at or below the address. *)
Theorem index_lookup_spec (Hcies : cies_agree) :
  match scan_fdes (section_entries section bases) with
  | Err e => try_new section bases base_svma = Err e
  | Ok fdes =>
      Forall (fun p => u32 p.1 /\ u32 p.2) fdes /\
      exists index, try_new section bases base_svma = Ok index /\
        forall rel,
          (fde_offset_for_relative_address index rel = None /\ Forall (fun p => rel < p.1) fdes) \/
          exists pc off, fde_offset_for_relative_address index rel = Some (Some off) /\
            (pc, off) ∈ fdes /\ pc <= rel /\ Forall (fun p => p.1 <= rel -> p.1 <= pc) fdes
  end.
Proof. by apply index_lookup. Qed.
End index_spec.

(** ** A small concrete parser

    Each byte [b] of a section stands for an FDE of the function at [4096 + 16 * b];
    its position is its offset. All FDEs share one CIE and one row. *)
Section example.
  Context (row : CfaRule evaluation) (rules : Z -> option (RegisterRule evaluation)).

Definition example_entries (bytes : list Z) : list (result unit (CieOrFde Z (Z * Z))) :=
  Ok (CF_Cie 0) :: imap (fun i b => Ok (CF_Fde (Z.of_nat i, 4096 + 16 * b))) bytes.

(** An expression is its evaluation, on 64-bit values. *)
Fixpoint words_only (e : evaluation) : evaluation :=
  match e with
  | Complete locations =>
      Complete ((fun l => match l with Address a => Address (as_u 64 a) | OtherLocation => OtherLocation end) <$> locations)
  | RequiresRegister register resume => RequiresRegister register (fun v => words_only (resume v))
  | RequiresMemory address size space resume => RequiresMemory address size space (fun v => words_only (resume v))
  | RequiresOther => RequiresOther
  | EvaluationFailed => EvaluationFailed
  end.

#[local] Instance example_gimli : Gimli unit := {
  GError := unit;
  UnwindExpression := evaluation;
  Expression := evaluation;
  Encoding := unit;
  Cie := Z;
  PartialFde := Z * Z;
  Fde := Z * Z;
  UnwindTableRow := unit;
  ParsedEhFrameHdr := list Z;
  HdrTable := list Z;
  Pointer := nat;
  expression_get := fun _ e => Some e;
  evaluation_new := fun e _ => words_only e;
  parse_eh_frame_hdr := fun d _ _ => Some d;
  hdr_table := Some;
  table_lookup := fun t a _ => fst <$> list_find (fun b => 4096 + 16 * b <= a < 4112 + 16 * b) t;
  pointer_to_offset := fun _ p => Some (Z.of_nat p);
  section_entries := fun s _ => example_entries (us_data s);
  cie_from_offset := fun _ _ o => if o =? 0 then Ok 0 else Err tt;
  cie_offset := id;
  partial_cie_offset := fun _ => 0;
  parse_with_cie := fun p _ => Ok p;
  fde_from_offset := fun s _ o =>
    match us_data s !! Z.to_nat o with Some b => Ok (o, 4096 + 16 * b) | None => Err tt end;
  fde_offset := fst;
  initial_address := snd;
  fde_len := fun _ => 16;
  fde_encoding := fun _ => tt;
  is_signal_trampoline := fun _ => false;
  unwind_info_for_address := fun f _ _ c a =>
    (if (snd f <=? a) && (a <? snd f + 16) then Ok tt else Err tt, c);
  row_cfa := fun _ => row;
  row_register := fun _ => rules;
}.

Definition example_section : UnwindSection := MkUnwindSection EhFrame [3; 0; 1] 8.

Lemma example_cies_agree section b : cies_agree section b.
Proof.
  split.
  - intros cie. change (section_entries section b) with (example_entries (us_data section)). unfold example_entries.
    rewrite elem_of_cons, elem_of_lookup_imap. intros [[= ->]|(i & x & [=] & _)]. done.
  - intros o cie. cbn. destruct (o =? 0) eqn:E; [|done]. bool_to_prop. intros [= <-]. done.
Qed.
End example.

(** The parser, with a row that recovers nothing. *)
Section index_example.
#[local] Instance index_gimli : Gimli unit := example_gimli (Cfa_RegisterAndOffset 7 8) (fun _ => None).

Lemma index_lookup_spec_witness :
  cies_agree example_section no_bases /\
  exists index, try_new example_section no_bases 4096 = Ok index /\
    fde_offset_for_relative_address index 20 = Some (Some 2).
Proof.
  assert (Ha : cies_agree example_section no_bases) by apply (example_cies_agree (Cfa_RegisterAndOffset 7 8) (fun _ => None)).
  split; [exact Ha|].
  pose proof (index_lookup_spec example_section no_bases 4096 Ha) as Hi.
  assert (Hs : scan_fdes example_section no_bases 4096 (section_entries example_section no_bases) =
    Ok [(48, 0); (0, 1); (16, 2)]) by reflexivity.
  rewrite Hs in Hi. destruct Hi as (_ & index & Hn & _). exists index. split; [exact Hn|].
  assert (Ht : try_new example_section no_bases 4096 = Ok (MkDwarfCfiIndex [0; 16; 48] [1; 2; 0])) by reflexivity.
  rewrite Ht in Hn. injection Hn as <-. reflexivity.
Defined.
End index_example.
