(* ===== verification/X86Dwarf.v ===== *)
(** * DWARF unwinding on x86-64

    Models [vendor/framehop/src/x86_64/dwarf.rs]: translating a row into an unwind
    rule, and the generic path for rows that have no rule. *)
From S2P Require Import Prelude AddSigned UnwindRule X86Regs X86Rules Sections Dwarf.
#[local] Existing Instance AddSigned_u64.

(** The psABI's numbers, [gimli::X86_64]. *)
Definition DW_RBP : Z := 6.
Definition DW_RSP : Z := 7.
Definition DW_RA : Z := 16.

#[export] Instance DwarfUnwindRegs_x86_64 : DwarfUnwindRegs UnwindRegsX86_64 := fun regs register =>
  if register =? DW_RA then Some (ip regs)
  else if register =? DW_RSP then Some (sp regs)
  else if register =? DW_RBP then Some (bp regs)
  else None.

Definition register_rule_to_cfa_offset {X} (rule : option (RegisterRule X)) : result ConversionError (option Z) :=
  match rule with
  | None | Some RR_Undefined | Some RR_SameValue => Ok None
  | Some (RR_Offset offset) => Ok (Some offset)
  | _ => Err RegisterNotStoredRelativeToCfa
  end.

Definition translate_into_unwind_rule {X} (cfa_rule : CfaRule X) (bp_rule ra_rule : option (RegisterRule X)) :
    result ConversionError UnwindRuleX86_64 :=
  match ra_rule with
  | None | Some RR_Undefined => Ok EndOfStack
  | Some (RR_Offset ra_offset) =>
      if negb (ra_offset =? -8) then Err ReturnAddressRuleWithUnexpectedOffset
      else
        match cfa_rule with
        | Cfa_RegisterAndOffset register offset =>
            if register =? DW_RSP then
              sp_offset_by_8 ← ok_or SpOffsetDoesNotFit (try_u 16 (Z.quot offset 8));
              fp_cfa_offset ← register_rule_to_cfa_offset bp_rule;
              match fp_cfa_offset with
              | None => mret (OffsetSp sp_offset_by_8)
              | Some bp_cfa_offset =>
                  bp_storage ← ok_or FpStorageOffsetDoesNotFit
                    (try_s 16 (Z.quot (as_s 64 (offset + bp_cfa_offset)) 8));
                  mret (OffsetSpAndRestoreBp sp_offset_by_8 bp_storage)
              end
            else if register =? DW_RBP then
              bp_cfa_offset ← register_rule_to_cfa_offset bp_rule;
              bp_cfa_offset ← ok_or FramePointerRuleDoesNotRestoreBp bp_cfa_offset;
              if (offset =? 16) && (bp_cfa_offset =? -16) then mret UseFramePointer
              else Err FramePointerRuleHasStrangeBpOffset
            else Err CfaIsOffsetFromUnknownRegister
        | Cfa_Expression _ => Err CfaIsExpression
        end
  | _ => Err ReturnAddressRuleWasWeird
  end.

Section unwind.
  Context {C : Type} `{Gimli C}.

(** The path for rows that are not translated. *)
Definition generic_unwind_frame (section : UnwindSection) (unwind_info : UnwindTableRow) (encoding : Encoding)
    (is_first_frame is_signal_frame : bool) (read_stack : stack_reader) :
    ST UnwindRegsX86_64 (DwarfUnwinderError GError) (UnwindResult UnwindRuleX86_64) :=
  let cfa_rule := row_cfa unwind_info in
  let bp_rule := row_register unwind_info DW_RBP in
  let ra_rule := row_register unwind_info DW_RA in
  regs ← st_get;
  cfa ← st_lift (ok_or CouldNotRecoverCfa (eval_cfa_rule section cfa_rule encoding regs read_stack));
  let ip := ip regs in
  let bp := bp regs in
  let sp := sp regs in
  let new_bp := default bp (eval_register_rule section bp_rule cfa encoding bp regs read_stack) in
  return_address ← st_lift
    match eval_register_rule section ra_rule cfa encoding ip regs read_stack with
    | Some ra => Ok ra
    | None => ok_or CouldNotRecoverReturnAddress (read_stack (cfa -64 8))
    end;
  if (cfa =? sp) && (return_address =? ip) then st_throw DwarfDidNotAdvance
  else if negb is_first_frame && negb is_signal_frame && (cfa <? sp) then st_throw StackPointerMovedBackwards
  else
    _ ← st_modify (set_ip return_address);
    _ ← st_modify (set_bp new_bp);
    _ ← st_modify (set_sp cfa);
    mret (if is_signal_frame then Interrupted return_address else Uncacheable return_address).

(** A signal frame always takes the generic path. *)
Definition dwarf_unwind_frame_x86_64 (section : UnwindSection) (unwind_info : UnwindTableRow)
    (encoding : Encoding) (is_first_frame is_signal_frame : bool) (read_stack : stack_reader) :
    ST UnwindRegsX86_64 (DwarfUnwinderError GError) (UnwindResult UnwindRuleX86_64) :=
  match
    (if is_signal_frame then None
     else ok (translate_into_unwind_rule (row_cfa unwind_info) (row_register unwind_info DW_RBP)
                (row_register unwind_info DW_RA)))
  with
  | Some unwind_rule => mret (ExecRule unwind_rule)
  | None => generic_unwind_frame section unwind_info encoding is_first_frame is_signal_frame read_stack
  end.

#[export] Instance DwarfUnwinding_x86_64 : DwarfUnwinding C UnwindRuleX86_64 UnwindRegsX86_64 := {
  dwarf_unwind_frame := dwarf_unwind_frame_x86_64;
  rule_if_uncovered_by_fde := JustReturnIfFirstFrameOtherwiseFp;
}.

(** ** The generic path, run *)

(** The registers the generic path leaves, when it unwinds the frame. *)
Definition generic_regs (regs : UnwindRegsX86_64) ra new_bp cfa : UnwindRegsX86_64 :=
  set_sp cfa (set_bp new_bp (set_ip ra regs)).

Lemma generic_path_x86_64 section row enc first signal rs regs res regs' :
  generic_unwind_frame section row enc first signal rs regs = (res, regs') ->
  match res with
  | Ok r =>
      exists cfa ra,
        eval_cfa_rule section (row_cfa row) enc regs rs = Some cfa /\
        match eval_register_rule section (row_register row DW_RA) cfa enc (ip regs) regs rs with
        | Some x => x = ra | None => rs (cfa -64 8) = Some ra end /\
        ~ (cfa = sp regs /\ ra = ip regs) /\ (first = false -> signal = false -> sp regs <= cfa) /\
        regs' = generic_regs regs ra
          (default (bp regs) (eval_register_rule section (row_register row DW_RBP) cfa enc (bp regs) regs rs)) cfa /\
        r = (if signal then Interrupted ra else Uncacheable ra)
  | Err _ => regs' = regs
  end.
Proof.
  intros Hg. unfold generic_unwind_frame in Hg. rewrite st_bind_spec, st_get_spec in Hg. cbv zeta in Hg.
  rewrite st_bind_spec in Hg. unfold st_lift at 1 in Hg.
  destruct (eval_cfa_rule _ _ _ _ _) as [cfa|] eqn:Ecfa; cbn [ok_or] in Hg; [|by simplify_eq].
  rewrite st_bind_spec in Hg. unfold st_lift at 1 in Hg.
  destruct (match eval_register_rule section (row_register row DW_RA) cfa enc (ip regs) regs rs with
            | Some ra => Ok ra | None => _ end) as [ra|e] eqn:Era; [|by simplify_eq].
  destruct ((cfa =? sp regs) && (ra =? ip regs)) eqn:E1; [unfold st_throw in Hg; by simplify_eq|].
  destruct (negb first && negb signal && (cfa <? sp regs)) eqn:E2; [unfold st_throw in Hg; by simplify_eq|].
  rewrite !st_bind_spec, !st_modify_spec, !st_bind_spec, !st_modify_spec, !st_bind_spec, !st_modify_spec, st_ret_spec in Hg.
  simplify_eq. exists cfa, ra. split_and!; try done.
  - destruct (eval_register_rule section (row_register row DW_RA) cfa enc (ip regs) regs rs); [by simplify_eq|].
    by destruct (rs _); simplify_eq/=.
  - intros [-> ->]. rewrite !Z.eqb_refl in E1. done.
  - intros -> ->. simpl in E2. bool_to_prop. lia.
Qed.

(** The generic path reports a signal frame and only that. *)
Lemma generic_signal section row enc first signal rs regs r regs' :
  generic_unwind_frame section row enc first signal rs regs = (Ok r, regs') ->
  match r with ExecRule _ => False | Uncacheable _ => signal = false | Interrupted _ => signal = true end.
Proof. intros (cfa & ra & _ & _ & _ & _ & _ & ->)%generic_path_x86_64. by destruct signal. Qed.

#[export] Instance DwarfUnwindingLaws_x86_64 : DwarfUnwindingLaws C UnwindRuleX86_64 UnwindRegsX86_64.
Proof.
  intros section row enc first1 first2 signal rs1 rs2 regs1 regs2 rule regs'. cbn.
  unfold dwarf_unwind_frame_x86_64. destruct (if signal then _ else _) as [r|].
  - rewrite !st_ret_spec. by intros [= -> _].
  - by intros []%generic_signal.
Qed.

(** ** Translation against the generic path *)

(** What a successful translation says about the row. *)
Lemma translate_cases {X} (cfa_rule : CfaRule X) bp_rule ra_rule rule :
  translate_into_unwind_rule cfa_rule bp_rule ra_rule = Ok rule ->
  (rule = EndOfStack /\ (ra_rule = None \/ ra_rule = Some RR_Undefined)) \/
  (ra_rule = Some (RR_Offset (-8)) /\
   ((exists offset n, cfa_rule = Cfa_RegisterAndOffset DW_RSP offset /\ u16 n /\ n = Z.quot offset 8 /\
      ((rule = OffsetSp n /\ (bp_rule = None \/ bp_rule = Some RR_Undefined \/ bp_rule = Some RR_SameValue)) \/
       exists o y, bp_rule = Some (RR_Offset o) /\ rule = OffsetSpAndRestoreBp n y /\
         i16 y /\ y = Z.quot (as_s 64 (offset + o)) 8)) \/
    (cfa_rule = Cfa_RegisterAndOffset DW_RBP 16 /\ bp_rule = Some (RR_Offset (-16)) /\ rule = UseFramePointer))).
Proof.
  unfold translate_into_unwind_rule. intros Ht.
  destruct ra_rule as [[| |ra| | | | | |]|]; simplify_eq/=; try (left; by auto). right.
  destruct (ra =? -8) eqn:Era; [|done]. bool_to_prop. subst ra. split; [done|]. cbn [negb] in Ht.
  destruct cfa_rule as [register offset|]; [|done].
  destruct (register =? DW_RSP) eqn:Er.
  - bool_to_prop. subst register. left. apply result_bind_Ok in Ht as (n & Hn & Ht).
    apply ok_or_Ok, try_u_Some in Hn as [-> Hn]. apply result_bind_Ok in Ht as (fp & Hfp & Ht).
    eexists _, _. split_and!; [done|exact Hn|done|].
    destruct bp_rule as [[| |o| | | | | |]|]; simplify_eq/=;
      try (unfold mret, result_ret in Ht; simplify_eq; left; by auto).
    right. apply result_bind_Ok in Ht as (y & Hy & Ht). apply ok_or_Ok, try_s_Some in Hy as [-> Hy].
    unfold mret, result_ret in Ht. simplify_eq. eauto 10.
  - destruct (register =? DW_RBP) eqn:Er2; [|done]. bool_to_prop. subst register. right.
    apply result_bind_Ok in Ht as (fp & Hfp & Ht). apply result_bind_Ok in Ht as (o & Ho & Ht).
    destruct ((offset =? 16) && (o =? -16)) eqn:E; [|done]. bool_to_prop. unfold mret, result_ret in Ht.
    subst. apply ok_or_Ok in Ho. subst. simplify_eq.
    destruct bp_rule as [[| |o| | | | | |]|]; simplify_eq/=; done.
Qed.

(** The return address of a row whose rule says [CFA - 8]: read there, once or twice. *)
Lemma return_address_read section cfa enc val regs rs ra :
  u64 cfa ->
  match eval_register_rule section (Some (RR_Offset (-8))) cfa enc val regs rs with
  | Some x => x = ra
  | None => rs (cfa -64 8) = Some ra
  end -> rs (cfa -64 8) = Some ra.
Proof.
  intros Hc. cbn. destruct (add_i64 cfa (-8)) as [a|] eqn:Ea; [|done].
  apply add_i64_Some in Ea as (-> & _ & ?). cbn.
  replace (cfa -64 8) with (cfa + -8) by (unfold_words; rewrite Z.mod_small; lia).
  destruct (rs (cfa + -8)); [by intros ->|done].
Qed.

(** [set_bp] and [set_sp] in either order; [set_bp] of the value there is nothing new. *)
Lemma set_sp_set_bp v w regs : set_sp v (set_bp w regs) = set_bp w (set_sp v regs).
Proof.
  unfold set_sp, set_bp, reg_set. cbn [X86Regs.ip X86Regs.regs]. f_equal. by apply list_insert_insert_ne.
Qed.

Lemma finish_exec_advances sp0 new_sp new_bp rs regs ra :
  sp0 = sp regs -> rs (new_sp -64 8) = Some ra -> ra <> 0 -> ~ (new_sp = sp regs /\ ra = ip regs) ->
  finish_exec sp0 new_sp new_bp rs regs = (Ok (Some ra), generic_regs regs ra new_bp new_sp).
Proof.
  intros -> Hra Hne Hadv. unfold finish_exec. rewrite st_bind_spec, read_word_spec, Hra.
  rewrite (proj2 (Z.eqb_neq ra 0)) by done. rewrite st_bind_spec, st_get_spec.
  destruct ((new_sp =? sp regs) && (ra =? ip regs)) eqn:E; [bool_to_prop; by destruct Hadv|].
  unfold generic_regs. rewrite set_sp_set_bp. st_bind. done.
Qed.

(** The row's offsets are multiples of the word size, as they are in the ABI. *)
Definition row_aligned (row : UnwindTableRow) : Prop :=
  (forall register offset, row_cfa row = Cfa_RegisterAndOffset register offset -> (8 | offset)) /\
  (forall o, row_register row DW_RBP = Some (RR_Offset o) -> (8 | o) /\ i64 o).

(** C32: a translated rule unwinds a frame like the generic path it replaces. When
    the row translates and the generic path would recover the frame with the return
    address [ra], reading the saved frame pointer if the row says it is saved, then
    executing the rule returns [ra] and leaves the same registers; the one rule
    that checks more, that of a frame-pointer frame, does so when the frame pointer
    is set and above the stack pointer. *)
Theorem translated_rule_agrees section row enc first rs regs rule ra regs'
    (Hwf : regs_wf regs) (Hal : row_aligned row)
    (Htr : translate_into_unwind_rule (row_cfa row) (row_register row DW_RBP) (row_register row DW_RA) = Ok rule)
    (Hend : rule <> EndOfStack)
    (Hgen : generic_unwind_frame section row enc first false rs regs = (Ok (Uncacheable ra), regs'))
    (Hra : ra <> 0)
    (Hbp : forall o cfa, row_register row DW_RBP = Some (RR_Offset o) ->
       eval_cfa_rule section (row_cfa row) enc regs rs = Some cfa ->
       is_Some (eval_register_rule section (Some (RR_Offset o)) cfa enc (bp regs) regs rs))
    (Hfp : rule = UseFramePointer -> bp regs <> 0 /\ sp regs < bp regs + 16) :
  exec_x86_64 rule first rs regs = (Ok (Some ra), regs').
Proof.
  apply generic_path_x86_64 in Hgen as (cfa & ra' & Hcfa & Hread & Hadv & _ & -> & Hres). simplify_eq.
  destruct Hal as [Hal1 Hal2].
  pose proof (reg_get_u64 regs RSP Hwf) as Hsp. pose proof (reg_get_u64 regs RBP Hwf) as Hbpu.
  change (reg_get regs RSP) with (sp regs) in Hsp. change (reg_get regs RBP) with (bp regs) in Hbpu.
  apply translate_cases in Htr as [[? _]|[Hra' Hcase]]; [done|]. rewrite Hra' in Hread.
  unfold exec_x86_64. rewrite st_bind_spec, st_get_spec, st_bind_spec.
  destruct Hcase as [(offset & n & Hrow & Hn & Hnq & Hrule)|(Hrow & Hbr & ->)]; rewrite Hrow in Hcfa.
  - cbn in Hcfa. apply add_i64_Some in Hcfa as (-> & Hi & Hc).
    assert (Hoff : n * 8 = offset).
    { destruct (Hal1 _ _ Hrow) as [q ->]. rewrite Z.quot_mul in Hnq by lia. lia. }
    assert (Hadd : checked_add 64 (sp regs) (n * 8) = Some (sp regs + offset)).
    { apply checked_add_Some. split; [lia|]. unfold in_u in *. lia. }
    apply return_address_read in Hread; [|unfold in_u; lia].
    destruct Hrule as [[-> Hb]|(o & y & Hb & -> & Hy & Hyq)].
    + unfold new_sp_bp. rewrite st_bind_spec, st_get_spec, st_bind_spec, no_overflow_spec, Hadd, st_ret_spec. cbv iota beta.
      assert (eval_register_rule section (row_register row DW_RBP) (sp regs + offset) enc (bp regs) regs rs = None \/
        eval_register_rule section (row_register row DW_RBP) (sp regs + offset) enc (bp regs) regs rs = Some (bp regs))
        as [->| ->] by (destruct Hb as [-> |[-> | ->]]; auto); by apply finish_exec_advances.
    + destruct (Hbp _ (sp regs + offset) Hb) as [b Hev]; [by rewrite Hrow; cbn; apply add_i64_Some|].
      rewrite Hb, Hev. cbn in Hev. destruct (add_i64 (sp regs + offset) o) as [a|] eqn:Ea; [|done].
      apply add_i64_Some in Ea as (-> & _ & Ha). cbn in Hev.
      destruct (Hal2 _ Hb) as [[q ->] Ho].
      assert (Hy8 : y * 8 = offset + q * 8).
      { assert (Hin : i64 (offset + q * 8)) by (unfold in_s, in_u in *; lia).
        rewrite as_s_small in Hyq by (done || lia).
        replace (offset + q * 8) with ((n + q) * 8) in * by lia. rewrite Z.quot_mul in Hyq by lia. lia. }
      unfold new_sp_bp. rewrite st_bind_spec, st_get_spec, st_bind_spec, no_overflow_spec, Hadd. cbv iota beta.
      rewrite st_bind_spec, no_overflow_spec.
      assert (checked_add_signed (sp regs) (y * 8) = Some (sp regs + offset + q * 8)) as ->.
      { apply checked_add_signed_u64_Some; [done|unfold in_s in *; lia|]. unfold in_u in *. lia. }
      rewrite st_bind_spec, Hev, st_ret_spec. by apply finish_exec_advances.
  - destruct Hfp as [Hbp0 Hbpsp]; [done|]. rewrite Hbr in *. cbn in Hcfa.
    apply add_i64_Some in Hcfa as (-> & Hi & Hc).
    destruct (Hbp _ (bp regs + 16) eq_refl) as [b Hev]; [by rewrite Hrow; cbn; apply add_i64_Some|].
    rewrite Hev. cbn in Hev. destruct (add_i64 (bp regs + 16) (-16)) as [a|] eqn:Ea; [|done].
    apply add_i64_Some in Ea as (-> & _ & Ha). cbn in Hev.
    replace (bp regs + 16 + -16) with (bp regs) in Hev by lia.
    apply return_address_read in Hread; [|unfold in_u; lia].
    rewrite (use_frame_pointer_new _ _ _ b) by (done || unfold in_u in *; lia). by apply finish_exec_advances.
Qed.
End unwind.

(** ** A concrete frame: [push rbp] has run, the CFA is [rsp + 16] *)

Definition example_row_cfa : CfaRule evaluation := Cfa_RegisterAndOffset DW_RSP 16.
Definition example_row_rules (register : Z) : option (RegisterRule evaluation) :=
  if register =? DW_RBP then Some (RR_Offset (-16))
  else if register =? DW_RA then Some (RR_Offset (-8)) else None.

Definition example_stack (a : Z) : option Z :=
  if a =? 1000 then Some 5000 else if a =? 1008 then Some 7777 else None.

Lemma translated_rule_agrees_witness :
  exec_x86_64 (OffsetSpAndRestoreBp 2 0) false example_stack (regs_new 4242 1000 2000) =
    (Ok (Some 7777), generic_regs (regs_new 4242 1000 2000) 7777 5000 1016).
Proof.
  apply (@translated_rule_agrees unit (example_gimli example_row_cfa example_row_rules) example_section tt tt).
  - split_and!; [done|apply (bool_decide_unpack _); by vm_compute|by vm_compute].
  - split.
    + intros register offset [= <- <-]. by exists 2.
    + intros o [= <-]. split; [by exists (-2)|by vm_compute].
  - reflexivity.
  - discriminate.
  - reflexivity.
  - discriminate.
  - intros o cfa [= <-] [= <-]. by eexists.
  - discriminate.
Defined.
