(* ===== verification/Aarch64Dwarf.v ===== *)
(** * DWARF unwinding on aarch64

    Models [vendor/framehop/src/aarch64/dwarf.rs]: translating a row into an unwind
    rule, and the generic path for rows that have no rule. *)
From S2P Require Import Prelude AddSigned UnwindRule Aarch64Rules Sections Dwarf.
#[local] Existing Instance AddSigned_u64.

(** The numbers of [gimli::AArch64]. *)
Definition DW_X29 : Z := 29.
Definition DW_X30 : Z := 30.
Definition DW_SP : Z := 31.

#[export] Instance DwarfUnwindRegs_aarch64 : DwarfUnwindRegs UnwindRegsAarch64 := fun regs register =>
  if register =? DW_SP then Some (sp regs)
  else if register =? DW_X29 then Some (fp regs)
  else if register =? DW_X30 then Some (lr regs)
  else None.

Definition register_rule_to_cfa_offset {X} (rule : option (RegisterRule X)) : result ConversionError (option Z) :=
  match rule with
  | None => Ok None
  | Some rule =>
      match rule with
      | RR_Undefined | RR_SameValue => Ok None
      | RR_Offset offset => Ok (Some offset)
      | _ => Err RegisterNotStoredRelativeToCfa
      end
  end.

(** [i16::try_from((offset + cfa_offset) / 8).map_err(..)]. *)
Definition storage_offset_by_8 (e : ConversionError) (offset cfa_offset : Z) : result ConversionError Z :=
  ok_or e (try_s 16 (Z.quot (as_s 64 (offset + cfa_offset)) 8)).

Definition translate_into_unwind_rule {X} (cfa_rule : CfaRule X) (fp_rule lr_rule : option (RegisterRule X)) :
    result ConversionError UnwindRuleAarch64 :=
  match cfa_rule with
  | Cfa_RegisterAndOffset register offset =>
      if register =? DW_SP then
        sp_offset_by_16 ← ok_or SpOffsetDoesNotFit (try_u 16 (Z.quot offset 16));
        lr_cfa_offset ← register_rule_to_cfa_offset lr_rule;
        fp_cfa_offset ← register_rule_to_cfa_offset fp_rule;
        match lr_cfa_offset, fp_cfa_offset with
        | None, Some _ => Err RestoringFpButNotLr
        | None, None =>
            match lr_rule with
            | None => mret (OffsetSp sp_offset_by_16)
            | Some RR_Undefined => mret (OffsetSpIfFirstFrameOtherwiseStackEndsHere sp_offset_by_16)
            | _ => mret (OffsetSp sp_offset_by_16)
            end
        | Some lr_cfa_offset, None =>
            lr_storage ← storage_offset_by_8 LrStorageOffsetDoesNotFit offset lr_cfa_offset;
            mret (OffsetSpAndRestoreLr sp_offset_by_16 lr_storage)
        | Some lr_cfa_offset, Some fp_cfa_offset =>
            lr_storage ← storage_offset_by_8 LrStorageOffsetDoesNotFit offset lr_cfa_offset;
            fp_storage ← storage_offset_by_8 FpStorageOffsetDoesNotFit offset fp_cfa_offset;
            mret (OffsetSpAndRestoreFpAndLr sp_offset_by_16 fp_storage lr_storage)
        end
      else if register =? DW_X29 then
        lr_cfa_offset ← register_rule_to_cfa_offset lr_rule;
        lr_cfa_offset ← ok_or FramePointerRuleDoesNotRestoreLr lr_cfa_offset;
        fp_cfa_offset ← register_rule_to_cfa_offset fp_rule;
        fp_cfa_offset ← ok_or FramePointerRuleDoesNotRestoreFp fp_cfa_offset;
        if (offset =? 16) && (fp_cfa_offset =? -16) && (lr_cfa_offset =? -8) then mret UseFramePointer
        else
          sp_offset_from_fp_by_8 ← ok_or SpOffsetFromFpDoesNotFit (try_u 16 (Z.quot offset 8));
          lr_storage ← storage_offset_by_8 LrStorageOffsetDoesNotFit offset lr_cfa_offset;
          fp_storage ← storage_offset_by_8 FpStorageOffsetDoesNotFit offset fp_cfa_offset;
          mret (UseFramepointerWithOffsets sp_offset_from_fp_by_8 fp_storage lr_storage)
      else Err CfaIsOffsetFromUnknownRegister
  | Cfa_Expression _ => Err CfaIsExpression
  end.

Section unwind.
  Context {C : Type} `{Gimli C}.

(** The registers recovered for the caller: strict after the first frame, lenient
    in it. *)
Definition recovered_fp_lr (section : UnwindSection) (fp_rule lr_rule : option (RegisterRule UnwindExpression))
    (cfa : Z) (encoding : Encoding) (is_first_frame : bool) (regs : UnwindRegsAarch64) (read_stack : stack_reader) :
    result (DwarfUnwinderError GError) (Z * Z) :=
  let new_fp := eval_register_rule section fp_rule cfa encoding (fp regs) regs read_stack in
  let new_lr := eval_register_rule section lr_rule cfa encoding (lr regs) regs read_stack in
  if negb is_first_frame then
    if cfa <=? sp regs then Err StackPointerMovedBackwards
    else
      new_fp ← ok_or CouldNotRecoverFramePointer new_fp;
      new_lr ← ok_or CouldNotRecoverReturnAddress new_lr;
      mret (new_fp, new_lr)
  else mret (default (fp regs) new_fp, default (lr regs) new_lr).

Definition generic_unwind_frame (section : UnwindSection) (unwind_info : UnwindTableRow) (encoding : Encoding)
    (is_first_frame : bool) (read_stack : stack_reader) :
    ST UnwindRegsAarch64 (DwarfUnwinderError GError) (UnwindResult UnwindRuleAarch64) :=
  let cfa_rule := row_cfa unwind_info in
  let fp_rule := row_register unwind_info DW_X29 in
  let lr_rule := row_register unwind_info DW_X30 in
  regs ← st_get;
  cfa ← st_lift (ok_or CouldNotRecoverCfa (eval_cfa_rule section cfa_rule encoding regs read_stack));
  '(fp, lr) ← st_lift (recovered_fp_lr section fp_rule lr_rule cfa encoding is_first_frame regs read_stack);
  _ ← st_modify (set_fp fp);
  _ ← st_modify (set_sp cfa);
  _ ← st_modify (set_lr lr);
  mret (Uncacheable lr).

Definition dwarf_unwind_frame_aarch64 (section : UnwindSection) (unwind_info : UnwindTableRow)
    (encoding : Encoding) (is_first_frame _is_signal_frame : bool) (read_stack : stack_reader) :
    ST UnwindRegsAarch64 (DwarfUnwinderError GError) (UnwindResult UnwindRuleAarch64) :=
  match translate_into_unwind_rule (row_cfa unwind_info) (row_register unwind_info DW_X29)
          (row_register unwind_info DW_X30) with
  | Ok unwind_rule => mret (ExecRule unwind_rule)
  | Err _ => generic_unwind_frame section unwind_info encoding is_first_frame read_stack
  end.

#[export] Instance DwarfUnwinding_aarch64 : DwarfUnwinding C UnwindRuleAarch64 UnwindRegsAarch64 := {
  dwarf_unwind_frame := dwarf_unwind_frame_aarch64;
  rule_if_uncovered_by_fde := NoOpIfFirstFrameOtherwiseFp;
}.

Lemma generic_no_rule_aarch64 section row enc first rs regs rule regs' :
  generic_unwind_frame section row enc first rs regs <> (Ok (ExecRule rule), regs').
Proof.
  unfold generic_unwind_frame. rewrite st_bind_spec, st_get_spec, st_bind_spec. cbv zeta. unfold st_lift at 1.
  destruct (ok_or _ _) as [cfa|]; [|done]. rewrite st_bind_spec. unfold st_lift at 1.
  by destruct (recovered_fp_lr _ _ _ _ _ _ _ _) as [[f l]|].
Qed.

#[export] Instance DwarfUnwindingLaws_aarch64 : DwarfUnwindingLaws C UnwindRuleAarch64 UnwindRegsAarch64.
Proof.
  intros section row enc first1 first2 signal rs1 rs2 regs1 regs2 rule regs'. cbn.
  unfold dwarf_unwind_frame_aarch64. destruct (translate_into_unwind_rule _ _ _) as [r|].
  - rewrite !st_ret_spec. by intros [= -> _].
  - by intros []%generic_no_rule_aarch64.
Qed.

(** ** Translation against the generic path *)

Lemma to_cfa_offset_Ok {X} (rule : option (RegisterRule X)) r :
  register_rule_to_cfa_offset rule = Ok r ->
  match r with
  | Some o => rule = Some (RR_Offset o)
  | None => rule = None \/ rule = Some RR_Undefined \/ rule = Some RR_SameValue
  end.
Proof. destruct rule as [[| |o| | | | | |]|]; intros; simplify_eq/=; auto. Qed.

Lemma generic_path_aarch64 section row enc first rs regs lr' regs' :
  generic_unwind_frame section row enc first rs regs = (Ok (Uncacheable lr'), regs') ->
  exists cfa fp', eval_cfa_rule section (row_cfa row) enc regs rs = Some cfa /\
    recovered_fp_lr section (row_register row DW_X29) (row_register row DW_X30) cfa enc first regs rs = Ok (fp', lr') /\
    regs' = set_lr lr' (set_sp cfa (set_fp fp' regs)).
Proof.
  intros Hg. unfold generic_unwind_frame in Hg. rewrite st_bind_spec, st_get_spec, st_bind_spec in Hg. cbv zeta in Hg.
  unfold st_lift at 1 in Hg. destruct (eval_cfa_rule _ _ _ _ _) as [cfa|] eqn:E; cbn [ok_or] in Hg; [|by simplify_eq].
  rewrite st_bind_spec in Hg. unfold st_lift in Hg.
  destruct (recovered_fp_lr _ _ _ _ _ _ _ _) as [[f l]|e] eqn:Er; [|by simplify_eq].
  rewrite !st_bind_spec, !st_modify_spec, !st_bind_spec, !st_modify_spec, !st_bind_spec, !st_modify_spec, st_ret_spec in Hg.
  simplify_eq. eauto.
Qed.

(** What a recovered pair says, when the saved registers can be read. *)
Definition recovered (first : bool) (r : option Z) (old new : Z) : Prop :=
  match r with Some v => v = new | None => first = true /\ new = old end.

Lemma recovered_spec section fr lrr cfa enc first regs rs f l :
  recovered_fp_lr section fr lrr cfa enc first regs rs = Ok (f, l) ->
  (first = false -> sp regs < cfa) /\
  recovered first (eval_register_rule section fr cfa enc (fp regs) regs rs) (fp regs) f /\
  recovered first (eval_register_rule section lrr cfa enc (lr regs) regs rs) (lr regs) l.
Proof.
  unfold recovered_fp_lr, recovered. destruct first; cbn [negb].
  - unfold mret, result_ret. intros [= <- <-].
    by destruct (eval_register_rule section fr _ _ _ _ _), (eval_register_rule section lrr _ _ _ _ _).
  - destruct (cfa <=? sp regs) eqn:E; [done|]. bool_to_prop.
    destruct (eval_register_rule section fr _ _ _ _ _); [|done].
    destruct (eval_register_rule section lrr _ _ _ _ _); [|done].
    cbn. unfold mret, result_ret. intros [= <- <-]. split; [lia|done].
Qed.

(** A register the row does not store keeps its value. *)
Lemma unsaved_keeps section rule cfa enc first old regs rs new :
  rule = None \/ rule = Some RR_Undefined \/ rule = Some RR_SameValue ->
  recovered first (eval_register_rule section rule cfa enc old regs rs) old new -> new = old.
Proof. intros [-> |[-> | ->]]; cbn; naive_solver. Qed.

(** A register stored at [CFA + o] is read from where the rule finds it. *)
Lemma storage_read section e base offset o y cfa enc old regs rs v (s : UnwindRegsAarch64) :
  storage_offset_by_8 e offset o = Ok y -> u64 base -> 0 <= offset < 2 ^ 20 -> (8 | offset) -> (8 | o) -> i64 o ->
  add_i64 base offset = Some cfa ->
  eval_register_rule section (Some (RR_Offset o)) cfa enc old regs rs = Some v ->
  read_at rs base y s = (Ok v, s).
Proof.
  intros Hy Hb Hoff [q ->] [q' ->] Ho Hcfa Hev. apply ok_or_Ok, try_s_Some in Hy as [-> Hy].
  apply add_i64_Some in Hcfa as (-> & Hi & Hc). cbn in Hev.
  destruct (add_i64 (base + q * 8) (q' * 8)) as [a|] eqn:Ea; [|done]. cbn in Hev.
  apply add_i64_Some in Ea as (-> & _ & Ha).
  assert (Hin : i64 (q * 8 + q' * 8)) by (unfold in_s, in_u in *; lia).
  rewrite as_s_small in Hy |- * by (done || lia).
  replace (q * 8 + q' * 8) with ((q + q') * 8) in * by lia. rewrite Z.quot_mul in Hy |- * by lia.
  unfold read_at. rewrite st_bind_spec, no_overflow_spec.
  assert (checked_add_signed base ((q + q') * 8) = Some (base + q * 8 + q' * 8)) as ->.
  { apply checked_add_signed_u64_Some; [done|unfold in_s in *; lia|]. unfold in_u in *. lia. }
  by rewrite read_word_spec, Hev.
Qed.

(** The end of [exec] for a new frame that advances. *)
Lemma exec_finish rule first rs regs l c f :
  new_lr_sp_fp rule first rs regs = (Ok (Some (l, c, f)), regs) ->
  strip_ptr_auth (lr_mask regs) l <> 0 -> (first = false -> sp regs < c) ->
  exec_aarch64 rule first rs regs =
    (Ok (Some (strip_ptr_auth (lr_mask regs) l)), set_lr l (set_sp c (set_fp f regs))).
Proof.
  intros Hn Hne Hadv. unfold exec_aarch64. rewrite st_bind_spec, st_get_spec, st_bind_spec, Hn.
  cbv beta iota zeta. rewrite (proj2 (Z.eqb_neq _ _) Hne).
  assert (negb first && (c =? sp regs) = false) as ->.
  { destruct first; [done|]. specialize (Hadv eq_refl). apply Z.eqb_neq. lia. }
  st_bind. done.
Qed.

Definition regs_wf (r : UnwindRegsAarch64) : Prop := u64 (sp r) /\ u64 (fp r) /\ u64 (lr r).

(** The row's offsets are multiples of the word size and keep the stack pointer
    aligned to 16 bytes, as the ABI demands. *)
Definition row_aligned (row : UnwindTableRow) : Prop :=
  (forall offset, row_cfa row = Cfa_RegisterAndOffset DW_SP offset -> (16 | offset)) /\
  (forall offset, row_cfa row = Cfa_RegisterAndOffset DW_X29 offset -> (8 | offset)) /\
  forall register o, row_register row register = Some (RR_Offset o) -> (8 | o) /\ i64 o.

(** The registers the row stores can be read. *)
Definition saved_readable section (row : UnwindTableRow) enc (regs : UnwindRegsAarch64) rs : Prop :=
  forall register o cfa old, row_register row register = Some (RR_Offset o) ->
    eval_cfa_rule section (row_cfa row) enc regs rs = Some cfa ->
    is_Some (eval_register_rule section (Some (RR_Offset o)) cfa enc old regs rs).

Definition uses_frame_pointer (rule : UnwindRuleAarch64) : Prop :=
  match rule with UseFramePointer | UseFramepointerWithOffsets _ _ _ => True | _ => False end.

Section agrees.
  Context (section : UnwindSection) (row : UnwindTableRow) (enc : Encoding) (first : bool) (rs : stack_reader)
    (regs : UnwindRegsAarch64) (cfa f l : Z).
  Context (Hwf : regs_wf regs) (Hal : row_aligned row) (Hread : saved_readable section row enc regs rs).
  Context (Hcfa : eval_cfa_rule section (row_cfa row) enc regs rs = Some cfa).
  Context (Hf : recovered first (eval_register_rule section (row_register row DW_X29) cfa enc (fp regs) regs rs) (fp regs) f).
  Context (Hl : recovered first (eval_register_rule section (row_register row DW_X30) cfa enc (lr regs) regs rs) (lr regs) l).

Lemma stored register o old new :
  row_register row register = Some (RR_Offset o) ->
  recovered first (eval_register_rule section (row_register row register) cfa enc old regs rs) old new ->
  eval_register_rule section (Some (RR_Offset o)) cfa enc old regs rs = Some new.
Proof using Hread Hcfa.
  intros Hr Hrec. rewrite Hr in Hrec. destruct (Hread register o cfa old Hr Hcfa) as [v Hv].
  rewrite Hv in Hrec |- *. cbn in Hrec. by subst.
Qed.

(** Rows whose CFA is an offset from the stack pointer. *)
Lemma agrees_sp offset rule :
  row_cfa row = Cfa_RegisterAndOffset DW_SP offset ->
  translate_into_unwind_rule (row_cfa row) (row_register row DW_X29) (row_register row DW_X30) = Ok rule ->
  (first = false -> row_register row DW_X30 <> Some RR_SameValue) ->
  new_lr_sp_fp rule first rs regs = (Ok (Some (l, cfa, f)), regs).
Proof using Hwf Hal Hread Hcfa Hf Hl.
  intros Hrow Htr Hsame. pose proof Hcfa as Hcf. rewrite Hrow in Hcf. cbn in Hcf.
  apply add_i64_Some in Hcf as HH. destruct HH as (Hc & Hi & Hb).
  destruct Hal as (Hal1 & _ & Halr). destruct (Hal1 _ Hrow) as [q Hq]. destruct Hwf as (Hsp & _ & _).
  rewrite Hrow in Htr. cbn in Htr. apply result_bind_Ok in Htr as (n & Hn & Htr).
  apply ok_or_Ok, try_u_Some in Hn as [Hnq Hn]. apply result_bind_Ok in Htr as (lo & Hlo & Htr).
  apply result_bind_Ok in Htr as (fo & Hfo & Htr). apply to_cfa_offset_Ok in Hlo, Hfo.
  rewrite Hq, Z.quot_mul in Hnq, Hn by lia. subst n.
  assert (Hadd : checked_add 64 (sp regs) (q * 16) = Some cfa).
  { apply checked_add_Some. unfold in_u in *. lia. }
  assert (Hoff : 0 <= offset < 2 ^ 20) by (unfold in_u in Hn; lia).
  assert (H8 : (8 | offset)) by (exists (q * 2); lia).
  unfold new_lr_sp_fp. rewrite st_bind_spec, st_get_spec. cbv zeta.
  assert (Hunsaved : lo = None -> first = true /\ l = lr regs).
  { intros ->. split; [|by eapply unsaved_keeps].
    destruct first; [done|]. exfalso. destruct Hlo as [Hr|[Hr|Hr]]; rewrite Hr in Hl; cbn in Hl.
    - by destruct Hl.
    - by destruct Hl.
    - by apply Hsame. }
  destruct lo as [lo|], fo as [fo|]; [| | |].
  - apply result_bind_Ok in Htr as (ly & Hly & Htr). apply result_bind_Ok in Htr as (fy & Hfy & Htr).
    unfold mret, result_ret in Htr. injection Htr as <-.
    destruct (Halr _ _ Hlo) as [? ?], (Halr _ _ Hfo) as [? ?].
    rewrite st_bind_spec, no_overflow_spec, Hadd, st_bind_spec.
    rewrite (storage_read section _ (sp regs) offset lo ly cfa enc (lr regs) regs rs l) by (done || by eapply stored).
    rewrite st_bind_spec.
    by rewrite (storage_read section _ (sp regs) offset fo fy cfa enc (fp regs) regs rs f) by (done || by eapply stored).
  - apply result_bind_Ok in Htr as (ly & Hly & Htr). unfold mret, result_ret in Htr. injection Htr as <-.
    destruct (Halr _ _ Hlo) as [? ?]. assert (f = fp regs) as -> by by eapply unsaved_keeps.
    rewrite st_bind_spec, no_overflow_spec, Hadd, st_bind_spec.
    by rewrite (storage_read section _ (sp regs) offset lo ly cfa enc (lr regs) regs rs l) by (done || by eapply stored).
  - done.
  - destruct Hunsaved as [Hfirst ->]; [done|]. assert (f = fp regs) as -> by by eapply unsaved_keeps.
    rewrite Hfirst. destruct Hlo as [Hr|[Hr|Hr]]; rewrite Hr in Htr; unfold mret, result_ret in Htr; injection Htr as <-;
      cbn [negb]; by rewrite st_bind_spec, no_overflow_spec, Hadd.
Qed.

(** Rows whose CFA is an offset from the frame pointer. *)
Lemma agrees_fp offset rule :
  row_cfa row = Cfa_RegisterAndOffset DW_X29 offset ->
  translate_into_unwind_rule (row_cfa row) (row_register row DW_X29) (row_register row DW_X30) = Ok rule ->
  f <> 0 -> fp regs < f -> sp regs < cfa ->
  new_lr_sp_fp rule first rs regs = (Ok (Some (l, cfa, f)), regs).
Proof using Hwf Hal Hread Hcfa Hf Hl.
  intros Hrow Htr Hf0 Hff Hsc. pose proof Hcfa as Hcf. rewrite Hrow in Hcf. cbn in Hcf.
  apply add_i64_Some in Hcf as HH. destruct HH as (Hc & Hi & Hb).
  destruct Hal as (_ & Hal2 & Halr). pose proof (Hal2 _ Hrow) as H8. destruct (Hal2 _ Hrow) as [q Hq]. destruct Hwf as (_ & Hfp & _).
  rewrite Hrow in Htr. cbn in Htr. apply result_bind_Ok in Htr as (lo & Hlo & Htr).
  apply result_bind_Ok in Htr as (lo' & Hlo' & Htr). apply ok_or_Ok in Hlo'. subst lo.
  apply result_bind_Ok in Htr as (fo & Hfo & Htr). apply result_bind_Ok in Htr as (fo' & Hfo' & Htr).
  apply ok_or_Ok in Hfo'. subst fo. apply to_cfa_offset_Ok in Hlo, Hfo.
  destruct (Halr _ _ Hlo) as [Hl8 Hl64], (Halr _ _ Hfo) as [Hf8 Hf64].
  pose proof (stored _ _ _ _ Hlo Hl) as Hlv. pose proof (stored _ _ _ _ Hfo Hf) as Hfv.
  unfold new_lr_sp_fp. rewrite st_bind_spec, st_get_spec. cbv zeta.
  destruct ((offset =? 16) && (fo' =? -16) && (lo' =? -8)) eqn:E.
  - bool_to_prop. unfold mret, result_ret in Htr. injection Htr as <-. cbn in Hlv, Hfv. rewrite Hc in Hlv, Hfv.
    destruct (add_i64 (fp regs + offset) lo') as [a|] eqn:Ea; [|done].
    destruct (add_i64 (fp regs + offset) fo') as [b|] eqn:Eb; [|done].
    apply add_i64_Some in Ea as (-> & _ & Ha), Eb as (-> & _ & Hb'). cbn in Hlv, Hfv.
    replace (fp regs + offset + fo') with (fp regs) in Hfv by lia.
    assert (checked_add 64 (fp regs) 16 = Some (fp regs + offset)) as Hadd.
    { apply checked_add_Some. unfold in_u in *. lia. }
    rewrite st_bind_spec, no_overflow_spec, Hadd, st_bind_spec, read_word_spec, <- Hc.
    replace (fp regs +64 8) with (fp regs + offset + lo') by (unfold_words; rewrite Z.mod_small; lia).
    rewrite Hlv, st_bind_spec, read_word_spec, Hfv, (proj2 (Z.eqb_neq f 0)) by done.
    by rewrite (proj2 (Z.leb_gt _ _) Hff), (proj2 (Z.leb_gt _ _) Hsc).
  - apply result_bind_Ok in Htr as (n & Hn & Htr). apply ok_or_Ok, try_u_Some in Hn as [Hnq Hn].
    apply result_bind_Ok in Htr as (ly & Hly & Htr). apply result_bind_Ok in Htr as (fy & Hfy & Htr).
    unfold mret, result_ret in Htr. injection Htr as <-.
    rewrite Hq, Z.quot_mul in Hnq, Hn by lia. subst n.
    assert (checked_add 64 (fp regs) (q * 8) = Some cfa) as Hadd.
    { apply checked_add_Some. unfold in_u in *. lia. }
    rewrite st_bind_spec, no_overflow_spec, Hadd, st_bind_spec.
    rewrite (storage_read section _ (fp regs) offset lo' ly cfa enc (lr regs) regs rs l)
      by (done || (unfold in_u in *; lia)).
    rewrite st_bind_spec.
    rewrite (storage_read section _ (fp regs) offset fo' fy cfa enc (fp regs) regs rs f)
      by (done || (unfold in_u in *; lia)).
    by rewrite (proj2 (Z.eqb_neq f 0)), (proj2 (Z.leb_gt _ _) Hff), (proj2 (Z.leb_gt _ _) Hsc) by done.
Qed.
End agrees.

(** C33: on aarch64 a translated rule unwinds a frame like the generic path it
    replaces. When the row translates, the registers it stores can be read and the
    generic path would recover the frame with the link register [lr'], then
    executing the rule leaves the same registers and returns [lr'] without its
    pointer authentication bits; the frame-pointer rules ask in addition that the
    caller's frame lies above this one, and a frame that keeps its own link
    register is only unwound as the first one. *)
Theorem translated_rule_agrees_aarch64 section row enc first rs regs rule lr' regs'
    (Hwf : regs_wf regs) (Hal : row_aligned row) (Hread : saved_readable section row enc regs rs)
    (Htr : translate_into_unwind_rule (row_cfa row) (row_register row DW_X29) (row_register row DW_X30) = Ok rule)
    (Hgen : generic_unwind_frame section row enc first rs regs = (Ok (Uncacheable lr'), regs'))
    (Hra : strip_ptr_auth (lr_mask regs) lr' <> 0)
    (Hsame : first = false -> row_register row DW_X30 <> Some RR_SameValue)
    (Hfp : uses_frame_pointer rule -> fp regs' <> 0 /\ fp regs < fp regs' /\ sp regs < sp regs') :
  exec_aarch64 rule first rs regs = (Ok (Some (strip_ptr_auth (lr_mask regs) lr')), regs').
Proof.
  apply generic_path_aarch64 in Hgen as (cfa & f & Hcfa & Hrec & ->).
  apply recovered_spec in Hrec as (Hadv & Hf & Hl). cbn [fp sp set_lr set_sp set_fp] in Hfp.
  apply exec_finish; [|done|done].
  destruct (row_cfa row) as [register offset|] eqn:Hrow; [|done]. cbn in Htr.
  destruct (register =? DW_SP) eqn:E1; bool_to_prop.
  - subst register. eapply agrees_sp; rewrite ?Hrow; done.
  - destruct (register =? DW_X29) eqn:E2; [|done]. bool_to_prop. subst register.
    destruct Hfp as (? & ? & ?); [|eapply agrees_fp; rewrite ?Hrow; done].
    apply result_bind_Ok in Htr as (? & _ & Htr). apply result_bind_Ok in Htr as (? & _ & Htr).
    apply result_bind_Ok in Htr as (? & _ & Htr). apply result_bind_Ok in Htr as (? & _ & Htr).
    destruct (_ && _); [unfold mret, result_ret in Htr; by simplify_eq|].
    apply result_bind_Ok in Htr as (? & _ & Htr). apply result_bind_Ok in Htr as (? & _ & Htr).
    apply result_bind_Ok in Htr as (? & _ & Htr). unfold mret, result_ret in Htr. by simplify_eq.
Qed.
End unwind.

(** ** A concrete frame: the frame record is at [sp], the frame is 32 bytes *)

Definition example_row_cfa : CfaRule evaluation := Cfa_RegisterAndOffset DW_SP 32.
Definition example_row_rules (register : Z) : option (RegisterRule evaluation) :=
  if register =? DW_X29 then Some (RR_Offset (-32))
  else if register =? DW_X30 then Some (RR_Offset (-24)) else None.

Definition example_stack (a : Z) : option Z :=
  if a =? 1000 then Some 5000 else if a =? 1008 then Some 7777 else None.

Lemma translated_rule_agrees_aarch64_witness :
  exec_aarch64 (OffsetSpAndRestoreFpAndLr 2 0 1) false example_stack (regs_new 4242 1000 2000) =
    (Ok (Some 7777), set_lr 7777 (set_sp 1032 (set_fp 5000 (regs_new 4242 1000 2000)))).
Proof.
  apply (@translated_rule_agrees_aarch64 unit (example_gimli example_row_cfa example_row_rules) example_section tt tt
    false example_stack (regs_new 4242 1000 2000) (OffsetSpAndRestoreFpAndLr 2 0 1) 7777).
  - split_and!; by vm_compute.
  - split_and!.
    + intros offset [= <-]. by exists 2.
    + intros offset [=].
    + intros register o. cbn. unfold example_row_rules. repeat case_match; intros; simplify_eq;
        (split; [|by vm_compute]); [by exists (-4)|by exists (-3)].
  - intros register o cfa old Hr Hc. vm_compute in Hc. injection Hc as <-. revert Hr. cbn.
    unfold example_row_rules. repeat case_match; intros; simplify_eq; by eexists.
  - reflexivity.
  - reflexivity.
  - by vm_compute.
  - discriminate.
  - intros [].
Defined.
