(* ===== verification/Compact.v ===== *)
(** * Compact unwind info

    Models [vendor/framehop/src/macho.rs] and the trait of
    [instruction_analysis.rs]: which rule an address gets from the stubs, from the
    compact unwind info of its function, or from the function's instructions. The
    [__unwind_info] section is parsed by the crate macho-unwind-info: its functions
    are the class [MachoUnwindInfo]. *)
From S2P Require Import Prelude UnwindRule.

(** ** Instruction analysis *)

(** [slice::split_at], which panics beyond the end. *)
Definition split_at {A} (l : list A) (mid : nat) : result panic (list A * list A) :=
  if (mid <=? length l)%nat then Ok (take mid l, drop mid l) else Err Panicked.

Class InstructionAnalysis (R : Type) : Type := {
  rule_from_prologue_analysis : list Z -> nat -> result panic (option R);
  rule_from_epilogue_analysis : list Z -> nat -> result panic (option R);
}.

Definition rule_from_instruction_analysis {R} `{InstructionAnalysis R} (text_bytes : list Z) (pc_offset : nat) :
    result panic (option R) :=
  r ← rule_from_prologue_analysis text_bytes pc_offset;
  match r with
  | Some rule => mret (Some rule)
  | None => rule_from_epilogue_analysis text_bytes pc_offset
  end.

(** Callers guarantee [pc_offset <= text_bytes.len()]; then the analysis returns. *)
Class InstructionAnalysisLaws (R : Type) `{InstructionAnalysis R} : Prop := {
  prologue_returns : forall bytes pc, (pc <= length bytes)%nat ->
    exists r, rule_from_prologue_analysis bytes pc = Ok r;
  epilogue_returns : forall bytes pc, (pc <= length bytes)%nat ->
    exists r, rule_from_epilogue_analysis bytes pc = Ok r;
}.

Lemma analysis_returns {R} `{InstructionAnalysisLaws R} bytes pc :
  (pc <= length bytes)%nat -> exists r, rule_from_instruction_analysis bytes pc = Ok r.
Proof.
  intros Hpc. unfold rule_from_instruction_analysis.
  destruct (prologue_returns bytes pc Hpc) as [[r|] ->]; cbn; [by eexists|]. by apply epilogue_returns.
Qed.

(** ** The [__unwind_info] section *)

(** A function's entry. *)
Record Function : Type := MkFunction {
  start_address : Z;
  end_address : Z;
  opcode : Z;
}.

Class MachoUnwindInfo : Type := {
  MachoError : Type;
  UnwindInfo : Type;
  unwind_info_parse : list Z -> result MachoError UnwindInfo;
  unwind_info_lookup : UnwindInfo -> Z -> result MachoError (option Function);
}.

Section compact.
  Context `{MachoUnwindInfo}.

Inductive CompactUnwindInfoUnwinderError : Type :=
  | BadFormat (e : MachoError)
  | AddressOutsideRange (address : Z)
  | CallerCannotBeFrameless
  | FunctionHasNoInfo
  | BpOffsetDoesNotFit
  | BadOpcodeKind (kind : Z)
  | NoTextBytesToLookUpIndirectStackOffset
  | IndirectStackOffsetOutOfBounds
  | StackAdjustOverflow
  | StackSizeDoesNotFit
  | StubFunctionCannotBeCaller
  | InvalidFrameless.

Inductive CuiUnwindResult (R : Type) : Type :=
  | CuiExecRule (rule : R)
  | NeedDwarf (fde_offset : Z).
End compact.
Arguments CuiExecRule {R}.
Arguments NeedDwarf {R}.

(** The computations of this file end with a result, an error or a panic. *)
Abbreviation cui_m A := (result (fault CompactUnwindInfoUnwinderError) A).

(** A computation that can only panic. *)
Definition may_panic {E A} (r : result panic A) : result (fault E) A := map_err (fun _ => Panic) r.

Class CompactUnwindInfoUnwinding (R : Type) `{MachoUnwindInfo} : Type := {
  cui_unwind_frame : Function -> bool -> nat -> option (list Z) -> cui_m (CuiUnwindResult R);
  rule_for_stub_helper : Z -> cui_m (CuiUnwindResult R);
}.

Record TextBytes : Type := MkTextBytes {
  offset_from_base_address : Z;
  tb_bytes : list Z;
}.

Section unwinder.
  Context {R Regs : Type} `{UnwindRule R Regs} `{MachoUnwindInfo} `{!CompactUnwindInfoUnwinding R}.

Record CompactUnwindInfoUnwinder : Type := MkCompactUnwinder {
  unwind_info_data : list Z;
  text_bytes : option TextBytes;
  stubs_range : Z * Z;
  stub_helper_range : Z * Z;
}.

Definition function_for_address (self : CompactUnwindInfoUnwinder) (address : Z) : cui_m Function :=
  unwind_info ← map_err (fun e => Fail (BadFormat e)) (unwind_info_parse (unwind_info_data self));
  function ← map_err (fun e => Fail (BadFormat e)) (unwind_info_lookup unwind_info address);
  ok_or (Fail (AddressOutsideRange address)) function.

(** The bytes of a function, when the text covers it. *)
Definition function_bytes (self : CompactUnwindInfoUnwinder) (function : Function) : option (list Z) :=
  text_bytes ← text_bytes self;
  start ← checked_sub 32 (start_address function) (offset_from_base_address text_bytes);
  stop ← checked_sub 32 (end_address function) (offset_from_base_address text_bytes);
  get_range (tb_bytes text_bytes) (Z.to_nat start) (Z.to_nat stop).

Definition in_u32_range (r : Z * Z) (a : Z) : bool := (r.1 <=? a) && (a <? r.2).

(** What [unwind_frame] does once it has the function. *)
Definition unwind_in_function (self : CompactUnwindInfoUnwinder) (function : Function)
    (rel_lookup_address : Z) (is_first_frame : bool) : cui_m (CuiUnwindResult R) :=
  if is_first_frame && (rel_lookup_address =? start_address function) then
    mret (CuiExecRule rule_for_function_start)
  else
    let address_offset_within_function :=
      Z.to_nat (wrapping_sub 32 rel_lookup_address (start_address function)) in
    cui_unwind_frame function is_first_frame address_offset_within_function (function_bytes self function).

Definition compact_unwind_frame (self : CompactUnwindInfoUnwinder) (rel_lookup_address : Z)
    (is_first_frame : bool) : cui_m (CuiUnwindResult R) :=
  if in_u32_range (stubs_range self) rel_lookup_address then
    if negb is_first_frame then Err (Fail StubFunctionCannotBeCaller)
    else mret (CuiExecRule rule_for_stub_functions)
  else if in_u32_range (stub_helper_range self) rel_lookup_address then
    if negb is_first_frame then Err (Fail StubFunctionCannotBeCaller)
    else rule_for_stub_helper (wrapping_sub 32 rel_lookup_address (stub_helper_range self).1)
  else
    match function_for_address self rel_lookup_address with
    | Ok function => unwind_in_function self function rel_lookup_address is_first_frame
    | Err (Fail (AddressOutsideRange a)) =>
        if is_first_frame then mret (CuiExecRule rule_for_stub_functions)
        else Err (Fail (AddressOutsideRange a))
    | Err err => Err err
    end.
End unwinder.

(** ** Panics *)

(** What the lookup relies on: the function found contains the address. *)
Definition lookup_contains `{MachoUnwindInfo} : Prop :=
  forall info a f, unwind_info_lookup info a = Ok (Some f) ->
    u32 (start_address f) /\ u32 (end_address f) /\ start_address f <= a < end_address f.

(** An architecture's rules return when the offset lies in the function. *)
Class CompactLaws (R : Type) `{CompactUnwindInfoUnwinding R} : Prop := {
  cui_returns : forall f first off bytes,
    (forall b, bytes = Some b -> (off <= length b)%nat) -> cui_unwind_frame f first off bytes <> Err Panic;
  stub_helper_returns : forall off, rule_for_stub_helper off <> Err Panic;
}.

Lemma function_bytes_length `{UnwindRule R Regs} (self : CompactUnwindInfoUnwinder) f b :
  start_address f <= end_address f -> function_bytes self f = Some b ->
  Z.of_nat (length b) = end_address f - start_address f.
Proof.
  intros Hle Hb. unfold function_bytes in Hb. destruct (text_bytes self) as [tb|]; [|done]. simpl in Hb.
  destruct (checked_sub 32 (start_address f) _) as [s|] eqn:Es; [|done].
  destruct (checked_sub 32 (end_address f) _) as [t|] eqn:Et; [|done]. simpl in Hb.
  apply checked_sub_Some in Es as [-> Hs], Et as [-> Ht].
  apply get_range_Some in Hb as (Hr & -> & _). unfold in_u in *. lia.
Qed.

(** Looking an address up never panics. *)
Lemma compact_unwind_frame_returns `{UnwindRule R Regs, CompactLaws R} (self : CompactUnwindInfoUnwinder) rel first :
  lookup_contains -> u32 rel -> compact_unwind_frame self rel first <> Err Panic.
Proof.
  intros Hl Hrel. unfold compact_unwind_frame. destruct (in_u32_range (stubs_range self) rel); [by destruct first|].
  destruct (in_u32_range (stub_helper_range self) rel).
  { destruct first; cbn [negb]; [apply stub_helper_returns|done]. }
  unfold function_for_address. destruct (unwind_info_parse _) as [info|]; [|done]. cbn.
  destruct (unwind_info_lookup info rel) as [[f|]|] eqn:E; cbn; [|by destruct first|done].
  destruct (Hl _ _ _ E) as (Hs & He & Hin). unfold unwind_in_function. destruct (first && _); [done|].
  apply cui_returns. intros b Hb. apply function_bytes_length in Hb; [|lia].
  unfold wrapping_sub. rewrite as_u_small by (unfold in_u in *; lia). lia.
Qed.
