(* ===== verification/X86Analysis.v ===== *)
(** * Instruction analysis on x86-64

    Models [vendor/framehop/src/x86_64/instruction_analysis/]: guessing from the
    bytes around the program counter whether it is in a prologue or an epilogue,
    and the rule that holds there. *)
From S2P Require Import Prelude AddSigned UnwindRule X86Regs X86Rules Compact.
#[local] Existing Instance AddSigned_u64.

(** [byte & 0xf8 == 0x50]: [push rXX]; [byte & 0xf8 == 0x58]: [pop rXX];
    [byte & 0xfe == 0x40]: the prefix of a register from r8 on. *)
Definition is_push_byte (b : Z) : bool := Z.land b 0xf8 =? 0x50.
Definition is_pop_byte (b : Z) : bool := Z.land b 0xf8 =? 0x58.
Definition is_prefix_byte (b : Z) : bool := Z.land b 0xfe =? 0x40.

(** ** Prologues *)

Definition is_next_instruction_expected_in_prologue (bytes : list Z) : bool :=
  match bytes with
  | b0 :: b1 :: b2 :: _ :: _ =>
      is_push_byte b0 || (is_prefix_byte b0 && is_push_byte b1)
      || bool_decide ([b0; b1] = [0x83; 0xec]) || bool_decide ([b0; b1; b2] = [0x48; 0x83; 0xec])
      || bool_decide ([b0; b1] = [0x81; 0xec]) || bool_decide ([b0; b1; b2] = [0x48; 0x81; 0xec])
      || bool_decide ([b0; b1; b2] = [0x48; 0x89; 0xe5])
  | _ => false
  end.

(** [push rbp; mov rbp, rsp] *)
Definition push_rbp_mov_rbp_rsp : list Z := [0x55; 0x48; 0x89; 0xe5].

(** The backward walk from [cursor], counting pushes. *)
Fixpoint prologue_loop (slice_from_start : list Z) (cursor : nat) (sp_offset_by_8 : Z) : UnwindRuleX86_64 :=
  if bool_decide (4 <= cursor)%nat &&
     bool_decide (get_range slice_from_start (cursor - 4) cursor = Some push_rbp_mov_rbp_rsp)
  then UseFramePointer
  else
    let stop := OffsetSp (as_u 16 (sp_offset_by_8 + 1)) in
    match cursor with
    | O => stop
    | S cursor' =>
        if is_push_byte (nth cursor' slice_from_start 0) then
          let sp_offset_by_8 := as_u 16 (sp_offset_by_8 + 1) in
          match cursor' with
          | O => prologue_loop slice_from_start cursor' sp_offset_by_8
          | S cursor'' =>
              if is_prefix_byte (nth cursor'' slice_from_start 0)
              then prologue_loop slice_from_start cursor'' sp_offset_by_8
              else prologue_loop slice_from_start cursor' sp_offset_by_8
          end
        else stop
    end.

Definition unwind_rule_from_detected_prologue (text_bytes : list Z) (pc_offset : nat) :
    result panic (option UnwindRuleX86_64) :=
  '(slice_from_start, slice_to_end) ← split_at text_bytes pc_offset;
  if is_next_instruction_expected_in_prologue slice_to_end
  then mret (Some (prologue_loop slice_from_start (length slice_from_start) 0))
  else mret None.

(** ** Epilogues *)

(** The loop: the number of pops before the return or tail call, and which of them
    restores [rbp], or [None] when this is not an epilogue. *)
Fixpoint epilogue_loop (slice_from_start bytes : list Z) (sp_offset_by_8 : Z) (bp_offset_by_8 : option Z) :
    option (Z * option Z) :=
  match bytes with
  | [] => None
  | b0 :: rest =>
      if b0 =? 0xc3 then Some (sp_offset_by_8, bp_offset_by_8)
      else if (b0 =? 0xeb) || (b0 =? 0xe9) || (b0 =? 0xff) then
        if negb (sp_offset_by_8 =? 0) then Some (sp_offset_by_8, bp_offset_by_8)
        else
          match last slice_from_start with
          | Some potential_pop_byte =>
              if is_pop_byte potential_pop_byte then Some (sp_offset_by_8, bp_offset_by_8) else None
          | None => None
          end
      else if b0 =? 0x5d then
        epilogue_loop slice_from_start rest (as_u 16 (sp_offset_by_8 + 1)) (Some (as_s 16 sp_offset_by_8))
      else if (0x58 <=? b0) && (b0 <=? 0x5f) then
        epilogue_loop slice_from_start rest (as_u 16 (sp_offset_by_8 + 1)) bp_offset_by_8
      else
        match rest with
        | b1 :: rest' =>
            if is_prefix_byte b0 && is_pop_byte b1
            then epilogue_loop slice_from_start rest' (as_u 16 (sp_offset_by_8 + 1)) bp_offset_by_8
            else None
        | [] => None
        end
  end.

(** The rule for what the loop found. *)
Definition epilogue_rule (sp_offset_by_8 : Z) (bp_offset_by_8 : option Z) : UnwindRuleX86_64 :=
  if sp_offset_by_8 =? 0 then JustReturn
  else
    let sp_offset_by_8 := as_u 16 (sp_offset_by_8 + 1) in
    match bp_offset_by_8 with
    | Some bp_storage_offset_from_sp_by_8 => OffsetSpAndRestoreBp sp_offset_by_8 bp_storage_offset_from_sp_by_8
    | None => OffsetSp sp_offset_by_8
    end.

Definition unwind_rule_from_detected_epilogue (text_bytes : list Z) (pc_offset : nat) :
    result panic (option UnwindRuleX86_64) :=
  '(slice_from_start, slice_to_end) ← split_at text_bytes pc_offset;
  mret ((fun '(sp_off, bp_off) => epilogue_rule sp_off bp_off) <$>
        epilogue_loop slice_from_start slice_to_end 0 None).

#[export] Instance InstructionAnalysis_x86_64 : InstructionAnalysis UnwindRuleX86_64 := {
  rule_from_prologue_analysis := unwind_rule_from_detected_prologue;
  rule_from_epilogue_analysis := unwind_rule_from_detected_epilogue;
}.

#[export] Instance InstructionAnalysisLaws_x86_64 : InstructionAnalysisLaws UnwindRuleX86_64.
Proof.
  split; intros bytes pc Hpc; cbn; unfold unwind_rule_from_detected_prologue, unwind_rule_from_detected_epilogue, split_at;
    rewrite (proj2 (Nat.leb_le _ _) Hpc); cbn; [case_match|]; by eexists.
Qed.

(** ** [push] and [pop] as the processor decodes them

    An opcode byte holds the low bits of the register's number; a REX prefix (0x40
    without, 0x41 with the B bit) gives its high bit. *)
Record stack_instr : Type := MkStackInstr { rex : option Z; low : Z }.

Definition encodable (i : stack_instr) : Prop :=
  0 <= low i < 8 /\ (rex i = None \/ rex i = Some 0x40 \/ rex i = Some 0x41).

Definition reg_number (i : stack_instr) : Z := low i + (if decide (rex i = Some 0x41) then 8 else 0).
Definition NUMBER_RSP : Z := 4.
Definition NUMBER_RBP : Z := 5.

Definition instr_bytes (base : Z) (i : stack_instr) : list Z :=
  match rex i with
  | Some prefix => [prefix; base + low i]
  | None => [base + low i]
  end.
Definition pop_bytes : stack_instr -> list Z := instr_bytes 0x58.
Definition push_bytes : stack_instr -> list Z := instr_bytes 0x50.

(** A statement about a byte that holds for all 256. *)
Lemma all_bytes (P : Z -> bool) b : forallb P (seqZ 0 256) = true -> u8 b -> P b = true.
Proof.
  intros Hall Hb. rewrite forallb_forall in Hall. apply Hall, list_elem_of_In, elem_of_seqZ. unfold in_u in Hb. lia.
Qed.

Lemma is_pop_byte_range b : u8 b -> is_pop_byte b = (0x58 <=? b) && (b <=? 0x5f).
Proof.
  intros Hb. pose proof (all_bytes (fun b => Bool.eqb (is_pop_byte b) ((0x58 <=? b) && (b <=? 0x5f))) b
    ltac:(by vm_compute) Hb) as H. by apply Bool.eqb_prop.
Qed.

Lemma is_push_byte_range b : u8 b -> is_push_byte b = (0x50 <=? b) && (b <=? 0x57).
Proof.
  intros Hb. pose proof (all_bytes (fun b => Bool.eqb (is_push_byte b) ((0x50 <=? b) && (b <=? 0x57))) b
    ltac:(by vm_compute) Hb) as H. by apply Bool.eqb_prop.
Qed.

Lemma is_prefix_byte_range b : u8 b -> is_prefix_byte b = (b =? 0x40) || (b =? 0x41).
Proof.
  intros Hb. pose proof (all_bytes (fun b => Bool.eqb (is_prefix_byte b) ((b =? 0x40) || (b =? 0x41))) b
    ltac:(by vm_compute) Hb) as H. by apply Bool.eqb_prop.
Qed.

(** The opcode has eight cases and the prefix three. *)
Ltac case_instr H :=
  let r := fresh "r" in let k := fresh "k" in
  match type of H with encodable ?i => destruct i as [r k] end;
  destruct H as [? H]; cbn [rex low] in *;
  let Hk := fresh in
  assert (Hk : k = 0 \/ k = 1 \/ k = 2 \/ k = 3 \/ k = 4 \/ k = 5 \/ k = 6 \/ k = 7) by lia;
  destruct H as [-> | [-> | ->]]; destruct Hk as [-> | [-> | [-> | [-> | [-> | [-> | [-> | ->]]]]]]].

(** ** Executing an epilogue *)

(** Running the pops: the stack pointer and [rbp]. Every word is read; what is popped
    into other registers does not matter to the caller's frame. *)
Fixpoint run_pops (pops : list stack_instr) (rs : stack_reader) (sp bp : Z) : option (Z * Z) :=
  match pops with
  | [] => Some (sp, bp)
  | i :: pops =>
      v ← rs sp;
      run_pops pops rs (if reg_number i =? NUMBER_RSP then v else sp + 8)
        (if reg_number i =? NUMBER_RBP then v else bp)
  end.

(** A return, or a jump right after a [pop]: one of [pops], or the instruction before
    the program counter as far as its last byte tells. *)
Definition ends_epilogue (before : list Z) (pops : list stack_instr) (tail : list Z) : Prop :=
  exists b rest, tail = b :: rest /\
    (b = 0xc3 \/
     b ∈ [0xeb; 0xe9; 0xff] /\ (pops <> [] \/ exists p, last before = Some p /\ 0x58 <= p <= 0x5f)).

(** The program counter is in an epilogue: [pops] are left, and then it ends. *)
Definition in_epilogue (text_bytes : list Z) (pc_offset : nat) (pops : list stack_instr) : Prop :=
  Forall encodable pops /\
  exists tail, drop pc_offset text_bytes = concat (pop_bytes <$> pops) ++ tail /\
    ends_epilogue (take pc_offset text_bytes) pops tail.

(** No [pop rsp], and no [pop rbp] with a redundant prefix. *)
Definition usual_pop (i : stack_instr) : Prop :=
  reg_number i <> NUMBER_RSP /\ (reg_number i = NUMBER_RBP -> rex i = None).

(** The position of the last plain [pop rbp], counted from [n]. *)
Definition plain_rbp (i : stack_instr) : bool := bool_decide (rex i = None) && (low i =? 5).

Fixpoint last_rbp (pops : list stack_instr) (n : Z) (acc : option Z) : option Z :=
  match pops with
  | [] => acc
  | i :: pops => last_rbp pops (n + 1) (if plain_rbp i then Some n else acc)
  end.

(** The loop on [pops] and then [tail]. *)
Lemma epilogue_loop_pop from i bytes n acc :
  encodable i -> 0 <= n < 2 ^ 15 - 1 ->
  epilogue_loop from (pop_bytes i ++ bytes) n acc =
    epilogue_loop from bytes (n + 1) (if plain_rbp i then Some n else acc).
Proof.
  intros Hi Hn. assert (Hu : as_u 16 (n + 1) = n + 1) by (apply as_u_small; unfold in_u; lia).
  assert (Hs : as_s 16 n = n) by (apply as_s_small; [lia|unfold in_s; lia]).
  case_instr Hi; unfold pop_bytes, instr_bytes, plain_rbp; cbn [rex low app epilogue_loop];
    cbn -[epilogue_loop as_u as_s]; rewrite ?Hu, ?Hs; done.
Qed.

Lemma epilogue_loop_run from pops tail n acc :
  Forall encodable pops -> 0 <= n -> n + Z.of_nat (length pops) < 2 ^ 15 ->
  (n <> 0 \/ ends_epilogue from pops tail) -> (n <> 0 -> exists b rest, tail = b :: rest /\ b ∈ [0xc3; 0xeb; 0xe9; 0xff]) ->
  Forall u8 from ->
  epilogue_loop from (concat (pop_bytes <$> pops) ++ tail) n acc =
    Some (n + Z.of_nat (length pops), last_rbp pops n acc).
Proof.
  intros Hp. revert n acc. induction Hp as [|i pops Hi Hp IH]; intros n acc Hn Hb Hend Htail Hu.
  - cbn [fmap list_fmap concat app last_rbp length]. rewrite Z.add_0_r.
    assert (exists b rest, tail = b :: rest /\ (b = 0xc3 \/ b ∈ [0xeb; 0xe9; 0xff] /\
      (n <> 0 \/ exists p, last from = Some p /\ 0x58 <= p <= 0x5f))) as (b & rest & -> & Hcase).
    { destruct Hend as [Hne|(b & rest & -> & [Hc|[Hc [|Hl]]])]; [|by exists b, rest; auto|done|by exists b, rest; auto].
      destruct (Htail Hne) as (b & rest & -> & Hc). exists b, rest. split; [done|]. set_solver. }
    cbn [epilogue_loop]. destruct (Z.eqb_spec b 0xc3) as [|Hne]; [done|]. destruct Hcase as [|[Hc Hcase]]; [done|].
    replace ((b =? 0xeb) || (b =? 0xe9) || (b =? 0xff)) with true
      by (symmetry; rewrite !orb_true_iff, !Z.eqb_eq; set_solver).
    destruct (Z.eqb_spec n 0) as [->|Hn0]; [|done]. cbn [negb]. destruct Hcase as [|(q & Hq & Hr)]; [done|].
    rewrite Hq, is_pop_byte_range by (apply last_Some in Hq as (l & ->); apply Forall_app in Hu as [_ Hu]; by inversion Hu).
    by rewrite (proj2 (Z.leb_le _ _)), (proj2 (Z.leb_le _ _)) by lia.
  - cbn [fmap list_fmap concat last_rbp length] in *. rewrite <- app_assoc, epilogue_loop_pop by (done || lia).
    rewrite IH; [f_equal; f_equal; lia|lia|lia|left; lia| |done].
    intros _. destruct (decide (n = 0)) as [->|Hn0]; [|by apply Htail].
    destruct Hend as [|(b & rest & -> & Hc)]; [done|]. exists b, rest. split; [done|]. set_solver.
Qed.

(** Conversely, what the loop accepts is an epilogue. *)
Lemma epilogue_loop_decodes from bytes n acc res :
  Forall u8 from -> Forall u8 bytes -> epilogue_loop from bytes n acc = Some res ->
  exists pops tail, Forall encodable pops /\ bytes = concat (pop_bytes <$> pops) ++ tail /\
    exists b rest, tail = b :: rest /\ (b = 0xc3 \/ b ∈ [0xeb; 0xe9; 0xff] /\
      (n <> 0 \/ pops <> [] \/ exists p, last from = Some p /\ 0x58 <= p <= 0x5f)).
Proof.
  intros Hfrom. remember (length bytes) as len eqn:Hlen. assert (Hle : (length bytes <= len)%nat) by lia. clear Hlen.
  revert bytes n acc Hle. induction len as [|len IH]; intros bytes n acc Hle Hu Hl.
  { destruct bytes; simpl in *; [done|lia]. }
  destruct bytes as [|b0 rest]; [done|]. cbn [length epilogue_loop] in *. apply Forall_cons in Hu as [Hb0 Hu].
  assert (Hstep : forall i r acc', b0 :: rest = pop_bytes i ++ r -> encodable i -> (length r <= len)%nat -> Forall u8 r ->
    epilogue_loop from r (as_u 16 (n + 1)) acc' = Some res ->
    exists pops tail, Forall encodable pops /\ b0 :: rest = concat (pop_bytes <$> pops) ++ tail /\
      exists b rest, tail = b :: rest /\ (b = 0xc3 \/ b ∈ [0xeb; 0xe9; 0xff] /\
        (n <> 0 \/ pops <> [] \/ exists p, last from = Some p /\ 0x58 <= p <= 0x5f))).
  { intros i r acc' Hi Henc Hr Hur Hloop.
    destruct (IH r _ acc' Hr Hur Hloop) as (pops & tail & Hp & -> & b & rest' & -> & Hc).
    exists (i :: pops), (b :: rest'). split_and!; [by constructor| |].
    - rewrite Hi. cbn. by rewrite <- app_assoc.
    - exists b, rest'. split; [done|]. destruct Hc as [|[Hc _]]; [by left|right]. split; [done|by right; left]. }
  destruct (Z.eqb_spec b0 0xc3) as [->|E1].
  { exists [], (0xc3 :: rest). split_and!; [constructor|done|]. exists 0xc3, rest. split; [done|by left]. }
  destruct ((b0 =? 0xeb) || (b0 =? 0xe9) || (b0 =? 0xff)) eqn:E2.
  { exists [], (b0 :: rest). split_and!; [constructor|done|]. exists b0, rest. split; [done|]. right.
    rewrite !orb_true_iff, !Z.eqb_eq in E2. split; [set_solver|].
    destruct (Z.eqb_spec n 0) as [->|]; [|by left]. cbn [negb] in Hl. right; right.
    destruct (last from) as [q|] eqn:Hq; [|done]. exists q. split; [done|].
    rewrite is_pop_byte_range in Hl by (apply last_Some in Hq as (l & ->); apply Forall_app in Hfrom as [_ Hf]; by inversion Hf).
    destruct (_ && _) eqn:E in Hl; [|done]. bool_to_prop. lia. }
  destruct (Z.eqb_spec b0 0x5d) as [->|E3].
  { eapply (Hstep (MkStackInstr None 5)); [reflexivity|split; [done|by left]|lia|done|exact Hl]. }
  destruct ((0x58 <=? b0) && (b0 <=? 0x5f)) eqn:E4.
  { bool_to_prop. eapply (Hstep (MkStackInstr None (b0 - 0x58)) rest); [|split; [cbn; lia|by left]|lia|done|exact Hl].
    unfold pop_bytes, instr_bytes. cbn. f_equal. lia. }
  destruct rest as [|b1 rest]; [done|]. apply Forall_cons in Hu as [Hb1 Hu].
  rewrite is_prefix_byte_range, is_pop_byte_range in Hl by done. destruct (_ && _) eqn:E5 in Hl; [|done].
  apply andb_true_iff in E5 as [E5 E6]. bool_to_prop.
  eapply (Hstep (MkStackInstr (Some b0) (b1 - 0x58)) rest);
    [|split; [cbn; lia|]|cbn [length] in *; lia|done|exact Hl].
  - unfold pop_bytes, instr_bytes. cbn. do 2 f_equal. lia.
  - cbn. right. destruct E5; bool_to_prop; [left|right]; congruence.
Qed.

Lemma last_rbp_is_Some pops n acc : is_Some acc -> is_Some (last_rbp pops n acc).
Proof.
  revert n acc. induction pops as [|i pops IH]; intros n acc Ha; cbn; [done|]. apply IH. destruct (plain_rbp i); [by eexists|done].
Qed.

Lemma usual_pop_rbp i : encodable i -> usual_pop i ->
  (reg_number i =? NUMBER_RSP) = false /\ (reg_number i =? NUMBER_RBP) = plain_rbp i.
Proof.
  intros Hi. case_instr Hi; unfold usual_pop, NUMBER_RSP, NUMBER_RBP, plain_rbp, reg_number; cbn; intros [H1 H2]; try done;
    by specialize (H2 eq_refl).
Qed.

(** Where the pops leave the stack pointer and [rbp]. *)
Lemma run_pops_spec pops rs sp bp n acc :
  Forall encodable pops -> Forall usual_pop pops ->
  0 <= n -> (forall k, acc = Some k -> rs (sp + 8 * (k - n)) = Some bp) ->
  forall sp' bp', run_pops pops rs sp bp = Some (sp', bp') ->
  sp' = sp + 8 * Z.of_nat (length pops) /\
  match last_rbp pops n acc with
  | Some k => rs (sp + 8 * (k - n)) = Some bp'
  | None => bp' = bp
  end.
Proof.
  intros He. revert sp bp n acc. induction He as [|i pops Hi He IH]; intros sp bp n acc Hu Hn Hacc sp' bp' Hr.
  { cbn in *. simplify_eq. split; [lia|]. destruct acc; [by apply Hacc|done]. }
  apply Forall_cons in Hu as [Hui Hu]. cbn [run_pops last_rbp length] in *.
  destruct (usual_pop_rbp i Hi Hui) as [Hsp Hbp]. rewrite Hsp, Hbp in Hr.
  destruct (rs sp) as [v|] eqn:Ev; [|done]. cbn in Hr.
  destruct (IH (sp + 8) (if plain_rbp i then v else bp) (n + 1) (if plain_rbp i then Some n else acc) Hu)
    with (sp' := sp') (bp' := bp') as [-> Hl]; [lia| |exact Hr|].
  - intros k. destruct (plain_rbp i).
    + intros [= <-]. rewrite <- Ev. f_equal. lia.
    + intros Hk. rewrite <- (Hacc k Hk). f_equal. lia.
  - split; [lia|]. destruct (last_rbp pops _ _) as [k|] eqn:Ek.
    + rewrite <- Hl. f_equal. lia.
    + destruct (plain_rbp i); [|done]. destruct (last_rbp_is_Some pops (n + 1) (Some n)) as [? ?]; [by eexists|congruence].
Qed.

(** ** The rule of an epilogue *)

Lemma last_rbp_bounds pops n acc k :
  (forall a, acc = Some a -> 0 <= a < n) -> 0 <= n ->
  last_rbp pops n acc = Some k -> 0 <= k < n + Z.of_nat (length pops).
Proof.
  revert n acc. induction pops as [|i pops IH]; intros n acc Ha Hn Hk; cbn in *; [specialize (Ha _ Hk); lia|].
  destruct (plain_rbp i); eapply IH in Hk; try lia; intros a Hs; try (specialize (Ha _ Hs); lia); injection Hs as <-; lia.
Qed.

(** Executing a rule that ends [m] words up the stack. *)
Lemma finish_exec_at rs regs m b ra :
  u64 (sp regs) -> 0 < m -> sp regs + 8 * m < 2 ^ 64 -> rs (sp regs + 8 * m - 8) = Some ra -> ra <> 0 ->
  finish_exec (sp regs) (sp regs + 8 * m) b rs regs =
    (Ok (Some ra), set_bp b (set_sp (sp regs + 8 * m) (set_ip ra regs))).
Proof.
  intros Hsp Hm Hb Hread Hra. unfold finish_exec. rewrite st_bind_spec, read_word_spec. unfold in_u in Hsp.
  replace (sp regs + 8 * m -64 8) with (sp regs + 8 * m - 8) by (unfold_words; rewrite Z.mod_small; lia).
  rewrite Hread, (proj2 (Z.eqb_neq ra 0)) by done. rewrite st_bind_spec, st_get_spec.
  rewrite (proj2 (Z.eqb_neq (sp regs + 8 * m) (sp regs))) by lia. by st_bind.
Qed.

Lemma epilogue_rule_exec pops rs regs first sp' bp' ra :
  Forall encodable pops -> Forall usual_pop pops -> Z.of_nat (length pops) < 2 ^ 15 - 1 ->
  regs_wf regs -> sp' + 8 < 2 ^ 64 -> ra <> 0 ->
  run_pops pops rs (sp regs) (bp regs) = Some (sp', bp') -> rs sp' = Some ra ->
  exec_x86_64 (epilogue_rule (Z.of_nat (length pops)) (last_rbp pops 0 None)) first rs regs =
    (Ok (Some ra), set_bp bp' (set_sp (sp' + 8) (set_ip ra regs))).
Proof.
  intros He Hu Hpl Hwf Hsp' Hra Hrun Hread.
  pose proof (reg_get_u64 regs RSP Hwf) as Hsp. change (reg_get regs RSP) with (sp regs) in Hsp.
  apply (run_pops_spec _ _ _ _ 0 None) in Hrun as [-> Hbp]; [|done..].
  set (n := Z.of_nat (length pops)) in *. pose proof Hsp as Hsp2. unfold in_u in Hsp2.
  replace (sp regs + 8 * n + 8) with (sp regs + 8 * (n + 1)) in * by lia.
  assert (Hfin : forall b, finish_exec (sp regs) (sp regs + 8 * (n + 1)) b rs regs =
    (Ok (Some ra), set_bp b (set_sp (sp regs + 8 * (n + 1)) (set_ip ra regs)))).
  { intros b. apply finish_exec_at; [done|lia|done| |done]. rewrite <- Hread. f_equal. lia. }
  assert (Hadd : checked_add 64 (sp regs) ((n + 1) * 8) = Some (sp regs + 8 * (n + 1))).
  { apply checked_add_Some. unfold in_u. lia. }
  unfold epilogue_rule, exec_x86_64, new_sp_bp. destruct (n =? 0) eqn:E0; bool_to_prop.
  - assert (pops = []) as -> by (destruct pops; [done|]; cbn in n; lia). cbn in Hbp. subst bp'.
    st_bind. rewrite no_overflow_spec. change (checked_add 64 (sp regs) 8) with (checked_add 64 (sp regs) ((0 + 1) * 8)).
    rewrite <- E0, Hadd. apply Hfin.
  - rewrite as_u_small by (unfold in_u; lia).
    destruct (last_rbp pops 0 None) as [k|] eqn:Ek.
    + apply last_rbp_bounds in Ek; [|done|lia]. st_bind. rewrite no_overflow_spec, Hadd.
      rewrite st_bind_spec, no_overflow_spec.
      assert (checked_add_signed (sp regs) (k * 8) = Some (sp regs + 8 * (k - 0))) as ->.
      { apply checked_add_signed_u64_Some; unfold in_u, in_s; lia. }
      rewrite st_bind_spec, Hbp, st_ret_spec. apply Hfin.
    + subst bp'. st_bind. rewrite no_overflow_spec, Hadd. apply Hfin.
Qed.

(** C34: the analysis finds exactly the epilogues, and their rule unwinds like running
    them. It gives a rule if and only if the bytes at the program counter decode as
    [pop]s (fewer than 2^15 - 1) followed by a return, or by a jump with a [pop] before it.
    Where no [pop] is a [pop rsp] or a [pop rbp] with a redundant prefix, executing the rule gives
    the stack pointer, the [rbp] and the return address that running these [pop]s
    and returning leaves, each [pop] writing the register its encoding names. *)
Theorem epilogue_rule_unwinds text_bytes pc_offset
    (Hu8 : Forall u8 text_bytes) (Hpc : (pc_offset <= length text_bytes)%nat) :
  (forall pops, in_epilogue text_bytes pc_offset pops -> Z.of_nat (length pops) < 2 ^ 15 - 1 ->
     exists rule, rule_from_epilogue_analysis text_bytes pc_offset = Ok (Some rule) /\
       (Forall usual_pop pops -> forall rs regs first sp' bp' ra,
          regs_wf regs -> sp' + 8 < 2 ^ 64 -> ra <> 0 ->
          run_pops pops rs (sp regs) (bp regs) = Some (sp', bp') -> rs sp' = Some ra ->
          exec_x86_64 rule first rs regs = (Ok (Some ra), set_bp bp' (set_sp (sp' + 8) (set_ip ra regs))))) /\
  ((forall pops, ~ in_epilogue text_bytes pc_offset pops) ->
     rule_from_epilogue_analysis text_bytes pc_offset = Ok None).
Proof.
  cbn [rule_from_epilogue_analysis InstructionAnalysis_x86_64]. unfold unwind_rule_from_detected_epilogue, split_at.
  rewrite (proj2 (Nat.leb_le _ _) Hpc). cbn [mbind result_bind]. unfold mret, result_ret. split.
  - intros pops (He & tail & Hbytes & Hend) Hpl. rewrite Hbytes.
    rewrite epilogue_loop_run by (try done; try lia; first [by right|by apply Forall_take]). cbn [fmap option_fmap option_map].
    eexists. split; [reflexivity|]. intros Hu rs regs first sp' bp' ra. by apply epilogue_rule_exec.
  - intros Hno. destruct (epilogue_loop _ _ 0 None) as [res|] eqn:El; [|done]. exfalso.
    apply epilogue_loop_decodes in El as (pops & tail & He & Hb & b & rest & -> & Hc);
      [|by apply Forall_take|by apply Forall_drop].
    apply (Hno pops). split; [done|]. exists (b :: rest). split; [done|]. exists b, rest. split; [done|].
    destruct Hc as [|[? [|]]]; [by left|done|by right].
Qed.

(** ** Executing a prologue *)

(** Pushing words, first to last: the stack and the stack pointer. *)
Fixpoint run_pushes (values : list Z) (rs : stack_reader) (sp : Z) : stack_reader * Z :=
  match values with
  | [] => (rs, sp)
  | v :: values => run_pushes values (fun a => if a =? sp - 8 then Some v else rs a) (sp - 8)
  end.

(** The start of a function, up to the program counter: nothing or [push rbp;
    mov rbp, rsp], and then pushes. *)
Definition setup_bytes (frame_pointer : bool) : list Z := if frame_pointer then push_rbp_mov_rbp_rsp else [].
Definition prologue_bytes (frame_pointer : bool) (pushes : list stack_instr) : list Z :=
  setup_bytes frame_pointer ++ concat (push_bytes <$> pushes).

(** Running it from the stack pointer [sp] with [bp] in [rbp]: the stack, the stack
    pointer and [rbp]. *)
Definition run_prologue (frame_pointer : bool) (values : list Z) (rs : stack_reader) (sp bp : Z) : stack_reader * Z * Z :=
  if frame_pointer then
    let '(rs, sp) := run_pushes [bp] rs sp in (run_pushes values rs sp, sp)
  else (run_pushes values rs sp, bp).

(** What may come next in a prologue: a push, [sub rsp, imm] or [mov rbp, rsp]. *)
Definition next_in_prologue (next : list Z) : Prop :=
  (4 <= length next)%nat /\
  ((exists i, encodable i /\ push_bytes i `prefix_of` next) \/
   [0x83; 0xec] `prefix_of` next \/ [0x48; 0x83; 0xec] `prefix_of` next \/
   [0x81; 0xec] `prefix_of` next \/ [0x48; 0x81; 0xec] `prefix_of` next \/
   [0x48; 0x89; 0xe5] `prefix_of` next).

(** The code before the function cannot be taken for a part of it: its last byte is
    neither that of a push nor a prefix, nor does it end in a frame set-up. *)
Definition stops_before (before : list Z) : Prop :=
  match last before with
  | Some b => is_push_byte b = false /\ is_prefix_byte b = false
  | None => True
  end /\ forall l, before <> l ++ push_rbp_mov_rbp_rsp.

Lemma next_in_prologue_expected next :
  Forall u8 next -> is_next_instruction_expected_in_prologue next = true <-> next_in_prologue next.
Proof.
  intros Hu. unfold is_next_instruction_expected_in_prologue, next_in_prologue.
  destruct next as [|b0 [|b1 [|b2 [|b3 next]]]]; try (split; [done|intros [Hl _]; cbn in Hl; lia]).
  repeat match goal with H : Forall u8 (_ :: _) |- _ => apply Forall_cons in H as [? H] end.
  rewrite !orb_true_iff, andb_true_iff, !bool_decide_eq_true. unfold push_bytes.
  rewrite !is_push_byte_range, is_prefix_byte_range by done.
  assert (Hp : forall a b c, [a; b; c] `prefix_of` b0 :: b1 :: b2 :: b3 :: next <-> [b0; b1; b2] = [a; b; c]).
  { intros a b c. split; [by intros [l [= -> -> -> _]]|intros [= -> -> ->]; by eexists]. }
  assert (Hp2 : forall a b, [a; b] `prefix_of` b0 :: b1 :: b2 :: b3 :: next <-> [b0; b1] = [a; b]).
  { intros a b. split; [by intros [l [= -> -> _]]|intros [= -> ->]; by eexists]. }
  rewrite !Hp, !Hp2.
  assert (Hi : (exists i, encodable i /\ instr_bytes 0x50 i `prefix_of` b0 :: b1 :: b2 :: b3 :: next) <->
    ((0x50 <=? b0) && (b0 <=? 0x57) = true) \/ (((b0 =? 0x40) || (b0 =? 0x41)) = true /\ ((0x50 <=? b1) && (b1 <=? 0x57)) = true)).
  { rewrite orb_true_iff, !andb_true_iff, !Z.leb_le, !Z.eqb_eq. split.
    - intros (i & Hi & Hpre). case_instr Hi; destruct Hpre as [l Hl]; cbn in Hl; simplify_eq; lia.
    - intros [Hr|[Hr Hr1]].
      + exists (MkStackInstr None (b0 - 0x50)). split; [split; [cbn; lia|by left]|]. unfold instr_bytes. cbn.
        replace (0x50 + (b0 - 0x50)) with b0 by lia. by eexists.
      + exists (MkStackInstr (Some b0) (b1 - 0x50)). split; [split; [cbn; lia|]|].
        { right. cbn. destruct Hr as [-> | ->]; auto. }
        unfold instr_bytes. cbn. replace (0x50 + (b1 - 0x50)) with b1 by lia. by eexists. }
  rewrite Hi. cbn [length]. split; [intros Hc; split; [lia|tauto]|tauto].
Qed.

(** The check for a frame set-up that ends at the cursor. *)
Lemma setup_check before rest :
  bool_decide (4 <= length before)%nat &&
    bool_decide (get_range (before ++ rest) (length before - 4) (length before) = Some push_rbp_mov_rbp_rsp) = true <->
  exists l, before = l ++ push_rbp_mov_rbp_rsp.
Proof.
  rewrite andb_true_iff, !bool_decide_eq_true. split.
  - intros [Hl (_ & _ & Hr)%get_range_Some]. exists (take (length before - 4) before).
    rewrite Hr, drop_app_le, take_app_le by (rewrite ?length_drop; lia).
    rewrite (take_ge (drop _ _)) by (rewrite length_drop; lia). by rewrite take_drop.
  - intros [l ->]. unfold get_range. rewrite !length_app. cbn [length push_rbp_mov_rbp_rsp]. split; [lia|].
    rewrite (proj2 (Nat.leb_le _ _)), (proj2 (Nat.leb_le _ _)) by lia. cbn [andb].
    replace (length l + 4 - 4)%nat with (length l) by lia. replace (length l + 4 - length l)%nat with 4%nat by lia.
    by rewrite <- app_assoc, drop_app_length.
Qed.

Lemma prologue_loop_eq bytes cursor n :
  prologue_loop bytes cursor n =
    if bool_decide (4 <= cursor)%nat && bool_decide (get_range bytes (cursor - 4) cursor = Some push_rbp_mov_rbp_rsp)
    then UseFramePointer
    else match cursor with
         | O => OffsetSp (as_u 16 (n + 1))
         | S cursor' =>
             if is_push_byte (nth cursor' bytes 0) then
               match cursor' with
               | O => prologue_loop bytes cursor' (as_u 16 (n + 1))
               | S cursor'' =>
                   if is_prefix_byte (nth cursor'' bytes 0) then prologue_loop bytes cursor'' (as_u 16 (n + 1))
                   else prologue_loop bytes cursor' (as_u 16 (n + 1))
               end
             else OffsetSp (as_u 16 (n + 1))
         end.
Proof. by destruct cursor. Qed.

Lemma nth_at (l : list Z) b rest k : k = length l -> nth k (l ++ b :: rest) 0 = b.
Proof. intros ->. by rewrite nth_middle. Qed.

(** The last byte does not stop the walk from telling prefixes from code. *)
Definition no_prefix_at_end (l : list Z) : Prop :=
  match last l with Some b => is_prefix_byte b = false | None => True end.

Lemma push_opcode k : 0 <= k < 8 -> is_push_byte (0x50 + k) = true.
Proof. intros Hk. rewrite is_push_byte_range by (unfold in_u; lia). apply andb_true_iff. split; apply Z.leb_le; lia. Qed.

(** The walk steps over one push. *)
Lemma prologue_loop_push l i rest n :
  encodable i -> no_prefix_at_end l ->
  prologue_loop (l ++ push_bytes i ++ rest) (length (l ++ push_bytes i)) n =
    prologue_loop (l ++ push_bytes i ++ rest) (length l) (as_u 16 (n + 1)).
Proof.
  intros Hi Hl. rewrite prologue_loop_eq. destruct (_ && _) eqn:Ecopy.
  { rewrite app_assoc in Ecopy. apply setup_check in Ecopy as [l' Hl']. apply (f_equal last) in Hl'.
    rewrite last_app in Hl'. rewrite (last_app l') in Hl'.
    unfold push_bytes, instr_bytes in Hl'. case_instr Hi; cbn in Hl'; done. }
  clear Ecopy. unfold push_bytes, instr_bytes. destruct i as [[p|] k]; cbn [rex low app]; rewrite length_app; cbn [length].
  - rewrite Nat.add_comm. cbn [Nat.add]. rewrite (nth_at l p _ (length l)) by done.
    assert (nth (S (length l)) (l ++ p :: 0x50 + k :: rest) 0 = 0x50 + k) as ->.
    { change (p :: 0x50 + k :: rest) with ([p] ++ 0x50 + k :: rest). rewrite app_assoc. apply nth_at.
      rewrite length_app. cbn. lia. }
    destruct Hi as [Hk [|[[= ->] | [= ->]]]]; [done|by rewrite push_opcode..].
  - rewrite Nat.add_comm. cbn [Nat.add]. rewrite (nth_at l) by done.
    destruct Hi as [Hk _]. rewrite push_opcode by done.
    destruct (length l) as [|c] eqn:El; [done|].
    assert (is_prefix_byte (nth c (l ++ 0x50 + k :: rest) 0) = false) as ->; [|done].
    rewrite app_nth1 by lia. unfold no_prefix_at_end in Hl. destruct (last l) as [b|] eqn:Eb.
    + apply last_Some in Eb as [l' ->]. rewrite length_app in El. cbn in El. by rewrite nth_at by lia.
    + apply last_None in Eb. by rewrite Eb in El.
Qed.

(** After pushes the last byte is the opcode of one. *)
Lemma no_prefix_after_pushes l pushes :
  Forall encodable pushes -> no_prefix_at_end l -> no_prefix_at_end (l ++ concat (push_bytes <$> pushes)).
Proof.
  intros He Hl. destruct pushes as [|i pushes] using rev_ind; [by rewrite app_nil_r|].
  apply Forall_app in He as [_ [Hi _]%Forall_cons_1]. unfold no_prefix_at_end.
  rewrite fmap_app, concat_app, app_assoc, last_app. unfold push_bytes, instr_bytes.
  case_instr Hi; done.
Qed.

Lemma prologue_loop_pushes l pushes rest n :
  Forall encodable pushes -> no_prefix_at_end l -> 0 <= n -> n + Z.of_nat (length pushes) < 2 ^ 16 ->
  prologue_loop (l ++ concat (push_bytes <$> pushes) ++ rest) (length (l ++ concat (push_bytes <$> pushes))) n =
    prologue_loop (l ++ concat (push_bytes <$> pushes) ++ rest) (length l) (n + Z.of_nat (length pushes)).
Proof.
  intros He Hl. revert rest n. induction pushes as [|i pushes IH] using rev_ind; intros rest n Hn Hb.
  { cbn [length]. by rewrite app_nil_r, Z.add_0_r. }
  apply Forall_app in He as [He [Hi _]%Forall_cons_1]. rewrite (length_app pushes) in *. cbn [length] in *.
  rewrite fmap_app, concat_app. cbn [fmap list_fmap concat]. rewrite app_nil_r.
  pose proof (prologue_loop_push (l ++ concat (push_bytes <$> pushes)) i rest n Hi
    (no_prefix_after_pushes l pushes He Hl)) as Hpush. 
  repeat rewrite <- app_assoc in Hpush. repeat rewrite <- app_assoc.
  rewrite Hpush, as_u_small by (unfold in_u; lia).
  rewrite (IH He (push_bytes i ++ rest)) by lia. f_equal. lia.
Qed.

Lemma stops_before_loop before rest n :
  stops_before before -> prologue_loop (before ++ rest) (length before) n = OffsetSp (as_u 16 (n + 1)).
Proof.
  intros [Hlast Hsetup]. rewrite prologue_loop_eq. destruct (_ && _) eqn:E.
  { apply setup_check in E as [l ->]. by destruct (Hsetup l). }
  destruct (length before) as [|c] eqn:El; [done|]. destruct (last before) as [b|] eqn:Eb.
  - apply last_Some in Eb as [l ->]. rewrite length_app in El. cbn in El.
    rewrite <- app_assoc. cbn [app]. rewrite nth_at by lia. destruct Hlast as [-> _]. done.
  - apply last_None in Eb. by rewrite Eb in El.
Qed.

Lemma run_pushes_spec values rs sp :
  let '(rs', sp') := run_pushes values rs sp in
  sp' = sp - 8 * Z.of_nat (length values) /\ forall a, sp <= a -> rs' a = rs a.
Proof.
  revert rs sp. induction values as [|v values IH]; intros rs sp; cbn [run_pushes length]; [split; [lia|done]|].
  specialize (IH (fun a => if a =? sp - 8 then Some v else rs a) (sp - 8)).
  destruct (run_pushes _ _ _) as [rs' sp']. destruct IH as [-> Hrs]. split; [lia|]. intros a Ha.
  rewrite Hrs by lia. by rewrite (proj2 (Z.eqb_neq a (sp - 8))) by lia.
Qed.

(** The rule at the end of the pushes. *)
Definition prologue_rule (frame_pointer : bool) (count : Z) : UnwindRuleX86_64 :=
  if frame_pointer then UseFramePointer else OffsetSp (count + 1).

Lemma prologue_rule_exec frame_pointer values rs0 s0 bp0 ra first regs :
  Z.of_nat (length values) < 2 ^ 16 - 1 -> regs_wf regs -> 8 < s0 -> s0 + 8 < 2 ^ 64 -> rs0 s0 = Some ra -> ra <> 0 ->
  let '(rs, sp', bp') := run_prologue frame_pointer values rs0 s0 bp0 in
  sp regs = sp' -> bp regs = bp' ->
  exec_x86_64 (prologue_rule frame_pointer (Z.of_nat (length values))) first rs regs =
    (Ok (Some ra), set_bp bp0 (set_sp (s0 + 8) (set_ip ra regs))).
Proof.
  intros Hc Hwf Hs0 Hs Hread Hra. pose proof (reg_get_u64 regs RSP Hwf) as Hsp. change (reg_get regs RSP) with (sp regs) in Hsp.
  pose proof Hsp as Hsp'. unfold in_u in Hsp'. unfold run_prologue, prologue_rule. destruct frame_pointer; cbn [run_pushes].
  - pose proof (run_pushes_spec values (fun a => if a =? s0 - 8 then Some bp0 else rs0 a) (s0 - 8)) as Hrun.
    destruct (run_pushes _ _ _) as [rs sp1]. destruct Hrun as [-> Hrs]. intros Esp Ebp.
    assert (rs (s0 - 8) = Some bp0) as Hbp by (rewrite Hrs by lia; by rewrite Z.eqb_refl).
    assert (rs s0 = Some ra) as Hra' by (rewrite Hrs by lia; by rewrite (proj2 (Z.eqb_neq s0 (s0 - 8))) by lia).
    unfold exec_x86_64. rewrite st_bind_spec, st_get_spec, st_bind_spec, (use_frame_pointer_new _ _ _ bp0)
      by (rewrite ?Ebp; unfold in_u; first [done|lia]).
    cbv beta iota. replace (bp regs + 16) with (sp regs + 8 * (Z.of_nat (length values) + 2)) by lia.
    rewrite (finish_exec_at _ _ _ _ ra); [by replace (sp regs + 8 * (Z.of_nat (length values) + 2)) with (s0 + 8) by lia
      |done|lia|lia|rewrite <- Hra'; f_equal; lia|done].
  - pose proof (run_pushes_spec values rs0 s0) as Hrun. destruct (run_pushes _ _ _) as [rs sp1].
    destruct Hrun as [-> Hrs]. intros Esp <-. unfold exec_x86_64, new_sp_bp. st_bind. rewrite no_overflow_spec.
    assert (checked_add 64 (sp regs) ((Z.of_nat (length values) + 1) * 8) = Some (sp regs + 8 * (Z.of_nat (length values) + 1))) as ->.
    { apply checked_add_Some. unfold in_u. lia. }
    st_bind. rewrite (finish_exec_at _ _ _ _ ra); [by replace (sp regs + 8 * (Z.of_nat (length values) + 1)) with (s0 + 8) by lia
      |done|lia|lia|rewrite <- Hread, <- Hrs by lia; f_equal; lia|done].
Qed.

(** C12: the rule of a detected prologue undoes the part of it that has run. Take a
    function whose code, after bytes that cannot be mistaken for a part of it, is
    optionally [push rbp; mov rbp, rsp] and then pushes, with the program counter
    behind them and a prologue instruction next. The analysis gives a rule, and
    executing it on the stack and with the registers that running the code so far
    leaves recovers the return address, the stack pointer of the call, and the
    caller's [rbp]. Without a prologue instruction next there is no rule. *)
Theorem prologue_rule_unwinds before frame_pointer pushes next
    (Hbefore : frame_pointer = false -> stops_before before)
    (Hpushes : Forall encodable pushes) (Hcount : Z.of_nat (length pushes) < 2 ^ 16 - 1)
    (Hu8 : Forall u8 next) :
  let code := before ++ prologue_bytes frame_pointer pushes in
  (next_in_prologue next ->
   exists rule, rule_from_instruction_analysis (code ++ next) (length code) = Ok (Some rule) /\
     forall values rs0 s0 bp0 ra first regs,
       length values = length pushes -> regs_wf regs -> 8 < s0 -> s0 + 8 < 2 ^ 64 -> rs0 s0 = Some ra -> ra <> 0 ->
       let '(rs, sp', bp') := run_prologue frame_pointer values rs0 s0 bp0 in
       sp regs = sp' -> bp regs = bp' ->
       exec_x86_64 rule first rs regs = (Ok (Some ra), set_bp bp0 (set_sp (s0 + 8) (set_ip ra regs)))) /\
  (~ next_in_prologue next -> rule_from_prologue_analysis (code ++ next) (length code) = Ok None).
Proof.
  cbn zeta. set (code := before ++ _).
  assert (Hsplit : split_at (code ++ next) (length code) = Ok (code, next)).
  { unfold split_at. rewrite length_app, (proj2 (Nat.leb_le _ _)) by lia. by rewrite take_app_length, drop_app_length. }
  unfold rule_from_instruction_analysis. cbn [rule_from_prologue_analysis InstructionAnalysis_x86_64].
  unfold unwind_rule_from_detected_prologue. rewrite Hsplit. cbn [mbind result_bind].
  pose proof (next_in_prologue_expected next Hu8) as Hnext. split; intros Hn.
  - apply Hnext in Hn as ->. exists (prologue_rule frame_pointer (Z.of_nat (length pushes))). split.
    + cbn. do 2 f_equal. unfold code, prologue_bytes, prologue_rule. destruct frame_pointer; cbn [setup_bytes].
      * pose proof (prologue_loop_pushes (before ++ push_rbp_mov_rbp_rsp) pushes [] 0 Hpushes) as Hloop.
        rewrite app_nil_r, <- !app_assoc in Hloop. rewrite Hloop; [|unfold no_prefix_at_end; by rewrite last_app|lia|lia].
        rewrite prologue_loop_eq. replace (_ && _) with true; [done|]. symmetry.
        rewrite app_assoc. apply setup_check. by eexists.
      * specialize (Hbefore eq_refl). cbn [app].
        pose proof (prologue_loop_pushes before pushes [] 0 Hpushes) as Hloop. rewrite app_nil_r in Hloop.
        rewrite Hloop; [|unfold no_prefix_at_end; destruct Hbefore as [Hb _]; by destruct (last before) as [?|]; [destruct Hb|]|lia|lia].
        rewrite stops_before_loop by done. rewrite as_u_small by (unfold in_u; lia). f_equal; lia.
    + intros values rs0 s0 bp0 ra first regs Hl. rewrite <- Hl. apply prologue_rule_exec. lia.
  - destruct (is_next_instruction_expected_in_prologue next); [|done]. by destruct Hn; apply Hnext.
Qed.

(** ** The detected rules are in range *)

Lemma prologue_loop_safe bytes : forall fuel cursor n,
  (cursor <= fuel)%nat -> rule_safe (prologue_loop bytes cursor n).
Proof.
  assert (Hstop : forall n, rule_safe (OffsetSp (as_u 16 (n + 1)))) by (split; [by apply as_u_range|done]).
  induction fuel as [|fuel IH]; intros cursor n Hc; (destruct cursor as [|cursor]; [|try lia]); cbn [prologue_loop];
    destruct (_ && _); try done.
  destruct (is_push_byte _); [|done]. destruct cursor as [|cursor]; [apply IH; lia|].
  destruct (is_prefix_byte _); apply IH; lia.
Qed.

Lemma epilogue_loop_safe from bytes n acc res :
  from_option (fun bp => i16 bp) True acc -> epilogue_loop from bytes n acc = Some res -> from_option (fun bp => i16 bp) True res.2.
Proof.
  remember (length bytes) as len eqn:Hlen. assert (Hle : (length bytes <= len)%nat) by lia. clear Hlen.
  revert bytes n acc Hle. induction len as [|len IH]; intros bytes n acc Hle Hacc Hl.
  { by destruct bytes; [|simpl in Hle; lia]. }
  destruct bytes as [|b0 rest]; [done|]. cbn [length epilogue_loop] in *.
  repeat case_match; simplify_eq; try done;
    (match goal with Hl : epilogue_loop _ _ _ _ = Some _ |- _ =>
       eapply IH in Hl; [done|cbn [length] in *; lia|done || by apply as_s_range] end).
Qed.

Lemma analysis_safe bytes pc rule :
  rule_from_instruction_analysis bytes pc = Ok (Some rule) -> rule_safe rule.
Proof.
  unfold rule_from_instruction_analysis. cbn [rule_from_prologue_analysis rule_from_epilogue_analysis InstructionAnalysis_x86_64].
  unfold unwind_rule_from_detected_prologue, unwind_rule_from_detected_epilogue.
  destruct (split_at bytes pc) as [[from rest]|]; [|done]. cbn.
  destruct (is_next_instruction_expected_in_prologue rest); cbn; [intros [= <-]; by eapply prologue_loop_safe|].
  destruct (epilogue_loop from rest 0 None) as [[n bp]|] eqn:El; cbn; [|done]. intros [= <-].
  apply epilogue_loop_safe in El; [|done]. unfold epilogue_rule. destruct (n =? 0); [done|].
  pose proof (as_u_range 16 (n + 1) ltac:(lia)). by destruct bp.
Qed.

Definition example_epilogue : list Z := [0x41; 0x5e; 0x5b; 0x5d; 0xc3].
Definition example_words (a : Z) : option Z :=
  if a =? 1016 then Some 5000 else if a =? 1024 then Some 7777 else Some 1.

Definition example_pops : list stack_instr := [MkStackInstr (Some 0x41) 6; MkStackInstr None 3; MkStackInstr None 5].

(** [pop r14; pop rbx; pop rbp; ret]. *)
Lemma epilogue_rule_unwinds_witness :
  exists rule, rule_from_epilogue_analysis example_epilogue 0 = Ok (Some rule) /\
  exec_x86_64 rule false example_words (regs_new 4242 1000 2000) =
    (Ok (Some 7777), set_bp 5000 (set_sp 1032 (set_ip 7777 (regs_new 4242 1000 2000)))).
Proof.
  destruct (epilogue_rule_unwinds example_epilogue 0) as [H _]; [repeat constructor; done|cbn; lia|].
  destruct (H example_pops) as (rule & Hrule & Hexec); [|done|].
  - split; [repeat apply Forall_cons_2; [split; cbn; [lia|auto]..|constructor]|]. exists [0xc3]. split; [reflexivity|]. exists 0xc3, []. auto.
  - exists rule. split; [exact Hrule|].
    apply (fun Hu => Hexec Hu example_words (regs_new 4242 1000 2000) false 1024 5000 7777); try done; [by repeat constructor|].
    split_and!; [done|repeat apply Forall_cons_2; [unfold in_u; lia..|constructor]|unfold in_u; cbn; lia].
Defined.

(** [push rbp; mov rbp, rsp; push r15; push rbx], and then [sub rsp, 24]. *)
Definition example_pushes : list stack_instr := [MkStackInstr (Some 0x41) 7; MkStackInstr None 3].
Definition example_next : list Z := [0x48; 0x83; 0xec; 0x18].

Lemma prologue_rule_unwinds_witness :
  let code := [0xc3] ++ prologue_bytes true example_pushes in
  exists rule, rule_from_instruction_analysis (code ++ example_next) (length code) = Ok (Some rule) /\
    exec_x86_64 rule true (run_prologue true [11; 22] example_words 1024 5000).1.1 (regs_new 4242 1000 1016) =
      (Ok (Some 7777), set_bp 5000 (set_sp 1032 (set_ip 7777 (regs_new 4242 1000 1016)))).
Proof.
  destruct (prologue_rule_unwinds [0xc3] true example_pushes example_next) as [H _]; [done| |done|..].
  - repeat apply Forall_cons_2; [split; cbn; [lia|auto]..|constructor].
  - repeat apply Forall_cons_2; [unfold in_u; lia..|constructor].
  - destruct H as (rule & Hrule & Hexec).
    { split; [cbn; lia|]. right; right; left. by eexists. }
    exists rule. split; [exact Hrule|].
    apply (Hexec [11; 22] example_words 1024 5000 7777 true (regs_new 4242 1000 1016)); try done.
    split_and!; [done|repeat apply Forall_cons_2; [unfold in_u; lia..|constructor]|unfold in_u; cbn; lia].
Defined.
