(* ===== verification/X86Compact.v ===== *)
(** * Compact unwind info on x86-64

    Models [vendor/framehop/src/x86_64/macho.rs]: the rule of a compact unwind
    opcode, and the rule inside the stub helper section. *)
From S2P Require Import Prelude AddSigned UnwindRule X86Regs X86Rules Compact X86Analysis.
#[local] Existing Instance AddSigned_u64.

(** The registers a frameless function saves; only [rbp] matters. *)
Inductive RegisterNameX86_64 : Type :=
  | Rbp
  | OtherRegister (number : Z).

#[export] Instance RegisterNameX86_64_eq_dec : EqDecision RegisterNameX86_64.
Proof. solve_decision. Defined.

(** A parsed opcode. *)
Inductive OpcodeX86_64 : Type :=
  | Null
  | FramelessImmediate (stack_size_in_bytes : Z) (saved_regs : list (option RegisterNameX86_64))
  | FramelessIndirect (immediate_offset_from_function_start stack_adjust_in_bytes : Z)
      (saved_regs : list (option RegisterNameX86_64))
  | Dwarf (eh_frame_fde : Z)
  | FrameBased
  | UnrecognizedKind (kind : Z)
  | InvalidFramelessOpcode.

#[export] Instance OpcodeX86_64_eq_dec : EqDecision OpcodeX86_64.
Proof. solve_decision. Defined.

(** [saved_regs.iter().rev().flatten().position(|r| *r == Rbp)]. *)
Definition bp_position_from_outside (saved_regs : list (option RegisterNameX86_64)) : option nat :=
  fst <$> list_find (fun r => r = Rbp) (omap id (rev saved_regs)).

(** [OffsetSpAndRestoreBp] or [OffsetSp] of a frame of [stack_size] bytes. *)
Definition frameless_rule `{MachoUnwindInfo} (stack_size sp_offset_by_8 : Z)
    (saved_regs : list (option RegisterNameX86_64)) : cui_m (CuiUnwindResult UnwindRuleX86_64) :=
  match bp_position_from_outside saved_regs with
  | Some pos =>
      let bp_offset_from_sp := as_s 32 (as_s 32 stack_size - 2 * 8 - Z.of_nat pos * 8) in
      bp_storage_offset_from_sp_by_8 ←
        ok_or (Fail BpOffsetDoesNotFit) (try_s 16 (Z.quot bp_offset_from_sp 8));
      mret (CuiExecRule (OffsetSpAndRestoreBp sp_offset_by_8 bp_storage_offset_from_sp_by_8))
  | None => mret (CuiExecRule (OffsetSp sp_offset_by_8))
  end.

Definition starts_with_push_rbp_mov (bytes : list Z) : bool := bool_decide (take 4 bytes = push_rbp_mov_rbp_rsp).

Section compact.
  Context `{MachoUnwindInfo}.
  (** [OpcodeX86_64::parse]. *)
  Context (parse : Z -> OpcodeX86_64).

(** The [match opcode] of a function body. *)
Definition body_rule (opcode : OpcodeX86_64) (function_bytes : option (list Z)) :
    cui_m (CuiUnwindResult UnwindRuleX86_64) :=
  match opcode with
  | Null => Err (Fail FunctionHasNoInfo)
  | FramelessImmediate stack_size_in_bytes saved_regs =>
      if stack_size_in_bytes =? 8 then mret (CuiExecRule JustReturn)
      else frameless_rule stack_size_in_bytes (stack_size_in_bytes / 8) saved_regs
  | FramelessIndirect immediate_offset_from_function_start stack_adjust_in_bytes saved_regs =>
      function_bytes ← ok_or (Fail NoTextBytesToLookUpIndirectStackOffset) function_bytes;
      sub_immediate_bytes ← ok_or (Fail IndirectStackOffsetOutOfBounds)
        (get_range function_bytes (Z.to_nat immediate_offset_from_function_start)
           (Z.to_nat immediate_offset_from_function_start + 4));
      let sub_immediate := from_le_bytes sub_immediate_bytes in
      stack_size_in_bytes ← ok_or (Fail StackAdjustOverflow) (checked_add 32 sub_immediate stack_adjust_in_bytes);
      sp_offset_by_8 ← ok_or (Fail StackSizeDoesNotFit) (try_u 16 (stack_size_in_bytes / 8));
      frameless_rule stack_size_in_bytes sp_offset_by_8 saved_regs
  | Dwarf eh_frame_fde => mret (NeedDwarf eh_frame_fde)
  | FrameBased => mret (CuiExecRule UseFramePointer)
  | UnrecognizedKind kind => Err (Fail (BadOpcodeKind kind))
  | InvalidFramelessOpcode => Err (Fail InvalidFrameless)
  end.

(** The rule of a first frame outside its function's body, if it has one. *)
Definition first_frame_rule (opcode : OpcodeX86_64) (address_offset_within_function : nat)
    (function_bytes : option (list Z)) : cui_m (option UnwindRuleX86_64) :=
  analysed ←
    match function_bytes with
    | Some function_bytes =>
        rule ← may_panic (rule_from_instruction_analysis function_bytes address_offset_within_function);
        match rule with
        | Some rule => mret (Some rule)
        | None =>
            mret (if bool_decide (opcode = Null) && starts_with_push_rbp_mov function_bytes
                  then Some UseFramePointer else None)
        end
    | None => mret None
    end;
  mret
    match analysed with
    | Some rule => Some rule
    | None => if bool_decide (opcode = Null) then Some JustReturn else None
    end.

Definition cui_unwind_frame_x86_64 (function : Function) (is_first_frame : bool)
    (address_offset_within_function : nat) (function_bytes : option (list Z)) :
    cui_m (CuiUnwindResult UnwindRuleX86_64) :=
  let opcode := parse (opcode function) in
  early ← (if is_first_frame then first_frame_rule opcode address_offset_within_function function_bytes
           else mret None);
  match early with
  | Some rule => mret (CuiExecRule rule)
  | None => body_rule opcode function_bytes
  end.

Definition rule_for_stub_helper_x86_64 (offset : Z) : cui_m (CuiUnwindResult UnwindRuleX86_64) :=
  let rule :=
    if offset <? 0x7 then OffsetSp 2
    else if offset <? 0x10 then OffsetSp 3
    else
      let offset_after_shared := offset - 0x10 in
      let offset_within_stub := offset_after_shared mod 10 in
      if offset_within_stub <? 5 then JustReturn else OffsetSp 2 in
  mret (CuiExecRule rule).

Definition CompactUnwindInfoUnwinding_x86_64 : CompactUnwindInfoUnwinding UnwindRuleX86_64 := {|
  cui_unwind_frame := cui_unwind_frame_x86_64;
  rule_for_stub_helper := rule_for_stub_helper_x86_64;
|}.

(** ** No panics *)

Lemma frameless_rule_returns size off saved : frameless_rule size off saved <> Err Panic.
Proof. unfold frameless_rule. destruct (bp_position_from_outside saved); [|done]. by destruct (try_s _ _). Qed.

Lemma body_rule_returns op bytes : body_rule op bytes <> Err Panic.
Proof.
  destruct op; cbn; try done.
  - destruct (_ =? 8); [done|apply frameless_rule_returns].
  - destruct bytes as [b|]; [|done]. cbn. destruct (get_range _ _ _); [|done]. cbn.
    destruct (checked_add _ _ _); [|done]. cbn. destruct (try_u _ _); [|done]. cbn. apply frameless_rule_returns.
Qed.

Lemma first_frame_rule_returns op off bytes :
  (forall b, bytes = Some b -> (off <= length b)%nat) -> exists r, first_frame_rule op off bytes = Ok r.
Proof.
  intros Hb. unfold first_frame_rule. destruct bytes as [b|]; [|by eexists].
  destruct (analysis_returns b off) as [[r|] ->]; [by apply Hb|by eexists..].
Qed.

Lemma CompactLaws_x86_64 : CompactLaws UnwindRuleX86_64 (H0 := CompactUnwindInfoUnwinding_x86_64).
Proof.
  split; [|done]. intros f first off bytes Hb. cbn. unfold cui_unwind_frame_x86_64.
  destruct first; [|cbn; apply body_rule_returns].
  destruct (first_frame_rule_returns (parse (opcode f)) off bytes Hb) as [[r|] ->]; cbn; [done|].
  apply body_rule_returns.
Qed.

(** ** The stub helper *)

(** The instructions of the section, from the listing in the source: where each
    starts, and the words its stub has pushed when it is about to run. The shared
    part is entered from a stub, by its jump. *)
Definition stub_helper_instructions (stub : Z) : list (Z * Z) :=
  [ (0x0, 1);                      (** lea r11, [dyld_stub_binder+8] *)
    (0x7, 1);                      (** push r11 *)
    (0x9, 2);                      (** jmp [dyld_stub_binder] *)
    (0x10 + 10 * stub, 0);         (** push imm32 *)
    (0x10 + 10 * stub + 5, 1) ].   (** jmp shared *)

(** The rule that undoes [pushed] words and returns. *)
Definition undo (pushed : Z) : UnwindRuleX86_64 := if pushed =? 0 then JustReturn else OffsetSp (pushed + 1).

(** Inside the stub helper the rule undoes what the stub has pushed so far, for
    every stub and at every instruction but one: before the shared [push r11], at
    offset 7, the rule pops two words where one has been pushed. *)
Theorem stub_helper_rule_undoes stub (Hstub : 0 <= stub) :
  Forall (fun '(offset, pushed) =>
    rule_for_stub_helper_x86_64 offset =
      Ok (CuiExecRule (if offset =? 7 then OffsetSp 3 else undo pushed))) (stub_helper_instructions stub).
Proof.
  unfold stub_helper_instructions, rule_for_stub_helper_x86_64.
  assert (forall d, 0 <= d < 10 -> (0x10 + 10 * stub + d - 0x10) mod 10 = d) as Hmod.
  { intros d Hd. replace (0x10 + 10 * stub + d - 0x10) with (d + stub * 10) by lia.
    rewrite Z_mod_plus_full. by apply Z.mod_small. }
  repeat constructor.
  - rewrite <- (Z.add_0_r (0x10 + 10 * stub)), Hmod by lia.
    rewrite (proj2 (Z.ltb_ge _ 7)), (proj2 (Z.ltb_ge _ 0x10)), (proj2 (Z.eqb_neq _ 7)) by lia. done.
  - rewrite Hmod by lia.
    rewrite (proj2 (Z.ltb_ge _ 7)), (proj2 (Z.ltb_ge _ 0x10)), (proj2 (Z.eqb_neq _ 7)) by lia. done.
Qed.

(** ** Frameless functions *)

(** The frame that an opcode describes: its size, immediate or added to the operand of
    the function's [sub rsp, imm32], and the registers saved in it. *)
Inductive describes_frame (bytes : option (list Z)) : OpcodeX86_64 -> Z -> list RegisterNameX86_64 -> Prop :=
  | immediate_frame size saved : describes_frame bytes (FramelessImmediate size saved) size (omap id saved)
  | indirect_frame offset adjust saved before operand after :
      bytes = Some (before ++ to_le_bytes 4 operand ++ after) -> Z.of_nat (length before) = offset ->
      u32 operand -> 0 <= adjust ->
      describes_frame bytes (FramelessIndirect offset adjust saved) (operand + adjust) (omap id saved).

(** Its layout above [sp]: at the top the return address, below it the saved
    registers, at increasing addresses in the order of the list. [bp'] is the saved
    [rbp], or the current one where it is not saved. *)
Record frame_layout (rs : stack_reader) (sp bp size : Z) (saved : list RegisterNameX86_64) (ra bp' : Z) : Prop := {
  fl_size : (8 | size) /\ 8 + 8 * Z.of_nat (length saved) <= size < 2 ^ 18;
  fl_return : rs (sp + size - 8) = Some ra;
  fl_rbp : forall i, saved !! i = Some Rbp -> rs (sp + size - 8 - 8 * (Z.of_nat (length saved) - Z.of_nat i)) = Some bp';
  fl_no_rbp : Rbp ∉ saved -> bp' = bp;
}.

(** The position from the outside counts back from the end of the list. *)
Lemma bp_position_spec saved :
  match bp_position_from_outside saved with
  | Some pos => (pos < length (omap id saved))%nat /\ omap id saved !! (length (omap id saved) - S pos)%nat = Some Rbp
  | None => Rbp ∉ omap id saved
  end.
Proof.
  assert (Hrev : omap id (rev saved) = reverse (omap id saved)).
  { induction saved as [|r saved IH]; [done|]. cbn [rev]. rewrite omap_app, IH. simpl.
    destruct r as [r|]; simpl; [by rewrite reverse_cons|by rewrite app_nil_r]. }
  unfold bp_position_from_outside. rewrite Hrev.
  destruct (list_find _ (reverse (omap id saved))) as [[pos r]|] eqn:Ef; cbn.
  - apply list_find_Some in Ef as (Hl & -> & _). pose proof (lookup_lt_Some _ _ _ Hl) as Hlt. rewrite length_reverse in Hlt.
    split; [done|]. by rewrite reverse_lookup in Hl.
  - apply list_find_None in Ef. intros Hin. rewrite Forall_forall in Ef. apply (Ef Rbp); [by apply elem_of_reverse|done].
Qed.

Lemma frameless_rule_exec rs regs first size saved ra bp' :
  regs_wf regs -> sp regs + size < 2 ^ 63 -> ra <> 0 ->
  frame_layout rs (sp regs) (bp regs) size (omap id saved) ra bp' ->
  exists rule, frameless_rule size (size / 8) saved = Ok (CuiExecRule rule) /\
    exec_x86_64 rule first rs regs = (Ok (Some ra), set_bp bp' (set_sp (sp regs + size) (set_ip ra regs))).
Proof.
  intros Hwf Hsp Hra [[[q ->] Hb] Hread Hbp Hnobp].
  pose proof (reg_get_u64 regs RSP Hwf) as Hspu. change (reg_get regs RSP) with (sp regs) in Hspu.
  pose proof Hspu as Hspu'. unfold in_u in Hspu'.
  assert (Hfin : forall b, finish_exec (sp regs) (sp regs + q * 8) b rs regs =
    (Ok (Some ra), set_bp b (set_sp (sp regs + q * 8) (set_ip ra regs)))).
  { intros b. replace (q * 8) with (8 * q) in * by lia. by apply finish_exec_at; try lia. }
  assert (Hadd : checked_add 64 (sp regs) (q * 8) = Some (sp regs + q * 8)).
  { apply checked_add_Some. unfold in_u. lia. }
  rewrite Z.div_mul by lia. unfold frameless_rule. pose proof (bp_position_spec saved) as Hpos.
  destruct (bp_position_from_outside saved) as [pos|].
  - destruct Hpos as [Hlt Hi]. specialize (Hbp _ Hi).
    rewrite (as_s_small 32 (q * 8)), as_s_small by (unfold in_s; lia).
    replace (q * 8 - 2 * 8 - Z.of_nat pos * 8) with ((q - 2 - Z.of_nat pos) * 8) by lia. rewrite Z.quot_mul by lia.
    rewrite (proj2 (try_s_Some 16 _ (q - 2 - Z.of_nat pos))) by (unfold in_s; lia).
    eexists. split; [done|]. unfold exec_x86_64, new_sp_bp. st_bind. rewrite no_overflow_spec, Hadd.
    rewrite st_bind_spec, no_overflow_spec.
    assert (checked_add_signed (sp regs) ((q - 2 - Z.of_nat pos) * 8) =
      Some (sp regs + q * 8 - 8 - 8 * (Z.of_nat (length (omap id saved)) - Z.of_nat (length (omap id saved) - S pos)))) as ->.
    { apply checked_add_signed_u64_Some; unfold in_u, in_s; lia. }
    rewrite st_bind_spec, Hbp, st_ret_spec. apply Hfin.
  - rewrite (Hnobp Hpos). eexists. split; [done|]. unfold exec_x86_64, new_sp_bp. st_bind.
    rewrite no_overflow_spec, Hadd. apply Hfin.
Qed.

(** C36: in the body of a frameless function the frame is undone as the opcode
    describes it. Whether the size is in the opcode or in the function's code, if the
    stack has the layout described - the return address at the top, the saved
    registers below it in the order of the list - the rule restores [rbp] from its
    place, or keeps it if it is not saved, pops the frame and returns. In a first
    frame this is so where the code at the address shows no prologue or epilogue. *)
Theorem frameless_rule_unwinds f first off bytes size saved rs regs ra bp'
    (Hwf : regs_wf regs) (Hsp : sp regs + size < 2 ^ 63) (Hra : ra <> 0)
    (Hop : describes_frame bytes (parse (opcode f)) size saved)
    (Hlayout : frame_layout rs (sp regs) (bp regs) size saved ra bp')
    (Hbody : first = true -> forall b, bytes = Some b -> rule_from_instruction_analysis b off = Ok None) :
  exists rule, cui_unwind_frame_x86_64 f first off bytes = Ok (CuiExecRule rule) /\
    exec_x86_64 rule first rs regs = (Ok (Some ra), set_bp bp' (set_sp (sp regs + size) (set_ip ra regs))).
Proof.
  unfold cui_unwind_frame_x86_64. set (op := parse (opcode f)) in *.
  assert (Hnull : bool_decide (op = Null) = false) by (apply bool_decide_false; by destruct Hop).
  assert ((if first then first_frame_rule op off bytes else mret None) = Ok None) as ->.
  { destruct first; [|done]. unfold first_frame_rule. destruct bytes as [b|]; [|cbn; by rewrite Hnull].
    rewrite (Hbody eq_refl b eq_refl). cbn. by rewrite Hnull. }
  cbn [mbind result_bind]. destruct Hop as [size saved|offset adjust saved before operand after -> <- Hop Hadj]; cbn [body_rule].
  - destruct (Z.eqb_spec size 8) as [->|Hne]; [|by apply frameless_rule_exec].
    destruct Hlayout as [[_ Hsize] Hread _ Hnobp]. exists JustReturn. split; [done|].
    assert (omap id saved = []) as Hnil by (destruct (omap id saved); [done|]; cbn in Hsize; lia).
    rewrite Hnil in Hnobp. rewrite Hnobp by apply not_elem_of_nil.
    pose proof (reg_get_u64 regs RSP Hwf) as Hspu. change (reg_get regs RSP) with (sp regs) in Hspu.
    unfold exec_x86_64, new_sp_bp. st_bind. rewrite no_overflow_spec.
    rewrite (proj2 (checked_add_Some 64 (sp regs) 8 (sp regs + 8))) by (unfold in_u in *; lia).
    apply (finish_exec_at rs regs 1); [done|lia|lia|done|done].
  - assert (get_range (before ++ to_le_bytes 4 operand ++ after) (Z.to_nat (Z.of_nat (length before)))
      (Z.to_nat (Z.of_nat (length before)) + 4) = Some (to_le_bytes 4 operand)) as Hget.
    { rewrite Nat2Z.id. unfold get_range. rewrite !length_app, length_to_le_bytes.
      rewrite (proj2 (Nat.leb_le _ _)), (proj2 (Nat.leb_le _ _)) by lia. cbn [andb].
      rewrite drop_app_length. replace (length before + 4 - length before)%nat with 4%nat by lia.
      by rewrite take_app_length' by (by rewrite length_to_le_bytes). }
    cbn [ok_or mbind result_bind]. rewrite Hget. cbn [ok_or mbind result_bind]. rewrite from_to_le_bytes.
    rewrite Z.mod_small by exact Hop. destruct Hlayout as [[Hdiv Hsize] ? ? ?] eqn:El. clear El.
    rewrite (proj2 (checked_add_Some 32 operand adjust (operand + adjust))) by (unfold in_u in *; lia).
    cbn [ok_or mbind result_bind].
    rewrite (proj2 (try_u_Some 16 _ ((operand + adjust) / 8))) by (unfold in_u; Z.div_mod_to_equations; lia).
    cbn [ok_or mbind result_bind]. by apply frameless_rule_exec.
Qed.
End compact.

(** ** The rules are in range *)

(** [stack_size_in_bytes] is a [u16] in the parsed opcode. *)
Definition parse_u16 (parse : Z -> OpcodeX86_64) : Prop :=
  forall n size saved, parse n = FramelessImmediate size saved -> u16 size.

Section safe.
  Context `{MachoUnwindInfo} (parse : Z -> OpcodeX86_64) (Hparse : parse_u16 parse).

Lemma frameless_rule_safe size off saved rule :
  u16 off -> frameless_rule size off saved = Ok (CuiExecRule rule) -> rule_safe rule.
Proof.
  intros Ho. unfold frameless_rule. destruct (bp_position_from_outside saved) as [pos|]; [|by intros [= <-]].
  destruct (try_s 16 _) as [off'|] eqn:E; [|done]. apply try_s_Some in E as [-> Hi]. by intros [= <-].
Qed.

Lemma body_rule_safe n bytes rule : body_rule (parse n) bytes = Ok (CuiExecRule rule) -> rule_safe rule.
Proof using Hparse.
  destruct (parse n) as [|size saved|imm adj saved|fde| |kind|] eqn:Ep; cbn; try done; [| |by intros [= <-]].
  - destruct (size =? 8); [by intros [= <-]|]. apply frameless_rule_safe. apply Hparse in Ep. unfold in_u in *.
    Z.div_mod_to_equations. lia.
  - destruct bytes as [b|]; [|done]. cbn. destruct (get_range _ _ _); [|done]. cbn.
    destruct (checked_add _ _ _); [|done]. cbn. destruct (try_u _ _) as [off|] eqn:E; [|done]. cbn.
    apply try_u_Some in E as [-> Hu]. by apply frameless_rule_safe.
Qed.

Lemma first_frame_rule_safe op off bytes rule : first_frame_rule op off bytes = Ok (Some rule) -> rule_safe rule.
Proof.
  unfold first_frame_rule, may_panic. destruct bytes as [b|].
  - destruct (rule_from_instruction_analysis b off) as [[r|]|] eqn:E; cbn; [| |done].
    + intros [= <-]. by apply analysis_safe in E.
    + destruct (bool_decide (op = Null)), (starts_with_push_rbp_mov b); cbn; by intros [= <-].
  - destruct (bool_decide _); by intros [= <-].
Qed.

Lemma compact_unwind_frame_safe self rel first rule :
  compact_unwind_frame (CompactUnwindInfoUnwinding0 := CompactUnwindInfoUnwinding_x86_64 parse) self rel first = Ok (CuiExecRule rule) -> rule_safe rule.
Proof using Hparse.
  unfold compact_unwind_frame. destruct (in_u32_range (stubs_range self) rel); [destruct first; [by intros [= <-]|done]|].
  destruct (in_u32_range (stub_helper_range self) rel).
  { destruct first; [|done]. cbn. unfold rule_for_stub_helper_x86_64.
    repeat case_match; by intros [= <-]. }
  destruct (function_for_address self rel) as [f|[[]|]]; try done; [|destruct first; [by intros [= <-]|done]].
  unfold unwind_in_function. destruct (first && _); [by intros [= <-]|]. cbn [cui_unwind_frame CompactUnwindInfoUnwinding_x86_64].
  unfold cui_unwind_frame_x86_64.
  destruct first; [|apply body_rule_safe]. set (o := Z.to_nat _).
  destruct (first_frame_rule _ o _) as [[r|]|] eqn:E; cbn; [|apply body_rule_safe|done].
  intros [= <-]. by eapply first_frame_rule_safe.
Qed.
End safe.

(** ** A concrete parser *)

Definition example_macho : MachoUnwindInfo := {|
  MachoError := unit;
  UnwindInfo := list Z;
  unwind_info_parse := Ok;
  unwind_info_lookup := fun _ a => Ok (if (4096 <=? a) && (a <? 4112) then Some (MkFunction 4096 4112 0) else None);
|}.
#[local] Existing Instance example_macho.

Lemma stub_helper_rule_undoes_witness :
  rule_for_stub_helper_x86_64 0x1f = Ok (CuiExecRule (OffsetSp 2)).
Proof.
  pose proof (stub_helper_rule_undoes 1 ltac:(lia)) as Hs.
  do 4 apply Forall_cons in Hs as [_ Hs]. apply Forall_cons in Hs as [Hs _]. exact Hs.
Defined.

(** Two saved registers, [rbp] below the other, in a frame of 32 bytes. *)
Definition example_saved : list (option RegisterNameX86_64) := [None; None; None; None; Some Rbp; Some (OtherRegister 3)].
Definition example_frame (a : Z) : option Z :=
  if a =? 1024 then Some 7777 else if a =? 1008 then Some 5000 else None.

Lemma frameless_rule_unwinds_witness :
  exists rule, cui_unwind_frame_x86_64 (fun _ => FramelessIndirect 3 8 example_saved) (MkFunction 0 100 0) false 50
      (Some ([0x48; 0x81; 0xec] ++ to_le_bytes 4 24 ++ [])) = Ok (CuiExecRule rule) /\
    exec_x86_64 rule false example_frame (regs_new 4242 1000 2000) =
      (Ok (Some 7777), set_bp 5000 (set_sp 1032 (set_ip 7777 (regs_new 4242 1000 2000)))).
Proof.
  apply (frameless_rule_unwinds (fun _ => FramelessIndirect 3 8 example_saved) (MkFunction 0 100 0) false 50
    _ 32 [Rbp; OtherRegister 3] example_frame (regs_new 4242 1000 2000) 7777 5000); [..|done].
  - split_and!; [done|repeat apply Forall_cons_2; [unfold in_u; lia..|constructor]|unfold in_u; cbn; lia].
  - by vm_compute.
  - done.
  - apply (indirect_frame _ 3 8 example_saved [0x48; 0x81; 0xec] 24 []); [done|done|unfold in_u; lia|lia].
  - split; [split; [by exists 4|done]|done| |].
    + intros [|[|[|i]]]; cbn; done.
    + intros Hno. destruct Hno. by left.
Defined.
