(* ===== verification/Aarch64Analysis.v ===== *)
(** * Instruction analysis on aarch64

    Models [vendor/framehop/src/aarch64/instruction_analysis/]: guessing from the
    instructions around the program counter whether it is in a prologue or an
    epilogue, and the rule that holds there. *)
From S2P Require Import Prelude AddSigned UnwindRule Aarch64Rules Compact.
#[local] Existing Instance AddSigned_u64.

(** [u32::from_le_bytes] of the first four bytes. *)
Definition read_u32 (bytes : list Z) : Z := from_le_bytes (take 4 bytes).

(** [(word >> lo) & mask]. *)
Definition bits (word lo mask : Z) : Z := Z.land (Z.shiftr word lo) mask.
Definition reg_field (word lo : Z) : Z := bits word lo 0x1f.

(** [(((((word >> 15) & 0b1111111) as i16) << 9) >> 6) as i32]. *)
Definition imm7 (word : Z) : Z := Z.shiftr (as_s 16 (Z.shiftl (as_s 16 (bits word 15 0x7f)) 9)) 6.

(** The immediate of an [add] or [sub], shifted where bit 22 says so. *)
Definition imm12 (word : Z) : Z :=
  let imm12 := bits word 10 0xfff in
  if bits word 22 1 =? 1 then as_s 32 (Z.shiftl imm12 12) else imm12.

(** [chunks_exact(4)], each read as a word. *)
Fixpoint chunks_exact (bytes : list Z) : list Z :=
  match bytes with
  | b0 :: b1 :: b2 :: b3 :: rest => from_le_bytes [b0; b1; b2; b3] :: chunks_exact rest
  | _ => []
  end.

(** ** Prologues *)

Module Prologue.

Inductive UnexpectedInstructionType : Type :=
  | StoreOfWrongSize
  | StoreReferenceRegisterNotSp
  | AddSubNotOperatingOnSp
  | NoNextInstruction
  | NoStackPointerSubBeforeStore
  | Unknown.

Inductive PrologueStepResult : Type :=
  | UnexpectedInstruction (t : UnexpectedInstructionType)
  | ValidPrologueInstruction.

Inductive PrologueResult : Type :=
  | ProbablyAlreadyInBody (t : UnexpectedInstructionType)
  | FoundFunctionStart (sp_offset : Z).

Inductive PrologueInstructionType : Type :=
  | NotExpectedInPrologue
  | CouldBePartOfPrologueIfThereIsAlsoAStackPointerSub
  | VeryLikelyPartOfPrologue.

#[export] Instance PrologueInstructionType_eq_dec : EqDecision PrologueInstructionType.
Proof. solve_decision. Defined.

Definition analyze_prologue_instruction_type (word : Z) : PrologueInstructionType :=
  if (word =? 0xd503237f) || (word =? 0x910003fd) then VeryLikelyPartOfPrologue
  else
    let bits_22_to_32 := Z.shiftr word 22 in
    if Z.land bits_22_to_32 0x2f9 =? 0x2a0 then
      let writeback_bits := Z.land bits_22_to_32 0x6 in
      let reference_reg := reg_field word 5 in
      if (writeback_bits =? 0) || negb (reference_reg =? 31) then NotExpectedInPrologue
      else if writeback_bits =? 0x4 then CouldBePartOfPrologueIfThereIsAlsoAStackPointerSub
      else VeryLikelyPartOfPrologue
    else if Z.land bits_22_to_32 0x2fe =? 0x244 then
      let result_reg := reg_field word 0 in
      let input_reg := reg_field word 5 in
      let is_sub := bits word 30 1 =? 1 in
      let expected_result_reg := if is_sub then 31 else 29 in
      if negb (input_reg =? 31) || negb (result_reg =? expected_result_reg) then NotExpectedInPrologue
      else VeryLikelyPartOfPrologue
    else NotExpectedInPrologue.

(** The detector's state is its [sp_offset]. *)
Definition reverse_step_instruction (sp_offset word : Z) : PrologueStepResult * Z :=
  if word =? 0xd503237f then (ValidPrologueInstruction, sp_offset)
  else if bits word 22 0x2f9 =? 0x2a0 then
    let writeback_bits := bits word 23 0x3 in
    if writeback_bits =? 0 then (UnexpectedInstruction StoreOfWrongSize, sp_offset)
    else
      let reference_reg := reg_field word 5 in
      if negb (reference_reg =? 31) then (UnexpectedInstruction StoreReferenceRegisterNotSp, sp_offset)
      else
        let is_preindexed_writeback := writeback_bits =? 0x3 in
        let is_postindexed_writeback := writeback_bits =? 0x1 in
        if is_preindexed_writeback || is_postindexed_writeback
        then (ValidPrologueInstruction, as_s 32 (sp_offset - imm7 word))
        else (ValidPrologueInstruction, sp_offset)
  else if bits word 23 0x1ff =? 0x1a2 then
    let result_reg := reg_field word 0 in
    let input_reg := reg_field word 5 in
    if negb (result_reg =? 31) || negb (input_reg =? 31)
    then (UnexpectedInstruction AddSubNotOperatingOnSp, sp_offset)
    else (ValidPrologueInstruction, as_s 32 (sp_offset + imm12 word))
  else (UnexpectedInstruction Unknown, sp_offset).

(** The [for] loop over the instructions, last one first. *)
Fixpoint reverse_steps (sp_offset : Z) (instructions : list Z) : Z :=
  match instructions with
  | [] => sp_offset
  | instruction :: instructions =>
      match reverse_step_instruction sp_offset instruction with
      | (UnexpectedInstruction _, sp_offset) => sp_offset
      | (ValidPrologueInstruction, sp_offset) => reverse_steps sp_offset instructions
      end
  end.

Definition analyze_slices (slice_from_start slice_to_end : list Z) : PrologueResult :=
  if (length slice_to_end <? 4)%nat then ProbablyAlreadyInBody NoNextInstruction
  else
    let next_instruction := read_u32 slice_to_end in
    let next_instruction_type := analyze_prologue_instruction_type next_instruction in
    if bool_decide (next_instruction_type = NotExpectedInPrologue) then ProbablyAlreadyInBody Unknown
    else
      let sp_offset := reverse_steps 0 (reverse (chunks_exact slice_from_start)) in
      if bool_decide (next_instruction_type = CouldBePartOfPrologueIfThereIsAlsoAStackPointerSub) && (sp_offset =? 0)
      then ProbablyAlreadyInBody NoStackPointerSubBeforeStore
      else FoundFunctionStart sp_offset.

Definition unwind_rule_from_detected_prologue (slice_from_start slice_to_end : list Z) : option UnwindRuleAarch64 :=
  match analyze_slices slice_from_start slice_to_end with
  | ProbablyAlreadyInBody _ => None
  | FoundFunctionStart sp_offset =>
      sp_offset_by_16 ← try_u 16 (Z.quot sp_offset 16);
      Some (if sp_offset_by_16 =? 0 then NoOp else OffsetSp sp_offset_by_16)
  end.
End Prologue.

(** ** Epilogues *)

Module Epilogue.

Record EpilogueDetectorAarch64 : Type := MkDetector {
  sp_offset : Z;
  fp_offset_from_initial_sp : option Z;
  lr_offset_from_initial_sp : option Z;
}.

Inductive UnexpectedInstructionType : Type :=
  | LoadOfWrongSize
  | LoadReferenceRegisterNotSp
  | AddSubNotOperatingOnSp
  | AutibspNotFollowedByExpectedTailCall
  | BranchWithUnadjustedStackPointer
  | Unknown.

Inductive EpilogueStepResult : Type :=
  | NeedMore
  | FoundBodyInstruction (t : UnexpectedInstructionType)
  | FoundReturn
  | FoundTailCall
  | CouldBeAuthTailCall.

Inductive EpilogueResult : Type :=
  | ProbablyStillInBody (t : UnexpectedInstructionType)
  | ReachedFunctionEndWithoutReturn
  | FoundReturnOrTailCall (sp_offset : Z) (fp_offset_from_initial_sp lr_offset_from_initial_sp : option Z).

Inductive EpilogueInstructionType : Type :=
  | NotExpectedInEpilogue
  | CouldBeTailCall (offset_of_expected_autibsp : nat)
  | CouldBePartOfAuthTailCall (offset_of_expected_autibsp : nat)
  | VeryLikelyPartOfEpilogue.

Definition new_detector : EpilogueDetectorAarch64 := MkDetector 0 None None.

Definition instruction_adjusts_stack_pointer (word : Z) : bool :=
  (bits word 22 0x2fb =? 0x2a3) && (reg_field word 5 =? 31)
  || (bits word 23 0x1ff =? 0x122) && (reg_field word 0 =? 31) && (reg_field word 5 =? 31).

(** [mov x16, #0xXXXX] and [braa xX, x16]. *)
Definition is_mov_x16 (word : Z) : bool := (bits word 23 0x1c7 =? 0x185) && (reg_field word 0 =? 16).
Definition is_braa_x16 (word : Z) : bool := (Z.land word 0xfffffc00 =? 0xd71f0800) && (reg_field word 0 =? 16).

Definition eor_tbz_brk : list Z := [0xd0; 0x07; 0x1e; 0xca; 0x50; 0x00; 0xf0; 0xb6; 0x20; 0x8e; 0x38; 0xd4].

Definition is_auth_tail_call (bytes_after_autibsp : list Z) : bool :=
  if (length bytes_after_autibsp <? 16)%nat then false
  else if negb (bool_decide (take 12 bytes_after_autibsp = eor_tbz_brk)) then false
  else
    let first_tail_call_instruction_opcode := read_u32 (drop 12 bytes_after_autibsp) in
    if Z.shiftr first_tail_call_instruction_opcode 26 =? 5 then true
    else if (length bytes_after_autibsp <? 20)%nat then false
    else if negb (is_mov_x16 first_tail_call_instruction_opcode) then false
    else is_braa_x16 (read_u32 (drop 16 bytes_after_autibsp)).

Definition analyze_instruction (word : Z) : EpilogueInstructionType :=
  if (word =? 0xd65f03c0) || (word =? 0xd65f0fff) then VeryLikelyPartOfEpilogue
  else if word =? 0xd50323ff then CouldBePartOfAuthTailCall 0
  else if word =? 0xca1e07d0 then CouldBePartOfAuthTailCall 4
  else if word =? 0xb6f00050 then CouldBePartOfAuthTailCall 8
  else if word =? 0xd4388e20 then CouldBePartOfAuthTailCall 12
  else if (Z.shiftr word 26 =? 5) || (Z.land word 0xfffffc1f =? 0xd61f0000) then CouldBeTailCall 16
  else if is_mov_x16 word then CouldBePartOfAuthTailCall 16
  else if is_braa_x16 word then CouldBePartOfAuthTailCall 20
  else if bits word 22 0x2f9 =? 0x2a1 then
    let writeback_bits := bits word 23 0x3 in
    if writeback_bits =? 0 then NotExpectedInEpilogue
    else
      let reference_reg := reg_field word 5 in
      if negb (reference_reg =? 31) then NotExpectedInEpilogue else VeryLikelyPartOfEpilogue
  else if bits word 23 0x1ff =? 0x122 then
    let result_reg := reg_field word 0 in
    let input_reg := reg_field word 5 in
    if negb (result_reg =? 31) || negb (input_reg =? 31) then NotExpectedInEpilogue else VeryLikelyPartOfEpilogue
  else NotExpectedInEpilogue.

(** Recording that the register [reg] is restored from [loc]. *)
Definition restore_reg (self : EpilogueDetectorAarch64) (reg loc : Z) : EpilogueDetectorAarch64 :=
  if reg =? 29 then MkDetector (sp_offset self) (Some loc) (lr_offset_from_initial_sp self)
  else if reg =? 30 then MkDetector (sp_offset self) (fp_offset_from_initial_sp self) (Some loc)
  else self.

(** [self.sp_offset += offset]. *)
Definition add_sp_offset (self : EpilogueDetectorAarch64) (offset : Z) : EpilogueDetectorAarch64 :=
  MkDetector (as_s 32 (sp_offset self + offset)) (fp_offset_from_initial_sp self) (lr_offset_from_initial_sp self).

Definition step_instruction (self : EpilogueDetectorAarch64) (word : Z) :
    EpilogueStepResult * EpilogueDetectorAarch64 :=
  if (word =? 0xd65f03c0) || (word =? 0xd65f0fff) then (FoundReturn, self)
  else if word =? 0xd50323ff then (CouldBeAuthTailCall, self)
  else if Z.shiftr word 26 =? 5 then
    if negb (sp_offset self =? 0) then (FoundTailCall, self)
    else (FoundBodyInstruction BranchWithUnadjustedStackPointer, self)
  else if bits word 22 0x2f9 =? 0x2a1 then
    let writeback_bits := bits word 23 0x3 in
    if writeback_bits =? 0 then (FoundBodyInstruction LoadOfWrongSize, self)
    else
      let reference_reg := reg_field word 5 in
      if negb (reference_reg =? 31) then (FoundBodyInstruction LoadReferenceRegisterNotSp, self)
      else
        let is_preindexed_writeback := writeback_bits =? 0x3 in
        let is_postindexed_writeback := writeback_bits =? 0x1 in
        let reg_loc :=
          if is_postindexed_writeback then sp_offset self else as_s 32 (sp_offset self + imm7 word) in
        let self := restore_reg self (reg_field word 0) reg_loc in
        let self := restore_reg self (reg_field word 10) (as_s 32 (reg_loc + 8)) in
        (NeedMore,
         if is_preindexed_writeback || is_postindexed_writeback then add_sp_offset self (imm7 word) else self)
  else if bits word 23 0x1ff =? 0x122 then
    let result_reg := reg_field word 0 in
    let input_reg := reg_field word 5 in
    if negb (result_reg =? 31) || negb (input_reg =? 31) then (FoundBodyInstruction AddSubNotOperatingOnSp, self)
    else (NeedMore, add_sp_offset self (imm12 word))
  else (FoundBodyInstruction Unknown, self).

(** The loop over the instructions: [word], then those of [bytes]. *)
Fixpoint analyze_loop (self : EpilogueDetectorAarch64) (word : Z) (bytes : list Z) : EpilogueResult :=
  let found self :=
    FoundReturnOrTailCall (sp_offset self) (fp_offset_from_initial_sp self) (lr_offset_from_initial_sp self) in
  match step_instruction self word with
  | (NeedMore, self) =>
      match bytes with
      | b0 :: b1 :: b2 :: b3 :: bytes => analyze_loop self (from_le_bytes [b0; b1; b2; b3]) bytes
      | _ => ReachedFunctionEndWithoutReturn
      end
  | (FoundBodyInstruction uit, _) => ProbablyStillInBody uit
  | (FoundReturn, self) | (FoundTailCall, self) => found self
  | (CouldBeAuthTailCall, self) =>
      if is_auth_tail_call bytes then found self else ProbablyStillInBody AutibspNotFollowedByExpectedTailCall
  end.

(** Whether [autibsp] and an authenticated tail call begin
    [offset_of_expected_autibsp] bytes before [pc_offset]. *)
Definition auth_tail_call_at (function_bytes : list Z) (pc_offset offset_of_expected_autibsp : nat) : bool :=
  (offset_of_expected_autibsp <=? pc_offset)%nat &&
  let auth_tail_call_bytes := drop (pc_offset - offset_of_expected_autibsp) function_bytes in
  bool_decide (take 4 auth_tail_call_bytes = [0xff; 0x23; 0x03; 0xd5]) &&
  is_auth_tail_call (drop 4 auth_tail_call_bytes).

(** The slices from [pc_offset] and from the earlier [autibsp] have four bytes when the
    first test has passed; only [&function_bytes[pc_offset..]] can panic. *)
Definition analyze_slice (self : EpilogueDetectorAarch64) (function_bytes : list Z) (pc_offset : nat) :
    result panic EpilogueResult :=
  '(_, bytes) ← split_at function_bytes pc_offset;
  let nothing_restored := FoundReturnOrTailCall 0 None None in
  if (length bytes <? 4)%nat then mret ReachedFunctionEndWithoutReturn
  else
    let word := read_u32 bytes in
    mret
      match analyze_instruction word with
      | NotExpectedInEpilogue => ProbablyStillInBody Unknown
      | CouldBeTailCall offset_of_expected_autibsp =>
          if auth_tail_call_at function_bytes pc_offset offset_of_expected_autibsp then nothing_restored
          else if (4 <=? pc_offset)%nat &&
                  instruction_adjusts_stack_pointer (read_u32 (drop (pc_offset - 4) function_bytes))
          then nothing_restored
          else ProbablyStillInBody Unknown
      | CouldBePartOfAuthTailCall offset_of_expected_autibsp =>
          if auth_tail_call_at function_bytes pc_offset offset_of_expected_autibsp then nothing_restored
          else ProbablyStillInBody Unknown
      | VeryLikelyPartOfEpilogue => analyze_loop self word (drop 4 bytes)
      end.

(** The rule of what an epilogue restores. *)
Definition restore_rule (sp_offset : Z) (fp_offset lr_offset : option Z) : option UnwindRuleAarch64 :=
  sp_offset_by_16 ← try_u 16 (Z.quot sp_offset 16);
  match fp_offset, lr_offset with
  | None, None => Some (if sp_offset_by_16 =? 0 then NoOp else OffsetSp sp_offset_by_16)
  | None, Some lr_offset =>
      lr_by_8 ← try_s 16 (Z.quot lr_offset 8);
      Some (OffsetSpAndRestoreLr sp_offset_by_16 lr_by_8)
  | Some _, None => None
  | Some fp_offset, Some lr_offset =>
      fp_by_8 ← try_s 16 (Z.quot fp_offset 8);
      lr_by_8 ← try_s 16 (Z.quot lr_offset 8);
      Some (OffsetSpAndRestoreFpAndLr sp_offset_by_16 fp_by_8 lr_by_8)
  end.

Definition unwind_rule_from_detected_epilogue (bytes : list Z) (pc_offset : nat) :
    result panic (option UnwindRuleAarch64) :=
  r ← analyze_slice new_detector bytes pc_offset;
  mret
    match r with
    | ProbablyStillInBody _ | ReachedFunctionEndWithoutReturn => None
    | FoundReturnOrTailCall sp_offset fp_offset lr_offset => restore_rule sp_offset fp_offset lr_offset
    end.
End Epilogue.

#[export] Instance InstructionAnalysis_aarch64 : InstructionAnalysis UnwindRuleAarch64 := {
  rule_from_prologue_analysis := fun text_bytes pc_offset =>
    '(slice_from_start, slice_to_end) ← split_at text_bytes pc_offset;
    mret (Prologue.unwind_rule_from_detected_prologue slice_from_start slice_to_end);
  rule_from_epilogue_analysis := Epilogue.unwind_rule_from_detected_epilogue;
}.

(** The detected rules are in range. *)
Lemma prologue_rule_wf from rest rule :
  Prologue.unwind_rule_from_detected_prologue from rest = Some rule -> rule_wf rule.
Proof.
  unfold Prologue.unwind_rule_from_detected_prologue. destruct (Prologue.analyze_slices from rest) as [|off]; [done|].
  destruct (try_u 16 _) as [n|] eqn:E; [|done]. apply try_u_Some in E as [-> Hn]. cbn.
  destruct (_ =? 0); by intros [= <-].
Qed.

Lemma restore_rule_wf off fp lr rule : Epilogue.restore_rule off fp lr = Some rule -> rule_wf rule.
Proof.
  unfold Epilogue.restore_rule. destruct (try_u 16 _) as [n|] eqn:E; [|done]. apply try_u_Some in E as [-> Hn]. cbn.
  destruct fp as [fp|], lr as [lr|]; cbn.
  - destruct (try_s 16 (Z.quot fp 8)) as [a|] eqn:E; [|done]. apply try_s_Some in E as [-> Ha]. cbn.
    destruct (try_s 16 _) as [b|] eqn:E; [|done]. apply try_s_Some in E as [-> Hb]. by intros [= <-].
  - done.
  - destruct (try_s 16 _) as [b|] eqn:E; [|done]. apply try_s_Some in E as [-> Hb]. by intros [= <-].
  - destruct (_ =? 0); by intros [= <-].
Qed.

Lemma analysis_rule_wf bytes pc rule : rule_from_instruction_analysis bytes pc = Ok (Some rule) -> rule_wf rule.
Proof.
  unfold rule_from_instruction_analysis. cbn [rule_from_prologue_analysis rule_from_epilogue_analysis InstructionAnalysis_aarch64].
  destruct (split_at bytes pc) as [[from rest]|]; [|done]. cbn.
  destruct (Prologue.unwind_rule_from_detected_prologue from rest) as [r|] eqn:Ep.
  { intros [= <-]. by apply prologue_rule_wf in Ep. }
  unfold Epilogue.unwind_rule_from_detected_epilogue.
  destruct (Epilogue.analyze_slice _ bytes pc) as [[| |off fp lr]|]; cbn; try done.
  intros [= Hr]. by apply restore_rule_wf in Hr.
Qed.

#[export] Instance InstructionAnalysisLaws_aarch64 : InstructionAnalysisLaws UnwindRuleAarch64.
Proof.
  split; intros bytes pc Hpc; cbn; unfold Epilogue.unwind_rule_from_detected_epilogue, Epilogue.analyze_slice, split_at;
    rewrite (proj2 (Nat.leb_le _ _) Hpc); cbn; [by eexists|]. case_match; by eexists.
Qed.
(** ** What the instructions do *)

(** The addressing modes of [ldp] and [stp] with [sp] as base. *)
Inductive index_mode : Type := PostIndex | Offset | PreIndex.

(** The instructions of prologues and epilogues that move the stack pointer or the
    registers that are recovered: [imm] is in units of eight bytes. *)
Inductive instr : Type :=
  | Ldp (mode : index_mode) (imm rt rt2 : Z)
  | AddSp (imm : Z) (lsl12 : bool)
  | Stp (mode : index_mode) (imm rt rt2 : Z)
  | SubSp (imm : Z) (lsl12 : bool)
  | Pacibsp.

Definition mode_bits (mode : index_mode) : Z := match mode with PostIndex => 1 | Offset => 2 | PreIndex => 3 end.

Definition pair_word (base : Z) (mode : index_mode) (imm rt rt2 : Z) : Z :=
  base + mode_bits mode * 2 ^ 23 + imm mod 2 ^ 7 * 2 ^ 15 + rt2 * 2 ^ 10 + 31 * 2 ^ 5 + rt.
Definition imm_word (base imm : Z) (lsl12 : bool) : Z :=
  base + Z.b2z lsl12 * 2 ^ 22 + imm * 2 ^ 10 + 31 * 2 ^ 5 + 31.

(** The words of an instruction. A pair with both [opc] bits set is not allocated; the
    analysis takes it for the pair with one. *)
Definition encodings (i : instr) : list Z :=
  match i with
  | Ldp mode imm rt rt2 => [pair_word 0xa8400000 mode imm rt rt2; pair_word 0xe8400000 mode imm rt rt2]
  | AddSp imm lsl12 => [imm_word 0x91000000 imm lsl12]
  | Stp mode imm rt rt2 => [pair_word 0xa8000000 mode imm rt rt2; pair_word 0xe8000000 mode imm rt rt2]
  | SubSp imm lsl12 => [imm_word 0xd1000000 imm lsl12]
  | Pacibsp => [0xd503237f]
  end.

(** The fields are in their ranges. *)
Definition instr_ok (i : instr) : Prop :=
  match i with
  | Ldp _ imm rt rt2 | Stp _ imm rt rt2 => - 64 <= imm < 64 /\ 0 <= rt < 32 /\ 0 <= rt2 < 32
  | AddSp imm _ | SubSp imm _ => 0 <= imm < 4096
  | Pacibsp => True
  end.
Definition encodes (w : Z) (i : instr) : Prop := instr_ok i /\ w ∈ encodings i.

(** How an instruction moves the stack pointer, and where a pair is. *)
Definition write_back (mode : index_mode) (imm : Z) : Z := match mode with Offset => 0 | _ => 8 * imm end.
Definition sp_change (i : instr) : Z :=
  match i with
  | Ldp mode imm _ _ | Stp mode imm _ _ => write_back mode imm
  | AddSp imm lsl12 => if lsl12 then imm * 4096 else imm
  | SubSp imm lsl12 => - (if lsl12 then imm * 4096 else imm)
  | Pacibsp => 0
  end.
Definition pair_offset (mode : index_mode) (imm : Z) : Z := match mode with PostIndex => 0 | _ => 8 * imm end.

(** The registers a caller gets back: [sp], [fp] and [lr]. *)
Record machine : Type := MkMachine { m_sp : Z; m_fp : Z; m_lr : Z }.

(** Loading a register; only [fp] and [lr] matter. *)
Definition load_reg (rs : stack_reader) (reg a : Z) (m : machine) : option machine :=
  if reg =? 29 then v ← rs a; Some (MkMachine (m_sp m) v (m_lr m))
  else if reg =? 30 then v ← rs a; Some (MkMachine (m_sp m) (m_fp m) v)
  else Some m.

(** Running an instruction. A load or store through a stack pointer that is not
    aligned to 16 bytes faults. *)
Definition run_instr (rs : stack_reader) (i : instr) (m : machine) : option machine :=
  let moved m := MkMachine (m_sp m + sp_change i) (m_fp m) (m_lr m) in
  match i with
  | Ldp mode imm rt rt2 =>
      if m_sp m mod 16 =? 0 then
        let a := m_sp m + pair_offset mode imm in
        m ← load_reg rs rt a m;
        m ← load_reg rs rt2 (a + 8) m;
        Some (moved m)
      else None
  | Stp _ _ _ _ => if m_sp m mod 16 =? 0 then Some (moved m) else None
  | _ => Some (moved m)
  end.

Fixpoint run_instrs (rs : stack_reader) (instrs : list instr) (m : machine) : option machine :=
  match instrs with
  | [] => Some m
  | i :: instrs => m ← run_instr rs i m; run_instrs rs instrs m
  end.

Example test_prologue_with_pacibsp :
  let bytes := [0x08; 0x58; 0x29; 0xb8; 0xc0; 0x03; 0x5f; 0xd6; 0x7f; 0x23; 0x03; 0xd5; 0xf8; 0x5f; 0xbc; 0xa9;
    0xf6; 0x57; 0x01; 0xa9; 0xf4; 0x4f; 0x02; 0xa9; 0xfd; 0x7b; 0x03; 0xa9; 0xfd; 0xc3; 0x00; 0x91; 0xf3; 0x03; 0x02; 0xaa] in
  (fun pc => rule_from_prologue_analysis bytes pc) <$> [0; 8; 12; 16; 28; 32]%nat =
  [Ok None; Ok (Some NoOp); Ok (Some NoOp); Ok (Some (OffsetSp 4)); Ok (Some (OffsetSp 4)); Ok None].
Proof. vm_compute. reflexivity. Qed.
Example test_epilogue_1 :
  let bytes := [0xfd; 0x7b; 0x44; 0xa9; 0xf4; 0x4f; 0x43; 0xa9; 0xf6; 0x57; 0x42; 0xa9; 0xff; 0x43; 0x01; 0x91; 0xc0; 0x03; 0x5f; 0xd6] in
  (fun pc => rule_from_epilogue_analysis bytes pc) <$> [0; 4; 12; 16]%nat =
  [Ok (Some (OffsetSpAndRestoreFpAndLr 5 8 9)); Ok (Some (OffsetSp 5)); Ok (Some (OffsetSp 5)); Ok (Some NoOp)].
Proof. vm_compute. reflexivity. Qed.

(** ** Decoding *)

(** Shifts and masks as division and remainder. *)
Lemma bits_spec word lo n : 0 <= lo -> 0 <= n -> bits word lo (Z.ones n) = word / 2 ^ lo mod 2 ^ n.
Proof. intros. unfold bits. by rewrite Z.shiftr_div_pow2, Z.land_ones. Qed.

Lemma reg_field_spec word lo : 0 <= lo -> reg_field word lo = word / 2 ^ lo mod 32.
Proof. intros. unfold reg_field. change 0x1f with (Z.ones 5). by rewrite bits_spec. Qed.

(** What the top ten bits are, when a masked test succeeds: by trying all of them. *)
Lemma top_bits word mask v (l : list Z) :
  u32 word ->
  forallb (fun n => negb (Z.land n mask =? v) || bool_decide (n ∈ l)) (seqZ 0 1024) = true ->
  bits word 22 mask = v -> word / 2 ^ 22 ∈ l.
Proof.
  intros Hw Hall Hb. unfold bits in Hb. rewrite Z.shiftr_div_pow2 in Hb by lia.
  rewrite forallb_forall in Hall. specialize (Hall (word / 2 ^ 22)).
  rewrite Hb, Z.eqb_refl in Hall. cbn in Hall. eapply bool_decide_eq_true_1, Hall.
  apply list_elem_of_In, elem_of_seqZ. unfold in_u in Hw. split; [apply Z.div_pos; lia|].
  apply Z.div_lt_upper_bound; lia.
Qed.

Lemma imm7_spec word : imm7 word = 8 * ((word / 2 ^ 15 + 64) mod 128 - 64).
Proof.
  unfold imm7. change 0x7f with (Z.ones 7). rewrite bits_spec by lia.
  rewrite (as_s_small 16 (_ mod _)) by (try lia; unfold in_s; pose proof (Z.mod_pos_bound (word / 2 ^ 15) (2 ^ 7)); lia).
  rewrite Z.shiftl_mul_pow2, Z.shiftr_div_pow2 by lia. unfold as_s.
  generalize (word / 2 ^ 15). intros x. Z.div_mod_to_equations. lia.
Qed.

Definition imm_field (word : Z) : Z := (word / 2 ^ 15 + 64) mod 128 - 64.

Lemma imm_field_range word : - 64 <= imm_field word < 64.
Proof. unfold imm_field. pose proof (Z.mod_pos_bound (word / 2 ^ 15 + 64) 128). lia. Qed.

(** A word is its fields. *)
Lemma pair_word_fields word base mode :
  word / 2 ^ 22 = base / 2 ^ 22 + 2 * mode_bits mode -> base mod 2 ^ 22 = 0 -> reg_field word 5 = 31 ->
  word = pair_word base mode (imm_field word) (reg_field word 0) (reg_field word 10).
Proof.
  rewrite !reg_field_spec by lia. unfold pair_word, imm_field. intros Ht Hb H5.
  assert (word / 2 ^ 22 = word / 2 ^ 15 / 2 ^ 7) as E1 by (by rewrite Z.div_div).
  assert (word / 2 ^ 15 = word / 2 ^ 10 / 32) as E2 by (by rewrite Z.div_div).
  assert (word / 2 ^ 10 = word / 2 ^ 5 / 32) as E3 by (by rewrite Z.div_div).
  assert (word / 2 ^ 5 = word / 2 ^ 0 / 32) as E4 by (by rewrite Z.div_div).
  rewrite Z.div_1_r in *. set (m := mode_bits mode) in *. clearbody m.
  Z.div_mod_to_equations. lia.
Qed.

Lemma writeback_spec word : bits word 23 0x3 = word / 2 ^ 22 / 2 mod 4.
Proof. change 0x3 with (Z.ones 2). rewrite bits_spec, Z.div_div by lia. done. Qed.

Lemma reg_field_range word lo : 0 <= lo -> 0 <= reg_field word lo < 32.
Proof. intros. rewrite reg_field_spec by done. apply Z.mod_pos_bound. lia. Qed.

(** The pairs of base [base], with [opc] 10 or 11. *)
Lemma pair_decodes word base :
  base mod 2 ^ 22 = 0 -> base / 2 ^ 22 mod 8 < 2 ->
  word / 2 ^ 22 ∈ (fun k => base / 2 ^ 22 + k) <$> [0; 2; 4; 6; 256; 258; 260; 262] ->
  bits word 23 0x3 <> 0 -> reg_field word 5 = 31 ->
  exists mode, mode_bits mode = bits word 23 0x3 /\
    word ∈ [pair_word base mode (imm_field word) (reg_field word 0) (reg_field word 10);
            pair_word (base + 2 ^ 30) mode (imm_field word) (reg_field word 0) (reg_field word 10)].
Proof.
  intros Hb H8 Hin Hw H5. rewrite writeback_spec in *. pose proof (Z.mod_pos_bound (base / 2 ^ 22) 8 ltac:(lia)).
  assert (Hhi : (base + 2 ^ 30) / 2 ^ 22 = base / 2 ^ 22 + 256).
  { change (2 ^ 30) with (256 * 2 ^ 22). by rewrite Z.div_add. }
  assert (Hhi0 : (base + 2 ^ 30) mod 2 ^ 22 = 0).
  { change (2 ^ 30) with (256 * 2 ^ 22). by rewrite Z.mod_add. }
  assert (Hm : forall top k, top = base / 2 ^ 22 + 2 * k -> top / 2 mod 4 = k mod 4).
  { intros top k ->. clear -H8 H. Z.div_mod_to_equations. lia. }
  apply list_elem_of_fmap in Hin as (k & Htop & Hk). rewrite Htop in Hw |- *.
  assert (Hlo : forall mode, k = 2 * mode_bits mode ->
    word = pair_word base mode (imm_field word) (reg_field word 0) (reg_field word 10)).
  { intros mode ->. by apply pair_word_fields. }
  assert (Hhi' : forall mode, k = 256 + 2 * mode_bits mode ->
    word = pair_word (base + 2 ^ 30) mode (imm_field word) (reg_field word 0) (reg_field word 10)).
  { intros mode ->. apply pair_word_fields; [lia|done..]. }
  assert (Hk2 : (base / 2 ^ 22 + k) / 2 mod 4 = k / 2 mod 4).
  { apply Hm. clear -Hk. assert (k mod 2 = 0); [|Z.div_mod_to_equations; lia].
    repeat (apply elem_of_cons in Hk as [->|Hk]; [done|]). by apply elem_of_nil in Hk. }
  rewrite Hk2 in Hw |- *.
  repeat (apply elem_of_cons in Hk as [->|Hk]; [first
    [done | exists PostIndex; split; [done|] | exists Offset; split; [done|] | exists PreIndex; split; [done|]];
    first [rewrite <- Hlo by done; left | rewrite <- Hhi' by done; right; left]|]).
  by apply elem_of_nil in Hk.
Qed.

Lemma ldp_encodes word :
  u32 word -> bits word 22 0x2f9 = 0x2a1 -> bits word 23 0x3 <> 0 -> reg_field word 5 = 31 ->
  exists mode, mode_bits mode = bits word 23 0x3 /\
    encodes word (Ldp mode (imm_field word) (reg_field word 0) (reg_field word 10)).
Proof.
  intros Hu Hp Hw H5. apply (top_bits _ _ _ ((fun k => 0xa8400000 / 2 ^ 22 + k) <$> [0; 2; 4; 6; 256; 258; 260; 262]) Hu) in Hp;
    [|by vm_compute].
  destruct (pair_decodes word 0xa8400000) as (mode & Hm & Hin); [done|done|done|done|done|].
  exists mode. split; [done|]. split; [|exact Hin]. split_and!; auto using imm_field_range, reg_field_range with lia;
    apply imm_field_range || by apply reg_field_range.
Qed.

Lemma stp_encodes word :
  u32 word -> bits word 22 0x2f9 = 0x2a0 -> bits word 23 0x3 <> 0 -> reg_field word 5 = 31 ->
  exists mode, mode_bits mode = bits word 23 0x3 /\
    encodes word (Stp mode (imm_field word) (reg_field word 0) (reg_field word 10)).
Proof.
  intros Hu Hp Hw H5. apply (top_bits _ _ _ ((fun k => 0xa8000000 / 2 ^ 22 + k) <$> [0; 2; 4; 6; 256; 258; 260; 262]) Hu) in Hp;
    [|by vm_compute].
  destruct (pair_decodes word 0xa8000000) as (mode & Hm & Hin); [done|done|done|done|done|].
  exists mode. split; [done|]. split; [|exact Hin]. split_and!; auto using imm_field_range, reg_field_range with lia;
    apply imm_field_range || by apply reg_field_range.
Qed.

(** An [add] or [sub] of [sp] to itself. *)
Lemma imm_word_fields word base :
  u32 word -> base mod 2 ^ 23 = 0 -> bits word 23 0x1ff = base / 2 ^ 23 -> reg_field word 0 = 31 -> reg_field word 5 = 31 ->
  word = imm_word base (bits word 10 0xfff) (bits word 22 1 =? 1).
Proof.
  rewrite !reg_field_spec by lia. change 0x1ff with (Z.ones 9). change 0xfff with (Z.ones 12).
  change (bits word 22 1) with (bits word 22 (Z.ones 1)). rewrite !bits_spec by lia.
  unfold imm_word. intros Hu Hb H9 H0 H5.
  assert (word / 2 ^ 23 = word / 2 ^ 22 / 2) as E1 by (by rewrite Z.div_div).
  assert (word / 2 ^ 22 = word / 2 ^ 10 / 2 ^ 12) as E2 by (by rewrite Z.div_div).
  assert (word / 2 ^ 10 = word / 2 ^ 5 / 32) as E3 by (by rewrite Z.div_div).
  assert (word / 2 ^ 5 = word / 2 ^ 0 / 32) as E4 by (by rewrite Z.div_div).
  rewrite Z.div_1_r in *. unfold in_u in Hu.
  assert (Z.b2z (word / 2 ^ 22 mod 2 ^ 1 =? 1) = word / 2 ^ 22 mod 2) as ->.
  { change (2 ^ 1) with 2. pose proof (Z.mod_pos_bound (word / 2 ^ 22) 2 ltac:(lia)).
    destruct (Z.eqb_spec (word / 2 ^ 22 mod 2) 1); cbn; lia. }
  Z.div_mod_to_equations. lia.
Qed.

Lemma imm12_spec word :
  imm12 word = (if bits word 22 1 =? 1 then bits word 10 0xfff * 4096 else bits word 10 0xfff) /\
  0 <= bits word 10 0xfff < 4096.
Proof.
  unfold imm12. assert (Hr : 0 <= bits word 10 0xfff < 4096).
  { change 0xfff with (Z.ones 12). rewrite bits_spec by lia. apply Z.mod_pos_bound. lia. }
  split; [|done]. destruct (_ =? 1); [|done]. rewrite Z.shiftl_mul_pow2 by lia. apply as_s_small; unfold in_s; lia.
Qed.

Lemma imm_encodes word base (i : Z -> bool -> instr) :
  (forall imm lsl12, instr_ok (i imm lsl12) = (0 <= imm < 4096)) ->
  (forall imm lsl12, encodings (i imm lsl12) = [imm_word base imm lsl12]) ->
  u32 word -> base mod 2 ^ 23 = 0 -> bits word 23 0x1ff = base / 2 ^ 23 -> reg_field word 0 = 31 -> reg_field word 5 = 31 ->
  encodes word (i (bits word 10 0xfff) (bits word 22 1 =? 1)).
Proof.
  intros Hok Henc Hu Hb H9 H0 H5. split; [rewrite Hok; apply imm12_spec|].
  rewrite Henc, <- (imm_word_fields word base) by done. by left.
Qed.

(** ** Running an epilogue and its detector side by side *)

(** Where the detector says a register was restored from. *)
Definition restored (rs : stack_reader) (base initial current : Z) (offset : option Z) : Prop :=
  match offset with
  | Some loc => loc mod 8 = 0 /\ i32 loc /\ rs (base + loc) = Some current
  | None => current = initial
  end.

(** After at most [n] instructions, from the machine [m0] to [m]. *)
Record agrees (rs : stack_reader) (m0 m : machine) (n : Z) (d : Epilogue.EpilogueDetectorAarch64) : Prop := {
  agrees_sp : m_sp m = m_sp m0 + Epilogue.sp_offset d;
  agrees_bound : - n * 2 ^ 24 <= Epilogue.sp_offset d <= n * 2 ^ 24;
  agrees_fp : restored rs (m_sp m0) (m_fp m0) (m_fp m) (Epilogue.fp_offset_from_initial_sp d);
  agrees_lr : restored rs (m_sp m0) (m_lr m0) (m_lr m) (Epilogue.lr_offset_from_initial_sp d);
}.

Lemma agrees_new rs m : agrees rs m m 0 Epilogue.new_detector.
Proof. by split; cbn; [lia|lia|..]. Qed.

Lemma agrees_mono rs m0 m n n' d : n <= n' -> agrees rs m0 m n d -> agrees rs m0 m n' d.
Proof. intros Hn [Hs Hb Hf Hl]. split; [done|lia|done..]. Qed.

Lemma agrees_load rs m0 m m' n d reg loc :
  agrees rs m0 m n d -> loc mod 8 = 0 -> i32 loc -> load_reg rs reg (m_sp m0 + loc) m = Some m' ->
  agrees rs m0 m' n (Epilogue.restore_reg d reg loc) /\ m_sp m' = m_sp m.
Proof.
  intros [Hs Hb Hf Hl] H8 Hi Hload. unfold load_reg, Epilogue.restore_reg in *.
  destruct (reg =? 29); [|destruct (reg =? 30)]; [..|by simplify_eq; split];
    (destruct (rs (m_sp m0 + loc)) as [v|] eqn:Ev; [|done]; cbn in Hload; simplify_eq; split; [by split|done]).
Qed.

Lemma agrees_move rs m0 m n d k :
  agrees rs m0 m n d -> 0 <= n < 127 -> - 2 ^ 24 <= k <= 2 ^ 24 ->
  agrees rs m0 (MkMachine (m_sp m + k) (m_fp m) (m_lr m)) (n + 1) (Epilogue.add_sp_offset d k).
Proof.
  intros [Hs Hb Hf Hl] Hn Hk. unfold Epilogue.add_sp_offset.
  split; cbn; rewrite ?as_s_small by (try lia; unfold in_s; lia); [lia|lia|done..].
Qed.

Lemma imm7_field word : imm7 word = 8 * imm_field word.
Proof. apply imm7_spec. Qed.

(** The instructions an epilogue is made of. *)
Definition is_epilogue_instr (i : instr) : Prop := match i with Ldp _ _ _ _ | AddSp _ _ => True | _ => False end.

(** A step of the detector is an instruction. *)
Lemma step_instruction_spec d word d' :
  u32 word -> Epilogue.step_instruction d word = (Epilogue.NeedMore, d') ->
  exists i, encodes word i /\ is_epilogue_instr i /\
    forall rs m0 m m' n, 0 <= n < 127 -> m_sp m0 mod 16 = 0 ->
      agrees rs m0 m n d -> run_instr rs i m = Some m' -> agrees rs m0 m' (n + 1) d'.
Proof.
  intros Hu Hs. unfold Epilogue.step_instruction in Hs.
  destruct ((_ =? _) || _); [done|]. destruct (_ =? _); [done|].
  destruct (_ =? 5); [by destruct (negb _)|].
  destruct (bits word 22 0x2f9 =? 0x2a1) eqn:E1.
  - destruct (bits word 23 0x3 =? 0) eqn:E2; [done|].
    destruct (negb (reg_field word 5 =? 31)) eqn:E3; [done|]. bool_to_prop.
    destruct (ldp_encodes word) as (mode & Hm & Henc); [done..|].
    eexists. split; [exact Henc|]. split; [done|]. intros rs m0 m m' n Hn H16 Ha Hrun.
    cbn [run_instr] in Hrun. destruct (m_sp m mod 16 =? 0) eqn:E4; [|done]. bool_to_prop.
    rewrite <- Hm, imm7_field in Hs. pose proof (imm_field_range word) as Hi.
    pose proof (agrees_sp _ _ _ _ _ Ha) as Hsp. pose proof (agrees_bound _ _ _ _ _ Ha) as Hb.
    set (loc := Epilogue.sp_offset d + pair_offset mode (imm_field word)).
    assert (Hloc : loc mod 8 = 0 /\ - 127 * 2 ^ 24 - 512 <= loc <= 127 * 2 ^ 24 + 512).
    { unfold loc, pair_offset. split; [|destruct mode; lia].
      destruct mode; rewrite Hsp in E4; Z.div_mod_to_equations; lia. }
    assert (Hrl : (if mode_bits mode =? 0x1 then Epilogue.sp_offset d
                   else as_s 32 (Epilogue.sp_offset d + 8 * imm_field word)) = loc).
    { unfold loc, pair_offset in *. destruct mode; cbn; [lia|apply as_s_small; unfold in_s; lia..]. }
    rewrite Hrl in Hs. rewrite (as_s_small 32 (loc + 8)) in Hs by (try lia; unfold in_s; lia).
    replace (m_sp m + pair_offset mode (imm_field word)) with (m_sp m0 + loc) in Hrun by (unfold loc; lia).
    destruct (load_reg rs (reg_field word 0) _ m) as [m1|] eqn:L1; [|done]. cbn in Hrun.
    replace (m_sp m0 + loc + 8) with (m_sp m0 + (loc + 8)) in Hrun by lia.
    destruct (load_reg rs (reg_field word 10) _ m1) as [m2|] eqn:L2; [|done]. cbn in Hrun.
    eapply agrees_load in L1 as [Ha1 Hs1]; [|done|lia|unfold in_s; lia].
    eapply agrees_load in L2 as [Ha2 Hs2]; [|done|Z.div_mod_to_equations; lia|unfold in_s; lia].
    injection Hrun as <-. injection Hs as <-. cbn [sp_change].
    destruct mode; cbn [write_back mode_bits Z.eqb orb].
    + apply agrees_move; [done|lia|lia].
    + rewrite Z.add_0_r. apply (agrees_mono _ _ _ n); [lia|]. by destruct m2.
    + apply agrees_move; [done|lia|lia].
  - destruct (bits word 23 0x1ff =? 0x122) eqn:E2; [|done].
    destruct (negb (reg_field word 0 =? 31) || negb (reg_field word 5 =? 31)) eqn:E3; [done|]. bool_to_prop.
    eexists. split; [by apply (imm_encodes word 0x91000000 AddSp)|]. split; [done|].
    intros rs m0 m m' n Hn H16 Ha Hrun. cbn in Hrun. simplify_eq.
    destruct (imm12_spec word) as [-> Hr]. apply agrees_move; [done|lia|].
    destruct (bits word 22 1 =? 1); lia.
Qed.

(** Control leaves the function at [pos]: a return, a branch, or an instruction of an
    authenticated tail call that began up to five instructions earlier. *)
Definition leaves_function (text_bytes : list Z) (pos : nat) : Prop :=
  let word := read_u32 (drop pos text_bytes) in
  word = 0xd65f03c0 \/ word = 0xd65f0fff \/ Z.shiftr word 26 = 5 \/ Z.land word 0xfffffc1f = 0xd61f0000 \/
  exists k, (k <= pos)%nat /\ (k <= 20)%nat /\ read_u32 (drop (pos - k) text_bytes) = 0xd50323ff /\
    Epilogue.is_auth_tail_call (drop (pos - k + 4) text_bytes) = true.

Lemma leaves_function_drop text_bytes n pos :
  leaves_function (drop n text_bytes) pos -> leaves_function text_bytes (n + pos).
Proof.
  unfold leaves_function. rewrite !drop_drop. intros [?|[?|[?|[?|(k & Hk & Hk20 & Ha & Ht)]]]]; auto.
  rewrite !drop_drop in *. right; right; right; right. exists k. split_and!; [lia|done|rewrite <- Ha|rewrite <- Ht]; do 2 f_equal; lia.
Qed.

Lemma read_u32_range bytes : Forall u8 bytes -> u32 (read_u32 bytes).
Proof.
  intros Hb. unfold read_u32. pose proof (from_le_bytes_range (take 4 bytes) (Forall_take _ _ _ Hb)) as Hr.
  pose proof (firstn_le_length 4 bytes) as Hl.
  unfold in_u. split; [lia|]. apply (Z.lt_le_trans _ _ _ (proj2 Hr)). apply Z.pow_le_mono_r; lia.
Qed.

Lemma analyze_loop_unfold d word bytes :
  Epilogue.analyze_loop d word bytes =
    match Epilogue.step_instruction d word with
    | (Epilogue.NeedMore, d) =>
        match bytes with
        | b0 :: b1 :: b2 :: b3 :: bytes => Epilogue.analyze_loop d (from_le_bytes [b0; b1; b2; b3]) bytes
        | _ => Epilogue.ReachedFunctionEndWithoutReturn
        end
    | (Epilogue.FoundBodyInstruction uit, _) => Epilogue.ProbablyStillInBody uit
    | (Epilogue.FoundReturn, d) | (Epilogue.FoundTailCall, d) =>
        Epilogue.FoundReturnOrTailCall (Epilogue.sp_offset d)
          (Epilogue.fp_offset_from_initial_sp d) (Epilogue.lr_offset_from_initial_sp d)
    | (Epilogue.CouldBeAuthTailCall, d) =>
        if Epilogue.is_auth_tail_call bytes
        then Epilogue.FoundReturnOrTailCall (Epilogue.sp_offset d)
          (Epilogue.fp_offset_from_initial_sp d) (Epilogue.lr_offset_from_initial_sp d)
        else Epilogue.ProbablyStillInBody Epilogue.AutibspNotFollowedByExpectedTailCall
    end.
Proof. by destruct bytes. Qed.

(** The loop stops, keeping its state, at an instruction that leaves the function. *)
Lemma step_instruction_stops d bs word d' r :
  word = read_u32 bs -> Epilogue.step_instruction d word = (r, d') ->
  r = Epilogue.FoundReturn \/ r = Epilogue.FoundTailCall \/
    (r = Epilogue.CouldBeAuthTailCall /\ Epilogue.is_auth_tail_call (drop 4 bs) = true) ->
  d' = d /\ leaves_function bs 0.
Proof.
  intros -> Hs Hr. unfold leaves_function. rewrite drop_0. unfold Epilogue.step_instruction in Hs.
  destruct ((_ =? 0xd65f03c0) || _) eqn:E1; [|destruct (_ =? 0xd50323ff) eqn:E2;
    [|destruct (_ =? 5) eqn:E3]].
  - simplify_eq. split; [done|]. bool_to_prop. destruct E1 as [E1|E1]; bool_to_prop; auto.
  - simplify_eq. bool_to_prop. destruct Hr as [[=]|[[=]|[_ Hr]]]. split; [done|].
    right; right; right; right. exists 0%nat. split_and!; [lia|lia|done|done].
  - bool_to_prop. destruct (negb _); injection Hs as <- <-; [by auto|]. by destruct Hr as [[=]|[[=]|[[=] _]]].
  - clear E1 E2 E3. destruct (bits _ 22 _ =? _); [destruct (_ =? 0); [|destruct (negb _)]|destruct (_ =? _); [destruct (_ || _)|]];
      apply (f_equal fst) in Hs; cbn [fst] in Hs; subst r; by destruct Hr as [[=]|[[=]|[[=] _]]].
Qed.

(** The loop finds a sequence of instructions and then one that leaves the function. *)
Definition epilogue_found d bytes s f l : Prop :=
  exists ws instrs rest,
    chunks_exact bytes = ws ++ rest /\ Forall2 encodes ws instrs /\ Forall is_epilogue_instr instrs /\
    leaves_function bytes (4 * length ws) /\
    forall rs m0 m m' n, 0 <= n -> n + Z.of_nat (length instrs) <= 127 -> m_sp m0 mod 16 = 0 ->
      agrees rs m0 m n d -> run_instrs rs instrs m = Some m' -> agrees rs m0 m' 127 (Epilogue.MkDetector s f l).

Lemma epilogue_found_stop d bytes s f l :
  Epilogue.MkDetector s f l = d -> leaves_function bytes 0 -> epilogue_found d bytes s f l.
Proof.
  intros <- Hleave. eexists [], [], _. split_and!; [done|constructor|constructor|done|].
  intros rs m0 m m' n Hn Hn' _ Ha [= <-]. eapply agrees_mono; [|done]. cbn in Hn'. lia.
Qed.

Lemma epilogue_found_step d d' b0 b1 b2 b3 bytes s f l :
  u32 (from_le_bytes [b0; b1; b2; b3]) ->
  Epilogue.step_instruction d (from_le_bytes [b0; b1; b2; b3]) = (Epilogue.NeedMore, d') ->
  epilogue_found d' bytes s f l -> epilogue_found d (b0 :: b1 :: b2 :: b3 :: bytes) s f l.
Proof.
  intros Hu Hs (ws & instrs & rest & Hc & He & Hi & Hl & Hrun).
  apply step_instruction_spec in Hs as (i & Hi1 & Hi2 & Hstep); [|done].
  exists (from_le_bytes [b0; b1; b2; b3] :: ws), (i :: instrs), rest.
  split_and!; [cbn [chunks_exact app]; by rewrite Hc|by constructor|by constructor| |].
  - cbn [length]. rewrite Nat.mul_succ_r, Nat.add_comm. by apply leaves_function_drop.
  - intros rs m0 m m' n Hn Hn' H16 Ha Hr. cbn [run_instrs length] in *.
    destruct (run_instr rs i m) as [m1|] eqn:E1; [|done]. cbn in Hr.
    eapply Hrun; [..|exact Hr]; [..|eapply (Hstep rs m0 m m1 n)]; done || lia.
Qed.

Lemma analyze_loop_spec bytes : forall d b0 b1 b2 b3 s f l,
  Forall u8 (b0 :: b1 :: b2 :: b3 :: bytes) ->
  Epilogue.analyze_loop d (from_le_bytes [b0; b1; b2; b3]) bytes = Epilogue.FoundReturnOrTailCall s f l ->
  epilogue_found d (b0 :: b1 :: b2 :: b3 :: bytes) s f l.
Proof.
  induction bytes as [bytes IH] using (induction_ltof1 _ length). unfold ltof in IH.
  intros d b0 b1 b2 b3 s f l Hb Hl. rewrite analyze_loop_unfold in Hl.
  assert (Hstop : forall r d', Epilogue.step_instruction d (from_le_bytes [b0; b1; b2; b3]) = (r, d') ->
    r = Epilogue.FoundReturn \/ r = Epilogue.FoundTailCall \/
      (r = Epilogue.CouldBeAuthTailCall /\ Epilogue.is_auth_tail_call bytes = true) ->
    Epilogue.FoundReturnOrTailCall (Epilogue.sp_offset d')
      (Epilogue.fp_offset_from_initial_sp d') (Epilogue.lr_offset_from_initial_sp d') =
      Epilogue.FoundReturnOrTailCall s f l -> epilogue_found d (b0 :: b1 :: b2 :: b3 :: bytes) s f l).
  { intros r d' Hs Hr Hd. destruct (step_instruction_stops d (b0 :: b1 :: b2 :: b3 :: bytes) _ d' r eq_refl Hs Hr) as [-> Hleave].
    apply epilogue_found_stop; [|done]. injection Hd as <- <- <-. by destruct d. }
  destruct (Epilogue.step_instruction _ _) as [[|uit| | |] d'] eqn:Hs; [|done| | |].
  - destruct bytes as [|c0 [|c1 [|c2 [|c3 bytes]]]]; [done..|].
    eapply epilogue_found_step; [exact (read_u32_range _ Hb)|exact Hs|].
    apply IH; [cbn; lia|exact (Forall_drop _ 4 _ Hb)|done].
  - eapply Hstop; eauto.
  - eapply Hstop; eauto.
  - destruct (Epilogue.is_auth_tail_call bytes); [|done]. eapply Hstop; eauto 6.
Qed.

(** ** The rule of an epilogue *)

Lemma auth_tail_call_leaves text_bytes pos k :
  (k <= 20)%nat -> Epilogue.auth_tail_call_at text_bytes pos k = true -> leaves_function text_bytes pos.
Proof.
  unfold Epilogue.auth_tail_call_at. intros Hk Ha. bool_to_prop. apply bool_decide_eq_true_1 in H0.
  right; right; right; right. exists k. split_and!; [done|done| |].
  - unfold read_u32. by rewrite H0.
  - by rewrite <- drop_drop.
Qed.

(** An instruction that may be a tail call is a branch, or part of an authenticated
    tail call that begins at most five instructions earlier. *)
Lemma analyze_instruction_tail_call word :
  match Epilogue.analyze_instruction word with
  | Epilogue.CouldBeTailCall k => (k <= 20)%nat /\ (Z.shiftr word 26 = 5 \/ Z.land word 0xfffffc1f = 0xd61f0000)
  | Epilogue.CouldBePartOfAuthTailCall k => (k <= 20)%nat
  | _ => True
  end.
Proof.
  unfold Epilogue.analyze_instruction.
  destruct (_ || _); [done|]. do 4 (destruct (_ =? _); [lia|]).
  destruct ((_ =? 5) || _) eqn:E.
  2: { clear E. destruct (Epilogue.is_mov_x16 word); [lia|]. destruct (Epilogue.is_braa_x16 word); [lia|].
    destruct (bits word 22 _ =? _); [|destruct (bits word 23 _ =? _); [destruct (negb _ || _)|]; done].
    destruct (bits word 23 _ =? _); [done|]. by destruct (negb _). }
  split; [lia|]. bool_to_prop. destruct E; bool_to_prop; auto.
Qed.

(** What the detector says of a slice. *)
Lemma analyze_slice_spec text_bytes pc_offset s f l :
  Forall u8 text_bytes ->
  Epilogue.analyze_slice Epilogue.new_detector text_bytes pc_offset = Ok (Epilogue.FoundReturnOrTailCall s f l) ->
  exists ws instrs rest,
    chunks_exact (drop pc_offset text_bytes) = ws ++ rest /\ Forall2 encodes ws instrs /\
    Forall is_epilogue_instr instrs /\ leaves_function text_bytes (pc_offset + 4 * length ws) /\
    forall rs m m', Z.of_nat (length instrs) <= 127 -> m_sp m mod 16 = 0 -> run_instrs rs instrs m = Some m' ->
      agrees rs m m' 127 (Epilogue.MkDetector s f l).
Proof.
  intros Hb Ha. unfold Epilogue.analyze_slice, split_at in Ha.
  destruct (pc_offset <=? length text_bytes)%nat; [|discriminate Ha]. cbn [mbind result_bind] in Ha.
  pose proof (analyze_instruction_tail_call (read_u32 (drop pc_offset text_bytes))) as Ht.
  assert (Hstop : leaves_function text_bytes pc_offset -> s = 0 /\ f = None /\ l = None ->
    exists ws instrs rest,
      chunks_exact (drop pc_offset text_bytes) = ws ++ rest /\ Forall2 encodes ws instrs /\
      Forall is_epilogue_instr instrs /\ leaves_function text_bytes (pc_offset + 4 * length ws) /\
      forall rs m m', Z.of_nat (length instrs) <= 127 -> m_sp m mod 16 = 0 -> run_instrs rs instrs m = Some m' ->
        agrees rs m m' 127 (Epilogue.MkDetector s f l)).
  { intros Hl (-> & -> & ->). eexists [], [], _. split_and!; [done|constructor|constructor|by rewrite Nat.add_0_r|].
    intros rs m m' _ _ [= <-]. apply (agrees_mono _ _ _ 0); [lia|apply agrees_new]. }
  destruct (drop pc_offset text_bytes) as [|b0 [|b1 [|b2 [|b3 bytes]]]] eqn:Hd; [discriminate Ha..|].
  cbn [length Nat.ltb Nat.leb drop take] in Ha. unfold mret, result_ret in Ha. injection Ha as Ha.
  destruct (Epilogue.analyze_instruction _) as [|k|k|] eqn:Hi in Ha; rewrite ?Hi in Ht; [done| | |].
  - destruct Ht as [Hk Hbr]. apply Hstop.
    + unfold leaves_function. rewrite Hd. destruct Hbr; auto.
    + repeat case_match; by simplify_eq.
  - destruct (Epilogue.auth_tail_call_at text_bytes pc_offset k) eqn:Hk; [|done].
    apply Hstop; [by eapply auth_tail_call_leaves|by simplify_eq].
  - rewrite drop_0 in Ha. change (read_u32 _) with (from_le_bytes [b0; b1; b2; b3]) in Ha.
    apply analyze_loop_spec in Ha as (ws & instrs & rest & Hc & He & Hei & Hl & Hrun);
      [|rewrite <- Hd; by apply Forall_drop].
    exists ws, instrs, rest. split_and!; [done..| |].
    + rewrite <- Hd in Hl. by apply leaves_function_drop.
    + intros rs m m' Hlen H16 Hr. eapply (Hrun rs m m m' 0); [lia|lia|done|apply agrees_new|done].
Qed.

(** Reading a restored register where the rule says. *)
Lemma read_at_restored {S} rs base loc v by_8 (st : S) :
  u64 base -> (forall a v, rs a = Some v -> u64 a) -> loc mod 8 = 0 -> i32 loc -> rs (base + loc) = Some v ->
  try_s 16 (Z.quot loc 8) = Some by_8 -> i16 by_8 /\ read_at rs base by_8 st = (Ok v, st).
Proof.
  intros Hbase Hrs H8 Hi Hv Ht. apply try_s_Some in Ht as [-> Hr]. split; [done|].
  assert (Hq : Z.quot loc 8 * 8 = loc).
  { assert (loc = loc / 8 * 8) as -> by (Z.div_mod_to_equations; lia). by rewrite Z.quot_mul by lia. }
  unfold read_at. rewrite Hq, st_bind_spec, no_overflow_spec.
  assert (checked_add_signed base loc = Some (base + loc)) as ->; [|by rewrite read_word_spec, Hv].
  apply checked_add_signed_u64_Some; [done|unfold in_s in *; lia|]. split; [done|]. by eapply Hrs.
Qed.

(** Executing the rule of what an epilogue restores. *)
Lemma restore_rule_exec rs regs m' d rule :
  agrees rs (MkMachine (sp regs) (fp regs) (lr regs)) m' 127 d ->
  Epilogue.restore_rule (Epilogue.sp_offset d) (Epilogue.fp_offset_from_initial_sp d)
    (Epilogue.lr_offset_from_initial_sp d) = Some rule ->
  (forall a v, rs a = Some v -> u64 a) -> u64 (sp regs) -> sp regs mod 16 = 0 -> m_sp m' mod 16 = 0 -> m_sp m' < 2 ^ 64 ->
  new_lr_sp_fp rule true rs regs = (Ok (Some (m_lr m', m_sp m', m_fp m')), regs).
Proof.
  intros [Hs Hb Hf Hl] Hr Hrs Hsp H16 H16' Hmax. destruct d as [off fo lo]. cbn in *.
  unfold Epilogue.restore_rule in Hr. destruct (try_u 16 (Z.quot off 16)) as [k|] eqn:Ek; [|done]. cbn in Hr.
  apply try_u_Some in Ek as [Hk Hk16].
  assert (Hoff : k * 16 = off).
  { assert (Hq : off = off / 16 * 16) by (rewrite Hs in H16'; Z.div_mod_to_equations; lia).
    rewrite Hk, Hq, Z.quot_mul by lia. done. }
  assert (Hadd : checked_add 64 (sp regs) (k * 16) = Some (m_sp m')).
  { apply checked_add_Some. unfold in_u in *. lia. }
  destruct fo as [fo|], lo as [lo|]; [|done| |].
  - destruct (try_s 16 (Z.quot fo 8)) as [y|] eqn:Ey; [|done]. cbn in Hr.
    destruct (try_s 16 (Z.quot lo 8)) as [z|] eqn:Ez; [|done]. cbn in Hr. simplify_eq.
    destruct Hf as (Hf8 & Hfi & Hfv), Hl as (Hl8 & Hli & Hlv). unfold new_lr_sp_fp. st_bind.
    rewrite no_overflow_spec, Hadd. st_bind.
    rewrite (proj2 (read_at_restored rs (sp regs) lo (m_lr m') z regs Hsp Hrs Hl8 Hli Hlv Ez)). st_bind.
    by rewrite (proj2 (read_at_restored rs (sp regs) fo (m_fp m') y regs Hsp Hrs Hf8 Hfi Hfv Ey)).
  - destruct (try_s 16 (Z.quot lo 8)) as [z|] eqn:Ez; [|done]. cbn in Hr. simplify_eq.
    destruct Hl as (Hl8 & Hli & Hlv). cbn in Hf. unfold new_lr_sp_fp. st_bind. rewrite no_overflow_spec, Hadd. st_bind.
    rewrite (proj2 (read_at_restored rs (sp regs) lo (m_lr m') z regs Hsp Hrs Hl8 Hli Hlv Ez)). by rewrite Hf.
  - injection Hr as <-. cbn in Hf, Hl. destruct (k =? 0) eqn:E0; bool_to_prop; unfold new_lr_sp_fp; st_bind.
    + replace (m_sp m') with (sp regs) by lia. by rewrite Hf, Hl.
    + cbn [negb]. st_bind. rewrite no_overflow_spec, Hadd. st_bind. by rewrite Hf, Hl.
Qed.

(** What executing a rule makes of the recovered registers. *)
Definition recovered_regs (mask : PtrAuthMask) (m : machine) : UnwindRegsAarch64 :=
  MkRegsAarch64 mask (strip_ptr_auth mask (m_lr m)) (m_sp m) (m_fp m).

Lemma exec_first_frame rs regs m rule :
  new_lr_sp_fp rule true rs regs = (Ok (Some (m_lr m, m_sp m, m_fp m)), regs) ->
  strip_ptr_auth (lr_mask regs) (m_lr m) <> 0 ->
  exec_aarch64 rule true rs regs =
    (Ok (Some (strip_ptr_auth (lr_mask regs) (m_lr m))), recovered_regs (lr_mask regs) m).
Proof.
  intros Hn Hra. unfold exec_aarch64. rewrite st_bind_spec, st_get_spec, st_bind_spec, Hn.
  rewrite (proj2 (Z.eqb_neq _ 0) Hra). cbn [negb andb]. st_bind. done.
Qed.

(** C35: The rule of a detected epilogue unwinds like running the epilogue. When the
    analysis finds one, the words at the program counter are pair loads from [sp] and
    additions to [sp] up to a return or tail call. Running them, with the stack
    pointer aligned as the processor requires, leaves the stack pointer, frame pointer
    and (stripped) return address that executing the rule in the first frame gives. *)
Theorem epilogue_rule_unwinds_aarch64 text_bytes pc_offset rule
    (Hbytes : Forall u8 text_bytes)
    (Hrule : rule_from_epilogue_analysis text_bytes pc_offset = Ok (Some rule)) :
  exists ws instrs rest,
    chunks_exact (drop pc_offset text_bytes) = ws ++ rest /\ Forall2 encodes ws instrs /\
    Forall is_epilogue_instr instrs /\ leaves_function text_bytes (pc_offset + 4 * length ws) /\
    forall rs regs m',
      (length instrs < 128)%nat -> (forall a v, rs a = Some v -> u64 a) ->
      u64 (sp regs) -> sp regs mod 16 = 0 -> m_sp m' mod 16 = 0 -> m_sp m' < 2 ^ 64 ->
      run_instrs rs instrs (MkMachine (sp regs) (fp regs) (lr regs)) = Some m' ->
      strip_ptr_auth (lr_mask regs) (m_lr m') <> 0 ->
      exec_aarch64 rule true rs regs =
        (Ok (Some (strip_ptr_auth (lr_mask regs) (m_lr m'))), recovered_regs (lr_mask regs) m').
Proof.
  cbn [rule_from_epilogue_analysis InstructionAnalysis_aarch64] in Hrule.
  unfold Epilogue.unwind_rule_from_detected_epilogue in Hrule.
  apply result_bind_Ok in Hrule as (r & Hs & Hr). destruct r as [| |s f l]; [done..|]. injection Hr as Hr.
  apply analyze_slice_spec in Hs as (ws & instrs & rest & Hc & He & Hi & Hl & Hrun); [|done].
  exists ws, instrs, rest. split_and!; [done..|].
  intros rs regs m' Hlen Hrs Hsp H16 H16' Hmax Hm Hra.
  apply exec_first_frame; [|done].
  eapply (restore_rule_exec _ _ _ (Epilogue.MkDetector s f l)); [|exact Hr|done..]. apply Hrun; [lia|done|done].
Qed.

(** [ldp fp, lr, [sp], #16; add sp, sp, #0x20; ret] *)
Definition example_epilogue : list Z := [0xfd; 0x7b; 0xc1; 0xa8; 0xff; 0x83; 0x00; 0x91; 0xc0; 0x03; 0x5f; 0xd6].

Lemma epilogue_rule_unwinds_aarch64_witness :
  rule_from_epilogue_analysis example_epilogue 0 = Ok (Some (OffsetSpAndRestoreFpAndLr 3 0 1)) /\
  exists ws instrs rest, chunks_exact example_epilogue = ws ++ rest /\ Forall2 encodes ws instrs /\
    leaves_function example_epilogue (4 * length ws).
Proof.
  split; [reflexivity|].
  destruct (epilogue_rule_unwinds_aarch64 example_epilogue 0 (OffsetSpAndRestoreFpAndLr 3 0 1))
    as (ws & instrs & rest & Hc & He & _ & Hl & _).
  - repeat constructor; unfold in_u; lia.
  - reflexivity.
  - by exists ws, instrs, rest.
Defined.

(** ** The rule of a prologue *)

(** The instructions a prologue is made of. *)
Definition is_prologue_instr (i : instr) : Prop :=
  match i with Stp _ _ _ _ | SubSp _ _ | Pacibsp => True | _ => False end.

Lemma sp_change_bound w i : encodes w i -> - 2 ^ 24 <= sp_change i <= 2 ^ 24.
Proof. intros [Hok _]. destruct i as [[]|? []|[]|? []|]; cbn in *; lia. Qed.

(** A step of the detector takes back an instruction. *)
Lemma reverse_step_spec off word off' :
  u32 word -> Prologue.reverse_step_instruction off word = (Prologue.ValidPrologueInstruction, off') ->
  exists i, encodes word i /\ is_prologue_instr i /\ (i32 off -> off' = as_s 32 (off - sp_change i)).
Proof.
  intros Hu Hs. unfold Prologue.reverse_step_instruction in Hs.
  assert (H0 : i32 off -> off = as_s 32 (off - 0)) by (intros Hi; by rewrite Z.sub_0_r, as_s_small by (done || lia)).
  destruct (word =? 0xd503237f) eqn:E0.
  { bool_to_prop. subst. injection Hs as <-. exists Pacibsp. split_and!; [split; [done|by left]|done|done]. }
  destruct (bits word 22 0x2f9 =? 0x2a0) eqn:E1.
  - destruct (bits word 23 0x3 =? 0) eqn:E2; [done|].
    destruct (negb (reg_field word 5 =? 31)) eqn:E3; [done|]. bool_to_prop.
    destruct (stp_encodes word) as (mode & Hm & Henc); [done..|].
    eexists. split; [exact Henc|]. split; [done|]. intros Hi. rewrite <- Hm, imm7_field in Hs.
    destruct mode; cbn [mode_bits Z.eqb orb sp_change write_back] in *; injection Hs as <-; auto.
  - destruct (bits word 23 0x1ff =? 0x1a2) eqn:E2; [|done].
    destruct (negb (reg_field word 0 =? 31) || negb (reg_field word 5 =? 31)) eqn:E3; [done|]. bool_to_prop.
    eexists. split; [by apply (imm_encodes word 0xd1000000 SubSp)|]. split; [done|]. intros _.
    injection Hs as <-. destruct (imm12_spec word) as [-> Hr]. cbn [sp_change]. f_equal. lia.
Qed.

(** How far running prologue instructions moves the stack pointer. *)
Definition sp_changes (instrs : list instr) : Z := foldr (fun i acc => sp_change i + acc) 0 instrs.

Lemma sp_changes_app l1 l2 : sp_changes (l1 ++ l2) = sp_changes l1 + sp_changes l2.
Proof. unfold sp_changes. induction l1 as [|i l1 IH]; cbn; [done|]. rewrite IH. lia. Qed.

(** The backward walk takes back the instructions of a suffix. *)
Lemma reverse_steps_spec n words off :
  Forall u32 words -> 0 <= n -> - n * 2 ^ 24 <= off <= n * 2 ^ 24 ->
  exists before ws instrs, reverse words = before ++ ws /\ Forall2 encodes ws instrs /\ Forall is_prologue_instr instrs /\
    (n + Z.of_nat (length instrs) < 128 -> Prologue.reverse_steps off words = off - sp_changes instrs).
Proof.
  intros Hw. revert n off. induction Hw as [|w words Hw _ IH]; intros n off Hn Hoff.
  { exists [], [], []. split_and!; [done|constructor|constructor|]. intros _. cbn. lia. }
  cbn [Prologue.reverse_steps]. destruct (Prologue.reverse_step_instruction off w) as [[t|] off'] eqn:Hs.
  - assert (off' = off) as ->.
    { clear -Hs. unfold Prologue.reverse_step_instruction in Hs. destruct (_ =? _); [done|].
      destruct (_ =? 0x2a0); [destruct (_ =? 0); [by injection Hs|destruct (negb _); [by injection Hs|by destruct (_ || _)]]|].
      destruct (_ =? 0x1a2); [destruct (_ || _); [by injection Hs|done]|by injection Hs]. }
    exists (reverse (w :: words)), [], []. split_and!; [by rewrite app_nil_r|constructor|constructor|].
    intros _. cbn. lia.
  - apply reverse_step_spec in Hs as (i & He & Hi & Hoff'); [|done]. pose proof (sp_change_bound _ _ He) as Hb.
    destruct (decide (n < 127)) as [Hlt|Hge].
    + rewrite Hoff', as_s_small by (try lia; unfold in_s; lia).
      destruct (IH (n + 1) (off - sp_change i)) as (before & ws & instrs & Hr & Hes & His & Hsum); [lia|lia|].
      exists before, (ws ++ [w]), (instrs ++ [i]). rewrite reverse_cons, Hr, app_assoc. split_and!; [done| | |].
      * apply Forall2_app; [done|by constructor; [done|constructor]].
      * apply Forall_app; split; [done|by constructor; [done|constructor]].
      * rewrite length_app. cbn [length]. intros Hn'. rewrite Hsum by lia. rewrite sp_changes_app. cbn. lia.
    + destruct (IH 0 0) as (before & ws & instrs & Hr & Hes & His & _); [lia|lia|].
      exists before, (ws ++ [w]), (instrs ++ [i]). rewrite reverse_cons, Hr, app_assoc. split_and!; [done| | |].
      * apply Forall2_app; [done|by constructor; [done|constructor]].
      * apply Forall_app; split; [done|by constructor; [done|constructor]].
      * rewrite length_app. cbn [length]. lia.
Qed.

Lemma run_prologue rs instrs m m' :
  Forall is_prologue_instr instrs -> run_instrs rs instrs m = Some m' ->
  m_sp m' = m_sp m + sp_changes instrs /\ m_fp m' = m_fp m /\ m_lr m' = m_lr m.
Proof.
  intros Hi. revert m. induction Hi as [|i instrs Hi _ IH]; intros m Hr; cbn [run_instrs] in Hr.
  { simplify_eq. split_and!; [cbn; lia|done|done]. }
  destruct (run_instr rs i m) as [m1|] eqn:E1; [|done]. cbn in Hr. apply IH in Hr as (-> & -> & ->).
  change (sp_changes (i :: instrs)) with (sp_change i + sp_changes instrs).
  destruct i; cbn in *; try done; [destruct (m_sp m mod 16 =? 0); [|done]|..]; simplify_eq; cbn; split_and!; auto; lia.
Qed.

Lemma sp_changes_bound ws instrs :
  Forall2 encodes ws instrs -> - Z.of_nat (length instrs) * 2 ^ 24 <= sp_changes instrs <= Z.of_nat (length instrs) * 2 ^ 24.
Proof.
  induction 1 as [|w i ws instrs He _ IH]; [cbn; lia|]. apply sp_change_bound in He.
  change (sp_changes (i :: instrs)) with (sp_change i + sp_changes instrs). cbn [length]. lia.
Qed.

Lemma chunks_exact_range bytes : Forall u8 bytes -> Forall u32 (chunks_exact bytes).
Proof.
  induction bytes as [bytes IH] using (induction_ltof1 _ length). unfold ltof in IH. intros Hb.
  destruct bytes as [|b0 [|b1 [|b2 [|b3 bytes]]]]; [constructor..|]. cbn [chunks_exact]. constructor.
  - exact (read_u32_range _ Hb).
  - apply IH; [cbn; lia|exact (Forall_drop _ 4 _ Hb)].
Qed.

(** The rule of a detected prologue takes it back. When the analysis finds one, the
    last words before the program counter are pair stores to [sp] and subtractions
    from [sp]. Wherever running them has led to the current registers, executing the
    rule in the first frame gives the stack pointer before them, and the frame pointer
    and return address, which they keep. *)
Theorem prologue_rule_unwinds_aarch64 text_bytes pc_offset rule
    (Hbytes : Forall u8 text_bytes)
    (Hrule : rule_from_prologue_analysis text_bytes pc_offset = Ok (Some rule)) :
  exists before ws instrs,
    chunks_exact (take pc_offset text_bytes) = before ++ ws /\ Forall2 encodes ws instrs /\
    Forall is_prologue_instr instrs /\
    forall rs regs m,
      (length instrs < 128)%nat -> u64 (sp regs) -> sp regs mod 16 = 0 -> m_sp m mod 16 = 0 -> m_sp m < 2 ^ 64 ->
      run_instrs rs instrs m = Some (MkMachine (sp regs) (fp regs) (lr regs)) ->
      strip_ptr_auth (lr_mask regs) (m_lr m) <> 0 ->
      exec_aarch64 rule true rs regs =
        (Ok (Some (strip_ptr_auth (lr_mask regs) (m_lr m))), recovered_regs (lr_mask regs) m).
Proof.
  cbn [rule_from_prologue_analysis InstructionAnalysis_aarch64] in Hrule. unfold split_at in Hrule.
  destruct (pc_offset <=? length text_bytes)%nat; [|done]. injection Hrule as Hrule.
  unfold Prologue.unwind_rule_from_detected_prologue, Prologue.analyze_slices in Hrule.
  destruct (_ <? 4)%nat; [done|]. destruct (bool_decide _); [done|].
  destruct (reverse_steps_spec 0 (reverse (chunks_exact (take pc_offset text_bytes))) 0) as (before & ws & instrs & Hc & He & Hi & Hsum);
    [by apply Forall_reverse, chunks_exact_range, Forall_take|lia..|].
  rewrite reverse_involutive in Hc. exists before, ws, instrs. split_and!; [done..|].
  intros rs regs m Hlen Hu H16 Hm16 Hmax Hrun Hra. rewrite Hsum in Hrule by lia.
  destruct (_ && _); [done|]. destruct (try_u 16 _) as [k|] eqn:Ek; [|done]. injection Hrule as <-.
  apply run_prologue in Hrun as (Hsp & Hfp & Hlr); [|done]. cbn in Hsp, Hfp, Hlr.
  apply exec_first_frame; [|done].
  assert (Hr : Epilogue.restore_rule (0 - sp_changes instrs) None None = Some (if k =? 0 then NoOp else OffsetSp k)).
  { unfold Epilogue.restore_rule. by rewrite Ek. }
  apply (restore_rule_exec (fun _ => None) regs m (Epilogue.MkDetector (0 - sp_changes instrs) None None)) in Hr; [|..|done|done].
  all: try done.
  - rewrite <- Hr. by destruct (k =? 0).
  - apply sp_changes_bound in He. split; cbn; [lia|lia|done..].
Qed.

(** [stp x20, x19, [sp, #-32]!; stp fp, lr, [sp, #16]; add fp, sp, #16] *)
Definition example_prologue : list Z := [0xf4; 0x4f; 0xbe; 0xa9; 0xfd; 0x7b; 0x01; 0xa9; 0xfd; 0x43; 0x00; 0x91].

Lemma prologue_rule_unwinds_aarch64_witness :
  rule_from_prologue_analysis example_prologue 8 = Ok (Some (OffsetSp 2)) /\
  exists before ws instrs, chunks_exact (take 8 example_prologue) = before ++ ws /\ Forall2 encodes ws instrs.
Proof.
  split; [reflexivity|].
  destruct (prologue_rule_unwinds_aarch64 example_prologue 8 (OffsetSp 2)) as (before & ws & instrs & Hc & He & _).
  - repeat constructor; unfold in_u; lia.
  - reflexivity.
  - by exists before, ws, instrs.
Defined.
