(* ===== verification/Aarch64Compact.v ===== *)
(** * Compact unwind info on aarch64

    Models [vendor/framehop/src/aarch64/macho.rs]: the rule of a compact unwind
    opcode, and the rule inside the stub helper section. *)
From S2P Require Import Prelude UnwindRule Aarch64Rules Compact Aarch64Analysis.

(** A parsed opcode. *)
Inductive OpcodeArm64 : Type :=
  | Null
  | Frameless (stack_size_in_bytes : Z)
  | Dwarf (eh_frame_fde : Z)
  | FrameBased
  | UnrecognizedKind (kind : Z).

#[export] Instance OpcodeArm64_eq_dec : EqDecision OpcodeArm64.
Proof. solve_decision. Defined.

Section compact.
  Context `{MachoUnwindInfo}.
  (** [OpcodeArm64::parse]. *)
  Context (parse : Z -> OpcodeArm64).

(** The [match opcode] of a function body. *)
Definition body_rule (opcode : OpcodeArm64) (is_first_frame : bool) : cui_m (CuiUnwindResult UnwindRuleAarch64) :=
  match opcode with
  | Null => Err (Fail FunctionHasNoInfo)
  | Frameless stack_size_in_bytes =>
      if is_first_frame then
        if stack_size_in_bytes =? 0 then mret (CuiExecRule NoOp)
        else mret (CuiExecRule (OffsetSp (stack_size_in_bytes / 16)))
      else Err (Fail CallerCannotBeFrameless)
  | Dwarf eh_frame_fde => mret (NeedDwarf eh_frame_fde)
  | FrameBased => mret (CuiExecRule UseFramePointer)
  | UnrecognizedKind kind => Err (Fail (BadOpcodeKind kind))
  end.

(** The rule of a first frame outside its function's body, if it has one. *)
Definition first_frame_rule (opcode : OpcodeArm64) (address_offset_within_function : nat)
    (function_bytes : option (list Z)) : cui_m (option UnwindRuleAarch64) :=
  if bool_decide (opcode = Null) then mret (Some NoOp)
  else
    match function_bytes with
    | Some function_bytes =>
        may_panic (rule_from_instruction_analysis function_bytes address_offset_within_function)
    | None => mret None
    end.

Definition cui_unwind_frame_aarch64 (function : Function) (is_first_frame : bool)
    (address_offset_within_function : nat) (function_bytes : option (list Z)) :
    cui_m (CuiUnwindResult UnwindRuleAarch64) :=
  let opcode := parse (opcode function) in
  early ← (if is_first_frame then first_frame_rule opcode address_offset_within_function function_bytes
           else mret None);
  match early with
  | Some rule => mret (CuiExecRule rule)
  | None => body_rule opcode is_first_frame
  end.

Definition rule_for_stub_helper_aarch64 (offset : Z) : cui_m (CuiUnwindResult UnwindRuleAarch64) :=
  mret (CuiExecRule (if offset <? 0xc then NoOp else if offset <? 0x18 then OffsetSp 1 else NoOp)).

Definition CompactUnwindInfoUnwinding_aarch64 : CompactUnwindInfoUnwinding UnwindRuleAarch64 := {|
  cui_unwind_frame := cui_unwind_frame_aarch64;
  rule_for_stub_helper := rule_for_stub_helper_aarch64;
|}.

#[export] Instance CompactLaws_aarch64 :
  CompactLaws UnwindRuleAarch64 (H0 := CompactUnwindInfoUnwinding_aarch64).
Proof.
  split; [|done]. intros f first off bytes Hb. cbn. unfold cui_unwind_frame_aarch64.
  assert (Hbody : forall op, body_rule op first <> Err Panic).
  { intros []; cbn; try done. destruct first; [|done]. by destruct (_ =? 0). }
  destruct first; [|apply Hbody]. unfold first_frame_rule.
  case_bool_decide; [done|]. destruct bytes as [b|]; [|apply Hbody].
  destruct (analysis_returns b off (Hb b eq_refl)) as [[r|] ->]; cbn; [done|apply Hbody].
Qed.

(** ** The rules are in range *)

(** [stack_size_in_bytes] is a [u16] in the parsed opcode. *)
Definition parse_u16 : Prop := forall n size, parse n = Frameless size -> u16 size.

Lemma compact_unwind_frame_wf self rel first rule : parse_u16 ->
  compact_unwind_frame (CompactUnwindInfoUnwinding0 := CompactUnwindInfoUnwinding_aarch64) self rel first =
    Ok (CuiExecRule rule) -> rule_wf rule.
Proof.
  intros Hparse. unfold compact_unwind_frame.
  destruct (in_u32_range (stubs_range self) rel); [destruct first; [by intros [= <-]|done]|].
  destruct (in_u32_range (stub_helper_range self) rel).
  { destruct first; [|done]. cbn. unfold rule_for_stub_helper_aarch64. by repeat case_match; intros [= <-]. }
  destruct (function_for_address self rel) as [f|[[]|]]; try done; [|destruct first; [by intros [= <-]|done]].
  unfold unwind_in_function. destruct (first && _); [by intros [= <-]|].
  cbn [cui_unwind_frame CompactUnwindInfoUnwinding_aarch64]. unfold cui_unwind_frame_aarch64.
  set (o := Z.to_nat _). set (op := parse (opcode f)).
  assert (Hbody : body_rule op first = Ok (CuiExecRule rule) -> rule_wf rule).
  { unfold op. destruct (parse (opcode f)) as [|size|fde| |kind] eqn:Ep; cbn; try done; [|by intros [= <-]].
    destruct first; [|done]. destruct (size =? 0); intros [= <-]; [done|]. apply Hparse in Ep. unfold rule_wf, in_u in *.
    Z.div_mod_to_equations. lia. }
  destruct first; [|done]. unfold first_frame_rule, may_panic. case_bool_decide; [by intros [= <-]|].
  destruct (function_bytes self f) as [b|]; [|done].
  destruct (rule_from_instruction_analysis b o) as [[r|]|] eqn:E; cbn; [|done|done].
  intros [= <-]. by apply analysis_rule_wf in E.
Qed.
End compact.
