(* ===== verification/Pe.v ===== *)
(** * PE unwinding

    Models [vendor/framehop/src/pe.rs], [x86_64/pe.rs] and [aarch64/pe.rs]:
    unwinding with the function table of a Windows image, through a cached rule
    where the operations allow it and by performing them otherwise. The tables are
    parsed by the crate pe-unwind-info: its functions are the class [PeUnwindInfo]. *)
From S2P Require Import Prelude UnwindRule Sections X86Regs X86Rules.

Inductive PeUnwinderError : Type :=
  | MissingUnwindInfoData (rva : Z)
  | MissingInstructionData (rva : Z)
  | MissingStackData (addr : option Z)
  | UnwindInfoParseError
  | Aarch64Unsupported.

(** ** Sections *)

Section sections.
  Context {D : Type} (bytes_of : D -> list Z).

Record PeSections : Type := MkPeSections {
  pdata : D;
  rdata : option (DataAtRvaRange D);
  xdata : option (DataAtRvaRange D);
  text : option (DataAtRvaRange D);
}.

(** The inner [option] is the panic of a slice that starts beyond its end. *)
Definition memory_at_rva (m : DataAtRvaRange D) (address : Z) : option (option (list Z)) :=
  if range_contains (rva_range m) address then
    let offset := Z.to_nat (wrapping_sub 32 address (r_start (rva_range m))) in
    Some (if (offset <=? length (bytes_of (data m)))%nat then Some (drop offset (bytes_of (data m))) else None)
  else None.

(** The bytes found, a panic, or the error. *)
Definition found_or (e : PeUnwinderError) (m : option (option (list Z))) : result (fault PeUnwinderError) (list Z) :=
  match m with
  | Some (Some bytes) => Ok bytes
  | Some None => Err Panic
  | None => Err (Fail e)
  end.

Definition unwind_info_memory_at_rva (self : PeSections) (rva : Z) : result (fault PeUnwinderError) (list Z) :=
  found_or (MissingUnwindInfoData rva)
    match rdata self ≫= fun m => memory_at_rva m rva with
    | Some found => Some found
    | None => xdata self ≫= fun m => memory_at_rva m rva
    end.

Definition text_memory_at_rva (self : PeSections) (rva : Z) : result (fault PeUnwinderError) (list Z) :=
  found_or (MissingInstructionData rva) (text self ≫= fun m => memory_at_rva m rva).
End sections.

(** ** What pe-unwind-info provides *)

Inductive Register : Type :=
  | P_RAX | P_RCX | P_RDX | P_RBX | P_RSP | P_RBP | P_RSI | P_RDI
  | P_R8 | P_R9 | P_R10 | P_R11 | P_R12 | P_R13 | P_R14 | P_R15.

Inductive FunctionEpilogInstruction : Type :=
  | AddSP (offset : Z)
  | AddSPFromFP (offset : Z)
  | PopInstruction (reg : Register).

Inductive UnwindOperation : Type :=
  | UnStackAlloc (offset : Z)
  | PopNonVolatile (reg : Register)
  (** The operations the source does not name. *)
  | OtherOperation (code : Z).

Record RuntimeFunction : Type := MkRuntimeFunction {
  begin_address : Z;
  rf_end_address : Z;
  unwind_info_address : Z;
}.

(** The trait [UnwindState], for a state [S]; writes to xmm registers are ignored. *)
Record UnwindState (S : Type) : Type := MkUnwindState {
  us_read_register : Register -> S -> Z;
  us_read_stack : Z -> option Z;
  us_write_register : Register -> Z -> S -> S;
}.
Arguments MkUnwindState {S}.

Class PeUnwindInfo : Type := {
  PeInfo : Type;
  entries_lookup : list Z -> Z -> option RuntimeFunction;
  pe_info_parse : list Z -> option PeInfo;
  frame_register : PeInfo -> option Register;
  (** The address of the chained unwind info, where the trailer has one. *)
  chained_info_address : PeInfo -> option Z;
  (** The operations with their offsets in the prolog. *)
  unwind_operations : PeInfo -> list (Z * UnwindOperation);
  parse_sequence : list Z -> option Register -> option (list FunctionEpilogInstruction);
  (** [None]: the stack could not be read; [Some (Some ra)]: the return address. *)
  resolve_operation : forall S, PeInfo -> UnwindOperation -> UnwindState S -> S -> option (option Z) * S;
}.

Definition convert_pe_register (r : Register) : Reg :=
  match r with
  | P_RAX => RAX | P_RCX => RCX | P_RDX => RDX | P_RBX => RBX
  | P_RSP => RSP | P_RBP => RBP | P_RSI => RSI | P_RDI => RDI
  | P_R8 => R8 | P_R9 => R9 | P_R10 => R10 | P_R11 => R11
  | P_R12 => R12 | P_R13 => R13 | P_R14 => R14 | P_R15 => R15
  end.

Definition offset_or_none (offset : Z) : OffsetOrPop :=
  match try_u 16 (offset / 8) with Some v => OffsetBy8 v | None => OOPNone end.

Definition from_epilog_instruction (value : FunctionEpilogInstruction) : OffsetOrPop :=
  match value with
  | AddSP offset => offset_or_none offset
  | PopInstruction reg => Pop (convert_pe_register reg)
  | _ => OOPNone
  end.

Definition from_unwind_operation (value : UnwindOperation) : OffsetOrPop :=
  match value with
  | UnStackAlloc offset => offset_or_none offset
  | PopNonVolatile reg => Pop (convert_pe_register reg)
  | _ => OOPNone
  end.

(** ** Unwinding on x86-64 *)

Abbreviation pe_m := (ST UnwindRegsX86_64 (fault PeUnwinderError)).

Definition pe_read_stack (read_stack : stack_reader) (addr : Z) : pe_m Z :=
  st_lift (ok_or (Fail (MissingStackData (Some addr))) (read_stack addr)).

Definition set_rsp (v : Z) : UnwindRegsX86_64 -> UnwindRegsX86_64 := reg_set RSP v.

(** The [for instruction in epilog_instructions] loop. *)
Fixpoint run_epilog (frame_reg : option Register) (read_stack : stack_reader)
    (instructions : list FunctionEpilogInstruction) : pe_m unit :=
  match instructions with
  | [] => mret tt
  | instruction :: instructions =>
      regs ← st_get;
      let rsp := reg_get regs RSP in
      _ ← match instruction with
          | AddSP offset => st_modify (set_rsp (rsp +64 offset))
          | AddSPFromFP offset =>
              match frame_reg with
              | Some fp => st_modify (set_rsp (reg_get regs (convert_pe_register fp) +64 offset))
              | None => st_throw Panic
              end
          | PopInstruction reg =>
              val ← pe_read_stack read_stack rsp;
              _ ← st_modify (reg_set (convert_pe_register reg) val);
              st_modify (set_rsp (rsp +64 8))
          end;
      run_epilog frame_reg read_stack instructions
  end.

(** Reads the return address at [rsp] and pops it. *)
Definition pop_return_address (read_stack : stack_reader) : pe_m Z :=
  regs ← st_get;
  let rsp := reg_get regs RSP in
  ra ← pe_read_stack read_stack rsp;
  _ ← st_modify (set_rsp (rsp +64 8));
  mret ra.

Section x86_64.
  Context {D : Type} (bytes_of : D -> list Z) `{PeUnwindInfo}.
  (** How many chained infos fit in memory: collecting more aborts the process. *)
  Context (memory_limit : nat).

(** [core::iter::successors(..).collect::<Result<Vec<_>, _>>()]. *)
Fixpoint chained_infos (fuel : nat) (sections : PeSections (D := D)) (info : PeInfo) :
    result (fault PeUnwinderError) (list PeInfo) :=
  match fuel with
  | O => Err Panic
  | S fuel =>
      match chained_info_address info with
      | None => mret [info]
      | Some address =>
          data ← unwind_info_memory_at_rva bytes_of sections address;
          next ← ok_or (Fail UnwindInfoParseError) (pe_info_parse data);
          rest ← chained_infos fuel sections next;
          mret (info :: rest)
      end
  end.

(** [skip_while(|(o, _)| i == 0 && o > offset)]. *)
Fixpoint skip_later (offset : Z) (ops : list (Z * UnwindOperation)) : list (Z * UnwindOperation) :=
  match ops with
  | [] => []
  | (o, op) :: ops' => if offset <? o then skip_later offset ops' else ops
  end.

Definition chained_operations (offset : Z) (infos : list PeInfo) : list UnwindOperation :=
  match infos with
  | [] => []
  | first :: rest =>
      (skip_later offset (unwind_operations first)).*2 ++ concat ((fun i => (unwind_operations i).*2) <$> rest)
  end.

(** The state the crate's operations run on. *)
Definition pe_state (read_stack : stack_reader) : UnwindState UnwindRegsX86_64 :=
  MkUnwindState (fun r regs => reg_get regs (convert_pe_register r)) read_stack
    (fun r v => reg_set (convert_pe_register r) v).

Fixpoint resolve_operations (info : PeInfo) (read_stack : stack_reader) (operations : list UnwindOperation) :
    pe_m (option Z) :=
  match operations with
  | [] => mret None
  | op :: operations => fun regs =>
      match resolve_operation _ info op (pe_state read_stack) regs with
      | (None, regs) => (Err (Fail (MissingStackData None)), regs)
      | (Some (Some ra), regs) => (Ok (Some ra), regs)
      | (Some None, regs) => resolve_operations info read_stack operations regs
      end
  end.

(** The part for a program counter that may be in an epilog: [None] when it is not. *)
Definition unwind_epilog (sections : PeSections (D := D)) (address : Z) (function : RuntimeFunction)
    (info : PeInfo) (read_stack : stack_reader) : pe_m (option (UnwindResult UnwindRuleX86_64)) :=
  let bytes := Z.to_nat (wrapping_sub 32 (rf_end_address function) address) in
  memory ← st_lift (text_memory_at_rva bytes_of sections address);
  instruction ← st_lift (ok_or Panic (get_range memory 0 bytes));
  match parse_sequence instruction (frame_register info) with
  | None => mret None
  | Some epilog_instructions =>
      match for_sequence_of_offset_or_pop (from_epilog_instruction <$> epilog_instructions) with
      | Some rule => mret (Some (ExecRule rule))
      | None =>
          _ ← run_epilog (frame_register info) read_stack epilog_instructions;
          ra ← pop_return_address read_stack;
          mret (Some (Uncacheable ra))
      end
  end.

(** The part for a body, after the function's first unwind info is parsed. *)
Definition unwind_body (sections : PeSections (D := D)) (address : Z) (function : RuntimeFunction)
    (info : PeInfo) (read_stack : stack_reader) : pe_m (UnwindResult UnwindRuleX86_64) :=
  chained_info ← st_lift (chained_infos memory_limit sections info);
  let offset := wrapping_sub 32 address (begin_address function) in
  let operations := chained_operations offset chained_info in
  match for_sequence_of_offset_or_pop (from_unwind_operation <$> operations) with
  | Some rule => mret (ExecRule rule)
  | None =>
      resolved ← resolve_operations info read_stack operations;
      match resolved with
      | Some ra => mret (Uncacheable ra)
      | None =>
          ra ← pop_return_address read_stack;
          mret (Uncacheable ra)
      end
  end.

Definition pe_unwind_frame_x86_64 (sections : PeSections (D := D)) (address : Z) (is_first_frame : bool)
    (read_stack : stack_reader) : pe_m (UnwindResult UnwindRuleX86_64) :=
  match entries_lookup (bytes_of (pdata sections)) address with
  | None => mret (ExecRule JustReturn)
  | Some function =>
      memory ← st_lift (unwind_info_memory_at_rva bytes_of sections (unwind_info_address function));
      unwind_info ← st_lift (ok_or (Fail UnwindInfoParseError) (pe_info_parse memory));
      early ← (if is_first_frame then unwind_epilog sections address function unwind_info read_stack else mret None);
      match early with
      | Some r => mret r
      | None => unwind_body sections address function unwind_info read_stack
      end
  end.
End x86_64.

(** ** Unwinding on aarch64 *)

Definition pe_unwind_frame_aarch64 {D R Regs} (_sections : PeSections (D := D)) (_address : Z)
    (_is_first_frame : bool) (_read_stack : stack_reader) : ST Regs (fault PeUnwinderError) (UnwindResult R) :=
  st_throw (Fail Aarch64Unsupported).

(** The trait [PeUnwinding]. *)
Class PeUnwinding (D R Regs : Type) : Type :=
  pe_unwind_frame : PeSections (D := D) -> Z -> bool -> stack_reader ->
    ST Regs (fault PeUnwinderError) (UnwindResult R).

(** A rule is decided by the sections and the kind of frame, and giving one changes
    no register. *)
Class PeUnwindingLaws (D R Regs : Type) `{PeUnwinding D R Regs} : Prop :=
  pe_rule_fixed : forall sections a first rs1 rs2 regs1 regs2 rule regs',
    pe_unwind_frame sections a first rs1 regs1 = (Ok (ExecRule rule), regs') ->
    pe_unwind_frame sections a first rs2 regs2 = (Ok (ExecRule rule), regs2).

Section laws.
  Context {D : Type} (bytes_of : D -> list Z) `{PeUnwindInfo} (memory_limit : nat).

(** A rule, or [None], out of the epilog part is decided before the stack is read. *)
Lemma unwind_epilog_fixed sections address function info rs1 rs2 regs1 regs2 r regs' :
  unwind_epilog bytes_of sections address function info rs1 regs1 = (Ok r, regs') ->
  (forall ra, r <> Some (Uncacheable ra)) ->
  unwind_epilog bytes_of sections address function info rs2 regs2 = (Ok r, regs2).
Proof.
  unfold unwind_epilog. intros E Hr. rewrite st_bind_spec in E |- *. unfold st_lift in E |- *.
  destruct (text_memory_at_rva _ _ _) as [memory|]; [|done]. rewrite st_bind_spec in E |- *.
  destruct (ok_or _ _) as [instruction|]; [|done].
  destruct (parse_sequence _ _) as [es|]; [|rewrite st_ret_spec in E |- *; by simplify_eq].
  destruct (for_sequence_of_offset_or_pop _) as [rule|]; [rewrite st_ret_spec in E |- *; by simplify_eq|].
  rewrite st_bind_spec in E. destruct (run_epilog _ _ _ _) as [[[]|] regs3]; [|done].
  rewrite st_bind_spec in E. destruct (pop_return_address _ _) as [[ra|] regs4]; [|done].
  rewrite st_ret_spec in E. simplify_eq. by destruct (Hr ra).
Qed.

Lemma unwind_body_fixed sections address function info rs1 rs2 regs1 regs2 rule regs' :
  unwind_body bytes_of memory_limit sections address function info rs1 regs1 = (Ok (ExecRule rule), regs') ->
  unwind_body bytes_of memory_limit sections address function info rs2 regs2 = (Ok (ExecRule rule), regs2).
Proof.
  unfold unwind_body. intros E. rewrite st_bind_spec in E |- *. unfold st_lift in E |- *.
  destruct (chained_infos _ _ _ _) as [infos|]; [|done].
  destruct (for_sequence_of_offset_or_pop _) as [rule'|]; [rewrite st_ret_spec in E |- *; by simplify_eq|].
  rewrite st_bind_spec in E. destruct (resolve_operations _ _ _ _) as [[[ra|]|] regs3]; [done| |done].
  rewrite st_bind_spec in E. by destruct (pop_return_address _ _) as [[ra|] regs4].
Qed.

(** [PeUnwinding] of an architecture. *)
Definition PeUnwinding_x86_64 : PeUnwinding D UnwindRuleX86_64 UnwindRegsX86_64 :=
  pe_unwind_frame_x86_64 bytes_of memory_limit.

Lemma PeUnwindingLaws_x86_64 : PeUnwindingLaws D UnwindRuleX86_64 UnwindRegsX86_64 (H := PeUnwinding_x86_64).
Proof.
  intros sections a first rs1 rs2 regs1 regs2 rule regs'. unfold pe_unwind_frame, PeUnwinding_x86_64, pe_unwind_frame_x86_64.
  destruct (entries_lookup _ _) as [function|]; [|rewrite !st_ret_spec; by intros [= ->]].
  intros E. rewrite st_bind_spec in E |- *. unfold st_lift in E |- *.
  destruct (unwind_info_memory_at_rva _ _ _) as [memory|]; [|done]. rewrite st_bind_spec in E |- *.
  destruct (ok_or _ _) as [info|]; [|done]. rewrite st_bind_spec in E.
  destruct first; [|rewrite st_bind_spec, st_ret_spec in *; by eapply unwind_body_fixed].
  rewrite st_bind_spec. destruct (unwind_epilog _ _ _ _ _ rs1 _) as [[r|] regs3] eqn:Ee; [|done].
  assert (forall ra, r <> Some (Uncacheable ra)) as Hr by (intros ra ->; rewrite st_ret_spec in E; simplify_eq).
  rewrite (unwind_epilog_fixed _ _ _ _ _ rs2 _ regs2 _ _ Ee Hr). destruct r as [r|].
  - rewrite st_ret_spec in E |- *. by simplify_eq.
  - by eapply unwind_body_fixed.
Qed.
End laws.

(** ** An epilog's rule against running the epilog *)

(** The operations of an epilog keep the stack aligned and pop no [rsp]. *)
Definition epilog_aligned (instructions : list FunctionEpilogInstruction) : Prop :=
  Forall (fun i => match i with
    | AddSP offset => (8 | offset) /\ 0 <= offset
    | PopInstruction reg => reg <> P_RSP
    | AddSPFromFP _ => True end) instructions.

Lemma reg_set_set_ne r1 r2 v1 v2 regs :
  r1 <> r2 -> reg_set r1 v1 (reg_set r2 v2 regs) = reg_set r2 v2 (reg_set r1 v1 regs).
Proof.
  intros Hne. unfold reg_set. cbn [ip X86Regs.regs]. f_equal. apply list_insert_insert_ne.
  intros Heq. by apply Hne, reg_index_inj.
Qed.

Lemma reg_set_set_eq r v1 v2 regs : reg_set r v1 (reg_set r v2 regs) = reg_set r v1 regs.
Proof. unfold reg_set. cbn [ip X86Regs.regs]. f_equal. apply list_insert_insert_eq. Qed.

(** What an epilog adds to the stack pointer. *)
Fixpoint epilog_size (instructions : list FunctionEpilogInstruction) : Z :=
  match instructions with
  | [] => 0
  | AddSP offset :: rest => offset + epilog_size rest
  | AddSPFromFP _ :: rest => epilog_size rest
  | PopInstruction _ :: rest => 8 + epilog_size rest
  end.

Lemma epilog_size_nonneg instructions : epilog_aligned instructions -> 0 <= epilog_size instructions.
Proof.
  induction 1 as [|i rest Hi _ IH]; [done|]. destruct i; cbn; lia.
Qed.

Lemma sequence_has_no_none ops rule : for_sequence_of_offset_or_pop ops = Some rule -> OOPNone ∉ ops.
Proof.
  assert (Hpops : forall l acc regs, collect_pops l acc = Some regs -> OOPNone ∉ l).
  { clear. induction l as [|[] ops' IH]; intros acc regs; cbn [collect_pops]; try done; [intros _; apply not_elem_of_nil|].
    destruct (length acc <? 8)%nat; [|done]. intros Hc%IH. by apply not_elem_of_cons. }
  unfold for_sequence_of_offset_or_pop. intros Hs.
  destruct ops as [|[|n|r] ops]; apply bind_Some in Hs as (regs & Hc & _); apply Hpops in Hc;
    [done..|by apply not_elem_of_cons|done].
Qed.

Lemma reg_get_set_rsp s regs : length (X86Regs.regs regs) = 16%nat -> reg_get (set_rsp s regs) RSP = s.
Proof. apply reg_get_set_eq. Qed.

Lemma convert_not_rsp reg : reg <> P_RSP -> convert_pe_register reg <> RSP.
Proof. by destruct reg. Qed.

(** Running the epilog on the registers is running its operations beside them. *)
Lemma run_epilog_ops frame rs instructions s regs regs1 :
  epilog_aligned instructions -> OOPNone ∉ from_epilog_instruction <$> instructions ->
  length (X86Regs.regs regs) = 16%nat -> 0 <= s -> s + epilog_size instructions < 2 ^ 64 ->
  run_epilog frame rs instructions (set_rsp s regs) = (Ok tt, regs1) ->
  exists regs', run_ops rs (from_epilog_instruction <$> instructions) s regs =
      (Ok (s + epilog_size instructions), regs') /\
    regs1 = set_rsp (s + epilog_size instructions) regs' /\
    length (X86Regs.regs regs') = 16%nat /\ reg_get regs' RSP = reg_get regs RSP /\ ip regs' = ip regs.
Proof.
  intros Hal. revert s regs. induction Hal as [|i rest Hi Hrest IH]; intros s regs Hnone Hlen Hs Hbound Hrun.
  { cbn in Hrun. unfold mret, st_ret in Hrun. simplify_eq. exists regs. cbn.
    rewrite Z.add_0_r. by rewrite st_ret_spec. }
  pose proof (epilog_size_nonneg rest Hrest) as Hge. rewrite fmap_cons in Hnone |- *.
  cbn [run_epilog] in Hrun. rewrite st_bind_spec, st_get_spec in Hrun. cbv zeta in Hrun.
  rewrite reg_get_set_rsp in Hrun by done. apply not_elem_of_cons in Hnone as [Hni Hnone].
  destruct i as [offset|offset|reg]; cbn [epilog_size from_epilog_instruction] in *; [| done |].
  - unfold offset_or_none in *. destruct (try_u 16 (offset / 8)) as [n|] eqn:En; [|done].
    apply try_u_Some in En as [-> _]. destruct Hi as [[q ->] Hq]. rewrite Z.div_mul by lia.
    rewrite st_bind_spec, st_modify_spec in Hrun. unfold set_rsp at 1 2 in Hrun. rewrite reg_set_set_eq in Hrun.
    fold (set_rsp (s +64 q * 8) regs) in Hrun.
    replace (s +64 q * 8) with (s + q * 8) in Hrun by (unfold_words; rewrite Z.mod_small; lia).
    destruct (IH (s + q * 8) regs) as (regs' & Hops & -> & Hl & Hsp & Hip); [done|done|lia|lia|done|].
    exists regs'. cbn [run_ops]. rewrite st_bind_spec, no_overflow_spec.
    rewrite (proj2 (checked_add_Some 64 s (q * 8) (s + q * 8))) by (unfold in_u; lia).
    rewrite Hops. split_and!; [f_equal; f_equal; lia|f_equal; lia|done..].
  - rewrite st_bind_spec in Hrun. unfold pe_read_stack in Hrun. rewrite st_bind_spec in Hrun. unfold st_lift in Hrun.
    destruct (rs s) as [v|] eqn:Ev; cbn [ok_or] in Hrun; [|done].
    rewrite st_bind_spec, !st_modify_spec in Hrun. apply convert_not_rsp in Hi.
    assert (E : set_rsp (s +64 8) (reg_set (convert_pe_register reg) v (set_rsp s regs)) =
      set_rsp (s + 8) (reg_set (convert_pe_register reg) v regs)).
    { replace (s +64 8) with (s + 8) by (unfold_words; rewrite Z.mod_small; lia).
      unfold set_rsp. by rewrite (reg_set_set_ne _ RSP), reg_set_set_eq by done. }
    rewrite E in Hrun.
    destruct (IH (s + 8) (reg_set (convert_pe_register reg) v regs)) as (regs' & Hops & -> & Hl & Hsp & Hip);
      [done|by rewrite reg_set_length|lia|lia|done|].
    exists regs'. cbn [run_ops]. rewrite st_bind_spec, read_word_spec, Ev, st_bind_spec, no_overflow_spec.
    rewrite (proj2 (checked_add_Some 64 s 8 (s + 8))) by (unfold in_u; lia).
    rewrite st_bind_spec, st_modify_spec, Hops.
    split_and!; [f_equal; f_equal; lia|f_equal; lia|done| |done]. by rewrite Hsp, reg_get_set_ne.
Qed.

Lemma reg_set_same r regs : length (X86Regs.regs regs) = 16%nat -> reg_set r (reg_get regs r) regs = regs.
Proof.
  intros Hl. destruct regs as [i l]. unfold reg_set, reg_get. cbn [ip X86Regs.regs] in *. f_equal.
  apply list_insert_id. pose proof (reg_index_lt r).
  destruct (lookup_lt_is_Some_2 l (reg_index r)) as [v Hv]; [lia|]. by rewrite Hv.
Qed.

(** C37: on Windows the cached rule of an epilog unwinds like performing the rest of
    the epilog. When the remaining instructions have a rule, and performing them
    and popping the return address succeeds with a nonnull one, executing the rule
    returns the same address and leaves the same registers, and also moves the
    instruction pointer, which performing the instructions leaves behind. *)
Theorem epilog_rule_agrees frame instructions rule first rs regs ra regs1 regs2
    (Hrule : for_sequence_of_offset_or_pop (from_epilog_instruction <$> instructions) = Some rule)
    (Hwf : regs_wf regs) (Hal : epilog_aligned instructions)
    (Hsp : sp regs + epilog_size instructions + 8 < 2 ^ 64)
    (Hrun : run_epilog frame rs instructions regs = (Ok tt, regs1))
    (Hra : pop_return_address rs regs1 = (Ok ra, regs2)) (Hne : ra <> 0) :
  exec_x86_64 rule first rs regs = (Ok (Some ra), set_ip ra regs2).
Proof.
  pose proof (reg_get_u64 regs RSP Hwf) as Hspu. pose proof (epilog_size_nonneg _ Hal) as Hge.
  rewrite (sequence_rule_exec _ _ _ _ _ Hrule Hspu). destruct Hwf as (Hlen & _ & _).
  change (reg_get regs RSP) with (sp regs) in Hspu. unfold in_u in Hspu.
  assert (Hself : set_rsp (sp regs) regs = regs) by (by apply reg_set_same).
  rewrite <- Hself in Hrun.
  destruct (run_epilog_ops frame rs instructions (sp regs) regs regs1) as (regs' & Hops & -> & Hl & Hspr & Hip);
    [done|by eapply sequence_has_no_none|done|lia|lia|done|].
  set (s' := sp regs + epilog_size instructions) in *.
  unfold pop_return_address in Hra. rewrite st_bind_spec, st_get_spec in Hra. cbv zeta in Hra.
  rewrite reg_get_set_rsp in Hra by done. rewrite st_bind_spec in Hra. unfold pe_read_stack, st_lift in Hra.
  destruct (rs s') as [v|] eqn:Ev; cbn [ok_or] in Hra; [|done].
  rewrite st_bind_spec, st_modify_spec, st_ret_spec in Hra. unfold set_rsp in Hra. rewrite reg_set_set_eq in Hra.
  replace (s' +64 8) with (s' + 8) in Hra by (unfold s'; unfold_words; rewrite Z.mod_small; lia). simplify_eq.
  unfold run_ops_and_return. rewrite st_bind_spec, st_get_spec, st_bind_spec, Hops, st_bind_spec, no_overflow_spec.
  rewrite (proj2 (checked_add_Some 64 s' 8 (s' + 8))) by (unfold s', in_u; lia).
  rewrite st_bind_spec, st_get_spec. unfold finish_exec. rewrite st_bind_spec, read_word_spec.
  replace (s' + 8 -64 8) with s' by (unfold s'; unfold_words; rewrite Z.mod_small; lia).
  rewrite Ev, (proj2 (Z.eqb_neq ra 0)) by done. rewrite st_bind_spec, st_get_spec.
  rewrite (proj2 (Z.eqb_neq (s' + 8) (sp regs))) by (unfold s'; lia). cbn [andb].
  st_bind. f_equal. unfold set_bp, set_sp, bp. rewrite reg_set_set_ne by done.
  change (reg_get regs' RBP) with (reg_get (set_ip ra regs') RBP).
  by rewrite (reg_set_same RBP (set_ip ra regs')).
Qed.

Definition example_epilog : list FunctionEpilogInstruction := [AddSP 16; PopInstruction P_RBP; PopInstruction P_RBX].
Definition example_words (a : Z) : option Z :=
  if a =? 1016 then Some 5000 else if a =? 1024 then Some 6000 else if a =? 1032 then Some 7777 else None.

Lemma epilog_rule_agrees_witness :
  exists rule regs2, for_sequence_of_offset_or_pop (from_epilog_instruction <$> example_epilog) = Some rule /\
    exec_x86_64 rule true example_words (regs_new 4242 1000 2000) = (Ok (Some 7777), set_ip 7777 regs2) /\
    bp regs2 = 5000.
Proof.
  eexists _, _. split; [vm_compute; reflexivity|].
  split; [eapply (epilog_rule_agrees None example_epilog)|].
  - reflexivity.
  - split_and!; [done|apply (bool_decide_unpack _); by vm_compute|by vm_compute].
  - repeat constructor; try done; by exists 2.
  - by vm_compute.
  - vm_compute. reflexivity.
  - vm_compute. reflexivity.
  - discriminate.
  - vm_compute. reflexivity.
Defined.
