(* ===== verification/Unwinder.v ===== *)
(** * Unwinding one frame through the rule cache

    Models the unwinding half of [vendor/framehop/src/unwinder.rs]: [with_cache],
    [unwind_frame], [unwind_frame_signal_aware] and [UnwindIterator], and the
    cache of [cache.rs]. The callback that consults a module's unwind data is an
    argument, as it is of [with_cache]. *)
From S2P Require Import Prelude CodeAddress UnwindRule Generation ModuleList RuleCache X86Regs X86Rules.

(** [Cache]: [C] is gimli's preallocated [UnwindContext]. *)
Record Cache (R C : Type) : Type := MkCache {
  gimli_unwind_context : C;
  rule_cache : RuleCache R;
}.
Arguments MkCache {R C}.
Arguments gimli_unwind_context {R C}.
Arguments rule_cache {R C}.

(** What an unwind step changes: the registers and the cache. *)
Record UState (R Regs C : Type) : Type := MkUState {
  st_regs : Regs;
  st_cache : Cache R C;
}.
Arguments MkUState {R Regs C}.
Arguments st_regs {R Regs C}.
Arguments st_cache {R Regs C}.

Inductive UnwindIteratorState : Type :=
  | Initial (pc : Z)
  | Unwinding (address : FrameAddress)
  | Done.

Section Unwinder.
  Context {D R Regs C E : Type} `{UnwindRule R Regs}.

Definition Cache_new (context : C) : Cache R C := MkCache context RuleCache_new.

Definition set_rule_cache (rc : RuleCache R) (s : UState R Regs C) : UState R Regs C :=
  MkUState (st_regs s) (MkCache (gimli_unwind_context (st_cache s)) rc).

(** Runs a computation that only changes the registers. *)
Definition on_regs {A} (m : exec_m Regs A) : ST (UState R Regs C) (fault Error) A :=
  fun s => let '(r, regs) := m (st_regs s) in (r, MkUState regs (st_cache s)).

(** [unwind_frame_impl] of an architecture; its errors are the [UnwinderError]s. *)
Definition frame_callback : Type :=
  Module_ D -> FrameAddress -> Z -> stack_reader -> ST (UState R Regs C) (fault E) (UnwindResult R).

Definition not_interrupted (result : option Z) : option (Z * bool) :=
  (fun address => (address, false)) <$> result.

(** How [with_cache] goes on after a cache miss. *)
Inductive rule_or_address : Type :=
  | UseRule (rule : R)
  | ReturnNow (address : Z) (interrupted : bool).

(** The rule for an address that is not in the cache: the callback's, or the
    fallback rule for an unknown address or an address it fails on. *)
Definition find_rule (u : UnwinderInternal D) (address : FrameAddress)
    (read_stack : stack_reader) (callback : frame_callback) :
    ST (UState R Regs C) (fault Error) rule_or_address :=
  match find_module_for_address u (address_for_lookup address) with
  | None => mret (UseRule fallback_rule)
  | Some (module, relative_lookup_address) => fun s =>
      match callback module address relative_lookup_address read_stack s with
      | (Ok (ExecRule rule), s') => (Ok (UseRule rule), s')
      | (Ok (Uncacheable return_address), s') => (Ok (ReturnNow return_address false), s')
      | (Ok (Interrupted address), s') => (Ok (ReturnNow address true), s')
      | (Err (Fail _), s') => (Ok (UseRule fallback_rule), s')
      | (Err Panic, s') => (Err Panic, s')
      end
  end.

Definition with_cache (u : UnwinderInternal D) (address : FrameAddress)
    (read_stack : stack_reader) (callback : frame_callback) :
    ST (UState R Regs C) (fault Error) (option (Z * bool)) :=
  let lookup_address := address_for_lookup address in
  let is_first_frame := negb (is_return_address address) in
  s ← st_get;
  let '(result, rc) := cache_lookup (rule_cache (st_cache s)) lookup_address (modules_generation u) in
  _ ← st_modify (set_rule_cache rc);
  match result with
  | Hit unwind_rule =>
      r ← on_regs (exec unwind_rule is_first_frame read_stack);
      mret (not_interrupted r)
  | Miss cache_handle =>
      found ← find_rule u address read_stack callback;
      match found with
      | ReturnNow return_address interrupted => mret (Some (return_address, interrupted))
      | UseRule unwind_rule =>
          _ ← st_modify (fun s =>
                set_rule_cache (cache_insert (rule_cache (st_cache s)) cache_handle unwind_rule) s);
          r ← on_regs (exec unwind_rule is_first_frame read_stack);
          mret (not_interrupted r)
      end
  end.

Section frame.
  (** [unwind_frame_impl]. *)
  Context (unwind_frame_impl : frame_callback).

Definition unwind_frame_signal_aware (u : UnwinderInternal D) (address : FrameAddress)
    (read_stack : stack_reader) : ST (UState R Regs C) (fault Error) (option (Z * bool)) :=
  with_cache u address read_stack unwind_frame_impl.

Definition unwind_frame (u : UnwinderInternal D) (address : FrameAddress)
    (read_stack : stack_reader) : ST (UState R Regs C) (fault Error) (option Z) :=
  r ← unwind_frame_signal_aware u address read_stack;
  mret (fst <$> r).

(** The trait's default [unwind_frame_signal_aware], which the aarch64 unwinder
    does not override: no frame is reported as interrupted. *)
Definition default_signal_aware (u : UnwinderInternal D) (address : FrameAddress)
    (read_stack : stack_reader) : ST (UState R Regs C) (fault Error) (option (Z * bool)) :=
  r ← unwind_frame u address read_stack;
  mret ((fun address => (address, false)) <$> r).

(** [UnwindIterator::next]; the state is the iterator's own state and what it
    unwinds with. *)
Definition iter_next (u : UnwinderInternal D) (read_stack : stack_reader) :
    ST (UnwindIteratorState * UState R Regs C) (fault Error) (option FrameAddress) :=
  '(state, s) ← st_get;
  match state with
  | Initial pc =>
      _ ← st_modify (fun _ => (Unwinding (InstructionPointer pc), s));
      mret (Some (InstructionPointer pc))
  | Done => mret None
  | Unwinding address =>
      let '(next, s') := unwind_frame u address read_stack s in
      _ ← st_modify (fun _ => (state, s'));
      next ← st_lift next;
      match next with
      | Some return_address =>
          return_address ← st_lift (ok_or (Fail ReturnAddressIsNull) (from_return_address return_address));
          _ ← st_modify (fun _ => (Unwinding return_address, s'));
          mret (Some return_address)
      | None =>
          _ ← st_modify (fun _ => (Done, s'));
          mret None
      end
  end.
End frame.

(** ** Reference semantics: the same step without a cache *)

Definition uncached (u : UnwinderInternal D) (address : FrameAddress)
    (read_stack : stack_reader) (callback : frame_callback) :
    ST (UState R Regs C) (fault Error) (option (Z * bool)) :=
  found ← find_rule u address read_stack callback;
  match found with
  | ReturnNow return_address interrupted => mret (Some (return_address, interrupted))
  | UseRule unwind_rule =>
      r ← on_regs (exec unwind_rule (negb (is_return_address address)) read_stack);
      mret (not_interrupted r)
  end.

(** ** Cache lemmas *)

Lemma cached_insert_other (rc : RuleCache R) a g rule a' g' r :
  cache_wf rc -> u64 a -> u64 a' -> g' <> g ->
  cached (cache_insert rc (MkCacheHandle (a mod CACHE_ENTRY_COUNT) a g) rule) a' g' = Some r ->
  cached rc a' g' = Some r.
Proof.
  intros Hwf Ha Ha' Hg. unfold cached. cbn [cache_insert entries].
  pose proof (slot_in_bounds rc a Hwf). rewrite list_lookup_insert.
  case_decide as Hi; [|done]. simpl. rewrite (proj2 (Z.eqb_neq g g')) by done. done.
Qed.

Lemma cached_insert_same (rc : RuleCache R) a g rule a' r :
  cache_wf rc -> u64 a -> u64 a' ->
  cached (cache_insert rc (MkCacheHandle (a mod CACHE_ENTRY_COUNT) a g) rule) a' g = Some r ->
  (a' = a /\ r = rule) \/ cached rc a' g = Some r.
Proof.
  intros Hwf Ha Ha'. unfold cached. cbn [cache_insert entries].
  pose proof (slot_in_bounds rc a Hwf). rewrite list_lookup_insert.
  case_decide as Hi; [|by right]. simpl. rewrite Z.eqb_refl. simpl.
  destruct (Z.eqb_spec a a') as [->|]; [|done]. intros [= ->]. by left.
Qed.

Lemma lookup_wf (rc : RuleCache R) a g : cache_wf rc -> cache_wf (cache_lookup rc a g).2.
Proof. unfold cache_wf. by rewrite lookup_entries. Qed.

Lemma cached_lookup (rc : RuleCache R) a g a' g' :
  cached (cache_lookup rc a g).2 a' g' = cached rc a' g'.
Proof. unfold cached. by rewrite lookup_entries. Qed.

(** ** Which rules a cache holds *)

(** The callback leaves the rule cache alone, and where it gives a rule for a frame
    in a module of [u], it gives that rule for every frame of the same kind at the
    same address, whatever the stack and the registers, and changes no register. *)
Record rule_stable (callback : frame_callback) (u : UnwinderInternal D) : Prop := {
  cb_cache : forall m a rel rs s,
    rule_cache (st_cache (callback m a rel rs s).2) = rule_cache (st_cache s);
  cb_rule : forall a1 a2 m rel rs1 rs2 s1 s2 rule s1',
    find_module_for_address u (address_for_lookup a1) = Some (m, rel) ->
    address_for_lookup a2 = address_for_lookup a1 -> is_return_address a2 = is_return_address a1 ->
    callback m a1 rel rs1 s1 = (Ok (ExecRule rule), s1') ->
    exists s2', callback m a2 rel rs2 s2 = (Ok (ExecRule rule), s2') /\ st_regs s2' = st_regs s2;
}.

(** The rule of frames of the kind and at the address of [address], found afresh. *)
Definition finds (callback : frame_callback) (u : UnwinderInternal D) (address : FrameAddress) (rule : R) : Prop :=
  forall address2 rs s, address_for_lookup address2 = address_for_lookup address ->
  is_return_address address2 = is_return_address address ->
  exists s', find_rule u address2 rs callback s = (Ok (UseRule rule), s') /\ st_regs s' = st_regs s.

(** The module's unwind data failed for the frame, on some stack. *)
Definition failed (callback : frame_callback) (u : UnwinderInternal D) (address : FrameAddress) : Prop :=
  exists m rel rs s e s', find_module_for_address u (address_for_lookup address) = Some (m, rel) /\
    callback m address rel rs s = (Err (Fail e), s').

(** Every rule the cache holds for the unwinder's generation was found for a frame at
    its address, or is the fallback for one the unwind data failed for. *)
Definition sound (callback : frame_callback) (u : UnwinderInternal D) (rc : RuleCache R) : Prop :=
  forall a rule, u64 a -> cached rc a (modules_generation u) = Some rule ->
  exists address, address_for_lookup address = a /\
    (finds callback u address rule \/ rule = fallback_rule /\ failed callback u address).

Lemma find_rule_justified callback u address rs s rule s' :
  rule_stable callback u -> find_rule u address rs callback s = (Ok (UseRule rule), s') ->
  finds callback u address rule \/ rule = fallback_rule /\ failed callback u address.
Proof.
  intros [_ Hrule] Hf. unfold find_rule in Hf.
  destruct (find_module_for_address u (address_for_lookup address)) as [[m rel]|] eqn:Em.
  - destruct (callback m address rel rs s) as [[[r|r|r]|[e|]] s1] eqn:Ec; simplify_eq/=.
    + left. intros address2 rs2 s2 Ha Hk. unfold find_rule. rewrite Ha, Em.
      destruct (Hrule _ address2 _ _ _ rs2 _ s2 _ _ Em Ha Hk Ec) as (s2' & -> & Hr). eauto.
    + right. split; [done|]. by exists m, rel, rs, s, e, s'.
  - left. intros address2 rs2 s2 Ha _. unfold find_rule. rewrite Ha, Em. rewrite st_ret_spec in Hf |- *.
    simplify_eq. eauto.
Qed.

Lemma find_rule_cache callback u address rs s :
  (forall m a rel rs s, rule_cache (st_cache (callback m a rel rs s).2) = rule_cache (st_cache s)) ->
  rule_cache (st_cache (find_rule u address rs callback s).2) = rule_cache (st_cache s).
Proof.
  intros Hc. unfold find_rule.
  destruct (find_module_for_address _ _) as [[m rel]|]; [|done].
  specialize (Hc m address rel rs s).
  destruct (callback m address rel rs s) as [[[r|r|r]|[e|]] s1]; done.
Qed.

Lemma on_regs_fst {A} (m : exec_m Regs A) (s : UState R Regs C) :
  on_regs m s = ((m (st_regs s)).1, MkUState (m (st_regs s)).2 (st_cache s)).
Proof. unfold on_regs. by destruct (m (st_regs s)). Qed.

(** The step on a cache hit and on a cache miss. *)
Lemma with_cache_hit u address rs callback s rule :
  frame_address_wf address ->
  cached (rule_cache (st_cache s)) (address_for_lookup address) (modules_generation u) = Some rule ->
  let m := exec rule (negb (is_return_address address)) rs (st_regs s) in
  let rc := (cache_lookup (rule_cache (st_cache s)) (address_for_lookup address) (modules_generation u)).2 in
  with_cache u address rs callback s =
    (match m.1 with Ok r => Ok (not_interrupted r) | Err e => Err e end,
     MkUState m.2 (MkCache (gimli_unwind_context (st_cache s)) rc)).
Proof.
  intros Ha Hc. unfold with_cache. rewrite st_bind_spec, st_get_spec.
  pose proof (lookup_result (rule_cache (st_cache s)) _ (modules_generation u) (address_for_lookup_u64 _ Ha)) as Hl.
  rewrite Hc in Hl. destruct (cache_lookup _ _ _) as [res rc]. simpl in Hl. subst res.
  rewrite st_bind_spec. unfold st_modify at 1. rewrite st_bind_spec, on_regs_fst. simpl.
  by destruct (exec rule _ rs (st_regs s)) as [[r|e] regs'].
Qed.

Lemma with_cache_miss u address rs callback s :
  frame_address_wf address ->
  (forall m a rel rs s, rule_cache (st_cache (callback m a rel rs s).2) = rule_cache (st_cache s)) ->
  cached (rule_cache (st_cache s)) (address_for_lookup address) (modules_generation u) = None ->
  let a := address_for_lookup address in
  let rc := (cache_lookup (rule_cache (st_cache s)) a (modules_generation u)).2 in
  let s0 := set_rule_cache rc s in
  let handle := MkCacheHandle (a mod CACHE_ENTRY_COUNT) a (modules_generation u) in
  let reference := uncached u address rs callback s0 in
  let after := with_cache u address rs callback s in
  after.1 = reference.1 /\ st_regs after.2 = st_regs reference.2 /\
  rule_cache (st_cache after.2) =
    match (find_rule u address rs callback s0).1 with
    | Ok (UseRule rule) => cache_insert rc handle rule
    | _ => rc
    end.
Proof.
  intros Ha Hcb Hc. cbn zeta. unfold with_cache. rewrite st_bind_spec, st_get_spec.
  pose proof (lookup_result (rule_cache (st_cache s)) _ (modules_generation u) (address_for_lookup_u64 _ Ha)) as Hl.
  rewrite Hc in Hl. destruct (cache_lookup _ _ _) as [res rc]. simpl in Hl. subst res.
  rewrite st_bind_spec. unfold st_modify at 1. simpl.
  unfold uncached. rewrite !st_bind_spec.
  pose proof (find_rule_cache callback u address rs (set_rule_cache rc s) Hcb) as Hrc. simpl in Hrc.
  destruct (find_rule u address rs callback (set_rule_cache rc s)) as [[[rule|ra i]|e] s1]; simpl in Hrc |- *;
    [|by rewrite Hrc..].
  rewrite !st_bind_spec. unfold st_modify. rewrite !st_bind_spec, !on_regs_fst. simpl.
  rewrite Hrc. by destruct (exec rule _ rs (st_regs s1)) as [[r|e] regs'].
Qed.

(** [uncached] does not look at the rule cache. *)
Lemma uncached_regs callback u address rs s rule s' :
  find_rule u address rs callback s = (Ok (UseRule rule), s') -> st_regs s' = st_regs s ->
  let m := exec rule (negb (is_return_address address)) rs (st_regs s) in
  (uncached u address rs callback s).1 = match m.1 with Ok r => Ok (not_interrupted r) | Err e => Err e end /\
  st_regs (uncached u address rs callback s).2 = m.2.
Proof.
  intros Hf Hr. cbn zeta. unfold uncached. rewrite st_bind_spec, Hf, st_bind_spec, on_regs_fst, Hr.
  by destruct (exec rule _ rs (st_regs s)) as [[r|e] regs'].
Qed.

(** The state in which the step goes on after the cache lookup has counted. *)
Definition after_lookup (u : UnwinderInternal D) (address : FrameAddress) (s : UState R Regs C) : UState R Regs C :=
  set_rule_cache
    (cache_lookup (rule_cache (st_cache s)) (address_for_lookup address) (modules_generation u)).2 s.

(** ** Properties *)

(** The step returns and leaves in the registers what the step without a cache does. *)
Definition agrees_uncached (u : UnwinderInternal D) address rs callback s : Prop :=
  let after := with_cache u address rs callback s in
  let reference := uncached u address rs callback (after_lookup u address s) in
  after.1 = reference.1 /\ st_regs after.2 = st_regs reference.2.

(** The step executes [rule], which is in the cache. *)
Definition runs_cached (u : UnwinderInternal D) address rs callback s rule : Prop :=
  let after := with_cache u address rs callback s in
  let run := exec rule (negb (is_return_address address)) rs (st_regs s) in
  cached (rule_cache (st_cache s)) (address_for_lookup address) (modules_generation u) = Some rule /\
  after.1 = not_interrupted <$> run.1 /\ st_regs after.2 = run.2.

(** A step keeps the cache well formed and sound, for its unwinder and for those of
    other generations. *)
Definition keeps_sound (u : UnwinderInternal D) address rs callback s : Prop :=
  let rc := rule_cache (st_cache s) in
  let rc' := rule_cache (st_cache (with_cache u address rs callback s).2) in
  cache_wf rc' /\ sound callback u rc' /\
  (forall u2, modules_generation u2 <> modules_generation u -> sound callback u2 rc -> sound callback u2 rc').

(** On a miss the step is the step without a cache; on a hit the cached rule runs. *)
Lemma with_cache_hit_or_miss (u : UnwinderInternal D) address rs callback s :
  rule_stable callback u -> frame_address_wf address ->
  match cached (rule_cache (st_cache s)) (address_for_lookup address) (modules_generation u) with
  | Some rule => runs_cached u address rs callback s rule
  | None => agrees_uncached u address rs callback s
  end.
Proof.
  intros Hcb Ha. destruct (cached _ _ _) as [rule|] eqn:Hc.
  - unfold runs_cached. rewrite (with_cache_hit _ _ _ _ _ rule) by done. split_and!; [done| |done].
    by destruct (exec rule _ rs (st_regs s)) as [[r|e] regs].
  - by destruct (with_cache_miss u address rs callback s Ha (cb_cache _ _ Hcb) Hc) as (? & ? & _).
Qed.

Lemma with_cache_keeps_sound (u : UnwinderInternal D) address rs callback s :
  rule_stable callback u -> frame_address_wf address -> cache_wf (rule_cache (st_cache s)) ->
  sound callback u (rule_cache (st_cache s)) -> keeps_sound u address rs callback s.
Proof.
  intros Hcb Ha Hwf Hsound. unfold keeps_sound. pose proof (address_for_lookup_u64 _ Ha) as Hu.
  set (rc := (cache_lookup (rule_cache (st_cache s)) (address_for_lookup address) (modules_generation u)).2).
  assert (Hrcwf : cache_wf rc) by by apply lookup_wf.
  assert (Hsame : forall u2, sound callback u2 (rule_cache (st_cache s)) -> sound callback u2 rc).
  { intros u2 Hc a rule Ha' Hr. apply Hc; [done|]. unfold rc in Hr. by rewrite cached_lookup in Hr. }
  destruct (cached (rule_cache (st_cache s)) (address_for_lookup address) (modules_generation u)) as [rule|] eqn:Hc.
  - rewrite (with_cache_hit _ _ _ _ _ rule) by done. cbn [snd st_cache rule_cache]. split_and!; auto.
  - pose proof (with_cache_miss u address rs callback s Ha (cb_cache _ _ Hcb) Hc) as (_ & _ & Hcache).
    cbn zeta in Hcache. fold rc in Hcache. rewrite Hcache. split_and!.
    + destruct (find_rule _ _ _ _ _).1 as [[rule|]|]; try done. by apply insert_wf.
    + destruct (find_rule u address rs callback (set_rule_cache rc s)) as [[[rule|]|] s1] eqn:Hf; simpl; auto.
      intros a r Ha' Hr. apply cached_insert_same in Hr as [[-> ->]|Hr]; [|by eapply Hsame|done..].
      exists address. split; [done|]. by eapply find_rule_justified.
    + intros u2 Hg Hc2. destruct (find_rule _ _ _ _ _).1 as [[rule|]|]; try by apply Hsame.
      intros a r Ha' Hr. apply (Hsame u2 Hc2 a r Ha').
      eapply cached_insert_other; [apply Hrcwf|apply Hu|done|apply Hg|done].
Qed.

(** A cached rule that was found for the same kind of frame gives the uncached step. *)
Lemma runs_cached_agrees (u : UnwinderInternal D) address address2 rs callback s rule :
  runs_cached u address rs callback s rule -> finds callback u address2 rule ->
  address_for_lookup address = address_for_lookup address2 ->
  is_return_address address = is_return_address address2 -> agrees_uncached u address rs callback s.
Proof.
  intros (_ & Hr & Hregs) Hf Ha Hk.
  destruct (Hf address rs (after_lookup u address s) Ha Hk) as (s' & Hfind & Hs).
  unfold agrees_uncached. rewrite Hr, Hregs. destruct (uncached_regs _ _ _ _ _ _ _ Hfind Hs) as [-> ->].
  by destruct (exec rule _ rs _) as [[r|e] regs].
Qed.

(** The step agrees, unless the cache holds what another frame at the address got. *)
Lemma with_cache_explained (u : UnwinderInternal D) address rs callback s :
  rule_stable callback u -> frame_address_wf address -> sound callback u (rule_cache (st_cache s)) ->
  agrees_uncached u address rs callback s \/
  exists rule address2, runs_cached u address rs callback s rule /\
    address_for_lookup address2 = address_for_lookup address /\
    (is_return_address address2 <> is_return_address address /\ finds callback u address2 rule \/
     rule = fallback_rule /\ failed callback u address2).
Proof.
  intros Hcb Ha Hsound. pose proof (with_cache_hit_or_miss u address rs callback s Hcb Ha) as H1.
  destruct (cached _ _ _) as [rule|] eqn:Hc; [|by left].
  destruct (Hsound _ _ (address_for_lookup_u64 _ Ha) Hc) as (address2 & Heq & [Hf|Hf]);
    [|right; exists rule, address2; auto].
  destruct (decide (is_return_address address2 = is_return_address address)) as [Hk|Hk];
    [|right; exists rule, address2; auto].
  left. by eapply runs_cached_agrees.
Qed.

(** C13: what the rule cache can change. Take a callback whose rules only depend on
    the module, the address and the kind of frame, and a cache that steps have filled
    ([sound], which every step keeps, also for the module lists of other generations
    that share the cache). When the address is not cached, the step returns what the
    step without a cache returns and leaves the same registers, and the rule it found,
    if any, is cached afterwards. When the address is cached, the step agrees as well, but for two exceptions, in which the step executes the cached rule
    nevertheless: the rule was found for a frame of the other kind at the same lookup
    address (an interrupted frame at [a], a return address [a + 1]), or it is the
    fallback rule, kept since the unwind data failed for a frame at the address. *)
Theorem cached_step_spec (u : UnwinderInternal D) address rs callback s
    (Hcb : rule_stable callback u) (Ha : frame_address_wf address)
    (Hwf : cache_wf (rule_cache (st_cache s))) (Hsound : sound callback u (rule_cache (st_cache s))) :
  keeps_sound u address rs callback s /\
  (cached (rule_cache (st_cache s)) (address_for_lookup address) (modules_generation u) = None ->
     agrees_uncached u address rs callback s /\
     forall rule s', find_rule u address rs callback (after_lookup u address s) = (Ok (UseRule rule), s') ->
       cached (rule_cache (st_cache (with_cache u address rs callback s).2)) (address_for_lookup address)
         (modules_generation u) = Some rule) /\
  (agrees_uncached u address rs callback s \/
   exists rule address2, runs_cached u address rs callback s rule /\
     address_for_lookup address2 = address_for_lookup address /\
     (is_return_address address2 <> is_return_address address /\ finds callback u address2 rule \/
      rule = fallback_rule /\ failed callback u address2)).
Proof.
  split_and!; [by apply with_cache_keeps_sound| |by apply with_cache_explained].
  intros Hc. destruct (with_cache_miss u address rs callback s Ha (cb_cache _ _ Hcb) Hc) as (? & ? & Hcache).
  split; [by split|]. intros rule s' Hf. cbn zeta in Hcache. fold (after_lookup u address s) in Hcache.
  rewrite Hcache, Hf. cbn [fst]. by apply cached_insert_eq, lookup_wf.
Qed.

(** A failure is remembered. When the module's unwind data fails on a frame that
    is not in the cache, for whatever reason, the frame is unwound with the fallback
    rule, and from then on so is every frame at the address, under every callback,
    stack and registers, until the entry is replaced or the module list changes. *)
Theorem failure_is_cached (u : UnwinderInternal D) address rs callback s m rel e s1
    (Hcb : forall m a rel rs s, rule_cache (st_cache (callback m a rel rs s).2) = rule_cache (st_cache s))
    (Ha : frame_address_wf address) (Hwf : cache_wf (rule_cache (st_cache s)))
    (Hm : find_module_for_address u (address_for_lookup address) = Some (m, rel))
    (Hmiss : cached (rule_cache (st_cache s)) (address_for_lookup address) (modules_generation u) = None)
    (Hfail : callback m address rel rs (after_lookup u address s) = (Err (Fail e), s1)) :
  let first := negb (is_return_address address) in
  let after := with_cache u address rs callback s in
  after.1 = (not_interrupted <$> (exec fallback_rule first rs (st_regs s1)).1) /\
  forall address2 rs2 callback2 regs2 ctx2,
    frame_address_wf address2 -> address_for_lookup address2 = address_for_lookup address ->
    (with_cache u address2 rs2 callback2 (MkUState regs2 (MkCache ctx2 (rule_cache (st_cache after.2))))).1 =
      (not_interrupted <$> (exec fallback_rule (negb (is_return_address address2)) rs2 regs2).1).
Proof.
  cbn zeta. pose proof (with_cache_miss u address rs callback s Ha Hcb Hmiss) as (Hres & _ & Hcache).
  cbn zeta in Hcache, Hres. fold (after_lookup u address s) in Hres, Hcache.
  assert (find_rule u address rs callback (after_lookup u address s) = (Ok (UseRule fallback_rule), s1)) as Hf.
  { unfold find_rule. by rewrite Hm, Hfail. }
  rewrite Hf in Hcache. cbn [fst] in Hcache. split.
  - rewrite Hres. unfold uncached. rewrite st_bind_spec, Hf, st_bind_spec, on_regs_fst.
    by destruct (exec fallback_rule _ rs _) as [[r|] regs].
  - intros address2 rs2 callback2 regs2 ctx2 Ha2 Heq.
    rewrite (with_cache_hit _ _ _ _ _ fallback_rule) by
      (try done; cbn [rule_cache st_cache]; rewrite Hcache, Heq; apply cached_insert_eq; by apply lookup_wf).
    cbn [fst st_regs]. by destruct (exec fallback_rule _ rs2 regs2) as [[r|] regs].
Qed.

(** All cached rules are older than the counter value [g]. *)
Definition cached_before (g : Z) (rc : RuleCache R) : Prop :=
  forall i e, entries rc !! i = Some (Some e) -> entry_generation e < g.

Lemma cached_before_None (rc : RuleCache R) g a : cached_before g rc -> cached rc a g = None.
Proof.
  intros Hg. unfold cached. destruct (entries rc !! _) as [[e|]|] eqn:E1; simpl; [|done..].
  apply Hg in E1. by rewrite (proj2 (Z.eqb_neq _ _)) by lia.
Qed.

(** A new generation was drawn: the unwinder has it, and the counter is past it. *)
Lemma module_change_generation (u u' : UnwinderInternal D) g g' :
  (exists m, add_module u m g = (Ok u', g')) \/
  (exists k, remove_module u k g = (Ok u', g') /\ u' <> u) ->
  modules_generation u' = g /\ g' = g + 1.
Proof.
  assert (Hgen : forall chunks, (generation ← next_modules_generation; mret (MkUnwinder chunks generation)) g
            = (Ok u', g') -> modules_generation u' = g /\ g' = g + 1).
  { intros chunks. unfold next_modules_generation, mbind, st_bind, st_get, st_modify, st_throw.
    destruct (checked_add 64 g 1) as [n|] eqn:Hn; [|done].
    apply checked_add_Some in Hn as [-> _]. by intros [= <- <-]. }
  intros [[m Hm]|(k & Hk & Hne)]; [by eapply Hgen|].
  unfold remove_module in Hk. destruct (remove_from_chunks u k); [by eapply Hgen|].
  unfold mret, st_ret in Hk. by simplify_eq.
Qed.

(** C15: changing the module list invalidates every cached rule. After a module is
    added or removed, whatever a cache filled under earlier generations holds, the
    next step does not use it: it returns what the step without a cache returns,
    and any rule it caches is under the new generation. *)
Theorem module_change_invalidates (u u' : UnwinderInternal D) g g' address rs callback s
    (Hchange : (exists m, add_module u m g = (Ok u', g')) \/
               (exists k, remove_module u k g = (Ok u', g') /\ u' <> u))
    (Hcb : forall m a rel rs s, rule_cache (st_cache (callback m a rel rs s).2) = rule_cache (st_cache s))
    (Ha : frame_address_wf address)
    (Hold : cached_before g (rule_cache (st_cache s))) :
  let after := with_cache u' address rs callback s in
  let reference := uncached u' address rs callback (after_lookup u' address s) in
  after.1 = reference.1 /\ st_regs after.2 = st_regs reference.2 /\
  cached_before g' (rule_cache (st_cache after.2)).
Proof.
  apply module_change_generation in Hchange as [Hg ->]. cbn zeta.
  pose proof (cached_before_None _ _ (address_for_lookup address) Hold) as Hnone. rewrite <- Hg in Hnone.
  destruct (with_cache_miss u' address rs callback s Ha Hcb Hnone) as (Hres & Hregs & Hcache).
  split_and!; [done|done|]. cbn zeta in Hcache. rewrite Hcache.
  set (rc := (cache_lookup _ _ _).2) in *.
  assert (cached_before (g + 1) rc) as Hrc.
  { intros i e. unfold rc. rewrite lookup_entries. intros Hi%Hold. lia. }
  destruct (find_rule _ _ _ _ _).1 as [[rule|]|]; [|done..].
  intros i e. cbn [cache_insert entries]. rewrite list_lookup_insert. case_decide; [|apply Hrc].
  intros [= <-]. simpl. lia.
Qed.

(** The frame iterator yields the initial instruction pointer first and then only
    nonnull return addresses, one per unwound frame; a null return address is an
    error, and once the stack has ended it stays ended without unwinding. *)
Lemma iter_next_spec impl (u : UnwinderInternal D) rs state s :
  iter_next impl u rs (state, s) =
    match state with
    | Initial pc => (Ok (Some (InstructionPointer pc)), (Unwinding (InstructionPointer pc), s))
    | Done => (Ok None, (Done, s))
    | Unwinding address =>
        match unwind_frame impl u address rs s with
        | (Ok (Some ra), s') =>
            if ra =? 0 then (Err (Fail ReturnAddressIsNull), (state, s'))
            else (Ok (Some (ReturnAddress ra)), (Unwinding (ReturnAddress ra), s'))
        | (Ok None, s') => (Ok None, (Done, s'))
        | (Err e, s') => (Err e, (state, s'))
        end
    end.
Proof.
  unfold iter_next. rewrite st_bind_spec, st_get_spec.
  destruct state as [pc|address|]; [done| |done].
  destruct (unwind_frame impl u address rs s) as [[[ra|]|e] s']; [|done..].
  unfold from_return_address, NonZeroU64_new. rewrite !st_bind_spec. unfold st_modify at 1.
  rewrite st_bind_spec. simpl. rewrite st_bind_spec. by destruct (ra =? 0).
Qed.
End Unwinder.

(** ** Concrete runs: two modules, every frame in them just returns *)

Definition example_callback : 
    frame_callback (D := unit) (R := UnwindRuleX86_64) (Regs := UnwindRegsX86_64) (C := unit) (E := unit) :=
  fun _ _ _ _ s => (Ok (ExecRule JustReturn), s).

Definition example_state : UState UnwindRuleX86_64 UnwindRegsX86_64 unit :=
  MkUState (regs_new 5000 8 0) (MkCache tt RuleCache_new).

(** The state after one step filled the cache. *)
Definition example_filled : UState UnwindRuleX86_64 UnwindRegsX86_64 unit :=
  (with_cache example_unwinder (InstructionPointer 5000) example_stack example_callback example_state).2.

Lemma example_callback_stable u : rule_stable example_callback u.
Proof. split; [done|]. intros a1 a2 m rel rs1 rs2 s1 s2 rule s1' _ _ _ [= <- <-]. eauto. Qed.

(** Fails where the stack has no word at 16. *)
Definition example_failing :
    frame_callback (D := unit) (R := UnwindRuleX86_64) (Regs := UnwindRegsX86_64) (C := unit) (E := unit) :=
  fun _ _ _ rs s => (if rs 16 then Ok (ExecRule JustReturn) else Err (Fail tt), s).

Lemma example_filled_cached a g :
  u64 a -> cached (rule_cache (st_cache example_filled)) a g =
    if (5 =? g) && (5000 =? a) then Some JustReturn else None.
Proof.
  intros Ha. unfold cached. change (entries _) with
    (<[Z.to_nat (5000 mod CACHE_ENTRY_COUNT) := Some (MkCacheEntry 5000 5 JustReturn)]>
       (entries (RuleCache_new (R := UnwindRuleX86_64)))).
  rewrite list_lookup_insert. case_decide as Hi; [by simpl; destruct (_ && _)|].
  destruct ((5 =? g) && (5000 =? a)) eqn:Eg.
  - bool_to_prop. subst a. destruct Hi. split; [done|]. by apply Nat.ltb_lt.
  - change (entries RuleCache_new) with (replicate 509 (@None (CacheEntry UnwindRuleX86_64))).
    destruct (_ !! _) as [[e|]|] eqn:Er; [|done..].
    by apply lookup_replicate in Er as [? _].
Qed.

(** The second step at the address runs the cached rule, as the step without a cache
    would. *)
Lemma cached_step_spec_witness :
  agrees_uncached example_unwinder (InstructionPointer 5000) example_stack example_callback example_filled.
Proof.
  destruct (cached_step_spec example_unwinder (InstructionPointer 5000) example_stack example_callback example_filled)
    as (_ & _ & [H|(rule & address2 & _ & _ & [[_ H]|[_ H]])]); [..|exact H| |].
  - apply example_callback_stable.
  - unfold frame_address_wf, in_u. lia.
  - split; [done|]. intros i e. change (entries _) with
      (<[Z.to_nat (5000 mod CACHE_ENTRY_COUNT) := Some (MkCacheEntry 5000 5 JustReturn)]>
         (entries (RuleCache_new (R := UnwindRuleX86_64)))).
    intros [(<- & [= <-] & _)|[_ [? _]%lookup_replicate]]%list_lookup_insert_Some; [|done].
    unfold in_u. simpl. lia.
  - intros a rule Ha. rewrite example_filled_cached by done. change (modules_generation example_unwinder) with 5.
    destruct (Z.eqb_spec 5000 a) as [<-|]; [|done]. intros [= <-].
    exists (InstructionPointer 5000). split; [done|]. left. intros address rs s Haddr _.
    unfold find_rule. rewrite Haddr. simpl. eauto.
  - split; vm_compute; reflexivity.
  - by destruct H as (m & rel & rs & s & e & s' & _ & [=]).
Defined.

Lemma module_change_invalidates_witness :
  let u' := MkUnwinder (add_to_chunks example_unwinder (example_module 20000 30000)) 6 in
  (with_cache u' (InstructionPointer 5000) example_stack example_callback example_filled).1
  = (uncached u' (InstructionPointer 5000) example_stack example_callback
       (after_lookup u' (InstructionPointer 5000) example_filled)).1.
Proof.
  apply (module_change_invalidates example_unwinder _ 6 7).
  - left. by exists (example_module 20000 30000).
  - done.
  - unfold frame_address_wf, in_u. lia.
  - intros i e. change (entries _) with
      (<[Z.to_nat (5000 mod CACHE_ENTRY_COUNT) := Some (MkCacheEntry 5000 5 JustReturn)]>
         (entries (RuleCache_new (R := UnwindRuleX86_64)))).
    intros [(_ & [= <-] & _)|[_ [? _]%lookup_replicate]]%list_lookup_insert_Some; [simpl; lia|done].
Defined.

Lemma failure_is_cached_witness :
  let empty := fun _ => None in
  let s1 := (with_cache example_unwinder (InstructionPointer 5000) empty example_failing example_state).2 in
  (with_cache example_unwinder (InstructionPointer 5000) example_stack example_failing s1).1 =
    (not_interrupted <$> (exec fallback_rule true example_stack (st_regs s1)).1).
Proof.
  cbn zeta.
  destruct (failure_is_cached example_unwinder (InstructionPointer 5000) (fun _ => None) example_failing example_state
    (example_module 4096 8192) 904 tt (after_lookup example_unwinder (InstructionPointer 5000) example_state)
    (fun _ _ _ _ _ => eq_refl)) as [_ Hagain].
  - unfold frame_address_wf, in_u. lia.
  - apply RuleCache_new_wf.
  - reflexivity.
  - reflexivity.
  - reflexivity.
  - apply (Hagain (InstructionPointer 5000) example_stack example_failing
      (st_regs (with_cache example_unwinder (InstructionPointer 5000) (fun _ => None) example_failing example_state).2) tt);
      [unfold frame_address_wf, in_u; lia|done].
Defined.
