(* ===== verification/ModuleData.v ===== *)
(** * The unwind data of a module

    Models the data half of [vendor/framehop/src/unwinder.rs]: which unwind data
    [Module::new] keeps of a module's sections ([ModuleUnwindDataInternal]), and how
    [unwind_frame_impl] unwinds a frame with it. It is the callback that [with_cache]
    of [Unwinder] takes as an argument. [Bytes] is the section data of [state.rs]. *)
From S2P Require Import Prelude CodeAddress UnwindRule X86Regs X86Rules X86Dwarf X86Compact ModuleList RuleCache Sections Dwarf Compact Pe Unwinder.

(** ** Section bytes *)

(** [Owned] is a copy, [Mapped] is memory that is read in place. *)
Inductive Bytes : Type :=
  | Owned (bytes : list Z)
  | Mapped (bytes : list Z).

Definition deref (b : Bytes) : list Z :=
  match b with
  | Owned bytes => bytes
  | Mapped bytes => bytes
  end.

(** [Default::default()]. *)
Definition Bytes_default : Bytes := Mapped [].

(** ** What is kept of the sections *)

Inductive ModuleUnwindDataInternal (D : Type) : Type :=
  | CompactUnwindInfoAndEhFrame (unwind_info : D) (eh_frame : option D)
      (stubs_svma stub_helper_svma : option range) (base_addresses : BaseAddresses)
      (text_data : option (TextByteData D))
  | EhFrameHdrAndEhFrame (eh_frame_hdr eh_frame : D) (base_addresses : BaseAddresses)
  | DwarfCfiIndexAndEhFrame (index : DwarfCfiIndex) (eh_frame : D) (base_addresses : BaseAddresses)
  | DwarfCfiIndexAndDebugFrame (index : DwarfCfiIndex) (debug_frame : D) (base_addresses : BaseAddresses)
  | PeUnwindInfoData (pdata : D) (rdata xdata text : option (DataAtRvaRange D))
  | NoUnwindData.
Arguments CompactUnwindInfoAndEhFrame {D}.
Arguments EhFrameHdrAndEhFrame {D}.
Arguments DwarfCfiIndexAndEhFrame {D}.
Arguments DwarfCfiIndexAndDebugFrame {D}.
Arguments PeUnwindInfoData {D}.
Arguments NoUnwindData {D}.

Section new.
  Context {D S C : Type} (bytes_of : D -> list Z) `{ModuleSectionInfo D S} `{Gimli C}.

(** [section_data(name1).or_else(|| section_data(name2))]. *)
Definition section_data_or (name1 name2 : string) : section_m S (option D) := fun s =>
  let '(r, s) := section_data name1 s in
  match r with
  | Some d => (Some d, s)
  | None => section_data name2 s
  end.

(** A segment's or section's bytes with their range; both are asked for. *)
Definition bytes_and_range (r1 : section_m S (option D)) (r2 : section_m S (option range)) :
    section_m S (option (TextByteData D)) := fun s =>
  let '(bytes, s) := r1 s in
  let '(svma_range, s) := r2 s in
  (match bytes, svma_range with
   | Some bytes, Some svma_range => Some (MkTextByteData bytes svma_range)
   | _, _ => None
   end, s).

Definition text_data_of (s : S) : option (TextByteData D) * S :=
  let '(r, s) := bytes_and_range (segment_data "__TEXT") (segment_svma_range "__TEXT") s in
  match r with
  | Some t => (Some t, s)
  | None => bytes_and_range (section_data "__text") (section_svma_range "__text") s
  end.

Definition compact_data (unwind_info : D) (s : S) : ModuleUnwindDataInternal D * S :=
  let '(eh_frame, s) := section_data "__eh_frame" s in
  let '(stubs, s) := section_svma_range "__stubs" s in
  let '(stub_helper, s) := section_svma_range "__stub_helper" s in
  let '(text_data, s) := text_data_of s in
  let '(base_addresses, s) := base_addresses_for_sections s in
  (CompactUnwindInfoAndEhFrame unwind_info eh_frame stubs stub_helper base_addresses text_data, s).

(** The closure [range_and_data]: a section's bytes with their range as RVAs. *)
Definition range_and_data (name : string) : section_m S (option (DataAtRvaRange D)) := fun s =>
  let '(svma, s) := section_svma_range name s in
  match
    (svma ← svma;
     start ← try_u 32 (r_start svma -64 base_svma_of s);
     stop ← try_u 32 (r_end svma -64 base_svma_of s);
     Some (Range start stop))
  with
  | None => (None, s)
  | Some rva_range =>
      let '(data, s) := section_data name s in
      ((fun data => MkDataAtRvaRange data rva_range) <$> data, s)
  end.

Definition pe_data (pdata : D) (s : S) : ModuleUnwindDataInternal D * S :=
  let '(rdata, s) := range_and_data ".rdata" s in
  let '(xdata, s) := range_and_data ".xdata" s in
  let '(text, s) := range_and_data ".text" s in
  (PeUnwindInfoData pdata rdata xdata text, s).

(** An index is built for a section without a header; a section that cannot be
    indexed is dropped. *)
Definition indexed_data (type : UnwindSectionType) (section : D)
    (make : DwarfCfiIndex -> D -> BaseAddresses -> ModuleUnwindDataInternal D) (s : S) :
    ModuleUnwindDataInternal D * S :=
  let '(index, s) := try_new_section (D := D) type (bytes_of section) s in
  match index with
  | Ok index =>
      let '(base_addresses, s) := base_addresses_for_sections s in
      (make index section base_addresses, s)
  | Err _ => (NoUnwindData, s)
  end.

Definition eh_frame_data (eh_frame : D) (s : S) : ModuleUnwindDataInternal D * S :=
  let '(hdr, s) := section_data_or ".eh_frame_hdr" "__eh_frame_hdr" s in
  match hdr with
  | Some eh_frame_hdr =>
      let '(base_addresses, s) := base_addresses_for_sections s in
      (EhFrameHdrAndEhFrame eh_frame_hdr eh_frame base_addresses, s)
  | None => indexed_data EhFrame eh_frame DwarfCfiIndexAndEhFrame s
  end.

Definition ModuleUnwindDataInternal_new (s : S) : ModuleUnwindDataInternal D * S :=
  let '(unwind_info, s) := section_data "__unwind_info" s in
  match unwind_info with
  | Some unwind_info => compact_data unwind_info s
  | None =>
      let '(pdata, s) := section_data ".pdata" s in
      match pdata with
      | Some pdata => pe_data pdata s
      | None =>
          let '(eh_frame, s) := section_data_or ".eh_frame" "__eh_frame" s in
          match eh_frame with
          | Some eh_frame => eh_frame_data eh_frame s
          | None =>
              let '(debug_frame, s) := section_data ".debug_frame" s in
              match debug_frame with
              | Some debug_frame => indexed_data DebugFrame debug_frame DwarfCfiIndexAndDebugFrame s
              | None => (NoUnwindData, s)
              end
          end
      end
  end.

Definition Module_new (name : string) (avma_range : range) (base_avma : Z) (section_info : S) :
    Module_ (ModuleUnwindDataInternal D) :=
  let '(unwind_data, section_info) := ModuleUnwindDataInternal_new section_info in
  MkModule name avma_range base_avma (base_svma_of section_info) unwind_data.
End new.

Lemma Module_new_data {D S C} (bytes_of : D -> list Z) `{ModuleSectionInfo D S} `{Gimli C} name r base (i : S) :
  unwind_data (Module_new bytes_of name r base i) = (ModuleUnwindDataInternal_new bytes_of i).1 /\
  avma_range (Module_new bytes_of name r base i) = r /\ base_avma (Module_new bytes_of name r base i) = base /\
  base_svma (Module_new bytes_of name r base i) = base_svma_of (ModuleUnwindDataInternal_new bytes_of i).2.
Proof. unfold Module_new. by destruct (ModuleUnwindDataInternal_new bytes_of i). Qed.

(** ** Explicit sections *)

Section explicit.
  Context {D C : Type} (bytes_of : D -> list Z) `{Gimli C}.
  Implicit Types i : ExplicitModuleSectionInfo D.

(** The base addresses that explicit section information states. *)
Definition explicit_base_addresses i : BaseAddresses :=
  MkBases (Some (default 0 (r_start <$> eh_frame_svma i))) (Some (default 0 (r_start <$> eh_frame_hdr_svma i)))
    (Some (default 0 (r_start <$> text_svma i))) (Some (default 0 (r_start <$> got_svma i))).

(** The text: the segment where its bytes and range are given, else the section. *)
Definition explicit_text i : option (TextByteData D) :=
  match text_segment i, text_segment_svma i with
  | Some bytes, Some r => Some (MkTextByteData bytes r)
  | _, _ =>
      match Sections.text i, text_svma i with
      | Some bytes, Some r => Some (MkTextByteData bytes r)
      | _, _ => None
      end
  end.

Definition explicit_indexed type (section : D) make i : ModuleUnwindDataInternal D :=
  match try_new (MkUnwindSection type (bytes_of section) 8) (explicit_base_addresses i) (ex_base_svma i) with
  | Ok index => make index section (explicit_base_addresses i)
  | Err _ => NoUnwindData
  end.

(** Runs the section queries on explicit section information. *)
Local Ltac sections := autorewrite with sections; cbn [with_data unwind_info eh_frame eh_frame_hdr debug_frame
    Sections.text text_svma text_segment text_segment_svma stubs_svma stub_helper_svma got_svma eh_frame_svma
    eh_frame_hdr_svma ex_base_svma base_svma_of ModuleSectionInfo_explicit].

Lemma explicit_data_cases i :
  (ModuleUnwindDataInternal_new bytes_of i).1 =
    match unwind_info i, eh_frame i, eh_frame_hdr i, debug_frame i with
    | Some unwind_info, eh_frame, _, _ =>
        CompactUnwindInfoAndEhFrame unwind_info eh_frame (stubs_svma i) (stub_helper_svma i)
          (explicit_base_addresses i) (explicit_text i)
    | None, Some eh_frame, Some hdr, _ => EhFrameHdrAndEhFrame hdr eh_frame (explicit_base_addresses i)
    | None, Some eh_frame, None, _ => explicit_indexed EhFrame eh_frame DwarfCfiIndexAndEhFrame i
    | None, None, _, Some debug_frame => explicit_indexed DebugFrame debug_frame DwarfCfiIndexAndDebugFrame i
    | None, None, _, None => NoUnwindData
    end.
Proof.
  unfold ModuleUnwindDataInternal_new, compact_data, text_data_of, bytes_and_range, eh_frame_data, section_data_or,
    indexed_data, try_new_section, explicit_indexed, explicit_text, explicit_base_addresses.
  destruct i as [base tx_r tx stubs helper got ui eh_r eh hdr_r hdr dbg seg_r seg].
  sections. destruct ui as [ui|].
  { sections. destruct seg, seg_r; sections; try (destruct tx, tx_r); by rewrite explicit_bases. }
  sections. destruct eh as [eh|]; sections.
  - destruct hdr as [hdr|]; sections; [by rewrite explicit_bases|].
    rewrite explicit_bases. sections. destruct (try_new _ _ _); [by rewrite explicit_bases|done].
  - destruct dbg as [dbg|]; sections; [|done].
    rewrite explicit_bases. sections. destruct (try_new _ _ _); [by rewrite explicit_bases|done].
Qed.

(** Taking the sections does not change the base address. *)
Lemma explicit_base_kept i : ex_base_svma (ModuleUnwindDataInternal_new bytes_of i).2 = ex_base_svma i.
Proof.
  unfold ModuleUnwindDataInternal_new, compact_data, text_data_of, bytes_and_range, eh_frame_data, section_data_or,
    indexed_data, try_new_section.
  destruct i as [base tx_r tx stubs helper got ui eh_r eh hdr_r hdr dbg seg_r seg].
  sections. destruct ui as [ui|].
  { sections. destruct seg, seg_r; sections; try (destruct tx, tx_r); by rewrite explicit_bases. }
  sections. destruct eh as [eh|]; sections.
  - destruct hdr as [hdr|]; sections; rewrite explicit_bases; sections; [done|].
    destruct (try_new _ _ _); [by rewrite explicit_bases|done].
  - destruct dbg as [dbg|]; sections; [|done].
    rewrite explicit_bases. sections. destruct (try_new _ _ _); [by rewrite explicit_bases|done].
Qed.
End explicit.

(** ** Unwinding a frame *)

Section unwind.
  Context {D R Regs C : Type} (bytes_of : D -> list Z) `{UnwindRule R Regs} `{Gimli C}
    `{!DwarfUnwinding C R Regs} `{MachoUnwindInfo} `{!CompactUnwindInfoUnwinding R} `{!PeUnwinding D R Regs}.

Inductive UnwinderError : Type :=
  | UE_CompactUnwindInfo (e : CompactUnwindInfoUnwinderError)
  | UE_Dwarf (e : DwarfUnwinderError GError)
  | UE_Pe (e : PeUnwinderError)
  | NoDwarfData
  | NoModuleUnwindData
  | EhFrameHdrCouldNotFindAddress
  | DwarfCfiIndexCouldNotFindAddress.

Abbreviation impl_m := (ST (UState R Regs C) (fault UnwinderError)).

(** [?] on the error of a format, which becomes an [UnwinderError]. *)
Definition map_fault {E F} (f : E -> F) (e : fault E) : fault F :=
  match e with
  | Fail e => Fail (f e)
  | Panic => Panic
  end.

(** [unwind_frame_with_fde], on the registers and the cache's gimli context. *)
Definition with_dwarf (unwinder : DwarfUnwinder) (is_first_frame : bool) (rel_lookup_address fde_offset : Z)
    (read_stack : stack_reader) : impl_m (UnwindResult R) := fun s =>
  let cache := st_cache s in
  let '(r, (regs, ctx)) :=
    unwind_frame_with_fde unwinder is_first_frame rel_lookup_address fde_offset read_stack
      (st_regs s, gimli_unwind_context cache) in
  (map_err (fun e => Fail (UE_Dwarf e)) r, MkUState regs (MkCache ctx (rule_cache cache))).

(** The module's text with its offset from the image base. *)
Definition text_bytes_of (module_base_svma : Z) (text_data : option (TextByteData D)) : option TextBytes :=
  data ← text_data;
  offset ← checked_sub 64 (r_start (svma_range data)) module_base_svma;
  offset_from_base ← try_u 32 offset;
  Some (MkTextBytes offset_from_base (bytes_of (td_bytes data))).

(** [(range.start - base) as u32], or an empty range. *)
Definition relative_range (module_base_svma : Z) (r : option range) : Z * Z :=
  match r with
  | Some r => (as_u 32 (r_start r -64 module_base_svma), as_u 32 (r_end r -64 module_base_svma))
  | None => (0, 0)
  end.

Definition unwind_compact (m : Module_ (ModuleUnwindDataInternal D)) (unwind_info : D) (eh_frame : option D)
    (stubs stub_helper : option range) (base_addresses : BaseAddresses) (text_data : option (TextByteData D))
    (is_first_frame : bool) (rel_lookup_address : Z) (read_stack : stack_reader) : impl_m (UnwindResult R) :=
  let unwinder := MkCompactUnwinder (bytes_of unwind_info) (text_bytes_of (base_svma m) text_data)
    (relative_range (base_svma m) stubs) (relative_range (base_svma m) stub_helper) in
  unwind_result ← st_lift (map_err (map_fault UE_CompactUnwindInfo)
    (compact_unwind_frame unwinder rel_lookup_address is_first_frame));
  match unwind_result with
  | CuiExecRule rule => mret (ExecRule rule)
  | NeedDwarf fde_offset =>
      eh_frame_data ← st_lift (ok_or (Fail NoDwarfData) eh_frame);
      with_dwarf (DwarfUnwinder_new (bytes_of eh_frame_data) EhFrame None base_addresses (base_svma m))
        is_first_frame rel_lookup_address fde_offset read_stack
  end.

(** The two arms with an index. *)
Definition unwind_indexed (m : Module_ (ModuleUnwindDataInternal D)) (type : UnwindSectionType)
    (index : DwarfCfiIndex) (section : D) (base_addresses : BaseAddresses)
    (is_first_frame : bool) (rel_lookup_address : Z) (read_stack : stack_reader) : impl_m (UnwindResult R) :=
  let unwinder := DwarfUnwinder_new (bytes_of section) type None base_addresses (base_svma m) in
  found ← st_lift (ok_or (Fail DwarfCfiIndexCouldNotFindAddress)
    (fde_offset_for_relative_address index rel_lookup_address));
  fde_offset ← st_lift (ok_or Panic found);
  with_dwarf unwinder is_first_frame rel_lookup_address fde_offset read_stack.

Definition unwind_frame_impl : frame_callback (D := ModuleUnwindDataInternal D) (R := R) (Regs := Regs) (C := C)
    (E := UnwinderError) := fun m address rel_lookup_address read_stack =>
  let is_first_frame := negb (is_return_address address) in
  match unwind_data m with
  | CompactUnwindInfoAndEhFrame unwind_info eh_frame stubs stub_helper base_addresses text_data =>
      unwind_compact m unwind_info eh_frame stubs stub_helper base_addresses text_data
        is_first_frame rel_lookup_address read_stack
  | EhFrameHdrAndEhFrame eh_frame_hdr eh_frame base_addresses =>
      let unwinder := DwarfUnwinder_new (bytes_of eh_frame) EhFrame (Some (bytes_of eh_frame_hdr))
        base_addresses (base_svma m) in
      fde_offset ← st_lift (ok_or (Fail EhFrameHdrCouldNotFindAddress)
        (get_fde_offset_for_relative_address unwinder rel_lookup_address));
      with_dwarf unwinder is_first_frame rel_lookup_address fde_offset read_stack
  | DwarfCfiIndexAndEhFrame index eh_frame base_addresses =>
      unwind_indexed m EhFrame index eh_frame base_addresses is_first_frame rel_lookup_address read_stack
  | DwarfCfiIndexAndDebugFrame index debug_frame base_addresses =>
      unwind_indexed m DebugFrame index debug_frame base_addresses is_first_frame rel_lookup_address read_stack
  | PeUnwindInfoData pdata rdata xdata text => fun s =>
      let '(r, regs) := pe_unwind_frame (MkPeSections pdata rdata xdata text) rel_lookup_address
        is_first_frame read_stack (st_regs s) in
      (map_err (map_fault UE_Pe) r, MkUState regs (st_cache s))
  | NoUnwindData => st_throw (Fail NoModuleUnwindData)
  end.
End unwind.

(** ** When a rule may be cached *)

(** The unwind context of gimli is scratch memory: a row does not depend on what an
    earlier use has left in it. *)
Definition context_is_scratch {C} `{Gimli C} : Prop := forall fde section bases c1 c2 a,
  (unwind_info_for_address fde section bases c1 a).1 = (unwind_info_for_address fde section bases c2 a).1.

Section cacheable.
  Context {D R Regs C : Type} (bytes_of : D -> list Z) `{UnwindRule R Regs} `{Gimli C}
    `{!DwarfUnwinding C R Regs} `{!DwarfUnwindingLaws C R Regs} `{MachoUnwindInfo}
    `{!CompactUnwindInfoUnwinding R} `{!PeUnwinding D R Regs} `{!PeUnwindingLaws D R Regs}.
  Context (Hscratch : context_is_scratch).
  Implicit Types (s : UState R Regs C) (rs : stack_reader) (rule : R).

(** [run] gives [rule] on every state and stack, and changes nothing but the gimli
    context. *)
Definition gives_rule (run : stack_reader -> ST (UState R Regs C) (fault UnwinderError) (UnwindResult R)) rule : Prop :=
  forall rs s, exists s', run rs s = (Ok (ExecRule rule), s') /\ st_regs s' = st_regs s /\
    rule_cache (st_cache s') = rule_cache (st_cache s).

Lemma with_dwarf_fixed unwinder first1 first2 rel fde_off rs s rule s' :
  with_dwarf unwinder first1 rel fde_off rs s = (Ok (ExecRule rule), s') ->
  gives_rule (with_dwarf unwinder first2 rel fde_off) rule.
Proof.
  unfold with_dwarf, unwind_frame_with_fde, unwind_info_for_fde. intros E rs2 s2.
  destruct (fde_from_offset _ _ _) as [fde|e]; [|done].
  set (section := MkUnwindSection _ _ _) in *.
  set (c1 := gimli_unwind_context (st_cache s)) in *. set (c2 := gimli_unwind_context (st_cache s2)).
  pose proof (Hscratch fde section (du_bases unwinder) c1 c2 (du_base_svma unwinder +64 rel)) as Hs.
  destruct (unwind_info_for_address _ _ _ c1 _) as [r1 c1'].
  destruct (unwind_info_for_address _ _ _ c2 _) as [r2 c2']. simpl in Hs. subst r2.
  destruct r1 as [row|e]; [|eexists; simplify_eq/=; by split_and!].
  destruct (dwarf_unwind_frame _ _ _ first1 _ rs _) as [r regs] eqn:Ed. destruct r as [r|e]; simplify_eq/=.
  rewrite (dwarf_rule_fixed _ _ _ _ first2 _ _ rs2 _ (st_regs s2) _ _ Ed). eexists. by split_and!.
Qed.

Lemma unwind_indexed_fixed m type index section bases first1 first2 rel rs s rule s' :
  unwind_indexed bytes_of m type index section bases first1 rel rs s = (Ok (ExecRule rule), s') ->
  gives_rule (unwind_indexed bytes_of m type index section bases first2 rel) rule.
Proof.
  unfold unwind_indexed. intros E rs2 s2. rewrite st_bind_spec in E |- *. unfold st_lift at 1 in E. unfold st_lift at 1.
  destruct (ok_or _ _) as [found|]; [|done]. rewrite st_bind_spec in E |- *. unfold st_lift at 1 in E. unfold st_lift at 1.
  destruct (ok_or _ _) as [off|]; [|done]. by eapply with_dwarf_fixed.
Qed.

Lemma unwind_compact_fixed m ui eh stubs helper bases text first rel rs s rule s' :
  unwind_compact bytes_of m ui eh stubs helper bases text first rel rs s = (Ok (ExecRule rule), s') ->
  gives_rule (unwind_compact bytes_of m ui eh stubs helper bases text first rel) rule.
Proof.
  unfold unwind_compact. intros E rs2 s2. rewrite st_bind_spec in E |- *. unfold st_lift at 1 in E. unfold st_lift at 1.
  destruct (map_err _ _) as [[r|off]|]; [| |done].
  - rewrite st_ret_spec in E |- *. eexists. by simplify_eq.
  - rewrite st_bind_spec in E |- *. unfold st_lift at 1 in E. unfold st_lift at 1.
    destruct (ok_or _ _) as [eh_frame|]; [|done]. by eapply with_dwarf_fixed.
Qed.

(** A rule that a module gives may be cached. If [unwind_frame_impl] gives a rule
    for a frame, it gives the same rule for the same relative address of the module
    and the same kind of frame whatever the stack, the registers and the caches hold,
    and it changes no register and no cached rule. *)
Theorem impl_rule_cacheable m a1 a2 rel rs s rule s'
    (Hkind : is_return_address a1 = is_return_address a2)
    (Hrule : unwind_frame_impl bytes_of m a1 rel rs s = (Ok (ExecRule rule), s')) :
  forall rs2 s2, exists s2', unwind_frame_impl bytes_of m a2 rel rs2 s2 = (Ok (ExecRule rule), s2') /\
    st_regs s2' = st_regs s2 /\ rule_cache (st_cache s2') = rule_cache (st_cache s2).
Proof.
  revert Hrule. unfold unwind_frame_impl. rewrite <- Hkind. intros Hrule rs2 s2.
  destruct (unwind_data m) as [? ? ? ? ? ?|hdr eh bases|? ? ?|? ? ?|pd rd xd tx|].
  - by eapply unwind_compact_fixed.
  - rewrite st_bind_spec in Hrule |- *. unfold st_lift at 1 in Hrule. unfold st_lift at 1.
    destruct (ok_or _ _) as [off|]; [|done]. by eapply with_dwarf_fixed.
  - by eapply unwind_indexed_fixed.
  - by eapply unwind_indexed_fixed.
  - destruct (pe_unwind_frame _ _ _ rs _) as [r regs] eqn:Ep. destruct r as [r|e]; simplify_eq/=.
    rewrite (pe_rule_fixed _ _ _ _ rs2 _ (st_regs s2) _ _ Ep). eexists. by split_and!.
  - done.
Qed.

(** The data of ELF and JIT modules: DWARF or nothing. *)
Definition dwarf_data (d : ModuleUnwindDataInternal D) : bool :=
  match d with
  | EhFrameHdrAndEhFrame _ _ _ | DwarfCfiIndexAndEhFrame _ _ _ | DwarfCfiIndexAndDebugFrame _ _ _
  | NoUnwindData => true
  | _ => false
  end.

(** For them the kind of frame does not matter. *)
Lemma dwarf_rule_cacheable m a1 a2 rel rs s rule s' :
  dwarf_data (unwind_data m) = true ->
  unwind_frame_impl bytes_of m a1 rel rs s = (Ok (ExecRule rule), s') ->
  gives_rule (unwind_frame_impl bytes_of m a2 rel) rule.
Proof.
  unfold unwind_frame_impl. intros Hd Hrule rs2 s2.
  destruct (unwind_data m) as [? ? ? ? ? ?|hdr eh bases|? ? ?|? ? ?|pd rd xd tx|]; try done.
  - rewrite st_bind_spec in Hrule |- *. unfold st_lift at 1 in Hrule. unfold st_lift at 1.
    destruct (ok_or _ _) as [off|]; [|done]. by eapply with_dwarf_fixed.
  - by eapply unwind_indexed_fixed.
  - by eapply unwind_indexed_fixed.
Qed.

Lemma with_dwarf_cache unwinder first rel fde_off rs s :
  rule_cache (st_cache (with_dwarf unwinder first rel fde_off rs s).2) = rule_cache (st_cache s).
Proof. unfold with_dwarf. by destruct (unwind_frame_with_fde _ _ _ _ _ _) as [r [regs ctx]]. Qed.

Lemma lift_then_cache {A B} (r : result (fault UnwinderError) A)
    (f : A -> ST (UState R Regs C) (fault UnwinderError) B) s :
  (forall a, rule_cache (st_cache (f a s).2) = rule_cache (st_cache s)) ->
  rule_cache (st_cache ((st_lift r ≫= f) s).2) = rule_cache (st_cache s).
Proof. intros Hf. rewrite st_bind_spec. unfold st_lift. by destruct r. Qed.

(** Unwinding a frame leaves the cached rules alone. *)
Lemma impl_keeps_cache m a rel rs s :
  rule_cache (st_cache (unwind_frame_impl bytes_of m a rel rs s).2) = rule_cache (st_cache s).
Proof.
  unfold unwind_frame_impl, unwind_compact, unwind_indexed.
  destruct (unwind_data m); try done; try (repeat (apply lift_then_cache; intros ?); apply with_dwarf_cache).
  - apply lift_then_cache. intros [rule|off]; [done|]. apply lift_then_cache. intros. apply with_dwarf_cache.
  - by destruct (pe_unwind_frame _ _ _ _ _).
Qed.

(** The rules of every module are stable. *)
Lemma impl_rule_stable (u : UnwinderInternal (ModuleUnwindDataInternal D)) :
  rule_stable (unwind_frame_impl bytes_of) u.
Proof.
  split; [intros; apply impl_keeps_cache|].
  intros a1 a2 m rel rs1 rs2 s1 s2 rule s1' _ _ Hk Hrule.
  destruct (impl_rule_cacheable m a1 a2 _ _ _ _ _ (eq_sym Hk) Hrule rs2 s2) as (s2' & E & Hr & _). eauto.
Qed.

(** Where there is DWARF data or no module, a rule found for one kind of frame is found
    for the other. *)
Lemma dwarf_finds (u : UnwinderInternal (ModuleUnwindDataInternal D)) a1 a2 rule s :
  (forall m rel, find_module_for_address u (address_for_lookup a1) = Some (m, rel) -> dwarf_data (unwind_data m) = true) ->
  address_for_lookup a1 = address_for_lookup a2 -> finds (unwind_frame_impl bytes_of) u a1 rule ->
  finds (unwind_frame_impl bytes_of) u a2 rule \/ rule = fallback_rule /\ failed (unwind_frame_impl bytes_of) u a1.
Proof.
  intros Hd Ha Hf. destruct (Hf a1 (fun _ => None) s eq_refl eq_refl) as (s1 & Hfind & _).
  unfold find_rule in Hfind.
  destruct (find_module_for_address u (address_for_lookup a1)) as [[m rel]|] eqn:Hm.
  - destruct (unwind_frame_impl bytes_of m a1 rel (fun _ => None) s) as [[[rule'|?|?]|[e|]] s'] eqn:Hr; simplify_eq.
    + left. intros address rs s2 Hal _. unfold find_rule. rewrite Hal, <- Ha, Hm.
      destruct (dwarf_rule_cacheable _ _ address _ _ _ _ _ (Hd _ _ eq_refl) Hr rs s2) as (s3 & -> & Hregs & _). eauto.
    + right. split; [done|]. by exists m, rel, (fun _ => None), s, e, s1.
  - left. intros address rs s2 Hal _. unfold find_rule. rewrite Hal, <- Ha, Hm.
    rewrite st_ret_spec in Hfind |- *. simplify_eq. eauto.
Qed.

(** C14: what the rule cache can change for the program's modules. A step through a
    cache that steps have filled returns what the step without a cache returns and
    leaves the same registers, unless the address is cached and: the module there has
    compact unwind info or a PE function table and the rule was found for a frame of
    the other kind; or the unwind data failed for a frame at the address, and the
    fallback rule was kept. On ELF and JIT modules only the second can happen. The
    cache stays sound for this module list and every other. *)
Theorem module_steps_cached (u : UnwinderInternal (ModuleUnwindDataInternal D)) address rs s
    (Ha : frame_address_wf address) (Hc : cache_wf (rule_cache (st_cache s)))
    (Hsound : sound (unwind_frame_impl bytes_of) u (rule_cache (st_cache s))) :
  let impl := unwind_frame_impl bytes_of in
  keeps_sound u address rs impl s /\
  (agrees_uncached u address rs impl s \/
   exists rule address2, runs_cached u address rs impl s rule /\
     address_for_lookup address2 = address_for_lookup address /\
     ((exists m rel, find_module_for_address u (address_for_lookup address) = Some (m, rel) /\
         dwarf_data (unwind_data m) = false /\ is_return_address address2 <> is_return_address address /\
         finds impl u address2 rule) \/
      rule = fallback_rule /\ failed impl u address2)).
Proof.
  cbn zeta. pose proof (impl_rule_stable u) as Hcb. split; [by apply with_cache_keeps_sound|].
  destruct (with_cache_explained u address rs (unwind_frame_impl bytes_of) s Hcb Ha Hsound)
    as [|(rule & address2 & Hrun & Heq & [[Hk Hf]|Hf])]; [by left| |right; exists rule, address2; auto].
  destruct (find_module_for_address u (address_for_lookup address)) as [[m rel]|] eqn:Hm;
    [destruct (dwarf_data (unwind_data m)) eqn:Hd|]; [| |clear Hk].
  2: { right. exists rule, address2. split_and!; [done..|left]. by exists m, rel. }
  all: destruct (dwarf_finds u address2 address rule s) as [Hf2|Hf2];
    [intros m' rel'; rewrite Heq, Hm; congruence|done|done
    |left; by eapply runs_cached_agrees|right; exists rule, address2; auto].
Qed.
End cacheable.

(** ** A concrete module: an indexed section with three FDEs *)

Section example.
(** The two operations that have a rule, on any state. *)
Definition example_resolve S (op : UnwindOperation) (st : UnwindState S) (s : S) : option (option Z) * S :=
  let rsp := us_read_register S st P_RSP s in
  match op with
  | UnStackAlloc offset => (Some None, us_write_register S st P_RSP (rsp +64 offset) s)
  | PopNonVolatile reg =>
      match us_read_stack S st rsp with
      | Some v => (Some None, us_write_register S st P_RSP (rsp +64 8) (us_write_register S st reg v s))
      | None => (None, s)
      end
  | OtherOperation _ => (None, s)
  end.

(** A function table without functions. *)
#[local] Instance example_pe : PeUnwindInfo := {
    PeInfo := unit;
    entries_lookup := fun _ _ => None;
    pe_info_parse := fun _ => None;
    frame_register := fun _ => None;
    chained_info_address := fun _ => None;
    unwind_operations := fun _ => [];
    parse_sequence := fun _ _ => None;
    resolve_operation := fun S _ => example_resolve S;
  }.
#[local] Existing Instance X86Compact.example_macho.
#[local] Instance example_gimli : Gimli unit :=
    Dwarf.example_gimli X86Dwarf.example_row_cfa X86Dwarf.example_row_rules.
#[local] Instance example_compact : CompactUnwindInfoUnwinding X86Rules.UnwindRuleX86_64 :=
    X86Compact.CompactUnwindInfoUnwinding_x86_64 (fun _ => X86Compact.Null).
#[local] Instance example_pe_unwinding : PeUnwinding (list Z) X86Rules.UnwindRuleX86_64 X86Regs.UnwindRegsX86_64 :=
    PeUnwinding_x86_64 id 8.

Definition example_info : ExplicitModuleSectionInfo (list Z) :=
  MkExplicit 4096 None None None None None None (Some (Range 9000 9003)) (Some [3; 0; 1]) None None None None None.

Definition example_module : Module_ (ModuleUnwindDataInternal (list Z)) :=
  Module_new id "" (Range 4096 4160) 4096 example_info.

Lemma impl_rule_cacheable_witness :
  forall rs s, exists s',
    unwind_frame_impl id example_module (ReturnAddress 4117) 20 rs s =
      (Ok (ExecRule (X86Rules.OffsetSpAndRestoreBp 2 0)), s') /\
    st_regs s' = st_regs s /\ rule_cache (st_cache s') = rule_cache (st_cache s).
Proof.
  assert (Hs : context_is_scratch (C := unit)) by done.
  set (s0 := MkUState (R := UnwindRuleX86_64) (regs_new 0 0 0) (MkCache tt RuleCache_new)).
  set (run := unwind_frame_impl id example_module (ReturnAddress 4117) 20 (fun _ => None) s0).
  apply (impl_rule_cacheable id (PeUnwindingLaws0 := PeUnwindingLaws_x86_64 id 8) Hs
    example_module (ReturnAddress 4117) (ReturnAddress 4117) 20 (fun _ => None) s0 _ run.2 eq_refl).
  assert (run.1 = Ok (ExecRule (OffsetSpAndRestoreBp 2 0))) as Hr by reflexivity.
  fold run. rewrite <- Hr. apply surjective_pairing.
Defined.

Definition example_list : UnwinderInternal (ModuleUnwindDataInternal (list Z)) := MkUnwinder [[example_module]] 5.
Definition example_state : UState UnwindRuleX86_64 UnwindRegsX86_64 unit :=
  MkUState (regs_new 4117 1000 2000) (MkCache tt RuleCache_new).

Lemma example_found : find_module_for_address example_list 4116 = Some (example_module, 20).
Proof. reflexivity. Qed.
Lemma module_steps_cached_witness :
  agrees_uncached example_list (ReturnAddress 4117) X86Dwarf.example_stack (unwind_frame_impl id) example_state.
Proof.
  assert (Hs : context_is_scratch (C := unit)) by done.
  assert (Hempty : forall a, cached (rule_cache (st_cache example_state)) a 5 = None).
  { intros a. cbn [example_state st_cache rule_cache]. by rewrite cached_new. }
  destruct (module_steps_cached id (PeUnwindingLaws0 := PeUnwindingLaws_x86_64 id 8) Hs example_list (ReturnAddress 4117)
    X86Dwarf.example_stack example_state) as [_ [H|(rule & address2 & [Hrun _] & _)]]; [..|exact H|].
  - unfold frame_address_wf, in_u. lia.
  - apply RuleCache_new_wf.
  - intros a rule _ Ha. by rewrite Hempty in Ha.
  - by rewrite Hempty in Hrun.
Defined.
End example.
