(* ===== verification/Arch.v ===== *)
(** * Register snapshots and the architectures' glue

    Models [src/src/arch.rs], [src/src/capture.rs] and [src/src/sigreturn.rs]: the
    C-visible [FhContext], how it is captured, and what the cursor needs of an
    architecture, as the class [Native] with an instance per architecture. *)
From S2P Require Import Prelude CodeAddress UnwindRule X86Regs X86Rules.
From S2P Require Aarch64Rules.

(** [FhContext]: x86_64 keeps rip, rsp, rbp in r0..r2; aarch64 keeps pc, sp, fp, lr
    in r0..r3. *)
Record FhContext : Type := MkFhContext { r0 : Z; r1 : Z; r2 : Z; r3 : Z; r4 : Z }.

#[export] Instance FhContext_eq_dec : EqDecision FhContext.
Proof. solve_decision. Defined.

Definition zeroed : FhContext := MkFhContext 0 0 0 0 0.
Definition context_ip (ctx : FhContext) : Z := r0 ctx.
Definition context_sp (ctx : FhContext) : Z := r1 ctx.
Definition initial_frame_address (ctx : FhContext) : FrameAddress :=
  from_instruction_pointer (context_ip ctx).

Definition context_wf (ctx : FhContext) : Prop :=
  u64 (r0 ctx) /\ u64 (r1 ctx) /\ u64 (r2 ctx) /\ u64 (r3 ctx) /\ u64 (r4 ctx).

Definition make_regs_x86_64 (ctx : FhContext) (_code_ptr_auth_mask : Z) : UnwindRegsX86_64 :=
  regs_new (r0 ctx) (r1 ctx) (r2 ctx).

Definition make_regs_aarch64 (ctx : FhContext) (code_ptr_auth_mask : Z) :
    Aarch64Rules.UnwindRegsAarch64 :=
  Aarch64Rules.new_with_ptr_auth_mask (Aarch64Rules.MkPtrAuthMask code_ptr_auth_mask)
    (r3 ctx) (r1 ctx) (r2 ctx).

(** ** Capturing the caller's registers *)

(** [fh_capture_context] on x86_64, at its entry: [rsp] points to the return
    address. The argument register ([rdi], or [rcx] on Windows) is the context. *)
Definition fh_capture_context_x86_64 (memory : Z -> Z) (rsp rbp : Z) : FhContext :=
  MkFhContext (memory rsp) (rsp +64 8) rbp 0 0.

(** On aarch64 the return address is in [x30]. *)
Definition fh_capture_context_aarch64 (sp x29 x30 : Z) : FhContext :=
  MkFhContext x30 sp x29 x30 0.

(** [fill_from_thread_state]: the words of the Darwin thread state, by index. *)
Definition fill_from_thread_state_x86_64 (p : Z -> Z) : FhContext :=
  MkFhContext (p 16) (p 7) (p 6) 0 0.
Definition fill_from_thread_state_aarch64 (p : Z -> Z) : FhContext :=
  MkFhContext (p 32) (p 31) (p 29) (p 30) 0.

(** [fill_from_os], by system; the arguments are the fields of the OS structure that are
    read. Linux's [gregs] and FreeBSD's fields are signed, and are indexed or named by
    constants of the [libc] crate. *)
Definition fill_from_os_linux_x86_64 (REG_RIP REG_RSP REG_RBP : Z) (gregs : Z -> Z) : FhContext :=
  MkFhContext (as_u 64 (gregs REG_RIP)) (as_u 64 (gregs REG_RSP)) (as_u 64 (gregs REG_RBP)) 0 0.
Definition fill_from_os_linux_aarch64 (pc sp : Z) (regs : Z -> Z) : FhContext :=
  MkFhContext pc sp (regs 29) (regs 30) 0.
Definition fill_from_os_freebsd_x86_64 (mc_rip mc_rsp mc_rbp : Z) : FhContext :=
  MkFhContext (as_u 64 mc_rip) (as_u 64 mc_rsp) (as_u 64 mc_rbp) 0 0.
Definition fill_from_os_freebsd_aarch64 (gp_elr gp_sp : Z) (gp_x : Z -> Z) (gp_lr : Z) : FhContext :=
  MkFhContext (as_u 64 gp_elr) (as_u 64 gp_sp) (as_u 64 (gp_x 29)) (as_u 64 gp_lr) 0.
Definition fill_from_os_macos_x86_64 (ss_rip ss_rsp ss_rbp : Z) : FhContext := MkFhContext ss_rip ss_rsp ss_rbp 0 0.
Definition fill_from_os_macos_aarch64 (ss_pc ss_sp ss_fp ss_lr : Z) : FhContext := MkFhContext ss_pc ss_sp ss_fp ss_lr 0.
Definition fill_from_os_windows_x86_64 (Rip Rsp Rbp : Z) : FhContext := MkFhContext Rip Rsp Rbp 0 0.
(** Any other system leaves the context zeroed. *)
Definition fill_from_os_other : FhContext := zeroed.

(** ** Signal frames on Linux arm64 *)

(** [mov x8, #139; svc #0]. *)
Definition SIGRETURN : list Z := [0xd2801168; 0xd4000001].
Definition SIGCONTEXT : Z := 128 + 176.
Definition SIGCONTEXT_REGS : Z := 8.
Definition SIGCONTEXT_SP : Z := 256.
Definition SIGCONTEXT_PC : Z := 264.

(** A program header of the vDSO: type, flags, offset, and the code words of the
    segment ([p_filesz / 4] words at [p_offset]). *)
Record Phdr : Type := MkPhdr { p_type : Z; p_flags : Z; p_offset : Z; p_code : list Z }.

(** [code.windows(2).position(|w| w == SIGRETURN)], from index [i]. *)
Fixpoint position_sigreturn (code : list Z) (i : Z) : option Z :=
  match code with
  | a :: (b :: _) as code' =>
      if decide ([a; b] = SIGRETURN) then Some i else position_sigreturn code' (i + 1)
  | _ => None
  end.

(** [find_trampoline], given the headers of the vDSO at [base] (0 for no vDSO). *)
Fixpoint find_trampoline (base : Z) (phdrs : list Phdr) : Z :=
  if base =? 0 then 0
  else
    match phdrs with
    | [] => 0
    | ph :: phdrs' =>
        if negb (p_type ph =? 1) || (Z.land (p_flags ph) 1 =? 0) then find_trampoline base phdrs'
        else
          match position_sigreturn (p_code ph) 0 with
          | Some i => base +64 (p_offset ph + 4 * i)
          | None => find_trampoline base phdrs'
          end
    end.

(** [init] fills [TRAMPOLINE], a [OnceLock], the first time. *)
Definition sigreturn_init (base : Z) (phdrs : list Phdr) (TRAMPOLINE : option Z) : option Z :=
  Some (default (find_trampoline base phdrs) TRAMPOLINE).

(** [is_trampoline], given the trampoline's address if [init] has run. *)
Definition is_trampoline (trampoline : option Z) (ip : Z) : bool :=
  match trampoline with Some t => negb (t =? 0) && (t =? ip) | None => false end.

(** [restore]: the interrupted pc, with the registers restored; they are unchanged
    when a field cannot be read. *)
Definition restore (read_stack : stack_reader) (regs : Aarch64Rules.UnwindRegsAarch64) :
    option Z * Aarch64Rules.UnwindRegsAarch64 :=
  match
    sigcontext ← checked_add 64 (Aarch64Rules.sp regs) SIGCONTEXT;
    let field offset := read_stack (sigcontext +64 offset) in
    fp ← field (SIGCONTEXT_REGS + 29 * 8);
    lr ← field (SIGCONTEXT_REGS + 30 * 8);
    sp ← field SIGCONTEXT_SP;
    pc ← field SIGCONTEXT_PC;
    Some (fp, lr, sp, pc)
  with
  | Some (fp, lr, sp, pc) =>
      (Some pc, Aarch64Rules.set_sp sp (Aarch64Rules.set_lr lr (Aarch64Rules.set_fp fp regs)))
  | None => (None, regs)
  end.

(** ** The interface the cursor uses *)

Class Native (Regs : Type) : Type := {
  make_regs : FhContext -> Z -> Regs;
  native_sp : Regs -> Z;
  ptr_auth_mask : Z -> Z;
  (** [None] on a target whose cursor does not look for signal trampolines. *)
  sigreturn : option ((Z -> bool) * (stack_reader -> Regs -> option Z * Regs));
}.

#[export] Instance Native_x86_64 : Native UnwindRegsX86_64 := {
  make_regs := make_regs_x86_64;
  native_sp := sp;
  ptr_auth_mask := fun _ => u64_MAX;
  sigreturn := None;
}.

(** [ptr_auth_mask] of [cursor.rs] on aarch64. *)
Definition ptr_auth_mask_aarch64 (max_code : Z) : Z :=
  if max_code =? 0 then u64_MAX else Z.shiftr u64_MAX (leading_zeros 64 max_code).

(** The instance of a Linux target, with the trampoline's address. *)
Definition Native_aarch64_linux (trampoline : option Z) : Native Aarch64Rules.UnwindRegsAarch64 := {|
  make_regs := make_regs_aarch64;
  native_sp := Aarch64Rules.sp;
  ptr_auth_mask := ptr_auth_mask_aarch64;
  sigreturn := Some (is_trampoline trampoline, restore);
|}.

Definition Native_aarch64 : Native Aarch64Rules.UnwindRegsAarch64 := {|
  make_regs := make_regs_aarch64;
  native_sp := Aarch64Rules.sp;
  ptr_auth_mask := ptr_auth_mask_aarch64;
  sigreturn := None;
|}.

(** What a cursor relies on: a fresh register file starts at the context's sp. *)
Class NativeLaws (Regs : Type) `{Native Regs} : Prop := {
  make_regs_sp : forall ctx mask, native_sp (make_regs ctx mask) = context_sp ctx;
}.

#[export] Instance NativeLaws_x86_64 : NativeLaws UnwindRegsX86_64.
Proof. by split. Qed.

#[export] Instance NativeLaws_aarch64_linux trampoline :
  NativeLaws Aarch64Rules.UnwindRegsAarch64 (H := Native_aarch64_linux trampoline).
Proof. by split. Qed.

#[export] Instance NativeLaws_aarch64 : NativeLaws Aarch64Rules.UnwindRegsAarch64 (H := Native_aarch64).
Proof. by split. Qed.

(** ** Properties *)

(** [fh_capture_context] captures the caller. The context it writes at its own
    entry is the context of the caller right after the call returns: unwinding the
    capturing function's frame (a function start: just the return address is on the
    stack) gives exactly the registers made from the captured context. *)
Theorem capture_is_callers_frame memory rsp rbp
    (Hsp : u64 (rsp + 8)) (Hrsp : u64 rsp) (Hra : memory rsp <> 0) (Hip : u64 (memory rsp)) :
  let ctx := fh_capture_context_x86_64 memory rsp rbp in
  forall entry_ip, exists regs',
    exec rule_for_function_start true (fun a => Some (memory a)) (regs_new entry_ip rsp rbp) =
      (Ok (Some (context_ip ctx)), regs') /\
    regs' = make_regs ctx u64_MAX.
Proof.
  intros ctx entry_ip. cbn [exec UnwindRule_x86_64 rule_for_function_start].
  unfold exec_x86_64, new_sp_bp. rewrite !st_bind_spec, st_get_spec, !st_bind_spec, st_get_spec.
  rewrite st_bind_spec, no_overflow_spec. change (sp (regs_new entry_ip rsp rbp)) with rsp.
  rewrite (proj2 (checked_add_Some 64 rsp 8 _) (conj eq_refl Hsp)). cbn.
  unfold finish_exec. rewrite st_bind_spec, read_word_spec.
  replace (rsp + 8 -64 8) with rsp by (unfold in_u in *; word_solve).
  rewrite (proj2 (Z.eqb_neq (memory rsp) 0)) by done.
  rewrite st_bind_spec, st_get_spec.
  rewrite (proj2 (Z.eqb_neq (rsp + 8) rsp)) by lia. cbn.
  eexists. split; [done|]. unfold make_regs_x86_64, ctx, fh_capture_context_x86_64. simpl.
  replace (rsp +64 8) with (rsp + 8) by (unfold in_u in *; word_solve). done.
Qed.

Lemma capture_is_callers_frame_witness :
  exists regs', exec rule_for_function_start true (fun a => Some (a + 0x400000)) (regs_new 1 0x1000 0x2000)
    = (Ok (Some 0x401000), regs') /\ regs' = make_regs (MkFhContext 0x401000 0x1008 0x2000 0 0) u64_MAX.
Proof.
  apply (capture_is_callers_frame (fun a => a + 0x400000) 0x1000 0x2000); unfold in_u; lia.
Defined.

(** Where [find_trampoline] finds the two instructions. *)
Lemma position_sigreturn_Some code i j :
  position_sigreturn code i = Some j ->
  exists k, j = i + Z.of_nat k /\ take 2 (drop k code) = SIGRETURN.
Proof.
  revert i. induction code as [|a [|b code] IH]; intros i; cbn [position_sigreturn]; [done..|].
  case_decide as Ha.
  - intros [= <-]. exists 0%nat. split; [lia|]. by rewrite drop_0.
  - intros (k & -> & Hk)%IH. exists (S k). split; [lia|done].
Qed.

(** The trampoline's address is 0 or the address of the two sigreturn
    instructions in an executable segment of the vDSO. *)
Theorem find_trampoline_sound base phdrs t :
  find_trampoline base phdrs = t ->
  t = 0 \/ exists ph k, ph ∈ phdrs /\ p_type ph = 1 /\ Z.land (p_flags ph) 1 <> 0 /\
    take 2 (drop k (p_code ph)) = SIGRETURN /\ t = base +64 (p_offset ph + 4 * Z.of_nat k).
Proof.
  intros <-. induction phdrs as [|ph phdrs IH]; simpl; (destruct (base =? 0); [by left|]); [by left|].
  destruct (negb (p_type ph =? 1) || (Z.land (p_flags ph) 1 =? 0)) eqn:E.
  - destruct IH as [->|(ph' & k & Hin & H)]; [by left|]. right. exists ph', k. split; [by right|done].
  - destruct (position_sigreturn (p_code ph) 0) as [i|] eqn:Ei.
    + right. apply position_sigreturn_Some in Ei as (k & -> & Hk). bool_to_prop.
      exists ph, k. split; [left|done].
    + destruct IH as [->|(ph' & k & Hin & H)]; [by left|]. right. exists ph', k. split; [by right|done].
Qed.

Lemma find_trampoline_sound_witness :
  let ph := MkPhdr 1 5 0x100 [7; 0xd2801168; 0xd4000001] in
  0xffff000000000104 = 0 \/ exists ph' k, ph' ∈ [ph] /\ p_type ph' = 1 /\ Z.land (p_flags ph') 1 <> 0 /\
    take 2 (drop k (p_code ph')) = SIGRETURN /\
    0xffff000000000104 = 0xffff000000000000 +64 (p_offset ph' + 4 * Z.of_nat k).
Proof. apply find_trampoline_sound. reflexivity. Defined.
