(* ===== verification/Progress.v ===== *)
(** * Progress up the stack

    What a walk needs of an architecture: [RuleRange] says which rules are in range, and
    [SafeRules] that those never panic; to end, the class [Climbing] has what the
    registers must satisfy, and [ClimbingLaws] says that executing a rule moves the
    stack pointer up by at least [stride] after the first frame, and no further than
    [reach] above what can be read. Instances for x86_64 and aarch64. *)
From S2P Require Import Prelude UnwindRule X86Regs X86Rules Arch.
From S2P Require Aarch64Rules.

(** What can be read: aligned 64-bit words below [top]. *)
Definition reads_below (top : Z) (rs : stack_reader) : Prop := forall a v,
  rs a = Some v -> u64 v /\ a mod 8 = 0 /\ Z.min (a + 8) u64_MAX <= top.

(** The rules whose fields are in the range of their types. *)
Class RuleRange (R : Type) : Type := rule_ok : R -> Prop.

(** Executing such a rule never panics, and the rules the code names are such rules. *)
Class SafeRules (R Regs : Type) `{UnwindRule R Regs, !RuleRange R} : Prop := {
  fallback_ok : rule_ok fallback_rule;
  exec_safe : forall r first rs regs, rule_ok r -> (exec r first rs regs).1 <> Err Panic;
}.

Class Climbing (Regs : Type) : Type := {
  regs_ok : Regs -> Prop;
  (** What holds of a stack and the registers of a frame with a return address. *)
  linked : stack_reader -> Regs -> Prop;
  stride : Z;
  reach : Z;
}.

Class ClimbingLaws (R Regs : Type) `{UnwindRule R Regs, Native Regs, !RuleRange R, !Climbing Regs} : Prop := {
  stride_pos : 0 < stride;
  init_ok : forall c mask, context_wf c -> regs_ok (make_regs c mask);
  (** No signal trampolines, past which the stack pointer is what the kernel saved. *)
  no_sigreturn : sigreturn = None;
  exec_climbs : forall top r first rs regs ra regs',
    reads_below top rs -> rule_ok r -> regs_ok regs -> exec r first rs regs = (Ok (Some ra), regs') ->
    ra <> 0 /\ u64 ra /\ regs_ok regs' /\ linked rs regs' /\ native_sp regs <= native_sp regs' /\
    (first = false -> linked rs regs -> native_sp regs + stride <= native_sp regs' <= top + reach);
}.

(** ** x86_64 *)

#[export] Instance RuleRange_x86_64 : RuleRange UnwindRuleX86_64 := rule_safe.
#[export] Instance SafeRules_x86_64 : SafeRules UnwindRuleX86_64 UnwindRegsX86_64.
Proof. split; [done|]. intros r first rs regs. apply exec_x86_64_no_panic. Qed.

(** The word below the stack pointer is the return address the frame was left with. *)
#[export] Instance Climbing_x86_64 : Climbing UnwindRegsX86_64 := {
  regs_ok := fun regs => length (X86Regs.regs regs) = 16%nat;
  linked := fun rs regs => u64 (sp regs) /\ rs (sp regs -64 8) = Some (ip regs);
  stride := 8;
  reach := 0;
}.

(** The word below a stack pointer can only be read if the pointer is aligned and in
    the stack. *)
Lemma below_sp top rs s v : reads_below top rs -> u64 s -> rs (s -64 8) = Some v ->
  u64 v /\ s mod 8 = 0 /\ (s = 0 \/ s <= top).
Proof.
  intros Hrs Hs Hv. destruct (Hrs _ _ Hv) as (Hu & Hal & Hle). split; [done|].
  destruct (Z.ltb_spec s 8).
  - replace (s -64 8) with (s - 8 + 2 ^ 64) in * by (unfold in_u in Hs; word_solve).
    assert (s = 0) as ->; [|split; [done|by left]]. unfold in_u in Hs. Z.div_mod_to_equations. lia.
  - replace (s -64 8) with (s - 8) in * by (unfold in_u in Hs; word_solve). unfold in_u, u64_MAX in *.
    Z.div_mod_to_equations. lia.
Qed.

Lemma advances_climbs top rs ra regs regs' :
  reads_below top rs -> u64 (sp regs) -> rs (sp regs -64 8) = Some (ip regs) -> advances rs ra regs regs' ->
  sp regs + 8 <= sp regs' <= top.
Proof.
  intros Hrs Hu Hr [Hip _ Hread Hle Hmoved _ Hu'].
  destruct (below_sp _ _ _ _ Hrs Hu Hr) as (_ & Ha & _). destruct (below_sp _ _ _ _ Hrs Hu' Hread) as (_ & Ha' & Ht).
  assert (sp regs' <> sp regs). { intros Heq. rewrite Heq, Hr in Hread. destruct Hmoved; congruence. }
  unfold in_u in *. Z.div_mod_to_equations. lia.
Qed.

#[export] Instance ClimbingLaws_x86_64 : ClimbingLaws UnwindRuleX86_64 UnwindRegsX86_64.
Proof.
  split; try done.
  - intros top r first rs regs ra regs' Hrs Hr Hl He. apply exec_x86_64_advances in He as Ha; [|apply Hr|done].
    destruct (below_sp _ _ _ _ Hrs (adv_u64 _ _ _ _ Ha) (adv_read _ _ _ _ Ha)) as (Hu & _ & _).
    split; [apply Ha|]. split; [done|]. split; [apply Ha|]. split; [|split; [apply Ha|]].
    + split; [apply Ha|]. rewrite (adv_ip _ _ _ _ Ha). apply Ha.
    + intros _ [Hsp Hlink]. pose proof (advances_climbs _ _ _ _ _ Hrs Hsp Hlink Ha). cbn. lia.
Qed.

(** ** aarch64 *)

#[export] Instance RuleRange_aarch64 : RuleRange Aarch64Rules.UnwindRuleAarch64 := Aarch64Rules.rule_wf.
#[local] Existing Instance Aarch64Rules.UnwindRule_aarch64.
#[export] Instance SafeRules_aarch64 : SafeRules Aarch64Rules.UnwindRuleAarch64 Aarch64Rules.UnwindRegsAarch64.
Proof. split; [done|]. intros r first rs regs _. apply Aarch64Rules.exec_aarch64_no_panic. Qed.

(** A frame's return address comes from the stack at a signed 16-bit distance in words
    from a pointer, and the new stack pointer lies at an unsigned 16-bit distance from it:
    in units of 16 bytes from [sp], in words from [fp]. *)
#[export] Instance Climbing_aarch64 : Climbing Aarch64Rules.UnwindRegsAarch64 := {
  regs_ok := fun regs => u64 (Aarch64Rules.lr regs) /\ u64 (Aarch64Rules.sp regs) /\ u64 (Aarch64Rules.fp regs);
  linked := fun _ _ => True;
  stride := 1;
  reach := 2 ^ 15 * 8 + 2 ^ 16 * 16;
}.

Lemma strip_u64 mask v : u64 v -> u64 (Aarch64Rules.strip_ptr_auth mask v).
Proof.
  intros Hv. unfold Aarch64Rules.strip_ptr_auth.
  assert (Z.land v (Z.ones 64) = v) as <- by (rewrite Z.land_ones by lia; by apply Z.mod_small).
  rewrite <- Z.land_assoc, (Z.land_comm _ (Aarch64Rules.mask_bits mask)), Z.land_assoc, Z.land_ones by lia.
  by apply Z.mod_pos_bound.
Qed.

(** A word that is read lies in the stack, within a signed 16-bit distance of its base. *)
Lemma read_at_below {S} top rs base off v (s s' : S) : reads_below top rs -> u64 base -> i16 off ->
  Aarch64Rules.read_at rs base off s = (Ok v, s') -> s' = s /\ u64 v /\ base <= top + 2 ^ 15 * 8.
Proof.
  intros Hrs Hb Ho Hr. unfold Aarch64Rules.read_at in Hr. rewrite st_bind_spec, no_overflow_spec in Hr.
  destruct (AddSigned.checked_add_signed base (off * 8)) as [loc|] eqn:E; [|done]. rewrite read_word_spec in Hr.
  destruct (rs loc) as [w|] eqn:Ew; [|done]. simplify_eq.
  apply AddSigned.checked_add_signed_u64_Some in E as [-> Hu]; [|done|unfold in_s in *; lia].
  destruct (Hrs _ _ Ew) as (Hv & _ & Hle). split_and!; [done|done|]. unfold in_u, in_s, u64_MAX in *. lia.
Qed.

Lemma read_word_below {S} top rs a v (s s' : S) : reads_below top rs -> read_word rs a s = (Ok v, s') ->
  s' = s /\ u64 v /\ Z.min (a + 8) u64_MAX <= top.
Proof.
  intros Hrs Hr. rewrite read_word_spec in Hr. destruct (rs a) as [w|] eqn:Ew; [|done]. simplify_eq.
  destruct (Hrs _ _ Ew) as (Hv & _ & Hle). by split_and!.
Qed.

Lemma new_lr_sp_fp_reach top r first rs regs new_lr new_sp new_fp regs' :
  reads_below top rs -> rule_ok r -> regs_ok regs ->
  Aarch64Rules.new_lr_sp_fp r first rs regs = (Ok (Some (new_lr, new_sp, new_fp)), regs') ->
  u64 new_lr /\ u64 new_sp /\ u64 new_fp /\ (first = false -> new_sp <= top + reach).
Proof.
  intros Hrs Hr (Hl & Hs & Hf) He. unfold Aarch64Rules.new_lr_sp_fp in He. rewrite st_bind_spec, st_get_spec in He.
  cbv zeta in He. cbn [reach Climbing_aarch64].
  destruct r; cbn [rule_ok RuleRange_aarch64 Aarch64Rules.rule_wf] in Hr;
    repeat match goal with
    | H : (_ ≫= _) _ = (Ok _, _) |- _ => apply st_bind_Ok in H as (? & ? & ? & H)
    | H : no_overflow (checked_add ?w ?a ?b) _ = _ |- _ =>
        let E := fresh in rewrite no_overflow_spec in H; destruct (checked_add w a b) eqn:E; [injection H as <- <-|done];
        apply checked_add_Some in E as [-> E]
    | H : (if ?b then _ else _) _ = _ |- _ => let E := fresh "E" in destruct b eqn:E; try done
    | H : read_word _ _ _ = (Ok _, _) |- _ => eapply read_word_below in H as (-> & ? & ?); [|done]
    | H : Aarch64Rules.read_at _ _ _ _ = (Ok _, _) |- _ => eapply read_at_below in H as (-> & ? & ?); [|done|done|tauto]
    | H : mret _ _ = (Ok _, _) |- _ => rewrite st_ret_spec in H; simplify_eq
    end.
  all: bool_to_prop; split_and!; try done; try (intros ?; congruence); unfold in_u, u64_MAX in *; lia.
Qed.

#[export] Instance ClimbingLaws_aarch64 :
  ClimbingLaws Aarch64Rules.UnwindRuleAarch64 Aarch64Rules.UnwindRegsAarch64 (H0 := Native_aarch64).
Proof.
  split; try done.
  - intros c mask (_ & H1 & H2 & H3 & _). split_and!; [by apply strip_u64|done|done].
  - intros top r first rs regs ra regs' Hrs Hr Hregs He.
    apply Aarch64Rules.exec_aarch64_Some in He as (new_lr & new_sp & new_fp & He & -> & Hne & Hmoved & ->).
    apply Aarch64Rules.new_lr_sp_fp_monotone in He as Hle; [|done].
    destruct (new_lr_sp_fp_reach _ _ _ _ _ _ _ _ _ Hrs Hr Hregs He) as (Hl & Hs & Hf & Htop).
    pose proof (strip_u64 (Aarch64Rules.lr_mask regs) _ Hl).
    split; [done|]. split; [done|]. split; [done|]. split; [done|]. split; [done|].
    intros -> _. specialize (Hmoved eq_refl). specialize (Htop eq_refl). cbn in *. lia.
Qed.
