(* ===== verification/Typing.v ===== *)
(** * Machine words stay machine words

    The code's integers have a fixed width, and the model writes them as [Z] with their
    wrap-around and checks. This file gives them types again: [keeps I m Q] says that a
    computation keeps the type [I] of its state and that its results have the type [Q],
    and the classes [Typed] and [TypedLaws] ask it of an architecture's registers and
    rules. Every way of unwinding a frame has such a type: rules, rows of DWARF, PE
    operations, compact unwind info. *)
From S2P Require Import Prelude CodeAddress AddSigned UnwindRule X86Regs X86Rules ModuleList RuleCache Sections Dwarf X86Dwarf.
From S2P Require Import Compact X86Analysis X86Compact Pe Unwinder ModuleData Arch Progress.
From S2P Require Aarch64Rules Aarch64Dwarf Aarch64Analysis Aarch64Compact.
#[local] Existing Instance AddSigned_u64.

(** ** Types of computations *)

Definition keeps {S E A} (I : S -> Prop) (m : ST S E A) (Q : A -> Prop) : Prop :=
  forall s, I s -> I (m s).2 /\ match (m s).1 with Ok a => Q a | Err _ => True end.

Create HintDb typing.

Section keeps.
  Context {S E A : Type} (I : S -> Prop).
  Implicit Types (m : ST S E A) (Q : A -> Prop).

Lemma keeps_ret a Q : Q a -> keeps I (mret a : ST S E A) Q.
Proof. by intros HQ s HI. Qed.

Lemma keeps_bind {B} m (f : A -> ST S E B) Q (Q' : B -> Prop) :
  keeps I m Q -> (forall a, Q a -> keeps I (f a) Q') -> keeps I (m ≫= f) Q'.
Proof.
  intros Hm Hf s HI. rewrite st_bind_spec. destruct (Hm s HI) as [HI' HQ].
  destruct (m s) as [[a|e] s']; [by apply Hf|done].
Qed.

Lemma keeps_get : keeps I (st_get : ST S E S) I.
Proof. by intros s HI. Qed.

Lemma keeps_modify (f : S -> S) : (forall s, I s -> I (f s)) -> keeps I (st_modify f : ST S E unit) (fun _ => True).
Proof. intros Hf s HI. split; [by apply Hf|done]. Qed.

Lemma keeps_throw (e : E) Q : keeps I (st_throw e : ST S E A) Q.
Proof. by intros s HI. Qed.

Lemma keeps_lift (r : result E A) Q : (forall a, r = Ok a -> Q a) -> keeps I (st_lift r) Q.
Proof. intros HQ s HI. unfold st_lift. destruct r; [split; [done|by apply HQ]|done]. Qed.

Lemma keeps_weaken m Q Q' : keeps I m Q -> (forall a, Q a -> Q' a) -> keeps I m Q'.
Proof. intros Hm HQ s HI. destruct (Hm s HI) as [HI' Hr]. split; [done|]. destruct (m s).1; [by apply HQ|done]. Qed.

Lemma keeps_Ok m Q s a s' : keeps I m Q -> I s -> m s = (Ok a, s') -> I s' /\ Q a.
Proof. intros Hm HI E1. specialize (Hm s HI). by rewrite E1 in Hm. Qed.
End keeps.

(** One step into a computation: binds and branches. *)
Ltac keeps_step :=
  match goal with
  | |- keeps _ (mret _) _ => apply keeps_ret
  | |- keeps _ (st_throw _) _ => apply keeps_throw
  | |- keeps _ (fail _) _ => apply keeps_throw
  | |- keeps ?I (st_get ≫= _) _ => eapply keeps_bind; [apply keeps_get|intros ? ?]
  | |- keeps _ (st_modify _ ≫= _) _ => eapply keeps_bind; [apply keeps_modify|intros _ _]
  | |- keeps _ (_ ≫= _) _ => eapply keeps_bind; [solve [eauto with typing]|intros ? ?]
  | |- keeps _ (if ?b then _ else _) _ => destruct b eqn:?
  | |- keeps _ (let '(_, _) := ?p in _) _ => destruct p eqn:?
  end.
Ltac keeps_steps := repeat (keeps_step; cbv beta zeta in *).

(** A reader that gives machine words. *)
Definition typed_reader (rs : stack_reader) : Prop := forall a v, rs a = Some v -> u64 v.

Lemma keeps_read_word {S} (I : S -> Prop) rs a : typed_reader rs -> keeps I (read_word rs a) (in_u 64).
Proof. intros Hrs s HI. rewrite read_word_spec. destruct (rs a) eqn:E; [split; [done|by eapply Hrs]|done]. Qed.

Lemma keeps_checked_add {S} (I : S -> Prop) a b : keeps I (no_overflow (checked_add 64 a b)) (in_u 64).
Proof. apply keeps_lift. intros v Hv. destruct (checked_add 64 a b) as [w|] eqn:E; [|done]. apply checked_add_Some in E as [-> Hu]. naive_solver. Qed.

#[export] Hint Resolve keeps_read_word keeps_checked_add : typing.

(** ** Registers and rules *)

(** The registers of an architecture hold machine words. *)
Class Typed (Regs : Type) : Type := regs_typed : Regs -> Prop.

Class TypedLaws (R Regs : Type) `{UnwindRule R Regs, Native Regs, !Typed Regs} : Prop := {
  make_regs_typed : forall ctx mask, context_wf ctx -> regs_typed (make_regs ctx mask);
  native_sp_typed : forall regs, regs_typed regs -> u64 (native_sp regs);
  exec_keeps : forall r first rs, typed_reader rs -> keeps regs_typed (exec r first rs) (from_option u64 True);
  restore_typed : forall is_tr restore rs regs, sigreturn = Some (is_tr, restore) -> typed_reader rs ->
    regs_typed regs -> from_option u64 True (restore rs regs).1 /\ regs_typed (restore rs regs).2;
}.

(** *** x86_64 *)

#[export] Instance Typed_x86_64 : Typed UnwindRegsX86_64 := regs_wf.

Lemma set_ip_wf v regs : u64 v -> regs_wf regs -> regs_wf (set_ip v regs).
Proof. by intros Hv (H1 & H2 & _). Qed.

Lemma reg_set_typed reg v regs : u64 v -> regs_wf regs -> regs_wf (reg_set reg v regs).
Proof. intros. by apply reg_set_wf. Qed.

#[export] Hint Resolve set_ip_wf reg_set_typed reg_get_u64 : typing.

Lemma pop_registers_typed rs to_pop s : typed_reader rs -> u64 s ->
  keeps regs_wf (pop_registers rs to_pop s) (in_u 64).
Proof.
  intros Hrs. revert s. induction to_pop as [|reg to_pop IH]; intros s Hs; cbn [pop_registers]; keeps_steps; [done| |by apply IH].
  intros regs. by apply reg_set_typed.
Qed.
#[export] Hint Resolve pop_registers_typed : typing.

(** A pair of words. *)
Definition words2 (p : Z * Z) : Prop := u64 p.1 /\ u64 p.2.

Lemma keeps_checked_add_signed {S} (I : S -> Prop) a b : keeps I (no_overflow (checked_add_signed a b)) (in_u 64).
Proof.
  apply keeps_lift. intros v Hv. cbn in Hv. unfold checked_add_signed_at in Hv.
  destruct (_ || _); [|done]. injection Hv as <-. by apply as_u_range.
Qed.

Lemma keeps_or_panic {S A} (I : S -> Prop) (x : option A) : keeps I (or_panic x) (fun _ => True).
Proof. by apply keeps_lift. Qed.

#[export] Hint Resolve keeps_checked_add_signed keeps_or_panic : typing.

Lemma new_sp_bp_typed r first rs : typed_reader rs -> keeps regs_wf (new_sp_bp r first rs) (from_option words2 True).
Proof.
  intros Hrs. unfold new_sp_bp. destruct r; keeps_steps; try done; try by split; [done|apply reg_get_u64].
  eapply (keeps_bind _ _ _ (in_u 64)); [|by intros]. destruct (rs _) eqn:E; keeps_steps; [by eapply Hrs|by apply reg_get_u64].
Qed.


Lemma finish_exec_typed sp0 new_sp new_bp rs : typed_reader rs -> u64 new_sp -> u64 new_bp ->
  keeps regs_wf (finish_exec sp0 new_sp new_bp rs) (from_option u64 True).
Proof. intros Hrs Hs Hb. unfold finish_exec. keeps_steps; try done; intros; [by apply set_ip_wf|by apply reg_set_wf..]. Qed.

#[export] Hint Resolve new_sp_bp_typed finish_exec_typed : typing.

Lemma exec_x86_64_typed r first rs : typed_reader rs -> keeps regs_wf (exec_x86_64 r first rs) (from_option u64 True).
Proof. intros Hrs. unfold exec_x86_64. keeps_steps. destruct a0 as [[s b]|]; keeps_steps; [|done]. by apply finish_exec_typed; [|apply H0..]. Qed.

#[export] Instance TypedLaws_x86_64 : TypedLaws UnwindRuleX86_64 UnwindRegsX86_64.
Proof.
  split; try done.
  - intros ctx mask (H0 & H1 & H2 & _). repeat apply reg_set_wf; try done. split_and!; [done|by repeat constructor|done].
  - intros regs Hr. by apply reg_get_u64.
  - intros r first rs. apply exec_x86_64_typed.
Qed.

(** *** aarch64 *)

#[export] Instance Typed_aarch64 : Typed Aarch64Rules.UnwindRegsAarch64 := fun regs =>
  u64 (Aarch64Rules.lr regs) /\ u64 (Aarch64Rules.sp regs) /\ u64 (Aarch64Rules.fp regs).

Section aarch64.
Import Aarch64Rules.
Implicit Types (regs : UnwindRegsAarch64).

Lemma set_lr_typed v regs : u64 v -> regs_typed regs -> regs_typed (set_lr v regs).
Proof. intros Hv (H1 & H2 & H3). split_and!; [by apply strip_u64|done|done]. Qed.
Lemma set_sp_typed v regs : u64 v -> regs_typed regs -> regs_typed (set_sp v regs).
Proof. by intros Hv (H1 & H2 & H3). Qed.
Lemma set_fp_typed v regs : u64 v -> regs_typed regs -> regs_typed (set_fp v regs).
Proof. by intros Hv (H1 & H2 & H3). Qed.

Lemma read_at_typed {S} (I : S -> Prop) rs base off : typed_reader rs -> keeps I (read_at rs base off) (in_u 64).
Proof. intros Hrs. unfold read_at. keeps_steps. by apply keeps_read_word. Qed.

#[local] Hint Resolve set_lr_typed set_sp_typed set_fp_typed read_at_typed : typing.

Definition words3 (p : Z * Z * Z) : Prop := u64 p.1.1 /\ u64 p.1.2 /\ u64 p.2.

Lemma new_lr_sp_fp_typed r first rs : typed_reader rs -> keeps regs_typed (new_lr_sp_fp r first rs) (from_option words3 True).
Proof.
  intros Hrs. unfold new_lr_sp_fp. keeps_step. destruct H as (Hl & Hs & Hf). destruct r; keeps_steps; done.
Qed.
#[local] Hint Resolve new_lr_sp_fp_typed : typing.

Lemma exec_aarch64_typed r first rs : typed_reader rs -> keeps regs_typed (exec_aarch64 r first rs) (from_option u64 True).
Proof.
  intros Hrs. unfold exec_aarch64. keeps_steps. destruct a0 as [[[l s] f]|]; keeps_steps; try done; destruct H0 as (Hl & Hs & Hf).
  all: try (intros; by auto with typing). by apply strip_u64.
Qed.
End aarch64.

Lemma restore_aarch64_typed rs regs : typed_reader rs -> regs_typed regs ->
  from_option u64 True (restore rs regs).1 /\ regs_typed (restore rs regs).2.
Proof.
  intros Hrs Hr. unfold restore. destruct (checked_add 64 _ SIGCONTEXT) as [base|]; [|done]. cbn [mbind option_bind].
  repeat match goal with
    | |- context [rs ?a ≫= _] => destruct (rs a) eqn:?; cbn [mbind option_bind]; [|done]
    end.
  split; [by eapply Hrs|]. split_and!; [apply strip_u64|..]; by eapply Hrs.
Qed.

#[local] Existing Instance Aarch64Rules.UnwindRule_aarch64.
#[export] Instance TypedLaws_aarch64_linux trampoline :
  TypedLaws Aarch64Rules.UnwindRuleAarch64 Aarch64Rules.UnwindRegsAarch64 (H0 := Native_aarch64_linux trampoline).
Proof.
  split.
  - intros ctx mask (_ & H1 & H2 & H3 & _). split_and!; [by apply strip_u64|done|done].
  - by intros regs (_ & H & _).
  - intros r first rs. apply exec_aarch64_typed.
  - intros ? ? rs regs [= <- <-]. apply restore_aarch64_typed.
Qed.

#[export] Instance TypedLaws_aarch64 :
  TypedLaws Aarch64Rules.UnwindRuleAarch64 Aarch64Rules.UnwindRegsAarch64 (H0 := Native_aarch64).
Proof. destruct (TypedLaws_aarch64_linux None) as [H1 H2 H3 _]. by split. Qed.

(** ** Unwinding with unwind data *)

(** A frame's result: an address is a word; a rule is executed later. *)
Definition unwound {R} (r : UnwindResult R) : Prop :=
  match r with ExecRule _ => True | Uncacheable a | Interrupted a => u64 a end.

(** gimli evaluates on 64-bit values. *)
Fixpoint evaluation_typed (e : evaluation) : Prop :=
  match e with
  | Complete locations => Forall (fun l => match l with Address a => u64 a | OtherLocation => True end) locations
  | RequiresRegister _ resume | RequiresMemory _ _ _ resume => forall v, u64 v -> evaluation_typed (resume v)
  | RequiresOther | EvaluationFailed => True
  end.
Definition evaluations_typed {C} `{Gimli C} : Prop := forall expr enc, evaluation_typed (evaluation_new expr enc).

Lemma add_i64_typed x o v : add_i64 x o = Some v -> u64 v.
Proof. intros (-> & _ & ?)%add_i64_Some. unfold in_u. lia. Qed.

Section rows.
  Context {C Regs : Type} `{Gimli C, DwarfUnwindRegs Regs} (P : Regs -> Prop).
  Context (get_typed : forall regs register v, P regs -> dwarf_get regs register = Some v -> u64 v).
  Context (Hgimli : evaluations_typed).
  Implicit Types (regs : Regs).

Lemma eval_loop_typed e regs rs v : P regs -> typed_reader rs -> evaluation_typed e ->
  eval_loop e regs rs = Some v -> u64 v.
Proof.
  intros Hr Hrs. induction e as [locations|register resume IH|a size space resume IH| |]; cbn; try done.
  - intros Hl He. destruct (last locations) as [[a|]|] eqn:E; simplify_eq. apply last_Some_elem_of in E.
    rewrite Forall_forall in Hl. by apply (Hl _ E).
  - intros Hl He. destruct (dwarf_get regs register) as [w|] eqn:E; [|done]. eapply (IH w); [|done]. eapply Hl, get_typed; done.
  - intros Hl He. destruct (_ && _); [|done]. destruct (rs a) as [w|] eqn:E; [|done]. eapply (IH w); [|done]. by eapply Hl, Hrs.
Qed.

Lemma eval_cfa_rule_typed section rule enc regs rs v : P regs -> typed_reader rs ->
  eval_cfa_rule section rule enc regs rs = Some v -> u64 v.
Proof.
  intros Hr Hrs. destruct rule as [register offset|expr]; cbn; intros (x & Hx & Hv)%bind_Some.
  - by eapply add_i64_typed.
  - by eapply eval_loop_typed.
Qed.

Lemma eval_register_rule_typed section rule cfa enc val regs rs v : P regs -> typed_reader rs -> u64 val ->
  eval_register_rule section rule cfa enc val regs rs = Some v -> u64 v.
Proof.
  intros Hr Hrs Hval. unfold eval_register_rule. intros (r & _ & Hv)%bind_Some.
  destruct r; try done; repeat (apply bind_Some in Hv as (? & ? & Hv)); eauto using add_i64_typed, eval_loop_typed; [by simplify_eq|by apply try_u_Some in Hv as [-> ?]].
Qed.
End rows.

(** [DwarfUnwinding] keeps the registers typed. *)
Class DwarfTyped (C R Regs : Type) `{DwarfUnwinding C R Regs, !Typed Regs} : Prop :=
  dwarf_frame_typed : forall section row enc first signal rs, typed_reader rs ->
    keeps regs_typed (dwarf_unwind_frame section row enc first signal rs) unwound.

Lemma dwarf_get_x86_64_typed (regs : UnwindRegsX86_64) register v : regs_wf regs -> dwarf_get regs register = Some v -> u64 v.
Proof.
  intros Hr. unfold dwarf_get, DwarfUnwindRegs_x86_64. repeat case_match; intros; simplify_eq; [apply Hr|by apply reg_get_u64..].
Qed.

Lemma DwarfTyped_x86_64 {C} `{Gimli C} : evaluations_typed -> DwarfTyped C UnwindRuleX86_64 UnwindRegsX86_64.
Proof.
  intros Hg section row enc first signal rs Hrs. cbn. unfold dwarf_unwind_frame_x86_64.
  destruct (if signal then _ else _); [by apply keeps_ret|]. intros regs Hr.
  destruct (generic_unwind_frame section row enc first signal rs regs) as [res regs'] eqn:E.
  apply generic_path_x86_64 in E. destruct res as [r|e]; [|by subst].
  destruct E as (cfa & ra & Hcfa & Hra & _ & _ & -> & ->). pose proof (eval_cfa_rule_typed regs_wf dwarf_get_x86_64_typed Hg) as Hc.
  pose proof (eval_register_rule_typed regs_wf dwarf_get_x86_64_typed Hg) as Hreg.
  specialize (Hc _ _ _ _ _ _ Hr Hrs Hcfa).
  assert (u64 ra) as Hu. { destruct (eval_register_rule section (row_register row DW_RA) _ _ _ _ _) eqn:Er; [|by eapply Hrs].
    subst. eapply Hreg; [done|done| |done]. apply Hr. }
  split; [|by destruct signal]. apply reg_set_wf; [|done]. apply reg_set_wf; [by apply set_ip_wf|].
  destruct (eval_register_rule section (row_register row DW_RBP) _ _ _ _ _) eqn:Er; [|by apply reg_get_u64].
  eapply Hreg; [done|done| |done]. by apply reg_get_u64.
Qed.

Section aarch64_dwarf.
Import Aarch64Rules Aarch64Dwarf.

Lemma dwarf_get_aarch64_typed (regs : UnwindRegsAarch64) register v : regs_typed regs -> dwarf_get regs register = Some v -> u64 v.
Proof.
  intros (H1 & H2 & H3). unfold dwarf_get, DwarfUnwindRegs_aarch64. repeat case_match; intros; by simplify_eq.
Qed.

Lemma DwarfTyped_aarch64 {C} `{Gimli C} : evaluations_typed -> DwarfTyped C UnwindRuleAarch64 UnwindRegsAarch64.
Proof.
  intros Hg section row enc first signal rs Hrs. cbn. unfold dwarf_unwind_frame_aarch64.
  destruct (translate_into_unwind_rule _ _ _); [by apply keeps_ret|]. unfold generic_unwind_frame. keeps_step.
  pose proof (eval_cfa_rule_typed regs_typed dwarf_get_aarch64_typed Hg) as Hc.
  pose proof (eval_register_rule_typed regs_typed dwarf_get_aarch64_typed Hg) as Hreg.
  eapply (keeps_bind _ _ _ (in_u 64)); [apply keeps_lift; intros v Hv%ok_or_Ok; by eapply Hc|]. intros cfa Hcfa.
  eapply (keeps_bind _ _ _ words2).
  { apply keeps_lift. intros p. unfold recovered_fp_lr. destruct H0 as (Hl & Hs & Hf).
    assert (Hopt : forall rule val, u64 val -> from_option u64 True (eval_register_rule section rule cfa enc val a rs)).
    { intros rule val Hval. destruct (eval_register_rule _ _ _ _ _ _ _) eqn:E; [|done]. by eapply Hreg in E. }
    pose proof (Hopt (row_register row DW_X29) (fp a) Hf) as Hx. pose proof (Hopt (row_register row DW_X30) (lr a) Hl) as Hy.
    revert Hx Hy. generalize (eval_register_rule section (row_register row DW_X29) cfa enc (fp a) a rs).
    generalize (eval_register_rule section (row_register row DW_X30) cfa enc (lr a) a rs). intros y x Hx Hy.
    destruct (negb first); [|intros [= <-]; split; [by destruct x|by destruct y]].
    destruct (_ <=? _); [done|]. unfold mret, result_ret. destruct x, y; intros; simplify_eq/=; by split. }
  intros [f l] [Hf' Hl']. keeps_steps; try done; intros; [by apply set_fp_typed|by apply set_sp_typed|by apply set_lr_typed].
Qed.
End aarch64_dwarf.

(** pe-unwind-info works on 64-bit values: an operation on a state whose registers and
    stack hold words leaves such a state. *)
Definition resolve_typed `{PeUnwindInfo} : Prop := forall S (I : S -> Prop) info op (st : UnwindState S) s,
  (forall r s, I s -> u64 (us_read_register S st r s)) -> typed_reader (us_read_stack S st) ->
  (forall r v s, u64 v -> I s -> I (us_write_register S st r v s)) -> I s ->
  let '(res, s') := resolve_operation S info op st s in
  I s' /\ forall ra, res = Some (Some ra) -> u64 ra.

(** [PeUnwinding] keeps the registers typed. *)
Class PeTyped (D R Regs : Type) `{!PeUnwinding D R Regs, !Typed Regs} : Prop :=
  pe_frame_typed : forall sections a first rs, typed_reader rs ->
    keeps regs_typed (pe_unwind_frame (R := R) sections a first rs) unwound.

Lemma keeps_lift_any {S E A} (I : S -> Prop) (r : result E A) : keeps I (st_lift r) (fun _ => True).
Proof. by apply keeps_lift. Qed.

Section pe.
  Context {D : Type} (bytes_of : D -> list Z) `{PeUnwindInfo} (memory_limit : nat) (Hpe : resolve_typed).

Lemma pe_read_stack_typed rs a : typed_reader rs -> keeps regs_wf (pe_read_stack rs a) (in_u 64).
Proof. intros Hrs. apply keeps_lift. intros v Hv%ok_or_Ok. by eapply Hrs. Qed.
#[local] Hint Resolve pe_read_stack_typed : typing.

Lemma pop_return_address_typed rs : typed_reader rs -> keeps regs_wf (pop_return_address rs) (in_u 64).
Proof. intros Hrs. unfold pop_return_address. keeps_steps; [|done]. intros. apply reg_set_wf; [done|by apply as_u_range]. Qed.

Lemma run_epilog_typed frame rs instructions : typed_reader rs -> keeps regs_wf (run_epilog frame rs instructions) (fun _ => True).
Proof.
  intros Hrs. induction instructions as [|i instructions IH]; cbn [run_epilog]; keeps_steps; [done|].
  assert (Hset : forall v s, regs_wf s -> regs_wf (set_rsp (as_u 64 v) s)) by (intros; apply reg_set_wf; [done|by apply as_u_range]).
  eapply (keeps_bind _ _ _ (fun _ => True)); [|done]. destruct i as [o|o|reg].
  - apply keeps_modify, Hset.
  - destruct frame; [apply keeps_modify, Hset|apply keeps_throw].
  - keeps_steps; [intros; by apply reg_set_wf|]. apply keeps_modify, Hset.
Qed.

Lemma resolve_operations_typed info rs ops : typed_reader rs -> keeps regs_wf (resolve_operations info rs ops) (from_option u64 True).
Proof.
  intros Hrs. induction ops as [|op ops IH]; cbn [resolve_operations]; [by apply keeps_ret|]. intros regs Hr.
  pose proof (Hpe _ regs_wf info op (pe_state rs) regs (fun r s => reg_get_u64 s _) Hrs
    (fun r v s Hv Hs => reg_set_wf s _ v Hs Hv) Hr) as Hop.
  destruct (resolve_operation _ info op (pe_state rs) regs) as [[[ra|]|] regs']; destruct Hop as [Hr' Hra]; [|by apply IH|done].
  split; [done|by apply Hra].
Qed.

Lemma unwind_epilog_typed sections a f info rs : typed_reader rs ->
  keeps regs_wf (unwind_epilog bytes_of sections a f info rs) (from_option unwound True).
Proof.
  intros Hrs. unfold unwind_epilog. do 2 (eapply keeps_bind; [apply keeps_lift_any|intros ? _]).
  repeat case_match; try by apply keeps_ret.
  eapply keeps_bind; [by apply run_epilog_typed|intros _ _]. eapply keeps_bind; [by apply pop_return_address_typed|intros ra Hra].
  by apply keeps_ret.
Qed.

Lemma unwind_body_typed sections a f info rs : typed_reader rs ->
  keeps regs_wf (unwind_body bytes_of memory_limit sections a f info rs) unwound.
Proof.
  intros Hrs. unfold unwind_body. eapply keeps_bind; [apply keeps_lift_any|intros infos _].
  case_match; [by apply keeps_ret|]. eapply keeps_bind; [by apply resolve_operations_typed|intros [ra|] Hra; [by apply keeps_ret|]].
  eapply keeps_bind; [by apply pop_return_address_typed|intros ra Hr]. by apply keeps_ret.
Qed.

Lemma PeTyped_x86_64 : PeTyped D UnwindRuleX86_64 UnwindRegsX86_64 (PeUnwinding0 := PeUnwinding_x86_64 bytes_of memory_limit).
Proof.
  intros sections a first rs Hrs. unfold pe_unwind_frame, PeUnwinding_x86_64, pe_unwind_frame_x86_64.
  case_match; [|by apply keeps_ret]. do 2 (eapply keeps_bind; [apply keeps_lift_any|intros ? _]).
  eapply (keeps_bind _ _ _ (from_option unwound True)).
  - destruct first; [by apply unwind_epilog_typed|by apply keeps_ret].
  - intros [res|] Hres; [by apply keeps_ret|by apply unwind_body_typed].
Qed.
End pe.

Lemma PeTyped_aarch64 {D} : PeTyped D Aarch64Rules.UnwindRuleAarch64 Aarch64Rules.UnwindRegsAarch64
  (PeUnwinding0 := pe_unwind_frame_aarch64).
Proof. intros sections a first rs _. apply keeps_throw. Qed.

(** ** Through the rule cache *)

Section frames.
  Context {D R Regs C E : Type} `{TypedLaws R Regs}.

(** The registers of an unwind step. *)
Definition state_typed (s : UState R Regs C) : Prop := regs_typed (st_regs s).

Definition callback_typed (callback : frame_callback (D := D) (R := R) (Regs := Regs) (C := C) (E := E)) : Prop :=
  forall m a rel rs, typed_reader rs -> keeps state_typed (callback m a rel rs) unwound.

Lemma on_regs_typed {A} (m : exec_m Regs A) Q : keeps regs_typed m Q -> keeps state_typed (on_regs (R := R) (C := C) m) Q.
Proof. intros Hm s Hs. rewrite on_regs_fst. by apply Hm. Qed.

Lemma exec_step_typed r first rs : typed_reader rs ->
  keeps state_typed (r ← on_regs (R := R) (C := C) (exec r first rs); mret (not_interrupted r)) (from_option (fun p => u64 p.1) True).
Proof.
  intros Hrs. eapply keeps_bind; [by apply on_regs_typed, exec_keeps|]. intros [ra|] Hra; by apply keeps_ret.
Qed.

Lemma find_rule_typed u a rs callback : callback_typed callback -> typed_reader rs ->
  keeps state_typed (find_rule u a rs callback) (fun found => match found with UseRule _ => True | ReturnNow ra _ => u64 ra end).
Proof.
  intros Hcb Hrs. unfold find_rule. destruct (find_module_for_address _ _) as [[m rel]|]; [|by apply keeps_ret].
  intros s Hs. destruct (Hcb m a rel rs Hrs s Hs) as [H' Hr].
  by destruct (callback m a rel rs s) as [[[r|ra|ra]|[e|]] s'].
Qed.

Lemma with_cache_typed u a rs callback : callback_typed callback -> typed_reader rs ->
  keeps state_typed (with_cache u a rs callback) (from_option (fun p => u64 p.1) True).
Proof.
  intros Hcb Hrs. unfold with_cache. keeps_step. destruct (cache_lookup _ _ _) as [res rc].
  eapply keeps_bind; [by apply keeps_modify|intros _ _]. destruct res; [|by apply exec_step_typed].
  eapply keeps_bind; [by apply find_rule_typed|]. intros [r|ra i] Hra; [|by apply keeps_ret].
  eapply keeps_bind; [by apply keeps_modify|intros _ _]. by apply exec_step_typed.
Qed.
End frames.

Section modules.
  Context {D R Regs C : Type} (bytes_of : D -> list Z) `{UnwindRule R Regs, !Typed Regs, Gimli C}
    `{!DwarfUnwinding C R Regs, !DwarfTyped C R Regs, MachoUnwindInfo, !CompactUnwindInfoUnwinding R,
      !PeUnwinding D R Regs, !PeTyped D R Regs}.

Lemma with_dwarf_typed unwinder first rel off rs : typed_reader rs ->
  keeps state_typed (with_dwarf (R := R) (Regs := Regs) (C := C) unwinder first rel off rs) unwound.
Proof.
  intros Hrs s Hs. unfold with_dwarf, unwind_frame_with_fde.
  destruct (unwind_info_for_fde _ _ _ _ _) as [[[[row enc] signal]|[]] ctx]; try done.
  pose proof (dwarf_frame_typed (MkUnwindSection (unwind_section_type unwinder) (unwind_section_data unwinder) 8)
    row enc first signal rs Hrs (st_regs s) Hs) as [Hs' Hr].
  by destruct (dwarf_unwind_frame _ row enc first signal rs (st_regs s)) as [[r|e] regs].
Qed.

(** Unwinding a frame with a module's unwind data, of any kind. *)
Lemma impl_typed : callback_typed (unwind_frame_impl (R := R) (Regs := Regs) (C := C) bytes_of).
Proof.
  intros m a rel rs Hrs. unfold unwind_frame_impl. destruct (unwind_data m).
  - eapply keeps_bind; [apply keeps_lift_any|intros [r|off] _; [by apply keeps_ret|]].
    eapply keeps_bind; [apply keeps_lift_any|intros eh _]. by apply with_dwarf_typed.
  - eapply keeps_bind; [apply keeps_lift_any|intros off _]. by apply with_dwarf_typed.
  - do 2 (eapply keeps_bind; [apply keeps_lift_any|intros ? _]). by apply with_dwarf_typed.
  - do 2 (eapply keeps_bind; [apply keeps_lift_any|intros ? _]). by apply with_dwarf_typed.
  - intros s Hs. destruct (pe_frame_typed (MkPeSections pdata rdata xdata text) rel (negb (is_return_address a)) rs Hrs (st_regs s) Hs)
      as [Hs' Hr]. by destruct (pe_unwind_frame _ _ _ rs (st_regs s)) as [[r|e] regs].
  - apply keeps_throw.
Qed.
End modules.
