(* ===== verification/NoPanic.v ===== *)
(** * Unwinding a frame never panics

    [unwind_frame_impl] and [with_cache] of framehop return, with a frame or with an error,
    whatever the stack and the registers hold: [yields I m Q] says so of a computation,
    beside the type it has ([Typing.keeps]). What a module's unwind data must satisfy is
    [data_safe], which says little of DWARF and compact unwind info, and that a PE image's
    function table is well formed; the rules that are cached stay in the range of their
    types ([Progress.RuleRange]). *)
From S2P Require Import Prelude Slices CodeAddress UnwindRule ModuleList RuleCache X86Regs X86Rules Sections Dwarf X86Dwarf.
From S2P Require Import Compact X86Analysis X86Compact Pe Unwinder ModuleData Arch Progress Typing.
From S2P Require Aarch64Rules Aarch64Dwarf Aarch64Compact.

(** ** Computations that return *)

Definition no_panic {E A} (r : result (fault E) A) : Prop := r <> Err Panic.

Definition yields {S E A} (I : S -> Prop) (m : ST S (fault E) A) (Q : A -> Prop) : Prop :=
  keeps I m Q /\ forall s, I s -> no_panic (m s).1.

Create HintDb returns.

Section yields.
  Context {S E A : Type} (I : S -> Prop).
  Implicit Types (m : ST S (fault E) A) (Q : A -> Prop).

Lemma yields_ret a Q : Q a -> yields I (mret a : ST S (fault E) A) Q.
Proof. intros HQ. split; [by apply keeps_ret|done]. Qed.

Lemma yields_bind {B} m (f : A -> ST S (fault E) B) Q (Q' : B -> Prop) :
  yields I m Q -> (forall a, Q a -> yields I (f a) Q') -> yields I (m ≫= f) Q'.
Proof.
  intros [Hk Hp] Hf. split; [eapply keeps_bind; [done|]; by intros a Ha; apply Hf|]. intros s Hs.
  rewrite st_bind_spec. destruct (Hk s Hs) as [Hs' HQ]. specialize (Hp s Hs).
  destruct (m s) as [[a|e] s']; [by apply Hf|]. intros [= ->]. by apply Hp.
Qed.

Lemma yields_modify (f : S -> S) : (forall s, I s -> I (f s)) -> yields I (st_modify f : ST S (fault E) unit) (fun _ => True).
Proof. intros Hf. split; [by apply keeps_modify|done]. Qed.

Lemma yields_get : yields I (st_get : ST S (fault E) S) I.
Proof. split; [by apply keeps_get|done]. Qed.

Lemma yields_throw (e : E) Q : yields I (st_throw (Fail e) : ST S (fault E) A) Q.
Proof. split; [by apply keeps_throw|done]. Qed.

Lemma yields_lift (r : result (fault E) A) Q :
  match r with Ok a => Q a | Err (Fail _) => True | Err Panic => False end -> yields I (st_lift r) Q.
Proof.
  intros Hr. split; [apply keeps_lift; by intros a ->|]. intros s _. unfold no_panic, st_lift. by destruct r as [a|[e|]].
Qed.

Lemma yields_ok_or (e : E) (x : option A) Q : (forall a, x = Some a -> Q a) -> yields I (st_lift (ok_or (Fail e) x)) Q.
Proof. intros Hx. apply yields_lift. destruct x; [by apply Hx|done]. Qed.

Lemma yields_any m Q : yields I m Q -> yields I m (fun _ => True).
Proof. intros [Hk Hp]. split; [by eapply keeps_weaken|done]. Qed.
End yields.

(** ** What is asked of unwind data *)

(** A rule that is found is in range. *)
Definition in_range {R} `{!RuleRange R} (r : UnwindResult R) : Prop :=
  match r with ExecRule rule => rule_ok rule | _ => True end.

(** DWARF rows become rules that are in range. *)
Class DwarfRules (C R Regs : Type) `{DwarfUnwinding C R Regs, !RuleRange R} : Prop := {
  uncovered_ok : rule_ok rule_if_uncovered_by_fde;
  dwarf_in_range : forall section row enc first signal rs regs r regs',
    dwarf_unwind_frame section row enc first signal rs regs = (Ok r, regs') -> in_range r;
}.

(** So do compact opcodes, and looking one up never panics. *)
Class CompactRules (R Regs : Type) `{UnwindRule R Regs, MachoUnwindInfo, !CompactUnwindInfoUnwinding R, !RuleRange R} : Prop :=
  compact_in_range : forall self rel first, u32 rel ->
    match compact_unwind_frame self rel first with
    | Ok (CuiExecRule rule) => rule_ok rule
    | Err Panic => False
    | _ => True
    end.

(** The kept sections of a PE image have the bytes of their ranges. *)
Definition kept_bytes {D} (bytes_of : D -> list Z) (d : DataAtRvaRange D) : Prop :=
  0 <= r_start (rva_range d) /\ r_end (rva_range d) - r_start (rva_range d) <= Z.of_nat (length (bytes_of (data d))).
Definition sections_kept {D} (bytes_of : D -> list Z) (sections : PeSections (D := D)) : Prop := forall d,
  d ∈ option_list (Pe.rdata sections) ++ option_list (Pe.xdata sections) ++ option_list (Pe.text sections) -> kept_bytes bytes_of d.

(** The PE images whose function table can be unwound with. *)
Class PeTables (D R : Type) : Type := pe_tables_ok : PeSections (D := D) -> Prop.
Class PeRules {D} (bytes_of : D -> list Z) (R Regs : Type) `{!PeUnwinding D R Regs, !PeTables D R, !RuleRange R} : Prop :=
  pe_yields : forall sections rel first rs, sections_kept bytes_of sections -> pe_tables_ok sections ->
    yields (fun _ => True) (pe_unwind_frame (R := R) (Regs := Regs) sections rel first rs) in_range.

Section impl.
  Context {D R Regs C : Type} (bytes_of : D -> list Z) `{UnwindRule R Regs, !RuleRange R, !SafeRules R Regs}
    `{Gimli C, !DwarfUnwinding C R Regs, !DwarfRules C R Regs} `{MachoUnwindInfo, !CompactUnwindInfoUnwinding R, !CompactRules R Regs}
    `{!PeUnwinding D R Regs, !PeTables D R, !PeRules bytes_of R Regs}.
  Implicit Types (u : UnwinderInternal (ModuleUnwindDataInternal D)) (rs : stack_reader).

Definition data_safe (d : ModuleUnwindDataInternal D) : Prop :=
  match d with
  | DwarfCfiIndexAndEhFrame index _ _ | DwarfCfiIndexAndDebugFrame index _ _ => index_wf index
  | PeUnwindInfoData pdata rdata xdata text =>
      let sections := MkPeSections pdata rdata xdata text in sections_kept bytes_of sections /\ pe_tables_ok sections
  | _ => True
  end.

Definition module_safe (m : Module_ (ModuleUnwindDataInternal D)) : Prop := data_safe (unwind_data m).
Definition unwinder_safe u : Prop := unwinder_wf u /\ Forall module_safe (flat u).

(** Every rule of the cache is in range. *)
Definition cache_safe (c : Cache R C) : Prop := rules_in rule_ok (rule_cache c).
Definition ustate_safe (s : UState R Regs C) : Prop := cache_safe (st_cache s).

Lemma with_dwarf_yields unwinder first rel off rs :
  yields ustate_safe (with_dwarf (R := R) (Regs := Regs) (C := C) unwinder first rel off rs) in_range.
Proof.
  assert (forall s, ustate_safe s ->
    let r := with_dwarf (R := R) (Regs := Regs) (C := C) unwinder first rel off rs s in
    ustate_safe r.2 /\ match r.1 with Ok a => in_range a | Err e => e <> Panic end) as Hrun.
  { intros s Hs. unfold with_dwarf, unwind_frame_with_fde.
    destruct (unwind_info_for_fde _ _ _ _ _) as [[[[row enc] signal]|[]] ctx]; cbn; try done; [|split; [done|apply uncovered_ok]].
    pose proof (dwarf_in_range (MkUnwindSection (unwind_section_type unwinder) (unwind_section_data unwinder) 8)
      row enc first signal rs (st_regs s)) as Hr.
    destruct (dwarf_unwind_frame _ row enc first signal rs (st_regs s)) as [[r|e] regs]; cbn; [|done]. split; [done|by eapply Hr]. }
  split; intros s Hs; destruct (Hrun s Hs) as [Hs' Hr]; [split; [done|]|];
    destruct (with_dwarf _ _ _ _ _ s) as [[a|e] s']; try done. by intros [= ->].
Qed.

Lemma unwind_indexed_yields m type index section bases first rel rs : index_wf index ->
  yields ustate_safe (unwind_indexed (R := R) (Regs := Regs) (C := C) bytes_of m type index section bases first rel rs) in_range.
Proof.
  intros Hi. unfold unwind_indexed. eapply yields_bind.
  { apply (yields_ok_or _ _ _ (fun found => is_Some found)). intros [off|] Hoff; [done|by apply index_lookup_in_bounds in Hoff]. }
  intros ? [off ->]. eapply (yields_bind _ _ _ (fun _ => True)); [by apply yields_lift|]. intros o _. apply with_dwarf_yields.
Qed.

(** Unwinding with a module's data, of any kind. *)
Lemma impl_yields m a rel rs : module_safe m -> u32 rel ->
  yields ustate_safe (unwind_frame_impl (R := R) (Regs := Regs) (C := C) bytes_of m a rel rs) in_range.
Proof.
  unfold module_safe, unwind_frame_impl. intros Hm Hrel. destruct (unwind_data m) as [ui eh stubs helper bases text|hdr eh bases
    |index eh bases|index dbg bases|pd rd xd tx|]; cbn [data_safe] in Hm.
  - unfold unwind_compact. set (unwinder := MkCompactUnwinder _ _ _ _).
    pose proof (compact_in_range unwinder rel (negb (is_return_address a)) Hrel) as Hc.
    destruct (compact_unwind_frame unwinder rel _) as [[rule|off]|[e|]]; [..|done].
    + eapply (yields_bind _ _ _ (fun r => r = CuiExecRule rule)); [by apply yields_lift|]. intros ? ->. by apply yields_ret.
    + eapply (yields_bind _ _ _ (fun r => r = NeedDwarf off)); [by apply yields_lift|]. intros ? ->.
      eapply yields_bind; [by apply (yields_ok_or _ _ _ (fun _ => True))|]. intros eh_frame _. apply with_dwarf_yields.
    + eapply (yields_bind _ _ _ (fun _ => False)); [by apply yields_lift|done].
  - eapply yields_bind; [by apply (yields_ok_or _ _ _ (fun _ => True))|]. intros off _. apply with_dwarf_yields.
  - by apply unwind_indexed_yields.
  - by apply unwind_indexed_yields.
  - pose proof (pe_yields _ rel (negb (is_return_address a)) rs (proj1 Hm) (proj2 Hm)) as [Hk Hp].
    split; intros s Hs; destruct (Hk (st_regs s) I) as [_ Hr]; specialize (Hp (st_regs s) I); cbn;
      destruct (pe_unwind_frame _ _ _ rs (st_regs s)) as [[r|[e|]] regs]; done.
  - apply yields_throw.
Qed.

(** A callback as [with_cache] takes it. *)
Definition callback_yields {E} u (callback : frame_callback (D := ModuleUnwindDataInternal D) (R := R) (Regs := Regs) (C := C) (E := E)) : Prop :=
  forall m a rel rs, m ∈ flat u -> u32 rel -> yields ustate_safe (callback m a rel rs) in_range.

Lemma on_regs_exec_yields rule first rs : rule_ok rule ->
  yields ustate_safe (r ← on_regs (R := R) (C := C) (exec rule first rs); mret (not_interrupted r)) (fun _ => True).
Proof.
  intros Hr. eapply (yields_bind _ _ _ (fun _ => True)); [|intros; by apply yields_ret].
  split; intros s Hs; rewrite on_regs_fst; cbn.
  - split; [done|]. by destruct (exec _ _ _ _).1.
  - by apply exec_safe.
Qed.

Lemma find_rule_yields {E} u a rs (callback : frame_callback (E := E)) : unwinder_wf u -> callback_yields u callback ->
  yields ustate_safe (find_rule u a rs callback) (fun found => match found with UseRule rule => rule_ok rule | ReturnNow _ _ => True end).
Proof.
  intros Hwf Hcb. unfold find_rule. destruct (find_module_for_address _ _) as [[m rel]|] eqn:Em; [|apply yields_ret, fallback_ok].
  apply find_module_elem in Em as (Hm & _ & Hrel); [|done]. destruct (Hcb m a rel rs Hm Hrel) as [Hk Hp].
  split; intros s Hs; destruct (Hk s Hs) as [Hs' Hr]; specialize (Hp s Hs);
    destruct (callback m a rel rs s) as [[[rule|ra|ra]|[e|]] s']; try done. split; [done|apply fallback_ok].
Qed.

(** A frame unwound through the cache. *)
Lemma with_cache_yields {E} u a rs (callback : frame_callback (E := E)) : unwinder_wf u -> callback_yields u callback ->
  yields ustate_safe (with_cache u a rs callback) (fun _ => True).
Proof.
  intros Hwf Hcb. unfold with_cache. eapply yields_bind; [apply yields_get|]. intros s Hs.
  pose proof (rules_in_lookup rule_ok _ (address_for_lookup a) (modules_generation u) Hs) as [Hrc Hhit].
  destruct (cache_lookup _ _ _) as [res rc]. cbn [fst snd] in *.
  eapply yields_bind; [by apply yields_modify|]. intros _ _. destruct res as [h|rule]; [|by apply on_regs_exec_yields].
  eapply yields_bind; [by apply find_rule_yields|]. intros [rule|ra i] Hr; [|by apply yields_ret].
  eapply yields_bind; [|intros _ _; by apply on_regs_exec_yields]. apply yields_modify. intros s' Hs'. by apply rules_in_insert.
Qed.

Lemma safe_callback u : unwinder_safe u -> callback_yields u (unwind_frame_impl bytes_of).
Proof. intros [_ Hm] m a rel rs Hin Hrel. apply impl_yields; [|done]. rewrite Forall_forall in Hm. by apply Hm. Qed.
End impl.

(** ** x86_64 *)

#[export] Instance DwarfRules_x86_64 {C} `{Gimli C} : DwarfRules C UnwindRuleX86_64 UnwindRegsX86_64.
Proof.
  split; [done|]. intros section row enc first signal rs regs r regs'. cbn. unfold dwarf_unwind_frame_x86_64.
  destruct signal; cbn [ok].
  { intros Hg%generic_signal. by destruct r. }
  destruct (translate_into_unwind_rule _ _ _) as [rule|] eqn:E; cbn [ok]; [|intros Hg%generic_signal; by destruct r].
  rewrite st_ret_spec. intros [= <- _]. apply translate_cases in E as [[-> _]|(_ & [(off & n & _ & Hn & _ & Hrule)|(_ & _ & ->)])]; try done.
  destruct Hrule as [[-> _]|(o & y & _ & -> & Hy & _)]; by split.
Qed.

Section x86_64_pe.
  Context {D : Type} (bytes_of : D -> list Z) `{PeUnwindInfo} (memory_limit : nat).
  Implicit Types (sections : PeSections (D := D)).

(** The chain of unwind infos from [info] on has at most [n] of them. *)
Fixpoint chain_within (n : nat) sections (info : PeInfo) : Prop :=
  match n with
  | O => False
  | S n => forall address data next, chained_info_address info = Some address ->
      unwind_info_memory_at_rva bytes_of sections address = Ok data -> pe_info_parse data = Some next ->
      chain_within n sections next
  end.

(** A well-formed function table: a function ends within the text it begins in, and its
    chain of unwind infos ends. *)
Record tables_wf sections : Prop := {
  tw_functions : forall a f d, entries_lookup (bytes_of (Pe.pdata sections)) a = Some f -> Pe.text sections = Some d ->
    range_contains (rva_range d) a = true -> a <= rf_end_address f <= r_end (rva_range d);
  tw_chains : forall rva data info, unwind_info_memory_at_rva bytes_of sections rva = Ok data ->
    pe_info_parse data = Some info -> chain_within memory_limit sections info;
}.

#[export] Instance PeTables_x86_64 : PeTables D UnwindRuleX86_64 := tables_wf.

(** pe-unwind-info reads an epilog's [lea rsp, [fp + n]] only of a function with a frame
    register. *)
Definition epilogs_use_frame_register : Prop := forall bytes instructions offset,
  parse_sequence bytes None = Some instructions -> AddSPFromFP offset ∉ instructions.

Lemma mod_le a m : 0 <= a -> 0 < m -> 0 <= a mod m <= a.
Proof. intros. pose proof (Z.mod_pos_bound a m). split; [lia|by apply Z.mod_le]. Qed.

Lemma memory_at_rva_found d a found :
  kept_bytes bytes_of d -> memory_at_rva bytes_of d a = Some found ->
  range_contains (rva_range d) a = true /\
  exists bytes, found = Some bytes /\ r_end (rva_range d) - a <= Z.of_nat (length bytes).
Proof.
  intros [Hs Hl]. unfold memory_at_rva. destruct (range_contains _ a) eqn:Ec; [|done]. intros [= <-]. split; [done|].
  unfold range_contains in Ec. bool_to_prop.
  pose proof (mod_le (a - r_start (rva_range d)) (2 ^ 32) ltac:(lia) ltac:(lia)) as Hm.
  unfold wrapping_sub, as_u. rewrite (proj2 (Nat.leb_le _ _)) by lia. eexists. split; [done|]. rewrite length_drop. lia.
Qed.

Lemma unwind_info_memory_returns sections rva : sections_kept bytes_of sections -> no_panic (unwind_info_memory_at_rva bytes_of sections rva).
Proof.
  intros Hb. unfold unwind_info_memory_at_rva, no_panic.
  assert (forall o, o = Pe.rdata sections \/ o = Pe.xdata sections -> forall found, o ≫= (fun m => memory_at_rva bytes_of m rva) = Some found -> is_Some found) as Hf.
  { intros o Ho found (d & -> & Hd)%bind_Some. assert (kept_bytes bytes_of d) as Hkept.
    { apply Hb. rewrite !elem_of_app. destruct Ho as [<- | <-]; [left|right; left]; by constructor. }
    destruct (memory_at_rva_found d rva found Hkept Hd) as (_ & b & -> & _). done. }
  destruct (Pe.rdata sections ≫= _) as [found|] eqn:E1; [destruct (Hf _ (or_introl eq_refl) found E1) as [b ->]; done|].
  destruct (Pe.xdata sections ≫= _) as [found|] eqn:E2; [destruct (Hf _ (or_intror eq_refl) found E2) as [b ->]; done|done].
Qed.

Lemma chained_infos_returns n sections info : sections_kept bytes_of sections -> chain_within n sections info ->
  no_panic (chained_infos bytes_of n sections info).
Proof.
  intros Ht. revert info. induction n as [|n IH]; intros info Hc; [done|]. cbn [chained_infos].
  destruct (chained_info_address info) as [address|] eqn:Ea; [|done].
  pose proof (unwind_info_memory_returns sections address Ht) as Hm.
  destruct (unwind_info_memory_at_rva bytes_of sections address) as [data|e] eqn:Ed; cbn; [|by intros [= ->]].
  destruct (pe_info_parse data) as [next|] eqn:Ep; cbn; [|done].
  specialize (IH next (Hc _ _ _ Ea Ed Ep)). destruct (chained_infos bytes_of n sections next) as [rest|e]; cbn; [done|].
  intros [= ->]. by apply IH.
Qed.

#[local] Hint Resolve yields_ret yields_get : returns.

Lemma pe_read_stack_yields rs a : yields (fun _ => True) (pe_read_stack rs a) (fun _ => True).
Proof. by apply yields_ok_or. Qed.

Lemma pop_return_address_yields rs : yields (fun _ => True) (pop_return_address rs) (fun _ => True).
Proof.
  unfold pop_return_address. eapply yields_bind; [apply yields_get|intros regs _].
  eapply yields_bind; [apply pe_read_stack_yields|intros ra _].
  eapply yields_bind; [by apply yields_modify|intros _ _]. by apply yields_ret.
Qed.

Lemma run_epilog_yields frame rs instructions :
  (forall offset, AddSPFromFP offset ∈ instructions -> is_Some frame) ->
  yields (fun _ => True) (run_epilog frame rs instructions) (fun _ => True).
Proof.
  induction instructions as [|i instructions IH]; intros Hf; cbn [run_epilog]; [by apply yields_ret|].
  eapply yields_bind; [apply yields_get|intros regs _]. eapply (yields_bind _ _ _ (fun _ => True)).
  - destruct i as [o|o|reg]; [by apply yields_modify| |].
    + destruct (Hf o) as [fp ->]; [set_solver|]. by apply yields_modify.
    + eapply yields_bind; [apply pe_read_stack_yields|intros v _].
      eapply yields_bind; [by apply yields_modify|intros _ _]. by apply yields_modify.
  - intros _ _. apply IH. intros o Ho. apply (Hf o). set_solver.
Qed.

Lemma resolve_operations_yields info rs ops : yields (fun _ => True) (resolve_operations info rs ops) (fun _ => True).
Proof.
  split; [by intros s _; destruct (resolve_operations _ _ _ _) as [[]]|]. intros regs _. unfold no_panic.
  revert regs. induction ops as [|op ops IH]; intros regs; cbn [resolve_operations]; [done|].
  destruct (resolve_operation _ _ _ _ _) as [[[ra|]|] regs']; [done|apply IH|done].
Qed.

Lemma offset_or_none_range offset : match offset_or_none offset with OffsetBy8 n => u16 n | _ => True end.
Proof. unfold offset_or_none. destruct (try_u 16 _) as [n|] eqn:E; [|done]. by apply try_u_Some in E as [-> ?]. Qed.

Lemma sequence_in_range {A} (f : A -> OffsetOrPop) l rule :
  (forall x, match f x with OffsetBy8 n => u16 n | _ => True end) ->
  for_sequence_of_offset_or_pop (f <$> l) = Some rule -> rule_safe rule.
Proof. intros Hf. apply sequence_rule_safe, Forall_fmap, Forall_forall. intros x _. apply Hf. Qed.

Lemma from_epilog_range i : match from_epilog_instruction i with OffsetBy8 n => u16 n | _ => True end.
Proof. destruct i; [apply offset_or_none_range|done..]. Qed.
Lemma from_operation_range op : match from_unwind_operation op with OffsetBy8 n => u16 n | _ => True end.
Proof. destruct op; [apply offset_or_none_range|done..]. Qed.

(** The bytes of a function's rest are in the text. *)
Lemma text_memory_returns sections a f : sections_kept bytes_of sections -> tables_wf sections ->
  entries_lookup (bytes_of (Pe.pdata sections)) a = Some f ->
  match text_memory_at_rva bytes_of sections a with
  | Ok memory => is_Some (get_range memory 0 (Z.to_nat (wrapping_sub 32 (rf_end_address f) a)))
  | Err e => e <> Panic
  end.
Proof.
  intros Hb [Hfun _] Hf. unfold text_memory_at_rva. destruct (Pe.text sections) as [d|] eqn:Et; [|done]. cbn [mbind option_bind].
  assert (kept_bytes bytes_of d) as Hkept by (apply Hb; rewrite Et, !elem_of_app; right; right; by constructor). destruct (memory_at_rva bytes_of d a) as [found|] eqn:Em; [|done].
  destruct (memory_at_rva_found d a found Hkept Em) as (Hin & b & -> & Hlen). cbn [found_or].
  destruct (Hfun a f d Hf eq_refl Hin) as [Hlo Hhi].
  pose proof (mod_le (rf_end_address f - a) (2 ^ 32) ltac:(lia) ltac:(lia)).
  unfold get_range, wrapping_sub, as_u. rewrite (proj2 (Nat.leb_le _ _)), (proj2 (Nat.leb_le _ _)) by lia. done.
Qed.

Lemma unwind_epilog_yields sections a f info rs : sections_kept bytes_of sections -> tables_wf sections -> epilogs_use_frame_register ->
  entries_lookup (bytes_of (Pe.pdata sections)) a = Some f ->
  yields (fun _ => True) (unwind_epilog bytes_of sections a f info rs) (from_option in_range True).
Proof.
  intros Hb Ht Hep Hf. unfold unwind_epilog. pose proof (text_memory_returns sections a f Hb Ht Hf) as Hm.
  eapply (yields_bind _ _ _ (fun memory => is_Some (get_range memory 0 _))).
  { apply yields_lift. destruct (text_memory_at_rva _ _ _) as [memory|[]]; done. }
  intros memory [bytes Hbytes]. rewrite Hbytes. eapply (yields_bind _ _ _ (fun _ => True)); [by apply yields_lift|intros code _].
  destruct (parse_sequence _ _) as [es|] eqn:Es; [|by apply yields_ret].
  destruct (for_sequence_of_offset_or_pop _) as [rule|] eqn:Er.
  - apply yields_ret. by eapply sequence_in_range; [apply from_epilog_range|].
  - eapply yields_bind; [apply run_epilog_yields|intros _ _].
    + intros o Ho. destruct (frame_register info) as [fp|]; [done|]. by destruct (Hep _ _ o Es).
    + eapply yields_bind; [apply pop_return_address_yields|intros ra _]. by apply yields_ret.
Qed.

Lemma unwind_body_yields sections a f info rs : sections_kept bytes_of sections -> chain_within memory_limit sections info ->
  yields (fun _ => True) (unwind_body bytes_of memory_limit sections a f info rs) in_range.
Proof.
  intros Ht Hc. unfold unwind_body. pose proof (chained_infos_returns _ _ _ Ht Hc) as Hi.
  eapply (yields_bind _ _ _ (fun _ => True)).
  { apply yields_lift. destruct (chained_infos _ _ _ _) as [|[]]; done. }
  intros infos _. destruct (for_sequence_of_offset_or_pop _) as [rule|] eqn:Er.
  - apply yields_ret. by eapply sequence_in_range; [apply from_operation_range|].
  - eapply yields_bind; [apply resolve_operations_yields|intros [ra|] _; [by apply yields_ret|]].
    eapply yields_bind; [apply pop_return_address_yields|intros ra _]. by apply yields_ret.
Qed.

Lemma PeRules_x86_64 : epilogs_use_frame_register ->
  PeRules bytes_of UnwindRuleX86_64 UnwindRegsX86_64 (PeUnwinding0 := PeUnwinding_x86_64 bytes_of memory_limit).
Proof.
  intros Hep sections rel first rs Hb Ht. unfold pe_unwind_frame, PeUnwinding_x86_64, pe_unwind_frame_x86_64.
  destruct (entries_lookup _ _) as [f|] eqn:Ef; [|by apply yields_ret].
  pose proof (unwind_info_memory_returns sections (unwind_info_address f) Hb) as Hm.
  eapply (yields_bind _ _ _ (fun memory => unwind_info_memory_at_rva bytes_of sections (unwind_info_address f) = Ok memory)).
  { apply yields_lift. destruct (unwind_info_memory_at_rva _ _ _) as [|[]]; done. }
  intros memory Hmem. eapply yields_bind; [apply (yields_ok_or _ _ _ (fun info => pe_info_parse memory = Some info)); done|].
  intros info Hinfo. eapply (yields_bind _ _ _ (from_option in_range True)).
  - destruct first; [by apply unwind_epilog_yields|by apply yields_ret].
  - intros [r|] Hr; [by apply yields_ret|]. apply unwind_body_yields; [done|]. by eapply (tw_chains _ Ht).
Qed.

(** Why a function table has to be well formed: the first frame of a function that ends
    beyond the text panics, and a chain that comes back to where it was is collected
    without end. *)
Lemma function_beyond_text_panics sections a f info rs regs memory :
  text_memory_at_rva bytes_of sections a = Ok memory -> Z.of_nat (length memory) < wrapping_sub 32 (rf_end_address f) a ->
  (unwind_epilog bytes_of sections a f info rs regs).1 = Err Panic.
Proof.
  intros Hm Hlen. unfold unwind_epilog. rewrite Hm, st_bind_spec. unfold st_lift at 1. rewrite st_bind_spec.
  unfold get_range. rewrite (proj2 (Nat.leb_gt (Z.to_nat _) _)) by lia. by rewrite andb_false_r.
Qed.

Lemma circular_chain_never_ends sections info address data n :
  chained_info_address info = Some address -> unwind_info_memory_at_rva bytes_of sections address = Ok data ->
  pe_info_parse data = Some info -> chained_infos bytes_of n sections info = Err Panic.
Proof. intros Ha Hd Hi. induction n as [|n IH]; [done|]. cbn [chained_infos]. rewrite Ha, Hd. cbn. rewrite Hi. cbn. by rewrite IH. Qed.
End x86_64_pe.

Lemma CompactRules_x86_64 `{MachoUnwindInfo} (parse : Z -> OpcodeX86_64) : parse_u16 parse -> lookup_contains ->
  CompactRules UnwindRuleX86_64 UnwindRegsX86_64 (CompactUnwindInfoUnwinding0 := CompactUnwindInfoUnwinding_x86_64 parse).
Proof.
  intros Hparse Hl self rel first Hrel. pose proof (CompactLaws_x86_64 parse) as Hlaws.
  pose proof (compact_unwind_frame_returns (H1 := CompactUnwindInfoUnwinding_x86_64 parse) self rel first Hl Hrel) as Hp.
  pose proof (fun rule => compact_unwind_frame_safe parse Hparse self rel first rule) as Hs.
  destruct (compact_unwind_frame self rel first) as [[rule|off]|[e|]]; try done. by apply Hs.
Qed.

(** ** aarch64 *)

Section aarch64.
Import Aarch64Rules Aarch64Dwarf Aarch64Compact.

Lemma translate_wf {X} (cfa_rule : CfaRule X) fp_rule lr_rule rule :
  translate_into_unwind_rule cfa_rule fp_rule lr_rule = Ok rule -> rule_wf rule.
Proof.
  unfold translate_into_unwind_rule, storage_offset_by_8. intros Ht.
  repeat match goal with
  | H : _ ≫= _ = Ok _ |- _ => apply result_bind_Ok in H as (? & ? & H)
  | H : ok_or _ (try_u _ _) = Ok _ |- _ => apply ok_or_Ok, try_u_Some in H as [-> H]
  | H : ok_or _ (try_s _ _) = Ok _ |- _ => apply ok_or_Ok, try_s_Some in H as [-> H]
  | H : match ?x with _ => _ end = Ok _ |- _ => destruct x eqn:?; try done
  end; unfold mret, result_ret in *; simplify_eq; done.
Qed.

#[export] Instance DwarfRules_aarch64 {C} `{Gimli C} : DwarfRules C UnwindRuleAarch64 UnwindRegsAarch64.
Proof.
  split; [done|]. intros section row enc first signal rs regs r regs'. cbn. unfold dwarf_unwind_frame_aarch64.
  destruct (translate_into_unwind_rule _ _ _) as [rule|] eqn:E.
  - rewrite st_ret_spec. intros [= <- _]. by eapply translate_wf.
  - intros Hg. destruct r; [by apply generic_no_rule_aarch64 in Hg|done..].
Qed.

#[export] Instance PeTables_aarch64 {D} : PeTables D UnwindRuleAarch64 := fun _ => True.
#[export] Instance PeRules_aarch64 {D} (bytes_of : D -> list Z) : PeRules bytes_of UnwindRuleAarch64 UnwindRegsAarch64 (PeUnwinding0 := pe_unwind_frame_aarch64).
Proof. intros sections rel first rs _ _. apply yields_throw. Qed.

Lemma CompactRules_aarch64 `{MachoUnwindInfo} (parse : Z -> OpcodeArm64) : parse_u16 parse -> lookup_contains ->
  CompactRules UnwindRuleAarch64 UnwindRegsAarch64 (CompactUnwindInfoUnwinding0 := CompactUnwindInfoUnwinding_aarch64 parse).
Proof.
  intros Hparse Hl self rel first Hrel.
  pose proof (compact_unwind_frame_returns (H1 := CompactUnwindInfoUnwinding_aarch64 parse) self rel first Hl Hrel) as Hp.
  pose proof (fun rule => compact_unwind_frame_wf parse self rel first rule Hparse) as Hs.
  destruct (compact_unwind_frame self rel first) as [[rule|off]|[e|]]; try done. by apply Hs.
Qed.
End aarch64.
