(* ===== verification/StackBounds.v ===== *)
(** * The stack bounds of a thread

    Models [src/src/stackbounds.rs] and [stack_window] of [src/src/cursor.rs]: the
    half-open range a walk may read when its caller gives no bounds. *)
From S2P Require Import Prelude.

(** [query_bounds] on Linux and FreeBSD, from what pthread reports: whether the
    attributes were read, the code of [pthread_attr_getstack], the lowest address
    and the size. *)
Definition query_bounds_unix (got : bool) (rc stackaddr stacksize : Z) : Z * Z :=
  if negb got then (0, 0)
  else if negb (rc =? 0) || (stackaddr =? 0) || (stacksize =? 0) then (0, 0)
  else (stackaddr, saturating_add 64 stackaddr stacksize).

(** On macOS pthread reports the high end and the size. *)
Definition query_bounds_macos (base size : Z) : Z * Z :=
  if (base =? 0) || (size =? 0) then (0, 0)
  else (saturating_sub base size, base).

Definition query_bounds_other : Z * Z := (0, 0).

Definition FALLBACK_SPAN : Z := 16 * 1024 * 1024.

(** [bounds] is the thread-local that [register_current_thread] sets. *)
Definition stack_window (bounds : Z * Z) (sp : Z) : Z * Z :=
  let '(lo, hi) := bounds in
  if negb (lo =? 0) && negb (hi =? 0) && (lo <=? sp) && (sp <? hi) then (lo, hi)
  else
    let lo := Z.land sp (as_u 64 (Z.lnot 0xfff)) in
    (lo, saturating_add 64 lo FALLBACK_SPAN).

(** [sp & !0xfff] rounds down to a page. *)
Lemma land_page sp : u64 sp -> Z.land sp (as_u 64 (Z.lnot 0xfff)) = sp - sp mod 4096.
Proof.
  intros Hsp. change (as_u 64 (Z.lnot 0xfff)) with (Z.shiftl (Z.ones 52) 12).
  assert (Z.land sp (Z.shiftl (Z.ones 52) 12) = Z.shiftl (Z.land (Z.shiftr sp 12) (Z.ones 52)) 12) as ->.
  { apply Z.bits_inj'. intros n Hn. rewrite Z.land_spec, !Z.shiftl_spec by lia.
    destruct (decide (n < 12)) as [Hlt|Hge].
    - rewrite !(Z.testbit_neg_r _ (n - 12)) by lia. apply andb_false_r.
    - rewrite Z.land_spec, Z.shiftr_spec by lia. do 2 f_equal. lia. }
  rewrite Z.land_ones, Z.shiftl_mul_pow2, Z.shiftr_div_pow2 by lia.
  unfold in_u in Hsp. rewrite Z.mod_small.
  - change (2 ^ 12) with 4096. pose proof (Z.div_mod sp 4096). lia.
  - split; [apply Z.div_pos; lia|]. apply Z.div_lt_upper_bound; lia.
Qed.

(** The default stack window always contains the starting stack pointer, and is
    bounded: it is the registered stack when the walk starts on it, and otherwise
    starts on the page of the stack pointer and reaches at most 16 MiB. *)
Theorem stack_window_bounds bounds sp (Hsp : u64 sp) (Hb : u64 (fst bounds) /\ u64 (snd bounds)) :
  let '(lo, hi) := stack_window bounds sp in
  lo <= sp /\ (sp < hi \/ (hi = u64_MAX /\ sp = u64_MAX)) /\ u64 lo /\ u64 hi /\
  (fst bounds <= sp < snd bounds -> fst bounds <> 0 -> (lo, hi) = bounds) /\
  ((lo, hi) = bounds \/ (lo mod 4096 = 0 /\ sp - lo < 4096 /\ hi - lo <= FALLBACK_SPAN)).
Proof.
  destruct bounds as [blo bhi]. unfold stack_window. cbn [fst snd] in *.
  destruct (_ && _) eqn:E.
  - bool_to_prop. split_and!; auto; try lia; apply Hb.
  - rewrite land_page by done. pose proof (Z.mod_pos_bound sp 4096).
    assert (0 <= sp - sp mod 4096) by (pose proof (Z.mod_le sp 4096); unfold in_u in Hsp; lia).
    assert (u64 (sp - sp mod 4096)) by (unfold in_u in *; lia).
    assert ((sp - sp mod 4096) mod 4096 = 0) as Hm.
    { rewrite Zminus_mod, Z.mod_mod, Z.sub_diag by lia. done. }
    unfold saturating_add, FALLBACK_SPAN, u64_MAX, in_u in *.
    split_and!; try lia.
Qed.

Lemma stack_window_bounds_witness :
  let '(lo, hi) := stack_window (0x7000000, 0x7800000) 0x7123456 in lo <= 0x7123456.
Proof.
  refine (proj1 (stack_window_bounds (0x7000000, 0x7800000) 0x7123456 _ _)); unfold in_u; simpl; lia.
Defined.
