(* ===== verification/State.v ===== *)
(** * The slot pool and the published snapshot

    Models [src/src/state.rs] one operation at a time: the slot pool in chunks,
    claiming and releasing slots, the hazard-protected snapshot and the writer.
    The interleavings of these operations are the subject of [Hazard.v]; here each
    runs without interference, with the data it works on. *)
From S2P Require Import Prelude CodeAddress UnwindRule Generation ModuleList RuleCache Unwinder Arch Hazard X86Regs X86Rules.

(** A [ptr] is the address of a boxed snapshot; [None] is the null pointer. *)
Definition DEFAULT_SLOTS : Z := 16.
Definition SLOTS_PER_THREAD : Z := 2.

(** What ends the process instead of returning. *)
Inductive crash : Type :=
  | Panics
  (** A snapshot pointer was dereferenced after the snapshot was freed. *)
  | UseAfterFree.

Section State.
  Context {D R Regs C : Type} `{UnwindRule R Regs} `{Native Regs}.
  (** gimli's empty [UnwindContext]. *)
  Context (context_new : C).

Record Snapshot : Type := MkSnapshot {
  unw : UnwinderInternal D;
  max_code_addr : Z;
}.

Record SlotInner : Type := MkSlotInner {
  slot_cache : Cache R C;
  slot_regs : Regs;
  cur_addr : FrameAddress;
  cur_ip : Z;
  done : bool;
  snapshot : option ptr;
  stack_lo : Z;
  stack_hi : Z;
  stack_lo2 : Z;
  stack_hi2 : Z;
}.

Record Slot : Type := MkSlot {
  in_use : bool;
  seq : Z;
  hazard : option ptr;
  inner : SlotInner;
}.

Definition placeholder_inner : SlotInner :=
  MkSlotInner (Cache_new context_new) (make_regs zeroed u64_MAX) (from_instruction_pointer 0)
    0 true None 0 0 0 0.

Definition Slot_new : Slot := MkSlot false 0 None placeholder_inner.

(** The statics of the module, the heap of snapshots, and the module generation
    counter, which is a static of [unwinder.rs]. *)
Record state : Type := MkState {
  current : option ptr;
  heap : gmap ptr Snapshot;
  slot_chunks : list (option (list Slot));
  slots_allocated : Z;
  registered_threads : Z;
  retired : list ptr;
  generations : Z;
}.

Definition state_new : state :=
  MkState None ∅ (replicate MAX_SLOT_CHUNKS None) 0 0 [] 0.

Definition set_slot_chunks chunks (s : state) : state :=
  MkState (current s) (heap s) chunks (slots_allocated s) (registered_threads s) (retired s) (generations s).

(** ** Growing the pool *)

(** One round of the loop of [ensure_slots]. *)
Definition grow (s : state) : state :=
  let chunk := replicate SLOT_CHUNK Slot_new in
  MkState (current s) (heap s)
    (<[Z.to_nat (slots_allocated s / Z.of_nat SLOT_CHUNK) := Some chunk]> (slot_chunks s))
    (slots_allocated s + Z.of_nat SLOT_CHUNK) (registered_threads s) (retired s) (generations s).

Fixpoint ensure_slots_loop (fuel : nat) (n : Z) (s : state) : option state :=
  if (slots_allocated s <? n) && (slots_allocated s <? Z.of_nat (SLOT_CHUNK * MAX_SLOT_CHUNKS)) then
    match fuel with
    | O => None
    | S fuel' => ensure_slots_loop fuel' n (grow s)
    end
  else Some s.

(** The loop runs at most once per chunk; [pool_wf] makes the fuel enough
    ([ensure_slots_total]). *)
Definition ensure_slots (n : Z) (s : state) : state :=
  default s (ensure_slots_loop MAX_SLOT_CHUNKS n s).

Definition init (num_slots : Z) (s : state) : state :=
  ensure_slots (if num_slots =? 0 then DEFAULT_SLOTS else num_slots) s.

Definition thread_registered (s : state) : state :=
  let threads := registered_threads s +64 1 in
  let s := MkState (current s) (heap s) (slot_chunks s) (slots_allocated s) threads (retired s) (generations s) in
  ensure_slots (as_u 64 (DEFAULT_SLOTS + as_u 64 (SLOTS_PER_THREAD * threads))) s.

(** ** Slots *)

Definition slot_chunk (s : state) (i : nat) : option (list Slot) :=
  match slot_chunks s !! i with Some (Some chunk) => Some chunk | _ => None end.

(** [map_while(slot_chunk).flatten()]. *)
Fixpoint published_slots (chunks : list (option (list Slot))) : list Slot :=
  match chunks with
  | Some chunk :: chunks' => chunk ++ published_slots chunks'
  | _ => []
  end.

Definition slots (s : state) : list Slot := published_slots (slot_chunks s).

Definition slot (s : state) (idx : nat) : option Slot :=
  chunk ← slot_chunk s (idx / SLOT_CHUNK)%nat;
  chunk !! (idx mod SLOT_CHUNK)%nat.

(** Writes to the fields of slot [idx]; slots are never moved. *)
Definition update_slot (idx : nat) (f : Slot -> Slot) (s : state) : state :=
  match slot_chunk s (idx / SLOT_CHUNK)%nat with
  | Some chunk =>
      set_slot_chunks
        (<[(idx / SLOT_CHUNK)%nat := Some (alter f (idx mod SLOT_CHUNK)%nat chunk)]> (slot_chunks s)) s
  | None => s
  end.

Definition claim_slot (s : state) : option (nat * Z) * state :=
  match list_find (fun sl => in_use sl = false) (slots s) with
  | Some (i, sl) =>
      let nonce := seq sl +64 1 in
      (Some (i, nonce), update_slot i (fun sl => MkSlot true nonce (hazard sl) (inner sl)) s)
  | None => (None, s)
  end.

Definition nonce_matches (s : state) (idx : nat) (nonce : Z) : bool :=
  match slot s idx with Some sl => seq sl =? nonce | None => false end.

Definition set_snapshot (p : option ptr) (i : SlotInner) : SlotInner :=
  MkSlotInner (slot_cache i) (slot_regs i) (cur_addr i) (cur_ip i) (done i) p
    (stack_lo i) (stack_hi i) (stack_lo2 i) (stack_hi2 i).

Definition release_slot (idx : nat) (nonce : Z) (s : state) : state :=
  match slot s idx with
  | None => s
  | Some sl =>
      if negb (seq sl =? nonce) then s
      else update_slot idx
             (fun sl => MkSlot false (nonce +64 1) None (set_snapshot None (inner sl))) s
  end.

Definition set_hazard (p : option ptr) (sl : Slot) : Slot :=
  MkSlot (in_use sl) (seq sl) p (inner sl).

(** Without a writer in between, the re-check of [acquire_snapshot] succeeds in
    its first round. *)
Definition acquire_snapshot (slot_idx : nat) (s : state) : option ptr * state :=
  match slot s slot_idx with
  | None => (None, s)
  | Some _ => (current s, update_slot slot_idx (set_hazard (current s)) s)
  end.

(** ** The writer *)

Definition is_hazarded (s : state) (p : ptr) : bool :=
  existsb (fun sl => bool_decide (hazard sl = Some p)) (slots s).

(** [retired.retain(..)]: what is kept, and the heap after the other snapshots are
    dropped. *)
Fixpoint reclaim_list (hazarded : ptr -> bool) (st : list ptr) (h : gmap ptr Snapshot) :
    list ptr * gmap ptr Snapshot :=
  match st with
  | [] => ([], h)
  | p :: st' =>
      if hazarded p then
        let '(kept, h') := reclaim_list hazarded st' h in (p :: kept, h')
      else reclaim_list hazarded st' (delete p h)
  end.

Definition reclaim (s : state) : state :=
  let '(kept, h) := reclaim_list (is_hazarded s) (retired s) (heap s) in
  MkState (current s) h (slot_chunks s) (slots_allocated s) (registered_threads s) kept (generations s).

Definition set_generations g (s : state) : state :=
  MkState (current s) (heap s) (slot_chunks s) (slots_allocated s) (registered_threads s) (retired s) g.

(** A computation on the generation counter. *)
Definition on_generations {A} (m : ST Z panic A) : ST state crash A := fun s =>
  match m (generations s) with
  | (Ok a, g) => (Ok a, set_generations g s)
  | (Err _, g) => (Err Panics, set_generations g s)
  end.

(** The module set a writer starts from. *)
Definition clone_current : ST state crash (UnwinderInternal D) :=
  s ← st_get;
  match current s with
  | None => on_generations UnwinderInternal_new
  | Some cur =>
      match heap s !! cur with
      | Some snap => mret (unw snap)
      | None => st_throw UseAfterFree
      end
  end.

(** [boxed] is the address the allocator gives the new snapshot. *)
Definition publish (boxed : ptr) (new_unw : UnwinderInternal D) (s : state) : state :=
  MkState (Some boxed) (<[boxed := MkSnapshot new_unw (max_known_code_address new_unw)]> (heap s))
    (slot_chunks s) (slots_allocated s) (registered_threads s)
    (match current s with Some old => retired s ++ [old] | None => retired s end)
    (generations s).

Definition with_writer {A} (boxed : ptr)
    (f : UnwinderInternal D -> ST Z panic (A * UnwinderInternal D)) : ST state crash A :=
  new_unw ← clone_current;
  '(ret, new_unw) ← on_generations (f new_unw);
  _ ← st_modify (publish boxed new_unw);
  _ ← st_modify reclaim;
  mret ret.

(** ** The pool as one list of slots *)

(** The chunks are published front to back, each with [SLOT_CHUNK] slots, and
    [slots_allocated] counts the slots. *)
Definition pool_of (chunks : list (list Slot)) (s : state) : Prop :=
  slot_chunks s = (Some <$> chunks) ++ replicate (MAX_SLOT_CHUNKS - length chunks) None /\
  (length chunks <= MAX_SLOT_CHUNKS)%nat /\
  Forall (fun c => length c = SLOT_CHUNK) chunks /\
  slots_allocated s = Z.of_nat (SLOT_CHUNK * length chunks).

Definition pool_wf (s : state) : Prop := exists chunks, pool_of chunks s.

Lemma concat_lookup {A} (n : nat) (chunks : list (list A)) idx :
  (0 < n)%nat -> Forall (fun c => length c = n) chunks ->
  concat chunks !! idx = (chunk ← chunks !! (idx / n)%nat; chunk !! (idx mod n)%nat).
Proof.
  intros Hn Hc. revert idx. induction Hc as [|c chunks Hl _ IH]; intros idx; [done|].
  simpl. destruct (decide (idx < n)%nat) as [Hlt|Hge].
  - rewrite Nat.div_small, Nat.mod_small by done. simpl. apply lookup_app_l. lia.
  - rewrite lookup_app_r by lia. rewrite IH, Hl.
    assert (E : (idx = (idx - n) + 1 * n)%nat) by lia.
    assert (idx / n = S ((idx - n) / n))%nat as ->.
    { rewrite E at 1. rewrite Nat.div_add by lia. lia. }
    assert (idx mod n = (idx - n) mod n)%nat as ->; [|done].
    rewrite E at 1. by rewrite Nat.Div0.mod_add.
Qed.

Lemma concat_alter {A} (n : nat) (f : A -> A) (chunks : list (list A)) idx c :
  (0 < n)%nat -> Forall (fun c => length c = n) chunks -> chunks !! (idx / n)%nat = Some c ->
  concat (<[(idx / n)%nat := alter f (idx mod n)%nat c]> chunks) = alter f idx (concat chunks).
Proof.
  intros Hn Hc Hi. apply list_eq. intros j.
  assert (Forall (fun c => length c = n) (<[(idx / n)%nat := alter f (idx mod n)%nat c]> chunks)) as Hc'.
  { apply Forall_insert; [done|]. rewrite length_alter. by eapply Forall_lookup_1 in Hi; [|done]. }
  rewrite (concat_lookup n) by done.
  destruct (decide (j = idx)) as [->|Hne].
  - rewrite list_lookup_insert_eq by by eapply lookup_lt_Some. simpl.
    rewrite !list_lookup_alter_eq, (concat_lookup n) by done. by rewrite Hi.
  - rewrite list_lookup_alter_ne, (concat_lookup n) by done.
    destruct (decide (j / n = idx / n)%nat) as [E|]; [|by rewrite list_lookup_insert_ne].
    rewrite E, list_lookup_insert_eq, Hi by by eapply lookup_lt_Some. simpl.
    apply list_lookup_alter_ne. intros Hm. apply Hne.
    rewrite (Nat.div_mod_eq j n), (Nat.div_mod_eq idx n). congruence.
Qed.

Lemma published_slots_app chunks rest :
  published_slots ((Some <$> chunks) ++ replicate rest None) = concat chunks.
Proof.
  induction chunks as [|c chunks IH]; [by destruct rest|].
  rewrite fmap_cons, <- app_comm_cons. cbn [published_slots concat]. by rewrite IH.
Qed.

Lemma pool_of_slots chunks s : pool_of chunks s -> slots s = concat chunks.
Proof. intros (Hc & _). unfold slots. rewrite Hc. apply published_slots_app. Qed.

Lemma pool_of_chunk chunks s i : pool_of chunks s -> slot_chunk s i = chunks !! i.
Proof.
  intros (Hc & _). unfold slot_chunk. rewrite Hc.
  destruct (chunks !! i) as [c|] eqn:E.
  - rewrite lookup_app_l by (rewrite length_fmap; by eapply lookup_lt_Some).
    by rewrite list_lookup_fmap, E.
  - rewrite lookup_app_r by (rewrite length_fmap; by apply lookup_ge_None).
    destruct (replicate _ _ !! _) as [[c|]|] eqn:Er; [|done..].
    by apply lookup_replicate in Er as [? _].
Qed.

(** [slot] indexes the list of all slots. *)
(** The pool never has more than [MAX_SLOT_CHUNKS] chunks of slots. *)
Lemma slots_bounded s : pool_wf s -> (length (slots s) <= MAX_SLOT_CHUNKS * SLOT_CHUNK)%nat.
Proof.
  intros [chunks Hp]. rewrite (pool_of_slots _ _ Hp). destruct Hp as (_ & Hlen & Hf & _).
  assert (length (concat chunks) = length chunks * SLOT_CHUNK)%nat as ->.
  { clear -Hf. induction Hf as [|x l Hx _ IH]; [done|]. cbn [concat length]. rewrite length_app, Hx, IH. lia. }
  by apply Nat.mul_le_mono_r.
Qed.

Lemma slot_index_small s idx sl : pool_wf s -> slots s !! idx = Some sl -> Z.of_nat idx <> u64_MAX.
Proof.
  intros Hp Hi. apply lookup_lt_Some in Hi. pose proof (slots_bounded s Hp).
  unfold SLOT_CHUNK, MAX_SLOT_CHUNKS, u64_MAX in *. lia.
Qed.

Lemma slot_lookup s idx : pool_wf s -> slot s idx = slots s !! idx.
Proof.
  intros [chunks Hp]. unfold slot. rewrite (pool_of_chunk chunks), (pool_of_slots chunks) by done.
  destruct Hp as (_ & _ & Hf & _). by rewrite (concat_lookup SLOT_CHUNK) by (done || unfold SLOT_CHUNK; lia).
Qed.

(** What an update of one slot keeps: everything but the slots. *)
Definition same_but_slots (s s' : state) : Prop :=
  current s' = current s /\ heap s' = heap s /\ slots_allocated s' = slots_allocated s /\
  registered_threads s' = registered_threads s /\ retired s' = retired s /\
  generations s' = generations s.

Lemma update_slot_spec idx f s :
  pool_wf s ->
  pool_wf (update_slot idx f s) /\ slots (update_slot idx f s) = alter f idx (slots s) /\
  same_but_slots s (update_slot idx f s).
Proof.
  intros [chunks Hp]. unfold update_slot. rewrite (pool_of_chunk chunks) by done.
  destruct (chunks !! (idx / SLOT_CHUNK)%nat) as [c|] eqn:Ec.
  - destruct Hp as (Hs & Hl & Hf & Ha).
    assert (pool_of (<[(idx / SLOT_CHUNK)%nat := alter f (idx mod SLOT_CHUNK)%nat c]> chunks)
      (set_slot_chunks (<[(idx / SLOT_CHUNK)%nat := Some (alter f (idx mod SLOT_CHUNK)%nat c)]> (slot_chunks s)) s)) as Hp'.
    { unfold pool_of. rewrite length_insert. split_and!; [|done| |done].
      - simpl. rewrite Hs, insert_app_l by (rewrite length_fmap; by eapply lookup_lt_Some).
        by rewrite list_fmap_insert.
      - apply Forall_insert; [done|]. rewrite length_alter. by eapply Forall_lookup_1 in Ec; [|done]. }
    split_and!; [by eexists| |done].
    rewrite (pool_of_slots _ _ Hp'), (pool_of_slots chunks s) by (by split_and!).
    apply concat_alter; [unfold SLOT_CHUNK; lia|done|done].
  - split_and!; [by eexists| |done]. rewrite (pool_of_slots chunks) by done.
    symmetry. apply list_eq. intros j. destruct (decide (j = idx)) as [->|]; [|by apply list_lookup_alter_ne].
    rewrite list_lookup_alter_eq, (concat_lookup SLOT_CHUNK), Ec; [done|unfold SLOT_CHUNK; lia|apply Hp].
Qed.

(** ** Growing *)

Lemma state_new_pool : pool_of [] state_new.
Proof. split_and!; [done|simpl; lia|constructor|done]. Qed.

Lemma grow_pool chunks s :
  pool_of chunks s -> (length chunks < MAX_SLOT_CHUNKS)%nat ->
  pool_of (chunks ++ [replicate SLOT_CHUNK Slot_new]) (grow s).
Proof.
  intros (Hs & Hl & Hf & Ha) Hlt. split_and!.
  - simpl. rewrite Ha.
    assert (Z.to_nat (Z.of_nat (SLOT_CHUNK * length chunks) / Z.of_nat SLOT_CHUNK) = length (Some <$> chunks)) as ->.
    { rewrite Nat2Z.inj_mul, Z.mul_comm, Z.div_mul by (unfold SLOT_CHUNK; lia).
      by rewrite Nat2Z.id, length_fmap. }
    rewrite Hs, fmap_app, <- app_assoc, length_app.
    destruct (MAX_SLOT_CHUNKS - length chunks)%nat as [|k] eqn:E; [lia|].
    change (replicate (S k) None) with (@None (list Slot) :: replicate k None).
    rewrite insert_middle. simpl length. replace (MAX_SLOT_CHUNKS - (length chunks + 1))%nat with k by lia. done.
  - rewrite length_app. simpl. lia.
  - apply Forall_app. split; [done|]. constructor; [|done]. apply length_replicate.
  - cbn [slots_allocated grow]. rewrite Ha, length_app. cbn [length]. lia.
Qed.

Lemma ensure_slots_loop_spec fuel n s chunks :
  pool_of chunks s -> (MAX_SLOT_CHUNKS - length chunks <= fuel)%nat ->
  exists s' k, ensure_slots_loop fuel n s = Some s' /\
    pool_of (chunks ++ replicate k (replicate SLOT_CHUNK Slot_new)) s' /\
    (n <= slots_allocated s' \/ slots_allocated s' = 1024) /\
    (k <> 0%nat -> slots_allocated s' - 16 < n) /\
    current s' = current s /\ heap s' = heap s /\ registered_threads s' = registered_threads s /\
    retired s' = retired s /\ generations s' = generations s.
Proof.
  revert s chunks. induction fuel as [|fuel IH]; intros s chunks Hp Hfuel; cbn [ensure_slots_loop];
    pose proof Hp as (Hs & Hl & Hf & Ha); change (Z.of_nat (SLOT_CHUNK * MAX_SLOT_CHUNKS)) with 1024.
  - assert (slots_allocated s = 1024) as E.
    { rewrite Ha. unfold SLOT_CHUNK, MAX_SLOT_CHUNKS in *. lia. }
    rewrite E, andb_false_r. exists s, 0%nat. simpl. rewrite app_nil_r. split_and!; auto. done.
  - destruct ((slots_allocated s <? n) && (slots_allocated s <? 1024)) eqn:E; bool_to_prop.
    + apply (grow_pool chunks) in Hp as Hp'; [|unfold MAX_SLOT_CHUNKS, SLOT_CHUNK in *; lia].
      destruct (IH _ _ Hp') as (s' & k & He & Hpk & Hn & Hk & G1 & G2 & G3 & G4 & G5).
      { rewrite length_app. simpl. lia. }
      exists s', (S k). rewrite <- app_assoc in Hpk.
      split_and!; try done. intros _. destruct k as [|k]; [|by apply Hk].
      simpl in Hpk. destruct Hpk as (_ & _ & _ & ->). rewrite length_app. simpl.
      unfold SLOT_CHUNK in *. lia.
    + exists s, 0%nat. simpl. rewrite app_nil_r. split_and!; try done.
      destruct E as [E|E]; bool_to_prop; [by left|right].
      rewrite Ha in *. unfold SLOT_CHUNK, MAX_SLOT_CHUNKS in *. lia.
Qed.

(** Growing the slot pool. [ensure_slots] keeps every existing slot at its
    index with its state, only appends free slots, in whole chunks of 16, stops as
    soon as there are [n] slots or the pool has its maximum of 1024, and changes
    nothing else. *)
Theorem ensure_slots_grows n s (Hp : pool_wf s) :
  let s' := ensure_slots n s in
  pool_wf s' /\
  (exists k, slots s' = slots s ++ replicate (16 * k) Slot_new /\
     (k <> 0%nat -> Z.of_nat (length (slots s')) - 16 < n)) /\
  (n <= Z.of_nat (length (slots s')) \/ length (slots s') = 1024%nat) /\
  current s' = current s /\ heap s' = heap s /\ retired s' = retired s /\ generations s' = generations s.
Proof.
  destruct Hp as [chunks Hp]. unfold ensure_slots.
  destruct (ensure_slots_loop_spec MAX_SLOT_CHUNKS n s chunks Hp) as (s' & k & -> & Hpk & Hn & Hk & G1 & G2 & G3 & G4 & G5);
    [lia|]. cbn zeta. cbn [default from_option id].
  assert (Hlen : Z.of_nat (length (slots s')) = slots_allocated s').
  { rewrite (pool_of_slots _ _ Hpk). destruct Hpk as (_ & _ & Hf & ->). f_equal.
    clear -Hf. induction Hf as [|c l Hc _ IH]; [done|]. cbn [concat length]. rewrite length_app, Hc, IH. lia. }
  rewrite Hlen. split_and!; try done.
  - by eexists.
  - exists k. split; [|done]. rewrite (pool_of_slots _ _ Hpk), (pool_of_slots _ _ Hp), concat_app. f_equal.
    clear. induction k as [|k IH]; [done|]. cbn [replicate concat]. rewrite IH, <- replicate_add. f_equal.
    unfold SLOT_CHUNK. lia.
  - destruct Hn; [by left|right]. lia.
Qed.

(** ** Claiming and releasing *)

Lemma claim_slot_cases s :
  pool_wf s ->
  match claim_slot s with
  | (Some (i, nonce), s') =>
      exists sl, slots s !! i = Some sl /\ in_use sl = false /\ nonce = seq sl +64 1 /\
        (forall j sl', (j < i)%nat -> slots s !! j = Some sl' -> in_use sl' = true) /\
        slots s' = <[i := MkSlot true nonce (hazard sl) (inner sl)]> (slots s) /\
        pool_wf s' /\ same_but_slots s s'
  | (None, s') => s' = s /\ forall sl, sl ∈ slots s -> in_use sl = true
  end.
Proof.
  intros Hp. unfold claim_slot. destruct (list_find _ _) as [[i sl]|] eqn:E.
  - apply list_find_Some in E as (Hi & Hfree & Hbefore).
    destruct (update_slot_spec i (fun sl' => MkSlot true (seq sl +64 1) (hazard sl') (inner sl')) s Hp)
      as (Hp' & Hs' & Hsame).
    exists sl. split_and!; try done.
    + intros j sl' Hj Hlt. destruct (in_use sl') eqn:Eu; [done|]. by destruct (Hbefore j sl' Hlt Hj).
    + by rewrite Hs', (alter_as_insert _ _ _ sl).
  - split; [done|]. intros sl Hsl. apply list_find_None in E. rewrite Forall_forall in E.
    specialize (E sl Hsl). by destruct (in_use sl).
Qed.

(** A wrapping increment never gives the same nonce. *)
Lemma nonce_bumped n : n +64 1 =? n = false.
Proof. apply Z.eqb_neq. unfold wrapping_add, as_u. Z.div_mod_to_equations. lia. Qed.

Lemma nonce_matches_lookup s i n sl :
  pool_wf s -> slots s !! i = Some sl -> nonce_matches s i n = (seq sl =? n).
Proof. intros Hp Hi. unfold nonce_matches. by rewrite slot_lookup, Hi. Qed.

(** Releasing with anything but the current nonce changes nothing. *)
Lemma release_slot_stale s i n : nonce_matches s i n = false -> release_slot i n s = s.
Proof. unfold nonce_matches, release_slot. destruct (slot s i) as [sl|]; [|done]. by intros ->. Qed.

Lemma release_slot_live s i n sl :
  pool_wf s -> slots s !! i = Some sl -> seq sl = n ->
  let s' := release_slot i n s in
  slots s' = <[i := MkSlot false (n +64 1) None (set_snapshot None (inner sl))]> (slots s) /\
  pool_wf s' /\ same_but_slots s s'.
Proof.
  intros Hp Hi Hn. cbn zeta. unfold release_slot. rewrite slot_lookup, Hi, Hn, Z.eqb_refl by done. simpl.
  destruct (update_slot_spec i (fun sl => MkSlot false (n +64 1) None (set_snapshot None (inner sl))) s Hp)
    as (Hp' & Hs' & Hsame).
  split_and!; [|done..]. by rewrite Hs', (alter_as_insert _ _ _ sl).
Qed.

(** A claim owns its slot until it is released, once. Claiming takes the first
    free slot and no other (or fails because none is free), and makes the returned
    nonce the live one; releasing with that nonce frees the slot, clears its
    hazard and snapshot, and makes the nonce stale, so a second release, or one
    through a copy of the cursor, changes nothing. *)
Theorem claim_release s (Hp : pool_wf s) :
  match claim_slot s with
  | (None, s') => s' = s /\ forall sl, sl ∈ slots s -> in_use sl = true
  | (Some (i, nonce), s') =>
      exists sl, slots s !! i = Some sl /\ in_use sl = false /\
        (forall j sl', (j < i)%nat -> slots s !! j = Some sl' -> in_use sl' = true) /\
        slots s' = <[i := MkSlot true nonce (hazard sl) (inner sl)]> (slots s) /\
        nonce_matches s' i nonce = true /\ nonce_matches s' i (seq sl) = false /\
        let s'' := release_slot i nonce s' in
        slots s'' = <[i := MkSlot false (nonce +64 1) None (set_snapshot None (inner sl))]> (slots s) /\
        nonce_matches s'' i nonce = false /\ release_slot i nonce s'' = s''
  end.
Proof.
  pose proof (claim_slot_cases s Hp) as Hc.
  destruct (claim_slot s) as [[[i nonce]|] s']; [|done].
  destruct Hc as (sl & Hi & Hfree & Hnonce & Hfirst & Hs' & Hp' & _).
  assert (Hlt : (i < length (slots s))%nat) by by eapply lookup_lt_Some.
  assert (Hi' : slots s' !! i = Some (MkSlot true nonce (hazard sl) (inner sl))).
  { rewrite Hs'. by apply list_lookup_insert_eq. }
  destruct (release_slot_live s' i nonce _ Hp' Hi' eq_refl) as (Hs'' & Hp'' & _).
  rewrite Hs', list_insert_insert_eq in Hs''.
  assert (nonce_matches (release_slot i nonce s') i nonce = false) as Hstale.
  { erewrite nonce_matches_lookup; [|done|rewrite Hs''; by apply list_lookup_insert_eq].
    apply nonce_bumped. }
  exists sl. cbn zeta. split_and!; try done.
  - erewrite nonce_matches_lookup by done. apply Z.eqb_refl.
  - erewrite nonce_matches_lookup by done. simpl. rewrite Hnonce. apply nonce_bumped.
  - by apply release_slot_stale.
Qed.

(** ** The writer *)

(** Every snapshot that is published, retired or hazarded is alive, the retired
    ones are distinct and not published, and nothing else is alive. *)
Record heap_wf (s : state) : Prop := {
  hw_alive : forall p, is_Some (heap s !! p) <-> current s = Some p \/ p ∈ retired s;
  hw_nodup : NoDup (retired s);
  hw_current : forall p, current s = Some p -> p ∉ retired s;
  hw_hazard : forall sl p, sl ∈ slots s -> hazard sl = Some p -> is_Some (heap s !! p);
}.

Lemma is_hazarded_true s p : is_hazarded s p = true <-> exists sl, sl ∈ slots s /\ hazard sl = Some p.
Proof.
  unfold is_hazarded. rewrite existsb_exists. setoid_rewrite bool_decide_eq_true.
  setoid_rewrite list_elem_of_In. done.
Qed.

Lemma reclaim_list_spec hz st (h : gmap ptr Snapshot) :
  reclaim_list hz st h =
    (filter (fun p => hz p = true) st,
     foldr delete h (filter (fun p => hz p = false) st)) \/ ~ NoDup st.
Proof.
  revert h. induction st as [|p st IH]; intros h; [by left|].
  destruct (decide (NoDup (p :: st))) as [Hnd|]; [|by right]. left.
  apply NoDup_cons in Hnd as [Hp Hnd]. cbn [reclaim_list]. rewrite !filter_cons.
  destruct (hz p) eqn:E.
  - rewrite decide_True, decide_False by done. destruct (IH h) as [->|]; [done|done].
  - rewrite decide_False, decide_True by done. destruct (IH (delete p h)) as [->|]; [|done].
    f_equal. simpl. clear. induction (filter _ st) as [|q l IHl]; [done|]. simpl.
    rewrite IHl. apply delete_delete.
Qed.

Lemma foldr_delete_lookup (h : gmap ptr Snapshot) l p :
  foldr delete h l !! p = if decide (p ∈ l) then None else h !! p.
Proof.
  induction l as [|q l IH]; cbn [foldr]; [by rewrite decide_False by set_solver|].
  rewrite lookup_delete, IH. repeat case_decide; set_solver.
Qed.

Lemma reclaim_spec s :
  NoDup (retired s) ->
  let s' := reclaim s in
  slots s' = slots s /\ slot_chunks s' = slot_chunks s /\ slots_allocated s' = slots_allocated s /\
  current s' = current s /\ generations s' = generations s /\
  retired s' = filter (fun p => is_hazarded s p = true) (retired s) /\
  forall p, heap s' !! p = if decide (p ∈ retired s /\ is_hazarded s p = false) then None else heap s !! p.
Proof.
  intros Hnd. cbn zeta. unfold reclaim.
  destruct (reclaim_list_spec (is_hazarded s) (retired s) (heap s)) as [->|]; [|done].
  split_and!; try done. intros p. cbn [heap]. rewrite foldr_delete_lookup.
  apply decide_ext. rewrite list_elem_of_filter. naive_solver.
Qed.

(** The module set the writer's function is given: the published one, or an empty
    one with a fresh generation before the first publication. *)
Definition starts_from (s : state) (u : UnwinderInternal D) (g : Z) : Prop :=
  match current s with
  | Some cur => exists snap, heap s !! cur = Some snap /\ u = unw snap /\ g = generations s
  | None => UnwinderInternal_new (generations s) = (Ok u, g)
  end.

Lemma clone_current_spec s u g :
  starts_from s u g -> clone_current s = (Ok u, set_generations g s).
Proof.
  unfold starts_from, clone_current. rewrite st_bind_spec, st_get_spec.
  destruct (current s) as [cur|] eqn:E.
  - intros (snap & -> & -> & ->). by destruct s.
  - unfold on_generations. by intros ->.
Qed.

Lemma with_writer_spec {A} boxed (f : UnwinderInternal D -> ST Z panic (A * UnwinderInternal D))
    s u g a u' g'
    (Hwf : heap_wf s) (Hbox : heap s !! boxed = None)
    (Hstart : starts_from s u g) (Hf : f u g = (Ok (a, u'), g')) :
  exists s', with_writer boxed f s = (Ok a, s') /\
    heap_wf s' /\ slots s' = slots s /\ generations s' = g' /\
    slot_chunks s' = slot_chunks s /\ slots_allocated s' = slots_allocated s /\
    current s' = Some boxed /\
    heap s' !! boxed = Some (MkSnapshot u' (max_known_code_address u')) /\
    (forall p, p <> boxed -> heap s' !! p = if is_hazarded s p then heap s !! p else None).
Proof.
  destruct Hwf as [Halive Hnd Hcur Hhaz].
  set (s1 := publish boxed u' (set_generations g' (set_generations g s))).
  assert (Hrun : with_writer boxed f s = (Ok a, reclaim s1)).
  { unfold with_writer. rewrite st_bind_spec, (clone_current_spec _ _ _ Hstart), st_bind_spec.
    unfold on_generations. simpl. by rewrite Hf. }
  assert (Hret : retired s1 = match current s with Some old => retired s ++ [old] | None => retired s end).
  { unfold s1. simpl. by destruct (current s). }
  assert (Hnd1 : NoDup (retired s1)).
  { rewrite Hret. destruct (current s) as [old|] eqn:E; [|done].
    apply NoDup_app. split_and!; [done| |apply NoDup_singleton].
    intros x Hx ->%list_elem_of_singleton. by eapply Hcur. }
  assert (Hold : forall p, p ∈ retired s1 <-> is_Some (heap s !! p)).
  { intros p. rewrite Hret, Halive. destruct (current s); set_solver. }
  assert (Hnb : boxed ∉ retired s1). { rewrite Hold, Hbox. by intros []. }
  destruct (reclaim_spec s1 Hnd1) as (Hsl & Hch & Hal & Hc & Hg & Hr & Hh).
  change (slots s1) with (slots s) in *.
  assert (Hh1 : heap s1 = <[boxed := MkSnapshot u' (max_known_code_address u')]> (heap s)) by done.
  assert (His : forall p, is_hazarded s1 p = is_hazarded s p) by done.
  assert (Hheap : forall p, p <> boxed -> heap (reclaim s1) !! p = if is_hazarded s p then heap s !! p else None).
  { intros p Hp. rewrite Hh, His, Hh1.
    rewrite lookup_insert_ne by done. destruct (is_hazarded s p); [by rewrite decide_False by naive_solver|].
    case_decide as Hd; [done|]. destruct (heap s !! p) eqn:E; [|done].
    destruct Hd. split; [|done]. apply Hold. by eexists. }
  assert (Hbx : heap (reclaim s1) !! boxed = Some (MkSnapshot u' (max_known_code_address u'))).
  { rewrite Hh, decide_False, Hh1 by naive_solver. apply lookup_insert_eq. }
  exists (reclaim s1). split_and!; try done. split.
  - intros p. rewrite Hc, Hr. change (current s1) with (Some boxed). rewrite list_elem_of_filter.
    destruct (decide (p = boxed)) as [->|Hp]; [rewrite Hbx; naive_solver|].
    rewrite Hheap, Hold, His by done.
    destruct (is_hazarded s p); [naive_solver|]. split; [by intros []|naive_solver].
  - rewrite Hr. by apply NoDup_filter.
  - intros p. rewrite Hc. change (current s1) with (Some boxed). intros [= <-].
    rewrite Hr, list_elem_of_filter. naive_solver.
  - intros sl p Hin Hsp. rewrite Hsl in Hin.
    assert (Hz : is_hazarded s p = true) by (apply is_hazarded_true; eauto).
    assert (p <> boxed) by (intros ->; destruct (Hhaz sl boxed) as [? ?]; [done..|congruence]).
    rewrite Hheap, Hz by done. by eapply Hhaz.
Qed.

(** C26: what a writer publishes and frees. Given the result of its mutation on the
    current module set, [with_writer] publishes exactly that set, with the cached
    highest code address; it frees exactly the replaced and retired snapshots that
    no hazard cell references, every hazarded one stays alive with its contents,
    the slots are untouched, and nothing leaks: what is not published and not
    hazarded is freed. *)
Theorem with_writer_publishes {A} boxed (f : UnwinderInternal D -> ST Z panic (A * UnwinderInternal D))
    s u g a u' g'
    (Hwf : heap_wf s) (Hbox : heap s !! boxed = None)
    (Hstart : starts_from s u g) (Hf : f u g = (Ok (a, u'), g')) :
  exists s', with_writer boxed f s = (Ok a, s') /\
    heap_wf s' /\ slots s' = slots s /\ generations s' = g' /\
    current s' = Some boxed /\
    heap s' !! boxed = Some (MkSnapshot u' (max_known_code_address u')) /\
    (forall p, p <> boxed -> heap s' !! p = if is_hazarded s p then heap s !! p else None).
Proof.
  destruct (with_writer_spec boxed f s u g a u' g') as (s' & H1' & H2' & H3' & H4' & _ & _ & H'); [done..|].
  by exists s'.
Qed.
End State.

(** ** Concrete runs *)

Definition example_pool_state : state (D := unit) (R := UnwindRuleX86_64) (Regs := UnwindRegsX86_64) (C := unit) :=
  init tt 20 state_new.

Lemma state_new_pool_wf {D R Regs C} : pool_wf (state_new (D := D) (R := R) (Regs := Regs) (C := C)).
Proof. exists []. apply state_new_pool. Defined.

Lemma example_pool_wf : pool_wf example_pool_state.
Proof.
  exists (replicate 2 (replicate 16 (Slot_new tt))).
  split_and!; [reflexivity|by apply Nat.leb_le|repeat constructor|reflexivity].
Defined.

Lemma ensure_slots_grows_witness :
  let s' := ensure_slots tt 20 (state_new (D := unit) (R := UnwindRuleX86_64) (Regs := UnwindRegsX86_64)) in
  20 <= Z.of_nat (length (slots s')) \/ length (slots s') = 1024%nat.
Proof. cbn zeta. eapply ensure_slots_grows, state_new_pool_wf. Defined.

Lemma claim_release_witness :
  match claim_slot example_pool_state with
  | (Some (i, nonce), s') => i = 0%nat /\ nonce = 1 /\ release_slot i nonce (release_slot i nonce s') = release_slot i nonce s'
  | (None, _) => False
  end.
Proof.
  pose proof (claim_release example_pool_state example_pool_wf) as H.
  destruct (claim_slot example_pool_state) as [[[i nonce]|] s'] eqn:E; [|vm_compute in E; discriminate].
  destruct H as (sl & _ & _ & _ & _ & _ & _ & _ & _ & H). split_and!; [..|exact H].
  - vm_compute in E. congruence.
  - vm_compute in E. congruence.
Defined.

Lemma with_writer_publishes_witness :
  exists s', with_writer 7%nat (fun u => u' ← add_module u (example_module 4096 8192); mret (tt, u')) example_pool_state = (Ok tt, s') /\
    current s' = Some 7%nat /\ generations s' = 2.
Proof.
  destruct (with_writer_publishes 7%nat
    (fun u => u' ← add_module u (example_module 4096 8192); mret (tt, u')) example_pool_state
    (MkUnwinder [] 0) 1 tt (MkUnwinder [[example_module 4096 8192]] 1) 2) as (s' & H1 & _ & _ & H2 & H3 & _).
  - split; [|constructor|done|].
    + intros p. change (heap example_pool_state) with (∅ : gmap ptr (Snapshot (D := unit))).
      change (retired example_pool_state) with (@nil ptr). rewrite lookup_empty.
      split; [by intros []|]. intros [?|?%not_elem_of_nil]; done.
    + intros sl p Hin. change (slots example_pool_state) with (replicate 32 (Slot_new tt)
        : list (Slot (R := UnwindRuleX86_64) (Regs := UnwindRegsX86_64) (C := unit))) in Hin.
      apply elem_of_replicate in Hin as [-> _]. done.
  - reflexivity.
  - reflexivity.
  - reflexivity.
  - exists s'. done.
Defined.
