(* ===== verification/Sequential.v ===== *)
(** * The operations of the state are runs of the protocol

    [State] has the operations of [src/src/state.rs] whole, [Hazard] has them one atomic
    access at a time. Here every operation of [State] that touches the atomics, when it
    runs without interference, is a run of the steps of [Hazard]: what is proved of all
    interleavings of the steps holds of the operations, whatever other threads are in the
    middle of. *)
From S2P Require Import Prelude CodeAddress UnwindRule Generation ModuleList RuleCache Unwinder Arch Hazard State X86Regs X86Rules.

(** ** A scan of all slots, chunk by chunk *)

Section scan.
  Context {A : Type} (step : A -> A -> Prop) (at_chunk at_slot : nat -> A) (sl : list hslot) (pass : nat -> Prop).
  Context (Hpool : pool_inv sl).
  Context (enter : forall c, chunk_published sl c = true -> step (at_chunk c) (at_slot (SLOT_CHUNK * c)%nat)).
  Context (next : forall j, (j < length sl)%nat -> pass j -> step (at_slot j) (scan_next at_chunk at_slot j)).

Lemma chunk_published_spec c : chunk_published sl c = true <-> (SLOT_CHUNK * c < length sl)%nat.
Proof.
  destruct Hpool as [_ Hmax]. unfold chunk_published. rewrite andb_true_iff, !Nat.ltb_lt.
  unfold SLOT_CHUNK, MAX_SLOT_CHUNKS in *. lia.
Qed.

(** After a slot that is passed comes the next one, if there is one. *)
Lemma scan_on j : (S j < length sl)%nat -> pass j -> rtc step (at_slot j) (at_slot (S j)).
Proof.
  intros Hj Hpass. eapply rtc_l; [apply next; [lia|done]|]. unfold scan_next.
  destruct (Nat.eqb_spec (S j mod SLOT_CHUNK) 0) as [E|]; [|done].
  assert (S j = SLOT_CHUNK * (S j / SLOT_CHUNK))%nat as Hc by by apply Nat.Div0.div_exact.
  rewrite Hc at 2. apply rtc_once, enter. rewrite chunk_published_spec. by rewrite <- Hc.
Qed.

Lemma scan_from i : (i < length sl)%nat -> (forall j, (j < i)%nat -> pass j) -> rtc step (at_slot 0) (at_slot i).
Proof.
  induction i as [|i IH]; intros Hi Hpass; [done|]. etrans; [apply IH; [lia|intros j Hj; apply Hpass; lia]|].
  apply scan_on; [lia|]. apply Hpass. lia.
Qed.

Lemma scan_to i : (i < length sl)%nat -> (forall j, (j < i)%nat -> pass j) -> rtc step (at_chunk 0) (at_slot i).
Proof.
  intros Hi Hpass. eapply rtc_l; [|by apply scan_from]. apply (enter 0). rewrite chunk_published_spec. lia.
Qed.

(** When every slot is passed, the scan comes to a chunk that is not there. *)
Lemma scan_all : (forall j, (j < length sl)%nat -> pass j) ->
  exists c, rtc step (at_chunk 0) (at_chunk c) /\ chunk_published sl c = false.
Proof.
  intros Hpass. destruct (decide (length sl = 0%nat)) as [E|Hne].
  - exists 0%nat. split; [done|]. apply not_true_iff_false. rewrite chunk_published_spec. lia.
  - assert (exists i, length sl = S i) as [i Hi] by (destruct (length sl) as [|i]; [done|by exists i]).
    exists (S i / SLOT_CHUNK)%nat. assert (S i mod SLOT_CHUNK = 0)%nat as Hm by (rewrite <- Hi; apply Hpool).
    assert (S i = SLOT_CHUNK * (S i / SLOT_CHUNK))%nat as Hc by by apply Nat.Div0.div_exact.
    split; [|apply not_true_iff_false; rewrite chunk_published_spec; lia].
    etrans; [apply (scan_to i); [lia|intros j Hj; apply Hpass; lia]|]. apply rtc_once.
    pose proof (next i) as Hn. unfold scan_next in Hn. rewrite Hm in Hn. apply Hn; [lia|]. apply Hpass. lia.
Qed.
End scan.

Section sequential.
  Context {D R Regs C : Type} `{UnwindRule R Regs} `{Native Regs} (context_new : C).
  Abbreviation lib_state := (state (D := D) (R := R) (Regs := Regs) (C := C)).
  Implicit Types (s : lib_state) (th : gmap nat rpc).

(** What the protocol sees of a state: the slots' atomics, the pointers and which boxes
    are allocated. *)
Definition atomics (sl : Slot (R := R) (Regs := Regs) (C := C)) : hslot := HSlot (in_use sl) (seq sl) (hazard sl).
Definition protocol s th : hstate := HState (current s) (dom (heap s)) (atomics <$> slots s) th (retired s) WIdle.

Lemma pool_wf_inv s : pool_wf s -> pool_inv (atomics <$> slots s).
Proof.
  intros [chunks Hp]. unfold pool_inv. rewrite length_fmap, (pool_of_slots _ _ Hp). destruct Hp as (_ & Hl & Hf & _).
  assert (length (concat chunks) = length chunks * SLOT_CHUNK)%nat as ->.
  { clear -Hf. induction Hf as [|c l Hc _ IH]; [done|]. cbn [concat length]. rewrite length_app, Hc, IH. lia. }
  split; [apply Nat.Div0.mod_mul|]. rewrite Nat.mul_comm. by apply Nat.mul_le_mono_l.
Qed.

Lemma atomics_insert s s' i sl : slots s' = <[i := sl]> (slots s) -> atomics <$> slots s' = <[i := atomics sl]> (atomics <$> slots s).
Proof. intros ->. apply list_fmap_insert. Qed.

Lemma protocol_slots s s' th sls : same_but_slots s s' -> atomics <$> slots s' = sls ->
  protocol s' th = HState (current s) (dom (heap s)) sls th (retired s) WIdle.
Proof. intros (E1 & E2 & _ & _ & E3 & _) <-. unfold protocol. by rewrite E1, E2, E3. Qed.

(** *** Readers *)

Section reader.
  Context (cur : option ptr) (hp : gset ptr) (rt : list ptr) (t : nat).
  Abbreviation at_ th sls pc := (HState cur hp sls (<[t := pc]> th) rt WIdle).

(** The thread's steps, while nobody else makes one. *)
Lemma reader_step th sls sls' pc pc' : rstep cur sls pc sls' pc' -> hstep (at_ th sls pc) (at_ th sls' pc').
Proof. intros Hr. rewrite <- (insert_insert_eq th t pc' pc). eapply h_read; [apply lookup_insert_eq|done]. Qed.

(** [claim_slot] goes past the slots that are in use. *)
Lemma reader_next sls j : (j < length sls)%nat -> (forall x, sls !! j = Some x -> h_in_use x = true) ->
  rstep cur sls (RTry j) sls (scan_next RChunk RTry j).
Proof. intros [x Hx]%lookup_lt_is_Some Hbusy. by eapply r_try_busy, Hbusy. Qed.

Lemma reader_scan th sls pc : rtc (fun pc pc' => rstep cur sls pc sls pc') (RChunk 0) pc ->
  rtc hstep (at_ th sls (RChunk 0)) (at_ th sls pc).
Proof. apply (rtc_congruence (fun pc => at_ th sls pc)). intros pc1 pc2. apply reader_step. Qed.

Lemma claim_run th sls i q hz : pool_inv sls -> sls !! i = Some (HSlot false q hz) ->
  (forall j x, (j < i)%nat -> sls !! j = Some x -> h_in_use x = true) ->
  rtc hstep (at_ th sls (RChunk 0)) (at_ th (<[i := HSlot true (q +64 1) hz]> sls) (RLoad i (q +64 1))).
Proof.
  intros Hp Hi Hbusy. pose proof (lookup_lt_Some _ _ _ Hi). etrans.
  { apply reader_scan, (scan_to _ RChunk RTry sls (fun j => forall x, sls !! j = Some x -> h_in_use x = true) Hp (r_chunk cur sls));
      [intros j; apply reader_next|done|]. intros j Hj x. by apply Hbusy. }
  eapply rtc_l; [by eapply reader_step, r_try_claim|]. apply rtc_once.
  rewrite <- (list_insert_insert_eq sls i (HSlot true (q +64 1) hz) (HSlot true q hz)).
  apply reader_step, r_nonce. by apply list_lookup_insert_eq.
Qed.

Lemma claim_fail_run th sls : pool_inv sls -> (forall j x, sls !! j = Some x -> h_in_use x = true) ->
  rtc hstep (at_ th sls (RChunk 0)) (at_ th sls RDone).
Proof.
  intros Hp Hbusy. destruct (scan_all (fun pc pc' => rstep cur sls pc sls pc') RChunk RTry sls (fun _ => True) Hp (r_chunk cur sls)) as (c & Hscan & Hc); [|done|].
  { intros j Hj _. apply reader_next; [done|]. intros x. apply Hbusy. }
  etrans; [apply reader_scan, Hscan|]. apply rtc_once, reader_step. by apply r_exhausted.
Qed.

(** The re-check of [acquire_snapshot] finds what was loaded. *)
Lemma acquire_run th sls i n u q hz o : sls !! i = Some (HSlot u q hz) -> cur = o ->
  rtc hstep (at_ th sls (RLoad i n)) (at_ th (<[i := HSlot u q o]> sls) (match o with Some p => RHold i n p | None => RRelease i n end)).
Proof.
  intros Hi Ho. destruct o as [p|].
  - eapply rtc_l; [apply reader_step, (r_load cur sls i n p)|]. eapply rtc_l; [by eapply reader_step, r_store|].
    by apply rtc_once, reader_step, r_recheck_ok.
  - eapply rtc_l; [apply reader_step, r_load_null|]. by eapply rtc_once, reader_step, r_store_null.
Qed.

Lemma release_run th sls i n u hz : sls !! i = Some (HSlot u n hz) ->
  rtc hstep (at_ th sls (RRelease i n)) (at_ th (<[i := HSlot false (n +64 1) None]> sls) RDone).
Proof.
  intros Hi. pose proof (lookup_lt_Some _ _ _ Hi). eapply rtc_l; [by eapply reader_step, r_release|].
  eapply rtc_l; [eapply reader_step, r_clear; by apply list_lookup_insert_eq|]. rewrite list_insert_insert_eq.
  rewrite <- (list_insert_insert_eq sls i (HSlot false (n +64 1) None) (HSlot u (n +64 1) None)).
  eapply rtc_once, reader_step, r_free. by apply list_lookup_insert_eq.
Qed.
End reader.

(** *** The writer *)

Section writer.
  Context (cur : option ptr) (sls : list hslot) (th : gmap nat rpc) (Hpool : pool_inv sls).
  Abbreviation at_ hp w := (HState cur hp sls th [] w).

(** One snapshot of the list: it is kept when a hazard cell has it and freed when none has. *)
Lemma examine_run hp kept p todo :
  rtc hstep (at_ hp (WReclaim kept (p :: todo)))
    (if existsb (fun x => bool_decide (h_hazard x = Some p)) sls then at_ hp (WReclaim (kept ++ [p]) todo)
     else at_ (hp ∖ {[p]}) (WReclaim kept todo)).
Proof using Hpool.
  eapply rtc_l; [apply h_examine|]. set (pass := fun j => forall x, sls !! j = Some x -> h_hazard x <> Some p).
  set (step := fun w w' => hstep (at_ hp w) (at_ hp w')).
  assert (forall c, chunk_published sls c = true -> step (WChunk kept p todo c) (WScan kept p todo (SLOT_CHUNK * c)%nat)) as Henter.
  { intros c. apply h_chunk. }
  assert (forall j, (j < length sls)%nat -> pass j -> step (WScan kept p todo j) (scan_next (WChunk kept p todo) (WScan kept p todo) j)) as Hnext.
  { intros j [x Hx]%lookup_lt_is_Some Hpass. by eapply h_not_here, Hpass. }
  assert (forall w, rtc step (WChunk kept p todo 0) w -> rtc hstep (at_ hp (WChunk kept p todo 0)) (at_ hp w)) as Hlift.
  { intros w. by apply (rtc_congruence (fun w => at_ hp w)). }
  destruct (existsb _ sls) eqn:E.
  - destruct (list_find (fun x => h_hazard x = Some p) sls) as [[i x]|] eqn:Ef.
    + apply list_find_Some in Ef as (Hi & Hx & Hbefore). etrans; [apply Hlift, (scan_to step _ _ sls pass Hpool Henter Hnext i)|].
      * by eapply lookup_lt_Some.
      * intros j Hj y Hy. by eapply Hbefore.
      * by eapply rtc_once, h_hazarded.
    + apply list_find_None in Ef. apply existsb_exists in E as (x & Hin%list_elem_of_In & Hx%bool_decide_eq_true).
      rewrite Forall_forall in Ef. by destruct (Ef x).
  - destruct (scan_all step _ _ sls pass Hpool Henter Hnext) as (c & Hscan & Hc).
    + intros j Hj x Hx Hh. apply not_true_iff_false in E. apply E, existsb_exists. exists x.
      split; [by eapply list_elem_of_In, list_elem_of_lookup_2|by apply bool_decide_eq_true].
    + etrans; [by apply Hlift|]. by apply rtc_once, h_drop.
Qed.

Lemma reclaim_run (hazarded : ptr -> bool) todo (h : gmap ptr (Snapshot (D := D))) kept :
  (forall p, hazarded p = existsb (fun x => bool_decide (h_hazard x = Some p)) sls) ->
  let '(kept', h') := reclaim_list hazarded todo h in
  rtc hstep (at_ (dom h) (WReclaim kept todo)) (at_ (dom h') (WReclaim (kept ++ kept') [])).
Proof using Hpool.
  intros Hhz. revert h kept. induction todo as [|p todo IH]; intros h kept; cbn [reclaim_list]; [by rewrite app_nil_r|].
  pose proof (examine_run (dom h) kept p todo) as Hrun. rewrite <- Hhz in Hrun. destruct (hazarded p).
  - specialize (IH h (kept ++ [p])). destruct (reclaim_list hazarded todo h) as [kept' h']. rewrite <- app_assoc in IH. by etrans.
  - specialize (IH (delete p h) kept). destruct (reclaim_list hazarded todo (delete p h)) as [kept' h'].
    rewrite dom_delete_L in IH. by etrans.
Qed.
End writer.
(** *** The operations *)

Lemma with_writer_Ok {A} boxed (f : UnwinderInternal D -> ST Z panic (A * UnwinderInternal D)) s a s' :
  with_writer boxed f s = (Ok a, s') -> exists u g, s' = reclaim (publish boxed u (set_generations g s)).
Proof.
  unfold with_writer. intros (u & s1 & Hc & Hrest)%st_bind_Ok. apply st_bind_Ok in Hrest as ([b u'] & s2 & Hf & Hrest).
  rewrite st_bind_spec, st_modify_spec, st_bind_spec, st_modify_spec in Hrest. injection Hrest as _ <-.
  assert (exists g, s1 = set_generations g s) as [g1 ->].
  { unfold clone_current in Hc. rewrite st_bind_spec, st_get_spec in Hc. destruct (current s) as [p|].
    - destruct (heap s !! p) as [snap|]; [|done]. injection Hc as _ <-. exists (generations s). by destruct s.
    - unfold on_generations in Hc. destruct (UnwinderInternal_new (generations s)) as [[?|?] g]; [|done]. injection Hc as _ <-. by exists g. }
  unfold on_generations in Hf. destruct (f u _) as [[[b' u'']|?] g2]; [|done]. injection Hf as _ <- <-. by exists u'', g2.
Qed.

Lemma hazarded_atomics s p : is_hazarded s p = existsb (fun x => bool_decide (h_hazard x = Some p)) (atomics <$> slots s).
Proof. unfold is_hazarded. induction (slots s) as [|x l IH]; [done|]. rewrite fmap_cons. cbn [existsb]. by rewrite IH. Qed.

Lemma writer_run {A} boxed (f : UnwinderInternal D -> ST Z panic (A * UnwinderInternal D)) s th a s' :
  pool_wf s -> heap s !! boxed = None -> with_writer boxed f s = (Ok a, s') -> rtc hstep (protocol s th) (protocol s' th).
Proof.
  intros Hp Hbox (u & g & ->)%with_writer_Ok. unfold protocol at 1.
  eapply rtc_l; [apply h_lock|]. eapply rtc_l; [apply h_box with (new := boxed); by apply not_elem_of_dom|].
  eapply rtc_l; [apply h_swap|]. set (s1 := publish boxed u (set_generations g s)).
  pose proof (reclaim_run (Some boxed) (atomics <$> slots s) th (pool_wf_inv s Hp) (is_hazarded s1) (retired s1) (heap s1) []) as Hrun.
  unfold reclaim. destruct (reclaim_list (is_hazarded s1) (retired s1) (heap s1)) as [kept h].
  assert (dom (heap s1) = {[boxed]} ∪ dom (heap s)) as Hdom by apply dom_insert_L. rewrite Hdom in Hrun.
  assert (retired s ++ match current s with Some old => [old] | None => [] end = retired s1) as ->.
  { unfold s1. cbn. destruct (current s); [done|apply app_nil_r]. }
  etrans; [apply Hrun|by apply rtc_once, h_unlock]. intros p. apply (hazarded_atomics s).
Qed.

Lemma grow_run s s' th k : slots s' = slots s ++ replicate (SLOT_CHUNK * k) (Slot_new context_new) ->
  (length (slots s') <= SLOT_CHUNK * MAX_SLOT_CHUNKS)%nat -> current s' = current s -> heap s' = heap s -> retired s' = retired s ->
  rtc hstep (protocol s th) (protocol s' th).
Proof.
  intros Hs Hlen E1 E2 E3. unfold protocol. rewrite E1, E2, E3, Hs, fmap_app, fmap_replicate. rewrite Hs, length_app, length_replicate in Hlen.
  rewrite <- (length_fmap atomics) in Hlen. change (atomics (Slot_new context_new)) with hslot_new.
  clear Hs. induction k as [|k IH]; [by rewrite Nat.mul_0_r, app_nil_r|]. etrans; [apply IH; lia|]. apply rtc_once.
  replace (SLOT_CHUNK * S k)%nat with (SLOT_CHUNK * k + SLOT_CHUNK)%nat by lia. rewrite replicate_add, app_assoc.
  apply h_grow. rewrite length_app, length_replicate. unfold SLOT_CHUNK in *. lia.
Qed.

(** C6: the operations of the state are runs of the hazard-pointer protocol. From any
    state and whatever the other threads are in the middle of, growing the pool,
    claiming a slot, acquiring the snapshot, releasing the slot, releasing it with a
    stale nonce and publishing as the writer each lead to the state that the protocol's
    own steps, one atomic access at a time, lead to. So what is proved of every
    interleaving of those steps holds of the operations. *)
Theorem operations_are_runs s th t (Hp : pool_wf s) :
  (forall n, rtc hstep (protocol s th) (protocol (ensure_slots context_new n s) th)) /\
  (th !! t = None \/ th !! t = Some RDone ->
     match claim_slot s with
     | (Some (i, n), s') => rtc hstep (protocol s th) (protocol s' (<[t := RLoad i n]> th))
     | (None, s') => rtc hstep (protocol s th) (protocol s' (<[t := RDone]> th))
     end) /\
  (forall i n, th !! t = Some (RLoad i n) -> is_Some (slots s !! i) ->
     let '(p, s') := acquire_snapshot i s in
     rtc hstep (protocol s th) (protocol s' (<[t := match p with Some p => RHold i n p | None => RRelease i n end]> th))) /\
  (forall i n pc, th !! t = Some pc -> pc = RRelease i n \/ (exists p, pc = RHold i n p) -> nonce_matches s i n = true ->
     rtc hstep (protocol s th) (protocol (release_slot i n s) (<[t := RDone]> th))) /\
  (forall i n, th !! t = None \/ th !! t = Some RDone -> is_Some (slots s !! i) -> nonce_matches s i n = false ->
     rtc hstep (protocol s th) (protocol (release_slot i n s) (<[t := RDone]> th))) /\
  (forall A boxed (f : UnwinderInternal D -> ST Z panic (A * UnwinderInternal D)) a s',
     heap s !! boxed = None -> with_writer boxed f s = (Ok a, s') -> rtc hstep (protocol s th) (protocol s' th)).
Proof.
  pose proof (pool_wf_inv s Hp) as Hpool. split_and!.
  - intros n. destruct (ensure_slots_grows context_new n s Hp) as (Hp' & (k & Hs & _) & _ & E1 & E2 & E3 & _).
    pose proof (slots_bounded _ Hp'). by apply (grow_run _ _ th k).
  - intros Ht. pose proof (claim_slot_cases s Hp) as Hc. destruct (claim_slot s) as [[[i n]|] s'].
    + destruct Hc as (sl & Hi & Hfree & -> & Hbusy & Hs & _ & Hsame). eapply rtc_l; [by eapply h_enter|].
      rewrite (protocol_slots _ _ _ _ Hsame (atomics_insert _ _ _ _ Hs)). apply claim_run; [done| |].
      * rewrite list_lookup_fmap, Hi. unfold atomics. cbn. by rewrite Hfree.
      * intros j x Hj (y & -> & Hy)%list_lookup_fmap_Some. by eapply Hbusy.
    + destruct Hc as [-> Hbusy]. eapply rtc_l; [by eapply h_enter|]. apply claim_fail_run; [done|].
      intros j x (y & -> & Hy)%list_lookup_fmap_Some. by eapply Hbusy, list_elem_of_lookup_2.
  - intros i n Ht [sl Hi]. unfold acquire_snapshot. rewrite slot_lookup, Hi by done.
    destruct (update_slot_spec i (set_hazard (current s)) s Hp) as (_ & Hs & Hsame).
    rewrite (alter_as_insert _ _ _ sl) in Hs by done. rewrite (protocol_slots _ _ _ _ Hsame (atomics_insert _ _ _ _ Hs)).
    unfold protocol at 1. rewrite <- (insert_id th t (RLoad i n) Ht) at 1. eapply acquire_run; [|done].
    by rewrite list_lookup_fmap, Hi.
  - intros i n pc Ht Hpc Hn. unfold nonce_matches in Hn. rewrite slot_lookup in Hn by done. destruct (slots s !! i) as [sl|] eqn:Hi; [|done].
    apply Z.eqb_eq in Hn. destruct (release_slot_live s i n sl Hp Hi Hn) as (Hs & _ & Hsame).
    rewrite (protocol_slots _ _ _ _ Hsame (atomics_insert _ _ _ _ Hs)). unfold protocol at 1.
    assert (rtc hstep (HState (current s) (dom (heap s)) (atomics <$> slots s) th (retired s) WIdle)
      (HState (current s) (dom (heap s)) (atomics <$> slots s) (<[t := RRelease i n]> th) (retired s) WIdle)) as Hin.
    { destruct Hpc as [->|[p ->]]; [by rewrite insert_id|]. by eapply rtc_once, h_read, r_finish. }
    etrans; [exact Hin|]. eapply release_run. rewrite list_lookup_fmap, Hi. unfold atomics. cbn. by rewrite Hn.
  - intros i n Ht [sl Hi] Hn. rewrite release_slot_stale by done. eapply rtc_l; [by eapply (h_enter_stale _ _ _ _ _ _ t i n)|].
    apply rtc_once, reader_step. eapply (r_stale _ _ _ _ (atomics sl)); [by rewrite list_lookup_fmap, Hi|].
    rewrite (nonce_matches_lookup _ _ _ sl) in Hn by done. by apply Z.eqb_neq.
  - intros A boxed f a s'. by apply writer_run.
Qed.
End sequential.

(** ** A run *)

Section example.
Lemma operations_are_runs_witness :
  (claim_slot example_pool_state).1 = Some (0%nat, 1) /\
  rtc hstep (protocol example_pool_state ∅) (protocol (claim_slot example_pool_state).2 {[0%nat := RLoad 0 1]}).
Proof.
  destruct (operations_are_runs tt example_pool_state ∅ 0%nat example_pool_wf) as (_ & Hclaim & _).
  specialize (Hclaim (or_introl eq_refl)). by vm_compute in Hclaim.
Defined.
End example.
