(* ===== verification/Registry.v ===== *)
(** * The module registry

    Models [src/src/modules/mod.rs]: which module keys are published, split into
    the static modules of the loader and the registered JIT modules, and how
    [refresh], the dyld callbacks and the JIT registrations turn into updates of
    the published snapshot. Every operation runs under the registry's lock. *)
From S2P Require Import Prelude CodeAddress UnwindRule Generation ModuleList RuleCache Unwinder Arch Hazard X86Regs X86Rules State.

Section Registry.
  Context {D R Regs C : Type}.
  (** The order in which a [HashMap] is iterated is not specified. *)
  Context (hash_iter : gmap Z Z -> list (Z * Z)).
  Context (hash_iter_perm : forall m, hash_iter m ≡ₚ map_to_list m).

Record EnumResult : Type := MkEnumResult {
  er_current : gmap Z Z;
  new_modules : list (Z * Module_ D);
}.

Record Registry : Type := MkRegistry {
  static_mods : gmap Z Z;
  jit_keys : gset Z;
  jit_by_eh_frame : gmap Z Z;
  jit_eh_frame_by_key : gmap Z Z;
  load_counts : option (Z * Z);
  batching : bool;
  pending : list (Z * Z * Module_ D);
}.

Definition Registry_new : Registry := MkRegistry ∅ ∅ ∅ ∅ None false [].

(** The registry and the statics of [state.rs]. *)
Record World : Type := MkWorld { reg : Registry; st : state (D := D) (R := R) (Regs := Regs) (C := C) }.

Abbreviation M := (ST World crash).

Definition get_reg_ : M Registry := fun w => (Ok (reg w), w).
Definition on_reg (f : Registry -> Registry) : M unit := st_modify (fun w => MkWorld (f (reg w)) (st w)).
Definition on_state {A} (m : ST (state (D := D) (R := R) (Regs := Regs) (C := C)) crash A) : M A := fun w =>
  let '(r, s) := m (st w) in (r, MkWorld (reg w) s).

Definition set_static_mods x (r : Registry) : Registry :=
  MkRegistry x (jit_keys r) (jit_by_eh_frame r) (jit_eh_frame_by_key r) (load_counts r) (batching r) (pending r).
Definition set_jit_keys x (r : Registry) : Registry :=
  MkRegistry (static_mods r) x (jit_by_eh_frame r) (jit_eh_frame_by_key r) (load_counts r) (batching r) (pending r).
Definition set_jit_eh by_eh by_key (r : Registry) : Registry :=
  MkRegistry (static_mods r) (jit_keys r) by_eh by_key (load_counts r) (batching r) (pending r).
Definition set_load_counts x (r : Registry) : Registry :=
  MkRegistry (static_mods r) (jit_keys r) (jit_by_eh_frame r) (jit_eh_frame_by_key r) x (batching r) (pending r).
Definition set_pending b x (r : Registry) : Registry :=
  MkRegistry (static_mods r) (jit_keys r) (jit_by_eh_frame r) (jit_eh_frame_by_key r) (load_counts r) b x.

(** ** Edits of a module list *)

(** [for k in ks { unw.remove_module(k) }] and [for m in ms { unw.add_module(m) }]. *)
Fixpoint remove_modules (ks : list Z) (u : UnwinderInternal D) : ST Z panic (UnwinderInternal D) :=
  match ks with
  | [] => mret u
  | k :: ks => u ← remove_module u k; remove_modules ks u
  end.

Fixpoint add_modules (ms : list (Module_ D)) (u : UnwinderInternal D) : ST Z panic (UnwinderInternal D) :=
  match ms with
  | [] => mret u
  | m :: ms => u ← add_module u m; add_modules ms u
  end.

(** A writer whose closure returns nothing. *)
Definition edit (boxed : ptr) (f : UnwinderInternal D -> ST Z panic (UnwinderInternal D)) : M unit :=
  on_state (with_writer boxed (fun u => u ← f u; mret (tt, u))).

(** ** [refresh] *)

Definition removed_keys (known current : gmap Z Z) : list Z :=
  filter (fun k => current !! k = None) (hash_iter known).*1.

Definition changed_keys (known current : gmap Z Z) : list Z :=
  (filter (fun kfp => is_Some (current !! kfp.1) /\ current !! kfp.1 <> Some kfp.2)
    (hash_iter known)).*1.

Definition is_nil {A} (l : list A) : bool := match l with [] => true | _ => false end.

(** [counts] is what [elf::load_counts] returns; it is [None] on Windows, which
    has no counts. [enumerate_static] is the platform's enumeration. *)
Definition refresh (boxed : ptr) (counts : option (Z * Z))
    (enumerate_static : gmap Z Z -> option EnumResult) : M unit :=
  r ← get_reg_;
  if bool_decide (is_Some counts) && bool_decide (counts = load_counts r) then mret tt
  else
    match enumerate_static (static_mods r) with
    | None => mret tt
    | Some (MkEnumResult current new_modules) =>
        let removed := removed_keys (static_mods r) current in
        let changed := changed_keys (static_mods r) current in
        _ ← on_reg (set_load_counts counts);
        if is_nil new_modules && is_nil removed && is_nil changed then mret tt
        else
          _ ← edit boxed (fun u =>
                u ← remove_modules changed u;
                u ← add_modules new_modules.*2 u;
                remove_modules (filter (fun k => k ∉ jit_keys r) removed) u);
          on_reg (set_static_mods current)
    end.

(** ** The dyld callbacks *)

Definition macos_begin_batch : M unit := on_reg (fun r => set_pending true (pending r) r).

Definition macos_end_batch (boxed : ptr) : M unit :=
  r ← get_reg_;
  let pending := pending r in
  _ ← on_reg (set_pending false []);
  if is_nil pending then mret tt
  else
    _ ← on_reg (fun r => set_static_mods (foldl (fun mods '(k, fp, _) => <[k := fp]> mods) (static_mods r) pending) r);
    edit boxed (add_modules pending.*2).

Definition macos_add_image (boxed : ptr) (key fp : Z) (m : Module_ D) : M unit :=
  r ← get_reg_;
  if batching r then on_reg (set_pending true (pending r ++ [(key, fp, m)]))
  else
    let replace := bool_decide (is_Some (static_mods r !! key)) in
    _ ← edit boxed (fun u =>
          u ← (if replace then remove_module u key else mret u);
          add_module u m);
    on_reg (fun r => set_static_mods (<[key := fp]> (static_mods r)) r).

Definition macos_remove_image (boxed : ptr) (key : Z) : M unit :=
  r ← get_reg_;
  _ ← (if batching r then on_reg (set_pending true (filter (fun p => p.1.1 <> key) (pending r))) else mret tt);
  let known := static_mods r !! key in
  _ ← on_reg (fun r => set_static_mods (delete key (static_mods r)) r);
  match known with
  | None => mret tt
  | Some _ =>
      if bool_decide (key ∈ jit_keys r) then mret tt
      else edit boxed (fun u => remove_module u key)
  end.

(** ** JIT modules *)

Definition forget_jit_eh_frame (key : Z) (r : Registry) : Registry :=
  match jit_eh_frame_by_key r !! key with
  | Some eh_frame_addr =>
      set_jit_eh
        (if bool_decide (jit_by_eh_frame r !! eh_frame_addr = Some key)
         then delete eh_frame_addr (jit_by_eh_frame r) else jit_by_eh_frame r)
        (delete key (jit_eh_frame_by_key r)) r
  | None => r
  end.

(** The end of [add_jit_module]: the two maps learn the new module. *)
Definition record_jit_eh_frame (key eh_frame_addr : Z) (r : Registry) : Registry :=
  let by_key :=
    match jit_by_eh_frame r !! eh_frame_addr with
    | Some prev_key => delete prev_key (jit_eh_frame_by_key r)
    | None => jit_eh_frame_by_key r
    end in
  set_jit_eh (<[eh_frame_addr := key]> (jit_by_eh_frame r)) (<[key := eh_frame_addr]> by_key) r.

Definition add_jit_module (boxed : ptr) (key eh_frame_addr : Z) (m : Module_ D) : M unit :=
  r ← get_reg_;
  _ ← edit boxed (fun u =>
        u ← (if bool_decide (key ∈ jit_keys r) then remove_module u key else mret u);
        add_module u m);
  _ ← on_reg (fun r => set_jit_keys ({[key]} ∪ jit_keys r) r);
  _ ← on_reg (forget_jit_eh_frame key);
  on_reg (record_jit_eh_frame key eh_frame_addr).

Definition remove_jit_locked (boxed : ptr) (key : Z) : M unit :=
  r ← get_reg_;
  if bool_decide (key ∈ jit_keys r) then
    _ ← edit boxed (fun u => remove_module u key);
    _ ← on_reg (fun r => set_jit_keys (jit_keys r ∖ {[key]}) r);
    on_reg (forget_jit_eh_frame key)
  else mret tt.

Definition remove_jit_module (boxed : ptr) (key : Z) : M unit := remove_jit_locked boxed key.

Definition remove_jit_module_by_eh_frame (boxed : ptr) (eh_frame_addr : Z) : M unit :=
  r ← get_reg_;
  match jit_by_eh_frame r !! eh_frame_addr with
  | Some key => remove_jit_locked boxed key
  | None => mret tt
  end.

Definition jit_module_count (r : Registry) : nat := size (jit_keys r).

(** ** The published modules *)

(** The modules a walk that starts now sees, by start address. *)
Definition published (s : state (D := D) (R := R) (Regs := Regs) (C := C)) : gmap Z (Module_ D) :=
  match current s ≫= (heap s !!.) with
  | Some snap => view (unw snap)
  | None => ∅
  end.

(** What an edit needs and keeps: a well-formed snapshot heap with a well-formed
    module list published, and at least [n] generations left. *)
Record state_inv (n : nat) (s : state (D := D) (R := R) (Regs := Regs) (C := C)) : Prop := {
  si_heap : heap_wf s;
  si_list : forall p snap, current s = Some p -> heap s !! p = Some snap ->
    unwinder_wf (unw snap) /\ distinct_starts (unw snap);
  si_gen : 0 <= generations s /\ generations s + Z.of_nat n <= u64_MAX;
}.

(** [f] turns the map of modules [v] into [F v] for every well-formed list whose
    map satisfies [P], taking at most [n] generations. *)
Definition edits (n : nat) (P : gmap Z (Module_ D) -> Prop)
    (f : UnwinderInternal D -> ST Z panic (UnwinderInternal D))
    (F : gmap Z (Module_ D) -> gmap Z (Module_ D)) : Prop :=
  forall u g, unwinder_wf u -> distinct_starts u -> P (view u) -> 0 <= g -> g + Z.of_nat n <= u64_MAX ->
  exists u' g', f u g = (Ok u', g') /\ unwinder_wf u' /\ distinct_starts u' /\
    view u' = F (view u) /\ g <= g' <= g + Z.of_nat n.

Lemma edits_bind n1 n2 (P Q : gmap Z (Module_ D) -> Prop) f1 f2 F1 F2 :
  edits n1 P f1 F1 -> edits n2 Q f2 F2 -> (forall v, P v -> Q (F1 v)) ->
  edits (n1 + n2) P (fun u => u' ← f1 u; f2 u') (fun v => F2 (F1 v)).
Proof.
  intros E1 E2 HPQ u g Hwf Hd HP Hg Hn.
  destruct (E1 u g Hwf Hd HP Hg) as (u1 & g1 & R1 & Hwf1 & Hd1 & Hv1 & Hg1); [lia|].
  destruct (E2 u1 g1 Hwf1 Hd1) as (u2 & g2 & R2 & Hwf2 & Hd2 & Hv2 & Hg2);
    [rewrite Hv1; auto|lia|lia|].
  exists u2, g2. rewrite st_bind_spec, R1. split_and!; try done; [|lia|lia]. by rewrite Hv2, Hv1.
Qed.

Lemma edits_ret n P : edits n P (fun u => mret u) id.
Proof. intros u g Hwf Hd _ Hg _. exists u, g. split_and!; try done; lia. Qed.

Lemma edits_remove k P : edits 1 P (fun u => remove_module u k) (delete k).
Proof.
  intros u g Hwf Hd _ Hg Hn.
  destruct (remove_module_view u k g Hwf Hd) as (u' & E & Hwf' & Hd' & Hv & _); [lia|].
  eexists u', _. split_and!; try done; case_decide; lia.
Qed.

Lemma edits_add m : edits 1 (fun v => v !! mod_start m = None) (fun u => add_module u m) (insert (mod_start m) m).
Proof.
  intros u g Hwf Hd Hf Hg Hn.
  destruct (add_module_view u m g Hwf Hd Hf) as (u' & E & Hwf' & Hd' & Hv & _); [lia|].
  eexists u', _. split_and!; try done; lia.
Qed.

Lemma edits_weaken n n' (P P' : gmap Z (Module_ D) -> Prop) f F F' :
  edits n P f F -> (n <= n')%nat -> (forall v, P' v -> P v /\ F v = F' v) -> edits n' P' f F'.
Proof.
  intros E Hn HP u g Hwf Hd HP' Hg Hg'. destruct (HP _ HP') as [HPv HF].
  destruct (E u g Hwf Hd HPv Hg) as (u' & g' & R' & Hwf' & Hd' & Hv & ?); [lia|].
  exists u', g'. split_and!; try done; [congruence|lia|lia].
Qed.

(** Deleting a list of keys, inserting a list of modules under their starts. *)
Definition delete_all (ks : list Z) (v : gmap Z (Module_ D)) : gmap Z (Module_ D) :=
  foldl (fun v k => delete k v) v ks.
Definition insert_all (ms : list (Module_ D)) (v : gmap Z (Module_ D)) : gmap Z (Module_ D) :=
  foldl (fun v m => <[mod_start m := m]> v) v ms.

Lemma delete_all_lookup ks v k : delete_all ks v !! k = if decide (k ∈ ks) then None else v !! k.
Proof.
  revert v. induction ks as [|k' ks IH]; intros v; [by rewrite decide_False by set_solver|].
  cbn [delete_all foldl]. fold (delete_all ks (delete k' v)). rewrite IH, lookup_delete.
  repeat case_decide; set_solver.
Qed.

Lemma insert_all_lookup ms v k :
  NoDup (mod_start <$> ms) ->
  insert_all ms v !! k = match list_find (fun m => mod_start m = k) ms with Some (_, m) => Some m | None => v !! k end.
Proof.
  revert v. induction ms as [|m ms IH]; intros v Hnd; [done|].
  rewrite fmap_cons in Hnd. apply NoDup_cons in Hnd as [Hm Hnd]. cbn [insert_all foldl list_find].
  fold (insert_all ms (<[mod_start m := m]> v)). rewrite IH by done. case_decide as Hk.
  - destruct (list_find _ ms) as [[i m']|] eqn:E; [|subst; apply lookup_insert_eq].
    apply list_find_Some in E as (E & <- & _). apply list_elem_of_lookup_2 in E.
    destruct Hm. rewrite Hk. by apply list_elem_of_fmap_2.
  - destruct (list_find _ ms) as [[i m']|]; [done|]. by apply lookup_insert_ne.
Qed.

Lemma edits_remove_modules ks P : edits (length ks) P (remove_modules ks) (delete_all ks).
Proof.
  revert P. induction ks as [|k ks IH]; intros P; [apply edits_ret|].
  apply (edits_bind 1 (length ks) P (fun _ => True) (fun u => remove_module u k) (remove_modules ks)
    (delete k) (delete_all ks)); [apply edits_remove|apply IH|done].
Qed.

Lemma edits_add_modules ms :
  edits (length ms) (fun v => NoDup (mod_start <$> ms) /\ Forall (fun m => v !! mod_start m = None) ms)
    (add_modules ms) (insert_all ms).
Proof.
  induction ms as [|m ms IH]; [apply edits_ret|].
  apply (edits_weaken (1 + length ms) _ (fun v => v !! mod_start m = None /\
    (NoDup (mod_start <$> ms) /\ Forall (fun m' => <[mod_start m := m]> v !! mod_start m' = None) ms)) _
    (add_modules (m :: ms)) (fun v => insert_all ms (insert (mod_start m) m v)) (insert_all (m :: ms)));
    [|done|].
  - eapply (edits_bind 1 (length ms)); [|exact IH|by intros v [_ Hv]].
    eapply edits_weaken; [apply edits_add|lia|]. by intros v [Hv _].
  - intros v [Hnd Hf]. rewrite fmap_cons in Hnd. apply NoDup_cons in Hnd as [Hm Hnd].
    apply Forall_cons in Hf as [Hf1 Hf]. split_and!; try done.
    rewrite Forall_forall in Hf |- *. intros m' Hin. rewrite lookup_insert_ne; [by apply Hf|].
    intros Heq. apply Hm. rewrite Heq. by apply list_elem_of_fmap_2.
Qed.

(** What a writer publishes when its closure edits the list. *)
Lemma edit_spec n k boxed (P : gmap Z (Module_ D) -> Prop) f F w :
  state_inv (S (n + k)) (st w) -> heap (st w) !! boxed = None -> P (published (st w)) ->
  edits n P f F ->
  exists s', edit boxed f w = (Ok tt, MkWorld (reg w) s') /\ state_inv k s' /\
    published s' = F (published (st w)) /\ slots s' = slots (st w).
Proof.
  intros [Hh Hl Hg] Hbox HP HE. set (s := st w) in *.
  assert (exists u g, starts_from s u g /\ unwinder_wf u /\ distinct_starts u /\ published s = view u /\
    0 <= g /\ g <= generations s + 1) as (u & g & Hst & Hwf & Hd & Hpub & Hg0 & Hg1).
  { unfold starts_from, published. destruct (current s) as [p|] eqn:Ec.
    - destruct (proj2 (hw_alive _ Hh p)) as [snap Hs]; [by left|].
      destruct (Hl p snap eq_refl Hs) as [? ?]. exists (unw snap), (generations s). simpl. rewrite Hs.
      split_and!; eauto; lia.
    - exists (MkUnwinder [] (generations s)), (generations s + 1). split_and!; try done; try lia.
      + unfold UnwinderInternal_new. rewrite st_bind_spec, next_modules_generation_ok by lia. done.
      + split; constructor.
      + constructor. }
  rewrite Hpub in HP. destruct (HE u g Hwf Hd HP Hg0) as (u' & g' & Hr & Hwf' & Hd' & Hv & Hgg); [lia|].
  destruct (with_writer_spec boxed (fun u => u ← f u; mret (tt, u)) s u g tt u' g')
    as (s' & Hrun & Hh' & Hsl & Hgen & _ & _ & Hcur & Hnew & _); [done|done|done| |].
  { by rewrite st_bind_spec, Hr. }
  exists s'. split_and!; [|split; [done| |]| |done].
  - unfold edit, on_state. fold s. by rewrite Hrun.
  - intros p snap. rewrite Hcur. intros [= <-]. rewrite Hnew. by intros [= <-].
  - rewrite Hgen. lia.
  - unfold published at 1. rewrite Hcur. simpl. by rewrite Hnew, Hpub.
Qed.

(** ** What the registry promises

    The specification keeps one map of static modules and one of JIT modules, each
    JIT module with the [.eh_frame] address that still names it, if any. *)
Record Spec : Type := MkSpec {
  sp_known : gmap Z Z;
  sp_counts : option (Z * Z);
  sp_static : gmap Z (Module_ D);
  sp_jit : gmap Z (Module_ D * option Z);
  sp_batching : bool;
  sp_pending : list (Z * Z * Module_ D);
}.

Inductive op : Type :=
  | OpRefresh (boxed : ptr) (counts : option (Z * Z)) (enumerate : gmap Z Z -> option EnumResult)
  | OpBeginBatch
  | OpEndBatch (boxed : ptr)
  | OpAddImage (boxed : ptr) (key fp : Z) (m : Module_ D)
  | OpRemoveImage (boxed : ptr) (key : Z)
  | OpAddJit (boxed : ptr) (key eh_frame_addr : Z) (m : Module_ D)
  | OpRemoveJit (boxed : ptr) (key : Z)
  | OpRemoveJitByEhFrame (boxed : ptr) (eh_frame_addr : Z).

Definition run_op (o : op) : M unit :=
  match o with
  | OpRefresh boxed counts enumerate => refresh boxed counts enumerate
  | OpBeginBatch => macos_begin_batch
  | OpEndBatch boxed => macos_end_batch boxed
  | OpAddImage boxed key fp m => macos_add_image boxed key fp m
  | OpRemoveImage boxed key => macos_remove_image boxed key
  | OpAddJit boxed key eh m => add_jit_module boxed key eh m
  | OpRemoveJit boxed key => remove_jit_module boxed key
  | OpRemoveJitByEhFrame boxed eh => remove_jit_module_by_eh_frame boxed eh
  end.

(** The enumeration a refresh acts on: none when the loader's counts have not
    moved or the enumeration failed. *)
Definition scan (sp : Spec) (counts : option (Z * Z)) (enumerate : gmap Z Z -> option EnumResult) :
    option EnumResult :=
  if bool_decide (is_Some counts) && bool_decide (counts = sp_counts sp) then None
  else enumerate (sp_known sp).

(** After a scan the static modules are the newly built ones and those whose image
    is still loaded with the same fingerprint. *)
Definition scanned (known current : gmap Z Z) (new : list (Z * Module_ D)) (static : gmap Z (Module_ D)) :
    gmap Z (Module_ D) :=
  insert_all new.*2 (filter (fun km => known !! km.1 = current !! km.1) static).

(** The address [eh] names a module no longer. *)
Definition unname (eh : Z) (me : Module_ D * option Z) : Module_ D * option Z :=
  (me.1, if bool_decide (me.2 = Some eh) then None else me.2).

Definition spec_op (o : op) (sp : Spec) : Spec :=
  match o with
  | OpRefresh _ counts enumerate =>
      match scan sp counts enumerate with
      | None => sp
      | Some (MkEnumResult current new) =>
          MkSpec (if is_nil new && bool_decide (map_Forall (fun k fp => current !! k = Some fp) (sp_known sp))
                  then sp_known sp else current) counts
            (scanned (sp_known sp) current new (sp_static sp)) (sp_jit sp) (sp_batching sp) (sp_pending sp)
      end
  | OpBeginBatch => MkSpec (sp_known sp) (sp_counts sp) (sp_static sp) (sp_jit sp) true (sp_pending sp)
  | OpEndBatch _ =>
      MkSpec (foldl (fun mods '(k, fp, _) => <[k := fp]> mods) (sp_known sp) (sp_pending sp)) (sp_counts sp)
        (insert_all (sp_pending sp).*2 (sp_static sp)) (sp_jit sp) false []
  | OpAddImage _ key fp m =>
      if sp_batching sp then
        MkSpec (sp_known sp) (sp_counts sp) (sp_static sp) (sp_jit sp) true (sp_pending sp ++ [(key, fp, m)])
      else MkSpec (<[key := fp]> (sp_known sp)) (sp_counts sp) (<[key := m]> (sp_static sp)) (sp_jit sp) false (sp_pending sp)
  | OpRemoveImage _ key =>
      MkSpec (delete key (sp_known sp)) (sp_counts sp) (delete key (sp_static sp)) (sp_jit sp) (sp_batching sp)
        (if sp_batching sp then filter (fun p => p.1.1 <> key) (sp_pending sp) else sp_pending sp)
  | OpAddJit _ key eh m =>
      MkSpec (sp_known sp) (sp_counts sp) (sp_static sp)
        (<[key := (m, Some eh)]>
          (unname eh <$> sp_jit sp))
        (sp_batching sp) (sp_pending sp)
  | OpRemoveJit _ key =>
      MkSpec (sp_known sp) (sp_counts sp) (sp_static sp) (delete key (sp_jit sp)) (sp_batching sp) (sp_pending sp)
  | OpRemoveJitByEhFrame _ eh =>
      MkSpec (sp_known sp) (sp_counts sp) (sp_static sp) (filter (fun kme => kme.2.2 <> Some eh) (sp_jit sp))
        (sp_batching sp) (sp_pending sp)
  end.

(** Each address names at most one module and each module has at most one. *)
Definition jit_maps_ok (r : Registry) (j : gmap Z (Module_ D * option Z)) : Prop :=
  jit_eh_frame_by_key r = omap snd j /\
  forall eh k, jit_by_eh_frame r !! eh = Some k <-> exists m, j !! k = Some (m, Some eh).

(** The registry and the published snapshot stand for a specification state. *)
Record represents (w : World) (sp : Spec) : Prop := {
  rp_state : state_inv 0 (st w);
  rp_published : published (st w) = sp_static sp ∪ (fst <$> sp_jit sp);
  rp_known : static_mods (reg w) = sp_known sp;
  rp_counts : load_counts (reg w) = sp_counts sp;
  rp_batch : batching (reg w) = sp_batching sp /\ pending (reg w) = sp_pending sp;
  rp_static : forall k, is_Some (sp_static sp !! k) -> is_Some (sp_known sp !! k);
  rp_jit_keys : jit_keys (reg w) = dom (sp_jit sp);
  rp_maps : jit_maps_ok (reg w) (sp_jit sp);
  rp_disjoint : forall k, is_Some (sp_known sp !! k) -> sp_jit sp !! k = None;
  rp_pending : NoDup (sp_pending sp).*1.*1 /\
    Forall (fun p => mod_start p.2 = p.1.1 /\ sp_known sp !! p.1.1 = None /\ sp_jit sp !! p.1.1 = None) (sp_pending sp);
  rp_no_pending : sp_batching sp = false -> sp_pending sp = [];
}.

(** What the callers and the loader guarantee: an image's key is where its module
    starts, loaded images and JIT regions do not overlap, dyld reports an image
    once, and the generation counter is not exhausted. *)
Definition image_ok (sp : Spec) (key : Z) (m : Module_ D) : Prop :=
  mod_start m = key /\ sp_jit sp !! key = None.

Definition enum_ok (sp : Spec) (current : gmap Z Z) (new : list (Z * Module_ D)) : Prop :=
  NoDup new.*1 /\
  Forall (fun km => image_ok sp km.1 km.2 /\ is_Some (current !! km.1) /\
    sp_known sp !! km.1 <> current !! km.1) new /\
  forall k, is_Some (current !! k) -> sp_jit sp !! k = None.

Definition op_ok (o : op) (sp : Spec) (w : World) : Prop :=
  let room boxed n := heap (st w) !! boxed = None /\ generations (st w) + Z.of_nat (S n) <= u64_MAX in
  match o with
  | OpRefresh boxed counts enumerate =>
      match scan sp counts enumerate with
      | None => True
      | Some (MkEnumResult current new) =>
          room boxed (2 * size (sp_known sp) + length new)%nat /\ enum_ok sp current new /\
          sp_batching sp = false
      end
  | OpBeginBatch => True
  | OpEndBatch boxed => room boxed (length (sp_pending sp))
  | OpAddImage boxed key fp m =>
      room boxed 2%nat /\ image_ok sp key m /\
      (sp_batching sp = true -> sp_known sp !! key = None /\ key ∉ (sp_pending sp).*1.*1)
  | OpRemoveImage boxed _ => room boxed 1%nat
  | OpAddJit boxed key _ m =>
      room boxed 2%nat /\ mod_start m = key /\ sp_known sp !! key = None /\ key ∉ (sp_pending sp).*1.*1
  | OpRemoveJit boxed _ => room boxed 1%nat
  | OpRemoveJitByEhFrame boxed _ => room boxed 1%nat
  end.

(** ** The two JIT maps *)

Lemma jit_maps_by_key r j k eh :
  jit_maps_ok r j -> jit_eh_frame_by_key r !! k = Some eh <-> jit_by_eh_frame r !! eh = Some k.
Proof.
  intros [-> Heh]. rewrite Heh, lookup_omap. destruct (j !! k) as [[m [e|]]|]; simpl; naive_solver.
Qed.

(** Forgetting a key leaves its module without a name. *)
Lemma forget_maps r j key :
  jit_maps_ok r j ->
  jit_eh_frame_by_key (forget_jit_eh_frame key r) = delete key (jit_eh_frame_by_key r) /\
  (forall eh k, jit_by_eh_frame (forget_jit_eh_frame key r) !! eh = Some k <->
    jit_by_eh_frame r !! eh = Some k /\ k <> key).
Proof.
  intros Hj. unfold forget_jit_eh_frame. destruct (jit_eh_frame_by_key r !! key) as [e|] eqn:E.
  - apply (jit_maps_by_key r j) in E as E'; [|done]. rewrite bool_decide_true by done.
    split; [done|]. intros eh k. simpl. rewrite lookup_delete. case_decide as He.
    + subst. rewrite E'. naive_solver.
    + split; [|by intros []]. intros Hk. split; [done|]. intros ->.
      apply (jit_maps_by_key r j) in Hk; [|done]. congruence.
  - split; [by rewrite delete_id|]. intros eh k. split; [|by intros []].
    intros Hk. split; [done|]. intros ->. apply (jit_maps_by_key r j) in Hk; [|done]. congruence.
Qed.

Lemma add_jit_maps r j key eh m :
  jit_maps_ok r j ->
  jit_maps_ok (record_jit_eh_frame key eh (forget_jit_eh_frame key r))
    (<[key := (m, Some eh)]> (unname eh <$> j)).
Proof.
  intros Hj. destruct (forget_maps r j key Hj) as [Hk He].
  unfold record_jit_eh_frame. set (r' := forget_jit_eh_frame key r) in *. split.
  - simpl. apply map_eq. intros k. rewrite lookup_insert, lookup_omap, lookup_insert, lookup_fmap.
    case_decide as Hkk; [done|].
    assert (Hrest : (if decide (jit_by_eh_frame r' !! eh = Some k) then None else jit_eh_frame_by_key r !! k) =
      (unname eh <$> j !! k) ≫= snd).
    { destruct Hj as [Hbk Hbe]. rewrite Hbk, lookup_omap. case_decide as Hd.
      - apply He in Hd as [(m' & ->)%Hbe _]. simpl. by rewrite bool_decide_true.
      - destruct (j !! k) as [[m' [e|]]|] eqn:Ej; [|done..]. simpl. case_bool_decide as Heq; [|done].
        simplify_eq. destruct Hd. apply He. split; [|done]. apply Hbe. eauto. }
    rewrite <- Hrest. destruct (jit_by_eh_frame r' !! eh) as [prev|]; rewrite Hk.
    + rewrite !lookup_delete. repeat case_decide; naive_solver.
    + rewrite lookup_delete. repeat case_decide; naive_solver.
  - intros eh' k. simpl. rewrite lookup_insert. case_decide as Heq.
    + subst eh'. split; [intros [= <-]; rewrite lookup_insert_eq; eauto|].
      intros [m' Hm']. rewrite lookup_insert in Hm'. case_decide; [congruence|].
      rewrite lookup_fmap in Hm'. destruct (j !! k) as [[m'' e]|]; [|done].
      unfold unname in Hm'. simpl in Hm'. case_bool_decide; congruence.
    + rewrite He. destruct Hj as [_ Hbe]. rewrite Hbe. setoid_rewrite lookup_insert.
      case_decide as Hkk; [naive_solver|]. rewrite lookup_fmap. unfold unname.
      destruct (j !! k) as [[m' [e|]]|]; simpl; [case_bool_decide|..]; naive_solver.
Qed.

Lemma delete_jit_maps r j key :
  jit_maps_ok r j -> jit_maps_ok (forget_jit_eh_frame key r) (delete key j).
Proof.
  intros Hj. destruct (forget_maps r j key Hj) as [Hk He]. destruct Hj as [Hbk Hbe]. split.
  - rewrite Hk, Hbk. apply map_eq. intros k. rewrite lookup_delete, !lookup_omap, lookup_delete. by case_decide.
  - intros eh k. rewrite He, Hbe. setoid_rewrite lookup_delete. case_decide; naive_solver.
Qed.

Lemma forget_other key r :
  static_mods (forget_jit_eh_frame key r) = static_mods r /\ jit_keys (forget_jit_eh_frame key r) = jit_keys r /\
  load_counts (forget_jit_eh_frame key r) = load_counts r /\ batching (forget_jit_eh_frame key r) = batching r /\
  pending (forget_jit_eh_frame key r) = pending r.
Proof. unfold forget_jit_eh_frame. by destruct (_ !! _). Qed.


(** ** Every operation keeps the representation *)

Lemma edit_run n (P : gmap Z (Module_ D) -> Prop) f F boxed w :
  edits n P f F -> state_inv 0 (st w) -> heap (st w) !! boxed = None ->
  generations (st w) + Z.of_nat (S n) <= u64_MAX -> P (published (st w)) ->
  exists s', edit boxed f w = (Ok tt, MkWorld (reg w) s') /\ state_inv 0 s' /\
    published s' = F (published (st w)).
Proof.
  intros HE [? ? ?] Hbox Hg HP.
  destruct (edit_spec n 0 boxed P f F w) as (s' & ? & ? & ? & _); [split; try done; lia|done..|eauto].
Qed.

(** The published map, at one key. *)
Lemma published_lookup w sp k :
  represents w sp ->
  published (st w) !! k = match sp_static sp !! k with Some m => Some m | None => fst <$> sp_jit sp !! k end.
Proof.
  intros Hr. rewrite (rp_published _ _ Hr), lookup_union, lookup_fmap.
  destruct (sp_static sp !! k), (sp_jit sp !! k); done.
Qed.

Lemma static_not_jit w sp k : represents w sp -> is_Some (sp_static sp !! k) -> sp_jit sp !! k = None.
Proof. intros Hr Hs. by apply (rp_disjoint _ _ Hr), (rp_static _ _ Hr). Qed.

Lemma unknown_not_static w sp k : represents w sp -> sp_known sp !! k = None -> sp_static sp !! k = None.
Proof.
  intros Hr Hk. apply eq_None_not_Some. intros Hs. apply (rp_static _ _ Hr) in Hs as [? ?]. congruence.
Qed.

(** Re-registering: the module at the key is replaced, or the key is free. *)
Lemma edits_replace (replace : bool) key m :
  mod_start m = key ->
  edits 2 (fun v => replace = true \/ v !! key = None)
    (fun u => u ← (if replace then remove_module u key else mret u); add_module u m) (insert key m).
Proof.
  intros <-. eapply (edits_weaken (1 + 1) 2); [|done|].
  - eapply (edits_bind 1 1 (fun v => replace = true \/ v !! mod_start m = None)
      (fun v => v !! mod_start m = None) _ (fun u => add_module u m)
      (if replace then delete (mod_start m) else id)); [|apply edits_add|].
    + destruct replace; [apply edits_remove|apply edits_ret].
    + intros v [->|Hv]; [apply lookup_delete_eq|]. destruct replace; [apply lookup_delete_eq|done].
  - intros v Hv. split; [done|]. destruct replace; [apply insert_delete_eq|done].
Qed.

Lemma add_jit_step w sp boxed key eh m :
  represents w sp -> op_ok (OpAddJit boxed key eh m) sp w ->
  exists w', add_jit_module boxed key eh m w = (Ok tt, w') /\ represents w' (spec_op (OpAddJit boxed key eh m) sp).
Proof.
  intros Hr ([Hbox Hg] & Hm & Hknown & Hpend).
  pose proof (unknown_not_static _ _ key Hr Hknown) as Hstatic.
  destruct (edit_run _ _ _ _ boxed w (edits_replace (bool_decide (key ∈ jit_keys (reg w))) key m Hm)
    (rp_state _ _ Hr) Hbox Hg) as (s' & Hrun & Hinv & Hpub).
  { case_bool_decide as Hj; [by left|right]. rewrite (published_lookup _ _ _ Hr), Hstatic.
    rewrite (rp_jit_keys _ _ Hr), not_elem_of_dom in Hj. by rewrite Hj. }
  eexists. split.
  { unfold add_jit_module, get_reg_. st_bind. rewrite Hrun. unfold on_reg. st_bind. done. }
  destruct (add_jit_maps (set_jit_keys ({[key]} ∪ jit_keys (reg w)) (reg w)) (sp_jit sp) key eh m) as [Hbk Hbe].
  { apply Hr. }
  destruct (forget_other key (set_jit_keys ({[key]} ∪ jit_keys (reg w)) (reg w))) as (E1 & E2 & E3 & E4 & E5).
  split; cbn [reg st spec_op sp_known sp_counts sp_static sp_jit sp_batching sp_pending]; try (by apply Hr).
  - done.
  - rewrite Hpub, (rp_published _ _ Hr), fmap_insert. rewrite <- insert_union_r by done. f_equal.
    f_equal. rewrite <- map_fmap_compose. apply map_fmap_ext. done.
  - change (static_mods (forget_jit_eh_frame key (set_jit_keys ({[key]} ∪ jit_keys (reg w)) (reg w))) = sp_known sp).
    rewrite E1. apply Hr.
  - change (load_counts (forget_jit_eh_frame key (set_jit_keys ({[key]} ∪ jit_keys (reg w)) (reg w))) = sp_counts sp).
    rewrite E3. apply Hr.
  - unfold record_jit_eh_frame. cbn [batching pending set_jit_eh]. rewrite E4, E5. apply Hr.
  - unfold record_jit_eh_frame. cbn [jit_keys set_jit_eh]. rewrite E2. cbn [jit_keys set_jit_keys].
    by rewrite dom_insert_L, dom_fmap_L, (rp_jit_keys _ _ Hr).
  - done.
  - intros k Hk. rewrite lookup_insert_ne by (intros <-; rewrite Hknown in Hk; by destruct Hk).
    by rewrite lookup_fmap, (rp_disjoint _ _ Hr).
  - destruct (rp_pending _ _ Hr) as [Hnd Hp]. split; [done|]. rewrite Forall_forall in Hp |- *. intros p Hin.
    destruct (Hp p Hin) as (Hp1 & Hp2 & Hp3). split_and!; [done..|].
    rewrite lookup_insert_ne, lookup_fmap, Hp3; [done|]. intros ->. apply Hpend.
    by do 2 apply list_elem_of_fmap_2.
Qed.

(** Dropping a JIT module, whichever way it was named. *)
Lemma remove_jit_locked_step w sp boxed key :
  represents w sp -> op_ok (OpRemoveJit boxed key) sp w ->
  exists w', remove_jit_locked boxed key w = (Ok tt, w') /\
    represents w' (MkSpec (sp_known sp) (sp_counts sp) (sp_static sp) (delete key (sp_jit sp)) (sp_batching sp) (sp_pending sp)).
Proof.
  intros Hr [Hbox Hg]. unfold remove_jit_locked, get_reg_. st_bind.
  case_bool_decide as Hj; rewrite (rp_jit_keys _ _ Hr) in Hj.
  - destruct (edit_run _ _ _ _ boxed w (edits_remove key (fun _ => True)) (rp_state _ _ Hr) Hbox Hg)
      as (s' & Hrun & Hinv & Hpub); [done|].
    eexists. split. { st_bind. rewrite Hrun. unfold on_reg. st_bind. done. }
    destruct (forget_other key (set_jit_keys (jit_keys (reg w) ∖ {[key]}) (reg w))) as (E1 & E2 & E3 & E4 & E5).
    apply elem_of_dom in Hj as [[m e] Hj].
    assert (Hst : sp_static sp !! key = None).
    { apply eq_None_not_Some. intros Hs. rewrite (static_not_jit _ _ _ Hr Hs) in Hj. done. }
    split; cbn [reg st sp_known sp_counts sp_static sp_jit sp_batching sp_pending];
      rewrite ?E1, ?E2, ?E3, ?E4, ?E5; try (by apply Hr); try done.
    + rewrite Hpub, (rp_published _ _ Hr), delete_union, fmap_delete. f_equal. by apply delete_id.
    + cbn [jit_keys set_jit_keys]. by rewrite dom_delete_L, (rp_jit_keys _ _ Hr).
    + apply delete_jit_maps, Hr.
    + intros k Hk. rewrite lookup_delete. case_decide; [done|]. by apply (rp_disjoint _ _ Hr).
    + destruct (rp_pending _ _ Hr) as [Hnd Hp]. split; [done|]. eapply Forall_impl; [exact Hp|]. simpl.
      intros p (? & ? & Hp3). split_and!; [done..|]. rewrite lookup_delete. by case_decide.
  - exists w. split; [done|]. rewrite delete_id by by apply not_elem_of_dom. by destruct sp.
Qed.

Lemma remove_jit_by_eh_frame_step w sp boxed eh :
  represents w sp -> op_ok (OpRemoveJitByEhFrame boxed eh) sp w ->
  exists w', remove_jit_module_by_eh_frame boxed eh w = (Ok tt, w') /\
    represents w' (spec_op (OpRemoveJitByEhFrame boxed eh) sp).
Proof.
  intros Hr Hok. unfold remove_jit_module_by_eh_frame, get_reg_. st_bind.
  destruct (rp_maps _ _ Hr) as [_ Hbe].
  assert (Hdel : forall j : gmap Z (Module_ D * option Z), j = sp_jit sp ->
    filter (fun kme => kme.2.2 <> Some eh) j =
      match jit_by_eh_frame (reg w) !! eh with Some key => delete key j | None => j end).
  { intros j ->. apply map_eq. intros k. apply option_eq. intros [m e]. rewrite map_lookup_filter_Some.
    destruct (jit_by_eh_frame (reg w) !! eh) as [key|] eqn:E.
    - rewrite lookup_delete. apply Hbe in E as E'. destruct E' as [m0 E']. case_decide as Hk.
      + subst k. rewrite E'. naive_solver.
      + split; [by intros []|]. intros Hjk. split; [done|]. simpl. intros ->.
        assert (jit_by_eh_frame (reg w) !! eh = Some k) by (apply Hbe; eauto). congruence.
    - split; [by intros []|]. intros Hjk. split; [done|]. simpl. intros ->.
      assert (jit_by_eh_frame (reg w) !! eh = Some k) by (apply Hbe; eauto). congruence. }
  cbn [spec_op]. rewrite (Hdel _ eq_refl). destruct (jit_by_eh_frame (reg w) !! eh) as [key|].
  - by apply remove_jit_locked_step.
  - exists w. split; [done|]. by destruct sp.
Qed.

(** ** Scanning *)

Lemma elem_of_hash_iter m k v : (k, v) ∈ hash_iter m <-> m !! k = Some v.
Proof. rewrite hash_iter_perm. apply elem_of_map_to_list. Qed.

Lemma elem_of_removed known current k :
  k ∈ removed_keys known current <-> is_Some (known !! k) /\ current !! k = None.
Proof.
  unfold removed_keys. rewrite list_elem_of_filter, list_elem_of_fmap. split.
  - intros [Hc ([k' v] & -> & Hin)]. apply elem_of_hash_iter in Hin. simpl. eauto.
  - intros [[v Hv] Hc]. split; [done|]. exists (k, v). by rewrite elem_of_hash_iter.
Qed.

Lemma elem_of_changed known current k :
  k ∈ changed_keys known current <->
  exists fp nfp, known !! k = Some fp /\ current !! k = Some nfp /\ nfp <> fp.
Proof.
  unfold changed_keys. rewrite list_elem_of_fmap. split.
  - intros ([k' v] & -> & Hin). apply list_elem_of_filter in Hin as [[[nfp Hc] Hne] Hin].
    apply elem_of_hash_iter in Hin. simpl in *. exists v, nfp. split_and!; [done..|]. congruence.
  - intros (fp & nfp & Hk & Hc & Hne). exists (k, fp). split; [done|].
    rewrite list_elem_of_filter, elem_of_hash_iter. simpl. rewrite Hc.
    split_and!; [by eexists|congruence|done].
Qed.

Lemma length_removed known current : (length (removed_keys known current) <= size known)%nat.
Proof.
  unfold removed_keys. etrans; [apply length_filter|]. rewrite length_fmap, hash_iter_perm.
  by rewrite length_map_to_list.
Qed.

Lemma length_changed known current : (length (changed_keys known current) <= size known)%nat.
Proof.
  unfold changed_keys. rewrite length_fmap. etrans; [apply length_filter|]. rewrite hash_iter_perm.
  by rewrite length_map_to_list.
Qed.

Lemma is_nil_true {A} (l : list A) : is_nil l = true <-> l = [].
Proof. by destruct l. Qed.

Lemma nothing_changed known current :
  is_nil (removed_keys known current) && is_nil (changed_keys known current) = true <->
  map_Forall (fun k fp => current !! k = Some fp) known.
Proof.
  rewrite andb_true_iff, !is_nil_true. split.
  - intros [Hr Hc] k fp Hk. destruct (current !! k) as [nfp|] eqn:E.
    + destruct (decide (nfp = fp)) as [->|]; [done|].
      assert (k ∈ changed_keys known current) by (apply elem_of_changed; eauto). rewrite Hc in *. set_solver.
    + assert (k ∈ removed_keys known current) by (apply elem_of_removed; eauto). rewrite Hr in *. set_solver.
  - intros Hf. split; apply elem_of_nil_inv; intros k.
    + intros [[fp Hk] Hc]%elem_of_removed. apply Hf in Hk. congruence.
    + intros (fp & nfp & Hk & Hc & Hne)%elem_of_changed. apply Hf in Hk. congruence.
Qed.


(** The key under which a scan finds a newly built module. *)
Lemma find_new (new : list (Z * Module_ D)) k m i :
  Forall (fun km => mod_start km.2 = km.1) new ->
  list_find (fun m => mod_start m = k) new.*2 = Some (i, m) -> (k, m) ∈ new.
Proof.
  intros Hf (Hi & <- & _)%list_find_Some. apply list_elem_of_lookup_2, list_elem_of_fmap in Hi as ([k m'] & -> & Hin).
  rewrite Forall_forall in Hf. by rewrite (Hf _ Hin).
Qed.

Lemma new_starts (new : list (Z * Module_ D)) :
  Forall (fun km => mod_start km.2 = km.1) new -> mod_start <$> new.*2 = new.*1.
Proof.
  induction 1 as [|[k m] new Hk _ IH]; [done|]. rewrite !fmap_cons, IH. simpl in *. by rewrite Hk.
Qed.

(** Inserting newly built modules over a map. *)
Lemma insert_all_new (new : list (Z * Module_ D)) v k m :
  NoDup new.*1 -> Forall (fun km => mod_start km.2 = km.1) new ->
  insert_all new.*2 v !! k = Some m <-> (k, m) ∈ new \/ (k ∉ new.*1 /\ v !! k = Some m).
Proof.
  intros Hnd Hst. rewrite insert_all_lookup by by rewrite new_starts.
  destruct (list_find _ _) as [[i m']|] eqn:E.
  - apply find_new in E; [|done]. split; [intros [= <-]; by left|]. intros [Hin|[Hn _]].
    + rewrite (elem_of_list_to_map (M := gmap Z)) in E, Hin by done. congruence.
    + destruct Hn. by apply (list_elem_of_fmap_2 fst) in E.
  - apply list_find_None in E. rewrite Forall_fmap, Forall_forall in E.
    assert (k ∉ new.*1) as Hk.
    { intros ([k' m'] & -> & Hin)%list_elem_of_fmap. rewrite Forall_forall in Hst. apply (E _ Hin), (Hst _ Hin). }
    split; [by right|]. intros [Hin|[_ ?]]; [|done]. destruct Hk. by apply (list_elem_of_fmap_2 fst) in Hin.
Qed.

Definition scan_edit (new : list (Z * Module_ D)) (changed removed : list Z) (v : gmap Z (Module_ D)) :=
  delete_all removed (insert_all new.*2 (delete_all changed v)).

Lemma edits_scan new changed removed :
  edits (length changed + (length new + length removed))
    (fun v => NoDup (mod_start <$> new.*2) /\
      Forall (fun m => delete_all changed v !! mod_start m = None) new.*2)
    (fun u => u ← remove_modules changed u; u ← add_modules new.*2 u; remove_modules removed u)
    (scan_edit new changed removed).
Proof.
  unfold scan_edit.
  eapply (edits_bind (length changed) _ _ _ (remove_modules changed) _ (delete_all changed)
    (fun v => delete_all removed (insert_all new.*2 v))); [apply edits_remove_modules| |].
  - rewrite <- (length_fmap snd new).
    apply (edits_bind _ _ _ (fun _ => True) (add_modules new.*2) (remove_modules removed) (insert_all new.*2));
      [apply edits_add_modules|apply edits_remove_modules|done].
  - done.
Qed.

(** What a scan makes of the published modules. *)
Lemma scan_edit_published w sp current new :
  represents w sp -> enum_ok sp current new ->
  scan_edit new (changed_keys (sp_known sp) current)
      (filter (fun k => k ∉ jit_keys (reg w)) (removed_keys (sp_known sp) current)) (published (st w)) =
    scanned (sp_known sp) current new (sp_static sp) ∪ (fst <$> sp_jit sp).
Proof.
  intros Hr (Hnd & Hnew & _).
  assert (Hst : Forall (fun km => mod_start km.2 = km.1) new).
  { eapply Forall_impl; [exact Hnew|]. by intros km [[? _] _]. }
  apply map_eq. intros k. unfold scan_edit, scanned.
  rewrite delete_all_lookup, lookup_union, lookup_fmap, !insert_all_lookup by by rewrite new_starts.
  rewrite delete_all_lookup, (published_lookup _ _ _ Hr).
  assert (Hrem : k ∈ filter (fun k => k ∉ jit_keys (reg w)) (removed_keys (sp_known sp) current) <->
    sp_jit sp !! k = None /\ is_Some (sp_known sp !! k) /\ current !! k = None).
  { by rewrite list_elem_of_filter, (rp_jit_keys _ _ Hr), not_elem_of_dom, elem_of_removed. }
  destruct (list_find _ _) as [[i m]|] eqn:E.
  - apply find_new in E; [|done]. rewrite Forall_forall in Hnew. destruct (Hnew _ E) as ((_ & Hj) & [fp Hc] & _).
    simpl in *. rewrite Hj, decide_False; [done|]. rewrite Hrem, Hc. by intros (_ & _ & ?).
  - clear E. destruct (sp_static sp !! k) as [m|] eqn:Es.
    + assert (Hj : sp_jit sp !! k = None) by (eapply static_not_jit; eauto).
      destruct (rp_static _ _ Hr k) as [fp Hk]; [eauto|]. rewrite Hj. simpl.
      destruct (current !! k) as [nfp|] eqn:Ec.
      * rewrite decide_False by (rewrite Hrem; naive_solver).
        destruct (decide (fp = nfp)) as [->|Hne].
        -- rewrite decide_False by (rewrite elem_of_changed; naive_solver).
           assert (filter (fun km => sp_known sp !! km.1 = current !! km.1) (sp_static sp) !! k = Some m) as ->; [|done].
           apply map_lookup_filter_Some. split; [done|]. simpl. congruence.
        -- rewrite decide_True by (rewrite elem_of_changed; naive_solver).
           assert (filter (fun km => sp_known sp !! km.1 = current !! km.1) (sp_static sp) !! k = None) as ->; [|done].
           apply map_lookup_filter_None. right. intros m' Hm'. simpl. congruence.
      * rewrite decide_True by (rewrite Hrem; naive_solver).
        assert (filter (fun km => sp_known sp !! km.1 = current !! km.1) (sp_static sp) !! k = None) as ->; [|done].
        apply map_lookup_filter_None. right. intros m' Hm'. simpl. congruence.
    + assert (filter (fun km => sp_known sp !! km.1 = current !! km.1) (sp_static sp) !! k = None) as ->.
      { apply map_lookup_filter_None. by left. }
      destruct (sp_jit sp !! k) as [me|] eqn:Ej; [|repeat case_decide; done].
      assert (Hk : sp_known sp !! k = None).
      { apply eq_None_not_Some. intros Hs. apply (rp_disjoint _ _ Hr) in Hs. congruence. }
      rewrite decide_False by (rewrite Hrem; naive_solver).
      rewrite decide_False; [done|]. rewrite elem_of_changed, Hk. naive_solver.
Qed.

Lemma nothing_changed_bool known current :
  is_nil (removed_keys known current) && is_nil (changed_keys known current) =
  bool_decide (map_Forall (fun k fp => current !! k = Some fp) known).
Proof.
  apply Bool.eq_iff_eq_true. by rewrite nothing_changed, bool_decide_eq_true.
Qed.

(** When nothing changed, the static modules are kept as they are. *)
Lemma scanned_same known current (static : gmap Z (Module_ D)) :
  map_Forall (fun k fp => current !! k = Some fp) known ->
  (forall k, is_Some (static !! k) -> is_Some (known !! k)) ->
  scanned known current [] static = static.
Proof.
  intros Hf Hs. apply map_filter_id. intros k m Hm. destruct (Hs k) as [fp Hk]; [eauto|].
  simpl. rewrite Hk. symmetry. by apply Hf.
Qed.

Lemma scanned_loaded w sp current new k :
  represents w sp -> enum_ok sp current new ->
  is_Some (scanned (sp_known sp) current new (sp_static sp) !! k) -> is_Some (current !! k).
Proof.
  intros Hr (Hnd & Hnew & _).
  assert (Hst : Forall (fun km => mod_start km.2 = km.1) new).
  { eapply Forall_impl; [exact Hnew|]. by intros km [[? _] _]. }
  unfold scanned. rewrite insert_all_lookup by by rewrite new_starts.
  destruct (list_find _ _) as [[i m]|] eqn:E.
  - apply find_new in E; [|done]. rewrite Forall_forall in Hnew. by destruct (Hnew _ E) as (_ & ? & _).
  - intros [m [Hm Heq]%map_lookup_filter_Some]. simpl in Heq. rewrite <- Heq. apply (rp_static _ _ Hr). eauto.
Qed.

Lemma refresh_step w sp boxed counts enumerate :
  represents w sp -> op_ok (OpRefresh boxed counts enumerate) sp w ->
  exists w', refresh boxed counts enumerate w = (Ok tt, w') /\
    represents w' (spec_op (OpRefresh boxed counts enumerate) sp).
Proof.
  intros Hr Hok. unfold refresh, get_reg_. st_bind. cbn [op_ok spec_op] in *. unfold scan in *.
  rewrite (rp_counts _ _ Hr), (rp_known _ _ Hr).
  destruct (bool_decide (is_Some counts) && bool_decide (counts = sp_counts sp)); [by exists w|].
  destruct (enumerate (sp_known sp)) as [[current new]|]; [|by exists w].
  destruct Hok as ([Hbox Hg] & Hen & Hbat). pose proof Hen as (Hnd & Hnew & Hdis).
  assert (Hst : Forall (fun km => mod_start km.2 = km.1) new).
  { eapply Forall_impl; [exact Hnew|]. by intros km [[? _] _]. }
  pose proof (rp_no_pending _ _ Hr Hbat) as Hnp.
  unfold on_reg. st_bind. rewrite <- andb_assoc, nothing_changed_bool.
  destruct (is_nil new && _) eqn:Hnone.
  - apply andb_true_iff in Hnone as [->%is_nil_true Hall%bool_decide_eq_true].
    rewrite scanned_same by (done || apply Hr).
    eexists. split; [by st_bind|]. split; cbn [reg st]; try (by apply Hr). done.
  - set (removed := filter (fun k => k ∉ jit_keys (reg w)) (removed_keys (sp_known sp) current)).
    set (changed := changed_keys (sp_known sp) current).
    assert (Hlen : (length changed + (length new + length removed) <= 2 * size (sp_known sp) + length new)%nat).
    { pose proof (length_changed (sp_known sp) current). pose proof (length_removed (sp_known sp) current).
      pose proof (length_filter (fun k => k ∉ jit_keys (reg w)) (removed_keys (sp_known sp) current)).
      unfold changed, removed. lia. }
    destruct (edit_run _ _ _ _ boxed (MkWorld (set_load_counts counts (reg w)) (st w)) (edits_scan new changed removed)
      (rp_state _ _ Hr) Hbox) as (s' & Hrun & Hinv & Hpub).
    { cbn [st]. lia. }
    { cbn [st]. split; [by rewrite new_starts|]. apply Forall_forall. rewrite Forall_forall in Hnew.
      intros m ([k m'] & -> & Hin)%list_elem_of_fmap. destruct (Hnew _ Hin) as ([Hs Hj] & [fp Hc] & Hne). simpl in *.
      rewrite Hs, delete_all_lookup, (published_lookup _ _ _ Hr), Hj. case_decide as Hd; [done|].
      destruct (sp_known sp !! k) as [fp0|] eqn:Hk; [|by rewrite (unknown_not_static _ _ _ Hr Hk)].
      destruct Hd. apply elem_of_changed. exists fp0, fp. split_and!; [done..|]. congruence. }
    cbn [reg st] in Hrun, Hpub. unfold removed, changed in Hpub.
    rewrite (scan_edit_published _ _ _ _ Hr Hen) in Hpub.
    eexists. split; [st_bind; fold changed removed; rewrite Hrun; st_bind; done|].
    split; cbn [reg st]; try (by apply Hr); try done.
    + intros k Hk. by eapply scanned_loaded.
    + cbn. rewrite Hnp. split; constructor.
Qed.


(** ** The dyld callbacks *)

Lemma known_all_lookup (known : gmap Z Z) (pend : list (Z * Z * Module_ D)) k :
  is_Some (foldl (fun mods '(k, fp, _) => <[k := fp]> mods) known pend !! k) <->
  is_Some (known !! k) \/ k ∈ pend.*1.*1.
Proof.
  revert known. induction pend as [|[[k' fp] m] pend IH]; intros known; [set_solver|].
  cbn [foldl]. rewrite IH, lookup_insert_is_Some, !fmap_cons, elem_of_cons. cbn [fst].
  destruct (decide (k' = k)) as [->|Hne]; intuition congruence.
Qed.

(** The batched images as the list of their keys and modules. *)
Definition batched (pend : list (Z * Z * Module_ D)) : list (Z * Module_ D) :=
  (fun p => (p.1.1, p.2)) <$> pend.

Lemma batched_keys pend : (batched pend).*1 = pend.*1.*1.
Proof. unfold batched. rewrite <- !list_fmap_compose. done. Qed.

Lemma batched_modules pend : (batched pend).*2 = pend.*2.
Proof. unfold batched. rewrite <- !list_fmap_compose. done. Qed.

Lemma batched_starts w sp :
  represents w sp -> Forall (fun km => mod_start km.2 = km.1) (batched (sp_pending sp)).
Proof.
  intros Hr. destruct (rp_pending _ _ Hr) as [_ Hp]. apply Forall_fmap.
  eapply Forall_impl; [exact Hp|]. by intros p [? _].
Qed.

Lemma end_batch_step w sp boxed :
  represents w sp -> op_ok (OpEndBatch boxed) sp w ->
  exists w', macos_end_batch boxed w = (Ok tt, w') /\ represents w' (spec_op (OpEndBatch boxed) sp).
Proof.
  intros Hr [Hbox Hg]. unfold macos_end_batch, get_reg_. st_bind. unfold on_reg. st_bind.
  destruct (rp_batch _ _ Hr) as [_ Hpe]. destruct (rp_pending _ _ Hr) as [Hnd Hp].
  pose proof (batched_starts _ _ Hr) as Hst. rewrite Hpe.
  destruct (is_nil (sp_pending sp)) eqn:Hnil; cbn [spec_op].
  { apply is_nil_true in Hnil. rewrite Hnil. eexists. split; [by st_bind|].
    split; cbn; try (by apply Hr); try done. split; constructor. }
  clear Hnil. st_bind.
  cbn [reg st]. match goal with |- context [edit boxed _ ?w'] => set (w1 := w') end.
  destruct (edit_run _ _ _ _ boxed w1 (edits_add_modules (sp_pending sp).*2) (rp_state _ _ Hr) Hbox)
    as (s' & Hrun & Hinv & Hpub).
  { rewrite length_fmap. exact Hg. }
  { split; [by rewrite <- batched_modules, new_starts, batched_keys|]. apply Forall_forall.
    rewrite Forall_forall in Hp. intros m (p & -> & Hin)%list_elem_of_fmap.
    destruct (Hp p Hin) as (-> & Hk & Hj). unfold w1. cbn [st].
    by rewrite (published_lookup _ _ _ Hr), (unknown_not_static _ _ _ Hr Hk), Hj. }
  eexists. split; [exact Hrun|]. unfold w1 in *. cbn [st reg] in *.
  assert (Hins : forall v k, insert_all (sp_pending sp).*2 v !! k =
    match list_find (fun m => mod_start m = k) (sp_pending sp).*2 with Some (_, m) => Some m | None => v !! k end).
  { intros v k. apply insert_all_lookup. by rewrite <- batched_modules, new_starts, batched_keys. }
  assert (Hfind : forall k i m, list_find (fun m => mod_start m = k) (sp_pending sp).*2 = Some (i, m) ->
    k ∈ (sp_pending sp).*1.*1).
  { intros k i m E. rewrite <- batched_modules in E. apply find_new in E; [|done].
    rewrite <- batched_keys. by apply (list_elem_of_fmap_2 fst _ (k, m)). }
  split; cbn; try (by apply Hr); try done.
  - rewrite Hpub. apply map_eq. intros k. rewrite Hins, lookup_union, Hins, (published_lookup _ _ _ Hr), lookup_fmap.
    destruct (list_find _ _) as [[i m]|] eqn:E.
    + apply Hfind in E. apply list_elem_of_fmap in E as (q & -> & Hq).
      apply list_elem_of_fmap in Hq as (p & -> & Hin). rewrite Forall_forall in Hp.
      destruct (Hp p Hin) as (_ & _ & ->). done.
    + destruct (sp_static sp !! k), (sp_jit sp !! k); done.
  - by rewrite (rp_known _ _ Hr).
  - intros k. rewrite Hins, known_all_lookup. destruct (list_find _ _) as [[i m]|] eqn:E.
    + intros _. right. by eapply Hfind.
    + intros Hk. left. by apply (rp_static _ _ Hr).
  - intros k. rewrite known_all_lookup. intros [Hk|Hk]; [by apply (rp_disjoint _ _ Hr)|].
    apply list_elem_of_fmap in Hk as (q & -> & Hq). apply list_elem_of_fmap in Hq as (p & -> & Hin).
    rewrite Forall_forall in Hp. by destruct (Hp p Hin) as (_ & _ & ?).
  - split; constructor.
Qed.

Lemma add_image_step w sp boxed key fp m :
  represents w sp -> op_ok (OpAddImage boxed key fp m) sp w ->
  exists w', macos_add_image boxed key fp m w = (Ok tt, w') /\ represents w' (spec_op (OpAddImage boxed key fp m) sp).
Proof.
  intros Hr ([Hbox Hg] & [Hm Hj] & Hnew). unfold macos_add_image, get_reg_. st_bind.
  destruct (rp_batch _ _ Hr) as [Hb Hpe]. rewrite Hb. cbn [spec_op]. unfold on_reg.
  destruct (sp_batching sp) eqn:Hbat; st_bind.
  - eexists. split; [done|]. destruct (rp_pending _ _ Hr) as [Hnd Hp]. destruct Hnew as [Hk Hnin]; [done|].
    split; cbn; try (by apply Hr); try done; [by rewrite Hpe|]. rewrite !fmap_app. split.
    + apply NoDup_app. split_and!; [done| |apply NoDup_singleton]. intros k Hin ->%list_elem_of_singleton. done.
    + apply Forall_app. split; [done|]. by repeat constructor.
  - destruct (edit_run _ _ _ _ boxed w (edits_replace (bool_decide (is_Some (static_mods (reg w) !! key))) key m Hm)
      (rp_state _ _ Hr) Hbox Hg) as (s' & Hrun & Hinv & Hpub).
    { case_bool_decide as Hk; [by left|right]. rewrite (rp_known _ _ Hr), <- eq_None_not_Some in Hk.
      by rewrite (published_lookup _ _ _ Hr), (unknown_not_static _ _ _ Hr Hk), Hj. }
    rewrite Hrun. eexists. split; [done|]. rewrite (rp_no_pending _ _ Hr) by done.
    split; cbn; try (by apply Hr); try done.
    + by rewrite Hpub, (rp_published _ _ Hr), insert_union_l.
    + by rewrite (rp_known _ _ Hr).
    + split; [done|]. by rewrite Hpe, (rp_no_pending _ _ Hr).
    + intros k. rewrite !lookup_insert_is_Some. intros [->|[? ?]]; [by left|].
      destruct (decide (key = k)); [by left|right]. split; [done|]. by apply (rp_static _ _ Hr).
    + intros k. rewrite lookup_insert_is_Some. intros [<-|[_ Hk]]; [done|by apply (rp_disjoint _ _ Hr)].
    + split; constructor.
Qed.

Lemma remove_image_step w sp boxed key :
  represents w sp -> op_ok (OpRemoveImage boxed key) sp w ->
  exists w', macos_remove_image boxed key w = (Ok tt, w') /\ represents w' (spec_op (OpRemoveImage boxed key) sp).
Proof.
  intros Hr [Hbox Hg]. unfold macos_remove_image, get_reg_. st_bind.
  destruct (rp_batch _ _ Hr) as [Hb Hpe]. destruct (rp_pending _ _ Hr) as [Hnd Hp].
  cbn [spec_op]. unfold on_reg.
  set (pend := if sp_batching sp then filter (fun p => p.1.1 <> key) (sp_pending sp) else sp_pending sp).
  assert (Hw : exists w1, (if batching (reg w) then st_modify (fun w0 => MkWorld
      (set_pending true (filter (fun p => p.1.1 <> key) (pending (reg w))) (reg w0)) (st w0)) else mret tt : M unit) w
      = (Ok tt, w1) /\ w1 = MkWorld (set_pending (sp_batching sp) pend (reg w)) (st w)).
  { unfold pend. rewrite Hb, Hpe. destruct (sp_batching sp); eexists; st_bind; (split; [done|]); [done|].
    rewrite <- Hpe, <- Hb. by destruct w as [[] ?]. }
  destruct Hw as (w1 & Hw1 & ->). rewrite Hw1. st_bind. cbn [reg st].
  assert (Hpend : NoDup pend.*1.*1 /\ Forall (fun p => mod_start p.2 = p.1.1 /\
    delete key (sp_known sp) !! p.1.1 = None /\ sp_jit sp !! p.1.1 = None) pend).
  { unfold pend. split.
    - destruct (sp_batching sp); [|done]. rewrite <- list_fmap_compose in *.
      eapply sublist_NoDup; [exact Hnd|]. apply fmap_sublist, sublist_filter.
    - assert (Forall (fun p => mod_start p.2 = p.1.1 /\ delete key (sp_known sp) !! p.1.1 = None /\
        sp_jit sp !! p.1.1 = None) (sp_pending sp)).
      { eapply Forall_impl; [exact Hp|]. intros p (? & ? & ?). split_and!; [done| |done].
        rewrite lookup_delete. by case_decide. }
      destruct (sp_batching sp); [|done]. rewrite Forall_forall in *.
      intros p [_ Hin]%list_elem_of_filter. auto. }
  rewrite (rp_known _ _ Hr). destruct (sp_known sp !! key) as [fp|] eqn:Hk.
  - assert (Hj : sp_jit sp !! key = None) by (apply (rp_disjoint _ _ Hr); eauto).
    rewrite bool_decide_false by by rewrite (rp_jit_keys _ _ Hr), not_elem_of_dom.
    match goal with |- context [edit boxed _ ?w'] => set (w1 := w') end.
    destruct (edit_run _ _ _ _ boxed w1 (edits_remove key (fun _ => True)) (rp_state _ _ Hr) Hbox Hg)
      as (s' & Hrun & Hinv & Hpub); [done|].
    eexists. split; [exact Hrun|]. unfold w1 in *. cbn [st reg] in *.
    split; cbn; try (by apply Hr); try done.
    + rewrite Hpub, (rp_published _ _ Hr), delete_union. f_equal. apply delete_id. by rewrite lookup_fmap, Hj.
    + by rewrite (rp_known _ _ Hr).
    + intros k. rewrite !lookup_delete_is_Some. intros [? ?]. split; [done|]. by apply (rp_static _ _ Hr).
    + intros k. rewrite lookup_delete_is_Some. intros [_ ?]. by apply (rp_disjoint _ _ Hr).
    + unfold pend. intros Hbf. rewrite Hbf. by apply (rp_no_pending _ _ Hr).
  - pose proof (unknown_not_static _ _ _ Hr Hk) as Hs. rewrite (delete_id (sp_known sp)), (delete_id (sp_static sp)) by done.
    rewrite (delete_id (sp_known sp)) in Hpend by done.
    eexists. split; [done|]. split; cbn; try (by apply Hr); try done.
    + rewrite delete_id; [apply Hr|]. by rewrite (rp_known _ _ Hr).
    + unfold pend. intros Hbf. rewrite Hbf. by apply (rp_no_pending _ _ Hr).
Qed.

(** ** Any sequence of operations *)

Fixpoint run_ops (os : list op) : M unit :=
  match os with
  | [] => mret tt
  | o :: os => _ ← run_op o; run_ops os
  end.

Fixpoint spec_ops (os : list op) (sp : Spec) : Spec :=
  match os with
  | [] => sp
  | o :: os => spec_ops os (spec_op o sp)
  end.

(** Each operation's guarantees hold when it runs. *)
Fixpoint ops_ok (os : list op) (sp : Spec) (w : World) : Prop :=
  match os with
  | [] => True
  | o :: os => op_ok o sp w /\ ops_ok os (spec_op o sp) (run_op o w).2
  end.

Lemma op_step o w sp :
  represents w sp -> op_ok o sp w ->
  exists w', run_op o w = (Ok tt, w') /\ represents w' (spec_op o sp).
Proof.
  intros Hr Hok. destruct o; cbn [run_op].
  - by apply refresh_step.
  - eexists. split; [done|]. destruct (rp_batch _ _ Hr) as [_ Hpe].
    split; cbn; try (by apply Hr); done.
  - by apply end_batch_step.
  - by apply add_image_step.
  - by apply remove_image_step.
  - by apply add_jit_step.
  - by apply remove_jit_locked_step.
  - by apply remove_jit_by_eh_frame_step.
Qed.

(** C19: the registry refines its specification. Through any sequence of refreshes,
    dyld callbacks and JIT registrations and deregistrations, every operation
    succeeds, and the published snapshot holds exactly the static modules of the
    last scan and the registered JIT modules, JIT modules surviving every refresh;
    the two address maps stay inverse to each other and name exactly the modules
    their last registration named. *)
Theorem registry_refines os w sp (Hr : represents w sp) (Hok : ops_ok os sp w) :
  exists w', run_ops os w = (Ok tt, w') /\ represents w' (spec_ops os sp).
Proof.
  revert w sp Hr Hok. induction os as [|o os IH]; intros w sp Hr Hok; [by exists w|].
  destruct Hok as [Ho Hok]. destruct (op_step o w sp Hr Ho) as (w1 & E1 & Hr1). rewrite E1 in Hok.
  destruct (IH w1 _ Hr1 Hok) as (w' & E & Hr'). exists w'. split; [|done].
  cbn [run_ops]. by rewrite st_bind_spec, E1.
Qed.

(** A stale [.eh_frame] pointer deregisters nothing. Once a key is registered
    again with another [.eh_frame] address, or an address is registered again for
    another key, the module that lost the address cannot be removed through it:
    deregistering the old address leaves everything as it is, or removes only the
    module that was registered with it last. *)
Theorem stale_eh_frame_is_inert w sp boxed1 boxed2 key eh1 eh2 m m0
    (Hr : represents w sp) (Hok : op_ok (OpAddJit boxed1 key eh2 m) sp w)
    (Hold : sp_jit sp !! key = Some (m0, Some eh1)) (Hne : eh1 <> eh2) :
  exists w', add_jit_module boxed1 key eh2 m w = (Ok tt, w') /\
    published (st w') = <[key := m]> (published (st w)) /\
    remove_jit_module_by_eh_frame boxed2 eh1 w' = (Ok tt, w') /\
    forall w'', remove_jit_module_by_eh_frame boxed2 eh2 w' = (Ok tt, w'') ->
      op_ok (OpRemoveJitByEhFrame boxed2 eh2) (spec_op (OpAddJit boxed1 key eh2 m) sp) w' ->
      published (st w'') = delete key (published (st w)).
Proof.
  destruct (add_jit_step w sp boxed1 key eh2 m Hr Hok) as (w' & E & Hr'). exists w'. split; [done|].
  assert (Hs : sp_static sp !! key = None).
  { eapply unknown_not_static; [done|]. by destruct Hok as (_ & _ & ? & _). }
  assert (Hp' : published (st w') = <[key := m]> (published (st w))).
  { apply map_eq. intros k. rewrite (published_lookup _ _ _ Hr'), lookup_insert. cbn [spec_op sp_static sp_jit].
    rewrite lookup_insert, lookup_fmap, (published_lookup _ _ _ Hr). case_decide as Hk; [subst; by rewrite Hs|].
    by destruct (sp_static sp !! k), (sp_jit sp !! k). }
  assert (Hby : forall eh, jit_by_eh_frame (reg w') !! eh = Some key <-> eh = eh2).
  { intros eh. destruct (rp_maps _ _ Hr') as [_ ->]. cbn [spec_op sp_jit]. rewrite lookup_insert_eq. naive_solver. }
  split; [done|]. split.
  - unfold remove_jit_module_by_eh_frame, get_reg_. st_bind.
    destruct (jit_by_eh_frame (reg w') !! eh1) as [k|] eqn:Ek; [|done]. exfalso.
    destruct (rp_maps _ _ Hr') as [_ Hbe]. apply Hbe in Ek as Ek'. cbn [spec_op sp_jit] in Ek'.
    destruct Ek' as [m' Ek']. rewrite lookup_insert in Ek'. case_decide as Hk; [congruence|].
    rewrite lookup_fmap in Ek'. destruct (sp_jit sp !! k) as [[m'' e]|] eqn:Ej; [|done].
    unfold unname in Ek'. simpl in Ek'. case_bool_decide; simplify_eq.
    destruct (rp_maps _ _ Hr) as [_ Hbe0].
    assert (jit_by_eh_frame (reg w) !! eh1 = Some k) by (apply Hbe0; eauto).
    assert (jit_by_eh_frame (reg w) !! eh1 = Some key) by (apply Hbe0; eauto). congruence.
  - intros w'' E'' Hok''. destruct (remove_jit_by_eh_frame_step w' _ boxed2 eh2 Hr' Hok'') as (w2 & E2 & Hr2).
    assert (w2 = w'') as -> by congruence. apply map_eq. intros k.
    rewrite (published_lookup _ _ _ Hr2), lookup_delete. cbn [spec_op sp_static sp_jit].
    rewrite (published_lookup _ _ _ Hr). case_decide as Hk.
    + subst k. rewrite Hs. assert (filter (fun kme => kme.2.2 <> Some eh2)
        (<[key := (m, Some eh2)]> (unname eh2 <$> sp_jit sp)) !! key = None) as ->; [|done].
      apply map_lookup_filter_None. right. rewrite lookup_insert_eq. intros x Hx. simplify_eq. simpl. intros Hx. by apply Hx.
    + destruct (sp_static sp !! k); [done|]. set (j' := filter _ _). destruct (sp_jit sp !! k) as [[m' e]|] eqn:Ej.
      * assert (j' !! k = Some (unname eh2 (m', e))) as ->; [|done].
        apply map_lookup_filter_Some. rewrite lookup_insert_ne, lookup_fmap, Ej by done. split; [done|].
        unfold unname. simpl. case_bool_decide; simpl; congruence.
      * assert (j' !! k = None) as ->; [|done]. apply map_lookup_filter_None. left.
        by rewrite lookup_insert_ne, lookup_fmap, Ej.
Qed.

End Registry.

Arguments EnumResult D : clear implicits.

(** ** A concrete run *)

Definition example_world : World (D := unit) (R := UnwindRuleX86_64) (Regs := UnwindRegsX86_64) (C := unit) :=
  MkWorld Registry_new state_new.

(** Before the library has done anything. *)
Definition empty_spec {D} : Spec (D := D) := MkSpec ∅ None ∅ ∅ false [].

Lemma initial_represents {D R Regs C} :
  represents (MkWorld Registry_new (state_new (D := D) (R := R) (Regs := Regs) (C := C))) empty_spec.
Proof.
  split; try done.
  - split; [split|..]; try done.
    + intros p. change (heap _) with (∅ : gmap ptr (Snapshot (D := D))).
      change (retired _) with (@nil ptr). rewrite lookup_empty.
      split; [by intros []|]. intros [?|?%not_elem_of_nil]; done.
    + constructor.
    + intros sl p Hin. by apply not_elem_of_nil in Hin.
  - intros k. cbn. rewrite lookup_empty. by intros [].
  - split; [done|]. intros eh k. change (@None Z = Some k <-> exists m : Module_ D, None = Some (m, Some eh)).
    split; [done|by intros [m Hm]].
  - split; constructor.
Defined.

Definition example_spec : Spec (D := unit) := empty_spec.

Lemma example_represents : represents example_world example_spec.
Proof. apply initial_represents. Defined.

(** One image is loaded, a JIT region is registered twice, the image is unloaded. *)
Definition example_ops : list (op (D := unit)) :=
  [ OpRefresh 1%nat (Some (1, 0)) (fun _ => Some (MkEnumResult {[4096 := 11]} [(4096, example_module 4096 8192)]));
    OpAddJit 2%nat 65536 900 (example_module 65536 65600);
    OpAddJit 3%nat 65536 901 (example_module 65536 65700);
    OpRemoveJitByEhFrame 4%nat 900;
    OpRefresh 5%nat (Some (1, 1)) (fun _ => Some (MkEnumResult ∅ [])) ].

Lemma example_room (s : state (D := unit) (R := UnwindRuleX86_64) (Regs := UnwindRegsX86_64) (C := unit)) boxed n :
  bool_decide (heap s !! boxed = None) && (generations s + Z.of_nat (S n) <=? u64_MAX) = true ->
  heap s !! boxed = None /\ generations s + Z.of_nat (S n) <= u64_MAX.
Proof. rewrite andb_true_iff, bool_decide_eq_true, Z.leb_le. done. Defined.

Lemma registry_refines_witness :
  exists w', run_ops map_to_list example_ops example_world = (Ok tt, w') /\
    represents w' (spec_ops example_ops example_spec).
Proof.
  apply (registry_refines map_to_list (fun m => reflexivity _)); [exact example_represents|].
  refine (conj _ (conj _ (conj _ (conj _ (conj _ I))))).
  - split; [apply example_room; vm_compute; reflexivity|]. split; [|reflexivity].
    split; [apply NoDup_singleton|]. split.
    + repeat constructor; [by eexists|]. by vm_compute.
    + intros k _. apply lookup_empty.
  - split; [apply example_room; vm_compute; reflexivity|]. split_and!; [done|by vm_compute|apply not_elem_of_nil].
  - split; [apply example_room; vm_compute; reflexivity|]. split_and!; [done|by vm_compute|apply not_elem_of_nil].
  - apply example_room. vm_compute. reflexivity.
  - split; [apply example_room; vm_compute; reflexivity|]. split; [|reflexivity].
    split; [constructor|]. split; [constructor|]. intros k [x Hk]. by rewrite lookup_empty in Hk.
Defined.

(** One registered JIT module. *)
Definition example_jit_op : op (D := unit) := OpAddJit 2%nat 65536 900 (example_module 65536 65600).

Definition example_jit_world : World (D := unit) (R := UnwindRuleX86_64) (Regs := UnwindRegsX86_64) (C := unit) :=
  (run_op map_to_list example_jit_op example_world).2.

Lemma example_jit_represents : represents example_jit_world (spec_op example_jit_op example_spec).
Proof.
  destruct (op_step map_to_list (fun m => reflexivity _) example_jit_op example_world example_spec) as (w' & E & Hr).
  - exact example_represents.
  - split; [apply example_room; vm_compute; reflexivity|]. split_and!; [done|by vm_compute|apply not_elem_of_nil].
  - unfold example_jit_world. by rewrite E.
Defined.

Lemma stale_eh_frame_is_inert_witness :
  exists w', add_jit_module 3%nat 65536 901 (example_module 65536 65700) example_jit_world = (Ok tt, w') /\
    published (st w') = <[65536 := example_module 65536 65700]> (published (st example_jit_world)) /\
    remove_jit_module_by_eh_frame 4%nat 900 w' = (Ok tt, w').
Proof.
  destruct (stale_eh_frame_is_inert example_jit_world (spec_op example_jit_op example_spec) 3%nat 4%nat 65536 900 901
    (example_module 65536 65700) (example_module 65536 65600)) as (w' & E & Hp & Hi & _).
  - exact example_jit_represents.
  - split; [apply example_room; vm_compute; reflexivity|]. split_and!; [done|by vm_compute|apply not_elem_of_nil].
  - by vm_compute.
  - done.
  - by exists w'.
Defined.
