(* ===== verification/Jit.v ===== *)
(** * Registration of JIT code

    Models [src/src/modules/jit.rs]: registering a live [.eh_frame] buffer as a module,
    with a given code range or with the range of its FDEs, and deregistering it. The
    registry it ends in is [Registry]; the FDEs are parsed by gimli, the class of
    [Dwarf]. *)
From S2P Require Import Prelude CodeAddress UnwindRule X86Regs X86Rules X86Dwarf Generation ModuleList RuleCache Images Sections Dwarf Compact Pe Unwinder ModuleData Arch Hazard State Registry.

Section fdes.
  Context {C : Type} `{Gimli C}.

(** An FDE with its CIE parsed at the offset it names. *)
Definition parse_fde (section : UnwindSection) (bases : BaseAddresses) (partial : PartialFde) : result GError Fde :=
  cie_from_offset section bases (partial_cie_offset partial) ≫= parse_with_cie partial.

(** The loop of [fde_pc_range]. *)
Fixpoint fde_range_loop (section : UnwindSection) (bases : BaseAddresses)
    (entries : list (result GError (CieOrFde Cie PartialFde))) (lo hi : Z) (found : bool) : option (Z * Z * bool) :=
  match entries with
  | [] => Some (lo, hi, found)
  | Err _ :: _ => None
  | Ok (CF_Cie _) :: entries => fde_range_loop section bases entries lo hi found
  | Ok (CF_Fde partial) :: entries =>
      match parse_fde section bases partial with
      | Err _ => None
      | Ok fde =>
          let start := initial_address fde in
          let stop := start +64 fde_len fde in
          fde_range_loop section bases entries
            (if start <? lo then start else lo) (if hi <? stop then stop else hi) true
      end
  end.

Definition fde_pc_range (eh_frame_bytes : list Z) (eh_frame_runtime : Z) : option (Z * Z) :=
  let eh_frame := MkUnwindSection EhFrame eh_frame_bytes 8 in
  let bases := MkBases (Some eh_frame_runtime) None None None in
  '(lo, hi, found) ← fde_range_loop eh_frame bases (section_entries eh_frame bases) u64_MAX 0 false;
  if found && (lo <? hi) then Some (lo, hi) else None.
End fdes.

Section jit.
  Context {R Regs C : Type} `{Gimli C}.
  (** The process's memory, which holds the embedder's buffers. *)
  Context (memory : Z -> Z).

(** The counter [JIT_REGISTER_FAILURES] with the registry and the published state. *)
Record JitWorld : Type := MkJitWorld {
  JIT_REGISTER_FAILURES : Z;
  world : World (D := ModuleUnwindDataInternal Bytes) (R := R) (Regs := Regs) (C := C);
}.

Abbreviation JM := (ST JitWorld crash).

Definition on_world {A} (m : ST World crash A) : JM A := fun w =>
  let '(r, w') := m (world w) in (r, MkJitWorld (JIT_REGISTER_FAILURES w) w').

Definition note_fail (rc : Z) : JM Z :=
  _ ← (if rc <? 0 then st_modify (fun w => MkJitWorld (JIT_REGISTER_FAILURES w +64 1) (world w)) else mret tt);
  mret rc.

(** The module of a buffer: its bytes are copied, its section's addresses are those of
    the buffer. *)
Definition jit_module (eh_frame_ptr eh_frame_len text_lo text_hi : Z) : Module_ (ModuleUnwindDataInternal Bytes) :=
  let info := MkExplicit text_lo None None None None None None
    (Some (Range eh_frame_ptr (eh_frame_ptr +64 eh_frame_len)))
    (Some (Owned (slice_at memory eh_frame_ptr eh_frame_len))) None None None None None in
  Module_new (C := C) deref "" (Range text_lo text_hi) text_lo info.

Definition register_jit_eh_frame (boxed : ptr) (eh_frame_ptr eh_frame_len text_lo text_hi : Z) : JM Z :=
  if (eh_frame_ptr =? 0) || (eh_frame_len =? 0) || (text_hi <=? text_lo) then note_fail (-1)
  else if u32_MAX <? text_hi -64 text_lo then note_fail (-2)
  else
    let eh_frame_copy := Owned (slice_at memory eh_frame_ptr eh_frame_len) in
    match fde_pc_range (deref eh_frame_copy) eh_frame_ptr with
    | None => note_fail (-3)
    | Some _ =>
        _ ← on_world (add_jit_module boxed text_lo eh_frame_ptr
              (jit_module eh_frame_ptr eh_frame_len text_lo text_hi));
        mret 0
    end.

Definition register_jit_eh_frame_auto (boxed : ptr) (eh_frame_ptr eh_frame_len : Z) : JM Z :=
  if (eh_frame_ptr =? 0) || (eh_frame_len =? 0) then note_fail (-1)
  else
    match fde_pc_range (slice_at memory eh_frame_ptr eh_frame_len) eh_frame_ptr with
    | Some (text_lo, text_hi) => register_jit_eh_frame boxed eh_frame_ptr eh_frame_len text_lo text_hi
    | None => note_fail (-3)
    end.

Definition deregister_jit (boxed : ptr) (text_lo : Z) : JM unit := on_world (remove_jit_module boxed text_lo).

Definition deregister_jit_eh_frame (boxed : ptr) (eh_frame_ptr : Z) : JM unit :=
  on_world (remove_jit_module_by_eh_frame boxed eh_frame_ptr).

Definition jit_register_failures : JM Z :=
  w ← st_get;
  mret (JIT_REGISTER_FAILURES w).
End jit.

(** ** The range of the FDEs *)

Section range_spec.
  Context {C : Type} `{Gimli C} (section : UnwindSection) (bases : BaseAddresses).

(** All FDEs of a section, in order. *)
Fixpoint fdes_of (entries : list (result GError (CieOrFde Cie PartialFde))) : result GError (list Fde) :=
  match entries with
  | [] => mret []
  | Err e :: _ => Err e
  | Ok (CF_Cie _) :: entries => fdes_of entries
  | Ok (CF_Fde partial) :: entries =>
      fde ← parse_fde section bases partial;
      rest ← fdes_of entries;
      mret (fde :: rest)
  end.

Definition section_fdes : result GError (list Fde) := fdes_of (section_entries section bases).

Definition fde_end (fde : Fde) : Z := initial_address fde +64 fde_len fde.

Lemma fde_range_loop_spec es lo hi found :
  fde_range_loop section bases es lo hi found =
    match fdes_of es with
    | Ok fdes => Some (foldl (fun lo f => Z.min lo (initial_address f)) lo fdes,
                       foldl (fun hi f => Z.max hi (fde_end f)) hi fdes, found || negb (is_nil fdes))
    | Err _ => None
    end.
Proof.
  revert lo hi found. induction es as [|[[cie|p]|e] es IH]; intros lo hi found; cbn [fde_range_loop fdes_of].
  - cbn. by rewrite orb_false_r.
  - apply IH.
  - destruct (parse_fde section bases p) as [fde|e]; [|done]. cbn [mbind result_bind]. rewrite IH.
    destruct (fdes_of es) as [fdes|e]; [|done]. cbn [mbind result_bind mret result_ret foldl is_nil negb orb].
    rewrite orb_true_r. fold (fde_end fde). do 4 f_equal.
    + destruct (initial_address fde <? lo) eqn:E; bool_to_prop; lia.
    + destruct (hi <? fde_end fde) eqn:E; bool_to_prop; lia.
  - done.
Qed.

Lemma foldl_min_le {A} (f : A -> Z) l z :
  foldl (fun z x => Z.min z (f x)) z l <= z /\ Forall (fun x => foldl (fun z x => Z.min z (f x)) z l <= f x) l.
Proof.
  revert z. induction l as [|x l IH]; intros z; cbn [foldl]; [split; [lia|constructor]|].
  destruct (IH (Z.min z (f x))) as [Hz Hl]. split; [lia|]. constructor; [lia|done].
Qed.

Lemma foldl_max_ge {A} (f : A -> Z) l z :
  z <= foldl (fun z x => Z.max z (f x)) z l /\ Forall (fun x => f x <= foldl (fun z x => Z.max z (f x)) z l) l.
Proof.
  revert z. induction l as [|x l IH]; intros z; cbn [foldl]; [split; [lia|constructor]|].
  destruct (IH (Z.max z (f x))) as [Hz Hl]. split; [lia|]. constructor; [lia|done].
Qed.
End range_spec.

(** ** The outcome of a registration *)

Section outcome.
  Context {R Regs C : Type} `{Gimli C} (memory : Z -> Z).
  Implicit Types (w : JitWorld (R := R) (Regs := Regs) (C := C)) (sp : Spec (D := ModuleUnwindDataInternal Bytes)).

(** What the caller and the loader guarantee: an address for the next snapshot, a
    region that no loaded image starts at, and generations left. *)
Definition can_add (boxed : ptr) (key : Z) sp w : Prop :=
  heap (st (world w)) !! boxed = None /\ generations (st (world w)) + 3 <= u64_MAX /\
  sp_known sp !! key = None /\ key ∉ (sp_pending sp).*1.*1.

Definition failed w : JitWorld := MkJitWorld (JIT_REGISTER_FAILURES w +64 1) (world w).

Lemma note_fail_run rc w : rc < 0 -> note_fail rc w = (Ok rc, failed w).
Proof. intros Hrc. unfold note_fail. rewrite (proj2 (Z.ltb_lt rc 0) Hrc). by st_bind. Qed.

Lemma jit_module_start p len lo hi : mod_start (jit_module (C := C) memory p len lo hi) = lo.
Proof. unfold jit_module, Module_new. by destruct (ModuleUnwindDataInternal_new deref _) as [d s]. Qed.

(** A registration in the three ways it can be refused and the one it succeeds in. *)
Lemma register_run boxed p len lo hi w sp :
  represents (world w) sp -> can_add boxed lo sp w -> u64 lo -> u64 hi ->
  let bytes := slice_at memory p len in
  let m := jit_module memory p len lo hi in
  register_jit_eh_frame memory boxed p len lo hi w =
    (if bool_decide (p = 0 \/ len = 0 \/ hi <= lo) then (Ok (-1), failed w)
    else if bool_decide (2 ^ 32 <= hi - lo) then (Ok (-2), failed w)
    else if bool_decide (fde_pc_range bytes p = None) then (Ok (-3), failed w)
    else (Ok 0, MkJitWorld (JIT_REGISTER_FAILURES w) (add_jit_module boxed lo p m (world w)).2)) /\
  exists v, add_jit_module boxed lo p m (world w) = (Ok tt, v) /\
    represents v (spec_op (OpAddJit boxed lo p m) sp).
Proof.
  intros Hr (Hbox & Hg & Hk & Hp) Hlo Hhi. cbn zeta. set (m := jit_module memory p len lo hi).
  destruct (add_jit_step (world w) sp boxed lo p m Hr) as (w' & Hrun & Hr').
  { split_and!; [done|lia|apply jit_module_start|done|done]. }
  split; [|by exists w']. rewrite Hrun. cbn [snd]. unfold register_jit_eh_frame.
  destruct ((p =? 0) || (len =? 0) || (hi <=? lo)) eqn:E1.
  { rewrite bool_decide_true; [by apply note_fail_run|]. rewrite !orb_true_iff, !Z.eqb_eq, Z.leb_le in E1. tauto. }
  rewrite bool_decide_false by (rewrite !orb_false_iff, !Z.eqb_neq, Z.leb_gt in E1; lia).
  assert (hi -64 lo = hi - lo) as -> by (bool_to_prop; unfold_words; apply Z.mod_small; unfold in_u in *; lia).
  destruct (u32_MAX <? hi - lo) eqn:E2; bool_to_prop; unfold u32_MAX in *.
  { rewrite bool_decide_true by lia. by apply note_fail_run. }
  rewrite bool_decide_false by lia. cbn [deref].
  destruct (fde_pc_range _ _) as [r|]; [|rewrite bool_decide_true by done; by apply note_fail_run].
  rewrite bool_decide_false by done. rewrite st_bind_spec. unfold on_world. fold m. rewrite Hrun. by st_bind.
Qed.

Lemma named_alone (j : gmap Z (Module_ (ModuleUnwindDataInternal Bytes) * option Z)) key eh m :
  filter (fun kme => kme.2.2 <> Some eh) (<[key := (m, Some eh)]> (unname eh <$> j)) =
    delete key (unname eh <$> j).
Proof.
  apply map_eq. intros k. apply option_eq. intros [m' e]. rewrite map_lookup_filter_Some, lookup_insert, lookup_delete.
  case_decide as Hk; [naive_solver|]. rewrite lookup_fmap. split; [by intros []|]. intros E. split; [done|].
  destruct (j !! k) as [[m0 e0]|]; [|done]. unfold unname in E. cbn in *. case_bool_decide; naive_solver.
Qed.

Lemma published_without w sp key eh m :
  represents (world w) sp -> sp_known sp !! key = None ->
  forall v : World (R := R) (Regs := Regs) (C := C), represents v (MkSpec (sp_known sp) (sp_counts sp) (sp_static sp)
    (delete key (<[key := (m, Some eh)]> (unname eh <$> sp_jit sp))) (sp_batching sp) (sp_pending sp)) ->
  published (st v) = delete key (published (st (world w))).
Proof.
  intros Hr Hk v Hv. rewrite (rp_published _ _ Hv), (rp_published _ _ Hr). cbn [sp_static sp_jit].
  rewrite delete_insert_eq, delete_union, !fmap_delete, (delete_id (sp_static sp)) by (by eapply unknown_not_static).
  f_equal. f_equal. rewrite <- map_fmap_compose. by apply map_fmap_ext.
Qed.

(** C24: registering and then deregistering JIT code leaves nothing behind. After a
    successful registration either way of deregistering, by the start of the code or
    by the address of the buffer, publishes the modules there were before without
    one that started at the same address, and the address of the buffer no longer
    names a module. *)
Theorem register_then_deregister boxed boxed2 p len lo hi w sp w1 (by_buffer : bool)
    (Hr : represents (world w) sp) (Hadd : can_add boxed lo sp w) (Hlo : u64 lo) (Hhi : u64 hi)
    (Hreg : register_jit_eh_frame memory boxed p len lo hi w = (Ok 0, w1))
    (Hroom : heap (st (world w1)) !! boxed2 = None /\ generations (st (world w1)) + 2 <= u64_MAX) :
  exists w2, (if by_buffer then deregister_jit_eh_frame boxed2 p else deregister_jit boxed2 lo) w1 = (Ok tt, w2) /\
    published (st (world w2)) = delete lo (published (st (world w))) /\
    jit_by_eh_frame (reg (world w2)) !! p = None /\ lo ∉ jit_keys (reg (world w2)).
Proof.
  destruct (register_run boxed p len lo hi w sp Hr Hadd Hlo Hhi) as [Hrun (w1' & Hrun1 & Hr1)].
  rewrite Hrun in Hreg. repeat case_bool_decide; try done. rewrite Hrun1 in Hreg. injection Hreg as <-.
  cbn [world] in Hroom. destruct Hroom as [Hb2 Hg2]. destruct Hadd as (_ & _ & Hk & _).
  set (m := jit_module memory p len lo hi) in *.
  assert (exists v2, (if by_buffer then remove_jit_module_by_eh_frame boxed2 p else remove_jit_module boxed2 lo) w1' = (Ok tt, v2) /\
    represents v2 (MkSpec (sp_known sp) (sp_counts sp) (sp_static sp)
      (delete lo (<[lo := (m, Some p)]> (unname p <$> sp_jit sp))) (sp_batching sp) (sp_pending sp))) as (v2 & Hrun2 & Hr2).
  { destruct by_buffer.
    - destruct (remove_jit_by_eh_frame_step w1' _ boxed2 p Hr1) as (w2 & E & Hr2); [split; [done|lia]|].
      exists w2. split; [done|]. cbn [spec_op sp_known sp_counts sp_static sp_jit sp_batching sp_pending] in Hr2.
      rewrite named_alone in Hr2. by rewrite delete_insert_eq.
    - destruct (remove_jit_locked_step w1' _ boxed2 lo Hr1) as (w2 & E & Hr2); [split; [done|lia]|]. by exists w2. }
  exists (MkJitWorld (JIT_REGISTER_FAILURES w) v2). split; [|split_and!]; cbn [world].
  - destruct by_buffer; unfold deregister_jit_eh_frame, deregister_jit, on_world; cbn [world]; by rewrite Hrun2.
  - by eapply published_without.
  - destruct (rp_maps _ _ Hr2) as [_ He]. apply eq_None_not_Some. intros [k Hk2].
    apply He in Hk2 as [m' Hm']. cbn [sp_jit] in Hm'. rewrite lookup_delete, lookup_insert, lookup_fmap in Hm'.
    case_decide; [done|].
    destruct (sp_jit sp !! k) as [[m0 e0]|]; [|done]. unfold unname in Hm'. cbn in Hm'. case_bool_decide; naive_solver.
  - rewrite (rp_jit_keys _ _ Hr2). cbn [sp_jit]. set_solver.
Qed.
End outcome.

(** ** What the derived range gives the unwinder *)

(** [b2] defines every base that [b1] defines, and as the same address. *)
Definition base_le (x y : option Z) : Prop := match x with Some _ => y = x | None => True end.
Definition bases_le (b1 b2 : BaseAddresses) : Prop :=
  base_le (base_eh_frame b1) (base_eh_frame b2) /\ base_le (base_eh_frame_hdr b1) (base_eh_frame_hdr b2) /\
  base_le (base_text b1) (base_text b2) /\ base_le (base_got b1) (base_got b2).

(** What an FDE covers and where it is. *)
Definition fde_extent {C} `{Gimli C} (fde : Fde) : Z * Z * Z := (initial_address fde, fde_len fde, fde_offset fde).

(** What is relied on of gimli's parser: more bases only turn errors into values; an
    FDE lies in its section and its addresses are machine words; a CIE is the same
    however it is reached. *)
Record gimli_parses {C} `{Gimli C} : Prop := {
  gp_bases : forall section b1 b2 fdes, bases_le b1 b2 -> section_fdes section b1 = Ok fdes ->
    exists fdes', section_fdes section b2 = Ok fdes' /\ fde_extent <$> fdes' = fde_extent <$> fdes;
  gp_offset : forall section b fdes f, section_fdes section b = Ok fdes -> f ∈ fdes ->
    0 <= fde_offset f < Z.of_nat (length (us_data section));
  gp_words : forall section b fdes f, Forall u8 (us_data section) -> section_fdes section b = Ok fdes -> f ∈ fdes ->
    u64 (initial_address f) /\ u64 (fde_len f);
  gp_cies : forall section b, cies_agree section b;
}.

Section usable.
  Context {R Regs C : Type} `{Gimli C}.

Lemma range_covers bytes p lo hi :
  fde_pc_range bytes p = Some (lo, hi) ->
  exists fdes, section_fdes (MkUnwindSection EhFrame bytes 8) (MkBases (Some p) None None None) = Ok fdes /\
    lo < hi /\ forall f, f ∈ fdes -> lo <= initial_address f /\ fde_end f <= hi.
Proof.
  unfold fde_pc_range, section_fdes. rewrite fde_range_loop_spec. destruct (fdes_of _ _ _) as [fdes|]; [|done].
  cbn [mbind option_bind orb]. pose proof (foldl_min_le initial_address fdes u64_MAX) as [_ Hlo].
  pose proof (foldl_max_ge fde_end fdes 0) as [_ Hhi]. rewrite Forall_forall in Hlo, Hhi.
  destruct (_ && _) eqn:E; [|done]. intros [= <- <-]. apply andb_true_iff in E as [_ E]. apply Z.ltb_lt in E.
  exists fdes. split_and!; [done|done|]. intros f Hf. split; [by apply Hlo|by apply Hhi].
Qed.

Lemma scan_of_fdes section bases base es fdes :
  fdes_of section bases es = Ok fdes ->
  Forall (fun f => base <= initial_address f /\ u64 (initial_address f) /\ u32 (initial_address f - base) /\ u32 (fde_offset f)) fdes ->
  0 <= base ->
  scan_fdes section bases base es = Ok ((fun f => (initial_address f - base, fde_offset f)) <$> fdes).
Proof.
  intros Hf Hall Hb. revert fdes Hf Hall. induction es as [|[[cie|q]|e] es IH]; intros fdes Hf Hall; cbn [fdes_of scan_fdes] in *.
  - unfold mret, result_ret in Hf. by simplify_eq.
  - by apply IH.
  - apply result_bind_Ok in Hf as (fde & Hfde & Hf). apply result_bind_Ok in Hf as (rest & Hrest & Hf).
    unfold mret, result_ret in Hf. simplify_eq. apply Forall_cons in Hall as [(Hle & Hu & Hrel & Hoff) Hall].
    unfold parse_fde in Hfde. rewrite Hfde. cbn [map_err mbind result_bind]. unfold index_fde.
    assert (checked_sub 64 (initial_address fde) base = Some (initial_address fde - base)) as ->.
    { apply checked_sub_Some. split; [done|]. unfold in_u in *. lia. }
    cbn [ok_or mbind result_bind].
    assert (try_u 32 (initial_address fde - base) = Some (initial_address fde - base)) as -> by by apply try_u_Some.
    cbn [ok_or mbind result_bind].
    assert (try_u 32 (fde_offset fde) = Some (fde_offset fde)) as -> by by apply try_u_Some.
    cbn [ok_or mbind result_bind mret result_ret]. by rewrite (IH rest Hrest Hall).
  - done.
Qed.

Lemma foldl_min_words {A} (f : A -> Z) l z : u64 z -> (forall x, x ∈ l -> u64 (f x)) -> u64 (foldl (fun z x => Z.min z (f x)) z l).
Proof.
  revert z. induction l as [|x l IH]; intros z Hz Hf; [done|]. apply IH; [|set_solver].
  specialize (Hf x ltac:(set_solver)). unfold in_u in *. lia.
Qed.

Lemma foldl_max_words {A} (f : A -> Z) l z : u64 z -> (forall x, x ∈ l -> u64 (f x)) -> u64 (foldl (fun z x => Z.max z (f x)) z l).
Proof.
  revert z. induction l as [|x l IH]; intros z Hz Hf; [done|]. apply IH; [|set_solver].
  specialize (Hf x ltac:(set_solver)). unfold in_u in *. lia.
Qed.

Lemma range_words bytes p lo hi :
  gimli_parses -> Forall u8 bytes -> fde_pc_range bytes p = Some (lo, hi) -> u64 lo /\ u64 hi.
Proof.
  intros Hg Hb. unfold fde_pc_range. rewrite fde_range_loop_spec. fold (section_fdes (MkUnwindSection EhFrame bytes 8)
    (MkBases (Some p) None None None)). destruct (section_fdes _ _) as [fdes|] eqn:Ef; [|done].
  cbn [mbind option_bind orb]. destruct (_ && _); [|done]. intros [= <- <-]. split.
  - apply foldl_min_words; [by unfold in_u, u64_MAX|]. intros f Hf.
    by apply (gp_words Hg (MkUnwindSection EhFrame bytes 8) _ _ f Hb Ef).
  - apply foldl_max_words; [by unfold in_u|]. intros f _. apply as_u_range. lia.
Qed.

(** The bases that the module's index is built with. *)
Definition jit_bases (p : Z) : BaseAddresses := MkBases (Some p) (Some 0) (Some 0) (Some 0).

(** A module registered with the range of its FDEs has an index over all of them. *)
Lemma auto_module_indexed memory p len lo hi :
  gimli_parses -> (forall a, u8 (memory a)) -> 0 <= p -> 0 <= len <= 2 ^ 32 -> hi - lo < 2 ^ 32 ->
  0 <= lo -> fde_pc_range (slice_at memory p len) p = Some (lo, hi) ->
  let bytes := slice_at memory p len in
  exists fdes,
    section_fdes (MkUnwindSection EhFrame bytes 8) (jit_bases p) = Ok fdes /\
    ((forall f, f ∈ fdes -> initial_address f + fde_len f < 2 ^ 64) ->
     (forall f, f ∈ fdes -> lo <= initial_address f /\ initial_address f + fde_len f <= hi) /\
     exists index, unwind_data (jit_module memory p len lo hi) = DwarfCfiIndexAndEhFrame index (Owned bytes) (jit_bases p) /\
       try_new (MkUnwindSection EhFrame bytes 8) (jit_bases p) lo = Ok index /\
       scan_fdes (MkUnwindSection EhFrame bytes 8) (jit_bases p) lo (section_entries (MkUnwindSection EhFrame bytes 8) (jit_bases p)) =
         Ok ((fun f => (initial_address f - lo, fde_offset f)) <$> fdes)).
Proof.
  intros Hg Hmem Hp Hlen Hspan Hlo0 Hrange bytes. apply range_covers in Hrange as (fdes0 & H0 & Hlt & Hcov).
  assert (bases_le (MkBases (Some p) None None None) (jit_bases p)) as Hle by by split_and!.
  destruct (gp_bases Hg _ _ _ _ Hle H0) as (fdes & Hf & Hext).
  exists fdes. split; [exact Hf|]. intros Hnowrap.
  assert (Hin : forall f, f ∈ fdes -> lo <= initial_address f /\ initial_address f + fde_len f <= hi).
  { intros f Hin. assert (fde_extent f ∈ fde_extent <$> fdes0) as (f0 & Heq & Hin0)%list_elem_of_fmap.
    { rewrite <- Hext. by apply list_elem_of_fmap_2. }
    unfold fde_extent in Heq. simplify_eq. destruct (Hcov f0 Hin0) as [Hlo Hhi]. specialize (Hnowrap f Hin).
    destruct (gp_words Hg (MkUnwindSection EhFrame _ 8) _ _ f (slice_at_u8 memory p len Hmem) Hf Hin) as [[? ?] [? ?]]. unfold fde_end in Hhi.
    assert (initial_address f0 +64 fde_len f0 = initial_address f + fde_len f) as Heq.
    { unfold_words. rewrite Z.mod_small; lia. }
    lia. }
  split; [exact Hin|].
  assert (Hscan : scan_fdes (MkUnwindSection EhFrame bytes 8) (jit_bases p) lo
      (section_entries (MkUnwindSection EhFrame bytes 8) (jit_bases p)) =
      Ok ((fun f => (initial_address f - lo, fde_offset f)) <$> fdes)).
  { apply scan_of_fdes; [exact Hf| |done]. apply Forall_forall. intros f Hin'. destruct (Hin f Hin') as [? ?].
    destruct (gp_words Hg (MkUnwindSection EhFrame _ 8) _ _ f (slice_at_u8 memory p len Hmem) Hf Hin') as [[? ?] [? ?]]. pose proof (gp_offset Hg _ _ _ _ Hf Hin') as Hoff. cbn [us_data] in Hoff.
    rewrite length_slice_at in Hoff. unfold in_u. split_and!; lia. }
  pose proof (index_lookup _ _ lo (gp_cies Hg (MkUnwindSection EhFrame bytes 8) (jit_bases p))) as Hi.
  rewrite Hscan in Hi. destruct Hi as (_ & index & Hnew & _). exists index. split_and!; [|done|done].
  unfold jit_module. rewrite (proj1 (Module_new_data _ _ _ _ _)), explicit_data_cases.
  unfold explicit_indexed. cbn [unwind_info eh_frame eh_frame_hdr deref ex_base_svma].
  change (explicit_base_addresses _) with (jit_bases p). fold bytes. by rewrite Hnew.
Qed.

(** An FDE that an index with the base address can name: its start, relative to the
    base, and its offset have 32 bits. *)
Definition indexable (base : Z) (fde : Fde) : Prop :=
  base <= initial_address fde < base + 2 ^ 32 /\ fde_offset fde < 2 ^ 32.

#[local] Instance indexable_dec base fde : Decision (indexable base fde).
Proof. unfold indexable. apply _. Defined.

(** One FDE that is not makes the scan of the whole section fail. *)
Lemma scan_of_bad_fdes section bases base es fdes :
  fdes_of section bases es = Ok fdes -> (forall f, f ∈ fdes -> u64 (initial_address f) /\ 0 <= fde_offset f) ->
  u64 base -> ~ Forall (indexable base) fdes -> exists e, scan_fdes section bases base es = Err e.
Proof.
  revert fdes. induction es as [|[[cie|q]|e] es IH]; intros fdes Hf Hw Hb Hbad; cbn [fdes_of scan_fdes] in *.
  - unfold mret, result_ret in Hf. simplify_eq. by destruct Hbad.
  - by eapply IH.
  - apply result_bind_Ok in Hf as (fde & Hfde & Hf). apply result_bind_Ok in Hf as (rest & Hrest & Hf).
    unfold mret, result_ret in Hf. simplify_eq. unfold parse_fde in Hfde. rewrite Hfde. cbn [map_err mbind result_bind].
    destruct (index_fde base fde) as [[pc off]|e] eqn:Ei; [|by eexists]. cbn [mbind result_bind].
    destruct (IH rest Hrest) as [e ->]; [intros f Hin; apply Hw; by right|done| |by eexists].
    intros Hrest'. destruct Hbad. constructor; [|done]. destruct (Hw fde) as [Hu Ho]; [by left|].
    unfold index_fde in Ei. apply result_bind_Ok in Ei as (x & Hx & Ei). apply result_bind_Ok in Ei as (y & Hy & Ei).
    apply result_bind_Ok in Ei as (z & Hz & _). unfold ok_or in *.
    destruct (checked_sub 64 _ _) as [x'|] eqn:Ex; [|done]. destruct (try_u 32 x) as [y'|] eqn:Ey; [|done].
    destruct (try_u 32 (fde_offset fde)) as [z'|] eqn:Ez; [|done]. simplify_eq.
    apply checked_sub_Some in Ex as [-> _]. apply try_u_Some in Ey as [_ Hpc]. apply try_u_Some in Ez as [_ Hoff].
    unfold indexable, in_u in *. lia.
  - done.
Qed.

(** What is kept of a buffer: an index over all its FDEs, or nothing if one of them
    cannot be indexed from the start of the region. *)
Lemma jit_module_data memory p len lo hi fdes :
  gimli_parses -> (forall a, u8 (memory a)) -> u64 lo ->
  let bytes := slice_at memory p len in
  let section := MkUnwindSection EhFrame bytes 8 in
  section_fdes section (jit_bases p) = Ok fdes ->
  let data := unwind_data (jit_module memory p len lo hi) in
  if decide (Forall (indexable lo) fdes) then
    exists index, data = DwarfCfiIndexAndEhFrame index (Owned bytes) (jit_bases p) /\
      forall a,
        (fde_offset_for_relative_address index (a - lo) = None /\ forall f, f ∈ fdes -> a < initial_address f) \/
        exists f, f ∈ fdes /\ fde_offset_for_relative_address index (a - lo) = Some (Some (fde_offset f)) /\
          initial_address f <= a /\ forall g, g ∈ fdes -> initial_address g <= a -> initial_address g <= initial_address f
  else data = NoUnwindData.
Proof.
  intros Hg Hmem Hlo bytes section Hf. cbn zeta.
  assert (Hw : forall f, f ∈ fdes -> u64 (initial_address f) /\ 0 <= fde_offset f).
  { intros f Hin. split; [|by apply (gp_offset Hg _ _ _ _ Hf Hin)].
    by apply (gp_words Hg section _ _ f (slice_at_u8 memory p len Hmem) Hf Hin). }
  assert (Hdata : unwind_data (jit_module memory p len lo hi) =
    match try_new section (jit_bases p) lo with
    | Ok index => DwarfCfiIndexAndEhFrame index (Owned bytes) (jit_bases p)
    | Err _ => NoUnwindData
    end).
  { unfold jit_module. rewrite (proj1 (Module_new_data _ _ _ _ _)), explicit_data_cases. done. }
  rewrite Hdata. pose proof (index_lookup _ _ lo (gp_cies Hg section (jit_bases p))) as Hi.
  destruct (decide (Forall (indexable lo) fdes)) as [Hall|Hbad].
  - rewrite Forall_forall in Hall. rewrite (scan_of_fdes _ _ _ _ fdes) in Hi; [|exact Hf| |apply Hlo].
    + destruct Hi as (_ & index & -> & Hlook). exists index. split; [done|]. intros a.
      destruct (Hlook (a - lo)) as [[-> Hnone]|(pc & off & Hoff & Hpc & Hle & Hmax)]; [left|right].
      * split; [done|]. intros f Hin. rewrite Forall_fmap, Forall_forall in Hnone. specialize (Hnone f Hin). cbn in Hnone. lia.
      * apply list_elem_of_fmap in Hpc as (f & Heq & Hin). simplify_eq. exists f. split_and!; [done|done|lia|].
        intros g Hin' Hle'. rewrite Forall_fmap, Forall_forall in Hmax. specialize (Hmax g Hin'). cbn in Hmax. lia.
    + apply Forall_forall. intros f Hin. destruct (Hall f Hin), (Hw f Hin). unfold in_u in *. split_and!; lia.
  - by destruct (scan_of_bad_fdes section (jit_bases p) lo (section_entries section (jit_bases p)) fdes Hf Hw Hlo Hbad)
      as [e He]; rewrite He in Hi; rewrite Hi.
Qed.

(** C23: a registration fails with an exact code or publishes one module. The code is
    -1 for a null or empty buffer or an empty range, otherwise -2 for a range of 4 GiB
    or more, otherwise -3 when the section does not parse to the end or covers no
    code, and otherwise 0. A failure only counts. A success publishes at [lo], under
    the buffer's address, a module for exactly [lo, hi); the others are as before but
    that none is under that address any more. If every FDE starts in the 4 GiB from [lo]
    on, the module holds the copied bytes and an index that finds for every address
    the FDE that starts last at or below it. If some FDE starts below [lo] or too far
    above it, or at an offset of 4 GiB or more in the buffer, the module has no unwind
    data, though 0 is returned. *)
Theorem register_outcome memory boxed p len lo hi (w : JitWorld (R := R) (Regs := Regs) (C := C)) sp
    (Hg : gimli_parses) (Hmem : forall a, u8 (memory a))
    (Hr : represents (world w) sp) (Hadd : can_add boxed lo sp w) (Hlo : u64 lo) (Hhi : u64 hi) :
  let bytes := slice_at memory p len in
  exists rc w', register_jit_eh_frame memory boxed p len lo hi w = (Ok rc, w') /\
    (rc = -1 <-> p = 0 \/ len = 0 \/ hi <= lo) /\
    (rc = -2 <-> p <> 0 /\ len <> 0 /\ 2 ^ 32 <= hi - lo) /\
    (rc = -3 <-> p <> 0 /\ len <> 0 /\ 0 < hi - lo < 2 ^ 32 /\ fde_pc_range bytes p = None) /\
    ((rc < 0 /\ w' = failed w) \/
     (rc = 0 /\ JIT_REGISTER_FAILURES w' = JIT_REGISTER_FAILURES w /\
      exists m fdes,
        represents (world w') (spec_op (OpAddJit boxed lo p m) sp) /\
        published (st (world w')) !! lo = Some m /\
        avma_range m = Range lo hi /\ base_avma m = lo /\ base_svma m = lo /\
        section_fdes (MkUnwindSection EhFrame bytes 8) (jit_bases p) = Ok fdes /\
        if decide (Forall (indexable lo) fdes) then
          exists index, unwind_data m = DwarfCfiIndexAndEhFrame index (Owned bytes) (jit_bases p) /\
            forall a,
              (fde_offset_for_relative_address index (a - lo) = None /\
                 forall f, f ∈ fdes -> a < initial_address f) \/
              exists f, f ∈ fdes /\ fde_offset_for_relative_address index (a - lo) = Some (Some (fde_offset f)) /\
                initial_address f <= a /\
                forall g, g ∈ fdes -> initial_address g <= a -> initial_address g <= initial_address f
        else unwind_data m = NoUnwindData)).
Proof.
  cbn zeta. destruct (register_run memory boxed p len lo hi w sp Hr Hadd Hlo Hhi) as [-> (w1 & -> & Hr1)].
  repeat case_bool_decide; eexists _, _; (split; [reflexivity|]);
    (do 3 (split; [clear Hg Hmem Hr Hadd Hr1; naive_solver lia|])); try (left; split; [lia|done]).
  right. split_and!; [done|done|]. set (m := jit_module memory p len lo hi) in *. exists m.
  destruct (fde_pc_range (slice_at memory p len) p) as [[l h]|] eqn:Hrange; [|done].
  apply range_covers in Hrange as (fdes0 & Hf0 & _).
  assert (bases_le (MkBases (Some p) None None None) (jit_bases p)) as Hle by by split_and!.
  destruct (gp_bases Hg _ _ _ _ Hle Hf0) as (fdes & Hf & _).
  exists fdes. cbn [world snd]. split_and!; [done| | | | |done|by apply jit_module_data].
  - rewrite (published_lookup _ _ _ Hr1). cbn [spec_op sp_static sp_jit]. rewrite lookup_insert_eq.
    destruct Hadd as (_ & _ & Hk & _). by rewrite (unknown_not_static _ _ _ Hr Hk).
  - apply Module_new_data.
  - apply Module_new_data.
  - unfold m, jit_module. destruct (Module_new_data (C := C) deref "" (Range lo hi) lo
      (MkExplicit lo None None None None None None (Some (Range p (p +64 len))) (Some (Owned (slice_at memory p len)))
        None None None None None)) as (_ & _ & _ & ->). apply explicit_base_kept.
Qed.

(** C25: code registered with the range of its FDEs can be unwound. When the section
    parses and its functions span less than 4 GiB, the registration succeeds and
    publishes a module whose index answers for every address of every function in the
    section: the module covers the address, and the index finds, without a panic, the
    function that starts last at or below it. *)
Theorem auto_registration_usable memory boxed p len lo hi (w : JitWorld (R := R) (Regs := Regs) (C := C)) sp
    (Hg : gimli_parses) (Hmem : forall a, u8 (memory a)) (Hp : 0 < p) (Hlen : 0 < len <= 2 ^ 32)
    (Hrange : fde_pc_range (slice_at memory p len) p = Some (lo, hi)) (Hspan : hi - lo < 2 ^ 32)
    (Hnowrap : forall fdes f, section_fdes (MkUnwindSection EhFrame (slice_at memory p len) 8) (jit_bases p) = Ok fdes ->
      f ∈ fdes -> initial_address f + fde_len f < 2 ^ 64)
    (Hr : represents (world w) sp) (Hadd : can_add boxed lo sp w) :
  exists w' m fdes index bases,
    register_jit_eh_frame_auto memory boxed p len w = (Ok 0, w') /\
    published (st (world w')) !! lo = Some m /\ avma_range m = Range lo hi /\ base_avma m = lo /\
    unwind_data m = DwarfCfiIndexAndEhFrame index (Owned (slice_at memory p len)) bases /\
    section_fdes (MkUnwindSection EhFrame (slice_at memory p len) 8) bases = Ok fdes /\
    forall f a, f ∈ fdes -> initial_address f <= a < initial_address f + fde_len f ->
      lo <= a < hi /\
      exists g, g ∈ fdes /\ fde_offset_for_relative_address index (a - lo) = Some (Some (fde_offset g)) /\
        initial_address g <= a /\ forall h, h ∈ fdes -> initial_address h <= a -> initial_address h <= initial_address g.
Proof.
  destruct (range_words _ _ _ _ Hg (slice_at_u8 memory p len Hmem) Hrange) as [Hlo Hhi].
  destruct (auto_module_indexed memory p len lo hi Hg Hmem) as (fdes & Hfdes & Hmod); [lia|lia|done|apply Hlo|done|].
  destruct Hmod as (Hin & index & Hdata & Hnew & Hscan); [by intros f; apply Hnowrap|].
  destruct (register_run memory boxed p len lo hi w sp Hr Hadd Hlo Hhi) as [Hrun (v & Hv & Hrv)].
  apply range_covers in Hrange as Hcov. destruct Hcov as (_ & _ & Hlt & _).
  rewrite !bool_decide_false in Hrun by (rewrite ?Hrange; done || lia). rewrite Hv in Hrun.
  eexists _, (jit_module memory p len lo hi), fdes, index, (jit_bases p). split_and!; [|..|done|].
  - unfold register_jit_eh_frame_auto. rewrite (proj2 (Z.eqb_neq p 0)), (proj2 (Z.eqb_neq len 0)) by lia.
    cbn [orb]. rewrite Hrange. exact Hrun.
  - cbn [world snd]. rewrite (published_lookup _ _ _ Hrv). cbn [spec_op sp_static sp_jit].
    rewrite lookup_insert_eq. destruct Hadd as (_ & _ & Hk & _). by rewrite (unknown_not_static _ _ _ Hr Hk).
  - unfold jit_module. apply Module_new_data.
  - unfold jit_module. apply Module_new_data.
  - exact Hdata.
  - intros f a Hf Ha. destruct (Hin f Hf) as [? ?]. split; [lia|].
    pose proof (index_lookup _ _ lo (gp_cies Hg (MkUnwindSection EhFrame (slice_at memory p len) 8) (jit_bases p))) as Hi.
    rewrite Hscan in Hi. destruct Hi as (_ & index' & Hnew' & Hlook). rewrite Hnew in Hnew'. injection Hnew' as <-.
    destruct (Hlook (a - lo)) as [[_ Hnone]|(pc & off & Hoff & Hpc & Hle & Hmax)].
    + rewrite Forall_fmap, Forall_forall in Hnone. specialize (Hnone f Hf). cbn in Hnone. lia.
    + apply list_elem_of_fmap in Hpc as (g & Heq & Hgin). simplify_eq. exists g. split_and!; [done|done|lia|].
      intros h Hh Hha. rewrite Forall_fmap, Forall_forall in Hmax. specialize (Hmax h Hh). cbn in Hmax. lia.
Qed.
End usable.

(** ** Concrete registrations: functions of 16 bytes at 4096, 4112 and 4144 *)

Section example.
#[local] Instance example_gimli : Gimli unit :=
    Dwarf.example_gimli X86Dwarf.example_row_cfa X86Dwarf.example_row_rules.

(** A buffer of three FDEs at 9000. *)
Definition example_memory (a : Z) : Z := if a =? 9000 then 3 else if a =? 9002 then 1 else 0.

Definition example_world : JitWorld (R := UnwindRuleX86_64) (Regs := UnwindRegsX86_64) (C := unit) :=
  MkJitWorld 0 (MkWorld Registry_new state_new).

(** The FDEs of a section: its bytes with their positions. *)
Lemma example_fdes section b :
  section_fdes section b = Ok (imap (fun i x => (Z.of_nat i, 4096 + 16 * x)) (us_data section)).
Proof.
  unfold section_fdes. change (section_entries section b) with (example_entries (us_data section)).
  unfold example_entries. cbn [fdes_of].
  assert (forall (f : nat -> Z -> Z * Z) l,
    fdes_of section b (imap (fun i x => Ok (CF_Fde (f i x))) l) = Ok (imap f l)) as Hf; [|apply Hf].
  intros f l. revert f. induction l as [|x l IH]; intros f; [done|]. cbn [imap fdes_of].
  specialize (IH (fun i => f (S i))). unfold compose. rewrite IH. done.
Qed.

Lemma example_parses : gimli_parses.
Proof.
  split.
  - intros section b1 b2 fdes _. rewrite !example_fdes. intros [= <-]. eexists. by split.
  - intros section b fdes f. rewrite example_fdes. intros [= <-] (i & x & -> & Hi)%elem_of_lookup_imap.
    apply lookup_lt_Some in Hi. cbn. lia.
  - intros section b fdes f Hb. rewrite example_fdes. intros [= <-] (i & x & -> & Hi)%elem_of_lookup_imap.
    rewrite Forall_lookup in Hb. specialize (Hb _ _ Hi). unfold in_u in *. cbn. lia.
  - intros section b. apply example_cies_agree.
Qed.

Lemma example_can_add lo : can_add 1%nat lo empty_spec example_world.
Proof. split_and!; [done|by vm_compute|apply lookup_empty|apply not_elem_of_nil]. Qed.

Lemma auto_registration_usable_witness :
  exists w' m, register_jit_eh_frame_auto example_memory 1%nat 9000 3 example_world = (Ok 0, w') /\
    published (st (world w')) !! 4096 = Some m /\ avma_range m = Range 4096 4160.
Proof.
  destruct (auto_registration_usable example_memory 1%nat 9000 3 4096 4160 example_world empty_spec)
    as (w' & m & fdes & index & bases & Hrun & Hpub & Hrange & _).
  - exact example_parses.
  - intros a. unfold example_memory, in_u. destruct (a =? 9000), (a =? 9002); lia.
  - lia.
  - lia.
  - reflexivity.
  - lia.
  - intros fdes f. rewrite example_fdes. change (us_data _) with [3; 0; 1]. cbn [imap]. intros [= <-] Hf.
    repeat (apply elem_of_cons in Hf as [->|Hf]; [cbn; lia|]). by apply not_elem_of_nil in Hf.
  - apply initial_represents.
  - apply example_can_add.
  - by exists w', m.
Defined.

(** A region that starts above one of the FDEs. *)
Lemma register_outcome_witness :
  exists w', register_jit_eh_frame example_memory 1%nat 9000 3 4100 4160 example_world = (Ok 0, w') /\
    exists m, published (st (world w')) !! 4100 = Some m /\ unwind_data m = NoUnwindData.
Proof.
  destruct (register_outcome example_memory 1%nat 9000 3 4100 4160 example_world empty_spec)
    as (rc & w' & Hrun & _ & _ & _ & Hend).
  - exact example_parses.
  - intros a. unfold example_memory, in_u. destruct (a =? 9000), (a =? 9002); lia.
  - apply initial_represents.
  - apply example_can_add.
  - unfold in_u. lia.
  - unfold in_u. lia.
  - assert (rc = 0) as ->.
    { apply (f_equal fst) in Hrun. change (Ok (E := crash) 0 = Ok rc) in Hrun. by injection Hrun. }
    destruct Hend as [[? _]|(_ & _ & m & fdes & _ & Hpub & _ & _ & _ & Hf & Hdata)]; [lia|].
    exists w'. split; [exact Hrun|]. exists m. split; [exact Hpub|].
    rewrite example_fdes in Hf. injection Hf as <-. exact Hdata.
Defined.

(** A region that starts above one of the FDEs is registered with no unwind data: the
    check parses the section but not against the region. *)
Lemma narrow_range_has_no_data :
  (register_jit_eh_frame example_memory 1%nat 9000 3 4100 4160 example_world).1 = Ok 0 /\
  unwind_data (jit_module (C := unit) example_memory 9000 3 4100 4160) = NoUnwindData.
Proof. split; reflexivity. Qed.

Lemma register_then_deregister_witness :
  exists w1 w2, register_jit_eh_frame example_memory 1%nat 9000 3 4096 4160 example_world = (Ok 0, w1) /\
    deregister_jit_eh_frame 2%nat 9000 w1 = (Ok tt, w2) /\
    published (st (world w2)) = delete 4096 (published (st (world example_world))).
Proof.
  set (run := register_jit_eh_frame example_memory 1%nat 9000 3 4096 4160 example_world).
  assert (run = (Ok 0, run.2)) as Hrun by reflexivity.
  destruct (register_then_deregister example_memory 1%nat 2%nat 9000 3 4096 4160 example_world empty_spec run.2 true)
    as (w2 & Hdereg & Hpub & _).
  - apply initial_represents.
  - apply example_can_add.
  - unfold in_u. lia.
  - unfold in_u. lia.
  - exact Hrun.
  - split; [reflexivity|by apply Z.leb_le].
  - exists run.2, w2. split_and!; [exact Hrun|exact Hdereg|exact Hpub].
Defined.
End example.
