(* ===== verification/Scan.v ===== *)
(** * Incremental scans

    What a platform's enumeration and [refresh] of [src/src/modules/mod.rs] achieve
    together: an enumeration only builds the modules of images that are new, and after
    the refresh the registry publishes the modules of all images there are. *)
From S2P Require Import Prelude UnwindRule ModuleList Hazard State Registry.

(** An image of a scan: its key, its fingerprint, and its module if it has one. *)
Section images.
  Context {D : Type}.
  Implicit Types (imgs : list (Z * Z * option (Module_ D))).


(** The modules of the images that [known] does not have with the same fingerprint. *)
Definition new_modules_of (known : gmap Z Z) (imgs : list (Z * Z * option (Module_ D))) :
    list (Z * Module_ D) :=
  omap (fun '(key, fp, m) => if bool_decide (known !! key = Some fp) then None else (fun m => (key, m)) <$> m) imgs.

(** The keys with their fingerprints, and the modules, of a list of images. *)
Definition keys_of imgs : gmap Z Z := foldl (fun cur '(k, fp, _) => <[k := fp]> cur) ∅ imgs.
Definition loaded imgs : gmap Z (Module_ D) := list_to_map (new_modules_of ∅ imgs).

(** The images do not overlap. *)
Definition distinct_images imgs : Prop := NoDup imgs.*1.*1.

Lemma new_modules_elem known imgs k m :
  (k, m) ∈ new_modules_of known imgs <-> exists fp, (k, fp, Some m) ∈ imgs /\ known !! k <> Some fp.
Proof.
  unfold new_modules_of. rewrite list_elem_of_omap. split.
  - intros ([[k' fp] m'] & Hin & Hm). case_bool_decide; [done|]. destruct m' as [m'|]; simplify_eq/=. eauto.
  - intros (fp & Hin & Hne). exists (k, fp, Some m). split; [done|]. by rewrite bool_decide_false.
Qed.

Lemma length_omap_le {A B} (f : A -> option B) l : (length (omap f l) <= length l)%nat.
Proof.
  induction l as [|x l IH]; [done|]. change (omap f (x :: l)) with (match f x with Some y => y :: omap f l | None => omap f l end).
  destruct (f x); cbn [length]; lia.
Qed.

Lemma new_modules_nodup known imgs : distinct_images imgs -> NoDup (new_modules_of known imgs).*1.
Proof.
  unfold distinct_images. intros Hnd. induction imgs as [|[[k fp] m] imgs IH]; [constructor|].
  cbn in Hnd. apply NoDup_cons in Hnd as [Hk Hnd]. unfold new_modules_of. simpl.
  destruct (bool_decide _); [by apply IH|]. destruct m as [m|]; [|by apply IH]. cbn. constructor; [|by apply IH].
  intros ([k' m'] & -> & Hin)%list_elem_of_fmap. apply new_modules_elem in Hin as (fp' & Hin & _).
  apply Hk. by do 2 apply (list_elem_of_fmap_2 fst) in Hin.
Qed.

Lemma keys_of_lookup imgs k fp : distinct_images imgs -> keys_of imgs !! k = Some fp <-> exists m, (k, fp, m) ∈ imgs.
Proof.
  unfold keys_of, distinct_images.
  assert (forall cur : gmap Z Z, NoDup imgs.*1.*1 -> foldl (fun cur '(k, fp, _) => <[k := fp]> cur) cur imgs !! k = Some fp <->
    (exists m, (k, fp, m) ∈ imgs) \/ (k ∉ imgs.*1.*1 /\ cur !! k = Some fp)) as Hfold.
  { induction imgs as [|[[k' fp'] m] imgs IH]; intros cur Hnd; cbn [foldl]; [set_solver|].
    cbn in Hnd. apply NoDup_cons in Hnd as [Hk Hnd]. rewrite IH by done. cbn. rewrite lookup_insert. case_decide as Heq.
    - subst k'. split.
      + intros [[m' Hin]|[_ [= <-]]]; [|left; exists m; by left]. destruct Hk. by do 2 apply (list_elem_of_fmap_2 fst) in Hin.
      + intros [[m' [[= -> ->]|Hin]%elem_of_cons]|[Hn _]]; [by right|left; by exists m'|destruct Hn; by left].
    - split.
      + intros [[m' Hin]|[Hn Hc]]; [left; exists m'; by right|right]. split; [|done]. set_solver.
      + intros [[m' [[= -> ->]|Hin]%elem_of_cons]|[Hn Hc]]; [done|left; by exists m'|right]. set_solver. }
  intros Hnd. rewrite Hfold by done. rewrite lookup_empty. naive_solver.
Qed.

Lemma loaded_lookup imgs k m : distinct_images imgs -> loaded imgs !! k = Some m <-> exists fp, (k, fp, Some m) ∈ imgs.
Proof.
  intros Hnd. unfold loaded. rewrite <- elem_of_list_to_map by by apply new_modules_nodup.
  rewrite new_modules_elem. setoid_rewrite lookup_empty. naive_solver.
Qed.

(** [known] knows every image of [imgs] that has a module, and no other image. *)
Definition tracks (known : gmap Z Z) imgs : Prop :=
  known ⊆ keys_of imgs /\ forall k fp m, (k, fp, Some m) ∈ imgs -> known !! k = Some fp.

(** An image with the key and the fingerprint of an earlier one is the same image. *)
Definition same_images imgs1 imgs2 : Prop :=
  forall k fp m1 m2, (k, fp, m1) ∈ imgs1 -> (k, fp, m2) ∈ imgs2 -> m1 = m2.

(** A module starts at its image's key. *)
Definition starts_at_keys imgs : Prop := forall k fp m, (k, fp, Some m) ∈ imgs -> mod_start m = k.

(** An incremental scan finds what a full scan finds. *)
Lemma scan_exact known imgs1 imgs2 :
  distinct_images imgs1 -> distinct_images imgs2 -> starts_at_keys imgs2 -> same_images imgs1 imgs2 -> tracks known imgs1 ->
  scanned known (keys_of imgs2) (new_modules_of known imgs2) (loaded imgs1) = loaded imgs2.
Proof.
  intros Hd1 Hd2 Hstart Hsame [Hsub Hall]. apply map_eq. intros k. apply option_eq. intros m.
  unfold scanned. rewrite insert_all_new; cycle 1.
  { by apply new_modules_nodup. }
  { apply Forall_forall. intros [k' m'] Hin. apply new_modules_elem in Hin as (fp & Hin & _). by eapply Hstart. }
  rewrite map_lookup_filter_Some, loaded_lookup, new_modules_elem, loaded_lookup by done. cbn. split.
  - intros [(fp & Hin & _)|(_ & (fp & Hin) & Heq)]; [by exists fp|]. exists fp.
    rewrite (Hall _ _ _ Hin) in Heq. symmetry in Heq. apply keys_of_lookup in Heq as [m' Hin']; [|done].
    by rewrite (Hsame _ _ _ _ Hin Hin').
  - intros (fp & Hin). destruct (decide (known !! k = Some fp)) as [Hk|Hk]; [right|left; by exists fp].
    assert (keys_of imgs2 !! k = Some fp) as Hk2 by (apply keys_of_lookup; eauto). split_and!.
    + intros ([k' m'] & -> & Hin')%list_elem_of_fmap. apply new_modules_elem in Hin' as (fp' & Hin' & Hne). cbn in *.
      assert (keys_of imgs2 !! k' = Some fp') by (apply keys_of_lookup; eauto). congruence.
    + apply (lookup_weaken _ _ _ _ Hk), keys_of_lookup in Hsub as [m1 Hin1]; [|done].
      exists fp. by rewrite <- (Hsame _ _ _ _ Hin1 Hin).
    + by rewrite Hk, Hk2.
Qed.

(** What is known after the scan tracks the images it found. *)
Lemma scan_tracks known imgs2 :
  distinct_images imgs2 ->
  tracks (if is_nil (new_modules_of known imgs2) && bool_decide (map_Forall (fun k fp => keys_of imgs2 !! k = Some fp) known)
          then known else keys_of imgs2) imgs2.
Proof.
  intros Hd. destruct (_ && _) eqn:E.
  - apply andb_true_iff in E as [Hn%is_nil_true Hf%bool_decide_eq_true]. split.
    + by apply map_subseteq_spec.
    + intros k fp m Hin. destruct (decide (known !! k = Some fp)) as [|Hne]; [done|].
      assert ((k, m) ∈ new_modules_of known imgs2) as Hnew by (apply new_modules_elem; eauto). rewrite Hn in Hnew. set_solver.
  - split; [done|]. intros k fp m Hin. apply keys_of_lookup; eauto.
Qed.

(** The loader's side: images do not overlap each other or JIT code, one that replaces
    another at its address has another fingerprint, and equal counts mean that no
    image was loaded or unloaded. *)
Record loader_ok (sp : Spec (D := D)) imgs (counts : option (Z * Z)) imgs2 : Prop := {
  lo_distinct : distinct_images imgs /\ distinct_images imgs2;
  lo_same : same_images imgs imgs2;
  lo_jit : forall k, is_Some (keys_of imgs2 !! k) -> sp_jit sp !! k = None;
  lo_counts : is_Some counts -> counts = sp_counts sp -> imgs2 = imgs;
}.

(** An enumeration that finds the images [imgs], and builds those it does not know. *)
Definition finds (enumerate : gmap Z Z -> option (EnumResult D)) imgs : Prop :=
  forall known, enumerate known = Some (MkEnumResult (keys_of imgs) (new_modules_of known imgs)).

(** The static modules of the specification are those of [imgs]. *)
Definition shows (sp : Spec (D := D)) imgs : Prop :=
  tracks (sp_known sp) imgs /\ sp_static sp = loaded imgs /\ sp_batching sp = false.
End images.

Section refresh.
  Context {D R Regs C : Type}.
  Context (hash_iter : gmap Z Z -> list (Z * Z)) (hash_iter_perm : forall m, hash_iter m ≡ₚ map_to_list m).
  Implicit Types (imgs : list (Z * Z * option (Module_ D))) (w : World (D := D) (R := R) (Regs := Regs) (C := C)).

(** A scan that fails changes nothing. *)
Lemma refresh_keeps boxed enumerate w : (forall known, enumerate known = None) -> refresh hash_iter boxed None enumerate w = (Ok tt, w).
Proof. intros He. unfold refresh, get_reg_. rewrite st_bind_spec. cbn. by rewrite He. Qed.

(** What a refresh needs, as [registry_refines] asks for it. *)
Lemma refresh_ok boxed counts enumerate imgs imgs2 w sp :
  shows sp imgs -> finds enumerate imgs2 -> loader_ok sp imgs counts imgs2 -> starts_at_keys imgs2 ->
  heap (st w) !! boxed = None ->
  generations (st w) + Z.of_nat (S (2 * base.size (sp_known sp) + length imgs2)) <= u64_MAX ->
  op_ok (OpRefresh boxed counts enumerate) sp w.
Proof.
  intros (Htr & Hst & Hbatch) Hfinds [[Hd1 Hd2] Hsame Hjit Hcounts] Hstart Hbox Hgen.
  assert (length (new_modules_of (sp_known sp) imgs2) <= length imgs2)%nat as Hlen by apply length_omap_le.
  cbn [op_ok]. unfold scan. destruct (_ && _); [done|]. rewrite Hfinds. split_and!; [done|lia| |done]. split_and!.
  - by apply new_modules_nodup.
  - apply Forall_forall. intros [k m] Hin. apply new_modules_elem in Hin as (fp & Hin & Hne). cbn.
    assert (keys_of imgs2 !! k = Some fp) as Hk by (apply keys_of_lookup; eauto).
    split_and!; [split; [by eapply Hstart|apply Hjit; eauto]|eauto|congruence].
  - done.
Qed.

Lemma refresh_exact boxed counts enumerate imgs imgs2 w sp :
  represents w sp -> shows sp imgs -> finds enumerate imgs2 -> loader_ok sp imgs counts imgs2 -> starts_at_keys imgs2 ->
  heap (st w) !! boxed = None ->
  generations (st w) + Z.of_nat (S (2 * base.size (sp_known sp) + length imgs2)) <= u64_MAX ->
  exists w' sp', refresh hash_iter boxed counts enumerate w = (Ok tt, w') /\
    represents w' sp' /\ shows sp' imgs2 /\ sp_jit sp' = sp_jit sp /\
    published (st w') = loaded imgs2 ∪ (fst <$> sp_jit sp).
Proof.
  intros Hr Hshow Hfinds Hload Hstart Hbox Hgen.
  destruct (refresh_step hash_iter hash_iter_perm w sp boxed counts enumerate Hr) as (w' & Hrun & Hr');
    [by eapply refresh_ok|].
  destruct Hshow as (Htr & Hst & Hbatch), Hload as [[Hd1 Hd2] Hsame Hjit Hcounts].
  exists w', (spec_op (OpRefresh boxed counts enumerate) sp). cbn [spec_op] in *. unfold scan, shows in *.
  destruct (bool_decide (is_Some counts) && bool_decide (counts = sp_counts sp)) eqn:Ec.
  - apply andb_true_iff in Ec as [Hs%bool_decide_eq_true Hc%bool_decide_eq_true]. rewrite (Hcounts Hs Hc).
    split_and!; try done. by rewrite (rp_published _ _ Hr'), Hst.
  - rewrite Hfinds in *. cbn [sp_jit sp_static sp_known sp_batching]. pose proof (rp_published _ _ Hr') as Hp. cbn [sp_jit sp_static] in Hp.
    rewrite Hst, scan_exact in Hp, Hr' |- * by done. split_and!; try done. by apply scan_tracks.
Qed.
End refresh.
