(* ===== verification/Elf.v ===== *)
(** * Enumerating ELF images

    Models [src/src/modules/elf.rs] and [fingerprint_of] of [modules/mod.rs]: what
    becomes of the objects that [dl_iterate_phdr] reports. The list of objects is an
    argument, as is the memory their sections are read from. *)
From S2P Require Import Prelude UnwindRule ModuleList Images Sections Dwarf ModuleData Hazard State Registry Scan.

Definition PT_LOAD : Z := 1.
Definition PT_GNU_EH_FRAME : Z := 0x6474e550.
Definition PF_X : Z := 1.

(** [libc::Elf64_Phdr] and [libc::dl_phdr_info]; [None] is a null pointer, a name is
    the bytes before its NUL. *)
Record Elf64_Phdr : Type := MkElf64Phdr {
  p_type : Z;
  p_flags : Z;
  p_vaddr : Z;
  p_memsz : Z;
}.

Record dl_phdr_info : Type := MkDlPhdrInfo {
  dlpi_addr : Z;
  dlpi_name : option (list Z);
  dlpi_phdr : option (list Elf64_Phdr);
  dlpi_adds : Z;
  dlpi_subs : Z;
}.

Record RawSpec : Type := MkRawSpec {
  rs_key : Z;
  rs_name : string;
  rs_base_avma : Z;
  rs_avma : range;
  rs_eh_frame_hdr : Bytes;
  rs_eh_frame_hdr_svma : range;
  rs_eh_frame : Bytes;
  rs_eh_frame_svma : range;
  rs_text_svma : option range;
}.

Record Collector : Type := MkCollector {
  col_known : gmap Z Z;
  col_current : gmap Z Z;
  col_specs : list RawSpec;
}.

(** ** The encoded start of [.eh_frame] *)

(** [uN::from_le_bytes(b.get(0..n)?)]. *)
Definition get_le (n : nat) (b : list Z) : option Z := from_le_bytes <$> get_range b 0 n.

Definition decode_value (b : list Z) (fmt : Z) : option (Z * Z) :=
  if fmt =? 0x02 then v ← get_le 2 b; Some (v, 2)
  else if fmt =? 0x0a then v ← get_le 2 b; Some (as_u 64 (as_s 16 v), 2)
  else if fmt =? 0x03 then v ← get_le 4 b; Some (v, 4)
  else if fmt =? 0x0b then v ← get_le 4 b; Some (as_u 64 (as_s 32 v), 4)
  else if fmt =? 0x04 then v ← get_le 8 b; Some (v, 8)
  else if fmt =? 0x0c then v ← get_le 8 b; Some (as_u 64 (as_s 64 v), 8)
  else if fmt =? 0x00 then v ← get_le 8 b; Some (v, 8)
  else None.

Section elf.
  (** Byte-addressed memory. *)
  Context (memory : Z -> Z).

Definition decode_eh_frame_start (hdr hdr_len : Z) : option Z :=
  let b := slice_at memory hdr hdr_len in
  if (length b <? 4)%nat || bool_decide (b !! 0%nat <> Some 1) then None
  else
    enc ← b !! 1%nat;
    let app := Z.land enc 0x70 in
    let fmt := Z.land enc 0x0f in
    let field_avma := hdr +64 4 in
    '(value, _) ← decode_value (drop 4 b) fmt;
    base ← (if app =? 0x00 then Some 0 else if app =? 0x10 then Some field_avma else None);
    Some (base +64 value).

(** ** The geometry of an image *)

Fixpoint containing_segment_end (phdrs : list Elf64_Phdr) (bias addr : Z) : option Z :=
  match phdrs with
  | [] => None
  | ph :: phdrs =>
      if negb (p_type ph =? PT_LOAD) then containing_segment_end phdrs bias addr
      else
        let lo := bias +64 p_vaddr ph in
        let hi := lo +64 p_memsz ph in
        if (lo <=? addr) && (addr <? hi) then Some hi else containing_segment_end phdrs bias addr
  end.

Record Geometry : Type := MkGeometry {
  avma_lo : Z;
  avma_hi : Z;
  g_text_svma : option range;
  hdr_phdr : option Elf64_Phdr;
}.

(** One round of the loop over the program headers. *)
Definition add_phdr (bias : Z) (g : Geometry) (ph : Elf64_Phdr) : Geometry :=
  if p_type ph =? PT_LOAD then
    let lo := bias +64 p_vaddr ph in
    let hi := lo +64 p_memsz ph in
    MkGeometry (if lo <? avma_lo g then lo else avma_lo g) (if avma_hi g <? hi then hi else avma_hi g)
      (if negb (Z.land (p_flags ph) PF_X =? 0) && bool_decide (g_text_svma g = None)
       then Some (Range (p_vaddr ph) (p_vaddr ph +64 p_memsz ph)) else g_text_svma g) (hdr_phdr g)
  else if p_type ph =? PT_GNU_EH_FRAME then MkGeometry (avma_lo g) (avma_hi g) (g_text_svma g) (Some ph)
  else g.

Definition geometry (bias : Z) (phdrs : list Elf64_Phdr) : Geometry :=
  foldl (add_phdr bias) (MkGeometry u64_MAX 0 None None) phdrs.

End elf.

Section enumerate.
  (** [String::from_utf8_lossy] decodes the names, which are only kept. *)
  Context {C : Type} `{Gimli C}.
  Context (memory : Z -> Z) (to_string_lossy : list Z -> string) `{DefaultHasher}.

(** The unwind sections of an image that is new; [None] is one of the early returns. *)
Definition raw_spec (info : dl_phdr_info) (phdrs : list Elf64_Phdr) (g : Geometry) : option RawSpec :=
  let bias := dlpi_addr info in
  hdr_phdr ← hdr_phdr g;
  let hdr_avma := bias +64 p_vaddr hdr_phdr in
  let hdr_len := p_memsz hdr_phdr in
  if hdr_len <? 4 then None
  else
    eh_frame_avma ← decode_eh_frame_start memory hdr_avma hdr_len;
    eh_frame_end ← containing_segment_end phdrs bias eh_frame_avma;
    if eh_frame_end <=? eh_frame_avma then None
    else
      let eh_frame_len := eh_frame_end -64 eh_frame_avma in
      let name :=
        match dlpi_name info with
        | None | Some [] => "<main>"%string
        | Some bytes => to_string_lossy bytes
        end in
      Some (MkRawSpec (avma_lo g) name bias (Range (avma_lo g) (avma_hi g))
        (Mapped (slice_at memory hdr_avma hdr_len))
        (Range (hdr_avma -64 bias) ((hdr_avma -64 bias) +64 hdr_len))
        (Mapped (slice_at memory eh_frame_avma eh_frame_len))
        (Range (eh_frame_avma -64 bias) ((eh_frame_avma -64 bias) +64 eh_frame_len))
        (g_text_svma g)).

(** The key and the fingerprint of an image with loadable segments. *)
Definition image_fingerprint (info : dl_phdr_info) (g : Geometry) : Z :=
  let name_bytes := default [] (dlpi_name info) in
  let '(hdr_vaddr, hdr_memsz) :=
    match hdr_phdr g with Some p => (p_vaddr p, p_memsz p) | None => (0, 0) end in
  fingerprint_of [hdr_vaddr; hdr_memsz; avma_hi g -64 avma_lo g] name_bytes.

Definition callback (info : dl_phdr_info) (collector : Collector) : Collector :=
  let bias := dlpi_addr info in
  match dlpi_phdr info with
  | None | Some [] => collector
  | Some phdrs =>
      let g := geometry bias phdrs in
      if (avma_lo g =? u64_MAX) || (avma_hi g <=? avma_lo g) then collector
      else
        let key := avma_lo g in
        let fp := image_fingerprint info g in
        let collector := MkCollector (col_known collector) (<[key := fp]> (col_current collector)) (col_specs collector) in
        if bool_decide (col_known collector !! key = Some fp) then collector
        else
          match raw_spec info phdrs g with
          | None => collector
          | Some spec => MkCollector (col_known collector) (col_current collector) (col_specs collector ++ [spec])
          end
  end.

Definition build_module (s : RawSpec) : Module_ (ModuleUnwindDataInternal Bytes) :=
  let info := MkExplicit 0 (rs_text_svma s) None None None None None
    (Some (rs_eh_frame_svma s)) (Some (rs_eh_frame s))
    (Some (rs_eh_frame_hdr_svma s)) (Some (rs_eh_frame_hdr s)) None None None in
  Module_new (C := C) deref (rs_name s) (rs_avma s) (rs_base_avma s) info.

(** [dl_iterate_phdr] calls the callback, which always returns 0, on every object. *)
Definition enumerate (objects : list dl_phdr_info) (known : gmap Z Z) : EnumResult (ModuleUnwindDataInternal Bytes) :=
  let collector := foldl (fun c info => callback info c) (MkCollector known ∅ []) objects in
  MkEnumResult (col_current collector) ((fun s => (rs_key s, build_module s)) <$> col_specs collector).

(** The offset of [dlpi_subs] and its size. *)
Definition DLPI_SUBS_END : Z := 40 + 8.

(** The callback stops at the first object; [size] is the size of the struct the C
    library passes. *)
Definition load_counts (objects : list dl_phdr_info) (size : Z) : option (Z * Z) :=
  match objects with
  | [] => None
  | info :: _ => if DLPI_SUBS_END <=? size then Some (dlpi_adds info, dlpi_subs info) else None
  end.
End enumerate.

(** ** The encoded pointer *)

(** The pointer formats that are decoded: their size and whether they are signed. *)
Definition encodings : list (Z * nat * bool) :=
  [(0x00, 8%nat, false); (0x02, 2%nat, false); (0x03, 4%nat, false); (0x04, 8%nat, false);
   (0x0a, 2%nat, true); (0x0b, 4%nat, true); (0x0c, 8%nat, true)].

Lemma get_le_app n v rest : get_le n (to_le_bytes n v ++ rest) = Some (v mod 2 ^ (8 * Z.of_nat n)).
Proof.
  unfold get_le, get_range. rewrite length_app, length_to_le_bytes.
  rewrite (proj2 (Nat.leb_le 0 n)), (proj2 (Nat.leb_le n (n + length rest))) by lia.
  cbn [andb]. rewrite drop_0, Nat.sub_0_r, take_app_length' by (by rewrite length_to_le_bytes).
  cbn. by rewrite from_to_le_bytes.
Qed.

Lemma as_s_mod w v : 0 < w -> in_s w v -> as_s w (v mod 2 ^ w) = v.
Proof.
  intros Hw Hv. rewrite <- (as_s_small w v Hw Hv) at 2. unfold as_s. f_equal.
  rewrite Zplus_mod_idemp_l. done.
Qed.

Lemma decode_value_encoded (fmt : Z) (n : nat) (signed : bool) v rest :
  (fmt, n, signed) ∈ encodings ->
  (if signed then in_s (8 * Z.of_nat n) v else in_u (8 * Z.of_nat n) v) ->
  decode_value (to_le_bytes n v ++ rest) fmt = Some (as_u 64 v, Z.of_nat n).
Proof.
  intros Hin Hv. unfold encodings in Hin.
  assert (forall k, 0 < k <= 64 -> in_u k v -> v mod 2 ^ k = as_u 64 v) as Hu.
  { intros k Hk Hr. unfold in_u in Hr. pose proof (Z.pow_le_mono_r 2 k 64). unfold as_u.
    rewrite !Z.mod_small by lia. done. }
  repeat (apply elem_of_cons in Hin as [[= -> -> ->]|Hin]; [
    unfold decode_value; cbn [Z.eqb Pos.eqb]; rewrite get_le_app; cbn [mbind option_bind];
    first [rewrite as_s_mod by (done || exact Hv); done | by rewrite Hu by (done || exact Hv)] |]).
  by apply not_elem_of_nil in Hin.
Qed.

(** The start of [.eh_frame] is recovered from its header for every supported
    encoding: a pointer stored in two, four or eight bytes, signed or not, absolute or
    relative to where it is stored, decodes to the address it was encoded from, with
    wrap-around. *)
Theorem eh_frame_start_roundtrip memory hdr hdr_len base (fmt : Z) (n : nat) (signed : bool) v count table rest
    (Hfmt : (fmt, n, signed) ∈ encodings) (Happ : base = 0x00 \/ base = 0x10)
    (Hv : if signed then in_s (8 * Z.of_nat n) v else in_u (8 * Z.of_nat n) v)
    (Hhdr : slice_at memory hdr hdr_len = [1; Z.lor base fmt; count; table] ++ to_le_bytes n v ++ rest) :
  decode_eh_frame_start memory hdr hdr_len = Some (as_u 64 ((if base =? 0 then 0 else hdr + 4) + v)).
Proof.
  unfold decode_eh_frame_start. rewrite Hhdr. cbn [Datatypes.app length Nat.ltb Nat.leb orb lookup list_lookup drop].
  rewrite bool_decide_false by naive_solver. cbn [mbind option_bind orb].
  assert (Z.land (Z.lor base fmt) 0x0f = fmt /\ Z.land (Z.lor base fmt) 0x70 = base) as [-> ->].
  { unfold encodings in Hfmt. destruct Happ as [-> | ->];
      repeat (apply elem_of_cons in Hfmt as [[= -> _ _]|Hfmt]; [done|]); by apply not_elem_of_nil in Hfmt. }
  rewrite drop_0, (decode_value_encoded fmt n signed v rest Hfmt Hv). cbn [mbind option_bind].
  destruct Happ as [-> | ->]; cbn [Z.eqb Pos.eqb mbind option_bind]; f_equal; unfold_words.
  - by rewrite Z.add_0_l, Z.mod_mod.
  - by rewrite <- Z.add_mod.
Qed.

(** ** The geometry of an image *)

(** A loadable segment, as the address range it has. *)
Definition segment (bias : Z) (ph : Elf64_Phdr) : range := Range (bias +64 p_vaddr ph) (bias +64 p_vaddr ph +64 p_memsz ph).

Lemma geometry_covers bias phdrs g0 :
  let g := foldl (add_phdr bias) g0 phdrs in
  avma_lo g <= avma_lo g0 /\ avma_hi g0 <= avma_hi g /\
  forall ph, ph ∈ phdrs -> p_type ph = PT_LOAD ->
    avma_lo g <= r_start (segment bias ph) /\ r_end (segment bias ph) <= avma_hi g.
Proof.
  revert g0. induction phdrs as [|ph phdrs IH]; intros g0; cbn [foldl]; [split_and!; [done|done|]; set_solver|].
  destruct (IH (add_phdr bias g0 ph)) as (Hlo & Hhi & Hall).
  assert (avma_lo (add_phdr bias g0 ph) <= avma_lo g0 /\ avma_hi g0 <= avma_hi (add_phdr bias g0 ph) /\
    (p_type ph = PT_LOAD -> avma_lo (add_phdr bias g0 ph) <= r_start (segment bias ph) /\
      r_end (segment bias ph) <= avma_hi (add_phdr bias g0 ph))) as (H1 & H2 & H3).
  { unfold add_phdr, segment. destruct (Z.eqb_spec (p_type ph) PT_LOAD) as [E|E]; cbn [avma_lo avma_hi r_start r_end].
    - set (lo := bias +64 p_vaddr ph). set (hi := lo +64 p_memsz ph).
      destruct (lo <? avma_lo g0) eqn:E1, (avma_hi g0 <? hi) eqn:E2; bool_to_prop; split_and!; intros; lia.
    - destruct (_ =? _); cbn; split_and!; try lia; done. }
  split_and!; [lia|lia|]. intros ph' [->|Hin]%elem_of_cons Ht; [specialize (H3 Ht); lia|by apply Hall].
Qed.

Lemma containing_segment_spec phdrs bias addr hi :
  containing_segment_end phdrs bias addr = Some hi ->
  exists ph, ph ∈ phdrs /\ p_type ph = PT_LOAD /\ range_contains (segment bias ph) addr = true /\ hi = r_end (segment bias ph).
Proof.
  induction phdrs as [|ph phdrs IH]; [done|]. cbn [containing_segment_end].
  destruct (Z.eqb_spec (p_type ph) PT_LOAD) as [E|E]; cbn [negb].
  - fold (range_contains (Range (bias +64 p_vaddr ph) (bias +64 p_vaddr ph +64 p_memsz ph)) addr).
    destruct (_ && _) eqn:Ec.
    + intros [= <-]. exists ph. split_and!; [by left|done|exact Ec|done].
    + intros (ph' & ? & ?)%IH. exists ph'. split; [by right|done].
  - intros (ph' & ? & ?)%IH. exists ph'. split; [by right|done].
Qed.

(** The program headers of a kind, and the range a segment was linked at. *)
Definition loads (phdrs : list Elf64_Phdr) : list Elf64_Phdr := filter (fun ph => p_type ph = PT_LOAD) phdrs.
Definition executables (phdrs : list Elf64_Phdr) : list Elf64_Phdr :=
  filter (fun ph => Z.land (p_flags ph) PF_X <> 0) (loads phdrs).
Definition frame_headers (phdrs : list Elf64_Phdr) : list Elf64_Phdr :=
  filter (fun ph => p_type ph = PT_GNU_EH_FRAME) phdrs.
Definition linked_range (ph : Elf64_Phdr) : range := Range (p_vaddr ph) (p_vaddr ph +64 p_memsz ph).

Lemma elem_of_loads ph phdrs : ph ∈ loads phdrs <-> ph ∈ phdrs /\ p_type ph = PT_LOAD.
Proof. unfold loads. rewrite list_elem_of_filter. tauto. Qed.

(** The ends of the range are ends of segments, and the headers that are kept are the
    last of the unwind data and the first of the code. *)
Lemma geometry_exact bias phdrs g0 :
  let g := foldl (add_phdr bias) g0 phdrs in
  (avma_lo g = avma_lo g0 \/ exists ph, ph ∈ loads phdrs /\ avma_lo g = r_start (segment bias ph)) /\
  (avma_hi g = avma_hi g0 \/ exists ph, ph ∈ loads phdrs /\ avma_hi g = r_end (segment bias ph)) /\
  hdr_phdr g = match last (frame_headers phdrs) with Some ph => Some ph | None => hdr_phdr g0 end /\
  g_text_svma g = match g_text_svma g0 with
                  | Some r => Some r
                  | None => linked_range <$> head (executables phdrs)
                  end.
Proof.
  revert g0. induction phdrs as [|ph phdrs IH]; intros g0; cbn [foldl].
  { split_and!; [by left..|done|]. by destruct (g_text_svma g0). }
  destruct (IH (add_phdr bias g0 ph)) as (Hlo & Hhi & Hhdr & Htext). clear IH. cbn zeta.
  rewrite Hhdr, Htext. clear Hhdr Htext. unfold executables, loads, frame_headers in *.
  unfold add_phdr in *. destruct (Z.eqb_spec (p_type ph) PT_LOAD) as [E|E].
  - rewrite !(filter_cons_True (fun ph => p_type ph = PT_LOAD)) by done.
    rewrite (filter_cons_False (fun ph => p_type ph = PT_GNU_EH_FRAME)) by (rewrite E; done). cbn [avma_lo avma_hi hdr_phdr g_text_svma] in *.
    split_and!; [| |done|].
    + destruct Hlo as [Hlo|(ph' & ? & ?)]; [|right; exists ph'; split; [by right|done]]. rewrite Hlo.
      destruct (_ <? avma_lo g0); [right; exists ph; split; [by left|done]|by left].
    + destruct Hhi as [Hhi|(ph' & ? & ?)]; [|right; exists ph'; split; [by right|done]]. rewrite Hhi.
      destruct (avma_hi g0 <? _); [right; exists ph; split; [by left|done]|by left].
    + destruct (g_text_svma g0) as [r|]; [by rewrite bool_decide_false, andb_false_r by done|].
      rewrite bool_decide_true, andb_true_r by done.
      destruct (Z.eqb_spec (Z.land (p_flags ph) PF_X) 0) as [Ex|Ex]; cbn [negb].
      * by rewrite filter_cons_False by tauto.
      * by rewrite filter_cons_True by done.
  - rewrite !(filter_cons_False (fun ph => p_type ph = PT_LOAD)) by done. destruct (Z.eqb_spec (p_type ph) PT_GNU_EH_FRAME) as [E'|E'].
    + rewrite filter_cons_True by done. cbn [avma_lo avma_hi hdr_phdr g_text_svma] in *. split_and!; [done|done| |done].
      rewrite last_cons. by destruct (last _).
    + by rewrite filter_cons_False by done.
Qed.

Section geometry_spec.
  Context (memory : Z -> Z) (to_string_lossy : list Z -> string).

(** C39: what a new image is unwound with. The module's range is the hull of its
    loadable segments: it covers every one, and its ends are ends of segments. The
    header is where the last [PT_GNU_EH_FRAME] program header says, and whether it
    lies in the image is not checked: it is inside the module's range if it is inside
    a loadable segment. [.eh_frame] runs from the address the header encodes to the
    end of a loadable segment that contains that address, and so lies inside the
    module's range. The bytes kept of both sections are those at these addresses, the
    ranges stated are the addresses less the bias, and the text is the first
    executable segment. *)
Theorem image_sections_located info phdrs spec
    (Hspec : raw_spec memory to_string_lossy info phdrs (geometry (dlpi_addr info) phdrs) = Some spec) :
  let bias := dlpi_addr info in
  let module_range := rs_avma spec in
  (forall ph, ph ∈ loads phdrs ->
     r_start module_range <= r_start (segment bias ph) /\ r_end (segment bias ph) <= r_end module_range) /\
  (exists ph, ph ∈ loads phdrs /\ r_start module_range = r_start (segment bias ph)) /\
  (exists ph, ph ∈ loads phdrs /\ r_end module_range = r_end (segment bias ph)) /\
  rs_base_avma spec = bias /\ rs_key spec = r_start module_range /\
  rs_text_svma spec = linked_range <$> head (executables phdrs) /\
  exists hdr, last (frame_headers phdrs) = Some hdr /\
    let hdr_avma := bias +64 p_vaddr hdr in
    let hdr_len := p_memsz hdr in
    4 <= hdr_len /\
    rs_eh_frame_hdr spec = Mapped (slice_at memory hdr_avma hdr_len) /\
    rs_eh_frame_hdr_svma spec = Range (hdr_avma -64 bias) ((hdr_avma -64 bias) +64 hdr_len) /\
    (forall ph, ph ∈ loads phdrs -> r_start (segment bias ph) <= hdr_avma ->
       hdr_avma + hdr_len <= r_end (segment bias ph) ->
       r_start module_range <= hdr_avma /\ hdr_avma + hdr_len <= r_end module_range) /\
    exists eh_frame ph, decode_eh_frame_start memory hdr_avma hdr_len = Some eh_frame /\
      ph ∈ loads phdrs /\ r_start (segment bias ph) <= eh_frame < r_end (segment bias ph) /\
      r_start module_range <= eh_frame /\ r_end (segment bias ph) <= r_end module_range /\
      let eh_frame_len := r_end (segment bias ph) -64 eh_frame in
      rs_eh_frame spec = Mapped (slice_at memory eh_frame eh_frame_len) /\
      rs_eh_frame_svma spec = Range (eh_frame -64 bias) ((eh_frame -64 bias) +64 eh_frame_len).
Proof.
  cbn zeta. unfold raw_spec in Hspec. set (bias := dlpi_addr info) in *. set (g := geometry bias phdrs) in *.
  destruct (geometry_covers bias phdrs (MkGeometry u64_MAX 0 None None)) as (Hlo & Hhi & Hall0).
  destruct (geometry_exact bias phdrs (MkGeometry u64_MAX 0 None None)) as (Elo & Ehi & Ehdr & Etext).
  fold (geometry bias phdrs) g in Hall0, Elo, Ehi, Ehdr, Etext, Hlo, Hhi.
  cbn [avma_lo avma_hi hdr_phdr g_text_svma] in Elo, Ehi, Ehdr, Etext, Hlo, Hhi.
  assert (Hall : forall ph, ph ∈ loads phdrs ->
    avma_lo g <= r_start (segment bias ph) /\ r_end (segment bias ph) <= avma_hi g).
  { intros ph [? ?]%elem_of_loads. by apply Hall0. }
  destruct (hdr_phdr g) as [hdr|]; [|done]. cbn [mbind option_bind] in Hspec.
  destruct (p_memsz hdr <? 4) eqn:E4; [done|].
  destruct (decode_eh_frame_start _ _ _) as [eh|] eqn:Ed; [|done]. cbn [mbind option_bind] in Hspec.
  destruct (containing_segment_end _ _ _) as [stop|] eqn:Ec; [|done]. cbn [mbind option_bind] in Hspec.
  destruct (stop <=? eh) eqn:Es; [done|]. injection Hspec as <-. bool_to_prop.
  apply containing_segment_spec in Ec as (ph & Hin & Ht & Hc & ->).
  apply andb_true_iff in Hc as [Hc1%Z.leb_le Hc2%Z.ltb_lt].
  assert (Hph : ph ∈ loads phdrs) by by apply elem_of_loads. destruct (Hall ph Hph) as [Hp1 Hp2].
  assert (0 <= r_end (segment bias ph) /\ r_start (segment bias ph) <= u64_MAX) as [Hend Hstart]
    by (clear; unfold segment; cbn [r_start r_end]; word_solve).
  cbn [rs_avma rs_base_avma rs_key rs_text_svma rs_eh_frame_hdr rs_eh_frame_hdr_svma rs_eh_frame rs_eh_frame_svma r_start r_end].
  split_and!; [exact Hall| | |done|done|done|].
  - destruct Elo as [Elo|]; [|done]. exists ph. split; [done|lia].
  - destruct Ehi as [Ehi|]; [|done]. exists ph. split; [done|lia].
  - exists hdr. split; [by destruct (last _)|]. split_and!; [done..| |].
    + intros ph' Hin' ? ?. destruct (Hall ph' Hin'). lia.
    + exists eh, ph. split_and!; try done; lia.
Qed.
End geometry_spec.

(** ** What an enumeration finds *)

Section enumerate_spec.
  Context {C : Type} `{Gimli C} (memory : Z -> Z) (to_string_lossy : list Z -> string) `{DefaultHasher}.

(** An image by itself: its key, its fingerprint, and its module if it has one. *)
Definition image_of (info : dl_phdr_info) : option (Z * Z * option (Module_ (ModuleUnwindDataInternal Bytes))) :=
  match dlpi_phdr info with
  | None | Some [] => None
  | Some phdrs =>
      let g := geometry (dlpi_addr info) phdrs in
      if (avma_lo g =? u64_MAX) || (avma_hi g <=? avma_lo g) then None
      else Some (avma_lo g, image_fingerprint info g,
             build_module (C := C) <$> raw_spec memory to_string_lossy info phdrs g)
  end.

Definition images (objects : list dl_phdr_info) : list (Z * Z * option (Module_ (ModuleUnwindDataInternal Bytes))) :=
  omap image_of objects.

Lemma raw_spec_key info phdrs g s :
  raw_spec memory to_string_lossy info phdrs g = Some s -> rs_key s = avma_lo g /\ rs_avma s = Range (avma_lo g) (avma_hi g).
Proof.
  unfold raw_spec. intros Hs. destruct (hdr_phdr g) as [ph|]; [|done]. cbn [mbind option_bind] in Hs.
  destruct (_ <? _); [done|]. destruct (decode_eh_frame_start _ _ _); [|done]. cbn [mbind option_bind] in Hs.
  destruct (containing_segment_end _ _ _); [|done]. cbn [mbind option_bind] in Hs.
  destruct (_ <=? _); [done|]. by injection Hs as <-.
Qed.

Definition collected (c : Collector) : list (Z * Module_ (ModuleUnwindDataInternal Bytes)) :=
  (fun s => (rs_key s, build_module (C := C) s)) <$> col_specs c.

Lemma callback_image info c :
  let c' := callback memory to_string_lossy info c in
  col_known c' = col_known c /\
  col_current c' = match image_of info with Some (k, fp, _) => <[k := fp]> (col_current c) | None => col_current c end /\
  collected c' = collected c ++ new_modules_of (col_known c) (option_list (image_of info)).
Proof.
  cbn zeta. unfold callback, image_of. destruct (dlpi_phdr info) as [[|ph phdrs]|]; cbn [option_list];
    [split_and!; [done|done|by rewrite app_nil_r]| |split_and!; [done|done|by rewrite app_nil_r]].
  set (g := geometry _ _). destruct (_ || _); cbn [option_list]; [split_and!; [done|done|by rewrite app_nil_r]|].
  set (fp := image_fingerprint info g). cbn [col_known col_current col_specs].
  unfold new_modules_of. simpl. case_bool_decide as Hk.
  { split_and!; [done|done|]. by rewrite app_nil_r. }
  destruct (raw_spec memory to_string_lossy info (ph :: phdrs) g) as [s|] eqn:Es; cbn [fmap option_fmap option_map];
    [|split_and!; [done|done|]; cbn; by rewrite app_nil_r].
  split_and!; [done|done|]. unfold collected. cbn [col_specs]. rewrite fmap_app. cbn.
  by destruct (raw_spec_key _ _ _ _ Es) as [-> _].
Qed.

Lemma enumerate_images objects known :
  enumerate (C := C) memory to_string_lossy objects known =
    MkEnumResult (foldl (fun cur '(k, fp, _) => <[k := fp]> cur) ∅ (images objects))
      (new_modules_of known (images objects)).
Proof.
  assert (forall c, let c' := foldl (fun c info => callback memory to_string_lossy info c) c objects in
    col_current c' = foldl (fun cur '(k, fp, _) => <[k := fp]> cur) (col_current c) (images objects) /\
    collected c' = collected c ++ new_modules_of (col_known c) (images objects)) as Hfold.
  { unfold images. induction objects as [|info objects IH]; intros c; cbn [foldl omap list_omap].
    { split; [done|]. by rewrite app_nil_r. }
    destruct (callback_image info c) as (Hk & Hc & Hm). cbn zeta in IH. cbn zeta.
    destruct (IH (callback memory to_string_lossy info c)) as [-> ->]. rewrite Hk, Hc, Hm.
    unfold new_modules_of. destruct (image_of info) as [[[k fp] m]|]; cbn [option_list omap list_omap foldl];
      [|by rewrite app_nil_r]. split; [done|]. rewrite <- app_assoc. f_equal.
    simpl. by destruct (bool_decide _), m. }
  destruct (Hfold (MkCollector known ∅ [])) as [E1 E2]. unfold enumerate. rewrite E1. f_equal. exact E2.
Qed.

Lemma images_start objects k fp m : (k, fp, Some m) ∈ images objects -> mod_start m = k.
Proof.
  unfold images. rewrite list_elem_of_omap. intros (info & _ & Hi). unfold image_of in Hi.
  destruct (dlpi_phdr info) as [[|ph phdrs]|]; [done| |done]. destruct (_ || _); [done|].
  destruct (raw_spec _ _ _ _ _) as [s|] eqn:Es; simplify_eq/=. apply raw_spec_key in Es as [_ Hr].
  unfold mod_start, build_module. rewrite (proj1 (proj2 (Module_new_data _ _ _ _ _))), Hr. done.
Qed.

End enumerate_spec.

Section refresh.
  Context {R Regs C : Type} `{Gimli C} (to_string_lossy : list Z -> string) `{DefaultHasher}.
  Context (hash_iter : gmap Z Z -> list (Z * Z)) (hash_iter_perm : forall m, hash_iter m ≡ₚ map_to_list m).

(** C20: on Linux and FreeBSD a refresh leaves exactly the loaded images. If what was
    published were the modules of the images of an earlier scan and the JIT modules,
    then after a refresh it is the modules that a scan from nothing would build for
    the images loaded now, and the JIT modules, whatever was loaded, unloaded or
    replaced in between; and what the registry knows fits the images for the next
    refresh. *)
Theorem elf_refresh_exact memory boxed objects size imgs (w : World (R := R) (Regs := Regs) (C := C)) sp
    (Hr : represents w sp) (Hshow : shows sp imgs)
    (Hload : loader_ok sp imgs (load_counts objects size) (images (C := C) memory to_string_lossy objects))
    (Hbox : heap (st w) !! boxed = None)
    (Hgen : generations (st w) + Z.of_nat (S (2 * base.size (sp_known sp) +
        length (images (C := C) memory to_string_lossy objects))) <= u64_MAX) :
  exists w' sp',
    refresh hash_iter boxed (load_counts objects size)
      (fun known => Some (enumerate (C := C) memory to_string_lossy objects known)) w = (Ok tt, w') /\
    represents w' sp' /\ shows sp' (images memory to_string_lossy objects) /\ sp_jit sp' = sp_jit sp /\
    published (st w') = loaded (images memory to_string_lossy objects) ∪ (fst <$> sp_jit sp).
Proof.
  apply (refresh_exact _ hash_iter_perm _ _ _ imgs); try done.
  - intros known. by rewrite enumerate_images.
  - intros k fp m. apply images_start.
Qed.
End refresh.

(** ** A concrete image: one segment of 256 bytes at 65536, with its header at 65664 *)

Section example.
#[local] Instance example_gimli : Gimli unit :=
    Dwarf.example_gimli X86Dwarf.example_row_cfa X86Dwarf.example_row_rules.
#[local] Instance example_hasher : DefaultHasher := {|
    hasher := Z; hasher_new := 0; hasher_write := foldl (fun h b => 31 * h + b); hasher_finish := as_u 64 |}.

Definition example_bytes : list Z := [1; 0x1b; 3; 0x3b] ++ to_le_bytes 4 32 ++ [0; 0].
Definition example_memory (a : Z) : Z := if 65664 <=? a then default 0 (example_bytes !! Z.to_nat (a - 65664)) else 0.
Definition example_object : dl_phdr_info :=
  MkDlPhdrInfo 65536 None
    (Some [MkElf64Phdr PT_LOAD 5 0 256; MkElf64Phdr PT_GNU_EH_FRAME 4 128 10]) 1 0.
Definition example_name (_ : list Z) : string := "".

Lemma eh_frame_start_roundtrip_witness : decode_eh_frame_start example_memory 65664 10 = Some 65700.
Proof.
  rewrite (eh_frame_start_roundtrip example_memory 65664 10 0x10 0x0b 4 true 32 3 0x3b [0; 0]).
  - reflexivity.
  - unfold encodings. set_solver.
  - by right.
  - unfold in_s. lia.
  - reflexivity.
Defined.

Definition example_geometry : Geometry :=
  geometry (dlpi_addr example_object) (default [] (dlpi_phdr example_object)).

Lemma image_sections_located_witness :
  exists spec, raw_spec example_memory example_name example_object (default [] (dlpi_phdr example_object)) example_geometry = Some spec /\
    r_start (rs_avma spec) <= 65536 /\ 65792 <= r_end (rs_avma spec).
Proof.
  destruct (raw_spec example_memory example_name example_object (default [] (dlpi_phdr example_object)) example_geometry)
    as [spec|] eqn:E; [|by vm_compute in E].
  exists spec. split; [done|].
  destruct (image_sections_located example_memory example_name example_object (default [] (dlpi_phdr example_object)) spec E)
    as [Hall _].
  apply (Hall (MkElf64Phdr PT_LOAD 5 0 256)). by left.
Defined.

Lemma elf_refresh_exact_witness :
  exists w', refresh map_to_list 1%nat (load_counts [example_object] 64)
      (fun known => Some (enumerate (C := unit) example_memory example_name [example_object] known))
      (MkWorld Registry_new (state_new (D := ModuleUnwindDataInternal Bytes) (R := X86Rules.UnwindRuleX86_64)
        (Regs := X86Regs.UnwindRegsX86_64) (C := unit))) = (Ok tt, w') /\
    published (st w') = loaded (images example_memory example_name [example_object]) ∪ ∅.
Proof.
  destruct (elf_refresh_exact (R := X86Rules.UnwindRuleX86_64) (Regs := X86Regs.UnwindRegsX86_64) example_name map_to_list
    (fun m => reflexivity _) example_memory 1%nat [example_object] 64 [] (MkWorld Registry_new state_new) empty_spec)
    as (w' & sp' & Hrun & _ & _ & _ & Hpub).
  - apply initial_represents.
  - split_and!; [split; [done|]|done..]. intros k fp m Hin. by apply not_elem_of_nil in Hin.
  - split; [split; [constructor|by apply NoDup_singleton]|..].
    + intros k fp m1 m2 Hin. by apply not_elem_of_nil in Hin.
    + intros k _. apply lookup_empty.
    + intros _ [=].
  - done.
  - by vm_compute.
  - exists w'. split; [exact Hrun|]. rewrite Hpub. done.
Defined.
End example.
