(* ===== verification/MachoImage.v ===== *)
(** * Mach-O images

    Models [src/src/modules/macho.rs]: parsing the headers of an image that dyld
    reports, the module built of it, and the callbacks that hand it to the registry.
    Headers and sections are read from a byte-addressed memory. *)
From S2P Require Import Prelude UnwindRule ModuleList Images Sections Dwarf Compact ModuleData Hazard State Registry.

Definition LC_SEGMENT_64 : Z := 0x19.

(** The layouts of [mach_header_64], [load_command], [segment_command_64] and
    [Section64]: sizes, and the fields that are read. *)
Definition MACH_HEADER_64_SIZE : Z := 32.
Definition SEGMENT_COMMAND_64_SIZE : Z := 72.
Definition SECTION_64_SIZE : Z := 80.

Section macho.
  Context (memory : Z -> Z).

Definition ncmds (header : Z) : Z := word_at memory 4 (header + 16).
Definition lc_cmd (p : Z) : Z := word_at memory 4 p.
Definition lc_cmdsize (p : Z) : Z := word_at memory 4 (p + 4).
Definition seg_segname (p : Z) : list Z := slice_at memory (p + 8) 16.
Definition seg_vmaddr (p : Z) : Z := word_at memory 8 (p + 24).
Definition seg_vmsize (p : Z) : Z := word_at memory 8 (p + 32).
Definition seg_nsects (p : Z) : Z := word_at memory 4 (p + 64).

(** A [Section64]. *)
Record Section64 : Type := MkSection64 {
  sectname : list Z;
  sec_addr : Z;
  sec_size : Z;
}.
Definition section_64_at (p : Z) : Section64 :=
  MkSection64 (slice_at memory p 16) (word_at memory 8 (p + 32)) (word_at memory 8 (p + 40)).

Definition seg_name_eq (field name : list Z) : bool := name_eq 16 field name.
Definition sect_name_eq (field name : list Z) : bool := name_eq 16 field name.

(** Where the load commands are: the pointer [p] of each round of the loops. *)
Fixpoint load_commands (n : nat) (p : Z) : list Z :=
  match n with
  | O => []
  | S n => p :: load_commands n (p + lc_cmdsize p)
  end.

Definition image_commands (header : Z) : list Z :=
  load_commands (Z.to_nat (ncmds header)) (header + MACH_HEADER_64_SIZE).

Definition is_text_segment (p : Z) : bool :=
  (lc_cmd p =? LC_SEGMENT_64) && seg_name_eq (seg_segname p) (bytes_of_string "__TEXT").

(** The loop of [image_key], which returns at the first [__TEXT]. *)
Fixpoint find_text (commands : list Z) (slide : Z) : option Z :=
  match commands with
  | [] => None
  | p :: commands => if is_text_segment p then Some (seg_vmaddr p +64 slide) else find_text commands slide
  end.

Definition image_key (header slide : Z) : option Z := find_text (image_commands header) slide.

(** ** The module of an image *)

(** The first pass: the last [__TEXT] is kept. *)
Definition text_geometry (commands : list Z) : option Z * Z :=
  foldl (fun g p => if is_text_segment p then (Some (seg_vmaddr p), seg_vmsize p) else g) (None, 0) commands.

(** What the second pass has found so far. *)
Record Found : Type := MkFound {
  f_unwind_info : option Bytes;
  f_eh_frame : option (Bytes * range);
  f_text_segment : option (Bytes * range);
  f_stubs_svma : option range;
  f_stub_helper_svma : option range;
  f_got_svma : option range;
  f_text_svma : option range;
}.

Definition mapped (ptr len : Z) : Bytes := Mapped (slice_at memory ptr len).

Definition add_section (slide : Z) (f : Found) (sec : Section64) : Found :=
  let svma := Range (sec_addr sec) (sec_addr sec +64 sec_size sec) in
  let data_ptr := sec_addr sec +64 slide in
  let '(MkFound ui eh seg stubs helper got text) := f in
  let named name := sect_name_eq (sectname sec) (bytes_of_string name) in
  if named "__text" then MkFound ui eh seg stubs helper got (Some svma)
  else if named "__unwind_info" then MkFound (Some (mapped data_ptr (sec_size sec))) eh seg stubs helper got text
  else if named "__eh_frame" then MkFound ui (Some (mapped data_ptr (sec_size sec), svma)) seg stubs helper got text
  else if named "__stubs" then MkFound ui eh seg (Some svma) helper got text
  else if named "__stub_helper" then MkFound ui eh seg stubs (Some svma) got text
  else if named "__got" then MkFound ui eh seg stubs helper (Some svma) text
  else f.

(** The addresses of a segment's section headers. *)
Definition segment_sections (p : Z) : list Section64 :=
  (fun s => section_64_at (p + SEGMENT_COMMAND_64_SIZE + Z.of_nat s * SECTION_64_SIZE)) <$>
    List.seq 0 (Z.to_nat (seg_nsects p)).

Definition set_text_segment (x : option (Bytes * range)) (f : Found) : Found :=
  MkFound (f_unwind_info f) (f_eh_frame f) x (f_stubs_svma f) (f_stub_helper_svma f) (f_got_svma f) (f_text_svma f).

(** One round of the second pass. *)
Definition add_command (slide : Z) (f : Found) (p : Z) : Found :=
  if lc_cmd p =? LC_SEGMENT_64 then
    let is_text := seg_name_eq (seg_segname p) (bytes_of_string "__TEXT") in
    let f :=
      if is_text then
        let bytes := mapped (seg_vmaddr p +64 slide) (seg_vmsize p) in
        set_text_segment (Some (bytes, Range (seg_vmaddr p) (seg_vmaddr p +64 seg_vmsize p))) f
      else f in
    foldl (add_section slide) f (segment_sections p)
  else f.

Definition find_sections (slide : Z) (commands : list Z) : Found :=
  foldl (add_command slide) (MkFound None None None None None None None) commands.

(** [u64::rotate_left]. *)
Definition rotate_left (x k : Z) : Z := as_u 64 (Z.lor (Z.shiftl x k) (Z.shiftr x (64 - k))).

Section build.
  Context {C : Type} `{Gimli C}.

Definition image_info (text_vmaddr : Z) (f : Found) : ExplicitModuleSectionInfo Bytes :=
  MkExplicit text_vmaddr (f_text_svma f) None (f_stubs_svma f) (f_stub_helper_svma f) (f_got_svma f)
    (f_unwind_info f) (snd <$> f_eh_frame f) (fst <$> f_eh_frame f) None None None
    (snd <$> f_text_segment f) (fst <$> f_text_segment f).

Definition build_image (header slide : Z) :
    option (Z * Z * option (Module_ (ModuleUnwindDataInternal Bytes))) :=
  let commands := image_commands header in
  let '(text_vmaddr, text_vmsize) := text_geometry commands in
  text_vmaddr ← text_vmaddr;
  let base_avma := text_vmaddr +64 slide in
  let key := base_avma in
  let fp := Z.lxor text_vmaddr (rotate_left text_vmsize 32) in
  let f := find_sections slide commands in
  if bool_decide (f_unwind_info f = None) && bool_decide (f_eh_frame f = None) then Some (key, fp, None)
  else
    let name := ("<image:" +:+ hex_address key +:+ ">")%string in
    Some (key, fp, Some (Module_new (C := C) deref name (Range base_avma (base_avma +64 text_vmsize)) base_avma
      (image_info text_vmaddr f))).
End build.
End macho.

(** ** The callbacks *)

Section callbacks.
  Context {R Regs C : Type} `{Gimli C} (memory : Z -> Z).
  Abbreviation M := (ST (World (D := ModuleUnwindDataInternal Bytes) (R := R) (Regs := Regs) (C := C)) crash).

Definition on_add_image (boxed : ptr) (header slide : Z) : M unit :=
  if header =? 0 then mret tt
  else
    match build_image memory header slide with
    | Some (key, fp, Some m) => macos_add_image boxed key fp m
    | _ => mret tt
    end.

Definition on_remove_image (boxed : ptr) (header slide : Z) : M unit :=
  if header =? 0 then mret tt
  else
    match image_key memory header slide with
    | Some key => macos_remove_image boxed key
    | None => mret tt
    end.

(** dyld calls the add callback for each loaded image, given by its header and slide. *)
Fixpoint replay_images (boxed : ptr) (images : list (Z * Z)) : M unit :=
  match images with
  | [] => mret tt
  | (header, slide) :: images => _ ← on_add_image boxed header slide; replay_images boxed images
  end.

(** [called] is the state of [CALLBACKS], a [Once]; registering replays the images. *)
Definition init_callbacks (boxed : ptr) (called : bool) (images : list (Z * Z)) : M unit :=
  if called then mret tt
  else
    _ ← macos_begin_batch;
    _ ← replay_images boxed images;
    macos_end_batch boxed.
End callbacks.

(** ** An image with one [__TEXT] segment *)

Section one_text.
  Context {C : Type} `{Gimli C} (memory : Z -> Z).

Definition text_commands (commands : list Z) : list Z := filter (fun p => is_text_segment memory p = true) commands.

Lemma find_text_one commands slide p :
  text_commands commands = [p] -> find_text memory commands slide = Some (seg_vmaddr memory p +64 slide).
Proof.
  unfold text_commands. induction commands as [|q commands IH]; [done|]. cbn [find_text]. rewrite filter_cons.
  destruct (is_text_segment memory q) eqn:E.
  - rewrite decide_True by done. by intros [= -> _].
  - rewrite decide_False by congruence. exact IH.
Qed.

Lemma text_geometry_fold commands g :
  foldl (fun g p => if is_text_segment memory p then (Some (seg_vmaddr memory p), seg_vmsize memory p) else g) g commands =
    match last (text_commands commands) with
    | Some p => (Some (seg_vmaddr memory p), seg_vmsize memory p)
    | None => g
    end.
Proof.
  unfold text_commands. revert g. induction commands as [|q commands IH]; intros g; [done|]. cbn [foldl]. rewrite filter_cons, IH.
  destruct (is_text_segment memory q) eqn:E.
  - rewrite decide_True, last_cons by done. by destruct (last _).
  - by rewrite decide_False by congruence.
Qed.

(** Sections do not change the text segment. *)
Lemma add_sections_text slide secs f : f_text_segment (foldl (add_section memory slide) f secs) = f_text_segment f.
Proof.
  revert f. induction secs as [|sec secs IH]; intros f; [done|]. cbn [foldl]. rewrite IH.
  unfold add_section. destruct f. by repeat case_match.
Qed.

Lemma find_sections_text slide commands f :
  f_text_segment (foldl (add_command memory slide) f commands) =
    match last (text_commands commands) with
    | Some p => Some (mapped memory (seg_vmaddr memory p +64 slide) (seg_vmsize memory p),
        Range (seg_vmaddr memory p) (seg_vmaddr memory p +64 seg_vmsize memory p))
    | None => f_text_segment f
    end.
Proof.
  revert f. induction commands as [|q commands IH]; intros f; [done|]. cbn [foldl]. rewrite IH. unfold text_commands.
  rewrite filter_cons. unfold add_command, is_text_segment. fold (is_text_segment memory).
  destruct (lc_cmd memory q =? LC_SEGMENT_64) eqn:El; cbn [andb].
  - rewrite add_sections_text. destruct (seg_name_eq _ _) eqn:En.
    + rewrite decide_True, last_cons by done. by destruct (last _).
    + by rewrite decide_False by congruence.
  - by rewrite decide_False by congruence.
Qed.

(** An image with compact unwind info is always unwound with its instructions at
    hand. For an image with one [__TEXT] segment, of whatever size, the module built
    of it starts where the removal of the image looks for it; and if it is unwound by
    compact unwind info, the text the unwinder gets is the whole segment, at offset 0
    from the image's base. It is never unwound with an [.eh_frame_hdr], a
    [.debug_frame] or a PE function table. *)
Theorem image_text_available header slide p key fp m
    (Hone : text_commands (image_commands memory header) = [p])
    (Hbuild : build_image (C := C) memory header slide = Some (key, fp, Some m)) :
  image_key memory header slide = Some key /\ key = seg_vmaddr memory p +64 slide /\
  avma_range m = Range key (key +64 seg_vmsize memory p) /\ base_avma m = key /\
  match unwind_data m with
  | CompactUnwindInfoAndEhFrame _ _ _ _ _ text_data =>
      text_bytes_of deref (base_svma m) text_data = Some (MkTextBytes 0 (slice_at memory key (seg_vmsize memory p)))
  | DwarfCfiIndexAndEhFrame _ _ _ | NoUnwindData => True
  | _ => False
  end.
Proof.
  unfold build_image, text_geometry in Hbuild. rewrite text_geometry_fold, Hone in Hbuild. cbn [last mbind option_bind] in Hbuild.
  unfold image_key. rewrite (find_text_one _ slide p Hone).
  set (f := find_sections memory slide (image_commands memory header)) in *.
  assert (f_text_segment f = Some (mapped memory (seg_vmaddr memory p +64 slide) (seg_vmsize memory p),
    Range (seg_vmaddr memory p) (seg_vmaddr memory p +64 seg_vmsize memory p))) as Hseg.
  { unfold f, find_sections. by rewrite find_sections_text, Hone. }
  destruct (_ && _); [done|]. simplify_eq. set (i := image_info (seg_vmaddr memory p) f).
  destruct (Module_new_data deref ("<image:" +:+ hex_address (seg_vmaddr memory p +64 slide) +:+ ">")
    (Range (seg_vmaddr memory p +64 slide) (seg_vmaddr memory p +64 slide +64 seg_vmsize memory p))
    (seg_vmaddr memory p +64 slide) i) as (-> & -> & -> & ->).
  split_and!; [done..|]. cbn [base_svma_of ModuleSectionInfo_explicit]. rewrite explicit_base_kept, explicit_data_cases.
  assert (unwind_info i = f_unwind_info f /\ eh_frame i = fst <$> f_eh_frame f /\ eh_frame_hdr i = None /\ debug_frame i = None)
    as (-> & -> & -> & ->) by done.
  destruct (f_unwind_info f) as [ui|].
  - unfold explicit_text, i. cbn [text_segment text_segment_svma image_info ex_base_svma]. rewrite Hseg. cbn [fmap option_fmap option_map fst snd].
    unfold text_bytes_of. cbn [mbind option_bind svma_range r_start td_bytes]. unfold checked_sub. rewrite Z.sub_diag. done.
  - destruct (f_eh_frame f) as [[eh r]|]; cbn [fmap option_fmap option_map fst snd].
    + unfold explicit_indexed. by destruct (try_new (MkUnwindSection EhFrame (deref eh) 8) _ _).
    + done.
Qed.
End one_text.

(** ** Loading and unloading *)

Section load_unload.
  Context {R Regs C : Type} `{Gimli C} (memory : Z -> Z).

(** C22: unloading an image takes back exactly what loading it published. When dyld
    reports an image with one [__TEXT] segment outside the initial batch, its module
    is published at its key and every other module stays; when dyld reports that it is
    about to be unloaded, the modules are what they were without one at the key. *)
Theorem image_load_unload boxed boxed2 header slide p key fp m
    (w : World (D := ModuleUnwindDataInternal Bytes) (R := R) (Regs := Regs) (C := C)) sp
    (Hr : represents w sp) (Hbatch : sp_batching sp = false) (Hheader : header <> 0)
    (Hone : text_commands memory (image_commands memory header) = [p])
    (Hbuild : build_image (C := C) memory header slide = Some (key, fp, Some m))
    (Hjit : sp_jit sp !! key = None)
    (Hroom : heap (st w) !! boxed = None /\ generations (st w) + 3 <= u64_MAX) :
  exists w1, on_add_image memory boxed header slide w = (Ok tt, w1) /\
    published (st w1) = <[key := m]> (published (st w)) /\
    (heap (st w1) !! boxed2 = None -> generations (st w1) + 2 <= u64_MAX ->
     exists w2, on_remove_image memory boxed2 header slide w1 = (Ok tt, w2) /\
       published (st w2) = delete key (published (st w))).
Proof.
  assert (image_key memory header slide = Some key /\ mod_start m = key) as [Hkey Hstart].
  { unfold build_image, text_geometry in Hbuild. rewrite text_geometry_fold, Hone in Hbuild. cbn [last mbind option_bind] in Hbuild.
    unfold image_key. rewrite (find_text_one _ _ slide p Hone). destruct (_ && _); [done|]. simplify_eq. split; [done|].
    unfold mod_start. by rewrite (proj1 (proj2 (Module_new_data _ _ _ _ _))). }
  destruct (add_image_step w sp boxed key fp m Hr) as (w1 & Hrun & Hr1).
  { refine (conj (conj (proj1 Hroom) _) (conj (conj Hstart Hjit) _)); [destruct Hroom; lia|]. by rewrite Hbatch. }
  exists w1. unfold on_add_image, on_remove_image. rewrite (proj2 (Z.eqb_neq header 0)), Hbuild, Hkey by done.
  cbn [spec_op] in Hr1. rewrite Hbatch in Hr1. split_and!; [done| |].
  - rewrite (rp_published _ _ Hr1), (rp_published _ _ Hr). cbn [sp_static sp_jit]. by rewrite insert_union_l.
  - intros Hbox Hgen. destruct (remove_image_step w1 _ boxed2 key Hr1) as (w2 & Hrun2 & Hr2); [split; [done|lia]|].
    exists w2. split; [done|]. rewrite (rp_published _ _ Hr2), (rp_published _ _ Hr). cbn [spec_op sp_static sp_jit].
    rewrite delete_insert_eq, delete_union. f_equal. symmetry. apply delete_id. by rewrite lookup_fmap, Hjit.
Qed.
End load_unload.

(** ** A concrete image at 65536: one [__TEXT] segment with its [__unwind_info] *)

Section example.
#[local] Instance example_gimli : Gimli unit :=
    Dwarf.example_gimli X86Dwarf.example_row_cfa X86Dwarf.example_row_rules.

Definition name16 (s : string) : list Z :=
  let b := bytes_of_string s in b ++ replicate (16 - length b) 0.

Definition example_section_header (name : string) (addr size : Z) : list Z :=
  name16 name ++ name16 "__TEXT" ++ to_le_bytes 8 addr ++ to_le_bytes 8 size ++ replicate 32 0.

Definition example_header : list Z :=
  replicate 16 0 ++ to_le_bytes 4 1 ++ replicate 12 0 ++
  to_le_bytes 4 LC_SEGMENT_64 ++ to_le_bytes 4 152 ++ name16 "__TEXT" ++ to_le_bytes 8 65536 ++ to_le_bytes 8 512 ++
  replicate 24 0 ++ to_le_bytes 4 1 ++ replicate 4 0 ++
  example_section_header "__unwind_info" 65900 4.

Definition example_memory (a : Z) : Z := if 65536 <=? a then default 0 (example_header !! Z.to_nat (a - 65536)) else 0.

Definition example_image := build_image (C := unit) example_memory 65536 0.

Lemma image_text_available_witness :
  exists key fp m, example_image = Some (key, fp, Some m) /\ image_key example_memory 65536 0 = Some key /\ key = 65536.
Proof.
  destruct example_image as [[[key fp] [m|]]|] eqn:E; [|by vm_compute in E..].
  exists key, fp, m. split; [done|].
  destruct (image_text_available example_memory 65536 0 65568 key fp m) as (Hkey & Heq & _).
  - by vm_compute.
  - exact E.
  - split; [exact Hkey|]. rewrite Heq. by vm_compute.
Defined.

Lemma image_load_unload_witness :
  exists key fp m w1, example_image = Some (key, fp, Some m) /\
    on_add_image example_memory 1%nat 65536 0
      (MkWorld Registry_new (state_new (D := ModuleUnwindDataInternal Bytes) (R := X86Rules.UnwindRuleX86_64)
        (Regs := X86Regs.UnwindRegsX86_64) (C := unit))) = (Ok tt, w1) /\ published (st w1) !! key = Some m.
Proof.
  destruct example_image as [[[key fp] [m|]]|] eqn:E; [|by vm_compute in E..].
  destruct (image_load_unload example_memory 1%nat 2%nat 65536 0 65568 key fp m
    (MkWorld Registry_new (state_new (D := ModuleUnwindDataInternal Bytes) (R := X86Rules.UnwindRuleX86_64)
        (Regs := X86Regs.UnwindRegsX86_64) (C := unit))) empty_spec) as (w1 & Hrun & Hpub & _).
  - apply initial_represents.
  - done.
  - done.
  - by vm_compute.
  - exact E.
  - apply lookup_empty.
  - split; [done|by vm_compute].
  - exists key, fp, m, w1. split_and!; [done|exact Hrun|]. rewrite Hpub. apply lookup_insert_eq.
Defined.
End example.
