(* ===== verification/PeImage.v ===== *)
(** * PE images

    Models [src/src/modules/pe.rs]: listing the modules of a Windows process, parsing
    the headers of each, and the section information they are unwound from. The
    Windows calls are arguments; headers and sections are read from a byte-addressed
    memory. *)
From S2P Require Import Prelude UnwindRule ModuleList Images Sections Dwarf Pe ModuleData Hazard State Registry Scan.

Definition SECTION_HEADER_SIZE : Z := 40.

(** ** Section information *)

Record PeSectionInfo : Type := MkPeSectionInfo {
  pe_base_svma : Z;
  s_pdata : option (Z * Bytes);
  s_xdata : option (Z * Bytes);
  s_rdata : option (Z * Bytes);
  s_text : option (Z * Bytes);
}.

(** [slot]: the field of a name, with what stores it back. *)
Definition slot (self : PeSectionInfo) (name : string) :
    option (option (Z * Bytes) * (option (Z * Bytes) -> PeSectionInfo)) :=
  let '(MkPeSectionInfo base pdata xdata rdata text) := self in
  if bool_decide (name = ".pdata")%string then Some (pdata, fun x => MkPeSectionInfo base x xdata rdata text)
  else if bool_decide (name = ".xdata")%string then Some (xdata, fun x => MkPeSectionInfo base pdata x rdata text)
  else if bool_decide (name = ".rdata")%string then Some (rdata, fun x => MkPeSectionInfo base pdata xdata x text)
  else if bool_decide (name = ".text")%string then Some (text, fun x => MkPeSectionInfo base pdata xdata rdata x)
  else None.

Definition pe_section_svma_range (name : string) : section_m PeSectionInfo (option range) := fun self =>
  let base := pe_base_svma self in
  match slot self name with
  | Some (Some (rva, bytes), _) =>
      let len := Z.of_nat (length (deref bytes)) in
      (Some (Range (base +64 rva) (base +64 rva +64 len)), self)
  | _ => (None, self)
  end.

Definition pe_section_data (name : string) : section_m PeSectionInfo (option Bytes) := fun self =>
  match slot self name with
  | Some (taken, store) => (snd <$> taken, store None)
  | None => (None, self)
  end.

#[export] Instance ModuleSectionInfo_pe : ModuleSectionInfo Bytes PeSectionInfo := {
  base_svma_of := pe_base_svma;
  section_svma_range := pe_section_svma_range;
  section_data := pe_section_data;
  segment_svma_range := default_segment_svma_range;
  segment_data := default_segment_data;
}.

(** ** Headers *)

Section pe.
  Context (memory : Z -> Z).

Definition read_u16 (base off : Z) : Z := word_at memory 2 (base + off).
Definition read_u32 (base off : Z) : Z := word_at memory 4 (base + off).

Definition section_name_eq (field name : list Z) : bool := name_eq 8 field name.

Definition pe_timestamp (base : Z) : Z :=
  if negb (read_u16 base 0 =? 0x5a4d) then 0
  else
    let e_lfanew := read_u32 base 0x3c in
    if negb (read_u32 base e_lfanew =? 0x00004550) then 0
    else read_u32 base (e_lfanew + 4 + 4).

(** The closure [sec]: the loop over the [n] section headers from [sh_off] on. *)
Fixpoint find_section (base size : Z) (n : nat) (sh_off : Z) (want : list Z) : option (Z * Bytes) :=
  match n with
  | O => None
  | S n =>
      let name := slice_at memory (base + sh_off) 8 in
      if section_name_eq name want then
        let virtual_size := read_u32 base (sh_off + 8) in
        let rva := read_u32 base (sh_off + 12) in
        let len := Z.min virtual_size (saturating_sub size rva) in
        if len =? 0 then None else Some (rva, Mapped (slice_at memory (base + rva) len))
      else find_section base size n (sh_off + SECTION_HEADER_SIZE) want
  end.

(** The section information of the image at [base], when its headers validate. *)
Definition pe_section_info (base size : Z) : option PeSectionInfo :=
  if negb (read_u16 base 0 =? 0x5a4d) then None
  else
    let e_lfanew := read_u32 base 0x3c in
    if negb (read_u32 base e_lfanew =? 0x00004550) then None
    else
      let file_header := e_lfanew + 4 in
      let num_sections := read_u16 base (file_header + 2) in
      let size_of_optional := read_u16 base (file_header + 16) in
      let optional_header := file_header + 20 in
      let section_table := optional_header + size_of_optional in
      let sec want := find_section base size (Z.to_nat num_sections) section_table (bytes_of_string want) in
      pdata ← sec ".pdata"%string;
      let xdata := sec ".xdata"%string in
      let rdata := sec ".rdata"%string in
      let text := sec ".text"%string in
      Some (MkPeSectionInfo base (Some pdata) xdata rdata text).

Section build.
  Context {C : Type} `{Gimli C}.

Definition build_pe_module (base size : Z) : option (Module_ (ModuleUnwindDataInternal Bytes)) :=
  info ← pe_section_info base size;
  Some (Module_new (C := C) deref ("<pe:" +:+ hex_address base +:+ ">")%string (Range base (base +64 size)) base info).
End build.
End pe.

(** ** Listing the modules of the process *)

Definition HMODULE_SIZE : Z := 8.

Inductive pin_event : Type :=
  | Pin (handle : Z)
  | Unpin (handle : Z).

Section enumerate.
  Context {C : Type} `{Gimli C} `{DefaultHasher} (memory : Z -> Z).
  (** [EnumProcessModules], on each attempt with a buffer of [cb] bytes: the handles it
      writes and the bytes it needs, or a failure. *)
  Context (EnumProcessModules : nat -> Z -> option (list Z * Z)).
  (** [GetModuleHandleExW]: the pinned module of an address; [GetModuleInformation]: its
      base and size. *)
  Context (GetModuleHandleExW : Z -> option Z) (GetModuleInformation : Z -> option (Z * Z)).

(** The loop over the attempts, which are at most [8]; [handles] is the buffer. *)
Fixpoint list_modules (attempts attempt : nat) (handles : list Z) : option (list Z) :=
  match attempts with
  | O => None
  | S attempts =>
      let cb := as_u 32 (Z.of_nat (length handles) * HMODULE_SIZE) in
      '(written, needed) ← EnumProcessModules attempt cb;
      let handles := written ++ drop (length written) handles in
      let count := Z.to_nat (needed / HMODULE_SIZE) in
      if (count <=? length handles)%nat then Some (take count handles)
      else list_modules attempts (S attempt) (take (count + 8) (handles ++ replicate (count + 8) 0))
  end.

(** What the loop over the handles has found so far, and what it has pinned. *)
Record Listing : Type := MkListing {
  li_current : gmap Z Z;
  li_new_modules : list (Z * Module_ (ModuleUnwindDataInternal Bytes));
  li_pins : list pin_event;
}.

Definition add_image (known : gmap Z Z) (pinned : Z) (l : Listing) : Listing :=
  match GetModuleInformation pinned with
  | None => l
  | Some (base, size) =>
      if base =? 0 then l
      else
        let key := base in
        let timestamp := pe_timestamp memory base in
        let fp := fingerprint_of [size; timestamp] [] in
        let current := <[key := fp]> (li_current l) in
        if bool_decide (known !! key <> Some fp) then
          match build_pe_module (C := C) memory base size with
          | Some module => MkListing current (li_new_modules l ++ [(key, module)]) (li_pins l)
          | None => MkListing current (li_new_modules l) (li_pins l)
          end
        else MkListing current (li_new_modules l) (li_pins l)
  end.

Definition log_pin (e : pin_event) (l : Listing) : Listing :=
  MkListing (li_current l) (li_new_modules l) (li_pins l ++ [e]).

Definition add_handle (known : gmap Z Z) (l : Listing) (hmod : Z) : Listing :=
  match GetModuleHandleExW hmod with
  | None => l
  | Some pinned =>
      if pinned =? 0 then l
      else log_pin (Unpin pinned) (add_image known pinned (log_pin (Pin pinned) l))
  end.

Definition enumerate (known : gmap Z Z) : option (EnumResult (ModuleUnwindDataInternal Bytes)) * list pin_event :=
  match list_modules 8 0 [] with
  | None => (None, [])
  | Some handles =>
      let l := foldl (add_handle known) (MkListing ∅ [] []) handles in
      (Some (MkEnumResult (li_current l) (li_new_modules l)), li_pins l)
  end.
End enumerate.

(** ** The sections of an image *)

Section sections_spec.
  Context {C : Type} `{Gimli C} (memory : Z -> Z) (Hmem : forall a, u8 (memory a)).

(** Section data that is memory of the image at its RVA. *)
Definition section_of_image (base size : Z) (s : Z * Bytes) : Prop :=
  exists len, s.2 = Mapped (slice_at memory (base + s.1) len) /\ u32 s.1 /\ 0 < len /\ s.1 + len <= size.

Lemma find_section_spec base size n sh_off want s :
  find_section memory base size n sh_off want = Some s -> section_of_image base size s.
Proof.
  revert sh_off. induction n as [|n IH]; intros sh_off; [done|]. cbn [find_section].
  destruct (section_name_eq _ _); [|apply IH]. set (rva := read_u32 memory base (sh_off + 12)).
  set (len := Z.min _ _). destruct (Z.eqb_spec len 0) as [|Hne]; [done|]. intros [= <-].
  exists len. cbn [fst snd]. unfold saturating_sub in len.
  pose proof (word_at_range memory 4 (base + (sh_off + 12)) Hmem) as Hrva. pose proof (word_at_range memory 4 (base + (sh_off + 8)) Hmem).
  unfold read_u32 in len, rva. fold rva in Hrva. unfold in_u. split_and!; try done; lia.
Qed.

(** A section as it is kept: its bytes with its RVA range. *)
Definition kept (s : Z * Bytes) : DataAtRvaRange Bytes :=
  MkDataAtRvaRange s.2 (Range s.1 (s.1 + Z.of_nat (length (deref s.2)))).

Lemma range_and_data_pe name (info : PeSectionInfo) base size :
  pe_base_svma info = base -> u64 base -> base + size < 2 ^ 64 -> size < 2 ^ 32 ->
  match slot info name with
  | Some (Some s, store) =>
      section_of_image base size s -> range_and_data name info = (Some (kept s), store None)
  | _ => range_and_data name info = (None, info)
  end.
Proof.
  intros Hbase Hu Hsize Hs32. unfold range_and_data. cbn [section_svma_range section_data base_svma_of ModuleSectionInfo_pe].
  unfold pe_section_svma_range, pe_section_data. destruct (slot info name) as [[[[rva bytes]|] store]|] eqn:Es; [|done..].
  intros (len & Hbytes & Hrva & Hlen & Hin). cbn [fst snd] in *. subst bytes. cbn [deref]. rewrite length_slice_at, Z2Nat.id by lia.
  rewrite Hbase. cbn [r_start r_end mbind option_bind]. unfold in_u in *.
  assert (base +64 rva -64 base = rva) as -> by (unfold_words; rewrite (Z.mod_small (base + rva)), Z.mod_small; lia).
  assert (base +64 rva +64 len -64 base = rva + len) as ->.
  { unfold_words. rewrite (Z.mod_small (base + rva)), (Z.mod_small (base + rva + len)), Z.mod_small; lia. }
  assert (try_u 32 rva = Some rva) as -> by (apply try_u_Some; unfold in_u; lia). cbn [mbind option_bind].
  assert (try_u 32 (rva + len) = Some (rva + len)) as -> by (apply try_u_Some; unfold in_u; lia). cbn [mbind option_bind].
  unfold kept. cbn [fst snd deref fmap option_fmap option_map]. rewrite length_slice_at, Z2Nat.id by lia. by rewrite Es.
Qed.

Lemma range_and_data_slot name (info : PeSectionInfo) base size o store :
  pe_base_svma info = base -> u64 base -> base + size < 2 ^ 64 -> size < 2 ^ 32 ->
  slot info name = Some (o, store) -> (forall s, o = Some s -> section_of_image base size s) ->
  range_and_data name info = (kept <$> o, match o with Some _ => store None | None => info end).
Proof.
  intros Hb Hu He Hs Hslot Ho. pose proof (range_and_data_pe name info base size Hb Hu He Hs) as Hr.
  rewrite Hslot in Hr. destruct o as [s|]; [by apply Hr, Ho|done].
Qed.
End sections_spec.

(** ** A module's memory by relative address *)

Section memory_spec.
  Context {C : Type} `{Gimli C} (memory : Z -> Z) (Hmem : forall a, u8 (memory a)).

Lemma kept_memory base size s a :
  section_of_image memory base size s -> size < 2 ^ 32 -> u32 a ->
  memory_at_rva deref (kept s) a =
    (if range_contains (rva_range (kept s)) a
     then Some (Some (slice_at memory (base + a) (r_end (rva_range (kept s)) - a))) else None) /\
  0 <= r_start (rva_range (kept s)) /\ r_end (rva_range (kept s)) <= size.
Proof.
  destruct s as [rva bytes]. intros (len & Hb & Hrva & Hlen & Hsize) Hs32 Ha. cbn [fst snd] in *. subst bytes.
  unfold memory_at_rva, kept. cbn [rva_range data deref r_start r_end fst snd]. rewrite length_slice_at, Z2Nat.id by lia.
  unfold in_u in *. split; [|lia]. destruct (range_contains _ a) eqn:Ec; [|done]. apply andb_true_iff in Ec as [H1%Z.leb_le H2%Z.ltb_lt].
  cbn [r_start r_end] in *. assert (wrapping_sub 32 a rva = a - rva) as -> by (unfold_words; rewrite Z.mod_small; lia).
  rewrite (proj2 (Nat.leb_le _ _)) by lia. rewrite slice_at_drop by lia. do 3 f_equal; lia.
Qed.

(** What a PE module knows of its image is what the image holds. A module built of
    an image below 4 GiB is unwound by its function table, and a lookup of memory by
    relative address in any of its sections never panics: it finds the image's bytes
    from that address to the end of the section, or nothing when the section does not
    contain the address; every section lies inside the image. *)
Theorem pe_memory_of_image base size m
    (Hbase : u64 base) (Hend : base + size < 2 ^ 64) (Hsize : size < 2 ^ 32)
    (Hm : build_pe_module (C := C) memory base size = Some m) :
  avma_range m = Range base (base +64 size) /\ base_avma m = base /\
  exists pdata rdata xdata text, unwind_data m = PeUnwindInfoData pdata rdata xdata text /\
    forall d a, d ∈ option_list rdata ++ option_list xdata ++ option_list text -> u32 a ->
      memory_at_rva deref d a =
        (if range_contains (rva_range d) a
         then Some (Some (slice_at memory (base + a) (r_end (rva_range d) - a))) else None) /\
      0 <= r_start (rva_range d) /\ r_end (rva_range d) <= size.
Proof.
  unfold build_pe_module in Hm. destruct (pe_section_info memory base size) as [info|] eqn:Ei; [|done].
  cbn [mbind option_bind] in Hm. injection Hm as <-.
  destruct (Module_new_data deref ("<pe:" +:+ hex_address base +:+ ">") (Range base (base +64 size)) base info) as (-> & -> & -> & _).
  split; [done|]. split; [done|]. unfold pe_section_info in Ei.
  destruct (negb _); [done|]. destruct (negb _); [done|]. cbv zeta in Ei.
  set (sec := find_section memory base size _ _) in Ei.
  destruct (sec (bytes_of_string ".pdata")) as [pd|]; [|done]. cbn [mbind option_bind] in Ei. injection Ei as <-.
  assert (Hsec : forall want s, sec want = Some s -> section_of_image memory base size s).
  { intros want s. apply find_section_spec, Hmem. }
  set (xd := sec (bytes_of_string ".xdata")). set (rd := sec (bytes_of_string ".rdata")). set (tx := sec (bytes_of_string ".text")).
  exists pd.2, (kept <$> rd), (kept <$> xd), (kept <$> tx). split.
  - unfold ModuleUnwindDataInternal_new. cbn [section_data ModuleSectionInfo_pe].
    change (pe_section_data "__unwind_info" (MkPeSectionInfo base (Some pd) xd rd tx)) with
      (@None Bytes, MkPeSectionInfo base (Some pd) xd rd tx). cbv beta iota zeta.
    change (pe_section_data ".pdata" (MkPeSectionInfo base (Some pd) xd rd tx)) with
      (Some pd.2, MkPeSectionInfo base None xd rd tx). cbv beta iota zeta. unfold pe_data.
    rewrite (range_and_data_slot memory ".rdata" _ base size rd (fun x => MkPeSectionInfo base None xd x tx));
      [|done..|by intros s; apply Hsec]. cbv beta iota zeta.
    assert ((match rd with Some _ => MkPeSectionInfo base None xd None tx | None => MkPeSectionInfo base None xd rd tx end) =
      MkPeSectionInfo base None xd None tx) as -> by by destruct rd.
    rewrite (range_and_data_slot memory ".xdata" _ base size xd (fun x => MkPeSectionInfo base None x None tx));
      [|done..|by intros s; apply Hsec]. cbv beta iota zeta.
    assert ((match xd with Some _ => MkPeSectionInfo base None None None tx | None => MkPeSectionInfo base None xd None tx end) =
      MkPeSectionInfo base None None None tx) as -> by by destruct xd.
    by rewrite (range_and_data_slot memory ".text" _ base size tx (fun x => MkPeSectionInfo base None None None x));
      [|done..|by intros s; apply Hsec].
  - intros d a Hd Ha. assert (exists s, d = kept s /\ section_of_image memory base size s) as (s & -> & Hs).
    { destruct rd eqn:E1, xd eqn:E2, tx eqn:E3; cbn in Hd;
        repeat (apply elem_of_cons in Hd as [->|Hd]; [eexists; split; [done|by eapply Hsec]|]); by apply not_elem_of_nil in Hd. }
    by apply kept_memory.
Qed.
End memory_spec.

(** ** Listing *)

Section listing_spec.
  Context (EnumProcessModules : nat -> Z -> option (list Z * Z)).
  (** The process's modules when the attempts are made. *)
  Context (L : nat -> list Z).

(** What Windows documents: the call fills the buffer with the first handles and says
    how many bytes all of them take. There are far fewer than 2^28 modules. *)
Record lists_modules : Prop := {
  lm_call : forall i cb, EnumProcessModules i cb = Some (take (Z.to_nat (cb / HMODULE_SIZE)) (L i), HMODULE_SIZE * Z.of_nat (length (L i)));
  lm_few : forall i, Z.of_nat (length (L i)) < 2 ^ 28;
}.

(** One attempt: the whole list when it fits, else a buffer with room for eight more. *)
Lemma list_modules_step attempts i handles :
  lists_modules -> Z.of_nat (length handles) < 2 ^ 28 + 8 ->
  exists handles', length handles' = (length (L i) + 8)%nat /\
    list_modules EnumProcessModules (S attempts) i handles =
      if (length (L i) <=? length handles)%nat then Some (L i)
      else list_modules EnumProcessModules attempts (S i) handles'.
Proof.
  intros [Hcall Hfew] Hlen. cbn [list_modules]. rewrite Hcall. cbn [mbind option_bind].
  specialize (Hfew i). unfold HMODULE_SIZE.
  assert (as_u 32 (Z.of_nat (length handles) * 8) / 8 = Z.of_nat (length handles)) as ->.
  { rewrite as_u_small by (unfold in_u; lia). by rewrite Z.div_mul. }
  rewrite Nat2Z.id, (Z.mul_comm 8), Z.div_mul, Nat2Z.id by done.
  set (buffer := take (length handles) (L i) ++ drop (length (take (length handles) (L i))) handles).
  assert (length buffer = length handles) as Hbuf.
  { unfold buffer. rewrite length_app, length_drop, length_take. lia. }
  rewrite Hbuf. eexists. split; cycle 1.
  { destruct (length (L i) <=? length handles)%nat eqn:E; [|reflexivity]. bool_to_prop. f_equal. unfold buffer.
    rewrite (take_ge (L i)) by lia. by rewrite take_app_length. }
  rewrite length_take, length_app, length_replicate. lia.
Qed.

Lemma list_modules_run attempts i handles :
  lists_modules -> Z.of_nat (length handles) < 2 ^ 28 + 8 ->
  (forall hs, list_modules EnumProcessModules attempts i handles = Some hs ->
     exists j, (i <= j < i + attempts)%nat /\ hs = L j) /\
  (forall j, (i < j < i + attempts)%nat -> (length (L j) <= length (L (pred j)) + 8)%nat ->
     exists hs, list_modules EnumProcessModules attempts i handles = Some hs).
Proof.
  intros Hl. revert i handles. induction attempts as [|attempts IH]; intros i handles Hlen; [split; [done|lia]|].
  destruct (list_modules_step attempts i handles Hl Hlen) as (handles' & Hlen' & ->).
  pose proof (lm_few Hl i) as Hfew. destruct (IH (S i) handles') as [IH1 IH2]; [lia|].
  destruct (length (L i) <=? length handles)%nat eqn:E.
  - split; [intros hs [= <-]; exists i; split; [lia|done]|eauto].
  - split.
    + intros hs Hs. destruct (IH1 hs Hs) as (j & Hj & ->). exists j. split; [lia|done].
    + intros j Hj Hle. destruct (decide (j = S i)) as [->|Hne]; [|apply (IH2 j); [lia|done]].
      destruct attempts as [|attempts]; [lia|].
      destruct (list_modules_step attempts (S i) handles' Hl) as (h2 & _ & ->); [lia|].
      cbn [pred] in Hle. rewrite (proj2 (Nat.leb_le _ _)) by lia. eauto.
Qed.

(** C40: listing a process's modules ends with a complete list. The list that is
    returned is all the modules there were on one of the eight attempts, never a
    prefix; and there is one whenever some attempt but the first finds at most eight
    modules more than the one before it. *)
Theorem list_modules_complete (Hapi : lists_modules) :
  (forall hs, list_modules EnumProcessModules 8 0 [] = Some hs -> exists i, (i < 8)%nat /\ hs = L i) /\
  (forall i, (0 < i < 8)%nat -> (length (L i) <= length (L (pred i)) + 8)%nat ->
     exists hs, list_modules EnumProcessModules 8 0 [] = Some hs).
Proof.
  destruct (list_modules_run 8 0 [] Hapi) as [H1 H2]; [cbn; lia|]. split.
  - intros hs Hs. destruct (H1 hs Hs) as (i & ? & ->). exists i. split; [lia|done].
  - intros i Hi. apply H2. lia.
Qed.
End listing_spec.

(** ** What an enumeration finds *)

Section enumerate_spec.
  Context {C : Type} `{Gimli C} `{DefaultHasher} (memory : Z -> Z).
  Context (EnumProcessModules : nat -> Z -> option (list Z * Z)).
  Context (GetModuleHandleExW : Z -> option Z) (GetModuleInformation : Z -> option (Z * Z)).

(** A handle by itself: the module it pins, and the image it stands for. *)
Definition pinned_by (hmod : Z) : option Z :=
  pinned ← GetModuleHandleExW hmod;
  if pinned =? 0 then None else Some pinned.

Definition pe_image_of (pinned : Z) : option (Z * Z * option (Module_ (ModuleUnwindDataInternal Bytes))) :=
  '(base, size) ← GetModuleInformation pinned;
  if base =? 0 then None
  else Some (base, fingerprint_of [size; pe_timestamp memory base] [], build_pe_module (C := C) memory base size).

Definition pe_images (handles : list Z) : list (Z * Z * option (Module_ (ModuleUnwindDataInternal Bytes))) :=
  omap pe_image_of (omap pinned_by handles).

(** Every module is pinned before and released after it is looked at. *)
Definition pins_of (handles : list Z) : list pin_event := omap pinned_by handles ≫= fun p => [Pin p; Unpin p].

Lemma add_image_image known pinned l :
  add_image (C := C) memory GetModuleInformation known pinned l =
    MkListing (match pe_image_of pinned with Some (k, fp, _) => <[k := fp]> (li_current l) | None => li_current l end)
      (li_new_modules l ++ new_modules_of known (option_list (pe_image_of pinned))) (li_pins l).
Proof.
  unfold add_image, pe_image_of. destruct (GetModuleInformation pinned) as [[base size]|]; cbn [mbind option_bind];
    [|destruct l; cbn; by rewrite app_nil_r].
  destruct (base =? 0); [destruct l; cbn; by rewrite app_nil_r|]. unfold new_modules_of. simpl.
  destruct (decide (known !! base = Some (fingerprint_of [size; pe_timestamp memory base] []))) as [Hk|Hk].
  - rewrite bool_decide_false by tauto. rewrite (bool_decide_true (_ = _)) by done. by rewrite app_nil_r.
  - rewrite bool_decide_true by done. rewrite (bool_decide_false (_ = _)) by done.
    destruct (build_pe_module memory base size); cbn; [done|by rewrite app_nil_r].
Qed.

Lemma add_handle_image known h l :
  add_handle (C := C) memory GetModuleHandleExW GetModuleInformation known l h =
    match pinned_by h with
    | Some p =>
        MkListing (match pe_image_of p with Some (k, fp, _) => <[k := fp]> (li_current l) | None => li_current l end)
          (li_new_modules l ++ new_modules_of known (option_list (pe_image_of p))) (li_pins l ++ [Pin p; Unpin p])
    | None => l
    end.
Proof.
  unfold add_handle, pinned_by. destruct (GetModuleHandleExW h) as [p|]; cbn [mbind option_bind]; [|done].
  destruct (p =? 0); [done|]. rewrite add_image_image. unfold log_pin. cbn [li_current li_new_modules li_pins].
  by rewrite <- app_assoc.
Qed.

Lemma new_modules_app known imgs1 imgs2 :
  new_modules_of (D := ModuleUnwindDataInternal Bytes) known (imgs1 ++ imgs2) = new_modules_of known imgs1 ++ new_modules_of known imgs2.
Proof. apply omap_app. Qed.

Lemma enumerate_finds handles known :
  list_modules EnumProcessModules 8 0 [] = Some handles ->
  enumerate (C := C) memory EnumProcessModules GetModuleHandleExW GetModuleInformation known =
    (Some (MkEnumResult (keys_of (pe_images handles)) (new_modules_of known (pe_images handles))), pins_of handles).
Proof.
  intros Hh. unfold enumerate. rewrite Hh. clear Hh.
  assert (forall l, foldl (add_handle (C := C) memory GetModuleHandleExW GetModuleInformation known) l handles =
    MkListing (foldl (fun cur '(k, fp, _) => <[k := fp]> cur) (li_current l) (pe_images handles))
      (li_new_modules l ++ new_modules_of known (pe_images handles)) (li_pins l ++ pins_of handles)) as Hfold.
  { unfold pe_images, pins_of. induction handles as [|h handles IH]; intros l; cbn [foldl].
    { destruct l. cbn. by rewrite !app_nil_r. }
    rewrite IH, add_handle_image. change (omap pinned_by (h :: handles)) with
      (match pinned_by h with Some p => p :: omap pinned_by handles | None => omap pinned_by handles end).
    destruct (pinned_by h) as [p|]; [|done]. cbn [li_current li_new_modules li_pins].
    change (omap pe_image_of (p :: omap pinned_by handles)) with
      (match pe_image_of p with Some i => i :: omap pe_image_of (omap pinned_by handles) | None => omap pe_image_of (omap pinned_by handles) end).
    destruct (pe_image_of p) as [i|]; cbn [option_list].
    - change (i :: omap pe_image_of (omap pinned_by handles)) with ([i] ++ omap pe_image_of (omap pinned_by handles)).
      rewrite new_modules_app. destruct i as [[k fp] m]. cbn. by rewrite <- !app_assoc.
    - cbn. by rewrite app_nil_r, <- app_assoc. }
  by rewrite Hfold.
Qed.

Lemma pe_images_start handles k fp m : (k, fp, Some m) ∈ pe_images handles -> mod_start m = k.
Proof.
  intros Hin. apply list_elem_of_omap in Hin as (p & _ & Hp). unfold pe_image_of in Hp.
  destruct (GetModuleInformation p) as [[base size]|]; [|done]. cbn [mbind option_bind] in Hp.
  destruct (base =? 0); [done|]. injection Hp as <- _ Hm. unfold build_pe_module in Hm.
  destruct (pe_section_info memory base size) as [info|]; [|done]. cbn [mbind option_bind] in Hm. injection Hm as <-.
  unfold mod_start. by rewrite (proj1 (proj2 (Module_new_data deref _ _ _ _))).
Qed.
End enumerate_spec.

Section refresh.
  Context {R Regs C : Type} `{Gimli C} `{DefaultHasher} (memory : Z -> Z).
  Context (hash_iter : gmap Z Z -> list (Z * Z)) (hash_iter_perm : forall m, hash_iter m ≡ₚ map_to_list m).
  Context (EnumProcessModules : nat -> Z -> option (list Z * Z)).
  Context (GetModuleHandleExW : Z -> option Z) (GetModuleInformation : Z -> option (Z * Z)).

(** C21: on Windows a refresh leaves exactly the modules of the process. When the
    modules are listed, what was published before and the JIT modules turn into the
    modules that a scan from nothing would build for the images pinned now, and the
    JIT modules; and every module that the scan pins is released before the next one
    is looked at. When they cannot be listed, nothing at all changes. *)
Theorem pe_refresh_exact boxed imgs (w : World (R := R) (Regs := Regs) (C := C)) sp
    (Hr : represents w sp) (Hshow : shows sp imgs) (Hbox : heap (st w) !! boxed = None) :
  match list_modules EnumProcessModules 8 0 [] with
  | Some handles =>
      let imgs2 := pe_images (C := C) memory GetModuleHandleExW GetModuleInformation handles in
      loader_ok sp imgs None imgs2 ->
      generations (st w) + Z.of_nat (S (2 * base.size (sp_known sp) + length imgs2)) <= u64_MAX ->
      (forall known, (enumerate (C := C) memory EnumProcessModules GetModuleHandleExW GetModuleInformation known).2 =
        omap (pinned_by GetModuleHandleExW) handles ≫= fun p => [Pin p; Unpin p]) /\
      exists w' sp',
        refresh hash_iter boxed None (fun known =>
          (enumerate (C := C) memory EnumProcessModules GetModuleHandleExW GetModuleInformation known).1) w = (Ok tt, w') /\
        represents w' sp' /\ shows sp' imgs2 /\ sp_jit sp' = sp_jit sp /\
        published (st w') = loaded imgs2 ∪ (fst <$> sp_jit sp)
  | None => refresh hash_iter boxed None (fun known =>
      (enumerate (C := C) memory EnumProcessModules GetModuleHandleExW GetModuleInformation known).1) w = (Ok tt, w)
  end.
Proof.
  destruct (list_modules EnumProcessModules 8 0 []) as [handles|] eqn:Eh.
  - intros imgs2 Hload Hgen. split.
    { intros known. by rewrite (enumerate_finds _ _ _ _ _ _ Eh). }
    apply (refresh_exact _ hash_iter_perm _ _ _ imgs); try done.
    + intros known. by rewrite (enumerate_finds _ _ _ _ _ _ Eh).
    + intros k fp m. apply pe_images_start.
  - apply refresh_keeps. intros known. unfold enumerate. by rewrite Eh.
Qed.
End refresh.

(** ** A concrete process: one image of 4 KiB at 65536, with a function table at RVA 512 *)

Section example.
#[local] Instance example_gimli : Gimli unit :=
    Dwarf.example_gimli X86Dwarf.example_row_cfa X86Dwarf.example_row_rules.
#[local] Instance example_hasher : DefaultHasher := {|
    hasher := Z; hasher_new := 0; hasher_write := foldl (fun h b => 31 * h + b); hasher_finish := as_u 64 |}.

Definition example_headers : list Z :=
  [0x4d; 0x5a] ++ replicate 58 0 ++ to_le_bytes 4 64 ++
  [0x50; 0x45; 0; 0] ++ [0x64; 0x86; 1; 0] ++ to_le_bytes 4 1700000000 ++ replicate 12 0 ++
  bytes_of_string ".pdata" ++ [0; 0] ++ to_le_bytes 4 12 ++ to_le_bytes 4 512.
Definition example_memory (a : Z) : Z :=
  if 65536 <=? a then as_u 8 (default 7 (example_headers !! Z.to_nat (a - 65536))) else 0.
Definition example_modules (_ : nat) : list Z := [65536].
Definition example_EnumProcessModules (attempt : nat) (cb : Z) : option (list Z * Z) :=
  Some (take (Z.to_nat (cb / HMODULE_SIZE)) (example_modules attempt), HMODULE_SIZE * Z.of_nat (length (example_modules attempt))).
Definition example_GetModuleInformation (pinned : Z) : option (Z * Z) := Some (pinned, 4096).

Lemma example_memory_byte a : u8 (example_memory a).
Proof. unfold example_memory. case_match; [apply as_u_range|]; unfold in_u; lia. Qed.

Lemma pe_memory_of_image_witness :
  exists m, build_pe_module (C := unit) example_memory 65536 4096 = Some m /\ base_avma m = 65536.
Proof.
  destruct (build_pe_module (C := unit) example_memory 65536 4096) as [m|] eqn:E; [|by vm_compute in E].
  exists m. split; [done|].
  apply (pe_memory_of_image (C := unit) example_memory example_memory_byte 65536 4096 m); [unfold in_u; lia|lia|lia|done].
Defined.

Lemma list_modules_complete_witness :
  exists i, (i < 8)%nat /\ [65536] = example_modules i.
Proof.
  destruct (list_modules_complete example_EnumProcessModules example_modules) as [H _]; [done|].
  apply H. reflexivity.
Defined.

Lemma pe_refresh_exact_witness :
  exists w', refresh map_to_list 1%nat None (fun known =>
      (enumerate (C := unit) example_memory example_EnumProcessModules Some example_GetModuleInformation known).1)
      (MkWorld Registry_new (state_new (D := ModuleUnwindDataInternal Bytes) (R := X86Rules.UnwindRuleX86_64)
        (Regs := X86Regs.UnwindRegsX86_64) (C := unit))) = (Ok tt, w') /\
    published (st w') = loaded (pe_images (C := unit) example_memory Some example_GetModuleInformation [65536]) ∪ ∅.
Proof.
  destruct (pe_refresh_exact (R := X86Rules.UnwindRuleX86_64) (Regs := X86Regs.UnwindRegsX86_64) (C := unit) example_memory
    map_to_list (fun m => reflexivity _) example_EnumProcessModules Some example_GetModuleInformation 1%nat []
    (MkWorld Registry_new state_new) empty_spec) as (_ & w' & sp' & Hrun & _ & _ & _ & Hpub).
  - apply initial_represents.
  - split_and!; [split; [done|]|done..]. intros k fp m Hin. by apply not_elem_of_nil in Hin.
  - done.
  - split; [split; [constructor|by apply NoDup_singleton]|..].
    + intros k fp m1 m2 Hin. by apply not_elem_of_nil in Hin.
    + intros k _. apply lookup_empty.
    + intros [? [=]].
  - by vm_compute.
  - exists w'. split; [exact Hrun|]. rewrite Hpub. done.
Defined.
End example.
