(* ===== verification/Cursor.v ===== *)
(** * The unwind cursor

    Models [src/src/cursor.rs] and the null checks of the C entry points in
    [src/src/lib.rs]. Cursors, contexts and outputs are words of one process
    memory, the memory the stack reader reads too, so that any of them may alias. *)
From S2P Require Import Prelude CodeAddress UnwindRule Generation ModuleList RuleCache.
From S2P Require Import X86Regs X86Rules Unwinder Arch StackBounds Hazard State.
From Stdlib Require Import FunctionalExtensionality.

Definition CURSOR_MAGIC : Z := 0x4648435552530001.

(** [FhCursor] without its reserved words. *)
Record FhCursor : Type := MkFhCursor { magic : Z; cursor_slot : Z; nonce : Z }.

Definition dead : FhCursor := MkFhCursor 0 u64_MAX 0.

(** ** Process memory: a 64-bit word at every address *)

Definition memory : Type := Z -> Z.

Definition write (addr v : Z) (m : memory) : memory := fun a => if a =? addr then v else m a.

(** [cur.read()] and [cur.write(c)]. *)
Definition read_cursor (m : memory) (cur : Z) : FhCursor :=
  MkFhCursor (m cur) (m (cur + 8)) (m (cur + 16)).
Definition write_cursor (cur : Z) (c : FhCursor) (m : memory) : memory :=
  foldr (fun i => write (cur + 24 + 8 * i) 0)
    (write (cur + 16) (nonce c) (write (cur + 8) (cursor_slot c) (write cur (magic c) m)))
    [0; 1; 2; 3; 4].

Definition read_context (m : memory) (ctx : Z) : FhContext :=
  MkFhContext (m ctx) (m (ctx + 8)) (m (ctx + 16)) (m (ctx + 24)) (m (ctx + 32)).

Section Cursor.
  Context {D R Regs C : Type} `{UnwindRule R Regs} `{Native Regs}.

Abbreviation lib_state := (state (D := D) (R := R) (Regs := Regs) (C := C)).
Abbreviation walk_state := (SlotInner (R := R) (Regs := Regs) (C := C)).

(** The library's statics, the current thread's registered bounds and the memory. *)
Record world : Type := MkWorld {
  statics : lib_state;
  bounds : Z * Z;
  mem : memory;
}.

Abbreviation call := (ST world crash).

Definition set_statics s (w : world) : world := MkWorld s (bounds w) (mem w).
Definition set_mem m (w : world) : world := MkWorld (statics w) (bounds w) m.

(** The unwinder's [unwind_frame_signal_aware]. *)
Context (signal_aware : UnwinderInternal D -> FrameAddress -> stack_reader ->
  ST (UState R Regs C) (fault Error) (option (Z * bool))).

Definition is_live (s : lib_state) (c : FhCursor) : bool :=
  (magic c =? CURSOR_MAGIC) && negb (cursor_slot c =? u64_MAX) &&
  nonce_matches s (Z.to_nat (cursor_slot c)) (nonce c).

(** ** [cursor_init_bounds2] and its shorter forms *)

Definition cursor_init_bounds2 (cur ctx stack_lo stack_hi stack_lo2 stack_hi2 : Z) : call Z :=
  _ ← st_modify (fun w => set_mem (write_cursor cur dead (mem w)) w);
  w ← st_get;
  let ctx := read_context (mem w) ctx in
  let '(claimed, s) := claim_slot (statics w) in
  _ ← st_modify (set_statics s);
  match claimed with
  | None => mret (-1)
  | Some (slot_idx, nonce) =>
      let '(snap, s) := acquire_snapshot slot_idx s in
      _ ← st_modify (set_statics s);
      match snap with
      | None =>
          _ ← st_modify (set_statics (release_slot slot_idx nonce s));
          mret (-2)
      | Some p =>
          snapshot ← match heap s !! p with
                     | Some snapshot => mret snapshot
                     | None => st_throw UseAfterFree
                     end;
          let mask := ptr_auth_mask (max_code_addr snapshot) in
          let sp0 := context_sp ctx in
          let '(lo, hi) :=
            if stack_lo <? stack_hi then (stack_lo, stack_hi) else stack_window (bounds w) sp0 in
          match slot s slot_idx with
          | None =>
              _ ← st_modify (set_statics (release_slot slot_idx nonce s));
              mret (-3)
          | Some _ =>
              let '(lo2, hi2) :=
                if stack_lo2 <? stack_hi2 then (stack_lo2, stack_hi2) else (0, 0) in
              _ ← st_modify (set_statics (update_slot slot_idx (fun sl =>
                    MkSlot (in_use sl) (seq sl) (hazard sl)
                      (MkSlotInner (slot_cache (inner sl)) (make_regs ctx mask)
                         (initial_frame_address ctx) (context_ip ctx) false (Some p)
                         lo hi lo2 hi2)) s));
              _ ← st_modify (fun w => set_mem
                    (write_cursor cur (MkFhCursor CURSOR_MAGIC (Z.of_nat slot_idx) nonce) (mem w)) w);
              mret 0
          end
      end
  end.

Definition cursor_init_bounds (cur ctx stack_lo stack_hi : Z) : call Z :=
  cursor_init_bounds2 cur ctx stack_lo stack_hi 0 0.

Definition cursor_init (cur ctx : Z) : call Z := cursor_init_bounds cur ctx 0 0.

(** ** [step] *)

(** The [read_stack] closure of a walk with the windows of [i]. *)
Definition read_stack (i : walk_state) (m : memory) : stack_reader := fun addr =>
  let end_ := saturating_add 64 addr 8 in
  let in_window := (stack_lo i <=? addr) && (end_ <=? stack_hi i) in
  let in_window2 := (stack_lo2 i <=? addr) && (end_ <=? stack_hi2 i) in
  if negb (in_window || in_window2) || negb (Z.land addr 7 =? 0) then None
  else Some (m addr).

Definition with_progress (i : walk_state) (regs : Regs) (cache : Cache R C) (address : FrameAddress)
    (ip : Z) (is_done : bool) : walk_state :=
  MkSlotInner cache regs address ip is_done (snapshot i)
    (stack_lo i) (stack_hi i) (stack_lo2 i) (stack_hi2 i).

(** The end of [step]: unwinds the current frame and records the caller's. The
    return code and the slot's new state. *)
Definition unwind_current (u : UnwinderInternal D) (reader : stack_reader) (i : walk_state) :
    result crash (Z * walk_state) :=
  let '(res, s) := signal_aware u (cur_addr i) reader (MkUState (slot_regs i) (slot_cache i)) in
  let ended := (0, with_progress i (st_regs s) (st_cache s) (cur_addr i) (cur_ip i) true) in
  match res with
  | Ok (Some (return_address, interrupted)) =>
      match NonZeroU64_new return_address with
      | Some ra =>
          let address := if interrupted : bool then from_instruction_pointer ra else ReturnAddress ra in
          Ok (1, with_progress i (st_regs s) (st_cache s) address ra (done i))
      | None => Ok ended
      end
  | Ok None => Ok ended
  | Err (Fail _) => Ok ended
  | Err Panic => Err Panics
  end.

(** The part of [step] after the outputs: past a signal trampoline the walk goes on
    from the interrupted registers. *)
Definition advance (u : UnwinderInternal D) (reader : stack_reader) (i : walk_state) :
    result crash (Z * walk_state) :=
  match sigreturn with
  | Some (is_trampoline, restore) =>
      if is_trampoline (cur_ip i) : bool then
        let '(restored, regs) := restore reader (slot_regs i) in
        let ended := (0, with_progress i regs (slot_cache i) (cur_addr i) (cur_ip i) true) in
        match restored with
        | Some pc =>
            if negb (pc =? 0) then
              Ok (1, with_progress i regs (slot_cache i) (from_instruction_pointer pc) pc (done i))
            else Ok ended
        | None => Ok ended
        end
      else unwind_current u reader i
  | None => unwind_current u reader i
  end.

Definition set_inner (i : walk_state) (sl : Slot (R := R) (Regs := Regs) (C := C)) : Slot :=
  MkSlot (in_use sl) (seq sl) (hazard sl) i.

(** [out.write(v)]. *)
Definition output (out v : Z) : call unit := st_modify (fun w => set_mem (write out v (mem w)) w).

Definition step (cur out_ip out_sp : Z) : call Z :=
  _ ← output out_ip 0;
  _ ← output out_sp 0;
  w ← st_get;
  let c := read_cursor (mem w) cur in
  if negb (is_live (statics w) c) then mret (-1)
  else
    let slot_idx := Z.to_nat (cursor_slot c) in
    match slot (statics w) slot_idx with
    | None => mret (-1)
    | Some sl =>
        let i := inner sl in
        if done i then mret 0
        else
          match snapshot i with
          | None => mret (-1)
          | Some p =>
              _ ← output out_ip (cur_ip i);
              _ ← output out_sp (native_sp (slot_regs i));
              w ← st_get;
              match heap (statics w) !! p with
              | None => st_throw UseAfterFree
              | Some snap =>
                  '(code, i') ← st_lift (advance (unw snap) (read_stack i (mem w)) i);
                  _ ← st_modify (set_statics (update_slot slot_idx (set_inner i') (statics w)));
                  mret code
              end
          end
    end.

Definition get_reg (cur out_ip out_sp : Z) : call unit :=
  _ ← output out_ip 0;
  _ ← output out_sp 0;
  w ← st_get;
  let c := read_cursor (mem w) cur in
  if negb (is_live (statics w) c) then mret tt
  else
    match slot (statics w) (Z.to_nat (cursor_slot c)) with
    | None => mret tt
    | Some sl =>
        _ ← output out_ip (cur_ip (inner sl));
        output out_sp (native_sp (slot_regs (inner sl)))
    end.

Definition cursor_fini (cur : Z) : call unit :=
  w ← st_get;
  let c := read_cursor (mem w) cur in
  _ ← (if (magic c =? CURSOR_MAGIC) && negb (cursor_slot c =? u64_MAX) then
         st_modify (set_statics (release_slot (Z.to_nat (cursor_slot c)) (nonce c) (statics w)))
       else mret tt);
  st_modify (fun w => set_mem (write_cursor cur dead (mem w)) w).

(** ** The C entry points; a null pointer is 0 *)

Definition fh_cursor_init (cur ctx : Z) : call Z :=
  if (cur =? 0) || (ctx =? 0) then mret (-100) else cursor_init cur ctx.
Definition fh_cursor_init_bounds (cur ctx stack_lo stack_hi : Z) : call Z :=
  if (cur =? 0) || (ctx =? 0) then mret (-100) else cursor_init_bounds cur ctx stack_lo stack_hi.
Definition fh_cursor_init_bounds2 (cur ctx stack_lo stack_hi stack_lo2 stack_hi2 : Z) : call Z :=
  if (cur =? 0) || (ctx =? 0) then mret (-100)
  else cursor_init_bounds2 cur ctx stack_lo stack_hi stack_lo2 stack_hi2.
Definition fh_step (cur ip sp : Z) : call Z :=
  if (cur =? 0) || (ip =? 0) || (sp =? 0) then mret (-100) else step cur ip sp.
Definition fh_get_reg (cur ip sp : Z) : call unit :=
  if (cur =? 0) || (ip =? 0) || (sp =? 0) then mret tt else get_reg cur ip sp.
Definition fh_cursor_fini (cur : Z) : call unit :=
  if cur =? 0 then mret tt else cursor_fini cur.

(** [fh_init] and [fh_thread_register] as far as the pool and the bounds go; the
    modules are the subject of [Registry.v]. *)
Context (context_new : C).

Definition fh_init_pool (num_slots : Z) : call Z :=
  _ ← st_modify (fun w => set_statics (init context_new num_slots (statics w)) w);
  mret 0.
(** [queried] is what [query_bounds] returns. *)
Definition register_current_thread (queried : Z * Z) : call unit :=
  st_modify (fun w => MkWorld (statics w) queried (mem w)).
Definition fh_thread_register (queried : Z * Z) : call unit :=
  _ ← register_current_thread queried;
  st_modify (fun w => set_statics (thread_registered context_new (statics w)) w).

(** ** The invariant of the slots: what a walk holds is hazarded and alive *)

Abbreviation lib_slot := (Slot (R := R) (Regs := Regs) (C := C)).

Definition slot_ok (s : lib_state) (sl : lib_slot) : Prop :=
  (forall p, snapshot (inner sl) = Some p -> hazard sl = Some p) /\
  (forall p, hazard sl = Some p -> is_Some (heap s !! p)) /\
  (in_use sl = false -> snapshot (inner sl) = None).

Record walk_wf (s : lib_state) : Prop := {
  ww_pool : pool_wf s;
  ww_heap : heap_wf s;
  ww_slots : Forall (slot_ok s) (slots s);
}.

Lemma slot_ok_heap s s' sl : heap s' = heap s -> slot_ok s sl -> slot_ok s' sl.
Proof. unfold slot_ok. by intros ->. Qed.

(** A change of slots that keeps every slot good keeps the invariant. *)
Lemma walk_wf_slots s s' :
  walk_wf s -> pool_wf s' -> same_but_slots s s' -> Forall (slot_ok s) (slots s') -> walk_wf s'.
Proof.
  intros [_ [Ha Hn Hc Hh] _] Hp (E1 & E2 & _ & _ & E5 & _) Hs. split; [done| |].
  - split; rewrite ?E1, ?E2, ?E5; try done.
    intros sl p Hsl Hz. rewrite Forall_forall in Hs. by apply (Hs sl Hsl).
  - eapply Forall_impl; [exact Hs|]. intros sl. by apply slot_ok_heap.
Qed.

Lemma update_slot_wf s idx f :
  walk_wf s -> (forall sl, slots s !! idx = Some sl -> slot_ok s (f sl)) -> walk_wf (update_slot idx f s).
Proof.
  intros Hw Hf. destruct (update_slot_spec idx f s (ww_pool _ Hw)) as (Hp & Hs & Hsame).
  eapply walk_wf_slots; [done..|]. rewrite Hs. apply Forall_alter; [apply ww_slots, Hw|auto].
Qed.

Lemma walk_wf_slot s idx sl : walk_wf s -> slots s !! idx = Some sl -> slot_ok s sl.
Proof. intros Hw Hi. eapply Forall_lookup_1; [apply ww_slots, Hw|done]. Qed.

Lemma release_slot_wf s idx n : walk_wf s -> walk_wf (release_slot idx n s).
Proof.
  intros Hw. unfold release_slot. destruct (slot s idx); [|done]. destruct (negb _); [done|].
  by apply update_slot_wf.
Qed.

Lemma claim_slot_wf s : walk_wf s -> walk_wf (claim_slot s).2.
Proof.
  intros Hw. pose proof (claim_slot_cases s (ww_pool _ Hw)) as Hc.
  destruct (claim_slot s) as [[[i n]|] s']; simpl; [|by destruct Hc as [-> _]].
  destruct Hc as (sl & Hi & Hfree & _ & _ & Hs' & Hp' & Hsame).
  eapply walk_wf_slots; [done..|]. rewrite Hs'. apply Forall_insert; [apply ww_slots, Hw|].
  destruct (walk_wf_slot _ _ _ Hw Hi) as (H1' & H2' & H3'). split_and!; done.
Qed.

Lemma acquire_snapshot_wf s i sl :
  walk_wf s -> slots s !! i = Some sl -> snapshot (inner sl) = None ->
  acquire_snapshot i s = (current s, update_slot i (set_hazard (current s)) s) /\
  walk_wf (acquire_snapshot i s).2.
Proof.
  intros Hw Hi Hn. unfold acquire_snapshot. rewrite slot_lookup, Hi by apply Hw. split; [done|]. simpl.
  apply update_slot_wf; [done|]. intros sl' Hi'. rewrite Hi in Hi'. injection Hi' as <-.
  split_and!; simpl; rewrite ?Hn; try done.
  intros p Hp. apply (hw_alive _ (ww_heap _ Hw)). by left.
Qed.

Lemma ensure_slots_wf n s : walk_wf s -> walk_wf (ensure_slots context_new n s).
Proof.
  intros [[chunks Hp] [Ha Hn Hc Hh] Hs]. unfold ensure_slots.
  destruct (ensure_slots_loop_spec context_new MAX_SLOT_CHUNKS n s chunks Hp)
    as (s' & k & -> & Hpk & _ & _ & E1 & E2 & _ & E4 & _); [lia|]. cbn [default from_option id].
  assert (Forall (slot_ok s') (slots s')) as Hs'.
  { rewrite (pool_of_slots _ _ Hpk), concat_app, <- (pool_of_slots _ _ Hp). apply Forall_app. split.
    - eapply Forall_impl; [exact Hs|]. intros sl. by apply slot_ok_heap.
    - apply Forall_concat, Forall_replicate, Forall_replicate. by split_and!. }
  split; [by eexists| |done].
  split; rewrite ?E1, ?E2, ?E4; try done.
  intros sl p Hsl Hz. rewrite Forall_forall in Hs'. rewrite <- E2. by apply (Hs' sl Hsl).
Qed.

Lemma set_registered_wf s n :
  walk_wf s ->
  walk_wf (MkState (current s) (heap s) (slot_chunks s) (slots_allocated s) n (retired s) (generations s)).
Proof. intros [[chunks Hp] [Ha Hn Hc Hh] Hs]. split; [by exists chunks|by split|done]. Qed.

(** ** The calls of the C API, and what each does to the slots *)

Lemma with_writer_wf {A} boxed (f : UnwinderInternal D -> ST Z panic (A * UnwinderInternal D)) s :
  walk_wf s -> heap s !! boxed = None ->
  let '(r, s') := with_writer boxed f s in
  r <> Err UseAfterFree /\ (forall a, r = Ok a -> walk_wf s').
Proof.
  intros Hw Hbox. pose proof (ww_heap _ Hw) as Hh.
  assert (Hstart : (exists u g, starts_from s u g) \/ exists g, clone_current s = (Err Panics, g)).
  { unfold starts_from, clone_current. rewrite st_bind_spec, st_get_spec. destruct (current s) as [cur|] eqn:E.
    - destruct (proj2 (hw_alive _ Hh cur)) as [snap Hs]; [by left|]. left. by exists (unw snap), (generations s), snap.
    - unfold on_generations. destruct (UnwinderInternal_new (generations s)) as [[u|e] g]; [left; by exists u, g|right; by eexists]. }
  unfold with_writer. destruct Hstart as [(u & g & Hstart)|[g Hp]].
  - destruct (f u g) as [[[a u']|e] g'] eqn:Hf.
    + destruct (with_writer_spec boxed f s u g a u' g' Hh Hbox Hstart Hf)
        as (s' & Hrun & Hh' & Hsl & _ & Hch & Hal & _). unfold with_writer in Hrun. rewrite Hrun.
      split; [done|]. intros _ _. destruct (ww_pool _ Hw) as (chunks & Hp1 & Hp2 & Hp3 & Hp4).
      split; [exists chunks; unfold pool_of; by rewrite Hch, Hal|done|].
      rewrite Hsl. apply Forall_forall. intros sl Hin.
      pose proof (proj1 (Forall_forall _ _) (ww_slots _ Hw) sl Hin) as (G1 & _ & G3).
      split_and!; [done| |done]. intros p Hz. eapply hw_hazard; [done|by rewrite Hsl|done].
    + rewrite st_bind_spec, (clone_current_spec _ _ _ Hstart), st_bind_spec.
      unfold on_generations. simpl. by rewrite Hf.
  - by rewrite st_bind_spec, Hp.
Qed.

(** The window a walk gets. *)
Definition init_window (bounds : Z * Z) (stack_lo stack_hi sp0 : Z) : Z * Z :=
  if stack_lo <? stack_hi then (stack_lo, stack_hi) else stack_window bounds sp0.
Definition init_window2 (stack_lo2 stack_hi2 : Z) : Z * Z :=
  if stack_lo2 <? stack_hi2 then (stack_lo2, stack_hi2) else (0, 0).

(** The state a successful [cursor_init_bounds2] gives the slot. *)
Definition initial_inner (cache : Cache R C) (ctx : FhContext) (max_code : Z) (p : ptr) (win win2 : Z * Z) : walk_state :=
  MkSlotInner cache (make_regs ctx (ptr_auth_mask max_code)) (initial_frame_address ctx)
    (context_ip ctx) false (Some p) (fst win) (snd win) (fst win2) (snd win2).

(** What [cursor_init_bounds2] does, in the three ways it can go. *)
Lemma cursor_init_run cur ctx lo hi lo2 hi2 w :
  walk_wf (statics w) ->
  let m := write_cursor cur dead (mem w) in
  let c := read_context m ctx in
  let '(r, w') := cursor_init_bounds2 cur ctx lo hi lo2 hi2 w in
  bounds w' = bounds w /\ walk_wf (statics w') /\
  match claim_slot (statics w) with
  | (None, _) => r = Ok (-1) /\ w' = set_mem m w
  | (Some (i, n), _) =>
      exists sl, slots (statics w) !! i = Some sl /\ in_use sl = false /\ n = seq sl +64 1 /\
        heap (statics w') = heap (statics w) /\ current (statics w') = current (statics w) /\
      match current (statics w) with
      | None =>
          r = Ok (-2) /\ mem w' = m /\
          slots (statics w') =
            <[i := MkSlot false (n +64 1) None (set_snapshot None (inner sl))]> (slots (statics w))
      | Some p =>
          exists snap, heap (statics w) !! p = Some snap /\ r = Ok 0 /\
          mem w' = write_cursor cur (MkFhCursor CURSOR_MAGIC (Z.of_nat i) n) m /\
          slots (statics w') =
            <[i := MkSlot true n (Some p)
                (initial_inner (slot_cache (inner sl)) c (max_code_addr snap) p
                   (init_window (bounds w) lo hi (context_sp c)) (init_window2 lo2 hi2))]>
              (slots (statics w))
      end
  end.
Proof.
  intros Hw. cbn zeta. set (m := write_cursor cur dead (mem w)). set (c := read_context m ctx).
  unfold cursor_init_bounds2. st_bind. cbn [set_mem mem statics]. fold m c.
  pose proof (claim_slot_wf _ Hw) as Hw1.
  pose proof (claim_slot_cases _ (ww_pool _ Hw)) as Hc.
  destruct (claim_slot (statics w)) as [[[i n]|] s1]; st_bind; cycle 1.
  { destruct Hc as [-> _]. by destruct w. }
  destruct Hc as (sl & Hi & Hfree & -> & _ & Hs1 & Hp1 & E1 & E2 & _).
  pose proof (lookup_lt_Some _ _ _ Hi) as Hlt.
  set (sl1 := MkSlot true (seq sl +64 1) (hazard sl) (inner sl)) in *.
  assert (Hi1 : slots s1 !! i = Some sl1) by (rewrite Hs1; by apply list_lookup_insert_eq).
  destruct (walk_wf_slot _ _ _ Hw Hi) as (_ & _ & Hnone). specialize (Hnone Hfree).
  destruct (acquire_snapshot_wf s1 i sl1 Hw1 Hi1 Hnone) as [Hacq Hw2]. rewrite Hacq in Hw2 |- *. cbn [snd] in Hw2. st_bind.
  destruct (update_slot_spec i (set_hazard (current s1)) s1 Hp1) as (Hp2 & Hs2 & F1 & F2 & _).
  rewrite (alter_as_insert _ _ _ sl1), Hs1, list_insert_insert_eq in Hs2 by done.
  set (s2 := update_slot i (set_hazard (current s1)) s1) in *. rewrite E1 in *.
  assert (Hi2 : slots s2 !! i = Some (set_hazard (current (statics w)) sl1)).
  { rewrite Hs2. by apply list_lookup_insert_eq. }
  destruct (current (statics w)) as [p|] eqn:Ecur.
  - destruct (proj2 (hw_alive _ (ww_heap _ Hw) p)) as [snap Hsnap]; [by left|].
    rewrite F2, E2, Hsnap. st_bind. change (bounds (set_mem m w)) with (bounds w).
    fold (init_window (bounds w) lo hi (context_sp c)).
    rewrite slot_lookup, Hi2 by done.
    destruct (init_window (bounds w) lo hi (context_sp c)) as [wl wh] eqn:Ew.
    fold (init_window2 lo2 hi2). destruct (init_window2 lo2 hi2) as [wl2 wh2] eqn:Ew2. st_bind.
    match goal with |- context [update_slot i ?f s2] =>
      destruct (update_slot_spec i f s2 Hp2) as (Hp3 & Hs3 & G1 & G2 & _) ;
      rewrite (alter_as_insert _ _ _ _ Hi2), Hs2, list_insert_insert_eq in Hs3;
      assert (Hw3 : walk_wf (update_slot i f s2)); [|set (s3 := update_slot i f s2) in *] end.
    { apply update_slot_wf; [done|]. intros sl' Hsl'. rewrite Hi2 in Hsl'. injection Hsl' as <-.
      split_and!; cbn; try done. intros p' [= <-]. rewrite F2, E2. by eexists. }
    cbv beta iota. unfold set_mem, set_statics. cbn [mem statics bounds]. split_and!; [done|done|].
    exists sl. split_and!; try done; try congruence. by exists snap.
  - st_bind. destruct (release_slot_live s2 i (seq sl +64 1) _ Hp2 Hi2 eq_refl) as (Hs3 & Hp3 & G1 & G2 & _).
    rewrite Hs2, list_insert_insert_eq in Hs3.
    pose proof (release_slot_wf s2 i (seq sl +64 1) Hw2) as Hw3.
    set (s3 := release_slot i (seq sl +64 1) s2) in *.
    cbv beta iota. unfold set_mem, set_statics. cbn [mem statics bounds]. split_and!; [done|done|].
    exists sl. split_and!; try done; congruence.
Qed.

(** What one advance can do to the walk. *)
Definition advanced (i : walk_state) (code : Z) (i' : walk_state) : Prop :=
  snapshot i' = snapshot i /\ stack_lo i' = stack_lo i /\ stack_hi i' = stack_hi i /\
  stack_lo2 i' = stack_lo2 i /\ stack_hi2 i' = stack_hi2 i /\
  ((code = 1 /\ done i' = done i /\ cur_ip i' <> 0 /\ address (cur_addr i') = cur_ip i') \/
   (code = 0 /\ done i' = true /\ cur_ip i' = cur_ip i /\ cur_addr i' = cur_addr i)).

Lemma unwind_current_spec u reader i :
  match unwind_current u reader i with
  | Ok (code, i') => advanced i code i'
  | Err e => e = Panics
  end.
Proof.
  unfold unwind_current. destruct (signal_aware _ _ _ _) as [[[[ra intr]|]|[e|]] s]; [|by split_and!; auto..|done].
  unfold NonZeroU64_new. destruct (Z.eqb_spec ra 0) as [|Hne]; [by split_and!; auto|].
  split_and!; try done. left. by destruct intr.
Qed.

Lemma advance_spec u reader i :
  match advance u reader i with
  | Ok (code, i') => advanced i code i'
  | Err e => e = Panics
  end.
Proof.
  unfold advance. destruct sigreturn as [[is_tr rest]|]; [|apply unwind_current_spec].
  destruct (is_tr (cur_ip i)); [|apply unwind_current_spec].
  destruct (rest reader (slot_regs i)) as [[pc|] regs]; [|by split_and!; auto].
  destruct (Z.eqb_spec pc 0); simpl; split_and!; auto.
Qed.

Lemma is_live_slot s c :
  walk_wf s -> is_live s c = true ->
  magic c = CURSOR_MAGIC /\ cursor_slot c <> u64_MAX /\
  exists sl, slots s !! Z.to_nat (cursor_slot c) = Some sl /\ seq sl = nonce c.
Proof.
  intros Hw Hl. unfold is_live in Hl. bool_to_prop. split_and!; [done|done|].
  match goal with H : nonce_matches _ _ _ = true |- _ => unfold nonce_matches in H; rewrite slot_lookup in H by apply Hw;
    destruct (slots s !! _) as [sl|]; [|done]; exists sl; split; [done|]; by apply Z.eqb_eq end.
Qed.

(** What [step] does, in each way it can go. *)
Lemma step_run cur out_ip out_sp w :
  walk_wf (statics w) ->
  let m0 := write out_sp 0 (write out_ip 0 (mem w)) in
  let c := read_cursor m0 cur in
  let idx := Z.to_nat (cursor_slot c) in
  let '(r, w') := step cur out_ip out_sp w in
  bounds w' = bounds w /\ walk_wf (statics w') /\
  if negb (is_live (statics w) c) then r = Ok (-1) /\ w' = set_mem m0 w
  else
    exists sl, slots (statics w) !! idx = Some sl /\
      if done (inner sl) then r = Ok 0 /\ w' = set_mem m0 w
      else
        match snapshot (inner sl) with
        | None => r = Ok (-1) /\ w' = set_mem m0 w
        | Some p =>
            exists snap, heap (statics w) !! p = Some snap /\
            let m1 := write out_sp (native_sp (slot_regs (inner sl))) (write out_ip (cur_ip (inner sl)) m0) in
            mem w' = m1 /\ heap (statics w') = heap (statics w) /\ current (statics w') = current (statics w) /\
            match advance (unw snap) (read_stack (inner sl) m1) (inner sl) with
            | Ok (code, i') => r = Ok code /\ advanced (inner sl) code i' /\
                slots (statics w') = <[idx := set_inner i' sl]> (slots (statics w))
            | Err e => r = Err Panics
            end
        end.
Proof.
  intros Hw. cbn zeta. set (m0 := write out_sp 0 (write out_ip 0 (mem w))). set (c := read_cursor m0 cur).
  unfold step, output. st_bind. unfold set_mem. cbn [mem statics bounds]. fold m0 c.
  destruct (is_live (statics w) c) eqn:El; [|st_bind; by split_and!]. cbn [negb].
  destruct (is_live_slot _ _ Hw El) as (_ & _ & sl & Hi & Hseq).
  rewrite slot_lookup, Hi by apply Hw.
  destruct (done (inner sl)) eqn:Ed.
  { st_bind. split_and!; [done|done|]. exists sl. split; [done|]. by rewrite Ed. }
  destruct (snapshot (inner sl)) as [p|] eqn:Es; cycle 1.
  { st_bind. split_and!; [done|done|]. exists sl. split; [done|]. by rewrite Ed, Es. }
  destruct (walk_wf_slot _ _ _ Hw Hi) as (Hsnap & Halive & Hfree).
  destruct (Halive p (Hsnap p Es)) as [snap Hs].
  st_bind. cbn [mem statics bounds]. rewrite Hs.
  set (m1 := write out_sp _ (write out_ip _ m0)).
  pose proof (advance_spec (unw snap) (read_stack (inner sl) m1) (inner sl)) as Ha.
  destruct (advance (unw snap) (read_stack (inner sl) m1) (inner sl)) as [[code i']|e] eqn:Eadv;
    st_bind; unfold st_lift; st_bind; cbn [mem statics bounds].
  - destruct (update_slot_spec (Z.to_nat (cursor_slot c)) (set_inner i') (statics w) (ww_pool _ Hw))
      as (Hp' & Hs' & E1 & E2 & _).
    assert (Hw' : walk_wf (update_slot (Z.to_nat (cursor_slot c)) (set_inner i') (statics w))).
    { apply update_slot_wf; [done|]. intros sl' Hsl'. rewrite Hi in Hsl'. injection Hsl' as <-.
      destruct Ha as (Hsn & _). split_and!; cbn; rewrite ?Hsn; [done|done|].
      intros Hf. by rewrite Es in Hfree; apply Hfree in Hf. }
    rewrite (alter_as_insert _ _ _ sl) in Hs' by done.
    set (s' := update_slot _ _ _) in *. cbn [mem statics bounds].
    split_and!; [done|done|]. exists sl. split; [done|]. rewrite Ed, Es. exists snap. fold m1. by rewrite Eadv.
  - subst e. split_and!; [done|done|]. exists sl. split; [done|]. rewrite Ed, Es. exists snap. fold m1. by rewrite Eadv.
Qed.

(** ** Memory *)

Lemma write_eq a v m : write a v m a = v.
Proof. unfold write. by rewrite Z.eqb_refl. Qed.

Lemma write_ne a a' v m : a' <> a -> write a v m a' = m a'.
Proof. intros Hne. unfold write. by rewrite (proj2 (Z.eqb_neq a' a)). Qed.

Lemma read_write_cursor cur c m : read_cursor (write_cursor cur c m) cur = c.
Proof.
  unfold read_cursor, write_cursor. cbn [foldr].
  repeat first [rewrite write_ne by lia | rewrite write_eq]. by destruct c.
Qed.

(** Writing words keeps the memory one of words. *)
Lemma write_u64 a v m : u64 v -> (forall b, u64 (m b)) -> forall b, u64 (write a v m b).
Proof. intros Hv Hm b. unfold write. by destruct (_ =? _). Qed.

Lemma write_cursor_u64 cur c m : u64 (magic c) -> u64 (cursor_slot c) -> u64 (nonce c) ->
  (forall b, u64 (m b)) -> forall b, u64 (write_cursor cur c m b).
Proof. intros H1 H2 H3 Hm. repeat apply write_u64; done. Qed.

(** An output word that does not overlap the cursor. *)
Definition apart (cur out : Z) : Prop := out <> cur /\ out <> cur + 8 /\ out <> cur + 16.

Lemma read_cursor_output cur out v m : apart cur out -> read_cursor (write out v m) cur = read_cursor m cur.
Proof. intros (?&?&?). unfold read_cursor. by rewrite !write_ne by done. Qed.

Lemma is_live_same s s' c :
  walk_wf s -> walk_wf s' ->
  (forall sl, slots s !! Z.to_nat (cursor_slot c) = Some sl -> exists sl',
     slots s' !! Z.to_nat (cursor_slot c) = Some sl' /\ seq sl' = seq sl) ->
  is_live s c = true -> is_live s' c = true.
Proof.
  intros Hw Hw' Hs Hl. destruct (is_live_slot _ _ Hw Hl) as (Hm & Hn & sl & Hi & Hseq).
  destruct (Hs sl Hi) as (sl' & Hi' & Hseq'). unfold is_live.
  rewrite Hm, Z.eqb_refl, (proj2 (Z.eqb_neq _ _)) by done.
  rewrite (nonce_matches_lookup s' _ _ sl') by (done || apply Hw'). simpl. apply Z.eqb_eq. congruence.
Qed.

(** ** The abstract state of a walk

    [None] for a cursor that is not live; otherwise the current frame's ip and sp,
    or [None] once the walk has ended. *)
Definition cursor_view (w : world) (cur : Z) : option (option (Z * Z)) :=
  let c := read_cursor (mem w) cur in
  if is_live (statics w) c then
    sl ← slot (statics w) (Z.to_nat (cursor_slot c));
    if done (inner sl) then Some None
    else match snapshot (inner sl) with
         | Some _ => Some (Some (cur_ip (inner sl), native_sp (slot_regs (inner sl))))
         | None => None
         end
  else None.

(** The walk behind a live cursor: what it unwinds with, how it reads a memory, and
    its current frame. *)
Record Frame : Type := MkFrame {
  frame_ip : Z;
  frame_address : FrameAddress;
  frame_regs : Regs;
  frame_cache : Cache R C;
}.

Record Walk : Type := MkWalk {
  walk_unwinder : UnwinderInternal D;
  walk_reads : memory -> stack_reader;
  walk_frame : Frame;
}.

Definition walk_at (u : UnwinderInternal D) (i : walk_state) : Walk :=
  MkWalk u (read_stack i) (MkFrame (cur_ip i) (cur_addr i) (slot_regs i) (slot_cache i)).

(** [None] for a cursor without a walk, [Some None] for a walk that has ended. *)
Definition current_walk (w : world) (cur : Z) : option (option Walk) :=
  let c := read_cursor (mem w) cur in
  if is_live (statics w) c then
    sl ← slot (statics w) (Z.to_nat (cursor_slot c));
    if done (inner sl) then Some None
    else p ← snapshot (inner sl); snap ← heap (statics w) !! p;
         Some (Some (walk_at (unw snap) (inner sl)))
  else None.

Definition at_trampoline (ip : Z) : bool :=
  match sigreturn (Regs := Regs) with Some (is_trampoline, _) => is_trampoline ip | None => false end.

(** What the unwinder makes of the frame. *)
Definition unwinds_to (u : UnwinderInternal D) (rs : stack_reader) (f : Frame)
    (res : result (fault Error) (option (Z * bool))) (regs : Regs) (cache : Cache R C) : Prop :=
  at_trampoline (frame_ip f) = false /\
  signal_aware u (frame_address f) rs (MkUState (frame_regs f) (frame_cache f)) = (res, MkUState regs cache).

(** The frame after a frame, or that there is none. In a signal trampoline it is the
    interrupted frame, with the registers the kernel saved; otherwise it is what the
    unwinder gives: a caller, whose address is a return address, or an interrupted
    frame, whose address is that of its next instruction. *)
Inductive next_frame (u : UnwinderInternal D) (rs : stack_reader) (f : Frame) : option Frame -> Prop :=
  | next_restored is_trampoline restore pc regs :
      sigreturn = Some (is_trampoline, restore) -> is_trampoline (frame_ip f) = true ->
      restore rs (frame_regs f) = (Some pc, regs) -> pc <> 0 ->
      next_frame u rs f (Some (MkFrame pc (InstructionPointer pc) regs (frame_cache f)))
  | next_not_restored is_trampoline restore restored regs :
      sigreturn = Some (is_trampoline, restore) -> is_trampoline (frame_ip f) = true ->
      restore rs (frame_regs f) = (restored, regs) -> restored = None \/ restored = Some 0 ->
      next_frame u rs f None
  | next_caller ra regs cache :
      unwinds_to u rs f (Ok (Some (ra, false))) regs cache -> ra <> 0 ->
      next_frame u rs f (Some (MkFrame ra (ReturnAddress ra) regs cache))
  | next_interrupted pc regs cache :
      unwinds_to u rs f (Ok (Some (pc, true))) regs cache -> pc <> 0 ->
      next_frame u rs f (Some (MkFrame pc (InstructionPointer pc) regs cache))
  | next_bottom res regs cache :
      unwinds_to u rs f res regs cache ->
      res = Ok None \/ (exists interrupted, res = Ok (Some (0, interrupted))) \/ (exists e, res = Err (Fail e)) ->
      next_frame u rs f None.

(** [advance] finds the next frame of the walk. *)
Lemma advance_next_frame u rs (i : walk_state) :
  let f := walk_frame (walk_at u i) in
  match advance u rs i with
  | Ok (code, i') => exists next, next_frame u rs f next /\ code = (if next then 1 else 0) /\
      match next with
      | Some f' => walk_at u i' = MkWalk u (read_stack i) f' /\ done i' = done i
      | None => done i' = true
      end
  | Err _ => exists regs cache, unwinds_to u rs f (Err Panic) regs cache
  end.
Proof.
  cbn zeta. assert (Hun : at_trampoline (cur_ip i) = false ->
    match unwind_current u rs i with
    | Ok (code, i') => exists next, next_frame u rs (walk_frame (walk_at u i)) next /\ code = (if next then 1 else 0) /\
        match next with
        | Some f' => walk_at u i' = MkWalk u (read_stack i) f' /\ done i' = done i
        | None => done i' = true
        end
    | Err _ => exists regs cache, unwinds_to u rs (walk_frame (walk_at u i)) (Err Panic) regs cache
    end).
  { intros Hno. unfold unwind_current.
    destruct (signal_aware _ _ _ _) as [res [regs cache]] eqn:E.
    assert (Hu : unwinds_to u rs (walk_frame (walk_at u i)) res regs cache) by by split.
    destruct res as [[[ra intr]|]|[e|]].
    - unfold NonZeroU64_new. destruct (Z.eqb_spec ra 0) as [->|Hra].
      + exists None. split_and!; [|done..]. eapply next_bottom; [exact Hu|]. right; left. by eexists.
      + destruct intr; eexists.
        * split; [by eapply next_interrupted|by split_and!].
        * split; [by eapply next_caller|by split_and!].
    - exists None. split_and!; [|done..]. eapply next_bottom; [exact Hu|]. by left.
    - exists None. split_and!; [|done..]. eapply next_bottom; [exact Hu|]. right; right. by eexists.
    - by exists regs, cache. }
  unfold advance. unfold at_trampoline in Hun. destruct sigreturn as [[is_tr rest]|] eqn:Es; [|by apply Hun].
  destruct (is_tr (cur_ip i)) eqn:Et; [clear Hun|by apply Hun].
  destruct (rest rs (slot_regs i)) as [[pc|] regs] eqn:Er.
  - destruct (Z.eqb_spec pc 0) as [->|Hpc]; cbn [negb].
    + exists None. split_and!; [|done..]. eapply next_not_restored; [done..|by right].
    + eexists. split; [by eapply next_restored|]. by split_and!.
  - exists None. split_and!; [|done..]. eapply next_not_restored; [done..|by left].
Qed.

(** C7: the contract of [fh_step]: it outputs the current frame, then advances to the
    frame the unwinder finds for it. If the cursor is at a frame, the outputs are that
    frame's ip and sp. The cursor is then at the frame's [next_frame], with the same
    unwinder and windows, and 1 is returned; or there is no next frame, the walk has
    ended, and 0 is returned; and no other slot changes. Once the walk has ended
    every step outputs zeros, returns 0 and changes nothing. The only other way out
    is a panic of the unwinder on that frame. *)
Theorem step_refines cur out_ip out_sp w v
    (Hw : walk_wf (statics w))
    (Hip : apart cur out_ip) (Hsp : apart cur out_sp) (Hne : out_ip <> out_sp)
    (Hv : current_walk w cur = Some v) :
  let '(r, w') := step cur out_ip out_sp w in
  walk_wf (statics w') /\ bounds w' = bounds w /\
  match v with
  | None => r = Ok 0 /\ mem w' = write out_sp 0 (write out_ip 0 (mem w)) /\ statics w' = statics w
  | Some (MkWalk u reads f) =>
      mem w' out_ip = frame_ip f /\ mem w' out_sp = native_sp (frame_regs f) /\
      (forall a, a <> out_ip -> a <> out_sp -> mem w' a = mem w a) /\
      ((r = Err Panics /\ exists regs cache, unwinds_to u (reads (mem w')) f (Err Panic) regs cache) \/
       exists next, next_frame u (reads (mem w')) f next /\
         r = Ok (if next then 1 else 0) /\ current_walk w' cur = Some (MkWalk u reads <$> next) /\
         (forall j, j <> Z.to_nat (cursor_slot (read_cursor (mem w) cur)) ->
            slots (statics w') !! j = slots (statics w) !! j))
  end.
Proof.
  pose proof (step_run cur out_ip out_sp w Hw) as Hrun. cbn zeta in Hrun.
  rewrite !read_cursor_output in Hrun by done.
  destruct (step cur out_ip out_sp w) as [r w']. destruct Hrun as (Hb & Hw' & Hrun). split_and!; [done..|].
  unfold current_walk in Hv. destruct (is_live _ _) eqn:El; [|done]. cbn [negb] in Hrun.
  destruct Hrun as (sl & Hi & Hrun). rewrite slot_lookup, Hi in Hv by apply Hw. cbn in Hv.
  destruct (done (inner sl)) eqn:Ed; [injection Hv as <-; by destruct Hrun as [-> ->]|].
  destruct (snapshot (inner sl)) as [p|] eqn:Es; [|done]. cbn in Hv.
  destruct Hrun as (snap & Hheap & Hm & Hheap' & _ & Hrun). rewrite Hheap in Hv. injection Hv as <-.
  rewrite <- Hm in Hrun. unfold walk_at. cbn [frame_ip frame_regs].
  split; [by rewrite Hm, write_ne, write_eq|]. split; [by rewrite Hm, write_eq|].
  split; [intros a Ha1 Ha2; by rewrite Hm, !write_ne|].
  pose proof (advance_next_frame (unw snap) (read_stack (inner sl) (mem w')) (inner sl)) as Hnext.
  destruct (advance _ _ _) as [[code i']|e]; [right|left; by split].
  destruct Hnext as (next & Hnext & -> & Hi'). destruct Hrun as (-> & (Hsn & _) & Hsl).
  exists next. split_and!; [done|done| |intros j Hj; by rewrite Hsl, list_lookup_insert_ne].
  unfold current_walk. replace (read_cursor (mem w') cur) with (read_cursor (mem w) cur)
    by by rewrite Hm, !read_cursor_output.
  assert (Hsl' : slots (statics w') !! Z.to_nat (cursor_slot (read_cursor (mem w) cur)) = Some (set_inner i' sl)).
  { rewrite Hsl. apply list_lookup_insert_eq. by eapply lookup_lt_Some. }
  rewrite (is_live_same _ _ _ Hw Hw') by (done || (intros ? Hx; rewrite Hi in Hx; injection Hx as <-; by eexists)).
  rewrite slot_lookup, Hsl' by apply Hw'. cbn. rewrite Hsn, Es, Hheap'. cbn. rewrite Hheap. cbn.
  destruct next as [f'|]; [|by rewrite Hi']. destruct Hi' as [-> ->]. by rewrite Ed.
Qed.

(** C29: a walk starts at the captured context. When [fh_cursor_init_bounds2]
    succeeds, the cursor is live and its current frame is the context's ip and sp,
    its reads are confined to the given windows (or the default one), and it holds
    the snapshot published at that moment. It fails with -1 exactly when every slot
    is in use, and with -2 exactly when there is a slot but nothing is published;
    no slot is then left claimed, and the cursor is dead. *)
Theorem init_starts_at_context `{!NativeLaws Regs} cur ctx lo hi lo2 hi2 w (Hw : walk_wf (statics w)) :
  let '(r, w') := cursor_init_bounds2 cur ctx lo hi lo2 hi2 w in
  let c := read_context (write_cursor cur dead (mem w)) ctx in
  let all_used := forall sl, sl ∈ slots (statics w) -> in_use sl = true in
  walk_wf (statics w') /\
  ((r = Ok 0 /\ ~ all_used /\ cursor_view w' cur = Some (Some (context_ip c, context_sp c)) /\
    exists i sl, slots (statics w') !! i = Some sl /\ hazard sl = current (statics w) /\
      snapshot (inner sl) = current (statics w) /\ current (statics w) <> None /\
      cursor_slot (read_cursor (mem w') cur) = Z.of_nat i /\
      (stack_lo (inner sl), stack_hi (inner sl)) =
        (if lo <? hi then (lo, hi) else stack_window (bounds w) (context_sp c)) /\
      (stack_lo2 (inner sl), stack_hi2 (inner sl)) = (if lo2 <? hi2 then (lo2, hi2) else (0, 0)))
   \/ (r = Ok (-1) /\ all_used /\ statics w' = statics w /\ read_cursor (mem w') cur = dead)
   \/ (r = Ok (-2) /\ ~ all_used /\ current (statics w) = None /\ read_cursor (mem w') cur = dead /\
       in_use <$> slots (statics w') = in_use <$> slots (statics w))).
Proof.
  pose proof (cursor_init_run cur ctx lo hi lo2 hi2 w Hw) as Hrun. cbn zeta in Hrun |- *.
  set (m := write_cursor cur dead (mem w)) in *. set (c := read_context m ctx) in *.
  destruct (cursor_init_bounds2 cur ctx lo hi lo2 hi2 w) as [r w']. destruct Hrun as (_ & Hw' & Hrun).
  split; [done|]. pose proof (claim_slot_cases _ (ww_pool _ Hw)) as Hc.
  destruct (claim_slot (statics w)) as [[[i n]|] s1]; cycle 1.
  { destruct Hrun as [-> ->]. right; left. split_and!; [done|apply Hc|done|apply read_write_cursor]. }
  clear Hc. destruct Hrun as (sl & Hi & Hfree & -> & Hheap & Hcur & Hrun).
  assert (Hfree' : ~ forall sl, sl ∈ slots (statics w) -> in_use sl = true).
  { intros Hall. rewrite (Hall sl) in Hfree; [done|]. by eapply list_elem_of_lookup_2. }
  pose proof (lookup_lt_Some _ _ _ Hi) as Hlt.
  destruct (current (statics w)) as [p|] eqn:Ecur.
  - left. destruct Hrun as (snap & Hs & -> & Hm & Hsl).
    set (i0 := initial_inner _ _ _ _ _ _) in Hsl.
    assert (Hi' : slots (statics w') !! i = Some (MkSlot true (seq sl +64 1) (Some p) i0)).
    { rewrite Hsl. by apply list_lookup_insert_eq. }
    pose proof (slot_index_small _ _ _ (ww_pool _ Hw) Hi) as Hsmall.
    split_and!; [done|done| |].
    + unfold cursor_view. rewrite Hm, read_write_cursor. cbn [cursor_slot nonce magic].
      unfold is_live. cbn [cursor_slot nonce magic]. rewrite Nat2Z.id, Z.eqb_refl, (proj2 (Z.eqb_neq _ _)) by done.
      rewrite (nonce_matches_lookup _ _ _ _ (ww_pool _ Hw') Hi'). cbn [seq]. rewrite Z.eqb_refl. cbn [andb negb].
      rewrite slot_lookup, Hi' by apply Hw'. cbn. by rewrite make_regs_sp.
    + exists i, (MkSlot true (seq sl +64 1) (Some p) i0). split_and!; [done|done|done|done| | |].
      * by rewrite Hm, read_write_cursor.
      * symmetry. apply surjective_pairing.
      * symmetry. apply surjective_pairing.
  - right; right. destruct Hrun as (-> & Hm & Hsl). split_and!; [done|done|done| |].
    + rewrite Hm. apply read_write_cursor.
    + rewrite Hsl, list_fmap_insert. cbn. apply list_insert_id. by rewrite list_lookup_fmap, Hi, <- Hfree.
Qed.

(** C30: a cursor that is not live can do no harm. For a dead, forged or stale cursor
    (the slot was released, maybe claimed again by another walk), [fh_step] outputs
    zeros and returns -1, [fh_get_reg] outputs zeros, and neither these nor
    [fh_cursor_fini] change any state of the library. *)
Theorem stale_cursor_is_inert cur out_ip out_sp w
    (Hw : walk_wf (statics w))
    (Hip : apart cur out_ip) (Hsp : apart cur out_sp)
    (Hlive : is_live (statics w) (read_cursor (mem w) cur) = false) :
  let zeros := write out_sp 0 (write out_ip 0 (mem w)) in
  step cur out_ip out_sp w = (Ok (-1), set_mem zeros w) /\
  get_reg cur out_ip out_sp w = (Ok tt, set_mem zeros w) /\
  cursor_fini cur w = (Ok tt, set_mem (write_cursor cur dead (mem w)) w).
Proof.
  cbn zeta. set (zeros := write out_sp 0 (write out_ip 0 (mem w))).
  assert (Hz : is_live (statics w) (read_cursor zeros cur) = false).
  { unfold zeros. by rewrite !read_cursor_output. }
  split_and!.
  - unfold step, output. st_bind. unfold set_mem. cbn [mem statics bounds]. fold zeros. by rewrite Hz.
  - unfold get_reg, output. st_bind. unfold set_mem. cbn [mem statics bounds]. fold zeros. by rewrite Hz.
  - unfold cursor_fini. st_bind. set (c := read_cursor (mem w) cur) in *.
    destruct ((magic c =? CURSOR_MAGIC) && negb (cursor_slot c =? u64_MAX)) eqn:E; st_bind; [|done].
    rewrite release_slot_stale; [by destruct w|]. unfold is_live in Hlive. by rewrite E in Hlive.
Qed.

(** The 8-aligned words that lie in a window (a window up to the last address may
    include the last word). *)
Definition in_window (lo hi a : Z) : Prop := lo <= a /\ (a + 8 <= hi \/ hi = u64_MAX).
Definition readable (i : walk_state) (a : Z) : Prop :=
  Z.land a 7 = 0 /\ (in_window (stack_lo i) (stack_hi i) a \/ in_window (stack_lo2 i) (stack_hi2 i) a).

Lemma read_stack_readable i m1 m2 :
  (forall a, readable i a -> m1 a = m2 a) -> stack_hi i <= u64_MAX -> stack_hi2 i <= u64_MAX ->
  read_stack i m1 = read_stack i m2.
Proof.
  intros Hm H1 H2. apply functional_extensionality. intros a. unfold read_stack.
  destruct (negb _ || negb _) eqn:E; [done|]. f_equal. apply Hm. bool_to_prop.
  unfold readable, in_window, saturating_add, u64_MAX in *. split; [done|].
  match goal with H : _ \/ _ |- _ => destruct H; bool_to_prop; [left|right]; lia end.
Qed.

(** C11: a step reads nothing outside its windows. If two memories agree on the
    cursor's words and on the 8-aligned words inside the walk's two windows, a step
    gives the same return code and the same new state of the library in both,
    whatever else is in memory: with exact stack bounds, no address outside the
    stack is ever read. *)
Theorem step_reads_only_windows cur out_ip out_sp w1 w2
    (Hw : walk_wf (statics w1)) (Hst : statics w2 = statics w1) (Hb : bounds w2 = bounds w1)
    (Hcur : read_cursor (mem w2) cur = read_cursor (mem w1) cur)
    (Hip : apart cur out_ip) (Hsp : apart cur out_sp)
    (Hwin : forall sl, slots (statics w1) !! Z.to_nat (cursor_slot (read_cursor (mem w1) cur)) = Some sl ->
       stack_hi (inner sl) <= u64_MAX /\ stack_hi2 (inner sl) <= u64_MAX /\
       forall a, readable (inner sl) a -> mem w1 a = mem w2 a) :
  (step cur out_ip out_sp w1).1 = (step cur out_ip out_sp w2).1 /\
  statics (step cur out_ip out_sp w1).2 = statics (step cur out_ip out_sp w2).2.
Proof.
  unfold step, output. st_bind. unfold set_mem. cbn [mem statics bounds].
  rewrite !read_cursor_output, Hcur, Hst by done.
  set (c := read_cursor (mem w1) cur) in *.
  destruct (is_live (statics w1) c) eqn:El; [|by st_bind]. cbn [negb].
  destruct (is_live_slot _ _ Hw El) as (_ & _ & sl & Hi & _).
  rewrite slot_lookup, Hi by apply Hw. destruct (done (inner sl)); [by st_bind|].
  destruct (snapshot (inner sl)) as [p|]; [|by st_bind].
  st_bind. cbn [mem statics bounds]. rewrite ?Hst.
  destruct (heap (statics w1) !! p) as [snap|]; [|done]. st_bind.
  destruct (Hwin sl Hi) as (H1' & H2' & Hm).
  assert (read_stack (inner sl) (write out_sp (native_sp (slot_regs (inner sl)))
            (write out_ip (cur_ip (inner sl)) (write out_sp 0 (write out_ip 0 (mem w2)))))
          = read_stack (inner sl) (write out_sp (native_sp (slot_regs (inner sl)))
            (write out_ip (cur_ip (inner sl)) (write out_sp 0 (write out_ip 0 (mem w1)))))) as ->.
  { apply read_stack_readable; [|done..]. intros a Ha. unfold write.
    repeat (destruct (_ =? _); [done|]). symmetry. by apply Hm. }
  destruct (advance _ _ _) as [[code i']|e]; unfold st_lift; st_bind; done.
Qed.

Lemma cursor_fini_statics cur w :
  exists s', (s' = statics w \/ exists i n, s' = release_slot i n (statics w)) /\
    cursor_fini cur w = (Ok tt, MkWorld s' (bounds w) (write_cursor cur dead (mem w))).
Proof.
  unfold cursor_fini. st_bind. set (c := read_cursor (mem w) cur).
  destruct (_ && _); st_bind; [|exists (statics w); split; [by left|by destruct w]].
  eexists. split; [right; by eexists _, _|done].
Qed.

(** [fh_cursor_fini] gives the slot back, once. Of a live cursor it frees the
    slot, clears its hazard and touches no other slot; the cursor is dead
    afterwards, and so is any copy of it: a second fini, through the cursor or
    through the copy, changes no state of the library. *)
Theorem fini_releases_once cur copy w
    (Hw : walk_wf (statics w))
    (Hlive : is_live (statics w) (read_cursor (mem w) cur) = true)
    (Hcopy : read_cursor (write_cursor cur dead (mem w)) copy = read_cursor (mem w) cur \/ copy = cur) :
  let '(r, w') := cursor_fini cur w in
  r = Ok tt /\ walk_wf (statics w') /\ read_cursor (mem w') cur = dead /\
  (exists i sl sl', slots (statics w) !! i = Some sl /\ in_use sl' = false /\ hazard sl' = None /\
     slots (statics w') = <[i := sl']> (slots (statics w))) /\
  statics (cursor_fini copy w').2 = statics w'.
Proof.
  destruct (is_live_slot _ _ Hw Hlive) as (Hm & Hn & sl & Hi & Hseq).
  unfold cursor_fini at 1. st_bind. set (c := read_cursor (mem w) cur) in *.
  rewrite Hm, Z.eqb_refl, (proj2 (Z.eqb_neq _ _)) by done. cbn [andb negb]. st_bind.
  unfold set_mem, set_statics. cbn [mem statics bounds].
  destruct (release_slot_live (statics w) (Z.to_nat (cursor_slot c)) (nonce c) sl (ww_pool _ Hw) Hi Hseq)
    as (Hs' & Hp' & _).
  pose proof (lookup_lt_Some _ _ _ Hi) as Hlt.
  set (s' := release_slot (Z.to_nat (cursor_slot c)) (nonce c) (statics w)) in *.
  split_and!; [done|by apply release_slot_wf|apply read_write_cursor| |].
  - eexists _, sl, _. split_and!; [done| | |exact Hs']; done.
  - unfold cursor_fini. st_bind. cbn [mem statics bounds].
    destruct Hcopy as [->| ->].
    + fold c. rewrite Hm, Z.eqb_refl, (proj2 (Z.eqb_neq _ _)) by done. cbn [andb negb]. st_bind.
      unfold set_mem, set_statics. cbn [mem statics bounds]. apply release_slot_stale.
      erewrite nonce_matches_lookup; [|done|rewrite Hs'; by apply list_lookup_insert_eq].
      apply nonce_bumped.
    + by rewrite read_write_cursor.
Qed.

(** ** Sequences of calls *)

(** The calls of the API: the read path, the pool, and writers with any mutation of
    the module set (registration, refresh). The cursors and contexts are arbitrary
    addresses of arbitrary memory. *)
Inductive api_call : Type :=
  | CallInit (cur ctx stack_lo stack_hi stack_lo2 stack_hi2 : Z)
  | CallStep (cur out_ip out_sp : Z)
  | CallGetReg (cur out_ip out_sp : Z)
  | CallFini (cur : Z)
  | CallInitPool (num_slots : Z)
  | CallThreadRegister (queried : Z * Z)
  | CallWriter (f : UnwinderInternal D -> ST Z panic (unit * UnwinderInternal D)).

(** Runs a writer on the statics. *)
Definition on_statics {A} (m : ST lib_state crash A) : call A :=
  fun w => let '(r, s) := m (statics w) in (r, set_statics s w).

Section calls.
  (** Where the allocator puts the next snapshot, given the ones that are alive. *)
  Context (alloc : gmap ptr (Snapshot (D := D)) -> ptr).
  Context (alloc_fresh : forall h, h !! alloc h = None).

Definition run_call (c : api_call) : call unit :=
  match c with
  | CallInit cur ctx lo hi lo2 hi2 => _ ← cursor_init_bounds2 cur ctx lo hi lo2 hi2; mret tt
  | CallStep cur out_ip out_sp => _ ← step cur out_ip out_sp; mret tt
  | CallGetReg cur out_ip out_sp => get_reg cur out_ip out_sp
  | CallFini cur => cursor_fini cur
  | CallInitPool n => _ ← fh_init_pool n; mret tt
  | CallThreadRegister q => fh_thread_register q
  | CallWriter f => w ← st_get; on_statics (with_writer (alloc (heap (statics w))) f)
  end.

Fixpoint run_calls (cs : list api_call) : call unit :=
  match cs with
  | [] => mret tt
  | c :: cs' => _ ← run_call c; run_calls cs'
  end.

Lemma get_reg_statics cur out_ip out_sp w :
  exists m, get_reg cur out_ip out_sp w = (Ok tt, set_mem m w).
Proof.
  unfold get_reg, output. st_bind. unfold set_mem. cbn [mem statics bounds].
  destruct (negb _); [by eexists|]. destruct (slot _ _); st_bind; by eexists.
Qed.

Lemma run_call_safe c w :
  walk_wf (statics w) ->
  let '(r, w') := run_call c w in
  r <> Err UseAfterFree /\ (forall a, r = Ok a -> walk_wf (statics w')).
Proof using alloc_fresh.
  intros Hw. destruct c as [cur ctx lo hi lo2 hi2|cur oi os|cur oi os|cur|n|q|f]; cbn [run_call].
  - pose proof (cursor_init_run cur ctx lo hi lo2 hi2 w Hw) as Hrun. cbn zeta in Hrun. st_bind.
    destruct (cursor_init_bounds2 cur ctx lo hi lo2 hi2 w) as [r w']. destruct Hrun as (_ & Hw' & Hrun).
    destruct (claim_slot _) as [[[i n']|] ?]; [destruct Hrun as (? & _ & _ & _ & _ & _ & Hrun);
      destruct (current (statics w)); [destruct Hrun as (? & _ & -> & _)|destruct Hrun as (-> & _)]|destruct Hrun as [-> _]];
      st_bind; done.
  - pose proof (step_run cur oi os w Hw) as Hrun. cbn zeta in Hrun. st_bind.
    destruct (step cur oi os w) as [r w']. destruct Hrun as (_ & Hw' & Hrun).
    assert (r <> Err UseAfterFree) as Hr.
    { destruct (negb _); [by destruct Hrun as [-> _]|]. destruct Hrun as (sl & _ & Hrun).
      destruct (done _); [by destruct Hrun as [-> _]|]. destruct (snapshot _); [|by destruct Hrun as [-> _]].
      destruct Hrun as (? & _ & _ & _ & _ & Hrun). destruct (advance _ _ _) as [[??]|]; [destruct Hrun as [-> _]|]; by subst. }
    destruct r as [a|e]; st_bind; [done|]. split; [congruence|done].
  - destruct (get_reg_statics cur oi os w) as [m ->]. done.
  - destruct (cursor_fini_statics cur w) as (s' & Hs' & ->). split; [done|]. intros _ _. cbn.
    destruct Hs' as [->|(i & n & ->)]; [done|by apply release_slot_wf].
  - unfold fh_init_pool. st_bind. split; [done|]. intros _ _. unfold set_statics. cbn [statics].
    unfold init. by apply ensure_slots_wf.
  - unfold fh_thread_register, register_current_thread. st_bind. split; [done|]. intros _ _.
    unfold set_statics. cbn [statics]. unfold thread_registered. by apply ensure_slots_wf, set_registered_wf.
  - st_bind. unfold on_statics. pose proof (with_writer_wf _ f (statics w) Hw (alloc_fresh _)) as Hrun.
    by destruct (with_writer _ f (statics w)) as [r s'].
Qed.

(** C1: no call ever touches a freed snapshot. Whatever sequence of calls the program
    makes, with whatever it has in its cursors, contexts and stacks, and however
    often the module set is republished while walks are in progress, no step reads
    a snapshot that was freed, and the invariant of the pool (every walk's snapshot
    is hazarded, alive and unchanged) holds throughout; the only abnormal way out is
    a panic. *)
Theorem api_never_uses_freed_snapshot cs w (Hw : walk_wf (statics w)) :
  let '(r, w') := run_calls cs w in
  r <> Err UseAfterFree /\ (r = Ok tt -> walk_wf (statics w')).
Proof using alloc_fresh.
  revert w Hw. induction cs as [|c cs IH]; intros w Hw; cbn [run_calls]; [by st_bind|].
  st_bind. pose proof (run_call_safe c w Hw) as Hc.
  destruct (run_call c w) as [[a|e] w']; destruct Hc as [Hne Hok]; [|split; [congruence|done]].
  apply IH. by eapply Hok.
Qed.
End calls.
End Cursor.

(** ** Concrete runs: a walk over the stack at 0x8000 *)

Definition example_aware : UnwinderInternal unit -> FrameAddress -> stack_reader ->
    ST (UState UnwindRuleX86_64 UnwindRegsX86_64 unit) (fault Error) (option (Z * bool)) :=
  unwind_frame_signal_aware example_callback.

(** 32 slots and one published module. *)
Definition example_library : state (D := unit) (R := UnwindRuleX86_64) (Regs := UnwindRegsX86_64) (C := unit) :=
  (with_writer 7%nat (fun u => u' ← add_module u (example_module 4096 8192); mret (tt, u')) example_pool_state).2.

(** A context at 0x500 (ip 5000, sp 0x8000) and one return address on the stack. *)
Definition example_mem : memory :=
  write 0x8000 6000 (write 0x508 0x8000 (write 0x500 5000 (fun _ => 0))).

Definition example_world0 : world := MkWorld example_library (0, 0) example_mem.

(** After [cursor_init_bounds] of the cursor at 0x100 with the stack [0x8000, 0x8010). *)
Definition example_world : world := (cursor_init_bounds2 0x100 0x500 0x8000 0x8010 0 0 example_world0).2.

Lemma state_new_wf {D R Regs C} `{Native Regs} :
  walk_wf (state_new (D := D) (R := R) (Regs := Regs) (C := C)).
Proof.
  split; [apply state_new_pool_wf| |constructor]. split; try done; [|constructor|].
  - intros p. simpl. rewrite lookup_empty. split; [by intros []|]. intros [?|?%not_elem_of_nil]; done.
  - by intros sl p ?%not_elem_of_nil.
Qed.

Lemma example_library_wf : walk_wf example_library.
Proof.
  pose proof (with_writer_wf 7%nat (fun u => u' ← add_module u (example_module 4096 8192); mret (tt, u'))
    example_pool_state (ensure_slots_wf tt 20 _ state_new_wf) eq_refl) as H.
  unfold example_library. destruct (with_writer _ _ _) as [r s] eqn:E. destruct H as [_ H].
  apply (H tt). vm_compute in E. congruence.
Qed.

Lemma example_world_wf : walk_wf (statics example_world).
Proof.
  pose proof (cursor_init_run 0x100 0x500 0x8000 0x8010 0 0 example_world0 example_library_wf) as H.
  cbn zeta in H. unfold example_world. destruct (cursor_init_bounds2 _ _ _ _ _ _ _) as [r w'].
  by destruct H as (_ & H & _).
Qed.

Lemma apart_witness cur out : cur + 24 <= out -> apart cur out.
Proof. unfold apart. lia. Qed.

(** The first step outputs the context's frame and goes on to the caller at 6000. *)
Lemma step_refines_witness :
  let '(r, w') := step example_aware 0x100 0x200 0x208 example_world in
  r = Ok 1 /\ mem w' 0x200 = 5000 /\ mem w' 0x208 = 0x8000 /\
  match current_walk w' 0x100 with
  | Some (Some wk) => frame_address (walk_frame wk) = ReturnAddress 6000
  | _ => False
  end.
Proof.
  assert (Hat : match current_walk example_world 0x100 with
    | Some (Some wk) => frame_ip (walk_frame wk) = 5000 /\ native_sp (frame_regs (walk_frame wk)) = 0x8000
    | _ => False
    end) by (vm_compute; split; reflexivity).
  destruct (current_walk example_world 0x100) as [[[u reads f]|]|] eqn:Ev; [|destruct Hat..].
  cbn [walk_frame] in Hat. destruct Hat as [Ef1 Ef2].
  pose proof (step_refines example_aware 0x100 0x200 0x208 example_world _ example_world_wf
    ltac:(by apply apart_witness) ltac:(by apply apart_witness) ltac:(done) Ev) as H. cbv beta iota in H.
  rewrite Ef1, Ef2 in H. clear Ev.
  assert (Hrest : let '(r, w') := step example_aware 0x100 0x200 0x208 example_world in r = Ok 1 /\
    match current_walk w' 0x100 with
    | Some (Some wk) => frame_address (walk_frame wk) = ReturnAddress 6000
    | _ => False
    end) by (vm_compute; split; reflexivity).
  destruct (step example_aware 0x100 0x200 0x208 example_world) as [r w'].
  destruct Hrest as [H3 H4]. destruct H as (_ & _ & H1 & H2 & _ & _). exact (conj H3 (conj H1 (conj H2 H4))).
Defined.

Lemma init_starts_at_context_witness :
  let '(r, w') := cursor_init_bounds2 0x100 0x500 0x8000 0x8010 0 0 example_world0 in
  r = Ok 0 /\ cursor_view w' 0x100 = Some (Some (5000, 0x8000)).
Proof.
  pose proof (init_starts_at_context 0x100 0x500 0x8000 0x8010 0 0 example_world0 example_library_wf) as H.
  destruct (cursor_init_bounds2 0x100 0x500 0x8000 0x8010 0 0 example_world0) as [r w'] eqn:E.
  destruct H as (_ & [(Hr & _ & Hv & _)|[(Hr & _)|(Hr & _)]]); [done| |];
    exfalso; vm_compute in E; congruence.
Defined.

Lemma stale_cursor_is_inert_witness :
  (step example_aware 0x300 0x200 0x208 example_world).1 = Ok (-1).
Proof.
  destruct (stale_cursor_is_inert example_aware 0x300 0x400 0x408 example_world example_world_wf) as [H _].
  - by apply apart_witness.
  - by apply apart_witness.
  - reflexivity.
  - exact (f_equal fst H).
Defined.

(** A second memory that differs everywhere outside the stack and the cursor. *)
Definition other_world : world :=
  MkWorld (statics example_world) (bounds example_world)
    (fun a => if (a <? 0x118) || ((0x8000 <=? a) && (a <? 0x8010)) then mem example_world a else 42).

Lemma step_reads_only_windows_witness :
  (step example_aware 0x100 0x200 0x208 example_world).1 = (step example_aware 0x100 0x200 0x208 other_world).1.
Proof.
  apply (step_reads_only_windows example_aware 0x100 0x200 0x208 example_world other_world example_world_wf).
  - reflexivity.
  - reflexivity.
  - reflexivity.
  - by apply apart_witness.
  - by apply apart_witness.
  - intros sl Hsl. change (Z.to_nat _) with 0%nat in Hsl.
    assert (stack_lo (inner sl) = 0x8000 /\ stack_hi (inner sl) = 0x8010 /\ stack_lo2 (inner sl) = 0 /\ stack_hi2 (inner sl) = 0)
      as (E1 & E2 & E3 & E4).
    { vm_compute in Hsl. injection Hsl as <-. done. }
    unfold readable, in_window. rewrite E1, E2, E3, E4. unfold u64_MAX.
    split_and!; [lia|lia|]. intros a [_ Ha]. unfold other_world. cbn [mem].
    replace ((a <? 0x118) || ((0x8000 <=? a) && (a <? 0x8010))) with true; [done|].
    symmetry. apply orb_true_iff. destruct Ha; [right; apply andb_true_iff|left]; lia.
Defined.

Lemma fini_releases_once_witness :
  let w' := (cursor_fini 0x100 example_world).2 in
  read_cursor (mem w') 0x100 = dead /\ statics (cursor_fini 0x100 w').2 = statics w'.
Proof.
  pose proof (fini_releases_once 0x100 0x100 example_world example_world_wf) as H.
  destruct (cursor_fini 0x100 example_world) as [r w'] eqn:E.
  destruct H as (_ & _ & H1 & _ & H2); [reflexivity|by right|]. split; [exact H1|exact H2].
Defined.

(** A walk goes on while the module set is republished twice. *)
Lemma api_never_uses_freed_snapshot_witness :
  let writer := CallWriter (fun u : UnwinderInternal unit => u' ← add_module u (example_module 20000 30000); mret (tt, u')) in
  let writer2 := CallWriter (fun u : UnwinderInternal unit => u' ← remove_module u 4096; mret (tt, u')) in
  (run_calls example_aware tt (fun h => fresh (dom h))
     [CallInit 0x100 0x500 0x8000 0x8010 0 0; writer; writer2; CallStep 0x100 0x200 0x208; CallFini 0x100]
     example_world0).1 <> Err UseAfterFree.
Proof.
  cbn zeta. match goal with |- (?m ?w).1 <> _ => set (res := m w) end.
  pose proof (api_never_uses_freed_snapshot example_aware tt (fun h => fresh (dom h))
    (fun h => proj1 (not_elem_of_dom _ _) (is_fresh (dom h)))
    [CallInit 0x100 0x500 0x8000 0x8010 0 0;
     CallWriter (fun u : UnwinderInternal unit => u' ← add_module u (example_module 20000 30000); mret (tt, u'));
     CallWriter (fun u : UnwinderInternal unit => u' ← remove_module u 4096; mret (tt, u'));
     CallStep 0x100 0x200 0x208; CallFini 0x100] example_world0 example_library_wf) as H.
  change (run_calls _ _ _ _ _) with res in H. destruct res. exact (proj1 H).
Defined.
