(* ===== verification/Backtrace.v ===== *)
(** * Whole walks

    A caller's loop over [fh_step] ([src/src/cursor.rs]), from a captured context to the
    end of the stack: the cursor, the slot's cache, framehop's unwinder and the rules of
    an architecture composed. *)
From S2P Require Import Prelude CodeAddress UnwindRule X86Regs X86Rules ModuleList RuleCache Unwinder Arch State Cursor.
From Stdlib Require Import FunctionalExtensionality.

Section Backtrace.
  Context {D R Regs C E : Type} `{UnwindRule R Regs} `{Native Regs}.
  (** [unwind_frame_impl] of the architecture. *)
  Context (callback : frame_callback (D := D) (R := R) (Regs := Regs) (C := C) (E := E)).

Abbreviation lib_state := (state (D := D) (R := R) (Regs := Regs) (C := C)).
Abbreviation walk_state := (SlotInner (R := R) (Regs := Regs) (C := C)).
Abbreviation lib_world := (world (D := D) (R := R) (Regs := Regs) (C := C)).
Abbreviation step := (step (unwind_frame_signal_aware callback)).

(** The loop of a caller: one [fh_step] per frame while it reports a further one; the
    addresses that were output. *)
Fixpoint backtrace (fuel : nat) (cur out_ip out_sp : Z) : ST lib_world crash (list Z) :=
  match fuel with
  | O => mret []
  | S fuel =>
      more ← step cur out_ip out_sp;
      w ← st_get;
      if more <=? 0 then mret [mem w out_ip]
      else
        ips ← backtrace fuel cur out_ip out_sp;
        mret (mem w out_ip :: ips)
  end.

(** ** Frames outside all modules *)

(** The cache holds no rule but the fallback for an address outside all modules. *)
Definition unknown_ok (u : UnwinderInternal D) (rc : RuleCache R) : Prop :=
  cache_wf rc /\
  forall a rule, u64 a -> find_module_for_address u a = None ->
    cached rc a (modules_generation u) = Some rule -> rule = fallback_rule.

(** A sound cache is such a cache, and so is one of an earlier module list. *)
Lemma sound_unknown_ok u (s : UState R Regs C) :
  cache_wf (rule_cache (st_cache s)) -> sound callback u (rule_cache (st_cache s)) ->
  unknown_ok u (rule_cache (st_cache s)).
Proof.
  intros Hwf Hc. split; [done|]. intros a rule Ha Hm Hr.
  destruct (Hc a rule Ha Hr) as (address & <- & [Hf|[-> _]]); [|done].
  destruct (Hf address (fun _ => None) s eq_refl eq_refl) as (s' & Hfind & _).
  unfold find_rule in Hfind. rewrite Hm, st_ret_spec in Hfind. by simplify_eq.
Qed.

Lemma cached_before_unknown_ok u rc : cache_wf rc -> cached_before (modules_generation u) rc -> unknown_ok u rc.
Proof. intros Hwf Hb. split; [done|]. intros a rule _ _ Hr. by rewrite cached_before_None in Hr. Qed.

Lemma with_cache_unknown u address rs (s : UState R Regs C) :
  frame_address_wf address -> unknown_ok u (rule_cache (st_cache s)) ->
  find_module_for_address u (address_for_lookup address) = None ->
  let m := exec fallback_rule (negb (is_return_address address)) rs (st_regs s) in
  exists s', with_cache u address rs callback s =
      (match m.1 with Ok r => Ok (not_interrupted r) | Err e => Err e end, s') /\
    st_regs s' = m.2 /\ unknown_ok u (rule_cache (st_cache s')).
Proof.
  intros Ha [Hwf Hok] Hm. cbn zeta. pose proof (address_for_lookup_u64 _ Ha) as Hu.
  set (rc := (cache_lookup (rule_cache (st_cache s)) (address_for_lookup address) (modules_generation u)).2).
  assert (Hrc : unknown_ok u rc).
  { split; [by apply lookup_wf|]. intros a rule Hua Hma Hr. unfold rc in Hr. rewrite cached_lookup in Hr. eauto. }
  destruct (cached (rule_cache (st_cache s)) (address_for_lookup address) (modules_generation u)) as [rule|] eqn:Hc.
  - rewrite (with_cache_hit _ _ _ _ _ rule) by done. apply Hok in Hc as ->; [|done..].
    eexists. split; [done|]. split; [done|exact Hrc].
  - unfold with_cache. rewrite st_bind_spec, st_get_spec.
    pose proof (lookup_result (rule_cache (st_cache s)) _ (modules_generation u) Hu) as Hl. rewrite Hc in Hl.
    destruct (cache_lookup _ _ _) as [res rc'] eqn:El. cbn in Hl, rc. subst res rc. rewrite st_bind_spec.
    unfold st_modify at 1, find_rule. rewrite Hm, st_bind_spec, st_ret_spec, st_bind_spec. unfold st_modify.
    rewrite st_bind_spec, on_regs_fst. cbn [set_rule_cache st_regs st_cache rule_cache gimli_unwind_context].
    destruct (exec fallback_rule _ rs (st_regs s)) as [[r|e] regs']; (eexists; split; [done|]; split; [done|]);
      cbn; (split; [by apply insert_wf; [apply Hrc|]|]); intros a rule Hua Hma Hr;
      (apply cached_insert_same in Hr as [[-> ->]|Hr]; [done|by eapply Hrc|apply Hrc|done|done]).
Qed.
(** ** One step of the loop *)

(** Code outside all modules, and not a signal trampoline. *)
Definition unknown_code (u : UnwinderInternal D) (a : FrameAddress) : Prop :=
  frame_address_wf a /\ find_module_for_address u (address_for_lookup a) = None /\
  match sigreturn with None => True | Some (is_trampoline, _) => is_trampoline (address a) = false end.

(** The walk of the cursor is at the frame [i], with the modules [u] and the stack [rs];
    [ok] is what the proof at hand keeps of the frame. *)
Record at_frame (ok : walk_state -> Prop) (w : lib_world) (cur : Z) (u : UnwinderInternal D) (rs : stack_reader)
    (i : walk_state) : Prop := {
  af_wf : walk_wf (statics w);
  af_live : is_live (statics w) (read_cursor (mem w) cur) = true;
  af_slot : exists sl p snap, slots (statics w) !! Z.to_nat (cursor_slot (read_cursor (mem w) cur)) = Some sl /\
    inner sl = i /\ snapshot i = Some p /\ heap (statics w) !! p = Some snap /\ unw snap = u;
  af_going : done i = false;
  af_addr : address (cur_addr i) = cur_ip i;
  af_stack : read_stack i (mem w) = rs;
  af_windows : stack_hi i <= u64_MAX /\ stack_hi2 i <= u64_MAX;
  af_ok : ok i;
}.

(** The caller's outputs: apart from the cursor, from each other and from the stack. *)
Definition outputs_ok (cur out_ip out_sp : Z) (i : walk_state) : Prop :=
  apart cur out_ip /\ apart cur out_sp /\ out_ip <> out_sp /\ ~ readable i out_ip /\ ~ readable i out_sp.

(** Writing outputs leaves the stack as it is. *)
Lemma read_stack_outputs cur out_ip out_sp i m ip sp :
  outputs_ok cur out_ip out_sp i -> stack_hi i <= u64_MAX -> stack_hi2 i <= u64_MAX ->
  read_stack i (write out_sp sp (write out_ip ip m)) = read_stack i m.
Proof.
  intros (_ & _ & _ & Hi & Hs) H1 H2. apply read_stack_readable; [|done..]. intros a Ha.
  rewrite !write_ne; [done|by intros ->..].
Qed.

(** One step of the loop: the frame is output and the slot holds what [advance] gives. *)
Lemma step_at_frame ok w cur out_ip out_sp u rs i c i' :
  at_frame ok w cur u rs i -> outputs_ok cur out_ip out_sp i ->
  advance (unwind_frame_signal_aware callback) u rs i = Ok (c, i') ->
  exists w', step cur out_ip out_sp w = (Ok c, w') /\ mem w' out_ip = cur_ip i /\ outputs_ok cur out_ip out_sp i' /\
    ((c = 0 /\ cursor_view w' cur = Some None) \/ (c = 1 /\ forall ok', ok' i' -> at_frame ok' w' cur u rs i')).
Proof.
  intros [Hw Hlive (sl & p & snap & Hsl & Hin & Hp & Hheap & Hu) Hgo _ Hstack [H1 H2] _] Hout Hadv.
  pose proof Hout as (Ho1 & Ho2 & Hne & Hr1 & Hr2).
  pose proof (step_run (unwind_frame_signal_aware callback) cur out_ip out_sp w Hw) as Hrun. cbn zeta in Hrun.
  rewrite !read_cursor_output in Hrun by done.
  destruct (step cur out_ip out_sp w) as [r w']. destruct Hrun as (_ & Hw' & Hrun). rewrite Hlive in Hrun. cbn [negb] in Hrun.
  destruct Hrun as (sl1 & Hi1 & Hrun). rewrite Hsl in Hi1. injection Hi1 as <-.
  rewrite Hin, Hgo, Hp in Hrun. destruct Hrun as (snap1 & Hs1 & Hm & Hh & _ & Hrun).
  rewrite Hheap in Hs1. injection Hs1 as <-. rewrite Hu, !(read_stack_outputs cur), Hstack, Hadv in Hrun by done.
  destruct Hrun as (-> & (E1 & E2 & E3 & E4 & E5 & Hcode) & Hsls).
  assert (Hcur : read_cursor (mem w') cur = read_cursor (mem w) cur) by (rewrite Hm, !read_cursor_output by done; done).
  assert (Hi' : slots (statics w') !! Z.to_nat (cursor_slot (read_cursor (mem w) cur)) = Some (set_inner i' sl)).
  { rewrite Hsls. apply list_lookup_insert_eq. by eapply lookup_lt_Some. }
  assert (Hl : is_live (statics w') (read_cursor (mem w) cur) = true).
  { eapply (is_live_same _ _ _ Hw Hw'); [|done]. intros sl' Hsl'. rewrite Hsl in Hsl'. injection Hsl' as <-.
    by exists (set_inner i' sl). }
  assert (Hwin : forall m, read_stack i' m = read_stack i m) by (intros m; unfold read_stack; by rewrite E2, E3, E4, E5).
  exists w'. split_and!; [done| | |].
  - by rewrite Hm, write_ne, write_eq.
  - unfold outputs_ok, readable. by rewrite E2, E3, E4, E5.
  - destruct Hcode as [(-> & Hd & _ & Ha)|(-> & Hd & _)]; [right|left]; split; try done.
    + intros ok' Hok. split; rewrite ?Hcur; try done; [|congruence|rewrite Hwin, Hm, !(read_stack_outputs cur) by done; done|].
      * exists (set_inner i' sl), p, snap. split_and!; [done|done|congruence|congruence|done].
      * by rewrite E3, E5.
    + unfold cursor_view. rewrite Hcur, Hl, slot_lookup, Hi' by apply Hw'. cbn. by rewrite Hd.
Qed.

(** ** Walks through unknown code *)

(** What unwinding a frame of unknown code makes of the walk. *)
Lemma unwind_current_unknown u rs i :
  unknown_code u (cur_addr i) -> unknown_ok u (rule_cache (slot_cache i)) -> address (cur_addr i) = cur_ip i ->
  let m := exec fallback_rule (negb (is_return_address (cur_addr i))) rs (slot_regs i) in
  m.1 <> Err Panic ->
  exists cache, unknown_ok u (rule_cache cache) /\
    advance (unwind_frame_signal_aware callback) u rs i =
      match m.1 with
      | Ok (Some ra) =>
          if ra =? 0 then Ok (0, with_progress i m.2 cache (cur_addr i) (cur_ip i) true)
          else Ok (1, with_progress i m.2 cache (ReturnAddress ra) ra (done i))
      | _ => Ok (0, with_progress i m.2 cache (cur_addr i) (cur_ip i) true)
      end.
Proof.
  intros (Hwf & Hm & Hsig) Hc Haddr. cbn zeta. intros Hp.
  destruct (with_cache_unknown u (cur_addr i) rs (MkUState (slot_regs i) (slot_cache i)) Hwf Hc Hm) as (s' & Hw & Hr & Hc').
  cbn [st_regs] in Hw, Hr. exists (st_cache s'). split; [done|].
  assert (Hadv : advance (unwind_frame_signal_aware callback) u rs i = unwind_current (unwind_frame_signal_aware callback) u rs i).
  { unfold advance. destruct sigreturn as [[is_tr rest]|]; [|done]. rewrite <- Haddr. by rewrite Hsig. }
  rewrite Hadv. unfold unwind_current, unwind_frame_signal_aware. rewrite Hw, <- Hr.
  destruct (exec fallback_rule _ rs (slot_regs i)).1 as [[ra|]|[e|]]; [|done..].
  cbn [not_interrupted fmap option_fmap option_map]. unfold NonZeroU64_new. by destruct (ra =? 0).
Qed.
(** A step outputs the frame; it goes on to the caller's frame, or the walk has ended. *)
Lemma step_unknown w cur out_ip out_sp u rs i :
  at_frame (fun i => unknown_ok u (rule_cache (slot_cache i))) w cur u rs i ->
  unknown_code u (cur_addr i) -> outputs_ok cur out_ip out_sp i ->
  let m := exec fallback_rule (negb (is_return_address (cur_addr i))) rs (slot_regs i) in
  m.1 <> Err Panic ->
  exists r w', step cur out_ip out_sp w = (Ok r, w') /\ mem w' out_ip = cur_ip i /\
    match m.1 with
    | Ok (Some ra) =>
        if ra =? 0 then r = 0 /\ cursor_view w' cur = Some None
        else r = 1 /\ exists cache,
          let i' := with_progress i m.2 cache (ReturnAddress ra) ra (done i) in
          at_frame (fun i => unknown_ok u (rule_cache (slot_cache i))) w' cur u rs i' /\ outputs_ok cur out_ip out_sp i'
    | _ => r = 0 /\ cursor_view w' cur = Some None
    end.
Proof.
  intros Hat Hunk Hout. cbn zeta. intros Hpanic.
  destruct (unwind_current_unknown u rs i Hunk (af_ok _ _ _ _ _ _ Hat) (af_addr _ _ _ _ _ _ Hat) Hpanic) as (cache & Hcache & Hadv).
  set (m := exec fallback_rule _ rs (slot_regs i)) in *.
  destruct m.1 as [[ra|]|e]; [destruct (ra =? 0)|..];
    destruct (step_at_frame _ _ _ _ _ _ _ _ _ _ Hat Hout Hadv) as (w' & Hs & Hip & Hout' & [[Hc Hend]|[Hc Hat']]); try done;
    (eexists _, w'; split; [exact Hs|]; split; [exact Hip|]); try done.
  split; [done|]. exists cache. split; [by apply Hat'|done].
Qed.
(** A walk through unknown code outputs its first frame and then the frames that the
    fallback rule finds, and ends. *)
Lemma backtrace_unknown fuel : forall w cur out_ip out_sp u rs i ras e,
  at_frame (fun i => unknown_ok u (rule_cache (slot_cache i))) w cur u rs i -> outputs_ok cur out_ip out_sp i ->
  walk (fun _ _ => fallback_rule) rs fuel (negb (is_return_address (cur_addr i))) (slot_regs i) = (ras, e) ->
  e <> OutOfFuel -> e <> Stopped Panic -> Forall (fun ra => ra <> 0) ras ->
  Forall (unknown_code u) (cur_addr i :: (ReturnAddress <$> ras)) ->
  exists w', backtrace fuel cur out_ip out_sp w = (Ok (cur_ip i :: ras), w') /\ cursor_view w' cur = Some None.
Proof.
  induction fuel as [|fuel IH]; intros w cur out_ip out_sp u rs i ras e Hat Hout Hwalk Hfuel Hpanic Hnz Hunk.
  { cbn in Hwalk. by simplify_eq. }
  apply Forall_cons in Hunk as [Hunk Hunks].
  pose proof (step_unknown w cur out_ip out_sp u rs i Hat Hunk Hout) as Hstep. cbn zeta in Hstep.
  cbn [walk] in Hwalk. cbn [backtrace].
  destruct (exec fallback_rule _ rs (slot_regs i)) as [[[ra|]|f] regs'] eqn:Ee; cbn [fst snd] in Hstep.
  - destruct (walk _ rs fuel false regs') as [ras' e'] eqn:Ew. injection Hwalk as <- <-.
    destruct Hstep as (r & w1 & Hs & Hip & Hnext); [done|].
    apply Forall_cons in Hnz as [Hra Hnz]. rewrite (proj2 (Z.eqb_neq ra 0)) in Hnext by done.
    destruct Hnext as (-> & cache & Hat' & Hout'). rewrite fmap_cons in Hunks.
    destruct (IH w1 cur out_ip out_sp u rs (with_progress i regs' cache (ReturnAddress ra) ra (done i)) ras' e') as (w' & Hb & Hend);
      try done.
    exists w'. split; [|done]. rewrite st_bind_spec, Hs, st_bind_spec, st_get_spec. cbn [Z.leb Z.compare].
    rewrite st_bind_spec, Hb, st_ret_spec, Hip. done.
  - injection Hwalk as <- <-. destruct Hstep as (r & w1 & Hs & Hip & -> & Hend); [done|].
    exists w1. split; [|done]. rewrite st_bind_spec, Hs, st_bind_spec, st_get_spec. cbn [Z.leb Z.compare].
    by rewrite st_ret_spec, Hip.
  - injection Hwalk as <- <-. destruct Hstep as (r & w1 & Hs & Hip & -> & Hend); [by intros [= ->]|].
    exists w1. split; [|done]. rewrite st_bind_spec, Hs, st_bind_spec, st_get_spec. cbn [Z.leb Z.compare].
    by rewrite st_ret_spec, Hip.
Qed.

(** ** The start of a walk *)

(** The context a cursor is initialised from, and the windows of its walk. *)
Definition start_context (cur ctx : Z) (w : lib_world) : FhContext := read_context (write_cursor cur dead (mem w)) ctx.
Definition start_window (cur ctx lo hi : Z) (w : lib_world) : Z * Z :=
  init_window (bounds w) lo hi (context_sp (start_context cur ctx w)).

(** [fh_cursor_init_bounds2] has taken the library from [w] to [w1], where the modules of
    [snap] are published; the outputs of the caller lie apart from the cursor, from each
    other and from the stack. *)
Record started (cur ctx lo hi lo2 hi2 out_ip out_sp : Z) (w w1 : lib_world) (snap : Snapshot (D := D)) : Prop := {
  started_wf : walk_wf (statics w);
  started_snapshot : exists p, current (statics w) = Some p /\ heap (statics w) !! p = Some snap;
  started_init : cursor_init_bounds2 cur ctx lo hi lo2 hi2 w = (Ok 0, w1);
  started_windows : snd (start_window cur ctx lo hi w) <= u64_MAX /\ snd (init_window2 lo2 hi2) <= u64_MAX;
  started_apart : apart cur out_ip /\ apart cur out_sp /\ out_ip <> out_sp;
  started_outside : forall out, out = out_ip \/ out = out_sp ->
    ~ in_window (start_window cur ctx lo hi w).1 (start_window cur ctx lo hi w).2 out /\
    ~ in_window (init_window2 lo2 hi2).1 (init_window2 lo2 hi2).2 out;
}.

(** The walk is then at the context's frame. *)
Lemma started_frame cur ctx lo hi lo2 hi2 out_ip out_sp w w1 snap :
  started cur ctx lo hi lo2 hi2 out_ip out_sp w w1 snap ->
  let c := start_context cur ctx w in
  exists mask i,
    slot_regs i = make_regs c mask /\ cur_ip i = context_ip c /\ cur_addr i = InstructionPointer (context_ip c) /\
    (stack_lo i, stack_hi i) = start_window cur ctx lo hi w /\ (stack_lo2 i, stack_hi2 i) = init_window2 lo2 hi2 /\
    (exists sl, sl ∈ slots (statics w) /\ slot_cache i = slot_cache (inner sl)) /\
    outputs_ok cur out_ip out_sp i /\
    forall ok : walk_state -> Prop, ok i -> at_frame ok w1 cur (unw snap) (read_stack i (mem w1)) i.
Proof.
  intros [Hw (p & Ecur & Hsnap) Hinit [H1 H2] (Ha1 & Ha2 & Hne) Hout]. cbn zeta.
  pose proof (cursor_init_run cur ctx lo hi lo2 hi2 w Hw) as Hrun.
  cbn zeta in Hrun. rewrite Hinit in Hrun. destruct Hrun as (_ & Hw1 & Hrun).
  destruct (claim_slot (statics w)) as [[[j n]|] s1]; [|by destruct Hrun].
  destruct Hrun as (sl & Hsl & _ & _ & Hh & _ & Hrun). rewrite Ecur, Hsnap in Hrun.
  destruct Hrun as (snap' & [= <-] & _ & Hm & Hs). unfold start_window in *.
  fold (start_context cur ctx w) in Hs. set (c := start_context cur ctx w) in *.
  set (i := initial_inner (slot_cache (inner sl)) c (max_code_addr snap) p (init_window (bounds w) lo hi (context_sp c))
    (init_window2 lo2 hi2)) in Hs.
  exists (ptr_auth_mask (max_code_addr snap)), i.
  split; [done|]. split; [done|]. split; [done|]. split; [by destruct (init_window _ _ _ _)|].
  split; [by destruct (init_window2 _ _)|]. split; [exists sl; split; [by eapply list_elem_of_lookup_2|done]|].
  split; [split_and!; [done..| |]; intros [_ Hr]; [destruct (Hout out_ip)|destruct (Hout out_sp)]; auto; by destruct Hr|].
  intros ok Hok. assert (Hj : Z.to_nat (Z.of_nat j) = j) by lia.
  assert (Hi : slots (statics w1) !! j = Some (MkSlot true n (Some p) i)).
  { rewrite Hs. apply list_lookup_insert_eq. by eapply lookup_lt_Some. }
  split; rewrite ?Hm, ?read_write_cursor; cbn [cursor_slot magic nonce]; rewrite ?Hj; try done.
  - unfold is_live. cbn [cursor_slot magic nonce]. rewrite Hj, (nonce_matches_lookup _ _ _ _ (ww_pool _ Hw1) Hi), !Z.eqb_refl.
    rewrite (proj2 (Z.eqb_neq _ _)); [done|]. eapply slot_index_small; [apply Hw|exact Hsl].
  - eexists _, p, snap. split_and!; [exact Hi|done|done|by rewrite Hh|done].
Qed.
End Backtrace.

(** Fresh slots have empty caches. *)
Lemma fresh_caches {R Regs C} `{Native Regs} (ok : RuleCache R -> Prop) (l : list (Slot (R := R) (Regs := Regs) (C := C))) n c :
  ok RuleCache_new -> l = replicate n (Slot_new c) -> Forall (fun sl => ok (rule_cache (slot_cache (inner sl)))) l.
Proof. intros Hok ->. by apply Forall_replicate. Qed.

Lemma unknown_ok_new {D R Regs} `{UnwindRule R Regs} (u : UnwinderInternal D) : unknown_ok u (RuleCache_new (R := R)).
Proof. split; [apply RuleCache_new_wf|]. intros a rule _ _ Hr. by rewrite cached_new in Hr. Qed.

(** ** Frame pointers on x86_64 *)

(** The 8-aligned words of two windows; nothing else can be read. *)
Definition stack_words (win win2 : Z * Z) (m : memory) : stack_reader := fun a =>
  let inside (w : Z * Z) := (fst w <=? a) && (saturating_add 64 a 8 <=? snd w) in
  if (inside win || inside win2) && (Z.land a 7 =? 0) then Some (m a) else None.

Lemma read_stack_words {R Regs C} (i : SlotInner (R := R) (Regs := Regs) (C := C)) m :
  read_stack i m = stack_words (stack_lo i, stack_hi i) (stack_lo2 i, stack_hi2 i) m.
Proof.
  apply functional_extensionality. intros a. unfold read_stack, stack_words. cbn [fst snd].
  set (inside := _ || (_ && _)). by destruct inside, (Z.land a 7 =? 0).
Qed.

(** The fallback rule treats the first frame like the others. *)
Lemma fallback_walk_first rs fuel first regs :
  walk (fun _ _ => fallback_rule (R := UnwindRuleX86_64)) rs fuel first regs =
  walk (fun _ _ => fallback_rule (R := UnwindRuleX86_64)) rs fuel false regs.
Proof. destruct fuel; [done|]. destruct first; reflexivity. Qed.

Lemma fp_chain_nonzero rs ras : forall bp, fp_chain rs bp ras -> Forall (fun ra => ra <> 0) ras.
Proof.
  induction ras as [|ra ras IH]; intros bp Hc; [done|].
  destruct Hc as (_ & _ & _ & Hra & bp' & _ & _ & Hc). constructor; [done|by eapply IH].
Qed.

Section FramePointers.
  Context {D C E : Type}.
  Context (callback : frame_callback (D := D) (R := UnwindRuleX86_64) (Regs := UnwindRegsX86_64) (C := C) (E := E)).

(** C8: a whole walk through code without unwind information. On x86_64, when a cursor
    is initialised from a context whose frame pointer heads a list of frames in the
    thread's stack, all of them in code outside the published modules (JIT or foreign
    code), a caller's loop over [fh_step] outputs the context's ip and then exactly the
    list's return addresses, innermost first, and after that the walk has ended. It needs
    of the slots' caches only that they hold no wrong rule for unknown code. *)
Theorem frame_pointer_backtrace cur ctx lo hi lo2 hi2 out_ip out_sp w w1 snap ras
    (Hstart : started cur ctx lo hi lo2 hi2 out_ip out_sp w w1 snap)
    (Hcaches : Forall (fun sl => unknown_ok (unw snap) (rule_cache (slot_cache (inner sl)))) (slots (statics w))) :
  let c := start_context cur ctx w in
  fp_chain (stack_words (start_window cur ctx lo hi w) (init_window2 lo2 hi2) (mem w1)) (r2 c) ras ->
  ras = [] \/ context_sp c < r2 c + 16 ->
  Forall (unknown_code (unw snap)) (InstructionPointer (context_ip c) :: (ReturnAddress <$> ras)) ->
  exists w', backtrace callback (S (length ras)) cur out_ip out_sp w1 = (Ok (context_ip c :: ras), w') /\
    cursor_view w' cur = Some None.
Proof.
  cbn zeta. intros Hchain Hsp Hunk. destruct (started_frame _ _ _ _ _ _ _ _ _ _ _ Hstart)
    as (mask & i & Hregs & Hip & Haddr & Hw1 & Hw2 & (sl & Hsl & Hc) & Hout & Hat).
  rewrite Forall_forall in Hcaches. specialize (Hcaches sl Hsl). rewrite <- Hc in Hcaches.
  rewrite <- Hw1, <- Hw2, <- read_stack_words in Hchain.
  rewrite <- Hip. eapply backtrace_unknown; [by apply Hat|exact Hout|..|rewrite Haddr; exact Hunk].
  - rewrite fallback_walk_first, Hregs. apply frame_pointer_walk; [done|exact Hchain|exact Hsp|lia].
  - done.
  - done.
  - by eapply fp_chain_nonzero.
Qed.
End FramePointers.

(** ** Witness *)

(** Two frames on the stack: the context at 0x500 (ip 9000, sp 0x8000, bp 0x8010), whose
    frame pointers are 0x8010, 0x8020 and 0. *)
Definition example_frames : memory :=
  write 0x8010 0x8020 (write 0x8018 9100 (write 0x8020 0 (write 0x8028 9200
    (write 0x510 0x8010 (write 0x508 0x8000 (write 0x500 9000 (fun _ => 0))))))).
Definition example_walk_start : world := MkWorld example_library (0, 0) example_frames.

(** A cursor at 0x100, a context at 0x500, outputs at 0x200 and 0x208, and a stack at
    0x8000. *)
Lemma example_started {D R Regs C} `{Native Regs} (lib : state (D := D) (R := R) (Regs := Regs) (C := C)) m p snap :
  let start := cursor_init_bounds2 0x100 0x500 0x8000 0x8030 0 0 (MkWorld lib (0, 0) m) in
  walk_wf lib -> current lib = Some p -> heap lib !! p = Some snap -> start.1 = Ok 0 ->
  started 0x100 0x500 0x8000 0x8030 0 0 0x200 0x208 (MkWorld lib (0, 0) m) start.2 snap.
Proof.
  intros start Hw Hp Hsnap Hs. split; [done|by exists p| | | |].
  - rewrite <- Hs. apply surjective_pairing.
  - by split.
  - split; [by apply apart_witness|]. split; [by apply apart_witness|done].
  - unfold in_window. intros out Ho. cbn. unfold u64_MAX. destruct Ho as [-> | ->]; split; lia.
Qed.

Lemma frame_pointer_backtrace_witness :
  exists w', backtrace example_callback 3 0x100 0x200 0x208
      (cursor_init_bounds2 0x100 0x500 0x8000 0x8030 0 0 example_walk_start).2 = (Ok [9000; 9100; 9200], w') /\
    cursor_view w' 0x100 = Some None.
Proof.
  destruct (heap example_library !! 7%nat) as [snap|] eqn:Es; [|by vm_compute in Es].
  apply (frame_pointer_backtrace example_callback 0x100 0x500 0x8000 0x8030 0 0 0x200 0x208
    example_walk_start _ snap [9100; 9200]).
  - apply (example_started _ _ 7%nat snap example_library_wf); [done|exact Es|by vm_compute].
  - apply (fresh_caches _ _ 32 tt); [apply unknown_ok_new|by vm_compute].
  - cbn [fp_chain]. unfold in_u.
    repeat (split; [by first [done | right | vm_compute]|]). exists 0x8020.
    repeat (split; [by first [done | right | vm_compute]|]). exists 0. split; [done|]. split; [by left|done].
  - by right.
  - vm_compute in Es. injection Es as <-. repeat constructor; try done.
Defined.
