(* ===== verification/Termination.v ===== *)
(** * Walks end

    A caller's loop over [fh_step] ([src/src/cursor.rs]) ends within a number of steps that
    the stack windows give, when every frame is unwound by a rule. The argument is made
    once for every architecture that is [Climbing] ([Progress]). *)
From S2P Require Import Prelude CodeAddress UnwindRule X86Regs X86Rules Sections Dwarf X86Dwarf Compact X86Analysis X86Compact Pe.
From S2P Require Import ModuleList RuleCache Unwinder ModuleData Arch Progress State Cursor Backtrace.
From S2P Require Aarch64Rules Aarch64Dwarf Aarch64Analysis Aarch64Compact.

Section Termination.
  Context {D R Regs C E : Type} `{UnwindRule R Regs, Native Regs, !NativeLaws Regs}
    `{!RuleRange R, !SafeRules R Regs, !Climbing Regs, !ClimbingLaws R Regs}.
  Context (callback : frame_callback (D := D) (R := R) (Regs := Regs) (C := C) (E := E)).

Abbreviation walk_state := (SlotInner (R := R) (Regs := Regs) (C := C)).
Abbreviation aware := (unwind_frame_signal_aware callback).

(** Every module of [u] is unwound by rules: the callback finds a rule or fails, and
    leaves the registers and the cached rules alone. *)
Definition rule_driven (u : UnwinderInternal D) : Prop := forall a m rel rs s,
  find_module_for_address u (address_for_lookup a) = Some (m, rel) ->
  let '(r, s') := callback m a rel rs s in
  st_regs s' = st_regs s /\ rule_cache (st_cache s') = rule_cache (st_cache s) /\
  match r with Ok (ExecRule rule) => rule_ok rule | Err (Fail _) => True | _ => False end.

Lemma find_rule_driven u a rs s : rule_driven u ->
  exists rule s', find_rule u a rs callback s = (Ok (UseRule rule), s') /\ rule_ok rule /\
    st_regs s' = st_regs s /\ rule_cache (st_cache s') = rule_cache (st_cache s).
Proof.
  intros Hd. pose proof fallback_ok. unfold find_rule. destruct (find_module_for_address _ _) as [[m rel]|] eqn:Em.
  - specialize (Hd a m rel rs s Em). destruct (callback m a rel rs s) as [[[rule|ra|ra]|[e|]] s'];
      destruct Hd as (Hr & Hc & Hs); try done; by eexists _, _.
  - eexists _, _. split; [done|]. by split_and!.
Qed.

(** A step through the cache executes a rule. *)
Lemma with_cache_driven u a rs s :
  rule_driven u -> rules_in rule_ok (rule_cache (st_cache s)) ->
  exists rule s', rule_ok rule /\ rules_in rule_ok (rule_cache (st_cache s')) /\
    let m := exec rule (negb (is_return_address a)) rs (st_regs s) in
    with_cache u a rs callback s = (match m.1 with Ok r => Ok (not_interrupted r) | Err e => Err e end, s') /\
    st_regs s' = m.2.
Proof.
  intros Hd Hok. destruct (rules_in_lookup rule_ok _ (address_for_lookup a) (modules_generation u) Hok) as [Hrc Hhit].
  unfold with_cache. rewrite st_bind_spec, st_get_spec. destruct (cache_lookup _ _ _) as [[h|rule] rc']; cbn [fst snd] in *;
    rewrite st_bind_spec; unfold st_modify at 1.
  - rewrite st_bind_spec. destruct (find_rule_driven u a rs (set_rule_cache rc' s) Hd) as (rule & s1 & -> & Hs & Hr & Hc1).
    rewrite st_bind_spec. unfold st_modify. rewrite st_bind_spec, on_regs_fst.
    cbn [set_rule_cache st_regs st_cache rule_cache gimli_unwind_context] in *. rewrite Hr, Hc1.
    set (m := exec rule (negb (is_return_address a)) rs (st_regs s)).
    eexists rule, (MkUState m.2 (MkCache _ (cache_insert rc' _ rule))). split; [done|].
    split; [by apply rules_in_insert|]. cbn zeta. fold m. by destruct m as [[r|e] regs'].
  - rewrite st_bind_spec, on_regs_fst. set (m := exec rule _ rs _).
    exists rule, (MkUState m.2 (MkCache (gimli_unwind_context (st_cache s)) rc')). split; [done|]. split; [exact Hrc|].
    cbn [set_rule_cache st_regs st_cache] in *. cbn zeta. fold m. by destruct m as [[r|e] regs'].
Qed.

(** ** Every step climbs the stack *)

Lemma read_stack_below (i : walk_state) m :
  (forall a, u64 (m a)) -> reads_below (Z.max (stack_hi i) (stack_hi2 i)) (read_stack i m).
Proof.
  intros Hm a v. unfold read_stack. destruct (negb _ || negb _) eqn:Eb; [done|]. intros [= <-].
  bool_to_prop. split; [done|]. change 7 with (Z.ones 3) in *. rewrite Z.land_ones in * by lia.
  split; [done|]. unfold saturating_add, u64_MAX in *.
  match goal with H : _ \/ _ |- _ => clear -H; destruct H as [H|H]; bool_to_prop; lia end.
Qed.

(** What every frame of a walk satisfies, and what a frame with a return address does
    that is less than [n] frames below the end. *)
Record frame_ok (u : UnwinderInternal D) (i : walk_state) : Prop := {
  fo_rules : rules_in rule_ok (rule_cache (slot_cache i));
  fo_regs : regs_ok (slot_regs i);
}.
Record frame_below (u : UnwinderInternal D) (rs : stack_reader) (top : Z) (n : nat) (i : walk_state) : Prop := {
  fb_ok : frame_ok u i;
  fb_kind : is_return_address (cur_addr i) = true;
  fb_linked : linked rs (slot_regs i);
  fb_left : (0 < n)%nat /\ top + reach - native_sp (slot_regs i) < stride * Z.of_nat n;
}.

(** A step ends the walk or climbs to the caller's frame; it never panics. *)
Lemma advance_driven u top rs (i : walk_state) :
  rule_driven u -> reads_below top rs -> frame_ok u i ->
  exists c i', advance aware u rs i = Ok (c, i') /\
    (c = 0 \/ (frame_ok u i' /\ is_return_address (cur_addr i') = true /\ linked rs (slot_regs i') /\
       native_sp (slot_regs i) <= native_sp (slot_regs i') /\
       (is_return_address (cur_addr i) = true -> linked rs (slot_regs i) ->
        native_sp (slot_regs i) + stride <= native_sp (slot_regs i') <= top + reach))).
Proof.
  intros Hd Hrs [Hrules Hl]. unfold advance. rewrite no_sigreturn. unfold unwind_current, unwind_frame_signal_aware.
  destruct (with_cache_driven u (cur_addr i) rs (MkUState (slot_regs i) (slot_cache i)) Hd Hrules)
    as (rule & s' & Hs & Hrules' & Hw & Hregs). cbn zeta in Hw. cbn [st_regs] in Hw, Hregs. rewrite Hw. clear Hw.
  pose proof (exec_safe rule (negb (is_return_address (cur_addr i))) rs (slot_regs i) Hs) as Hp.
  destruct (exec rule _ rs (slot_regs i)) as [[[ra|]|[e|]] regs'] eqn:Ee; cbn [fst snd] in *; [|by eauto..|done].
  cbn [not_interrupted fmap option_fmap option_map]. unfold NonZeroU64_new.
  eapply exec_climbs in Ee as (Hne & Hu & Hok & Hlink & Hle & Hup); [|done..]. rewrite <- Hregs in Hok, Hlink, Hle, Hup.
  rewrite (proj2 (Z.eqb_neq ra 0)) by done. eexists _, _. split; [done|]. right.
  split; [by split|]. split; [done|]. split; [done|]. split; [done|].
  intros Hk. apply Hup. by rewrite Hk.
Qed.

Abbreviation ends n cur out_ip out_sp w :=
  (exists ips w', backtrace callback n cur out_ip out_sp w = (Ok ips, w') /\ cursor_view w' cur = Some None).

(** One more step before a loop that ends. *)
Lemma ends_step n cur out_ip out_sp w w1 :
  step aware cur out_ip out_sp w = (Ok 1, w1) -> ends n cur out_ip out_sp w1 -> ends (S n) cur out_ip out_sp w.
Proof.
  intros Hs (ips & w' & Hb & Hend). eexists _, w'. split; [|done]. cbn [backtrace].
  rewrite st_bind_spec, Hs, st_bind_spec, st_get_spec. cbn [Z.leb Z.compare]. by rewrite st_bind_spec, Hb, st_ret_spec.
Qed.

Lemma ends_last n cur out_ip out_sp w w1 :
  step aware cur out_ip out_sp w = (Ok 0, w1) -> cursor_view w1 cur = Some None -> ends (S n) cur out_ip out_sp w.
Proof.
  intros Hs Hend. eexists _, w1. split; [|done]. cbn [backtrace]. by rewrite st_bind_spec, Hs, st_bind_spec, st_get_spec.
Qed.

Lemma backtrace_driven u top rs cur out_ip out_sp n : rule_driven u -> reads_below top rs -> forall w i,
  at_frame (frame_below u rs top n) w cur u rs i -> outputs_ok cur out_ip out_sp i -> ends n cur out_ip out_sp w.
Proof.
  intros Hd Hrs. induction n as [|n IH]; intros w i Hat Hout;
    pose proof (af_ok _ _ _ _ _ _ Hat) as [Hok Hk Hlink [Hn Hleft]]; [lia|].
  destruct (advance_driven u top rs i Hd Hrs Hok) as (c & i' & Hadv & Hc).
  destruct (step_at_frame _ _ _ _ _ _ _ _ _ _ _ Hat Hout Hadv) as (w1 & Hs & Hip & Hout' & [[-> Hend]|[-> Hat']]).
  - by eapply ends_last.
  - destruct Hc as [|(Hok' & Hk' & Hlink' & _ & Hup)]; [done|]. destruct (Hup Hk Hlink) as [Hup1 Hup2].
    eapply ends_step; [done|]. apply (IH w1 i'); [|done]. apply Hat'. pose proof stride_pos. split; [done..|]. nia.
Qed.

(** A walk over such modules makes at most one step per [stride] of what lies above the
    stack pointer, and two more. *)
Lemma driven_backtrace_terminates cur ctx lo hi lo2 hi2 out_ip out_sp w w1 snap :
  started cur ctx lo hi lo2 hi2 out_ip out_sp w w1 snap -> rule_driven (unw snap) ->
  Forall (fun sl => rules_in rule_ok (rule_cache (slot_cache (inner sl)))) (slots (statics w)) ->
  (forall a, u64 (mem w1 a)) -> context_wf (start_context cur ctx w) ->
  let top := Z.max (start_window cur ctx lo hi w).2 (init_window2 lo2 hi2).2 in
  ends (Z.to_nat ((top + reach - context_sp (start_context cur ctx w)) / stride) + 2) cur out_ip out_sp w1.
Proof.
  intros Hstart Hdriven Hcaches Hmem Hctx. cbn zeta. destruct (started_frame _ _ _ _ _ _ _ _ _ _ _ Hstart)
    as (mask & i & Hregs & Hip & Haddr & Hw1 & Hw2 & (sl & Hsl & Hc) & Hout & Hat).
  rewrite Forall_forall in Hcaches. specialize (Hcaches sl Hsl). rewrite <- Hc in Hcaches.
  pose proof (read_stack_below i (mem w1) Hmem) as Hrs. rewrite <- Hw1, <- Hw2. cbn [snd].
  set (top := Z.max (stack_hi i) (stack_hi2 i)) in *. set (c := start_context cur ctx w) in *.
  assert (Hok : frame_ok (unw snap) i).
  { split; [done|rewrite Hregs; by apply init_ok]. }
  assert (Hsp : native_sp (slot_regs i) = context_sp c) by (rewrite Hregs; apply make_regs_sp).
  rewrite Nat.add_comm. cbn [Nat.add]. rewrite <- Hsp. set (k := Z.to_nat _).
  destruct (advance_driven (unw snap) top _ i Hdriven Hrs Hok) as (code & i' & Hadv & Hcode).
  destruct (step_at_frame _ _ _ _ _ _ _ _ _ _ _ (Hat (fun _ => True) I) Hout Hadv) as (w2 & Hs & _ & Hout' & [[-> Hend]|[-> Hat']]).
  { by eapply ends_last. }
  destruct Hcode as [|(Hok' & Hk & Hlink & Hle & _)]; [done|]. eapply ends_step; [done|].
  apply (backtrace_driven (unw snap) top (read_stack i (mem w1)) cur out_ip out_sp (S k) Hdriven Hrs w2 i'); [|done].
  apply Hat'. split; [done..|]. split; [lia|]. pose proof stride_pos as Hpos. unfold k.
  pose proof (Z.mul_succ_div_gt (top + reach - native_sp (slot_regs i)) stride Hpos). nia.
Qed.
End Termination.

(** ** Modules with compact unwind info *)

Section CompactWalks.
  Context {D R Regs C : Type} (bytes_of : D -> list Z) `{UnwindRule R Regs, Native Regs, !RuleRange R, Gimli C}
    `{!DwarfUnwinding C R Regs, MachoUnwindInfo, !CompactUnwindInfoUnwinding R, !PeUnwinding D R Regs}.
Abbreviation impl := (unwind_frame_impl (D := D) (R := R) (Regs := Regs) (C := C) bytes_of).

(** Compact unwind info that needs no [__eh_frame], or no unwind data at all. *)
Definition rule_data (d : ModuleUnwindDataInternal D) : bool :=
  match d with
  | CompactUnwindInfoAndEhFrame _ None _ _ _ _ | NoUnwindData => true
  | _ => false
  end.

(** The modules of [u] have such data, and macho-unwind-info's lookups are right. *)
Definition rule_modules (u : UnwinderInternal (ModuleUnwindDataInternal D)) : Prop :=
  unwinder_wf u /\ lookup_contains /\ Forall (fun m => rule_data (unwind_data m) = true) (flat u).

Lemma impl_driven `{!CompactLaws R} u :
  (forall self rel first rule, compact_unwind_frame self rel first = Ok (CuiExecRule rule) -> rule_ok rule) ->
  rule_modules u -> rule_driven impl u.
Proof.
  intros Hs (Hwf & Hl & Hd) a m rel rs s Hf. apply find_module_elem in Hf as (Hin & _ & Hrel); [|done].
  rewrite Forall_forall in Hd. specialize (Hd m Hin). unfold unwind_frame_impl.
  destruct (unwind_data m) as [info [eh|] stubs helper bases text|?|?|?|?|]; try done.
  unfold unwind_compact. rewrite st_bind_spec. unfold st_lift at 1. set (unwinder := MkCompactUnwinder _ _ _ _).
  specialize (Hs unwinder rel (negb (is_return_address a))).
  pose proof (compact_unwind_frame_returns unwinder rel (negb (is_return_address a)) Hl Hrel) as Hp.
  destruct (compact_unwind_frame unwinder rel _) as [[rule|off]|[e|]]; cbn; try done.
  split_and!; [done|done|by apply Hs].
Qed.
End CompactWalks.

Section X86.
  Context {D C : Type} (bytes_of : D -> list Z) `{Gimli C} `{MachoUnwindInfo}
    (parse : Z -> OpcodeX86_64) `{!PeUnwinding D UnwindRuleX86_64 UnwindRegsX86_64}.
Abbreviation impl_x86_64 := (unwind_frame_impl (R := UnwindRuleX86_64) (Regs := UnwindRegsX86_64) (C := C) bytes_of).
#[local] Instance compact_x86_64 : CompactUnwindInfoUnwinding UnwindRuleX86_64 := CompactUnwindInfoUnwinding_x86_64 parse.

(** C9: a caller's loop over [fh_step] ends. On x86_64, over modules that are unwound by
    rules (compact unwind info, frame pointers, code that is in no module or has no unwind
    data), a walk makes at most one step per word of its windows above the stack pointer,
    and two more: the loop returns, without a panic, and the walk has then ended, whatever
    the stack holds. *)
Theorem compact_backtrace_terminates cur ctx lo hi lo2 hi2 out_ip out_sp
    (w w1 : world (D := ModuleUnwindDataInternal D) (R := UnwindRuleX86_64) (Regs := UnwindRegsX86_64) (C := C)) snap
    (Hstart : started cur ctx lo hi lo2 hi2 out_ip out_sp w w1 snap)
    (Hparse : parse_u16 parse) (Hmodules : rule_modules (unw snap))
    (Hcaches : Forall (fun sl => rules_in rule_ok (rule_cache (slot_cache (inner sl)))) (slots (statics w)))
    (Hmem : forall a, u64 (mem w1 a)) (Hctx : context_wf (start_context cur ctx w)) :
  let top := Z.max (start_window cur ctx lo hi w).2 (init_window2 lo2 hi2).2 in
  let steps := (Z.to_nat ((top - context_sp (start_context cur ctx w)) / 8) + 2)%nat in
  exists ips w', backtrace impl_x86_64 steps cur out_ip out_sp w1 = (Ok ips, w') /\
    cursor_view w' cur = Some None.
Proof.
  cbn zeta. pose proof (CompactLaws_x86_64 parse) as Hlaws.
  pose proof (driven_backtrace_terminates impl_x86_64 cur ctx lo hi lo2 hi2 out_ip out_sp w w1 snap Hstart) as Hend.
  cbn zeta in Hend. change stride with 8 in Hend. change reach with 0 in Hend. rewrite Z.add_0_r in Hend.
  apply Hend; [|done..]. apply impl_driven; [exact _| |done]. intros self rel first rule. by apply compact_unwind_frame_safe.
Qed.
End X86.

Section Aarch64.
Import Aarch64Rules Aarch64Dwarf Aarch64Compact.
#[local] Existing Instance Native_aarch64.
  Context {D C : Type} (bytes_of : D -> list Z) `{Gimli C} `{MachoUnwindInfo}
    (parse : Z -> OpcodeArm64) `{!PeUnwinding D UnwindRuleAarch64 UnwindRegsAarch64}.
Abbreviation impl_aarch64 := (unwind_frame_impl (R := UnwindRuleAarch64) (Regs := UnwindRegsAarch64) (C := C) bytes_of).
#[local] Instance compact_aarch64 : CompactUnwindInfoUnwinding UnwindRuleAarch64 := CompactUnwindInfoUnwinding_aarch64 parse.

(** C10: and it ends on aarch64 (macOS). Every frame but the first moves the stack pointer
    up by at least a byte, and no frame of the walk lies more than the 16-bit offsets of a
    rule above the stack: the loop returns without a panic within as many steps, and two
    more, whatever the stack holds. *)
Theorem compact_backtrace_terminates_aarch64 cur ctx lo hi lo2 hi2 out_ip out_sp
    (w w1 : world (D := ModuleUnwindDataInternal D) (R := UnwindRuleAarch64) (Regs := UnwindRegsAarch64) (C := C)) snap
    (Hstart : started cur ctx lo hi lo2 hi2 out_ip out_sp w w1 snap)
    (Hparse : Aarch64Compact.parse_u16 parse) (Hmodules : rule_modules (unw snap))
    (Hcaches : Forall (fun sl => rules_in rule_ok (rule_cache (slot_cache (inner sl)))) (slots (statics w)))
    (Hmem : forall a, u64 (mem w1 a)) (Hctx : context_wf (start_context cur ctx w)) :
  let top := Z.max (start_window cur ctx lo hi w).2 (init_window2 lo2 hi2).2 in
  let steps := (Z.to_nat (top + 2 ^ 15 * 8 + 2 ^ 16 * 16 - context_sp (start_context cur ctx w)) + 2)%nat in
  exists ips w', backtrace impl_aarch64 steps cur out_ip out_sp w1 = (Ok ips, w') /\
    cursor_view w' cur = Some None.
Proof.
  cbn zeta.
  pose proof (driven_backtrace_terminates impl_aarch64 cur ctx lo hi lo2 hi2 out_ip out_sp w w1 snap Hstart) as Hend.
  cbn zeta in Hend. change stride with 1 in Hend. change reach with (2 ^ 15 * 8 + 2 ^ 16 * 16) in Hend.
  rewrite Z.div_1_r, Z.add_assoc in Hend.
  apply Hend; [|done..]. apply impl_driven; [exact _| |done]. intros self rel first rule. by apply compact_unwind_frame_wf.
Qed.
End Aarch64.

(** ** Witnesses *)

#[local] Existing Instance X86Compact.example_macho.
#[local] Instance example_gimli : Gimli unit := Dwarf.example_gimli X86Dwarf.example_row_cfa X86Dwarf.example_row_rules.

(** A module of 16 bytes of frame-based code at 0x5000 (relative address 4096), and a stack
    of two frames. *)
Section example.
  Context {R Regs : Type} `{Native Regs}.

Definition example_compact_module : Module_ (ModuleUnwindDataInternal (list Z)) :=
  Module_new id "" (Range 0x5000 0x5010) 0x4000
    (MkExplicit 0x4000 None None None None None (Some []) None None None None None None None).
Definition example_compact_pool : state (D := ModuleUnwindDataInternal (list Z)) (R := R) (Regs := Regs) (C := unit) :=
  init tt 20 state_new.
Definition example_compact_library : state :=
  (with_writer 7%nat (fun u => u' ← add_module u example_compact_module; mret (tt, u')) example_compact_pool).2.
Definition example_compact_stack : memory :=
  write 0x8010 0x8020 (write 0x8018 0x5008 (write 0x8020 0 (write 0x8028 0x700
    (write 0x510 0x8010 (write 0x508 0x8000 (write 0x500 0x5004 (fun _ => 0))))))).
Definition example_compact_start : world := MkWorld example_compact_library (0, 0) example_compact_stack.

Lemma example_compact_library_wf : walk_wf example_compact_library.
Proof.
  pose proof (with_writer_wf 7%nat (fun u => u' ← add_module u example_compact_module; mret (tt, u'))
    example_compact_pool (ensure_slots_wf tt 20 _ state_new_wf) eq_refl) as Hw.
  unfold example_compact_library. destruct (with_writer _ _ _) as [r s] eqn:E. destruct Hw as [_ Hw].
  apply (Hw tt). vm_compute in E. congruence.
Qed.

Lemma example_rule_modules : lookup_contains -> rule_modules (MkUnwinder [[example_compact_module]] 1).
Proof. split; [split; repeat constructor; try done; simpl; lia|]. split; [done|by repeat constructor]. Qed.

Lemma example_lookup : lookup_contains.
Proof.
  intros info a f. cbn. destruct (_ && _) eqn:E; [|done]. intros [= <-]. bool_to_prop. unfold in_u. cbn. lia.
Qed.
End example.

Section examples.
#[local] Existing Instance ModuleData.example_pe.
#[local] Instance example_pe_unwinding : PeUnwinding (list Z) UnwindRuleX86_64 UnwindRegsX86_64 := PeUnwinding_x86_64 id 8.
Definition example_parse : Z -> OpcodeX86_64 := fun _ => FrameBased.

Lemma compact_backtrace_terminates_witness :
  exists ips w', backtrace (unwind_frame_impl (CompactUnwindInfoUnwinding0 := CompactUnwindInfoUnwinding_x86_64 example_parse) id) 8 0x100 0x200 0x208
      (cursor_init_bounds2 0x100 0x500 0x8000 0x8030 0 0 example_compact_start).2 = (Ok ips, w') /\
    cursor_view w' 0x100 = Some None.
Proof.
  destruct (heap (example_compact_library (R := UnwindRuleX86_64) (Regs := UnwindRegsX86_64)) !! 7%nat) as [snap|] eqn:Es; [|by vm_compute in Es].
  apply (compact_backtrace_terminates id example_parse 0x100 0x500 0x8000 0x8030 0 0 0x200 0x208 example_compact_start _ snap).
  - apply (example_started _ _ 7%nat snap example_compact_library_wf); [done|exact Es|by vm_compute].
  - done.
  - assert (unw snap = MkUnwinder [[example_compact_module]] 1) as -> by (vm_compute in Es; injection Es as <-; done).
    apply example_rule_modules, example_lookup.
  - apply (fresh_caches _ _ 32 tt); [apply rules_in_new|by vm_compute].
  - repeat apply write_cursor_u64; try done. repeat apply write_u64; done.
  - by vm_compute.
Defined.
End examples.

Section examples_aarch64.
Import Aarch64Rules Aarch64Dwarf Aarch64Compact.
#[local] Existing Instance Native_aarch64.
#[local] Instance example_pe_unwinding_aarch64 : PeUnwinding (list Z) UnwindRuleAarch64 UnwindRegsAarch64 :=
    pe_unwind_frame_aarch64.
Definition example_parse_aarch64 : Z -> OpcodeArm64 := fun _ => Aarch64Compact.FrameBased.

Lemma compact_backtrace_terminates_aarch64_witness :
  exists steps ips w', backtrace (unwind_frame_impl (CompactUnwindInfoUnwinding0 := CompactUnwindInfoUnwinding_aarch64 example_parse_aarch64) id)
      steps 0x100 0x200 0x208
      (cursor_init_bounds2 0x100 0x500 0x8000 0x8030 0 0 example_compact_start).2 = (Ok ips, w') /\
    cursor_view w' 0x100 = Some None.
Proof.
  destruct (heap (example_compact_library (R := UnwindRuleAarch64) (Regs := UnwindRegsAarch64)) !! 7%nat) as [snap|] eqn:Es; [|by vm_compute in Es].
  eexists. apply (compact_backtrace_terminates_aarch64 id example_parse_aarch64 0x100 0x500 0x8000 0x8030 0 0 0x200 0x208 example_compact_start _ snap).
  - apply (example_started _ _ 7%nat snap example_compact_library_wf); [done|exact Es|by vm_compute].
  - done.
  - assert (unw snap = MkUnwinder [[example_compact_module]] 1) as -> by (vm_compute in Es; injection Es as <-; done).
    apply example_rule_modules, example_lookup.
  - apply (fresh_caches _ _ 32 tt); [apply rules_in_new|by vm_compute].
  - repeat apply write_cursor_u64; try done. repeat apply write_u64; done.
  - by vm_compute.
Defined.
End examples_aarch64.
