(* ===== verification/TypedWorld.v ===== *)
(** * The library's words stay words

    The statics of [src/src/state.rs], the memory and the registered stack bounds of
    [Cursor] hold machine words, and every call keeps them so, whatever the modules'
    unwind data says and whatever the stack holds. *)
From S2P Require Import Prelude CodeAddress UnwindRule Generation ModuleList RuleCache X86Regs X86Rules.
From S2P Require Import Sections Dwarf X86Dwarf Compact X86Compact Pe Unwinder ModuleData Arch Progress Typing StackBounds Hazard State Cursor.
From S2P Require Aarch64Rules.

Lemma stack_window_typed bounds sp : u64 bounds.1 -> u64 bounds.2 -> u64 sp -> words2 (stack_window bounds sp).
Proof.
  intros Hlo Hhi Hsp. unfold stack_window. destruct bounds as [lo hi]. destruct (_ && _); [done|].
  rewrite land_page by done. assert (u64 (sp - sp mod 4096)) as Hpage.
  { unfold in_u in *. pose proof (Z.mod_pos_bound sp 4096). pose proof (Z.mod_le sp 4096). lia. }
  split; [done|]. apply saturating_add_range; [done..|]. unfold FALLBACK_SPAN, in_u. lia.
Qed.

Section world.
  Context {D R Regs C : Type} `{TypedLaws R Regs}.

Abbreviation lib_world := (world (D := D) (R := R) (Regs := Regs) (C := C)).
Abbreviation walk_state := (SlotInner (R := R) (Regs := Regs) (C := C)).
Abbreviation lib_state := (state (D := D) (R := R) (Regs := Regs) (C := C)).

(** The words of a walk, of its slot and of the world. *)
Record walk_typed (i : walk_state) : Prop := {
  wt_regs : regs_typed (slot_regs i);
  wt_ip : u64 (cur_ip i);
  wt_addr : frame_address_wf (cur_addr i);
  wt_window : u64 (stack_lo i) /\ u64 (stack_hi i);
  wt_window2 : u64 (stack_lo2 i) /\ u64 (stack_hi2 i);
}.
Definition slot_typed (sl : Slot (R := R) (Regs := Regs) (C := C)) : Prop := u64 (seq sl) /\ walk_typed (inner sl).

Record world_typed (w : lib_world) : Prop := {
  wt_slots : Forall slot_typed (slots (statics w));
  wt_bounds : u64 (bounds w).1 /\ u64 (bounds w).2;
  wt_mem : forall a, u64 (mem w a);
}.

Context (signal_aware : UnwinderInternal D -> FrameAddress -> stack_reader ->
  ST (UState R Regs C) (fault Error) (option (Z * bool))).
Context (aware_typed : forall u a rs, typed_reader rs ->
  keeps state_typed (signal_aware u a rs) (from_option (fun p => u64 p.1) True)).
Context (context_new : C).

(** ** A step *)

Lemma read_stack_typed (i : walk_state) m : (forall a, u64 (m a)) -> typed_reader (read_stack i m).
Proof. intros Hm a v. unfold read_stack. destruct (_ || _); [done|]. by intros [= <-]. Qed.

Lemma unwind_current_typed u rs i c i' : typed_reader rs -> walk_typed i ->
  unwind_current signal_aware u rs i = Ok (c, i') -> walk_typed i'.
Proof.
  intros Hrs [Hr Hip Ha Hw Hw2]. unfold unwind_current.
  pose proof (aware_typed u (cur_addr i) rs Hrs (MkUState (slot_regs i) (slot_cache i)) Hr) as [Hs Hres].
  destruct (signal_aware _ _ _ _) as [[[[ra intr]|]|[e|]] s]; try done; try by (intros [= <- <-]; split).
  unfold NonZeroU64_new. destruct (Z.eqb_spec ra 0); intros [= <- <-]; split; try done. by destruct intr.
Qed.

Lemma advance_typed u rs i c i' : typed_reader rs -> walk_typed i ->
  advance signal_aware u rs i = Ok (c, i') -> walk_typed i'.
Proof.
  intros Hrs Hi. unfold advance. destruct sigreturn as [[is_tr rest]|] eqn:E; [|by apply unwind_current_typed].
  destruct (is_tr _); [|by apply unwind_current_typed]. destruct Hi as [Hr Hip Ha Hw Hw2].
  destruct (restore_typed _ _ rs (slot_regs i) E Hrs Hr) as [Hpc Hregs].
  destruct (rest rs (slot_regs i)) as [[pc|] regs]; cbn in *.
  - destruct (negb _); intros [= <- <-]; by split.
  - intros [= <- <-]. by split.
Qed.

Lemma slot_typed_insert (ss : list (Slot (R := R) (Regs := Regs) (C := C))) k sl :
  Forall slot_typed ss -> slot_typed sl -> Forall slot_typed (<[k := sl]> ss).
Proof. intros. by apply Forall_insert. Qed.

Lemma output_typed out v w : u64 v -> world_typed w -> world_typed (set_mem (write out v (mem w)) w).
Proof. intros Hv [Hs Hb Hm]. split; [done|done|]. by apply write_u64. Qed.

Lemma step_typed cur oi os w : walk_wf (statics w) -> world_typed w ->
  forall code w', step signal_aware cur oi os w = (Ok code, w') -> world_typed w'.
Proof.
  intros Hw Ht code w' E. pose proof (step_run signal_aware cur oi os w Hw) as Hrun. cbn zeta in Hrun. rewrite E in Hrun.
  assert (H0' : u64 0) by done. pose proof (output_typed os 0 _ H0' (output_typed oi 0 w H0' Ht)) as Ht0.
  destruct Hrun as (Hb & _ & Hrun). destruct (negb _); [by destruct Hrun as [_ ->]|]. destruct Hrun as (sl & Hi & Hrun).
  destruct (State.done _); [by destruct Hrun as [_ ->]|]. destruct (snapshot _); [|by destruct Hrun as [_ ->]].
  destruct Hrun as (snap & _ & Hm & _ & _ & Hrun).
  pose proof (Forall_lookup_1 _ _ _ _ (wt_slots _ Ht) Hi) as [Hseq Hwalk].
  assert (Hm' : forall a, u64 (mem w' a)).
  { rewrite Hm. apply write_u64; [by apply native_sp_typed, Hwalk|]. apply write_u64; [apply Hwalk|apply Ht0]. }
  destruct (advance _ _ _ _) as [[c i']|e] eqn:Ea; [|done].
  destruct Hrun as (_ & _ & Hsl). split; [|rewrite Hb; apply Ht|done]. rewrite Hsl.
  apply slot_typed_insert; [apply Ht|]. split; [done|]. eapply advance_typed; [|done|done]. apply read_stack_typed. by rewrite <- Hm.
Qed.

(** ** The other calls *)

Lemma initial_typed cache ctx max_code p win win2 : context_wf ctx -> words2 win -> words2 win2 ->
  walk_typed (initial_inner cache ctx max_code p win win2).
Proof. intros Hc Hwin Hwin2. split; [by apply make_regs_typed|apply Hc|apply Hc|done|done]. Qed.

Lemma init_typed cur ctx lo hi lo2 hi2 w : walk_wf (statics w) -> world_typed w ->
  u64 lo -> u64 hi -> u64 lo2 -> u64 hi2 -> world_typed (cursor_init_bounds2 cur ctx lo hi lo2 hi2 w).2.
Proof.
  intros Hw Ht Hlo Hhi Hlo2 Hhi2. pose proof (cursor_init_run cur ctx lo hi lo2 hi2 w Hw) as Hrun. cbn zeta in Hrun.
  assert (Hm : forall a, u64 (write_cursor cur dead (mem w) a)) by (apply write_cursor_u64; [done..|apply Ht]).
  assert (Hctx : context_wf (read_context (write_cursor cur dead (mem w)) ctx)) by (split_and!; apply Hm).
  set (c := read_context _ ctx) in *.
  destruct (cursor_init_bounds2 cur ctx lo hi lo2 hi2 w) as [r w']. destruct Hrun as (Hb & Hw' & Hrun).
  destruct (claim_slot _) as [[[i n]|] ?]; cycle 1.
  { destruct Hrun as [_ ->]. split; [apply Ht|apply Ht|done]. }
  destruct Hrun as (sl & Hi & _ & -> & _ & _ & Hrun).
  pose proof (Forall_lookup_1 _ _ _ _ (wt_slots _ Ht) Hi) as [_ [Hr Hip Ha Hwin Hwin2]].
  pose proof (as_u_range 64 (seq sl + 1)) as Hn. cbn [snd].
  destruct (current _) as [p|].
  - destruct Hrun as (snap & _ & _ & Hm' & Hsl). split; [|rewrite Hb; apply Ht|].
    + rewrite Hsl. apply slot_typed_insert; [apply Ht|]. split; [by apply Hn|]. apply initial_typed; [done|..].
      * unfold init_window. destruct (_ <? _); [done|]. apply stack_window_typed; apply Ht || apply Hctx.
      * unfold init_window2. by destruct (_ <? _).
    + rewrite Hm'. apply write_cursor_u64; [done| |by apply Hn|done]. cbn.
      apply lookup_lt_Some in Hi. pose proof (slots_bounded _ (ww_pool _ Hw)). unfold in_u, SLOT_CHUNK, MAX_SLOT_CHUNKS in *. lia.
  - destruct Hrun as (_ & Hm' & Hsl). split; [|rewrite Hb; apply Ht|by rewrite Hm'].
    rewrite Hsl. apply slot_typed_insert; [apply Ht|]. split; [by apply as_u_range|]. by split.
Qed.

Lemma get_reg_typed cur oi os w : walk_wf (statics w) -> world_typed w -> world_typed (get_reg cur oi os w).2.
Proof.
  intros Hw Ht. assert (H0' : u64 0) by done. pose proof (output_typed os 0 _ H0' (output_typed oi 0 w H0' Ht)) as Ht0.
  unfold get_reg, output. st_bind. cbn [mem statics bounds set_mem].
  destruct (negb _); [done|]. rewrite slot_lookup by apply Hw.
  destruct (slots _ !! _) as [sl|] eqn:Hi; [|done].
  pose proof (Forall_lookup_1 _ _ _ _ (wt_slots _ Ht) Hi) as [_ Hwalk]. st_bind.
  apply output_typed; [by apply native_sp_typed, Hwalk|]. apply output_typed; [apply Hwalk|done].
Qed.

Lemma release_slot_typed i n (s : lib_state) : pool_wf s -> Forall slot_typed (slots s) -> Forall slot_typed (slots (release_slot i n s)).
Proof.
  intros Hp Hs. unfold release_slot. destruct (slot s i); [|done]. destruct (negb _); [done|].
  destruct (update_slot_spec i (fun sl => MkSlot false (n +64 1) None (set_snapshot None (inner sl))) s Hp) as (_ & -> & _).
  apply Forall_alter; [done|]. intros sl _ [_ [Hr Hip Ha Hw Hw2]]. split; [by apply as_u_range|by split].
Qed.

Lemma fini_typed cur w : walk_wf (statics w) -> world_typed w -> world_typed (cursor_fini cur w).2.
Proof.
  intros Hw [Hs Hb Hm]. destruct (cursor_fini_statics cur w) as (s' & Hs' & ->).
  split; [|done|apply write_cursor_u64; done]. destruct Hs' as [->|(i & n & ->)]; [done|].
  apply release_slot_typed; [apply Hw|done].
Qed.

Lemma ensure_slots_typed n (s : lib_state) : pool_wf s -> Forall slot_typed (slots s) ->
  Forall slot_typed (slots (ensure_slots context_new n s)).
Proof.
  intros [chunks Hp] Hs. unfold ensure_slots.
  destruct (ensure_slots_loop_spec context_new MAX_SLOT_CHUNKS n s chunks Hp) as (s' & k & -> & Hpk & _); [lia|].
  cbn [default from_option id]. rewrite (pool_of_slots _ _ Hpk), concat_app, <- (pool_of_slots _ _ Hp). apply Forall_app. split; [done|].
  apply Forall_concat, Forall_replicate, Forall_replicate. split; [done|]. split; try done. by apply make_regs_typed.
Qed.

(** A writer never touches the slots. *)
Lemma with_writer_chunks {A} boxed (f : UnwinderInternal D -> ST Z panic (A * UnwinderInternal D)) (s : lib_state) :
  slot_chunks (with_writer boxed f s).2 = slot_chunks s.
Proof.
  set (I := fun s' : lib_state => slot_chunks s' = slot_chunks s).
  assert (Hgen : forall B (m : ST Z panic B), keeps I (on_generations m) (fun _ => True)).
  { intros B m s' Hs'. unfold on_generations. by destruct (m _) as [[a|e] g]. }
  assert (Hw : keeps I (with_writer boxed f) (fun _ => True)); [|by destruct (Hw s eq_refl)].
  unfold with_writer. eapply (keeps_bind _ _ _ (fun _ => True)).
  - unfold clone_current. keeps_step. destruct (current _) as [p|]; [|apply Hgen]. destruct (heap _ !! p); [by apply keeps_ret|apply keeps_throw].
  - intros u _. eapply keeps_bind; [apply Hgen|]. intros [ret u'] _. eapply keeps_bind; [by apply keeps_modify|intros _ _].
    eapply keeps_bind; [apply keeps_modify|intros _ _; by apply keeps_ret].
    intros s'. unfold reclaim. by destruct (reclaim_list _ _ _).
Qed.

(** ** Any sequence of calls *)

(** The windows and bounds a caller gives are words, as their C types say. *)
Definition call_typed (c : api_call (D := D)) : Prop :=
  match c with
  | CallInit _ _ lo hi lo2 hi2 => u64 lo /\ u64 hi /\ u64 lo2 /\ u64 hi2
  | CallThreadRegister queried => u64 queried.1 /\ u64 queried.2
  | _ => True
  end.

Context (alloc : gmap ptr (Snapshot (D := D)) -> ptr) (alloc_fresh : forall h, h !! alloc h = None).
Abbreviation run_call := (run_call signal_aware context_new alloc).
Abbreviation run_calls := (run_calls signal_aware context_new alloc).

Lemma run_call_typed c w w' : walk_wf (statics w) -> world_typed w -> call_typed c ->
  run_call c w = (Ok tt, w') -> world_typed w'.
Proof.
  intros Hw Ht Hc. destruct c as [cur ctx lo hi lo2 hi2|cur oi os|cur oi os|cur|n|q|f]; cbn [Cursor.run_call call_typed] in *.
  - destruct Hc as (H2 & H3 & H4 & H5). intros (a & w1 & Hr & Hret)%st_bind_Ok. injection Hret as <-.
    pose proof (init_typed cur ctx lo hi lo2 hi2 w Hw Ht H2 H3 H4 H5) as Hi. by rewrite Hr in Hi.
  - intros (a & w1 & Hr & Hret)%st_bind_Ok. injection Hret as <-. by eapply step_typed.
  - intros Hr. pose proof (get_reg_typed cur oi os w Hw Ht) as Hg. by rewrite Hr in Hg.
  - intros Hr. pose proof (fini_typed cur w Hw Ht) as Hg. by rewrite Hr in Hg.
  - unfold fh_init_pool. st_bind. intros [= <-]. split; [|apply Ht..]. cbn [statics set_statics]. unfold init.
    apply ensure_slots_typed; [apply Hw|apply Ht].
  - unfold fh_thread_register, register_current_thread. st_bind. intros [= <-]. split; [|done|apply Ht].
    cbn [statics set_statics]. unfold thread_registered. apply ensure_slots_typed; [|apply Ht].
    destruct (set_registered_wf _ (registered_threads (statics w) +64 1) Hw) as [Hp _ _]. exact Hp.
  - st_bind. unfold on_statics. pose proof (with_writer_chunks (alloc (heap (statics w))) f (statics w)) as Hs.
    destruct (with_writer _ f (statics w)) as [[[]|e] s]; [|done]. intros [= <-]. split; [|apply Ht..].
    cbn in *. unfold slots. rewrite Hs. apply Ht.
Qed.

Lemma run_calls_typed cs w w' : walk_wf (statics w) -> world_typed w -> Forall call_typed cs ->
  run_calls cs w = (Ok tt, w') -> walk_wf (statics w') /\ world_typed w'.
Proof using All.
  intros Hw Ht Hcs. revert w Hw Ht. induction Hcs as [|c cs Hc Hcs IH]; intros w Hw Ht; cbn [Cursor.run_calls].
  - by intros [= <-].
  - intros ([] & w1 & Hr & Hrest)%st_bind_Ok. pose proof (run_call_safe signal_aware context_new alloc alloc_fresh c w Hw) as Hsafe.
    rewrite Hr in Hsafe. destruct Hsafe as [_ Hw1]. apply (IH w1); [by apply (Hw1 tt)|by eapply run_call_typed|done].
Qed.
End world.

(** ** The library with the unwinders of both architectures *)

Section words.
  Context {D C : Type} (bytes_of : D -> list Z) `{Gimli C, PeUnwindInfo, MachoUnwindInfo} (memory_limit : nat) (context_new : C).
  Context (alloc : gmap ptr (Snapshot (D := ModuleUnwindDataInternal D)) -> ptr).

#[local] Instance pe_x86_64 : PeUnwinding D UnwindRuleX86_64 UnwindRegsX86_64 := PeUnwinding_x86_64 bytes_of memory_limit.

(** Machine words stay machine words. On x86_64, whatever modules are published and
    whatever their DWARF, PE or compact unwind data, any sequence of calls that returns
    keeps every register, address and window of every walk, every sequence number, and
    every word of memory that it writes a 64-bit word, if they were before: no step of a
    walk is ever made from a value the code's types could not hold. *)
Theorem words_stay_words `{!CompactUnwindInfoUnwinding UnwindRuleX86_64} cs
    (w w' : world (D := ModuleUnwindDataInternal D) (R := UnwindRuleX86_64) (Regs := UnwindRegsX86_64) (C := C))
    (Hgimli : evaluations_typed) (Hpe : resolve_typed) (Hfresh : forall h, h !! alloc h = None)
    (Hw : walk_wf (statics w)) (Ht : world_typed w) (Hcs : Forall call_typed cs)
    (Hrun : run_calls (unwind_frame_signal_aware (unwind_frame_impl bytes_of)) context_new alloc cs w = (Ok tt, w')) :
  world_typed w'.
Proof.
  pose proof (DwarfTyped_x86_64 Hgimli). pose proof (PeTyped_x86_64 bytes_of memory_limit Hpe).
  eapply run_calls_typed; [|exact Hfresh|exact Hw|exact Ht|exact Hcs|exact Hrun].
  intros u a rs Hrs. apply with_cache_typed; [by apply impl_typed|done].
Qed.

End words.

Section aarch64.
Import Aarch64Rules Aarch64Dwarf.
  Context {D C : Type} (bytes_of : D -> list Z) `{Gimli C, MachoUnwindInfo} (context_new : C).
  Context (alloc : gmap ptr (Snapshot (D := ModuleUnwindDataInternal D)) -> ptr).
#[local] Instance pe_aarch64 : PeUnwinding D UnwindRuleAarch64 UnwindRegsAarch64 := pe_unwind_frame_aarch64.

(** The same on aarch64 Linux, with its signal trampoline. *)
Theorem words_stay_words_aarch64 `{!CompactUnwindInfoUnwinding UnwindRuleAarch64} trampoline cs
    (w w' : world (D := ModuleUnwindDataInternal D) (R := UnwindRuleAarch64) (Regs := UnwindRegsAarch64) (C := C))
    (Hgimli : evaluations_typed) (Hfresh : forall h, h !! alloc h = None)
    (Hw : walk_wf (statics w)) (Ht : world_typed w) (Hcs : Forall call_typed cs)
    (Hrun : run_calls (H0 := Native_aarch64_linux trampoline) (default_signal_aware (unwind_frame_impl bytes_of)) context_new alloc cs w
       = (Ok tt, w')) :
  world_typed w'.
Proof.
  pose proof (DwarfTyped_aarch64 Hgimli). pose proof (PeTyped_aarch64 (D := D)).
  eapply (run_calls_typed (H0 := Native_aarch64_linux trampoline)); [|exact Hfresh|exact Hw|exact Ht|exact Hcs|exact Hrun].
  intros u a rs Hrs. unfold default_signal_aware, unwind_frame, unwind_frame_signal_aware.
  eapply keeps_bind; [eapply (keeps_bind _ _ _ _ (from_option u64 True))|].
  - apply (with_cache_typed (H0 := Native_aarch64_linux trampoline)); [by apply impl_typed|done].
  - intros [[ra i]|] Hra; by apply keeps_ret.
  - intros [ra|] Hra; by apply keeps_ret.
Qed.
End aarch64.

(** ** A concrete run *)

Section example.
#[local] Existing Instance X86Compact.example_macho.
#[local] Existing Instance ModuleData.example_pe.
#[local] Instance example_gimli : Gimli unit := Dwarf.example_gimli X86Dwarf.example_row_cfa X86Dwarf.example_row_rules.
#[local] Instance example_compact : CompactUnwindInfoUnwinding UnwindRuleX86_64 :=
    X86Compact.CompactUnwindInfoUnwinding_x86_64 (fun _ => X86Compact.Null).

Lemma example_evaluations_typed : evaluations_typed.
Proof.
  intros e enc. induction e as [locations|register resume IH|a size space resume IH| |]; cbn; try done.
  - apply Forall_fmap, Forall_forall. intros [a|] _; [by apply as_u_range|done].
  - intros v _. apply IH.
  - intros v _. apply IH.
Qed.

Lemma example_resolve_typed : resolve_typed.
Proof.
  intros S I info op st s Hget Hstack Hset Hs. cbn. unfold example_resolve. destruct op as [offset|reg|code].
  - split; [|done]. apply Hset; [by apply as_u_range|done].
  - destruct (us_read_stack S st _) as [v|] eqn:E; [|done]. split; [|done].
    apply Hset; [by apply as_u_range|]. apply Hset; [by eapply Hstack|done].
  - done.
Qed.

(** Two frames of the module of [ModuleData] and one that is in no module. *)
Definition example_words : world (D := ModuleUnwindDataInternal (list Z)) (R := UnwindRuleX86_64) (Regs := UnwindRegsX86_64) (C := unit) :=
  MkWorld state_new (0, 0)
    (write 0x8000 0x8010 (write 0x8008 4101 (write 0x8010 0x8020 (write 0x8018 0x100000
      (write 0x510 0x8010 (write 0x508 0x8000 (write 0x500 4117 (fun _ => 0)))))))).

Definition example_word_calls : list (api_call (D := ModuleUnwindDataInternal (list Z))) :=
  [CallInitPool 20; CallWriter (fun u => u' ← add_module u ModuleData.example_module; mret (tt, u'));
   CallThreadRegister (0x7000, 0x9000); CallInit 0x100 0x500 0x8000 0x8030 0 0;
   CallStep 0x100 0x200 0x208; CallStep 0x100 0x200 0x208; CallGetReg 0x100 0x200 0x208; CallStep 0x100 0x200 0x208;
   CallFini 0x100].

Lemma words_stay_words_witness :
  let run := run_calls (unwind_frame_signal_aware (unwind_frame_impl (PeUnwinding0 := pe_x86_64 id 8) id)) tt
    (fun h => fresh (dom h)) example_word_calls example_words in
  mem run.2 0x200 = 0x100000 /\ mem run.2 0x208 = 0x8020 /\ world_typed run.2.
Proof.
  cbn zeta. match goal with |- mem (snd ?r) _ = _ /\ _ => set (run := r) end.
  assert (run.1 = Ok tt) as Hok by by vm_compute.
  split; [by vm_compute|]. split; [by vm_compute|].
  refine (words_stay_words id 8 tt (fun h => fresh (dom h)) example_word_calls example_words run.2
    example_evaluations_typed example_resolve_typed (fun h => proj1 (not_elem_of_dom _ _) (is_fresh (dom h))) state_new_wf _ _ _).
  - clear run Hok. assert (slots (statics example_words) = []) as Hno by by vm_compute.
    split; [rewrite Hno; apply Forall_nil_2|cbn; unfold in_u; lia|].
    unfold example_words. cbn [mem]. do 7 (apply write_u64; [done|]). done.
  - clear run Hok. repeat (apply Forall_cons_2; [by cbn; unfold in_u; repeat split; lia|]). apply Forall_nil_2.
  - exact (eq_trans (surjective_pairing run) (f_equal (fun r => (r, run.2)) Hok)).
Defined.
End example.
