(* ===== verification/Api.v ===== *)
(** * The C API as a whole

    Models the entry points of [src/src/lib.rs] on the state of the whole library: the
    registry, the published snapshot with its pool of slots, the counter of failed
    registrations, the calling thread's stack bounds and the process's memory. The
    platform parts of [src/src/modules/mod.rs], [init] and the two [refresh]
    functions, are composed with the enumerators here. *)
From S2P Require Import Prelude CodeAddress UnwindRule X86Regs X86Rules Generation ModuleList RuleCache Images Sections Dwarf X86Dwarf Unwinder ModuleData Arch StackBounds Hazard State Registry Jit Scan.
From S2P Require Elf MachoImage PeImage Cursor.

(** ** What is supported *)

Inductive target_os : Type := linux | freebsd | macos | windows | other_os.
Inductive target_arch : Type := x86_64 | aarch64 | other_arch.

Definition FRAMEHOP_SUPPORTED (os : target_os) (arch : target_arch) : bool :=
  match arch, os with
  | x86_64, (linux | freebsd | macos | windows) => true
  | aarch64, (linux | freebsd | macos) => true
  | _, _ => false
  end.

Definition fh_supported (os : target_os) (arch : target_arch) : Z :=
  if FRAMEHOP_SUPPORTED os arch then 1 else 0.

(** ** The entry points *)

(** What the platform's loader reports when it is asked: the objects [dl_iterate_phdr]
    visits and the size of the structure it passes; the headers and slides of dyld's
    images; the answers of the Windows calls; or nothing on another system. *)
Inductive Loader : Type :=
  | Objects (to_string_lossy : list Z -> string) (objects : list Elf.dl_phdr_info) (size : Z)
  | DyldImages (images : list (Z * Z))
  | ProcessModules (EnumProcessModules : nat -> Z -> option (list Z * Z)) (GetModuleHandleExW : Z -> option Z)
      (GetModuleInformation : Z -> option (Z * Z))
  | NoLoader.

Section api.
  Context {R Regs C : Type} `{UnwindRule R Regs} `{Native Regs} `{Gimli C} `{DefaultHasher}.
  Context (hash_iter : gmap Z Z -> list (Z * Z)).
  (** Where the allocator puts the next snapshot, given the ones that are alive. *)
  Context (alloc : gmap ptr (Snapshot (D := ModuleUnwindDataInternal Bytes)) -> ptr).
  (** The unwinder's [unwind_frame_signal_aware], and gimli's empty [UnwindContext]. *)
  Context (signal_aware : UnwinderInternal (ModuleUnwindDataInternal Bytes) -> FrameAddress -> stack_reader ->
    ST (UState R Regs C) (fault Error) (option (Z * bool))) (context_new : C).

Abbreviation D := (ModuleUnwindDataInternal Bytes).
Abbreviation lib_state := (state (D := D) (R := R) (Regs := Regs) (C := C)).

(** [jit] holds the registry, the statics of [state.rs] and the failure counter;
    [CALLBACKS] says whether dyld's callbacks are installed. *)
Record ApiWorld : Type := MkApiWorld {
  jit : JitWorld (R := R) (Regs := Regs) (C := C);
  thread_bounds : Z * Z;
  mem : Z -> Z;
  CALLBACKS : bool;
}.

Abbreviation Api := (ST ApiWorld crash).

Definition modules (w : ApiWorld) : World (D := D) (R := R) (Regs := Regs) (C := C) := Jit.world (jit w).
Definition lib (w : ApiWorld) : lib_state := st (modules w).

Definition on_jit {A} (m : ST JitWorld crash A) : Api A := fun w =>
  let '(r, j) := m (jit w) in (r, MkApiWorld j (thread_bounds w) (mem w) (CALLBACKS w)).

Definition on_modules {A} (m : ST World crash A) : Api A := on_jit (on_world m).

Definition cursor_world (w : ApiWorld) : Cursor.world := Cursor.MkWorld (lib w) (thread_bounds w) (mem w).

Definition on_cursor {A} (m : ST Cursor.world crash A) : Api A := fun w =>
  let '(r, v) := m (cursor_world w) in
  (r, MkApiWorld (MkJitWorld (JIT_REGISTER_FAILURES (jit w)) (MkWorld (reg (modules w)) (Cursor.statics v)))
        (Cursor.bounds v) (Cursor.mem v) (CALLBACKS w)).

(** The address of the snapshot that this call may publish. *)
Definition next_box (w : ApiWorld) : ptr := alloc (heap (lib w)).

(** *** Modules *)

Section modules.
  (** The bytes of the images and buffers, as the call finds them. *)
  Context (bytes : Z -> Z).

(** [enumerate_static] and [elf::load_counts]. *)
Definition enumerate_static (loader : Loader) (known : gmap Z Z) : option (EnumResult D) :=
  match loader with
  | Objects to_string_lossy objects _ => Some (Elf.enumerate (C := C) bytes to_string_lossy objects known)
  | ProcessModules EnumProcessModules GetModuleHandleExW GetModuleInformation =>
      (PeImage.enumerate (C := C) bytes EnumProcessModules GetModuleHandleExW GetModuleInformation known).1
  | DyldImages _ | NoLoader => Some (MkEnumResult ∅ [])
  end.

Definition loader_counts (loader : Loader) : option (Z * Z) :=
  match loader with
  | Objects _ objects size => Elf.load_counts objects size
  | _ => None
  end.

(** [modules::refresh], which on macOS only sees to the callbacks. *)
Definition modules_refresh (loader : Loader) : Api unit :=
  w ← st_get;
  match loader with
  | DyldImages images =>
      _ ← on_modules (MachoImage.init_callbacks (C := C) bytes (next_box w) (CALLBACKS w) images);
      st_modify (fun w => MkApiWorld (jit w) (thread_bounds w) (mem w) true)
  | _ => on_modules (refresh hash_iter (next_box w) (loader_counts loader) (enumerate_static loader))
  end.

Definition modules_init (loader : Loader) : Api unit := modules_refresh loader.

Definition fh_init (num_slots : Z) (loader : Loader) : Api Z :=
  _ ← on_cursor (Cursor.fh_init_pool context_new num_slots);
  _ ← modules_init loader;
  mret 0.

Definition fh_modules_refresh (loader : Loader) : Api unit := modules_refresh loader.

Definition fh_register_jit (eh_frame eh_frame_len text_lo text_hi : Z) : Api Z :=
  w ← st_get;
  on_jit (register_jit_eh_frame bytes (next_box w) eh_frame eh_frame_len text_lo text_hi).

Definition fh_register_jit_auto (eh_frame eh_frame_len : Z) : Api Z :=
  w ← st_get;
  on_jit (register_jit_eh_frame_auto bytes (next_box w) eh_frame eh_frame_len).

(** dyld's callbacks, outside the replay. *)
Definition dyld_add_image (header slide : Z) : Api unit :=
  w ← st_get;
  on_modules (MachoImage.on_add_image (C := C) bytes (next_box w) header slide).

Definition dyld_remove_image (header slide : Z) : Api unit :=
  w ← st_get;
  on_modules (MachoImage.on_remove_image bytes (next_box w) header slide).
End modules.

Definition fh_deregister_jit (text_lo : Z) : Api unit :=
  w ← st_get;
  on_jit (deregister_jit (next_box w) text_lo).

Definition fh_deregister_jit_eh_frame (eh_frame : Z) : Api unit :=
  w ← st_get;
  on_jit (deregister_jit_eh_frame (next_box w) eh_frame).

Definition fh_jit_module_count : Api Z :=
  w ← st_get;
  mret (Z.of_nat (jit_module_count (reg (modules w)))).

Definition fh_jit_register_failures : Api Z := on_jit jit_register_failures.

Definition fh_thread_register (queried : Z * Z) : Api unit :=
  on_cursor (Cursor.fh_thread_register context_new queried).

(** *** Contexts *)

Definition write_context (ctx : Z) (c : FhContext) (m : Z -> Z) : Z -> Z :=
  Cursor.write (ctx + 32) (r4 c) (Cursor.write (ctx + 24) (r3 c) (Cursor.write (ctx + 16) (r2 c)
    (Cursor.write (ctx + 8) (r1 c) (Cursor.write ctx (r0 c) m)))).

Definition put_context (ctx : Z) (c : FhContext) : Api unit :=
  st_modify (fun w => MkApiWorld (jit w) (thread_bounds w) (write_context ctx c (mem w)) (CALLBACKS w)).

(** [fill m p] is what [fill_from_os] (or [fill_from_thread_state]) makes of the structure
    at [p] in the memory [m]. The context is cleared first, so that a structure it
    overlaps is read as cleared. *)
Definition context_from_os (fill : (Z -> Z) -> Z -> FhContext) (ctx os_ctx : Z) : Api unit :=
  _ ← put_context ctx zeroed;
  if os_ctx =? 0 then mret tt
  else
    w ← st_get;
    put_context ctx (fill (mem w) os_ctx).

Definition context_from_thread_state (fill : (Z -> Z) -> FhContext) (ctx ts : Z) : Api unit :=
  _ ← put_context ctx zeroed;
  if ts =? 0 then mret tt
  else
    w ← st_get;
    put_context ctx (fill (fun i => mem w (ts + 8 * i))).

Definition fh_context_from_ucontext (fill_from_os : (Z -> Z) -> Z -> FhContext) (ctx os_ctx : Z) : Api unit :=
  if ctx =? 0 then mret tt
  else
    _ ← put_context ctx zeroed;
    context_from_os fill_from_os ctx os_ctx.

Definition fh_context_from_thread_state (fill_from_thread_state : (Z -> Z) -> FhContext) (ctx ts : Z) : Api unit :=
  if ctx =? 0 then mret tt
  else
    _ ← put_context ctx zeroed;
    context_from_thread_state fill_from_thread_state ctx ts.
End api.

(** ** The calls, and what they do to the modules *)

Section calls.
  Context {R Regs C : Type} `{UnwindRule R Regs} `{Native Regs} `{Gimli C} `{DefaultHasher}.
  Context (hash_iter : gmap Z Z -> list (Z * Z)) (hash_iter_perm : forall m, hash_iter m ≡ₚ map_to_list m).
  Context (alloc : gmap ptr (Snapshot (D := ModuleUnwindDataInternal Bytes)) -> ptr) (alloc_fresh : forall h, h !! alloc h = None).
  Context (signal_aware : UnwinderInternal (ModuleUnwindDataInternal Bytes) -> FrameAddress -> stack_reader ->
    ST (UState R Regs C) (fault Error) (option (Z * bool))) (context_new : C).
  Abbreviation World := (World (D := ModuleUnwindDataInternal Bytes) (R := R) (Regs := Regs) (C := C)).
  Implicit Types (w : ApiWorld (R := R) (Regs := Regs) (C := C)) (v : World) (os : list (op (D := ModuleUnwindDataInternal Bytes))).

(** Every call of the API, dyld's callbacks, and the program's own writes to its
    memory. Those that read images or buffers come with the bytes they find. *)
Inductive api_call : Type :=
  | FhInit (num_slots : Z) (bytes : Z -> Z) (loader : Loader)
  | FhThreadRegister (queried : Z * Z)
  | FhModulesRefresh (bytes : Z -> Z) (loader : Loader)
  | FhRegisterJit (bytes : Z -> Z) (eh_frame eh_frame_len text_lo text_hi : Z)
  | FhRegisterJitAuto (bytes : Z -> Z) (eh_frame eh_frame_len : Z)
  | FhDeregisterJit (text_lo : Z)
  | FhDeregisterJitEhFrame (eh_frame : Z)
  | DyldAddImage (bytes : Z -> Z) (header slide : Z)
  | DyldRemoveImage (bytes : Z -> Z) (header slide : Z)
  | FhContextFromUcontext (fill_from_os : (Z -> Z) -> Z -> FhContext) (ctx os_ctx : Z)
  | FhContextFromThreadState (fill_from_thread_state : (Z -> Z) -> FhContext) (ctx ts : Z)
  | FhCursorInit (cur ctx : Z)
  | FhCursorInitBounds (cur ctx stack_lo stack_hi : Z)
  | FhCursorInitBounds2 (cur ctx stack_lo stack_hi stack_lo2 stack_hi2 : Z)
  | FhStep (cur ip sp : Z)
  | FhGetReg (cur ip sp : Z)
  | FhCursorFini (cur : Z)
  | ProgramWrites (m : Z -> Z).

Definition ignore {S E A} (m : ST S E A) : ST S E unit := _ ← m; mret tt.

Definition run_call (c : api_call) : ST (ApiWorld (R := R) (Regs := Regs) (C := C)) crash unit :=
  match c with
  | FhInit num_slots bytes loader => ignore (fh_init hash_iter alloc context_new bytes num_slots loader)
  | FhThreadRegister queried => fh_thread_register context_new queried
  | FhModulesRefresh bytes loader => fh_modules_refresh hash_iter alloc bytes loader
  | FhRegisterJit bytes p len lo hi => ignore (fh_register_jit alloc bytes p len lo hi)
  | FhRegisterJitAuto bytes p len => ignore (fh_register_jit_auto alloc bytes p len)
  | FhDeregisterJit lo => fh_deregister_jit alloc lo
  | FhDeregisterJitEhFrame p => fh_deregister_jit_eh_frame alloc p
  | DyldAddImage bytes header slide => dyld_add_image alloc bytes header slide
  | DyldRemoveImage bytes header slide => dyld_remove_image alloc bytes header slide
  | FhContextFromUcontext fill ctx os_ctx => fh_context_from_ucontext fill ctx os_ctx
  | FhContextFromThreadState fill ctx ts => fh_context_from_thread_state fill ctx ts
  | FhCursorInit cur ctx => on_cursor (ignore (Cursor.fh_cursor_init cur ctx))
  | FhCursorInitBounds cur ctx lo hi => on_cursor (ignore (Cursor.fh_cursor_init_bounds cur ctx lo hi))
  | FhCursorInitBounds2 cur ctx lo hi lo2 hi2 => on_cursor (ignore (Cursor.fh_cursor_init_bounds2 cur ctx lo hi lo2 hi2))
  | FhStep cur ip sp => on_cursor (ignore (Cursor.fh_step signal_aware cur ip sp))
  | FhGetReg cur ip sp => on_cursor (Cursor.fh_get_reg cur ip sp)
  | FhCursorFini cur => on_cursor (Cursor.fh_cursor_fini cur)
  | ProgramWrites m => st_modify (fun w => MkApiWorld (jit w) (thread_bounds w) m (CALLBACKS w))
  end.

Fixpoint run_calls (cs : list api_call) : ST (ApiWorld (R := R) (Regs := Regs) (C := C)) crash unit :=
  match cs with
  | [] => mret tt
  | c :: cs => _ ← run_call c; run_calls cs
  end.

(** A registration that is accepted: it has a buffer, a range below 4 GiB, and FDEs. *)
Definition jit_accepted (bytes : Z -> Z) (p len lo hi : Z) : bool :=
  bool_decide (p <> 0 /\ len <> 0 /\ lo < hi /\ hi -64 lo <= u32_MAX /\ fde_pc_range (slice_at bytes p len) p <> None).

(** What a call does to the modules, in terms of the operations of the registry. *)
Definition jit_ops (box : ptr) (bytes : Z -> Z) (p len lo hi : Z) : list op :=
  if jit_accepted bytes p len lo hi then [OpAddJit box lo p (jit_module (C := C) bytes p len lo hi)] else [].

Definition image_ops (box : ptr) (bytes : Z -> Z) (image : Z * Z) : list op :=
  if image.1 =? 0 then []
  else
    match MachoImage.build_image (C := C) bytes image.1 image.2 with
    | Some (key, fp, Some m) => [OpAddImage box key fp m]
    | _ => []
    end.

Definition unload_ops (box : ptr) (bytes : Z -> Z) (header slide : Z) : list (op (D := ModuleUnwindDataInternal Bytes)) :=
  if header =? 0 then [] else (fun key => OpRemoveImage box key) <$> option_list (MachoImage.image_key bytes header slide).

Definition loader_ops (box : ptr) (bytes : Z -> Z) (called : bool) (loader : Loader) : list op :=
  match loader with
  | DyldImages images =>
      if called then [] else OpBeginBatch :: (images ≫= image_ops box bytes) ++ [OpEndBatch box]
  | _ => [OpRefresh box (loader_counts loader) (enumerate_static (C := C) bytes loader)]
  end.

Definition module_ops (c : api_call) w : list op :=
  let box := next_box alloc w in
  match c with
  | FhInit _ bytes loader | FhModulesRefresh bytes loader => loader_ops box bytes (CALLBACKS w) loader
  | FhRegisterJit bytes p len lo hi => jit_ops box bytes p len lo hi
  | FhRegisterJitAuto bytes p len =>
      match fde_pc_range (slice_at bytes p len) p with
      | Some (lo, hi) => jit_ops box bytes p len lo hi
      | None => []
      end
  | FhDeregisterJit lo => [OpRemoveJit box lo]
  | FhDeregisterJitEhFrame p => [OpRemoveJitByEhFrame box p]
  | DyldAddImage bytes header slide => image_ops box bytes (header, slide)
  | DyldRemoveImage bytes header slide => unload_ops box bytes header slide
  | _ => []
  end.

(** The world in which a call gets to the modules. *)
Definition ready (c : api_call) w : ApiWorld :=
  match c with
  | FhInit num_slots _ _ => (on_cursor (Cursor.fh_init_pool context_new num_slots) w).2
  | _ => w
  end.

(** The modules that are published after a sequence of calls, and the guarantees of
    the callers and the loader, when each call is made. *)
Fixpoint spec_calls (cs : list api_call) w sp : Spec :=
  match cs with
  | [] => sp
  | c :: cs => spec_calls cs (run_call c w).2 (spec_ops (module_ops c (ready c w)) sp)
  end.

Fixpoint calls_ok (cs : list api_call) w sp : Prop :=
  match cs with
  | [] => True
  | c :: cs =>
      ops_ok hash_iter (module_ops c (ready c w)) sp (modules (ready c w)) /\
      calls_ok cs (run_call c w).2 (spec_ops (module_ops c (ready c w)) sp)
  end.

(** *** Registry operations keep the pool *)

Definition same_pool (s s' : state (D := ModuleUnwindDataInternal Bytes) (R := R) (Regs := Regs) (C := C)) : Prop :=
  slot_chunks s' = slot_chunks s /\ slots_allocated s' = slots_allocated s.

(** A new snapshot is the one that is current then. *)
Definition publishes_at (box : ptr) (s s' : state (D := ModuleUnwindDataInternal Bytes) (R := R) (Regs := Regs) (C := C)) : Prop :=
  (current s' = current s \/ current s' = Some box) /\
  forall p snap, heap s' !! p = Some snap -> heap s !! p = Some snap \/ (p = box /\ current s' = Some box).

(** They also keep the snapshots that are hazarded, except one at the new address. *)
Definition keeps_pool {A} (box : ptr) (m : ST World crash A) : Prop := forall v,
  same_pool (st v) (st (m v).2) /\
  (forall p, p <> box -> is_hazarded (st v) p = true -> heap (st (m v).2) !! p = heap (st v) !! p) /\
  publishes_at box (st v) (st (m v).2).

Lemma same_pool_slots s s' : same_pool s s' -> slots s' = slots s.
Proof. intros [Hc _]. unfold slots. by rewrite Hc. Qed.

Lemma publishes_at_same box s s' : current s' = current s -> heap s' = heap s -> publishes_at box s s'.
Proof. intros Hc Hh. split; [by left|]. rewrite Hh. by left. Qed.

Lemma publishes_at_trans box s1 s2 s3 : publishes_at box s1 s2 -> publishes_at box s2 s3 -> publishes_at box s1 s3.
Proof.
  intros [C1 Hh1] [C2 Hh2]. split; [destruct C2 as [->| ->]; auto|]. intros p snap [Hp|]%Hh2; [|by right].
  destruct (Hh1 p snap Hp) as [|[-> Hc]]; [by left|]. right. split; [done|]. destruct C2 as [->|]; done.
Qed.

Lemma keeps_pool_ret {A} box (a : A) : keeps_pool box (mret a).
Proof. intros v. split; [done|]. split; [done|by apply publishes_at_same]. Qed.
Lemma keeps_pool_get box : keeps_pool box get_reg_.
Proof. intros v. split; [done|]. split; [done|by apply publishes_at_same]. Qed.
Lemma keeps_pool_reg box f : keeps_pool box (on_reg f).
Proof. intros v. split; [done|]. split; [done|by apply publishes_at_same]. Qed.
Lemma keeps_pool_bind {A B} box (m : ST World crash A) (f : A -> ST World crash B) :
  keeps_pool box m -> (forall a, keeps_pool box (f a)) -> keeps_pool box (m ≫= f).
Proof.
  intros Hm Hf v. rewrite st_bind_spec. specialize (Hm v). destruct (m v) as [[a|e] v1]; [|done].
  destruct (Hf a v1) as ([E1 E2] & Hh & Hb), Hm as ([E3 E4] & Hh1 & Hb1). cbn [snd] in *. split; [split; congruence|].
  split; [|by eapply publishes_at_trans].
  intros p Hp Hz. rewrite <- Hh1 by done. apply Hh; [done|]. unfold is_hazarded in *. by rewrite (same_pool_slots (st v)).
Qed.

Lemma reclaim_list_keeps (hz : ptr -> bool) l (h : gmap ptr (Snapshot (D := ModuleUnwindDataInternal Bytes))) p :
  hz p = true -> (reclaim_list hz l h).2 !! p = h !! p.
Proof.
  intros Hz. revert h. induction l as [|q l IH]; intros h; [done|]. cbn [reclaim_list]. destruct (hz q) eqn:E.
  - specialize (IH h). by destruct (reclaim_list hz l h).
  - rewrite IH. apply lookup_delete_ne. congruence.
Qed.

Lemma reclaim_list_subseteq (hz : ptr -> bool) l (h : gmap ptr (Snapshot (D := ModuleUnwindDataInternal Bytes))) :
  (reclaim_list hz l h).2 ⊆ h.
Proof.
  revert h. induction l as [|q l IH]; intros h; [done|]. cbn [reclaim_list]. destruct (hz q).
  - specialize (IH h). by destruct (reclaim_list hz l h).
  - etrans; [apply IH|apply delete_subseteq].
Qed.

Lemma keeps_pool_edit box f : keeps_pool box (edit box f).
Proof.
  intros v. unfold edit, on_state. set (kept := fun s s' => same_pool s s' /\
    (forall p, p <> box -> is_hazarded s p = true -> heap s' !! p = heap s !! p) /\ publishes_at box s s').
  assert (forall s g, kept s (set_generations g s)) as Hgen.
  { intros s g. split; [done|]. split; [done|by apply publishes_at_same]. }
  assert (forall s (u : UnwinderInternal (ModuleUnwindDataInternal Bytes)),
    kept s (('(ret, new_unw) ← on_generations (u ← f u; mret (tt, u)); _ ← st_modify (publish box new_unw); _ ← st_modify reclaim; mret ret) s).2) as Hrest.
  { intros s u. rewrite st_bind_spec. unfold on_generations. rewrite st_bind_spec.
    destruct (f u (generations s)) as [[u'|e] g]; [|apply Hgen]. st_bind. unfold reclaim.
    change (is_hazarded (publish box u' (set_generations g s))) with (is_hazarded s).
    set (h0 := heap (publish box u' (set_generations g s))). set (l := retired _).
    pose proof (fun p => reclaim_list_keeps (is_hazarded s) l h0 p) as Hk. pose proof (reclaim_list_subseteq (is_hazarded s) l h0) as Hsub.
    destruct (reclaim_list _ _ _) as [keep h]. cbn [snd] in *. split; [done|]. split.
    - intros p Hp Hz. cbn [heap]. rewrite Hk by done. by apply lookup_insert_ne.
    - split; [by right|]. intros p snap Hp. apply (lookup_weaken _ _ _ _ Hp) in Hsub. unfold h0, publish in Hsub. cbn [heap] in Hsub.
      apply lookup_insert_Some in Hsub as [[<- _]|[_ Hin]]; [by right|by left]. }
  assert (kept (st v) (with_writer box (fun u => u ← f u; mret (tt, u)) (st v)).2) as Hw.
  { unfold with_writer, clone_current. rewrite st_bind_spec, st_bind_spec, st_get_spec. destruct (current (st v)) as [p|].
    - destruct (heap (st v) !! p) as [snap|]; [apply Hrest|apply (Hgen (st v) (generations (st v)))].
    - unfold on_generations at 1. destruct (UnwinderInternal_new _) as [[u|e] g]; [|apply Hgen].
      exact (Hrest (set_generations g (st v)) u). }
  by destruct (with_writer _ _ _).
Qed.

Ltac keep_pool :=
  repeat first [apply keeps_pool_ret | apply keeps_pool_get | apply keeps_pool_reg | apply keeps_pool_edit
    | apply keeps_pool_bind; [|intros ?] | progress case_match].

(** The address an operation publishes at. *)
Definition op_box (o : op (D := ModuleUnwindDataInternal Bytes)) : option ptr :=
  match o with
  | OpBeginBatch => None
  | OpRefresh box _ _ | OpEndBatch box | OpAddImage box _ _ _ | OpRemoveImage box _ | OpAddJit box _ _ _
  | OpRemoveJit box _ | OpRemoveJitByEhFrame box _ => Some box
  end.

Lemma op_keeps_pool box o : (forall b, op_box o = Some b -> b = box) -> keeps_pool box (run_op hash_iter o).
Proof.
  intros Hb. destruct o; cbn [run_op]; try rewrite (Hb _ eq_refl);
    unfold refresh, macos_begin_batch, macos_end_batch, macos_add_image, macos_remove_image,
    add_jit_module, remove_jit_module, remove_jit_module_by_eh_frame, remove_jit_locked; keep_pool.
Qed.

(** The registry's invariant and the walks' go together. *)
Lemma walks_after v v' sp :
  Cursor.walk_wf (st v) -> same_pool (st v) (st v') -> represents v' sp -> Cursor.walk_wf (st v').
Proof.
  intros Hw [Hc Ha] Hr. pose proof (si_heap _ _ (rp_state _ _ Hr)) as Hh.
  assert (slots (st v') = slots (st v)) as Hs by (unfold slots; by rewrite Hc).
  destruct (Cursor.ww_pool _ Hw) as (chunks & Hp1 & Hp2 & Hp3 & Hp4). split; [|done|].
  - exists chunks. unfold pool_of. by rewrite Hc, Ha.
  - rewrite Hs. apply Forall_forall. intros sl Hin.
    destruct (proj1 (Forall_forall _ _) (Cursor.ww_slots _ Hw) sl Hin) as (G1 & _ & G3).
    split_and!; [done| |done]. intros p Hz. eapply hw_hazard; [done|by rewrite Hs|done].
Qed.

(** [s'] has the walks of [s]: a walk that was not released has its snapshot, as it was. *)
Definition keeps_walks (s s' : state (D := ModuleUnwindDataInternal Bytes) (R := R) (Regs := Regs) (C := C)) : Prop :=
  forall i sl p snap, slots s !! i = Some sl -> snapshot (inner sl) = Some p -> heap s !! p = Some snap ->
  exists sl', slots s' !! i = Some sl' /\
    (seq sl' <> seq sl \/ (snapshot (inner sl') = Some p /\ heap s' !! p = Some snap)).

Lemma keeps_walks_same s s' : slots s' = slots s -> heap s' = heap s -> keeps_walks s s'.
Proof. intros E1 E2 i sl p snap Hi Hs Hp. exists sl. rewrite E1, E2. auto. Qed.

Lemma keeps_walks_pool s s' box :
  Cursor.walk_wf s -> heap s !! box = None -> same_pool s s' ->
  (forall p, p <> box -> is_hazarded s p = true -> heap s' !! p = heap s !! p) -> keeps_walks s s'.
Proof.
  intros Hw Hbox Hsame Hh i sl p snap Hi Hs Hp. exists sl. rewrite (same_pool_slots _ _ Hsame). split; [done|]. right. split; [done|].
  destruct (Cursor.walk_wf_slot _ _ _ Hw Hi) as (Hz & _ & _). rewrite Hh; [done|congruence|].
  apply is_hazarded_true. exists sl. split; [by eapply list_elem_of_lookup_2|by apply Hz].
Qed.

Definition boxed_at (box : ptr) os : Prop := Forall (fun o => forall b, op_box o = Some b -> b = box) os.

Lemma ops_keep_pool box os : boxed_at box os -> keeps_pool box (run_ops hash_iter os).
Proof.
  induction 1 as [|o os Ho _ IH]; [apply keeps_pool_ret|]. cbn [run_ops]. apply keeps_pool_bind; [by apply op_keeps_pool|done].
Qed.

Lemma ops_run box os v sp :
  represents v sp -> Cursor.walk_wf (st v) -> ops_ok hash_iter os sp v ->
  exists v', run_ops hash_iter os v = (Ok tt, v') /\ represents v' (spec_ops os sp) /\ Cursor.walk_wf (st v') /\
    (boxed_at box os -> heap (st v) !! box = None -> keeps_walks (st v) (st v')).
Proof using hash_iter_perm.
  intros Hr Hw Hok. assert (exists v', run_ops hash_iter os v = (Ok tt, v') /\ represents v' (spec_ops os sp)) as (v' & Hrun & Hr').
  { clear Hw. revert v sp Hr Hok. induction os as [|o os IH]; intros v sp Hr Hok; [by exists v|]. destruct Hok as [Ho Hok].
    destruct (op_step hash_iter hash_iter_perm o v sp Hr Ho) as (v1 & E1 & Hr1). rewrite E1 in Hok.
    destruct (IH v1 _ Hr1 Hok) as (v' & E & Hr'). exists v'. split; [|done]. cbn [run_ops]. by rewrite st_bind_spec, E1. }
  exists v'. split_and!; [done|done| |].
  - eapply walks_after; [done| |done]. assert (v' = (run_ops hash_iter os v).2) as -> by by rewrite Hrun.
    clear. revert v. induction os as [|o os IH]; intros v; [done|]. cbn [run_ops]. rewrite st_bind_spec.
    destruct (op_keeps_pool (default inhabitant (op_box o)) o) with v as (Hp & _ & _); [by intros b ->|].
    destruct (run_op hash_iter o v) as [[a|e] v1]; [|done]. specialize (IH v1). destruct Hp, IH. split; cbn [snd] in *; congruence.
  - intros Hb Hbox. destruct (ops_keep_pool box os Hb v) as (Hp & Hh & _). rewrite Hrun in Hp, Hh. by eapply keeps_walks_pool.
Qed.

(** *** Cursor operations keep the modules *)

Definition same_modules (s s' : state (D := ModuleUnwindDataInternal Bytes) (R := R) (Regs := Regs) (C := C)) : Prop :=
  current s' = current s /\ heap s' = heap s /\ retired s' = retired s /\ generations s' = generations s.

Definition keeps_modules {A} (m : ST (Cursor.world (D := ModuleUnwindDataInternal Bytes) (R := R) (Regs := Regs) (C := C)) crash A) : Prop :=
  forall x, same_modules (Cursor.statics x) (Cursor.statics (m x).2).

Lemma same_modules_trans s1 s2 s3 : same_modules s1 s2 -> same_modules s2 s3 -> same_modules s1 s3.
Proof. unfold same_modules. intuition congruence. Qed.

Lemma keeps_modules_bind {A B} m (f : A -> ST Cursor.world crash B) :
  keeps_modules m -> (forall a, keeps_modules (f a)) -> keeps_modules (m ≫= f).
Proof.
  intros Hm Hf x. rewrite st_bind_spec. specialize (Hm x). destruct (m x) as [[a|e] x1]; [|done].
  by eapply same_modules_trans, Hf.
Qed.

Lemma keeps_modules_ret {A} (a : A) : keeps_modules (mret a).
Proof. done. Qed.
Lemma update_slot_modules i f s : same_modules s (update_slot i f s).
Proof. unfold update_slot. by destruct (slot_chunk _ _). Qed.
Lemma claim_slot_modules s : same_modules s (claim_slot s).2.
Proof. unfold claim_slot. destruct (list_find _ _) as [[i sl]|]; [apply update_slot_modules|done]. Qed.
Lemma acquire_snapshot_modules i s : same_modules s (acquire_snapshot i s).2.
Proof. unfold acquire_snapshot. destruct (slot s i); [apply update_slot_modules|done]. Qed.
Lemma release_slot_modules i n s : same_modules s (release_slot i n s).
Proof. unfold release_slot. destruct (slot s i); [|done]. destruct (negb _); [done|apply update_slot_modules]. Qed.
Lemma ensure_slots_modules n s : same_modules s (ensure_slots context_new n s).
Proof.
  unfold ensure_slots. generalize MAX_SLOT_CHUNKS. intros fuel. revert s. induction fuel as [|fuel IH]; intros s; cbn [ensure_slots_loop].
  all: destruct (_ && _); [|done].
  { done. }
  specialize (IH (grow context_new s)). destruct (ensure_slots_loop context_new fuel n (grow context_new s)); [|done].
  by eapply same_modules_trans.
Qed.

Lemma cursor_init_modules cur ctx lo hi lo2 hi2 : keeps_modules (Cursor.cursor_init_bounds2 cur ctx lo hi lo2 hi2).
Proof.
  intros x. unfold Cursor.cursor_init_bounds2. st_bind. cbn [Cursor.set_mem Cursor.statics Cursor.mem].
  pose proof (claim_slot_modules (Cursor.statics x)) as Hc. destruct (claim_slot _) as [[[i n]|] s1]; st_bind; [|done].
  pose proof (acquire_snapshot_modules i s1) as Ha. destruct (acquire_snapshot i s1) as [[p|] s2]; cbn [snd] in *; st_bind.
  - pose proof (same_modules_trans _ _ _ Hc Ha) as Hs. destruct (heap s2 !! p) as [snap|]; st_bind; [|done].
    destruct (if lo <? hi then _ else _) as [l h]. destruct (slot s2 i); st_bind; [|by eapply same_modules_trans, release_slot_modules].
    destruct (if lo2 <? hi2 then _ else _) as [l2 h2]. st_bind. by eapply same_modules_trans, update_slot_modules.
  - eapply same_modules_trans; [exact Hc|]. by eapply same_modules_trans, release_slot_modules.
Qed.

Lemma step_modules cur ip sp : keeps_modules (Cursor.step signal_aware cur ip sp).
Proof.
  intros x. unfold Cursor.step, Cursor.output. st_bind. cbn [Cursor.set_mem Cursor.statics Cursor.mem].
  destruct (negb _); [done|]. destruct (slot _ _) as [sl|]; [|done]. destruct (done _); [done|].
  destruct (snapshot _) as [p|]; [|done]. st_bind. cbn [Cursor.set_mem Cursor.statics Cursor.mem].
  destruct (heap _ !! p) as [snap|]; [|done]. st_bind. unfold st_lift. destruct (Cursor.advance _ _ _ _) as [[code i']|e]; [|done].
  st_bind. apply update_slot_modules.
Qed.

Lemma get_reg_modules cur ip sp : keeps_modules (Cursor.get_reg cur ip sp).
Proof. intros x. by destruct (Cursor.get_reg_statics cur ip sp x) as [m ->]. Qed.

Lemma cursor_fini_modules cur : keeps_modules (Cursor.cursor_fini cur).
Proof.
  intros x. destruct (Cursor.cursor_fini_statics cur x) as (s' & [->|(i & n & ->)] & ->); [done|]. apply release_slot_modules.
Qed.

(** A call on cursors keeps the modules and the walks, and ends well or in a panic. *)
Definition cursor_safe {A} (m : ST (Cursor.world (D := ModuleUnwindDataInternal Bytes) (R := R) (Regs := Regs) (C := C)) crash A) : Prop :=
  keeps_modules m /\ forall x, Cursor.walk_wf (Cursor.statics x) ->
    let '(r, x') := m x in
    r <> Err UseAfterFree /\
    (forall a, r = Ok a -> Cursor.walk_wf (Cursor.statics x') /\ keeps_walks (Cursor.statics x) (Cursor.statics x')).

Lemma cursor_safe_ret {A} (a : A) : cursor_safe (mret a).
Proof. split; [done|]. intros x Hx. split; [done|]. intros _ _. split; [done|by apply keeps_walks_same]. Qed.

Lemma cursor_safe_ignore {A} m : cursor_safe (A := A) m -> cursor_safe (ignore m).
Proof.
  intros [Hk Hs]. split; [apply keeps_modules_bind; [done|intros ?; apply keeps_modules_ret]|].
  intros x Hx. specialize (Hs x Hx). unfold ignore. st_bind. destruct (m x) as [[a|e] x']; [|split; [naive_solver|done]].
  split; [done|]. intros _ _. by eapply Hs.
Qed.

(** What is left to show of the calls of [Cursor]: that they keep the walks. *)
Lemma cursor_safe_call (m : ST Cursor.world crash unit) c :
  (forall x, Cursor.run_call signal_aware context_new (fun h => fresh (dom h)) c x = m x) -> keeps_modules m ->
  (forall x, Cursor.walk_wf (Cursor.statics x) -> (m x).1 = Ok tt -> keeps_walks (Cursor.statics x) (Cursor.statics (m x).2)) ->
  cursor_safe m.
Proof.
  intros Hm Hk Hwalk. split; [done|]. intros x Hx. specialize (Hwalk x Hx).
  pose proof (Cursor.run_call_safe signal_aware context_new (fun h => fresh (dom h))
    (fun h => proj1 (not_elem_of_dom _ _) (is_fresh (dom h))) c x Hx) as Hsafe.
  rewrite Hm in Hsafe. destruct (m x) as [r x']. destruct Hsafe as [Hne Hok]. split; [done|]. intros [] ->. split; [by eapply Hok|by apply Hwalk].
Qed.

Lemma ignore_ok {A} (m : ST (Cursor.world (D := ModuleUnwindDataInternal Bytes) (R := R) (Regs := Regs) (C := C)) crash A) x :
  (ignore m x).2 = (m x).2 /\ ((ignore m x).1 = Ok tt -> exists a, (m x).1 = Ok a).
Proof. unfold ignore. rewrite st_bind_spec. destruct (m x) as [[a|e] x']; [|done]. cbn. eauto. Qed.

Lemma keeps_walks_insert s s' i sl sl' :
  slots s !! i = Some sl -> slots s' = <[i := sl']> (slots s) -> heap s' = heap s ->
  (forall p, snapshot (inner sl) = Some p -> seq sl' <> seq sl \/ snapshot (inner sl') = Some p) -> keeps_walks s s'.
Proof.
  intros Hi Hs Hh Hw j sl0 p snap Hj Hp Hsnap. rewrite Hs, Hh. destruct (decide (i = j)) as [->|Hne].
  - rewrite Hi in Hj. injection Hj as ->. exists sl'. rewrite list_lookup_insert_eq by by eapply lookup_lt_Some.
    split; [done|]. destruct (Hw p Hp); auto.
  - exists sl0. rewrite list_lookup_insert_ne by done. auto.
Qed.

Lemma cursor_init_walks cur ctx lo hi lo2 hi2 x :
  Cursor.walk_wf (Cursor.statics x) ->
  keeps_walks (Cursor.statics x) (Cursor.statics (Cursor.cursor_init_bounds2 cur ctx lo hi lo2 hi2 x).2).
Proof.
  intros Hx. pose proof (Cursor.cursor_init_run cur ctx lo hi lo2 hi2 x Hx) as Hrun. cbn zeta in Hrun.
  destruct (Cursor.cursor_init_bounds2 cur ctx lo hi lo2 hi2 x) as [r x']. destruct Hrun as (_ & _ & Hrun). cbn [snd].
  destruct (claim_slot _) as [[[i n]|] s1]; [|destruct Hrun as [_ ->]; by apply keeps_walks_same].
  destruct Hrun as (sl & Hi & Hfree & _ & Hh & _ & Hrun). destruct (Cursor.walk_wf_slot _ _ _ Hx Hi) as (_ & _ & Hnone).
  specialize (Hnone Hfree). destruct (current _) as [p|].
  - destruct Hrun as (snap & _ & _ & _ & Hs). eapply keeps_walks_insert; [done..|]. intros q. by rewrite Hnone.
  - destruct Hrun as (_ & _ & Hs). eapply keeps_walks_insert; [done..|]. intros q. by rewrite Hnone.
Qed.

Lemma step_walks cur ip sp x :
  Cursor.walk_wf (Cursor.statics x) -> (exists code, (Cursor.step signal_aware cur ip sp x).1 = Ok code) ->
  keeps_walks (Cursor.statics x) (Cursor.statics (Cursor.step signal_aware cur ip sp x).2).
Proof.
  intros Hx [code0 Hok]. pose proof (Cursor.step_run signal_aware cur ip sp x Hx) as Hrun. cbn zeta in Hrun.
  destruct (Cursor.step signal_aware cur ip sp x) as [r x']. cbn [fst snd] in *. destruct Hrun as (_ & _ & Hrun).
  destruct (negb _); [destruct Hrun as [_ ->]; by apply keeps_walks_same|]. destruct Hrun as (sl & Hi & Hrun).
  destruct (done (inner sl)); [destruct Hrun as [_ ->]; by apply keeps_walks_same|].
  destruct (snapshot (inner sl)) as [p|] eqn:Ep; [|destruct Hrun as [_ ->]; by apply keeps_walks_same].
  destruct Hrun as (snap & _ & _ & Hh & _ & Hrun). destruct (Cursor.advance _ _ _ _) as [[code i']|e]; [|congruence].
  destruct Hrun as (_ & [Hadv _] & Hs). eapply keeps_walks_insert; [done..|]. intros q Hq. right. cbn. congruence.
Qed.

Lemma release_walks i n s : pool_wf s -> keeps_walks s (release_slot i n s).
Proof.
  intros Hp. destruct (nonce_matches s i n) eqn:Hm; [|rewrite release_slot_stale by done; by apply keeps_walks_same].
  unfold nonce_matches in Hm. rewrite slot_lookup in Hm by done. destruct (slots s !! i) as [sl|] eqn:Hi; [|done].
  apply Z.eqb_eq in Hm. destruct (release_slot_live s i n sl Hp Hi Hm) as (Hs & _ & _ & Hh & _).
  eapply keeps_walks_insert; [done..|]. intros p _. left. cbn. rewrite Hm. apply Z.eqb_neq, nonce_bumped.
Qed.

Lemma ensure_slots_prefix n (s : state (D := ModuleUnwindDataInternal Bytes) (R := R) (Regs := Regs) (C := C)) :
  pool_wf s -> heap (ensure_slots context_new n s) = heap s /\
  forall i sl, slots s !! i = Some sl -> slots (ensure_slots context_new n s) !! i = Some sl.
Proof.
  intros [chunks Hp]. unfold ensure_slots.
  destruct (ensure_slots_loop_spec context_new MAX_SLOT_CHUNKS n s chunks Hp) as (s' & k & -> & Hpk & _ & _ & _ & Hh & _); [lia|].
  cbn [default from_option id]. split; [done|]. intros i sl Hi. rewrite (pool_of_slots _ _ Hpk), concat_app, <- (pool_of_slots _ _ Hp).
  by apply lookup_app_l_Some.
Qed.

Lemma ensure_slots_walks n s s' : pool_wf s -> keeps_walks (ensure_slots context_new n s) s' -> keeps_walks s s'.
Proof.
  intros Hp Hk i sl p snap Hi Hs Hsnap. destruct (ensure_slots_prefix n s Hp) as [Hh Hsl].
  apply (Hk i sl p snap); [by apply Hsl|done|by rewrite Hh].
Qed.

(** *** One call *)

(** The invariant of the library, and what a call keeps of it. *)
Definition api_inv w sp : Prop := represents (modules w) sp /\ Cursor.walk_wf (lib w).

Definition call_ok {A} (m : ST ApiWorld crash A) (fops : ApiWorld -> list op) : Prop := forall w sp,
  api_inv w sp -> ops_ok hash_iter (fops w) sp (modules w) ->
  let '(r, w') := m w in
  r <> Err UseAfterFree /\
  (forall a, r = Ok a -> api_inv w' (spec_ops (fops w) sp) /\ keeps_walks (lib w) (lib w')).

Lemma represents_lib v s' sp : represents v sp -> same_modules (st v) s' -> heap_wf s' -> represents (MkWorld (reg v) s') sp.
Proof.
  intros [[_ Hl Hg] Hp ? ? ? ? ? ? ? ? ?] (E1 & E2 & _ & E4) Hh. split; try done; [split|]; cbn [st].
  - done.
  - intros p snap. rewrite E1, E2. apply Hl.
  - by rewrite E4.
  - unfold published in *. by rewrite E1, E2.
Qed.

Lemma cursor_call_ok {A} m : cursor_safe (A := A) m -> call_ok (on_cursor m) (fun _ => []).
Proof.
  intros [Hk Hs] w sp [Hr Hw] _. unfold on_cursor. specialize (Hk (cursor_world w)). specialize (Hs (cursor_world w) Hw).
  destruct (m (cursor_world w)) as [r x']. destruct Hs as [Hne Hok]. split; [done|]. intros a ->.
  destruct (Hok a eq_refl) as [Hw' Hkeep]. split; [|done]. split; [|done]. apply represents_lib; [done..|apply Hw'].
Qed.

(** A call that runs operations of the registry. *)
Lemma jit_call_ok {A} (m : ApiWorld -> ST JitWorld crash A) (fops : ApiWorld -> list op) :
  (forall w, exists a n, forall v', run_ops hash_iter (fops w) (modules w) = (Ok tt, v') ->
    m w (jit w) = (Ok a, MkJitWorld n v')) ->
  (forall w, boxed_at (next_box alloc w) (fops w)) ->
  call_ok (w ← st_get; on_jit (m w)) fops.
Proof using hash_iter_perm alloc_fresh.
  intros Hm Hbox w sp [Hr Hw] Hok. st_bind. unfold on_jit. destruct (Hm w) as (a & n & Hrun).
  destruct (ops_run (next_box alloc w) _ _ _ Hr Hw Hok) as (v' & Hops & Hr' & Hw' & Hkeep). rewrite (Hrun v' Hops).
  split; [done|]. intros _ _. split; [done|]. apply Hkeep; [done|apply alloc_fresh].
Qed.

Lemma modules_call_ok (m : ApiWorld -> ST World crash unit) (fops : ApiWorld -> list op) :
  (forall w, m w (modules w) = run_ops hash_iter (fops w) (modules w)) -> (forall w, boxed_at (next_box alloc w) (fops w)) ->
  call_ok (w ← st_get; on_modules (m w)) fops.
Proof using hash_iter_perm alloc_fresh.
  intros Hm Hbox. apply jit_call_ok; [|done]. intros w. exists tt, (JIT_REGISTER_FAILURES (jit w)). intros v' Hrun.
  unfold on_world. change (Jit.world (jit w)) with (modules w). by rewrite Hm, Hrun.
Qed.

Lemma call_ok_ignore {A} m fops : call_ok (A := A) m fops -> call_ok (ignore m) fops.
Proof.
  intros Hm w sp Hinv Hok. specialize (Hm w sp Hinv Hok). unfold ignore. st_bind.
  destruct (m w) as [[a|e] w']; [|split; [naive_solver|done]]. split; [done|]. intros _ _. by eapply Hm.
Qed.

Lemma run_ops_one o v : run_ops hash_iter [o] v = run_op hash_iter o v.
Proof. cbn [run_ops]. rewrite st_bind_spec. by destruct (run_op hash_iter o v) as [[[]|e] v']. Qed.

Lemma run_ops_app os1 os2 v :
  run_ops hash_iter (os1 ++ os2) v = (_ ← run_ops hash_iter os1; run_ops hash_iter os2) v.
Proof.
  revert v. induction os1 as [|o os1 IH]; intros v; cbn [run_ops app]; [by st_bind|]. rewrite !st_bind_spec.
  destruct (run_op hash_iter o v) as [[a|e] v1]; [|done]. by rewrite IH, st_bind_spec.
Qed.

Lemma on_add_image_ops box bytes header slide v :
  MachoImage.on_add_image (C := C) bytes box header slide v = run_ops hash_iter (image_ops box bytes (header, slide)) v.
Proof.
  unfold MachoImage.on_add_image, image_ops. cbn [fst snd]. destruct (header =? 0); [done|].
  destruct (MachoImage.build_image _ _ _) as [[[key fp] [m|]]|]; [by rewrite run_ops_one|done..].
Qed.

Lemma on_remove_image_ops box bytes header slide v :
  MachoImage.on_remove_image bytes box header slide v = run_ops hash_iter (unload_ops box bytes header slide) v.
Proof.
  unfold MachoImage.on_remove_image, unload_ops. destruct (header =? 0); [done|].
  destruct (MachoImage.image_key _ _ _) as [key|]; [|done]. symmetry. apply (run_ops_one (OpRemoveImage box key)).
Qed.

Lemma replay_images_ops box bytes images v :
  MachoImage.replay_images (C := C) bytes box images v = run_ops hash_iter (images ≫= image_ops box bytes) v.
Proof.
  revert v. induction images as [|[header slide] images IH]; intros v; [done|].
  change (((header, slide) :: images) ≫= image_ops box bytes) with (image_ops box bytes (header, slide) ++ (images ≫= image_ops box bytes)).
  rewrite run_ops_app. cbn [MachoImage.replay_images]. rewrite !st_bind_spec, on_add_image_ops.
  destruct (run_ops _ _ v) as [[[]|e] v1]; [apply IH|done].
Qed.

Lemma init_callbacks_ops box bytes called images v :
  MachoImage.init_callbacks (C := C) bytes box called images v = run_ops hash_iter (loader_ops box bytes called (DyldImages images)) v.
Proof.
  unfold MachoImage.init_callbacks, loader_ops. destruct called; [done|].
  change (OpBeginBatch :: (images ≫= image_ops box bytes) ++ [OpEndBatch box]) with
    ([OpBeginBatch] ++ (images ≫= image_ops box bytes) ++ [OpEndBatch box]).
  rewrite run_ops_app, !st_bind_spec, run_ops_one. cbn [run_op]. destruct (macos_begin_batch v) as [[[]|e] v1]; [|done].
  rewrite st_bind_spec, run_ops_app, st_bind_spec, replay_images_ops. destruct (run_ops _ _ v1) as [[[]|e] v2]; [|done].
  by rewrite run_ops_one.
Qed.

Lemma register_ops box bytes p len lo hi (j : JitWorld (R := R) (Regs := Regs) (C := C)) :
  exists a n, forall v', run_ops hash_iter (jit_ops box bytes p len lo hi) (Jit.world j) = (Ok tt, v') ->
    register_jit_eh_frame bytes box p len lo hi j = (Ok a, MkJitWorld n v').
Proof.
  unfold jit_ops, jit_accepted, register_jit_eh_frame. cbn [deref].
  destruct ((p =? 0) || (len =? 0) || (hi <=? lo)) eqn:E1.
  { rewrite bool_decide_false by (rewrite !orb_true_iff, !Z.eqb_eq, Z.leb_le in E1; lia).
    eexists _, _. intros v' [= <-]. by rewrite note_fail_run. }
  rewrite !orb_false_iff, !Z.eqb_neq, Z.leb_gt in E1. destruct (u32_MAX <? hi -64 lo) eqn:E2; bool_to_prop.
  { rewrite bool_decide_false by lia. eexists _, _. intros v' [= <-]. by rewrite note_fail_run. }
  destruct (fde_pc_range _ _) as [r|].
  - rewrite bool_decide_true by (split_and!; [lia..|done]). eexists _, _. intros v'. rewrite run_ops_one. cbn [run_op].
    intros Hrun. rewrite st_bind_spec. unfold on_world. rewrite Hrun. by st_bind.
  - rewrite bool_decide_false by tauto. eexists _, _. intros v' [= <-]. by rewrite note_fail_run.
Qed.

Lemma register_auto_ops box bytes p len (j : JitWorld (R := R) (Regs := Regs) (C := C)) :
  exists a n, forall v', run_ops hash_iter
      (match fde_pc_range (slice_at bytes p len) p with Some (lo, hi) => jit_ops box bytes p len lo hi | None => [] end)
      (Jit.world j) = (Ok tt, v') ->
    register_jit_eh_frame_auto bytes box p len j = (Ok a, MkJitWorld n v').
Proof.
  unfold register_jit_eh_frame_auto. destruct ((p =? 0) || (len =? 0)) eqn:E1.
  - eexists _, _. intros v' Hrun. rewrite note_fail_run by done. unfold failed. do 2 f_equal.
    destruct (fde_pc_range _ _) as [[lo hi]|]; [|by injection Hrun as <-]. unfold jit_ops, jit_accepted in Hrun.
    rewrite bool_decide_false in Hrun by (rewrite orb_true_iff, !Z.eqb_eq in E1; lia). by injection Hrun as <-.
  - destruct (fde_pc_range _ _) as [[lo hi]|]; [apply register_ops|]. eexists _, _. intros v' [= <-]. by rewrite note_fail_run.
Qed.

Lemma boxed_one box o : op_box o = Some box -> boxed_at box [o].
Proof. intros E. constructor; [|constructor]. rewrite E. by intros b [= <-]. Qed.

Lemma jit_ops_boxed box bytes p len lo hi : boxed_at box (jit_ops box bytes p len lo hi).
Proof. unfold jit_ops. destruct (jit_accepted _ _ _ _ _); [by apply boxed_one|constructor]. Qed.

Lemma image_ops_boxed box bytes image : boxed_at box (image_ops box bytes image).
Proof.
  unfold image_ops. destruct (image.1 =? 0); [constructor|].
  destruct (MachoImage.build_image _ _ _) as [[[key fp] [m|]]|]; [by apply boxed_one|constructor..].
Qed.

Lemma unload_ops_boxed box bytes header slide : boxed_at box (unload_ops box bytes header slide).
Proof.
  unfold unload_ops. destruct (header =? 0); [constructor|].
  destruct (MachoImage.image_key _ _ _) as [key|]; [by apply boxed_one|constructor].
Qed.

Lemma loader_ops_boxed box bytes called loader : boxed_at box (loader_ops box bytes called loader).
Proof.
  unfold loader_ops. destruct loader as [lossy objects size|images|e g i|]; try by apply boxed_one.
  destruct called; [constructor|]. constructor; [done|]. apply Forall_app. split; [|by apply boxed_one].
  induction images as [|image images IH]; [constructor|]. apply Forall_app. split; [apply image_ops_boxed|exact IH].
Qed.

Lemma refresh_call_ok bytes loader :
  call_ok (modules_refresh hash_iter alloc bytes loader) (fun w => loader_ops (next_box alloc w) bytes (CALLBACKS w) loader).
Proof using hash_iter_perm alloc_fresh.
  destruct loader as [lossy objects size|images|e g i|].
  2: { intros w sp Hinv Hok. unfold modules_refresh. st_bind.
    pose proof (modules_call_ok (fun w => MachoImage.init_callbacks bytes (next_box alloc w) (CALLBACKS w) images)
      _ (fun w => init_callbacks_ops _ _ _ _ _) (fun w => loader_ops_boxed _ _ _ _) w sp Hinv Hok) as Hcall. rewrite st_bind_spec, st_get_spec in Hcall.
    destruct (on_modules _ w) as [[[]|e] w']; [|exact Hcall]. st_bind. split; [done|]. intros _ _. by apply (proj2 Hcall tt). }
  all: unfold modules_refresh; apply modules_call_ok; [|intros w; apply loader_ops_boxed]; intros w; cbn [loader_ops]; by rewrite run_ops_one.
Qed.

Lemma pure_call_ok (f : ApiWorld -> ApiWorld) : (forall w, jit (f w) = jit w) -> call_ok (st_modify f) (fun _ => []).
Proof. intros Hf w sp Hinv _. unfold api_inv, lib, modules in *. st_bind. split; [done|]. intros _ _. rewrite Hf. split; [done|by apply keeps_walks_same]. Qed.

Lemma context_from_ucontext_ok fill ctx os_ctx : call_ok (fh_context_from_ucontext fill ctx os_ctx) (fun _ => []).
Proof.
  unfold fh_context_from_ucontext, context_from_os, put_context.
  destruct (ctx =? 0), (os_ctx =? 0); intros w sp Hinv _; st_bind;
    (split; [done|]; intros _ _; split; [done|by apply keeps_walks_same]).
Qed.
Lemma context_from_thread_state_ok fill ctx ts : call_ok (fh_context_from_thread_state fill ctx ts) (fun _ => []).
Proof.
  unfold fh_context_from_thread_state, context_from_thread_state, put_context.
  destruct (ctx =? 0), (ts =? 0); intros w sp Hinv _; st_bind;
    (split; [done|]; intros _ _; split; [done|by apply keeps_walks_same]).
Qed.

(** No other operation of the list than the calls' own: a call on cursors. *)
Lemma cursor_entry_ok {A} b (a : A) m : cursor_safe m -> cursor_safe (if b : bool then mret a else m).
Proof. destruct b; [intros _; apply cursor_safe_ret|done]. Qed.

Lemma cursor_init_safe cur ctx lo hi lo2 hi2 : cursor_safe (ignore (Cursor.cursor_init_bounds2 cur ctx lo hi lo2 hi2)).
Proof using H H0 signal_aware context_new.
  apply (cursor_safe_call _ (Cursor.CallInit cur ctx lo hi lo2 hi2)); [intros x; reflexivity|..].
  - apply keeps_modules_bind; [apply cursor_init_modules|intros ?; apply keeps_modules_ret].
  - intros x Hx _. rewrite (proj1 (ignore_ok _ x)). by apply cursor_init_walks.
Qed.

Lemma step_safe cur ip sp : cursor_safe (ignore (Cursor.step signal_aware cur ip sp)).
Proof using H H0 context_new.
  apply (cursor_safe_call _ (Cursor.CallStep cur ip sp)); [intros x; reflexivity|..].
  - apply keeps_modules_bind; [apply step_modules|intros ?; apply keeps_modules_ret].
  - intros x Hx Hok. rewrite (proj1 (ignore_ok _ x)). by apply step_walks, ignore_ok.
Qed.

Lemma get_reg_safe cur ip sp : cursor_safe (Cursor.get_reg cur ip sp).
Proof using H H0 signal_aware context_new.
  apply (cursor_safe_call _ (Cursor.CallGetReg cur ip sp)); [intros x; reflexivity|apply get_reg_modules|].
  intros x Hx _. destruct (Cursor.get_reg_statics cur ip sp x) as [m ->]. by apply keeps_walks_same.
Qed.

Lemma fini_safe cur : cursor_safe (Cursor.cursor_fini cur).
Proof using H H0 signal_aware context_new.
  apply (cursor_safe_call _ (Cursor.CallFini cur)); [intros x; reflexivity|apply cursor_fini_modules|].
  intros x Hx _. destruct (Cursor.cursor_fini_statics cur x) as (s' & [->|(i & n & ->)] & ->); [by apply keeps_walks_same|].
  apply release_walks, Hx.
Qed.

Lemma pool_safe n : cursor_safe (Cursor.fh_init_pool context_new n).
Proof using H H0 signal_aware.
  assert (keeps_modules (Cursor.fh_init_pool context_new n)) as Hk.
  { intros x. unfold Cursor.fh_init_pool. st_bind. unfold init, Cursor.set_statics. cbn [snd Cursor.statics]. apply ensure_slots_modules. }
  split; [done|]. intros x Hx. unfold Cursor.fh_init_pool. st_bind. split; [done|]. intros _ _.
  unfold init, Cursor.set_statics. cbn [Cursor.statics]. split; [by apply Cursor.ensure_slots_wf|]. eapply ensure_slots_walks; [apply Hx|by apply keeps_walks_same].
Qed.

Lemma thread_register_safe q : cursor_safe (Cursor.fh_thread_register context_new q).
Proof using H H0 signal_aware.
  apply (cursor_safe_call _ (Cursor.CallThreadRegister q)); [intros x; reflexivity|..].
  - intros x. unfold Cursor.fh_thread_register, Cursor.register_current_thread. st_bind.
    unfold thread_registered, Cursor.set_statics. cbn [snd Cursor.statics Cursor.bounds Cursor.mem].
    eapply same_modules_trans; [|apply ensure_slots_modules]. done.
  - intros x Hx _. unfold Cursor.fh_thread_register, Cursor.register_current_thread. st_bind.
    unfold thread_registered, Cursor.set_statics. cbn [snd Cursor.statics Cursor.bounds Cursor.mem].
    set (s1 := MkState _ _ _ _ _ _ _). assert (Cursor.walk_wf s1) as Hs1 by by apply Cursor.set_registered_wf.
    assert (keeps_walks s1 (ensure_slots context_new (as_u 64 (DEFAULT_SLOTS + as_u 64 (SLOTS_PER_THREAD * (registered_threads (Cursor.statics x) +64 1)))) s1)) as Hk.
    { eapply ensure_slots_walks; [apply Hs1|by apply keeps_walks_same]. }
    exact Hk.
Qed.

Lemma call_step c w sp :
  api_inv w sp -> ops_ok hash_iter (module_ops c (ready c w)) sp (modules (ready c w)) ->
  let '(r, w') := run_call c w in
  r <> Err UseAfterFree /\ (forall a, r = Ok a -> api_inv w' (spec_ops (module_ops c (ready c w)) sp) /\ keeps_walks (lib w) (lib w')).
Proof using H hash_iter_perm alloc_fresh.
  intros Hinv. destruct c as [n bytes loader|q|bytes loader|bytes p len lo hi|bytes p len|lo|p|bytes h s|bytes h s|fill ctx o|fill ctx o
    |cur ctx|cur ctx lo hi|cur ctx lo hi lo2 hi2|cur ip sp'|cur ip sp'|cur|m]; cbn [run_call module_ops ready]; intros Hok.
  - pose proof (cursor_call_ok _ (pool_safe n) w sp Hinv I) as Hp. unfold fh_init, ignore, modules_init. rewrite !st_bind_spec.
    unfold on_cursor, Cursor.fh_init_pool in *. revert Hp Hok. st_bind. set (w1 := MkApiWorld _ _ _ _). intros [_ Hp] Hok. cbn [snd] in Hok.
    pose proof (refresh_call_ok bytes loader w1 sp (proj1 (Hp 0 eq_refl)) Hok) as Hc.
    destruct (modules_refresh _ _ _ _ w1) as [[[]|e] w2]; [|split; [destruct Hc; naive_solver|done]]. st_bind. split; [done|]. intros _ _.
    destruct (proj2 Hc tt eq_refl) as [Hinv2 Hk2]. split; [done|].
    apply (ensure_slots_walks (if n =? 0 then DEFAULT_SLOTS else n) (lib w) (lib w2) (Cursor.ww_pool _ (proj2 Hinv)) Hk2).
  - exact (cursor_call_ok _ (thread_register_safe q) w sp Hinv I).
  - by apply refresh_call_ok.
  - revert w sp Hinv Hok. apply call_ok_ignore, jit_call_ok; intros w; [apply register_ops|apply jit_ops_boxed].
  - revert w sp Hinv Hok. apply call_ok_ignore, jit_call_ok; intros w; [apply register_auto_ops|]. destruct (fde_pc_range _ _) as [[lo hi]|]; [apply jit_ops_boxed|constructor].
  - revert w sp Hinv Hok. apply modules_call_ok; intros w; [by rewrite run_ops_one|]. constructor; [by intros b [= <-]|constructor].
  - revert w sp Hinv Hok. apply modules_call_ok; intros w; [by rewrite run_ops_one|]. constructor; [by intros b [= <-]|constructor].
  - revert w sp Hinv Hok. apply modules_call_ok; intros w; [apply on_add_image_ops|apply image_ops_boxed].
  - revert w sp Hinv Hok. apply modules_call_ok; intros w; [apply on_remove_image_ops|apply unload_ops_boxed].
  - by apply context_from_ucontext_ok.
  - by apply context_from_thread_state_ok.
  - apply (cursor_call_ok (ignore (Cursor.fh_cursor_init cur ctx))); [|done..]. unfold Cursor.fh_cursor_init.
    destruct (_ || _); [apply cursor_safe_ignore, cursor_safe_ret|apply cursor_init_safe].
  - apply (cursor_call_ok (ignore (Cursor.fh_cursor_init_bounds cur ctx lo hi))); [|done..]. unfold Cursor.fh_cursor_init_bounds.
    destruct (_ || _); [apply cursor_safe_ignore, cursor_safe_ret|apply cursor_init_safe].
  - apply (cursor_call_ok (ignore (Cursor.fh_cursor_init_bounds2 cur ctx lo hi lo2 hi2))); [|done..].
    unfold Cursor.fh_cursor_init_bounds2. destruct (_ || _); [apply cursor_safe_ignore, cursor_safe_ret|apply cursor_init_safe].
  - apply (cursor_call_ok (ignore (Cursor.fh_step signal_aware cur ip sp'))); [|done..]. unfold Cursor.fh_step.
    destruct (_ || _); [apply cursor_safe_ignore, cursor_safe_ret|apply step_safe].
  - apply (cursor_call_ok (Cursor.fh_get_reg cur ip sp')); [|done..]. apply cursor_entry_ok.
    apply get_reg_safe.
  - apply (cursor_call_ok (Cursor.fh_cursor_fini cur)); [|done..]. apply cursor_entry_ok.
    apply fini_safe.
  - by apply (pure_call_ok (fun w => MkApiWorld (jit w) (thread_bounds w) m (CALLBACKS w))).
Qed.

Lemma calls_run cs w sp :
  api_inv w sp -> calls_ok cs w sp ->
  let '(r, w') := run_calls cs w in
  r <> Err UseAfterFree /\ (r = Ok tt -> api_inv w' (spec_calls cs w sp)).
Proof using H hash_iter_perm alloc_fresh.
  revert w sp. induction cs as [|c cs IH]; intros w sp Hinv Hok; cbn [run_calls spec_calls]; [by st_bind|].
  destruct Hok as [Hc Hok]. pose proof (call_step c w sp Hinv Hc) as Hstep. st_bind.
  destruct (run_call c w) as [[[]|e] w']; destruct Hstep as [Hne Hstep]; [|split; [congruence|done]].
  apply IH; [|done]. by apply (Hstep tt).
Qed.

(** C3: the library as a whole keeps its promises. Through any sequence of calls of the
    API, of dyld's callbacks and of the program's writes to its memory, no freed
    snapshot is ever touched, and unless a call panics the library ends in its
    invariant: what is published is exactly the modules of the specification, those of
    the loader's last report and the registered JIT modules, and every walk's snapshot
    is hazarded and alive. *)
Theorem api_refines cs w sp (Hinv : api_inv w sp) (Hok : calls_ok cs w sp) :
  let '(r, w') := run_calls cs w in
  r <> Err UseAfterFree /\
  (r = Ok tt ->
     let sp' := spec_calls cs w sp in
     api_inv w' sp' /\ published (lib w') = sp_static sp' ∪ (fst <$> sp_jit sp')).
Proof using H hash_iter_perm alloc_fresh.
  pose proof (calls_run cs w sp Hinv Hok) as Hrun. destruct (run_calls cs w) as [r w']. destruct Hrun as [Hne Hrun].
  split; [done|]. intros ->. cbn zeta. split; [by apply Hrun|]. by apply rp_published, Hrun.
Qed.

(** The walk that the cursor at [cur] stands for, and the modules of its snapshot. *)
Definition walk_modules w (cur : Z) (nonce : Z) (mods : gmap Z (Module_ (ModuleUnwindDataInternal Bytes))) : Prop :=
  exists i sl p snap, Cursor.read_cursor (mem w) cur = Cursor.MkFhCursor Cursor.CURSOR_MAGIC (Z.of_nat i) nonce /\
    slots (lib w) !! i = Some sl /\ seq sl = nonce /\ snapshot (inner sl) = Some p /\
    heap (lib w) !! p = Some snap /\ view (unw snap) = mods.

Lemma new_walk cur ctx lo hi lo2 hi2 w sp :
  api_inv w sp ->
  let '(r, w') := on_cursor (Cursor.cursor_init_bounds2 cur ctx lo hi lo2 hi2) w in
  r = Ok 0 -> exists nonce, walk_modules w' cur nonce (sp_static sp ∪ (fst <$> sp_jit sp)).
Proof.
  intros [Hr Hw]. pose proof (Cursor.cursor_init_run cur ctx lo hi lo2 hi2 (cursor_world w) Hw) as Hrun. cbn zeta in Hrun.
  unfold on_cursor. destruct (Cursor.cursor_init_bounds2 cur ctx lo hi lo2 hi2 (cursor_world w)) as [r x'].
  intros ->. destruct Hrun as (_ & _ & Hrun). destruct (claim_slot _) as [[[i n]|] s1]; [|by destruct Hrun].
  destruct Hrun as (sl & Hi & _ & _ & Hh & _ & Hrun). pose proof (rp_published _ _ Hr) as Hpub. unfold published in Hpub.
  change (st (modules w)) with (lib w) in Hpub. change (Cursor.statics (cursor_world w)) with (lib w) in *.
  destruct (current (lib w)) as [p|] eqn:Ecur; [|by destruct Hrun]. destruct Hrun as (snap & Hsnap & _ & Hm & Hs).
  exists n. eexists i, _, p, snap. unfold lib, modules. cbn [jit Jit.world st mem]. rewrite Hm, Hs, Hh.
  split_and!; [apply Cursor.read_write_cursor|apply list_lookup_insert_eq; by eapply lookup_lt_Some|done..|].
  cbn [mbind option_bind] in Hpub. by rewrite Hsnap in Hpub.
Qed.

(** C4: a walk unwinds with the modules there were when it began. A successful
    [fh_cursor_init] gives the cursor a snapshot of exactly the modules that are
    published then; whatever call comes next, registrations and unloads included, the
    snapshot stays as it is until the walk's slot is released. *)
Theorem walk_keeps_modules w sp (Hinv : api_inv w sp) :
  (forall cur ctx lo hi lo2 hi2,
     let '(r, w') := on_cursor (Cursor.cursor_init_bounds2 cur ctx lo hi lo2 hi2) w in
     r = Ok 0 -> exists nonce, walk_modules w' cur nonce (sp_static sp ∪ (fst <$> sp_jit sp))) /\
  (forall cur nonce mods c, walk_modules w cur nonce mods -> ops_ok hash_iter (module_ops c (ready c w)) sp (modules (ready c w)) ->
     let '(r, w') := run_call c w in
     r = Ok tt -> Cursor.read_cursor (mem w') cur = Cursor.read_cursor (mem w) cur ->
     walk_modules w' cur nonce mods \/ Cursor.is_live (lib w') (Cursor.read_cursor (mem w') cur) = false).
Proof using H hash_iter_perm alloc_fresh.
  split; [intros cur ctx lo hi lo2 hi2; by apply new_walk|].
  intros cur nonce mods c (i & sl & p & snap & Hcur & Hi & Hseq & Hp & Hsnap & Hmods) Hok.
  pose proof (call_step c w sp Hinv Hok) as Hstep. destruct (run_call c w) as [r w']. destruct Hstep as [_ Hstep].
  intros -> Hsame. destruct (Hstep tt eq_refl) as [Hinv' Hk]. destruct (Hk i sl p snap Hi Hp Hsnap) as (sl' & Hi' & Hcase).
  destruct (decide (seq sl' = nonce)) as [Hlive|Hdead]; [left|right].
  - destruct Hcase as [Hne|[Hp' Hsnap']]; [congruence|]. exists i, sl', p, snap. rewrite Hsame. by split_and!.
  - rewrite Hsame, Hcur. unfold Cursor.is_live. cbn [Cursor.magic Cursor.cursor_slot Cursor.nonce].
    rewrite Nat2Z.id, (nonce_matches_lookup _ _ _ sl') by (try apply Hinv'; done).
    rewrite (proj2 (Z.eqb_neq _ _) Hdead). apply andb_false_r.
Qed.
End calls.

(** ** A run: initialise with one loaded image, start a walk, step it and finish it *)

Section example.
#[local] Existing Instance ModuleData.example_pe.
#[local] Existing Instance X86Compact.example_macho.
#[local] Instance example_gimli : Gimli unit :=
    Dwarf.example_gimli X86Dwarf.example_row_cfa X86Dwarf.example_row_rules.
#[local] Instance example_compact : Compact.CompactUnwindInfoUnwinding UnwindRuleX86_64 :=
    X86Compact.CompactUnwindInfoUnwinding_x86_64 (fun _ => X86Compact.Null).
#[local] Instance example_pe_unwinding : Pe.PeUnwinding Bytes UnwindRuleX86_64 UnwindRegsX86_64 := Pe.PeUnwinding_x86_64 deref 8.
#[local] Instance example_hasher : DefaultHasher := {|
    hasher := Z; hasher_new := 0; hasher_write := foldl (fun h b => 31 * h + b); hasher_finish := as_u 64 |}.

Definition example_aware : UnwinderInternal (ModuleUnwindDataInternal Bytes) -> FrameAddress -> stack_reader ->
    ST (UState UnwindRuleX86_64 UnwindRegsX86_64 unit) (fault Error) (option (Z * bool)) :=
  unwind_frame_signal_aware (unwind_frame_impl deref).

Definition example_alloc (h : gmap ptr (Snapshot (D := ModuleUnwindDataInternal Bytes))) : ptr := fresh (dom h : gset ptr).
Lemma example_alloc_fresh h : h !! example_alloc h = None.
Proof. exact (proj1 (not_elem_of_dom (D := gset ptr) h _) (is_fresh (dom h))). Qed.

Definition example_start : ApiWorld (R := UnwindRuleX86_64) (Regs := UnwindRegsX86_64) (C := unit) :=
  MkApiWorld (MkJitWorld 0 (MkWorld Registry_new state_new)) (0, 0) (fun _ => 0) false.

Lemma example_start_inv : api_inv example_start empty_spec.
Proof. split; [apply initial_represents|apply Cursor.state_new_wf]. Qed.

Definition example_calls : list api_call :=
  [FhInit 16 Elf.example_memory (Objects Elf.example_name [Elf.example_object] 64); ProgramWrites Cursor.example_mem;
   FhCursorInitBounds2 0x100 0x500 0x8000 0x8010 0 0; FhStep 0x100 0x200 0x208; FhCursorFini 0x100].

Lemma example_calls_ok : calls_ok map_to_list example_alloc example_aware tt example_calls example_start empty_spec.
Proof.
  split; [|by repeat split]. split; [|done].
  apply (refresh_ok _ _ _ [] (Elf.images (C := unit) Elf.example_memory Elf.example_name [Elf.example_object])).
  - split_and!; [split; [done|]|done..]. intros k fp m Hin. by apply not_elem_of_nil in Hin.
  - intros known. cbn [enumerate_static]. by rewrite Elf.enumerate_images.
  - split; [split; [constructor|by apply NoDup_singleton]|..].
    + intros k fp m1 m2 Hin. by apply not_elem_of_nil in Hin.
    + intros k _. apply lookup_empty.
    + intros _ [=].
  - intros k fp m. apply Elf.images_start.
  - apply example_alloc_fresh.
  - by vm_compute.
Qed.

Lemma api_refines_witness :
  (run_calls map_to_list example_alloc example_aware tt example_calls example_start).1 <> Err UseAfterFree.
Proof.
  pose proof (api_refines map_to_list (fun m => reflexivity _) example_alloc example_alloc_fresh example_aware tt
    example_calls example_start empty_spec example_start_inv example_calls_ok) as H.
  destruct (run_calls _ _ _ _ _ _) as [r w']. exact (proj1 H).
Defined.

(** The library with its image loaded; the walk of the cursor sees the image's module. *)
Definition example_loaded : ApiWorld (R := UnwindRuleX86_64) (Regs := UnwindRegsX86_64) (C := unit) :=
  (run_calls map_to_list example_alloc example_aware tt (take 2 example_calls) example_start).2.
Definition example_spec : Spec (D := ModuleUnwindDataInternal Bytes) :=
  spec_calls map_to_list example_alloc example_aware tt (take 2 example_calls) example_start empty_spec.

Lemma example_loaded_inv : api_inv example_loaded example_spec.
Proof.
  pose proof (calls_run map_to_list (fun m => reflexivity _) example_alloc example_alloc_fresh example_aware tt
    (take 2 example_calls) example_start empty_spec example_start_inv) as H.
  unfold example_loaded, example_spec. destruct example_calls_ok as [Hok _].
  assert ((run_calls map_to_list example_alloc example_aware tt (take 2 example_calls) example_start).1 = Ok tt) as Hr by by vm_compute.
  destruct (run_calls _ _ _ _ _ _) as [r w']. cbn [fst] in Hr. subst r. by apply H.
Qed.

Lemma walk_keeps_modules_witness :
  exists w' nonce, on_cursor (Cursor.cursor_init_bounds2 0x100 0x500 0x8000 0x8010 0 0) example_loaded = (Ok 0, w') /\
    walk_modules w' 0x100 nonce (sp_static example_spec ∪ (fst <$> sp_jit example_spec)).
Proof.
  destruct (walk_keeps_modules map_to_list (fun m => reflexivity _) example_alloc example_alloc_fresh example_aware tt
    example_loaded example_spec example_loaded_inv) as [H _]. specialize (H 0x100 0x500 0x8000 0x8010 0 0).
  assert ((on_cursor (Cursor.cursor_init_bounds2 0x100 0x500 0x8000 0x8010 0 0) example_loaded).1 = Ok 0) as Hr by by vm_compute.
  destruct (on_cursor _ example_loaded) as [r w']. cbn [fst] in Hr. subst r. destruct (H eq_refl) as [nonce Hw]. by exists w', nonce.
Defined.
End example.
