(* ===== verification/Total.v ===== *)
(** * Every call returns

    [src/src/lib.rs] says of its read path that it is written to be panic-free. Here that
    is a theorem about every call of [Api]: when the snapshots hold unwind data that is
    [NoPanic.data_safe] and the caches hold rules that are in range, the call returns, and
    they still do. The data is safe because the library built it: only the function tables
    of PE images, which are unwound with as they are, must be well formed. *)
From S2P Require Import Prelude CodeAddress UnwindRule Generation ModuleList RuleCache X86Regs X86Rules Images Sections Dwarf X86Dwarf.
From S2P Require Import Compact X86Compact Pe Unwinder ModuleData Arch Progress Typing NoPanic StackBounds Hazard State Registry Jit Scan Api.
From S2P Require Aarch64Rules Aarch64Dwarf Aarch64Compact Elf MachoImage PeImage Cursor.

(** ** The calls on cursors *)

Section cursor.
  Context {R Regs C : Type} `{UnwindRule R Regs} `{Native Regs} `{!RuleRange R, !PeTables Bytes R}.
  Abbreviation D := Bytes.
  Context (signal_aware : UnwinderInternal (ModuleUnwindDataInternal D) -> FrameAddress -> stack_reader ->
    ST (UState R Regs C) (fault Error) (option (Z * bool))) (context_new : C).
  Context (aware_yields : forall u a rs, unwinder_safe (R := R) deref u -> yields ustate_safe (signal_aware u a rs) (fun _ => True)).

Abbreviation lib_state := (state (D := ModuleUnwindDataInternal D) (R := R) (Regs := Regs) (C := C)).
Abbreviation lib_world := (Cursor.world (D := ModuleUnwindDataInternal D) (R := R) (Regs := Regs) (C := C)).
Abbreviation walk_state := (SlotInner (R := R) (Regs := Regs) (C := C)).
Implicit Types (s : lib_state) (w : lib_world).

Definition walk_safe (i : walk_state) : Prop := cache_safe (slot_cache i).

(** Every slot's cache and every snapshot that is alive. *)
Record state_safe s : Prop := {
  ss_slots : Forall (fun sl => walk_safe (inner sl)) (slots s);
  ss_heap : map_Forall (fun _ snap => unwinder_safe (R := R) deref (unw snap)) (heap s);
}.

Definition returns {A} (m : ST lib_world crash A) : Prop := forall w,
  Cursor.walk_wf (Cursor.statics w) -> state_safe (Cursor.statics w) ->
  exists a, (m w).1 = Ok a /\ state_safe (Cursor.statics (m w).2).

Lemma returns_ret {A} (a : A) : returns (mret a).
Proof. intros w _ Hs. by exists a. Qed.

Lemma returns_ignore {A} (m : ST lib_world crash A) : returns m -> returns (ignore m).
Proof.
  intros Hm w Hw Hs. destruct (Hm w Hw Hs) as (a & Hr & Hs'). exists tt. unfold ignore. rewrite st_bind_spec.
  by destruct (m w) as [[]].
Qed.

Lemma returns_if {A} (b : bool) (m1 m2 : ST lib_world crash A) : returns m1 -> returns m2 -> returns (if b then m1 else m2).
Proof. by destruct b. Qed.

(** A change of one slot. *)
Lemma state_safe_insert s s' i sl : state_safe s -> slots s' = <[i := sl]> (slots s) -> heap s' = heap s ->
  walk_safe (inner sl) -> state_safe s'.
Proof. intros [Hs Hh] Es Eh Hsl. split; [|by rewrite Eh]. rewrite Es. by apply Forall_insert. Qed.

Lemma advance_returns u rs (i : walk_state) : unwinder_safe (R := R) deref u -> walk_safe i ->
  exists code i', Cursor.advance signal_aware u rs i = Ok (code, i') /\ walk_safe i'.
Proof.
  intros Hu Hi. assert (exists code i', Cursor.unwind_current signal_aware u rs i = Ok (code, i') /\ walk_safe i') as Hunwind.
  { unfold Cursor.unwind_current. destruct (aware_yields u (cur_addr i) rs Hu) as [Hk Hp].
    destruct (Hk (MkUState (slot_regs i) (slot_cache i)) Hi) as [Hs _]. specialize (Hp (MkUState (slot_regs i) (slot_cache i)) Hi).
    destruct (signal_aware _ _ _ _) as [[[[ra intr]|]|[e|]] s]; [|by eexists _, _..|done].
    destruct (NonZeroU64_new ra); by eexists _, _. }
  unfold Cursor.advance. destruct sigreturn as [[is_tr rest]|]; [|done]. destruct (is_tr _); [|done].
  destruct (rest rs (slot_regs i)) as [[pc|] regs]; [destruct (negb _)|]; by eexists _, _.
Qed.

Lemma step_returns cur oi os : returns (Cursor.step signal_aware cur oi os).
Proof.
  intros w Hw Hs. pose proof (Cursor.step_run signal_aware cur oi os w Hw) as Hrun. cbn zeta in Hrun.
  destruct (Cursor.step signal_aware cur oi os w) as [r w']. cbn [fst snd]. destruct Hrun as (_ & _ & Hrun).
  destruct (negb _); [destruct Hrun as [-> ->]; by eexists|]. destruct Hrun as (sl & Hi & Hrun).
  destruct (done (inner sl)); [destruct Hrun as [-> ->]; by eexists|].
  destruct (snapshot (inner sl)) as [p|]; [|destruct Hrun as [-> ->]; by eexists].
  destruct Hrun as (snap & Hp & _ & Hh & _ & Hrun). pose proof (Forall_lookup_1 _ _ _ _ (ss_slots _ Hs) Hi) as Hsl.
  destruct (advance_returns (unw snap) (Cursor.read_stack (inner sl) (Cursor.write os (native_sp (slot_regs (inner sl)))
    (Cursor.write oi (cur_ip (inner sl)) (Cursor.write os 0 (Cursor.write oi 0 (Cursor.mem w)))))) (inner sl))
    as (code & i' & Ha & Hi'); [by eapply (ss_heap _ Hs)|done|]. rewrite Ha in Hrun.
  destruct Hrun as (-> & _ & Hsl'). exists code. split; [done|]. by eapply state_safe_insert.
Qed.

Lemma init_returns cur ctx lo hi lo2 hi2 : returns (Cursor.cursor_init_bounds2 cur ctx lo hi lo2 hi2).
Proof.
  intros w Hw Hs. pose proof (Cursor.cursor_init_run cur ctx lo hi lo2 hi2 w Hw) as Hrun. cbn zeta in Hrun.
  destruct (Cursor.cursor_init_bounds2 cur ctx lo hi lo2 hi2 w) as [r w']. cbn [fst snd]. destruct Hrun as (_ & _ & Hrun).
  destruct (claim_slot _) as [[[i n]|] ?]; [|destruct Hrun as [-> ->]; by eexists].
  destruct Hrun as (sl & Hi & _ & _ & Hh & _ & Hrun). pose proof (Forall_lookup_1 _ _ _ _ (ss_slots _ Hs) Hi) as Hsl.
  destruct (current _) as [p|].
  - destruct Hrun as (snap & _ & -> & _ & Hsl'). exists 0. split; [done|]. by eapply state_safe_insert.
  - destruct Hrun as (-> & _ & Hsl'). exists (-2). split; [done|]. by eapply state_safe_insert.
Qed.

Lemma get_reg_returns cur oi os : returns (Cursor.get_reg cur oi os).
Proof. intros w _ Hs. destruct (Cursor.get_reg_statics cur oi os w) as [m ->]. by exists tt. Qed.

Lemma release_slot_safe i n s : pool_wf s -> state_safe s -> state_safe (release_slot i n s).
Proof.
  intros Hp [Hs Hh]. unfold release_slot. destruct (slot s i); [|done]. destruct (negb _); [done|].
  destruct (update_slot_spec i (fun sl => MkSlot false (n +64 1) None (set_snapshot None (inner sl))) s Hp) as (_ & Hs' & _ & Hh' & _).
  split; [|by rewrite Hh']. rewrite Hs'. by apply Forall_alter.
Qed.

Lemma fini_returns cur : returns (Cursor.cursor_fini cur).
Proof.
  intros w Hw Hs. destruct (Cursor.cursor_fini_statics cur w) as (s' & Hs' & ->). exists tt. split; [done|].
  destruct Hs' as [->|(i & n & ->)]; [done|]. apply release_slot_safe; [apply Hw|done].
Qed.

Lemma ensure_slots_safe n s : pool_wf s -> state_safe s -> state_safe (ensure_slots context_new n s).
Proof.
  intros [chunks Hp] [Hs Hh]. unfold ensure_slots.
  destruct (ensure_slots_loop_spec context_new MAX_SLOT_CHUNKS n s chunks Hp) as (s' & k & -> & Hpk & _ & _ & _ & Hh' & _); [lia|].
  cbn [default from_option id]. split; [|by rewrite Hh'].
  rewrite (pool_of_slots _ _ Hpk), concat_app, <- (pool_of_slots _ _ Hp). apply Forall_app. split; [done|].
  apply Forall_concat, Forall_replicate, Forall_replicate. apply rules_in_new.
Qed.

Lemma init_pool_returns n : returns (Cursor.fh_init_pool context_new n).
Proof.
  intros w Hw Hs. exists 0. unfold Cursor.fh_init_pool. st_bind. split; [done|].
  cbn [snd Cursor.set_statics Cursor.statics]. unfold init. apply ensure_slots_safe; [apply Hw|exact Hs].
Qed.

Lemma thread_register_returns q : returns (Cursor.fh_thread_register context_new q).
Proof.
  intros w Hw [Hs Hh]. exists tt. unfold Cursor.fh_thread_register, Cursor.register_current_thread. st_bind. split; [done|].
  cbn [snd Cursor.set_statics Cursor.statics]. unfold thread_registered. apply ensure_slots_safe; [|split; [exact Hs|exact Hh]].
  apply (Cursor.set_registered_wf _ (registered_threads (Cursor.statics w) +64 1)), Hw.
Qed.
End cursor.

(** ** The unwind data that the library builds *)

Section data.
  Context {R C : Type} `{Gimli C} `{!PeTables Bytes R}.
Abbreviation safe := (module_safe (R := R) deref).

(** A module of explicit sections: an index is as long as it is sorted, and there is no
    function table. *)
Lemma explicit_module_safe name r base (info : ExplicitModuleSectionInfo Bytes) :
  safe (Module_new (C := C) deref name r base info).
Proof.
  destruct (Module_new_data deref name r base info) as (Hd & _). unfold module_safe. rewrite Hd, explicit_data_cases.
  destruct (Sections.unwind_info info) as [ui|]; [done|].
  assert (forall type section make, (forall index, index_wf index -> data_safe (R := R) deref (make index section (explicit_base_addresses info))) ->
    data_safe (R := R) deref (explicit_indexed deref type section make info)) as Hindexed.
  { intros type section make Hmake. unfold explicit_indexed. destruct (try_new _ _ _) as [index|] eqn:E; [|done].
    by eapply Hmake, try_new_wf. }
  destruct (Sections.eh_frame info) as [eh|]; [destruct (Sections.eh_frame_hdr info); [done|by apply Hindexed]|].
  destruct (Sections.debug_frame info); [by apply Hindexed|done].
Qed.

#[local] Existing Instance PeImage.ModuleSectionInfo_pe.

(** A section of a PE image is kept with the bytes of its range. *)
Lemma pe_range_and_data_kept name (info info' : PeImage.PeSectionInfo) d :
  range_and_data name info = (Some d, info') -> kept_bytes deref d.
Proof.
  unfold range_and_data. cbn [section_svma_range section_data base_svma_of PeImage.ModuleSectionInfo_pe].
  unfold PeImage.pe_section_svma_range, PeImage.pe_section_data.
  destruct (PeImage.slot info name) as [[[[rva bytes]|] store]|] eqn:Es; [|done..]. cbn [r_start r_end mbind option_bind].
  set (base := PeImage.pe_base_svma info). set (len := Z.of_nat (length (deref bytes))).
  destruct (try_u 32 (base +64 rva -64 base)) as [start|] eqn:E1; [|done]. cbn [mbind option_bind].
  destruct (try_u 32 (base +64 rva +64 len -64 base)) as [stop|] eqn:E2; [|done]. cbn [mbind option_bind]. rewrite Es.
  apply try_u_Some in E1 as [-> H1], E2 as [-> H2]. intros [= <- _]. unfold kept_bytes. cbn [rva_range data r_start r_end snd].
  split; [apply H1|]. unfold_words. fold len. rewrite !Zminus_mod_idemp_l.
  assert ((base + rva) mod 2 ^ 64 + len - base = ((base + rva) mod 2 ^ 64 - base) + len) as -> by lia.
  pose proof (Z.mod_le ((base + rva - base) mod 2 ^ 64 + len) (2 ^ 64)) as Hm. rewrite <- Zminus_mod_idemp_l, Zplus_mod_idemp_l in Hm.
  rewrite <- Zminus_mod_idemp_l. pose proof (Z.mod_pos_bound ((base + rva) mod 2 ^ 64 - base) (2 ^ 64)). lia.
Qed.

Lemma pe_data_kept pdata (info : PeImage.PeSectionInfo) : exists rdata xdata text,
  (pe_data pdata info).1 = PeUnwindInfoData pdata rdata xdata text /\ sections_kept deref (MkPeSections pdata rdata xdata text).
Proof.
  unfold pe_data. destruct (range_and_data ".rdata" info) as [rdata i1] eqn:E1. destruct (range_and_data ".xdata" i1) as [xdata i2] eqn:E2.
  destruct (range_and_data ".text" i2) as [text i3] eqn:E3. exists rdata, xdata, text. split; [done|].
  intros d. cbn [Pe.rdata Pe.xdata Pe.text]. rewrite !elem_of_app.
  assert (forall o name i i', range_and_data name i = (o, i') -> d ∈ option_list o -> kept_bytes deref d) as Hk.
  { intros [x|] name i i' Hr Hd; cbn in Hd; [|by apply not_elem_of_nil in Hd]. apply list_elem_of_singleton in Hd as ->. by eapply pe_range_and_data_kept. }
  intros [Hd|[Hd|Hd]]; [exact (Hk _ _ _ _ E1 Hd)|exact (Hk _ _ _ _ E2 Hd)|exact (Hk _ _ _ _ E3 Hd)].
Qed.

Section images.
  Context (bytes : Z -> Z) `{DefaultHasher}.

Lemma elf_modules_safe to_string_lossy objects known :
  Forall safe (Registry.new_modules (Elf.enumerate (C := C) bytes to_string_lossy objects known)).*2.
Proof. unfold Elf.enumerate. cbn. apply Forall_fmap, Forall_fmap, Forall_forall. intros s _. apply explicit_module_safe. Qed.

Lemma jit_module_safe p len lo hi : safe (jit_module (C := C) bytes p len lo hi).
Proof. apply explicit_module_safe. Qed.

Lemma macho_image_safe header slide key fp m : MachoImage.build_image (C := C) bytes header slide = Some (key, fp, Some m) -> safe m.
Proof.
  unfold MachoImage.build_image. destruct (MachoImage.text_geometry _ _) as [[vmaddr|] vmsize]; [|done]. cbn [mbind option_bind].
  destruct (_ && _); [done|]. intros [= _ _ <-]. apply explicit_module_safe.
Qed.

Lemma pe_module_data base size m : PeImage.build_pe_module (C := C) bytes base size = Some m ->
  exists pdata info, unwind_data m = (pe_data pdata info).1.
Proof.
  unfold PeImage.build_pe_module. destruct (PeImage.pe_section_info bytes base size) as [info|] eqn:Ei; [|done]. cbn [mbind option_bind].
  intros [= <-]. edestruct (Module_new_data (C := C) deref) as [-> _]. unfold PeImage.pe_section_info in Ei.
  destruct (negb _); [done|]. destruct (negb _); [done|]. cbv zeta in Ei. set (sec := PeImage.find_section bytes base size _ _) in Ei.
  destruct (sec (bytes_of_string ".pdata")) as [pd|]; [|done]. cbn [mbind option_bind] in Ei. injection Ei as <-.
  by eexists pd.2, _.
Qed.

(** The function table of every PE image that Windows reports is well formed. *)
Definition pe_images_safe (GetModuleInformation : Z -> option (Z * Z)) : Prop := forall pinned base size m pdata rdata xdata text,
  GetModuleInformation pinned = Some (base, size) -> PeImage.build_pe_module (C := C) bytes base size = Some m ->
  unwind_data m = PeUnwindInfoData pdata rdata xdata text -> pe_tables_ok (R := R) (MkPeSections pdata rdata xdata text).

Lemma pe_image_safe info pinned base size m : pe_images_safe info -> info pinned = Some (base, size) ->
  PeImage.build_pe_module (C := C) bytes base size = Some m -> safe m.
Proof.
  intros Hpe Hi Hm. destruct (pe_module_data base size m Hm) as (pdata & pe & Hd). unfold module_safe, data_safe. rewrite Hd.
  destruct (pe_data_kept pdata pe) as (rdata & xdata & text & E & Hkept). rewrite E. split; [done|].
  eapply Hpe; [done..|]. by rewrite Hd.
Qed.

Lemma pe_modules_safe e g GetModuleInformation known current new : pe_images_safe GetModuleInformation ->
  (PeImage.enumerate (C := C) bytes e g GetModuleInformation known).1 = Some (MkEnumResult current new) -> Forall safe new.*2.
Proof.
  intros Hpe. unfold PeImage.enumerate. destruct (PeImage.list_modules _ _ _ _) as [handles|]; [|done]. intros [= _ <-].
  assert (forall l, Forall safe (PeImage.li_new_modules l).*2 ->
    Forall safe (PeImage.li_new_modules (foldl (PeImage.add_handle (C := C) bytes g GetModuleInformation known) l handles)).*2) as Hfold; [|by apply Hfold].
  induction handles as [|h handles IH]; intros l Hl; [done|]. cbn [foldl]. apply IH. unfold PeImage.add_handle.
  destruct (g h) as [pinned|]; [|done]. destruct (pinned =? 0); [done|]. unfold PeImage.add_image.
  destruct (GetModuleInformation pinned) as [[base size]|] eqn:Ei; [|done]. destruct (base =? 0); [done|].
  destruct (bool_decide _); [|done]. destruct (PeImage.build_pe_module _ _ _) as [m|] eqn:Em; [|done].
  cbn. rewrite fmap_app. apply Forall_app. split; [done|]. constructor; [by eapply pe_image_safe|constructor].
Qed.
End images.
End data.

(** ** The calls that change the modules *)

Section registry.
  Context {R Regs C : Type} `{UnwindRule R Regs} `{Native Regs} `{Gimli C} `{!RuleRange R, !PeTables Bytes R}.
  Context (hash_iter : gmap Z Z -> list (Z * Z)) (hash_iter_perm : forall m, hash_iter m ≡ₚ map_to_list m).
  Abbreviation D := (ModuleUnwindDataInternal Bytes).
  Abbreviation World := (World (D := D) (R := R) (Regs := Regs) (C := C)).
  Abbreviation safe := (module_safe (R := R) deref).
  Implicit Types (v : World) (sp : Spec (D := D)) (o : op (D := D)).

(** The modules that are specified, and those an operation brings. *)
Record spec_safe sp : Prop := {
  sps_static : map_Forall (fun _ m => safe m) (sp_static sp);
  sps_jit : map_Forall (fun _ me => safe me.1) (sp_jit sp);
  sps_pending : Forall safe (sp_pending sp).*2;
}.

Definition op_safe o : Prop :=
  match o with
  | OpRefresh _ _ enumerate => forall known r, enumerate known = Some r -> Forall safe (Registry.new_modules r).*2
  | OpAddImage _ _ _ m | OpAddJit _ _ _ m => safe m
  | _ => True
  end.

Lemma filter_safe {A} (P : A -> Prop) (Q : Z * A -> Prop) `{forall x, Decision (Q x)} (mp : gmap Z A) :
  map_Forall (fun _ => P) mp -> map_Forall (fun _ => P) (filter Q mp).
Proof. intros Hmp k x [Hx _]%map_lookup_filter_Some. by eapply Hmp. Qed.

Lemma insert_all_safe ms mp : Forall safe ms -> map_Forall (fun _ m => safe m) mp -> map_Forall (fun _ m => safe m) (insert_all ms mp).
Proof.
  intros Hms. revert mp. unfold insert_all. induction Hms as [|m ms Hm _ IH]; intros mp Hmp; [done|]. cbn [foldl].
  apply IH. by apply map_Forall_insert_2.
Qed.

Lemma spec_op_safe o sp : op_safe o -> spec_safe sp -> spec_safe (spec_op o sp).
Proof.
  intros Ho [Hs Hj Hp]. destruct o as [box counts enumerate| |box|box key fp m|box key|box key eh m|box key|box eh]; cbn [spec_op].
  - unfold scan. destruct (_ && _); [done|]. destruct (enumerate (sp_known sp)) as [[current new]|] eqn:E; [|done].
    split; [|done|done]. unfold scanned. apply insert_all_safe; [exact (Ho _ _ E)|]. by apply filter_safe.
  - by split.
  - split; [|done|constructor]. by apply insert_all_safe.
  - destruct (sp_batching sp); (split; [|done|]); cbn [sp_static sp_pending]; [done| |by apply map_Forall_insert_2|done].
    rewrite fmap_app. apply Forall_app. split; [done|]. constructor; [done|constructor].
  - split; [by apply map_Forall_delete|done|]. cbn [sp_pending]. destruct (sp_batching sp); [|done].
    rewrite Forall_fmap, Forall_forall in Hp |- *. intros x [_ Hx]%list_elem_of_filter. by apply Hp.
  - split; [done| |done]. apply map_Forall_insert_2; [done|]. intros k x (me & <- & Hme)%lookup_fmap_Some. by eapply (Hj k me).
  - split; [done|by apply map_Forall_delete|done].
  - split; [done|by apply (filter_safe (fun me => safe me.1))|done].
Qed.

(** The snapshot that is published holds the specified modules, so it is safe. *)
Lemma published_safe v sp snap : represents v sp -> spec_safe sp ->
  current (st v) ≫= (heap (st v) !!.) = Some snap -> unwinder_safe (R := R) deref (unw snap).
Proof.
  intros Hr [Hs Hj _] Hsnap. destruct (current (st v)) as [p|] eqn:Ec; [|done]. cbn in Hsnap.
  destruct (si_list _ _ (rp_state _ _ Hr) p snap Ec Hsnap) as [Hwf Hd]. split; [done|]. apply Forall_forall. intros m Hm.
  pose proof (rp_published _ _ Hr) as Hpub. unfold published in Hpub. rewrite Ec in Hpub. cbn in Hpub. rewrite Hsnap in Hpub.
  assert (view (unw snap) !! mod_start m = Some m) as Hv by by apply view_lookup.
  rewrite Hpub in Hv. apply lookup_union_Some_raw in Hv as [Hv|[_ Hv]]; [by eapply Hs|].
  rewrite lookup_fmap in Hv. apply fmap_Some in Hv as (me & Hme & ->). by eapply Hj.
Qed.

Lemma op_safe_step o v sp v' :
  represents v' (spec_op o sp) -> spec_safe (spec_op o sp) -> state_safe (st v) -> run_op hash_iter o v = (Ok tt, v') ->
  state_safe (st v').
Proof.
  intros Hr Hsp [Hs Hh] Hrun. set (box := default inhabitant (op_box o)).
  assert (keeps_pool box (run_op hash_iter o : ST World crash unit)) as Hkeep by (apply op_keeps_pool; unfold box; by intros b ->).
  destruct (Hkeep v) as (Hpool & _ & [_ Hpub]). rewrite Hrun in Hpool, Hpub. cbn [snd] in *. split; [by rewrite (same_pool_slots _ _ Hpool)|].
  intros p snap Hp. destruct (Hpub p snap Hp) as [Hold|[-> Hc]]; [by eapply Hh|].
  eapply published_safe; [exact Hr|done|]. rewrite Hc. exact Hp.
Qed.

Lemma ops_safe os v sp : represents v sp -> ops_ok hash_iter os sp v -> Forall op_safe os -> spec_safe sp -> state_safe (st v) ->
  exists v', run_ops hash_iter os v = (Ok tt, v') /\ state_safe (st v') /\ spec_safe (spec_ops os sp).
Proof using hash_iter_perm.
  intros Hr Hok Hos. revert v sp Hr Hok. induction Hos as [|o os Ho _ IH]; intros v sp Hr Hok Hsp Hst; [by exists v|].
  destruct Hok as [Hok Hoks]. destruct (op_step hash_iter hash_iter_perm o v sp Hr Hok) as (v1 & E1 & Hr1). rewrite E1 in Hoks.
  pose proof (spec_op_safe o sp Ho Hsp) as Hsp1.
  destruct (IH v1 _ Hr1 Hoks Hsp1 (op_safe_step o v sp v1 Hr1 Hsp1 Hst E1)) as (v' & E & Hst' & Hsp').
  exists v'. split; [|done]. cbn [run_ops]. by rewrite st_bind_spec, E1.
Qed.
End registry.

(** ** Every call of the API *)

Section api.
  Context {R Regs C : Type} `{UnwindRule R Regs} `{Native Regs} `{Gimli C} `{DefaultHasher} `{!RuleRange R, !PeTables Bytes R}.
  Context (hash_iter : gmap Z Z -> list (Z * Z)) (hash_iter_perm : forall m, hash_iter m ≡ₚ map_to_list m).
  Context (alloc : gmap ptr (Snapshot (D := ModuleUnwindDataInternal Bytes)) -> ptr) (alloc_fresh : forall h, h !! alloc h = None).
  Context (signal_aware : UnwinderInternal (ModuleUnwindDataInternal Bytes) -> FrameAddress -> stack_reader ->
    ST (UState R Regs C) (fault Error) (option (Z * bool))) (context_new : C).
  Context (aware_yields : forall u a rs, unwinder_safe (R := R) deref u -> yields ustate_safe (signal_aware u a rs) (fun _ => True)).
  Implicit Types (w : ApiWorld (R := R) (Regs := Regs) (C := C)) (sp : Spec (D := ModuleUnwindDataInternal Bytes)).
  Abbreviation Api := (ST (ApiWorld (R := R) (Regs := Regs) (C := C)) crash).
  Abbreviation run_ops := (run_ops hash_iter).

(** The data and the rules of the whole library. *)
Record api_safe w sp : Prop := {
  as_state : state_safe (lib w);
  as_spec : spec_safe (R := R) sp;
}.

Lemma on_cursor_returns {A} (m : ST (Cursor.world (D := ModuleUnwindDataInternal Bytes) (R := R) (Regs := Regs) (C := C)) crash A) w sp :
  returns m -> api_inv w sp -> api_safe w sp -> exists a w', on_cursor m w = (Ok a, w') /\ api_safe w' sp.
Proof.
  intros Hm [_ Hw] [Hs Hsp]. destruct (Hm (cursor_world w) Hw Hs) as (a & Hr & Hs'). unfold on_cursor.
  destruct (m (cursor_world w)) as [r x']. cbn in Hr. subst r. eexists a, _. split; [done|]. by split.
Qed.

(** A call that does to the modules what [fops] says, and nothing else. *)
Definition runs {A} (m : Api A) (fops : ApiWorld -> list op) : Prop := forall w v',
  run_ops (fops w) (modules w) = (Ok tt, v') -> exists a w', m w = (Ok a, w') /\ modules w' = v'.

Lemma registry_returns {A} (m : Api A) fops w sp : runs m fops -> api_inv w sp -> ops_ok hash_iter (fops w) sp (modules w) ->
  Forall (op_safe (R := R)) (fops w) -> api_safe w sp ->
  exists a w', m w = (Ok a, w') /\ api_safe w' (spec_ops (fops w) sp).
Proof using hash_iter_perm.
  intros Hm [Hr _] Hok Hos [Hs Hsp]. destruct (ops_safe hash_iter hash_iter_perm _ _ _ Hr Hok Hos Hsp Hs) as (v' & Hrun & Hs' & Hsp').
  destruct (Hm w v' Hrun) as (a & w' & E & Hw'). exists a, w'. split; [done|]. split; [|done]. unfold lib. by rewrite Hw'.
Qed.

Lemma runs_jit {A} (m : ApiWorld -> ST JitWorld crash A) fops :
  (forall w, exists a n, forall v', run_ops (fops w) (modules w) = (Ok tt, v') -> m w (jit w) = (Ok a, MkJitWorld n v')) ->
  runs (w ← st_get; on_jit (m w)) fops.
Proof.
  intros Hm w v' Hrun. destruct (Hm w) as (a & n & Ha). st_bind. unfold on_jit. rewrite (Ha v' Hrun). by eexists _, _.
Qed.

Lemma runs_modules (m : ApiWorld -> ST World crash unit) fops :
  (forall w, m w (modules w) = run_ops (fops w) (modules w)) -> runs (w ← st_get; on_modules (m w)) fops.
Proof.
  intros Hm. apply runs_jit. intros w. exists tt, (JIT_REGISTER_FAILURES (jit w)). intros v' Hrun.
  unfold on_world. change (Jit.world (jit w)) with (modules w). by rewrite Hm, Hrun.
Qed.

Lemma runs_ignore {A} (m : Api A) fops : runs m fops -> runs (ignore m) fops.
Proof. intros Hm w v' Hrun. destruct (Hm w v' Hrun) as (a & w' & E & Hw'). exists tt, w'. unfold ignore. by rewrite st_bind_spec, E. Qed.

Lemma runs_refresh bytes loader :
  runs (modules_refresh hash_iter alloc bytes loader) (fun w => loader_ops (next_box alloc w) bytes (CALLBACKS w) loader).
Proof.
  destruct loader as [lossy objects size|images|e g i|].
  2: { intros w v' Hrun. unfold modules_refresh. st_bind. rewrite <- (init_callbacks_ops hash_iter) in Hrun.
    unfold on_modules, on_jit, on_world. change (Jit.world (jit w)) with (modules w). rewrite Hrun. st_bind. by eexists _, _. }
  all: unfold modules_refresh; apply runs_modules; intros w; cbn [loader_ops]; by rewrite run_ops_one.
Qed.

(** What is asked of the images of a Windows process. *)
Definition call_safe (c : api_call) : Prop :=
  match c with
  | FhInit _ bytes (ProcessModules _ _ info) | FhModulesRefresh bytes (ProcessModules _ _ info) =>
      pe_images_safe (R := R) (C := C) bytes info
  | _ => True
  end.

Lemma image_ops_safe box bytes image : Forall (op_safe (R := R)) (image_ops (C := C) box bytes image).
Proof.
  unfold image_ops. destruct (image.1 =? 0); [constructor|]. destruct (MachoImage.build_image _ _ _) as [[[key fp] [m|]]|] eqn:E; try constructor.
  - by eapply macho_image_safe.
  - constructor.
Qed.

Lemma loader_ops_safe box bytes called loader :
  match loader with ProcessModules _ _ info => pe_images_safe (R := R) (C := C) bytes info | _ => True end ->
  Forall (op_safe (R := R)) (loader_ops (C := C) box bytes called loader).
Proof.
  intros Hpe. unfold loader_ops. destruct loader as [lossy objects size|images|e g i|]; cbn [enumerate_static].
  - constructor; [|constructor]. intros known r [= <-]. apply elf_modules_safe.
  - destruct called; [constructor|]. constructor; [done|]. apply Forall_app. split; [|by repeat constructor].
    induction images as [|image images IH]; [constructor|]. apply Forall_app. split; [apply image_ops_safe|exact IH].
  - constructor; [|constructor]. intros known [current new] Hr. by eapply pe_modules_safe.
  - constructor; [|constructor]. intros known r [= <-]. constructor.
Qed.

Lemma jit_ops_safe box bytes p len lo hi : Forall (op_safe (R := R)) (jit_ops (C := C) box bytes p len lo hi).
Proof. unfold jit_ops. destruct (jit_accepted _ _ _ _ _); constructor; [|constructor]. apply jit_module_safe. Qed.

Lemma module_ops_safe c w : call_safe c -> Forall (op_safe (R := R)) (module_ops (C := C) alloc c w).
Proof.
  intros Hc. destruct c; cbn [module_ops]; try (by repeat constructor); try by apply loader_ops_safe.
  - apply jit_ops_safe.
  - destruct (fde_pc_range _ _) as [[lo hi]|]; [apply jit_ops_safe|constructor].
  - apply image_ops_safe.
  - unfold unload_ops. destruct (header =? 0); [constructor|]. by destruct (MachoImage.image_key _ _ _); repeat constructor.
Qed.
(** The modules are the same and the caches are, so a call on cursors or contexts is safe. *)
Definition call_returns (m : Api unit) (fops : ApiWorld -> list op) : Prop := forall w sp,
  api_inv w sp -> ops_ok hash_iter (fops w) sp (modules w) -> Forall (op_safe (R := R)) (fops w) -> api_safe w sp ->
  exists w', m w = (Ok tt, w') /\ api_safe w' (spec_ops (fops w) sp).

Lemma runs_call_returns m fops : runs m fops -> call_returns m fops.
Proof using hash_iter_perm. intros Hm w sp Hinv Hok Hos Hs. destruct (registry_returns m fops w sp Hm Hinv Hok Hos Hs) as ([] & w' & ?). by exists w'. Qed.

Lemma cursor_call_returns (m : ST Cursor.world crash unit) : returns m -> call_returns (on_cursor m) (fun _ => []).
Proof. intros Hm w sp Hinv _ _ Hs. destruct (on_cursor_returns m w sp Hm Hinv Hs) as ([] & w' & ?). by exists w'. Qed.

Lemma entry_returns {A} (b : bool) (a : A) m : returns m -> call_returns (on_cursor (ignore (if b then mret a else m))) (fun _ => []).
Proof. intros Hm. apply cursor_call_returns, returns_ignore, returns_if; [apply returns_ret|done]. Qed.

Lemma context_call_returns (m : Api unit) :
  (forall w, exists w', m w = (Ok tt, w') /\ jit w' = jit w) -> call_returns m (fun _ => []).
Proof.
  intros Hm w sp _ _ _ [Hs Hsp]. destruct (Hm w) as (w' & E & Hj). exists w'. split; [done|]. split; [|done].
  unfold lib, modules in *. by rewrite Hj.
Qed.

Lemma fh_init_returns n bytes loader w sp :
  let w1 := (on_cursor (Cursor.fh_init_pool context_new n) w).2 in
  let os := loader_ops (next_box alloc w1) bytes (CALLBACKS w1) loader in
  api_inv w sp -> ops_ok hash_iter os sp (modules w1) -> Forall (op_safe (R := R)) os -> api_safe w sp ->
  exists w', ignore (fh_init hash_iter alloc context_new bytes n loader) w = (Ok tt, w') /\ api_safe w' (spec_ops os sp).
Proof using H signal_aware hash_iter_perm.
  intros w1 os Hinv Hok Hos Hs.
  pose proof (cursor_call_ok hash_iter _ (pool_safe signal_aware context_new n) w sp Hinv I) as Hcall.
  destruct (on_cursor_returns _ w sp (init_pool_returns context_new n) Hinv Hs) as (a & w1' & E1 & Hs1).
  subst os w1. rewrite E1 in *. cbn [snd] in *. destruct Hcall as [_ Hcall]. destruct (Hcall a eq_refl) as [Hinv1 _].
  destruct (registry_returns _ _ _ _ (runs_refresh bytes loader) Hinv1 Hok Hos Hs1) as ([] & w' & E & Hs').
  exists w'. split; [|exact Hs']. unfold ignore, fh_init, modules_init. rewrite !st_bind_spec, E1. cbn. by rewrite st_bind_spec, E.
Qed.

Lemma call_returns_step c w sp :
  api_inv w sp -> ops_ok hash_iter (module_ops alloc c (ready context_new c w)) sp (modules (ready context_new c w)) ->
  call_safe c -> api_safe w sp ->
  exists w', run_call hash_iter alloc signal_aware context_new c w = (Ok tt, w') /\
    api_safe w' (spec_ops (module_ops alloc c (ready context_new c w)) sp).
Proof using H hash_iter_perm aware_yields.
  intros Hinv Hok Hc. pose proof (module_ops_safe c (ready context_new c w) Hc) as Hos. revert Hinv Hok Hos.
  destruct c as [n bytes loader|q|bytes loader|bytes p len lo hi|bytes p len|lo|p|bytes h s|bytes h s|fill ctx o|fill ctx o
    |cur ctx|cur ctx lo hi|cur ctx lo hi lo2 hi2|cur ip sp'|cur ip sp'|cur|m]; cbn [run_call module_ops ready]; revert w sp.
  - intros w sp. apply fh_init_returns.
  - apply cursor_call_returns, thread_register_returns.
  - apply runs_call_returns, runs_refresh.
  - apply runs_call_returns, runs_ignore, runs_jit. intros w. apply register_ops.
  - apply runs_call_returns, runs_ignore, runs_jit. intros w. apply register_auto_ops.
  - apply runs_call_returns, runs_modules. intros w. by rewrite run_ops_one.
  - apply runs_call_returns, runs_modules. intros w. by rewrite run_ops_one.
  - apply runs_call_returns, runs_modules. intros w. apply on_add_image_ops.
  - apply runs_call_returns, runs_modules. intros w. apply on_remove_image_ops.
  - apply context_call_returns. intros w. unfold fh_context_from_ucontext, context_from_os, put_context.
    destruct (ctx =? 0), (o =? 0); st_bind; by eexists.
  - apply context_call_returns. intros w. unfold fh_context_from_thread_state, context_from_thread_state, put_context.
    destruct (ctx =? 0), (o =? 0); st_bind; by eexists.
  - apply entry_returns, init_returns.
  - apply entry_returns, init_returns.
  - apply entry_returns, init_returns.
  - apply entry_returns, step_returns, aware_yields.
  - apply cursor_call_returns, returns_if; [apply returns_ret|apply get_reg_returns].
  - apply cursor_call_returns, returns_if; [apply returns_ret|apply fini_returns].
  - apply context_call_returns. intros w. st_bind. by eexists.
Qed.

Lemma calls_return cs w sp :
  api_inv w sp -> calls_ok hash_iter alloc signal_aware context_new cs w sp -> Forall call_safe cs -> api_safe w sp ->
  let sp' := spec_calls hash_iter alloc signal_aware context_new cs w sp in
  exists w', run_calls hash_iter alloc signal_aware context_new cs w = (Ok tt, w') /\ api_inv w' sp' /\ api_safe w' sp'.
Proof using H hash_iter_perm alloc_fresh aware_yields.
  intros Hinv Hok Hcs. revert w sp Hinv Hok. induction Hcs as [|c cs Hc _ IH]; intros w sp Hinv Hok Hs; [by exists w|].
  destruct Hok as [Hok Hoks]. destruct (call_returns_step c w sp Hinv Hok Hc Hs) as (w1 & E1 & Hs1).
  pose proof (call_step hash_iter hash_iter_perm alloc alloc_fresh signal_aware context_new c w sp Hinv Hok) as Hstep.
  cbn [run_calls spec_calls calls_ok] in *. rewrite E1 in *. cbn [snd] in *. destruct Hstep as [_ Hstep].
  destruct (IH w1 _ (proj1 (Hstep tt eq_refl)) Hoks Hs1) as (w' & E & Hw'). exists w'. split; [|done].
  by rewrite st_bind_spec, E1.
Qed.
End api.

(** Nothing is published and nothing is cached at first. *)
Lemma start_safe {R Regs C : Type} `{RuleRange R, !PeTables Bytes R} failures bounds m :
  api_safe (Regs := Regs) (C := C) (MkApiWorld (MkJitWorld failures (MkWorld Registry_new state_new)) bounds m false) empty_spec.
Proof.
  split; split; unfold lib, modules; cbn [jit Jit.world st state_new slots heap empty_spec sp_static sp_jit sp_pending];
    [constructor|by intros ? ? ?%lookup_empty_Some..|constructor].
Qed.

(** ** The library on both architectures *)

Section x86_64.
  Context `{Gimli C, PeUnwindInfo, MachoUnwindInfo, DefaultHasher} (memory_limit : nat) (parse : Z -> OpcodeX86_64) (context_new : C).
  Context (hash_iter : gmap Z Z -> list (Z * Z)) (alloc : gmap ptr (Snapshot (D := ModuleUnwindDataInternal Bytes)) -> ptr).
#[local] Instance pe_x86_64 : PeUnwinding Bytes UnwindRuleX86_64 UnwindRegsX86_64 := PeUnwinding_x86_64 deref memory_limit.
#[local] Instance compact_x86_64 : CompactUnwindInfoUnwinding UnwindRuleX86_64 := CompactUnwindInfoUnwinding_x86_64 parse.
#[local] Instance tables_x86_64 : PeTables Bytes UnwindRuleX86_64 := PeTables_x86_64 deref memory_limit.
Abbreviation aware := (unwind_frame_signal_aware (unwind_frame_impl deref) : UnwinderInternal (ModuleUnwindDataInternal Bytes) -> FrameAddress ->
  stack_reader -> ST (UState UnwindRuleX86_64 UnwindRegsX86_64 C) (fault Error) (option (Z * bool))).
Implicit Types (w : ApiWorld (R := UnwindRuleX86_64) (Regs := UnwindRegsX86_64) (C := C)).

(** C5: every call returns. On x86_64, when images and JIT regions are apart and module
    generations are left ([calls_ok]), no sequence of calls of the API panics or is cut
    short, whatever the contents of images, buffers, contexts and cursors, whatever the
    DWARF and compact unwind data of the modules say and whatever the stack holds: each
    call returns to its caller, and the library ends with its invariant, with the
    specified modules published and with the same guarantee for what comes next. Only
    the function tables of PE images must be well formed. *)
Theorem calls_never_panic cs w sp
    (Hparse : parse_u16 parse) (Hlookup : lookup_contains) (Hepilogs : epilogs_use_frame_register)
    (Hperm : forall m, hash_iter m ≡ₚ map_to_list m) (Hfresh : forall h, h !! alloc h = None)
    (Hinv : api_inv w sp) (Hsafe : api_safe w sp)
    (Hok : calls_ok hash_iter alloc aware context_new cs w sp) (Hcs : Forall (call_safe (R := UnwindRuleX86_64) (C := C)) cs) :
  let sp' := spec_calls hash_iter alloc aware context_new cs w sp in
  exists w', run_calls hash_iter alloc aware context_new cs w = (Ok tt, w') /\
    api_inv w' sp' /\ api_safe w' sp' /\ published (lib w') = sp_static sp' ∪ (fst <$> sp_jit sp').
Proof.
  pose proof (PeRules_x86_64 deref memory_limit Hepilogs). pose proof (CompactRules_x86_64 parse Hparse Hlookup).
  assert (forall u a rs, unwinder_safe (R := UnwindRuleX86_64) deref u -> yields ustate_safe (aware u a rs) (fun _ => True)) as Haware.
  { intros u a rs Hu. apply with_cache_yields; [apply Hu|]. by apply (safe_callback deref (PeTables0 := tables_x86_64)). }
  destruct (calls_return hash_iter Hperm alloc Hfresh aware context_new Haware cs w sp Hinv Hok Hcs Hsafe) as (w' & Hrun & Hinv' & Hsafe').
  exists w'. split_and!; [done..|]. by apply rp_published, Hinv'.
Qed.
End x86_64.

Section aarch64.
Import Aarch64Rules Aarch64Dwarf Aarch64Compact.
  Context `{Gimli C, MachoUnwindInfo, DefaultHasher} (parse : Z -> OpcodeArm64) (trampoline : option Z) (context_new : C).
  Context (hash_iter : gmap Z Z -> list (Z * Z)) (alloc : gmap ptr (Snapshot (D := ModuleUnwindDataInternal Bytes)) -> ptr).
#[local] Instance pe_aarch64 : PeUnwinding Bytes UnwindRuleAarch64 UnwindRegsAarch64 := pe_unwind_frame_aarch64.
#[local] Instance compact_aarch64 : CompactUnwindInfoUnwinding UnwindRuleAarch64 := CompactUnwindInfoUnwinding_aarch64 parse.
#[local] Instance native_aarch64 : Native UnwindRegsAarch64 := Native_aarch64_linux trampoline.
Abbreviation aware := (default_signal_aware (unwind_frame_impl deref) : UnwinderInternal (ModuleUnwindDataInternal Bytes) -> FrameAddress ->
  stack_reader -> ST (UState UnwindRuleAarch64 UnwindRegsAarch64 C) (fault Error) (option (Z * bool))).
Implicit Types (w : ApiWorld (R := UnwindRuleAarch64) (Regs := UnwindRegsAarch64) (C := C)).

(** The same on aarch64 Linux, with its signal trampoline; there PE data is an error. *)
Theorem calls_never_panic_aarch64 cs w sp
    (Hparse : parse_u16 parse) (Hlookup : lookup_contains)
    (Hperm : forall m, hash_iter m ≡ₚ map_to_list m) (Hfresh : forall h, h !! alloc h = None)
    (Hinv : api_inv w sp) (Hsafe : api_safe w sp) (Hok : calls_ok hash_iter alloc aware context_new cs w sp) :
  let sp' := spec_calls hash_iter alloc aware context_new cs w sp in
  exists w', run_calls hash_iter alloc aware context_new cs w = (Ok tt, w') /\ api_inv w' sp' /\ api_safe w' sp'.
Proof.
  pose proof (CompactRules_aarch64 parse Hparse Hlookup).
  assert (forall u a rs, unwinder_safe (R := UnwindRuleAarch64) deref u -> yields ustate_safe (aware u a rs) (fun _ => True)) as Haware.
  { intros u a rs Hu. unfold default_signal_aware, unwind_frame, unwind_frame_signal_aware.
    do 2 (eapply (yields_bind _ _ _ (fun _ => True)); [|intros r _; by apply yields_ret]). apply with_cache_yields; [apply Hu|]. by apply (safe_callback deref (PeTables0 := PeTables_aarch64)). }
  apply (calls_return hash_iter Hperm alloc Hfresh aware context_new Haware cs w sp Hinv Hok); [|done].
  apply Forall_forall. intros c _. assert (forall bytes info, pe_images_safe (R := UnwindRuleAarch64) (C := C) bytes info) as Hpe by by intros bytes info ? **.
  destruct c as [? ? []| |? []| | | | | | | | | | | | | | |]; try exact I; apply Hpe.
Qed.
End aarch64.

(** ** A run *)

Section example.
#[local] Existing Instance ModuleData.example_pe.
#[local] Existing Instance X86Compact.example_macho.
#[local] Existing Instance Api.example_gimli.
#[local] Existing Instance Api.example_hasher.

Lemma example_lookup_contains : lookup_contains.
Proof. intros info a f. cbn. destruct (_ && _) eqn:E; [|done]. intros [= <-]. bool_to_prop. unfold in_u. cbn. lia. Qed.

Lemma calls_never_panic_witness : exists w',
  run_calls map_to_list example_alloc example_aware tt example_calls example_start = (Ok tt, w').
Proof.
  destruct (calls_never_panic 8 (fun _ => X86Compact.Null) tt map_to_list example_alloc example_calls example_start empty_spec)
    as (w' & Hrun & _).
  - by intros n size.
  - exact example_lookup_contains.
  - by intros bytes instructions offset.
  - done.
  - apply example_alloc_fresh.
  - apply example_start_inv.
  - apply start_safe.
  - apply example_calls_ok.
  - repeat constructor.
  - by exists w'.
Defined.
End example.
