(* ===== verification/ApiStub.v ===== *)
(** * The fallback entry points

    Models [api_stub] of [src/src/lib.rs]: on an architecture without a framehop backend
    every entry point exists and does nothing, or reports failure. *)
From S2P Require Import Prelude.

(** A call that returns nothing changes nothing, whatever the state is. *)
Definition nothing {W : Type} (w : W) : W := w.
Definition fh_capture_context {W} (_ctx : Z) : W -> W := nothing.
Definition fh_init (_num_slots : Z) : Z := -1.
Definition fh_thread_register {W} : W -> W := nothing.
Definition fh_modules_refresh {W} : W -> W := nothing.
Definition fh_jit_module_count : Z := 0.
Definition fh_jit_register_failures : Z := 0.
Definition fh_context_from_ucontext {W} (_ctx _os_ctx : Z) : W -> W := nothing.
Definition fh_context_from_thread_state {W} (_ctx _ts : Z) : W -> W := nothing.
Definition fh_cursor_init (_cur _ctx : Z) : Z := -1.
Definition fh_cursor_init_bounds (_cur _ctx _stack_lo _stack_hi : Z) : Z := -1.
Definition fh_cursor_init_bounds2 (_cur _ctx _stack_lo _stack_hi _stack_lo2 _stack_hi2 : Z) : Z := -1.
Definition fh_step (_cur _ip _sp : Z) : Z := -1.
Definition fh_get_reg {W} (_cur _ip _sp : Z) : W -> W := nothing.
Definition fh_cursor_fini {W} (_cur : Z) : W -> W := nothing.
Definition fh_register_jit (_eh_frame _eh_frame_len _text_lo _text_hi : Z) : Z := -1.
Definition fh_register_jit_auto (_eh_frame _eh_frame_len : Z) : Z := -1.
Definition fh_deregister_jit {W} (_text_lo : Z) : W -> W := nothing.
Definition fh_deregister_jit_eh_frame {W} (_eh_frame : Z) : W -> W := nothing.
